(* ===== verification/_CoqProject ===== *)
-Q . S2P
Prelude.v
CStr.v
PTree.v
PSearch.v
PJoin.v
PHeap.v
RbTree.v
RbHeap.v
RbWalk.v
RbInsert.v
RbErase.v
RbIter.v
RbMap.v
TimerQueue.v
RbProps.v
Splay.v
Avl.v
McList.v
CInt.v
CArr.v
CBuf.v
Sort.v
Base64.v
Md5.v
Md5Props.v
ThreadPool.v
ThreadPoolProps.v
ProxyUtil.v
Proxy.v
Hoare.v
ProxyProps.v
Cksum.v
Icmp.v
CDouble.v
Ping.v
Dns.v
Hosts.v
CDec.v
Json.v
JsonLib.v
Idc.v
Copy.v
Dhcp.v
Download.v
Log.v
ObjCache.v
TextTools.v
CountSort.v
Exercises.v
EvServer.v
SelectServer.v
HttpClient.v
EpollServer.v
MsgServer.v
NetStatus.v
Pcap.v
Forward.v
