(* ===== verification/Prelude.v ===== *)
(** * Verification of the datastructure repository

    The repository collects data structures, algorithms and small network
    programs in C.  This library models the parts written for it in Rocq and
    proves what they do, including where they fail.

    ** Reading the models

    A C function becomes a Rocq function of the same name.  Code that works on
    memory is a computation in the monad [M S] of this file over an explicit
    state [S]; it returns a value and a new state or stops with a [fault]: a
    bad memory access, a failed assertion, a string without NUL, a call of
    exit, or the end of the fuel that the model of a loop carries.  So a
    theorem that a function returns [Ok] includes that it follows no bad
    pointer and that its loops end; the fuel is a bound on the number of
    rounds that the entry points take from the state (the number of nodes in
    memory, the length of the input) or, for the file copy, an argument that a
    theorem bounds.  Machine integers are integers with their wrap-around
    written out (CInt.v), a buffer is the list of its elements with checked
    accesses (CArr.v, CBuf.v), memory is little-endian where that matters.

    Operating system and libraries that are not part of the sources are
    parameters: type classes with one operation per call, and where a theorem
    needs it a second class with what their documentation says of the calls.
    Each of them has a concrete instance, so that the theorems are not about
    nothing.

    ** The parts

    - Trees with parent pointers: PTree.v, PSearch.v, PJoin.v and PHeap.v are
      the shared library: the abstract tree a memory holds, contexts, search
      paths, rotations.
      -- src/tree/rbtree/rbtree.h, rbtree.c: RbTree.v is the code, RbHeap.v,
         RbWalk.v, RbInsert.v, RbErase.v and RbIter.v the proofs.  The maps of
         rbtree-data.c and rbtree-test.c are in RbMap.v, the timer queue of
         rbtree-list.c in TimerQueue.v, the properties of all in RbProps.v.
         Insertion and removal keep a red-black tree and change the in-order
         sequence by exactly one node; the maps and the queue implement a
         finite map and a sorted list.
      -- src/tree/avltree.c: Avl.v.  Insertion keeps a balanced search tree;
         the first insertion dereferences a null pointer.
      -- src/tree/splaytree/splay.c: Splay.v.  Splaying keeps the sequence and
         makes the node the root, insertion and removal change the set;
         removing the last node dereferences a null pointer.
    - src/list/gap_mclist.h, list.c: McList.v.  Rings in one memory, with the
      operations that add, move, replace and remove entries and the loops.
    - src/sort/sort.c, src/util/util.c: Sort.v.  Both sorts sort.
    - src/crypt/base64.c: Base64.v.  The code of RFC 4648, and the round trip.
    - src/md5sum/md5.c, md5.h, calc.c: Md5.v (code), Md5Props.v.  The digest is
      that of RFC 1321, however the message is cut into pieces.
    - src/thread/pool/thread_pool.c: ThreadPool.v (a step function with one
      program counter per thread), ThreadPoolProps.v.  In every interleaving
      without tpool_destroy there are no bad accesses, works are taken in
      order and run once, and every run ends with all of them done;
      tpool_destroy frees the pool under the workers.
    - src/socket/proxy/: ProxyUtil.v (util.c), Proxy.v (client.c, proxy.c),
      ProxyProps.v, with the rules for programs that may stop early in Hoare.v.
      Whatever the operating system answers, the poll loop stops early only at
      a failed assertion or in a string that was received without NUL.
    - src/socket/icmp.c, ping.c, dnspacket.c: Cksum.v (both checksums are that
      of RFC 1071), Icmp.v, Ping.v (with CDouble.v), Dns.v.  The packets that
      are sent and what is made of the answers.
    - src/file/readhosts.c and modify_hostsfile of src/json/parseidc.c:
      Hosts.v.  Counting and replacing the entries of a hosts file.
    - src/json/parseidc.c: Idc.v.  From a JSON document to the hosts file.
      Json.v is the interface to json-c, JsonLib.v an implementation of it.
    - src/file/copywrite.c: Copy.v.  The copy loop under short, interrupted and
      failing calls.
    - src/socket/libevent/: Dhcp.v (dhcpinfo.c, the handler of lemongateway.c,
      the list of stations of client.c) and NetStatus.v (the rest of client.c,
      client/ping.c).  Client and server exchange the addresses of stations;
      in one round the client connects, asks for the addresses and measures
      the delays, or does without them if it gets no connection or no header.
    - src/socket/libcurl/multithreaddownload.c: Download.v.  Each thread
      asks for a range and stores what arrives within its piece, in any order
      and whatever the server sends; ranges that are answered make up the file.
    - src/log/log.c and its copies under src/socket/libevent/: Log.v.  The log
      files together hold what was logged last.
    - src/kernel/lock/: ObjCache.v.  A cache of reference-counted objects that
      many clients use; the class [Counting] is what it needs of the counters,
      which are changed under a lock or atomically.
    - src/socket/select_asyn_webserver.c: SelectServer.v.  The descriptors the
      server watches are those it has open; the first of 1024 or more is
      written behind its sets.
    - src/socket/epoll_test2.c: EpollServer.v.  The server is told once that
      something has arrived and takes all of it; nothing waits unnoticed.  What
      the peers send in one run is finite, which bounds the rounds of the loops
      that take it.
    - src/socket/epoll_example.c: Forward.v.  A proxy for a port; what arrives on
      one side of a connection goes to its other side only.
    - src/pcap/pcaploop.c: Pcap.v.  The table of interfaces, the mask of the one
      chosen and what is read from a packet, with the bytes behind a field in
      memory as an argument.
    - src/socket/selecttest.c, polltest.c: MsgServer.v.  Messages of ten bytes
      are put together from the pieces that arrive.
    - src/libev/server.c, buffer.c: EvServer.v.  What happens to a connection
      and its buffer when data arrives, with the faults of the callback.
    - src/specific/upgrade.c, src/socket/network_check.c: HttpClient.v.  Reading
      a reply into a buffer.
    - src/test/memcasestr.c, bitcheck.c, str2dec.c: TextTools.v; src/problem/
      sort-On.c, sort.c: CountSort.v; src/polipo/ffs.c, src/test/delteinarr.c,
      walkips.c, src/problem/revert.c: Exercises.v (with CDec.v, numbers in
      decimal).  Searching, digits, sorting by counting and other small loops.

    Theorems named [_correct] say what an operation does on all its branches
    for well-formed states, [_safe] what no operation ever does,
    [_crash], [_lost], [_overflows] and the like are runs in which the code
    does not do what it is meant to.  A lemma with the suffix [_witness]
    applies the theorem at a concrete input.

    ** Assumptions

    Allocation succeeds in the proxy, the lists, the JSON programs and the
    trees; where the code checks it (the thread pool, the ICMP sender) it may
    fail.  The limit on the number of open descriptors, where a program depends
    on it, is a field of the class of its kernel ([nofile]).  Where a call is
    repeated after an interrupt, there is a bound on the interrupts in a row.
    The curl library gives up a transfer whose write callback reports a short
    write.  A detached thread is joined at once, with an error.  Addresses of
    tree nodes are multiples of four.  Messages printed with printf are not
    modelled, except that a string that is printed must end in its buffer
    where the code could print one that does not.

    ** Not modelled

    Copies of third-party code (zlib, gzip, cJSON, the wireless tools, the
    layer 7 patch), kernel modules (but those of src/kernel/lock), programs in
    other languages, and programs that consist of calls to the operating system
    or a library (most examples under src/socket, src/test, src/libevent,
    src/libev, src/netlink, src/crypt/openssl and others): what they do is
    what the system or the library does.  Of the programs that are modelled,
    reading of options and configuration files, the creation of sockets where
    only its success matters, and handlers that end the program are left out
    where the note of the component says so. *)

From stdpp Require Export base decidable option numbers list gmap sorting.
From stdpp Require Export fin_maps fin_map_dom.
From Stdlib Require Export ZArith Lia.

Declare Scope c_scope.
Delimit Scope c_scope with C.
#[global] Open Scope Z_scope.

(** ** The effects of C code

    A computation over a memory state [S] returns a value and a new state, or
    stops with an error: [Segv] for an access to memory that is not
    allocated (a null or dangling pointer, an index out of range), [Fuel]
    when a loop has not finished within the bound its model carries, [Abort]
    for a failed [assert], [Overread] for a string function that finds no NUL
    in its buffer and [Exit] when the program calls [exit]. *)
Inductive fault := Segv | Fuel | Abort | Overread | Exit.

Inductive res (A : Type) := Ok (a : A) | Err (e : fault).
Arguments Ok {A} a.
Arguments Err {A} e.

#[export] Instance fault_eq_dec : EqDecision fault.
Proof. solve_decision. Defined.

Definition M (S A : Type) : Type := S → res (A * S).

#[export] Instance M_ret S : MRet (M S) := λ A a s, Ok (a, s).
#[export] Instance M_bind S : MBind (M S) := λ A B f m s,
  match m s with Ok (a, s') => f a s' | Err e => Err e end.

Definition fail {S A} (e : fault) : M S A := λ _, Err e.
Definition gets {S A} (f : S → A) : M S A := λ s, Ok (f s, s).
Definition modify {S} (f : S → S) : M S unit := λ s, Ok ((), f s).

Section monad_laws.
Context {S : Type}.

Lemma bind_ok {A B} (m : M S A) (f : A → M S B) s a s' :
  m s = Ok (a, s') → (m ≫= f) s = f a s'.
Proof. intros E. unfold mbind, M_bind. by rewrite E. Qed.

Lemma bind_err {A B} (m : M S A) (f : A → M S B) s e :
  m s = Err e → (m ≫= f) s = Err e.
Proof. intros E. unfold mbind, M_bind. by rewrite E. Qed.

Lemma bind_ok_inv {A B} (m : M S A) (f : A → M S B) s b s' :
  (m ≫= f) s = Ok (b, s') → ∃ a s1, m s = Ok (a, s1) ∧ f a s1 = Ok (b, s').
Proof.
  unfold mbind, M_bind. destruct (m s) as [[a s1]|e] eqn:E; [|done]. eauto.
Qed.

Lemma bind_assoc {A B C} (m : M S A) (f : A → M S B) (g : B → M S C) s :
  ((m ≫= f) ≫= g) s = (m ≫= (λ a, f a ≫= g)) s.
Proof. unfold mbind, M_bind. by destruct (m s) as [[a s']|e]. Qed.

Lemma ret_ok {A} (a : A) (s : S) : (mret a : M S A) s = Ok (a, s).
Proof. done. Qed.
End monad_laws.

(** Run the first action of a bind with a lemma that gives its outcome. *)
Tactic Notation "run" uconstr(H) := rewrite ?bind_assoc, (bind_ok _ _ _ _ _ H).

(** ** Pointers *)
Definition NULL : Z := 0.

Create HintDb ptree.

(** ** Distinctness of addresses

    Most side conditions of a pointer program say that two addresses differ,
    or that an address is not in some part of a structure, because a list of
    addresses that contains both has no duplicates.  They are decided by
    counting: [occ x L] is at most one for every [x], and it is linear in the
    parts of [L]. *)
Fixpoint occ (x : Z) (l : list Z) : nat :=
  match l with [] => 0 | y :: l => (if decide (x = y) then 1 else 0) + occ x l end.

Lemma occ_app x (l l' : list Z) : occ x (l ++ l') = (occ x l + occ x l')%nat.
Proof. induction l; simpl; lia. Qed.

Lemma occ_cons x y (l : list Z) : occ x (y :: l) = ((if decide (x = y) then 1 else 0) + occ x l)%nat.
Proof. done. Qed.

Lemma occ_nil x : occ x [] = 0%nat.
Proof. done. Qed.

Lemma elem_of_occ x (l : list Z) : x ∈ l ↔ (1 ≤ occ x l)%nat.
Proof.
  induction l as [|y l IH]; simpl; [rewrite elem_of_nil; lia|].
  rewrite elem_of_cons. case_decide; [split; [lia|by left]|].
  rewrite IH. split; [intros [?|?]; [done|lia]|right; lia].
Qed.

Lemma not_elem_of_occ x (l : list Z) : x ∉ l ↔ occ x l = 0%nat.
Proof. rewrite elem_of_occ. lia. Qed.

Lemma NoDup_occ (l : list Z) : NoDup l ↔ ∀ x, (occ x l ≤ 1)%nat.
Proof.
  induction l as [|y l IH]; simpl; [split; [lia|constructor]|].
  rewrite NoDup_cons, IH, not_elem_of_occ. split.
  - intros [Hy Hl] x. specialize (Hl x). case_decide; subst; lia.
  - intros H. split; [specialize (H y); rewrite decide_True in H by done; lia|].
    intros x. specialize (H x). lia.
Qed.

#[export] Hint Rewrite occ_app occ_cons occ_nil : occ.

Ltac occ_at x :=
  repeat match goal with
  | H : NoDup ?L |- _ =>
      let H' := fresh in
      pose proof (proj1 (NoDup_occ L) H x) as H'; clear H
  end.

(** Decides [x ≠ y], [x ∉ l] and [False] from the [NoDup], [∈] and [∉]
    hypotheses. *)
Ltac occ_solve x :=
  occ_at x;
  repeat match goal with
  | H : _ ∈ _ |- _ => rewrite elem_of_occ in H
  | H : _ ∉ _ |- _ => rewrite not_elem_of_occ in H
  end;
  autorewrite with occ in *;
  repeat (case_decide; try lia; try congruence); try lia; try congruence.

Ltac nd :=
  lazymatch goal with
  | |- ?x ≠ ?y => let E := fresh in intros E;
      first [subst x; occ_solve y | subst y; occ_solve x | rewrite E in *; occ_solve y]
  | |- ?x ∉ _ => let E := fresh in intros E; occ_solve x
  end.

Lemma StronglySorted_insert {A} (R : relation A) l1 x l2 :
  StronglySorted R (l1 ++ l2) → Forall (λ y, R y x) l1 → Forall (R x) l2 →
  StronglySorted R (l1 ++ x :: l2).
Proof.
  rewrite !StronglySorted_app, !Forall_forall. intros (H & H1 & H2) Hl Hr. split; [|split; [done|]].
  - intros y z Hy [->|Hz]%elem_of_cons; auto.
  - constructor; [done|]. by apply Forall_forall.
Qed.

Lemma StronglySorted_remove {A} (R : relation A) l1 x l2 :
  StronglySorted R (l1 ++ x :: l2) → StronglySorted R (l1 ++ l2).
Proof.
  rewrite !StronglySorted_app. intros (H & H1 & H2). apply StronglySorted_inv in H2 as [H2 _].
  split; [|done]. intros y z Hy Hz. apply H; [done|]. by right.
Qed.

Lemma StronglySorted_weaken {A} (R R' : relation A) l :
  (∀ x y, x ∈ l → y ∈ l → R x y → R' x y) → StronglySorted R l → StronglySorted R' l.
Proof.
  intros HR Hl. induction Hl as [|x l Hl IH Hx]; constructor.
  - apply IH. intros y z Hy Hz. apply HR; by right.
  - apply Forall_forall. intros y Hy. rewrite Forall_forall in Hx. apply HR; [by left|by right|auto].
Qed.

Lemma Forall2_weaken {A B} (R R' : A → B → Prop) l m :
  (∀ x y, x ∈ l → y ∈ m → R x y → R' x y) → Forall2 R l m → Forall2 R' l m.
Proof.
  intros H Hl. induction Hl as [|x y l m Hxy Hl IH]; constructor.
  - apply H; [by left|by left|done].
  - apply IH. intros a b Ha Hb. apply H; by right.
Qed.

(** An element of a list without duplicates splits it in one way. *)
Lemma split_at_unique (a : Z) xs ys xs' ys' :
  xs ++ a :: ys = xs' ++ a :: ys' → NoDup (xs ++ a :: ys) → xs = xs' ∧ ys = ys'.
Proof.
  revert xs'. induction xs as [|x xs IH]; intros [|x' xs'] E Hn; simpl in *.
  - by injection E.
  - injection E as <- ->. apply NoDup_cons in Hn as [Hn _]. destruct Hn. set_solver +.
  - injection E as -> <-. apply NoDup_cons in Hn as [Hn _]. destruct Hn. set_solver +.
  - injection E as <- E. apply NoDup_cons in Hn as [_ Hn]. by destruct (IH xs' E Hn) as [-> ->].
Qed.

(** In-order lists that differ in the grouping of [++] only. *)
Ltac flat := simpl; repeat (rewrite <-app_assoc; simpl); try reflexivity.

Lemma sum_list_with_insert {A} (f : A → nat) (l : list A) i x y :
  l !! i = Some x → (sum_list_with f (<[i := y]> l) + f x = sum_list_with f l + f y)%nat.
Proof.
  revert i. induction l as [|z l IH]; intros [|i] E; simplify_eq/=; [lia|]. specialize (IH i E). lia.
Qed.
