(* ===== verification/CStr.v ===== *)
(** * C strings

    A C string is the list of its bytes before the terminating NUL, as
    [unsigned char] values between 1 and 255. *)

From S2P Require Import Prelude.

Definition cstring := list Z.
Definition is_cstring (s : cstring) : Prop := Forall (λ c, 1 <= c <= 255) s.

#[export] Instance is_cstring_dec s : Decision (is_cstring s).
Proof. apply Forall_dec. intros c. apply _. Defined.

(** [strcmp]: the difference of the first bytes that differ, the terminator
    of the shorter string being 0. *)
Fixpoint strcmp (a b : cstring) : Z :=
  match a, b with
  | [], [] => 0
  | [], y :: _ => 0 - y
  | x :: _, [] => x - 0
  | x :: a, y :: b => if x =? y then strcmp a b else x - y
  end.

Definition str_lt (a b : cstring) : Prop := strcmp a b < 0.

Lemma strcmp_refl a : strcmp a a = 0.
Proof. induction a as [|x a IH]; simpl; [done|]. by rewrite Z.eqb_refl. Qed.

Lemma strcmp_antisym a b : strcmp b a = - strcmp a b.
Proof.
  revert b. induction a as [|x a IH]; intros [|y b]; simpl; try lia.
  rewrite (Z.eqb_sym y x). destruct (Z.eqb_spec x y); [apply IH|lia].
Qed.

Lemma strcmp_eq a b : is_cstring a → is_cstring b → strcmp a b = 0 → a = b.
Proof.
  intros Ha. revert b. induction Ha as [|x a Hx Ha IH]; intros b Hb E.
  - destruct Hb as [|y b Hy Hb]; [done|simpl in E; lia].
  - destruct Hb as [|y b Hy Hb]; simpl in E; [lia|].
    destruct (Z.eqb_spec x y) as [->|]; [by rewrite (IH b)|lia].
Qed.

Lemma str_lt_trans a b c :
  is_cstring a → is_cstring b → is_cstring c → str_lt a b → str_lt b c → str_lt a c.
Proof.
  unfold str_lt. intros Ha Hb. revert a c Ha. induction Hb as [|y b Hy Hb IH]; intros a c Ha Hc;
    destruct Ha as [|x a Hx Ha], Hc as [|z c Hz Hc]; simpl; try lia.
  repeat case_match; try lia; repeat match goal with H : (_ =? _) = true |- _ => apply Z.eqb_eq in H
    | H : (_ =? _) = false |- _ => apply Z.eqb_neq in H end; subst; try lia; eauto.
Qed.

Lemma str_lt_irrefl a : ¬ str_lt a a.
Proof. unfold str_lt. rewrite strcmp_refl. lia. Qed.
