(* ===== verification/PTree.v ===== *)
(** * Binary trees in memory with parent pointers

    The red-black tree (src/tree/rbtree), the AVL tree (src/tree/avltree.c)
    and the splay tree (src/tree/splaytree/splay.c) all link their nodes with
    a left, a right and a parent pointer.  This file gives the abstract tree
    such a heap stands for, the predicate [owns] that relates the two, the
    one-hole contexts that single out a node inside a tree, and the lemmas
    that turn the pointer updates of a rotation or of a splice into an
    operation on the abstract tree.  It is generic in the struct: the class
    [TreeNode] says how a struct is made of the three pointers and a payload. *)

From S2P Require Import Prelude.

(** The abstract tree: each node has its address and its payload. *)
Inductive tree (P : Type) :=
  | Leaf
  | Node (l : tree P) (a : Z) (d : P) (r : tree P).
Arguments Leaf {P}.
Arguments Node {P} l a d r.

(** What the trees need of a struct: [mk_cell parent left right payload], and
    the addresses at which such a struct may live. *)
#[export] Instance leaf_dec {P} (t : tree P) : Decision (t = Leaf).
Proof. by destruct t; [left|right]. Defined.

Class TreeNode (P cell : Type) := {
  mk_cell : Z → Z → Z → P → cell;
  ok_addr : Z → Prop;
  ok_addr_nonnull a : ok_addr a → a ≠ NULL
}.

(** A step of a path from the root: the hole is the left or the right child. *)
Inductive frame (P : Type) :=
  | FL (a : Z) (d : P) (r : tree P)
  | FR (l : tree P) (a : Z) (d : P).
Arguments FL {P} a d r.
Arguments FR {P} l a d.

Section trees.
Context {P : Type}.
Implicit Types (t : tree P) (f : frame P) (k : list (frame P)).

Definition raddr t : Z := match t with Leaf => NULL | Node _ a _ _ => a end.

Fixpoint addrs t : list Z :=
  match t with Leaf => [] | Node l a _ r => addrs l ++ a :: addrs r end.

(** The in-order list of nodes with their payloads. *)
Fixpoint items t : list (Z * P) :=
  match t with Leaf => [] | Node l a d r => items l ++ (a, d) :: items r end.

Fixpoint height t : nat :=
  match t with Leaf => 0 | Node l _ _ r => S (height l `max` height r) end.

Definition faddr f : Z := match f with FL a _ _ => a | FR _ a _ => a end.
Definition fdata f : P := match f with FL _ d _ => d | FR _ _ d => d end.
Definition fsib f : tree P := match f with FL _ _ r => r | FR l _ _ => l end.

Definition fill f t : tree P :=
  match f with FL a d r => Node t a d r | FR l a d => Node l a d t end.

(** The frame with another payload, and the frame of the sibling. *)
Definition fset (d : P) f : frame P :=
  match f with FL a _ r => FL a d r | FR l a _ => FR l a d end.
Definition fflip f t : frame P :=
  match f with FL a d _ => FR t a d | FR _ a d => FL a d t end.

Lemma raddr_fill f t : raddr (fill f t) = faddr f.
Proof. by destruct f. Qed.

Lemma fill_fflip f t : fill (fflip f t) (fsib f) = fill f t.
Proof. by destruct f. Qed.

(** The innermost frame is the head of the list. *)
Fixpoint plug t k : tree P :=
  match k with [] => t | f :: k' => plug (fill f t) k' end.

(** The address of the parent of the hole. *)
Definition caddr k : Z := match k with [] => NULL | f :: _ => faddr f end.

Fixpoint caddrs k : list Z :=
  match k with [] => [] | f :: k' => faddr f :: addrs (fsib f) ++ caddrs k' end.

Lemma caddrs_app k k' : caddrs (k ++ k') = caddrs k ++ caddrs k'.
Proof. induction k as [|f k IH]; cbn [caddrs app]; [done|]. by rewrite IH, app_comm_cons, app_assoc. Qed.

Lemma items_addrs t : (items t).*1 = addrs t.
Proof. induction t as [|l IHl a d r IHr]; csimpl; [done|]. by rewrite fmap_app, IHl, <-IHr. Qed.

Lemma plug_app t k1 k2 : plug t (k1 ++ k2) = plug (plug t k1) k2.
Proof. revert t. induction k1; intros t; simpl; auto. Qed.

Lemma addrs_fill f t : addrs (fill f t) ≡ₚ faddr f :: addrs t ++ addrs (fsib f).
Proof. destruct f; simpl; [|rewrite (Permutation_app_comm (addrs t))]; by rewrite Permutation_middle. Qed.

Lemma addrs_plug t k : addrs (plug t k) ≡ₚ addrs t ++ caddrs k.
Proof.
  revert t. induction k as [|f k IH]; intros t; simpl; [by rewrite app_nil_r|].
  rewrite IH, addrs_fill. simpl. rewrite <-app_assoc. apply Permutation_middle.
Qed.

(** Replacing a subtree by one with the same in-order items keeps the items. *)
Lemma items_plug_ext t t' k : items t = items t' → items (plug t k) = items (plug t' k).
Proof.
  revert t t'. induction k as [|f k IH]; intros t t' E; simpl; [done|].
  apply IH. destruct f; simpl; by rewrite E.
Qed.

(** The in-order lists before and after the hole of a context. *)
Fixpoint cpre k : list Z :=
  match k with
  | [] => [] | FL _ _ _ :: k' => cpre k' | FR l a _ :: k' => cpre k' ++ addrs l ++ [a]
  end.
Fixpoint cpost k : list Z :=
  match k with
  | [] => [] | FL a _ r :: k' => a :: addrs r ++ cpost k' | FR _ _ _ :: k' => cpost k'
  end.

Lemma addrs_plug_split t k : addrs (plug t k) = cpre k ++ addrs t ++ cpost k.
Proof.
  revert t. induction k as [|[a d r|l a d] k IH]; intros t; simpl; [by rewrite app_nil_r|..];
    rewrite IH; simpl; by repeat (rewrite <-app_assoc; simpl).
Qed.

Fixpoint ipre k : list (Z * P) :=
  match k with
  | [] => [] | FL _ _ _ :: k' => ipre k' | FR l a d :: k' => ipre k' ++ items l ++ [(a, d)]
  end.
Fixpoint ipost k : list (Z * P) :=
  match k with
  | [] => [] | FL a d r :: k' => (a, d) :: items r ++ ipost k' | FR _ _ _ :: k' => ipost k'
  end.

Lemma items_plug_split t k : items (plug t k) = ipre k ++ items t ++ ipost k.
Proof.
  revert t. induction k as [|[a d r|l a d] k IH]; intros t; simpl; [by rewrite app_nil_r|..];
    rewrite IH; simpl; by repeat (rewrite <-app_assoc; simpl).
Qed.

Lemma cpre_items k : cpre k = (ipre k).*1.
Proof.
  induction k as [|[a d r|l a d] k IH]; csimpl; [done|done|]. by rewrite !fmap_app, IH, items_addrs.
Qed.

Lemma cpost_items k : cpost k = (ipost k).*1.
Proof.
  induction k as [|[a d r|l a d] k IH]; csimpl; [done| |done]. by rewrite fmap_app, IH, items_addrs.
Qed.

Lemma addrs_plug_ext t t' k : addrs t = addrs t' → addrs (plug t k) = addrs (plug t' k).
Proof.
  revert t t'. induction k as [|f k IH]; intros t t' E; simpl; [done|].
  apply IH. destruct f; simpl; by rewrite E.
Qed.

Lemma raddr_plug_cons t f k : raddr (plug t (f :: k)) = raddr (plug (fill f t) k).
Proof. done. Qed.

(** The root's address depends on the hole only when the context is empty. *)
Lemma raddr_plug_ext t t' k :
  k ≠ [] ∨ raddr t = raddr t' → raddr (plug t k) = raddr (plug t' k).
Proof.
  revert t t'. induction k as [|f k IH]; intros t t' [H|H]; simpl; try done;
    apply IH; right; by destruct f.
Qed.

(** Any node of a tree is the focus of some context. *)
Lemma addrs_focus t a :
  a ∈ addrs t → ∃ l d r k, t = plug (Node l a d r) k.
Proof.
  induction t as [|l IHl b d r IHr]; simpl; [by rewrite elem_of_nil|].
  rewrite elem_of_app, elem_of_cons. intros [Hl|[->|Hr]].
  - destruct (IHl Hl) as (l' & d' & r' & k & ->).
    exists l', d', r', (k ++ [FL b d r]). by rewrite plug_app.
  - by exists l, d, r, [].
  - destruct (IHr Hr) as (l' & d' & r' & k & ->).
    exists l', d', r', (k ++ [FR l b d]). by rewrite plug_app.
Qed.

Lemma raddr_plug_in t f k : raddr (plug t (f :: k)) ∈ caddrs (f :: k).
Proof.
  revert t f. induction k as [|g k IH]; intros t f; simpl.
  - rewrite raddr_fill. set_solver.
  - specialize (IH (fill f t) g). simpl in IH. set_solver.
Qed.

(** The leftmost node of a subtree is at the end of a path of left steps. *)
Definition is_FL f : Prop := match f with FL _ _ _ => True | FR _ _ _ => False end.
Definition is_FR f : Prop := match f with FL _ _ _ => False | FR _ _ _ => True end.

Lemma addrs_left_path k :
  Forall is_FL k → ∃ rest, ∀ t, addrs (plug t k) = addrs t ++ rest.
Proof.
  induction 1 as [|f k Hf Hk [rest IH]]; simpl.
  - exists []. intros t. by rewrite app_nil_r.
  - destruct f as [a d r|]; [|done]. exists (a :: addrs r ++ rest). intros t. rewrite IH. flat.
Qed.

Lemma addrs_right_path k :
  Forall is_FR k → ∃ rest, ∀ t, addrs (plug t k) = rest ++ addrs t.
Proof.
  induction 1 as [|f k Hf Hk [rest IH]]; simpl.
  - by exists [].
  - destruct f as [|l a d]; [done|]. exists (rest ++ addrs l ++ [a]). intros t. rewrite IH. flat.
Qed.

(** With a path that is not empty, the root of a plugged tree and the
    addresses of its children do not depend on the tree in the hole, only on
    its address. *)
Lemma plug_root_ext t t' f k :
  raddr t = raddr t' → ∃ l l' a d r r',
    plug t (f :: k) = Node l a d r ∧ plug t' (f :: k) = Node l' a d r' ∧
    raddr l = raddr l' ∧ raddr r = raddr r'.
Proof.
  revert t t' f. induction k as [|g k IH]; intros t t' f E.
  - destruct f; simpl; eexists _, _, _, _, _, _; split_and!; done.
  - apply (IH (fill f t) (fill f t') g). by destruct f.
Qed.

End trees.


(** ** Layout in memory *)
Section layout.
Context {P cell : Type} `{TN : TreeNode P cell}.
Implicit Types (t : tree P) (f : frame P) (k : list (frame P)) (h F : gmap Z cell).

(** The tree [t], whose root has the parent [par], is laid out in [h]. *)
Fixpoint rep h (par : Z) t : Prop :=
  match t with
  | Leaf => True
  | Node l a d r =>
      h !! a = Some (mk_cell par (raddr l) (raddr r) d) ∧ rep h a l ∧ rep h a r
  end.

(** The struct of a frame whose parent is [par] and whose hole holds [x]. *)
Definition fcell (par x : Z) f : cell :=
  match f with
  | FL a d r => mk_cell par x (raddr r) d
  | FR l a d => mk_cell par (raddr l) x d
  end.

Fixpoint crep h k (x : Z) : Prop :=
  match k with
  | [] => True
  | f :: k' =>
      h !! faddr f = Some (fcell (caddr k') x f) ∧
      rep h (faddr f) (fsib f) ∧ crep h k' (faddr f)
  end.

(** [owns F h t]: the heap [h] holds the tree [t] at distinct, valid
    addresses, and every other address has its content in [F]. *)
Record owns F h t : Prop := {
  owns_nodup : NoDup (addrs t);
  owns_ok : Forall ok_addr (addrs t);
  owns_rep : rep h NULL t;
  owns_frame a : a ∉ addrs t → h !! a = F !! a
}.

Lemma rep_plug h t k :
  rep h NULL (plug t k) ↔ rep h (caddr k) t ∧ crep h k (raddr t).
Proof.
  revert t. induction k as [|f k IH]; intros t; simpl; [tauto|].
  rewrite IH. destruct f; simpl; tauto.
Qed.

Lemma rep_same h h' par t :
  (∀ a, a ∈ addrs t → h' !! a = h !! a) → rep h par t → rep h' par t.
Proof.
  revert par. induction t as [|l IHl a d r IHr]; intros par E; simpl in *; [done|].
  intros (Ea & Hl & Hr). split_and!.
  - rewrite E; [done|]. set_solver.
  - apply IHl; [|done]. set_solver.
  - apply IHr; [|done]. set_solver.
Qed.

Lemma crep_same h h' k x :
  (∀ a, a ∈ caddrs k → h' !! a = h !! a) → crep h k x → crep h' k x.
Proof.
  revert x. induction k as [|f k IH]; intros x E; simpl in *; [done|].
  intros (Ea & Hs & Hk). split_and!.
  - rewrite E; [done|]. set_solver.
  - eapply rep_same; [|done]. set_solver.
  - apply IH; [|done]. set_solver.
Qed.

(** A subtree gets a new parent: only the struct of its root changes. *)
Lemma rep_reparent h h' par par' t :
  NoDup (addrs t) → rep h par t →
  (∀ l a d r, t = Node l a d r →
     h' !! a = Some (mk_cell par' (raddr l) (raddr r) d)) →
  (∀ a, a ∈ addrs t → a ≠ raddr t → h' !! a = h !! a) →
  rep h' par' t.
Proof.
  destruct t as [|l a d r]; simpl; [done|].
  rewrite NoDup_app, NoDup_cons. setoid_rewrite elem_of_cons.
  intros (Hl & Hlr & Har & Hr) (Ea & Rl & Rr) Ha E. split_and!.
  - by apply Ha.
  - eapply rep_same; [|exact Rl]. intros b Hb. apply E; set_solver.
  - eapply rep_same; [|exact Rr]. intros b Hb. apply E; set_solver.
Qed.

(** The hole of a context gets another subtree: only the struct of the
    innermost frame changes. *)
Lemma crep_retarget h h' k x x' :
  NoDup (caddrs k) → crep h k x →
  (∀ f k', k = f :: k' → h' !! faddr f = Some (fcell (caddr k') x' f)) →
  (∀ a, a ∈ caddrs k → a ≠ caddr k → h' !! a = h !! a) →
  crep h' k x'.
Proof.
  destruct k as [|f k]; simpl; [done|].
  rewrite NoDup_cons, elem_of_app. intros [Hf _] (Ef & Rs & Rk) H E. split_and!.
  - by apply H.
  - eapply rep_same; [|exact Rs]. intros b Hb. apply E; set_solver.
  - eapply crep_same; [|exact Rk]. intros b Hb. apply E; set_solver.
Qed.

Lemma owns_lookup F h l a d r k :
  owns F h (plug (Node l a d r) k) →
  h !! a = Some (mk_cell (caddr k) (raddr l) (raddr r) d).
Proof. intros O. destruct (proj1 (rep_plug _ _ _) (owns_rep _ _ _ O)) as [(? & _) _]. done. Qed.

Lemma owns_lookup_frame F h t f k :
  owns F h (plug t (f :: k)) → h !! faddr f = Some (fcell (caddr k) (raddr t) f).
Proof. intros O. destruct (proj1 (rep_plug _ _ _) (owns_rep _ _ _ O)) as [_ (? & _)]. done. Qed.

Lemma owns_split F h t k :
  owns F h (plug t k) ↔
  NoDup (addrs t ++ caddrs k) ∧ Forall ok_addr (addrs t ++ caddrs k) ∧
  rep h (caddr k) t ∧ crep h k (raddr t) ∧
  (∀ a, a ∉ addrs t → a ∉ caddrs k → h !! a = F !! a).
Proof.
  split.
  - intros [Hn Ho Hr Hf]. rewrite rep_plug in Hr. rewrite addrs_plug in Hn, Ho.
    split_and!; try done; try apply Hr. intros a Ha Hb. apply Hf.
    rewrite addrs_plug, elem_of_app. tauto.
  - intros (Hn & Ho & Hr & Hc & Hf). split.
    + by rewrite addrs_plug.
    + by rewrite addrs_plug.
    + by rewrite rep_plug.
    + intros a. rewrite addrs_plug, elem_of_app. intros. apply Hf; tauto.
Qed.

Lemma owns_ok_focus F h l a d r k : owns F h (plug (Node l a d r) k) → ok_addr a.
Proof.
  intros O. pose proof (owns_ok _ _ _ O) as Ho. rewrite addrs_plug, Forall_app in Ho.
  destruct Ho as [Ho _]. simpl in Ho. rewrite Forall_app, Forall_cons in Ho. tauto.
Qed.

Lemma owns_ok_frame F h t f k : owns F h (plug t (f :: k)) → ok_addr (faddr f).
Proof.
  intros O. pose proof (owns_ok _ _ _ O) as Ho.
  rewrite addrs_plug, Forall_app in Ho. destruct Ho as [_ Ho]. simpl in Ho.
  rewrite Forall_cons in Ho. tauto.
Qed.

(** Every node of the tree is a struct in memory, so a path in the tree is no
    longer than the memory is large. *)
Lemma owns_length F h t : owns F h t → (length (addrs t) ≤ size h)%nat.
Proof.
  intros O. rewrite <-(size_dom h), <-(size_list_to_set (C := gset Z) (addrs t))
    by apply O.
  apply subseteq_size. intros a Ha%elem_of_list_to_set. apply elem_of_dom.
  destruct (addrs_focus t a Ha) as (l & d & r & k & ->).
  by rewrite (owns_lookup _ _ _ _ _ _ _ O).
Qed.

Lemma length_caddrs k : (length k ≤ length (caddrs k))%nat.
Proof. induction k as [|f k IH]; simpl; [done|]. rewrite length_app. lia. Qed.

Lemma owns_depth F h l a d r k :
  owns F h (plug (Node l a d r) k) → (length k < size h)%nat.
Proof.
  intros O. apply Nat.lt_le_trans with (length (addrs (plug (Node l a d r) k)));
    [|by eapply owns_length]. rewrite addrs_plug, length_app. simpl.
  rewrite length_app. pose proof (length_caddrs k). simpl. lia.
Qed.

Lemma height_length t : (height t ≤ length (addrs t))%nat.
Proof. induction t as [|l IHl a d r IHr]; simpl; [lia|]. rewrite length_app. simpl. lia. Qed.

(** A node and its sibling have different addresses. *)
Lemma owns_sibling_ne F h l a d r f k :
  owns F h (plug (Node l a d r) (f :: k)) → a ≠ raddr (fsib f).
Proof.
  intros O. destruct (fsib f) as [|sl x dx sr] eqn:E.
  - simpl. apply ok_addr_nonnull. by eapply owns_ok_focus.
  - pose proof (owns_nodup _ _ _ O) as Hn. rewrite addrs_plug in Hn. simpl in Hn.
    rewrite E in Hn. simpl in *. nd.
Qed.

(** Rewriting the payload of one node. *)
Lemma owns_set_data F h l a d d' r k :
  owns F h (plug (Node l a d r) k) →
  owns F (<[a := mk_cell (caddr k) (raddr l) (raddr r) d']> h) (plug (Node l a d' r) k).
Proof.
  rewrite !owns_split. simpl. intros (Hn & Ho & (Ra & Rl & Rr) & Rk & Hf).
  rewrite !NoDup_app, NoDup_cons in Hn.
  split_and!; try done.
  - by rewrite !NoDup_app, NoDup_cons.
  - by rewrite lookup_insert_eq.
  - eapply rep_same; [|exact Rl]. intros b Hb. rewrite lookup_insert_ne; set_solver.
  - eapply rep_same; [|exact Rr]. intros b Hb. rewrite lookup_insert_ne; set_solver.
  - eapply crep_same; [|exact Rk]. intros b Hb. rewrite lookup_insert_ne; set_solver.
  - intros b Hb Hc. rewrite lookup_insert_ne by set_solver. by apply Hf.
Qed.

(** ** Rotations

    [h'] differs from [h] in the four structs a rotation writes: the two
    nodes [p] and [q], the root of the subtree [b] between them, and the
    parent of the rotated subtree.  The payloads of [p] and [q] may change as
    well (the AVL tree recomputes two heights). *)
Definition rot_same h h' (p q : Z) (b : tree P) k : Prop :=
  (∀ bl x d br, b = Node bl x d br →
     h' !! x = Some (mk_cell p (raddr bl) (raddr br) d)) ∧
  (∀ x, x ≠ p → x ≠ q → (b ≠ Leaf → x ≠ raddr b) → (k ≠ [] → x ≠ caddr k) →
     h' !! x = h !! x).

Definition rot_hole h' k (x : Z) : Prop :=
  ∀ f k', k = f :: k' → h' !! faddr f = Some (fcell (caddr k') x f).

Lemma raddr_in t : t ≠ Leaf → raddr t ∈ addrs t.
Proof. destruct t; simpl; set_solver. Qed.

Lemma caddr_in k : k ≠ [] → caddr k ∈ caddrs k.
Proof. destruct k; simpl; set_solver. Qed.

Ltac rot_ne Hs b k :=
  apply Hs;
  [ nd | nd
  | let Hb := fresh in intros Hb; pose proof (raddr_in b Hb); first [done | nd]
  | let Hk := fresh in intros Hk; pose proof (caddr_in k Hk); first [done | nd] ].

(** The subtrees that keep their parent, the one that gets a new parent, the
    context and the rest of the memory. *)
Section rotation.
Context (F h h' : gmap Z cell) (p q : Z) (a b c : tree P) (k : list (frame P)).
Context (Hn : NoDup (addrs a ++ p :: addrs b ++ q :: addrs c ++ caddrs k)).

(** [n] is the node that moves down, [m] the one that moves up. *)
Lemma rot_parts (n m ap bp cp x : Z) :
  (n = p ∧ m = q) ∨ (n = q ∧ m = p) →
  rep h ap a → rep h bp b → rep h cp c → crep h k x →
  rot_same h h' n m b k → rot_hole h' k m →
  (∀ z, z ∉ addrs a ++ p :: addrs b ++ q :: addrs c → z ∉ caddrs k → h !! z = F !! z) →
  rep h' ap a ∧ rep h' n b ∧ rep h' cp c ∧ crep h' k m ∧
  (∀ z, z ∉ addrs a ++ p :: addrs b ++ q :: addrs c → z ∉ caddrs k → h' !! z = F !! z).
Proof.
  intros Hnm Ra Rb Rc Rk [Hb Hs] Hk Hf.
  assert (NoDup (addrs b)) by (apply NoDup_occ; intros z; occ_at z;
    autorewrite with occ in *; lia).
  assert (NoDup (caddrs k)) by (apply NoDup_occ; intros z; occ_at z;
    autorewrite with occ in *; lia).
  destruct Hnm as [[-> ->]|[-> ->]].
  all: split_and!.
  all: try (eapply rep_same; [|eassumption]; intros z Hz; rot_ne Hs b k).
  all: try (eapply rep_reparent; [done|exact Rb|exact Hb|]; intros z Hz ?; rot_ne Hs b k).
  all: try (eapply crep_retarget; [done|exact Rk|exact Hk|]; intros z Hz ?; rot_ne Hs b k).
  all: intros z Hz1 Hz2; rewrite <-Hf by done; rot_ne Hs b k.
Qed.
End rotation.

Lemma owns_rotate_left F h h' a p dp b q dq c k dp' dq' :
  owns F h (plug (Node a p dp (Node b q dq c)) k) →
  h' !! p = Some (mk_cell q (raddr a) (raddr b) dp') →
  h' !! q = Some (mk_cell (caddr k) p (raddr c) dq') →
  rot_same h h' p q b k → rot_hole h' k q →
  owns F h' (plug (Node (Node a p dp' b) q dq' c) k).
Proof.
  intros O Ep Eq Hs Hk. apply owns_split in O as (Hn & Ho & (Rp & Ra & Rq & Rb & Rc) & Rk & Hf).
  apply owns_split. simpl in *. rewrite <-?app_assoc in *. simpl in *. rewrite <-?app_assoc in *.
  destruct (rot_parts F h h' p q a b c k Hn p q p q q p)
    as (Ra' & Rb' & Rc' & Rk' & Hf'); auto; split_and!; auto.
Qed.

Lemma owns_rotate_right F h h' a q dq b p dp c k dp' dq' :
  owns F h (plug (Node (Node a q dq b) p dp c) k) →
  h' !! p = Some (mk_cell q (raddr b) (raddr c) dp') →
  h' !! q = Some (mk_cell (caddr k) (raddr a) p dq') →
  rot_same h h' p q b k → rot_hole h' k q →
  owns F h' (plug (Node a q dq' (Node b p dp' c)) k).
Proof.
  intros O Ep Eq Hs Hk. apply owns_split in O as (Hn & Ho & (Rp & (Rq & Ra & Rb) & Rc) & Rk & Hf).
  apply owns_split. simpl in *. rewrite <-?app_assoc in *. simpl in *. rewrite <-?app_assoc in *.
  destruct (rot_parts F h h' q p a b c k Hn p q q q p p)
    as (Ra' & Rb' & Rc' & Rk' & Hf'); auto; split_and!; auto.
Qed.

(** The addresses a rotation handles are distinct and not null. *)
Lemma rot_neq F h (p q : Z) (a b c t : tree P) k :
  owns F h (plug t k) → addrs t = addrs a ++ p :: addrs b ++ q :: addrs c →
  p ≠ q ∧ p ≠ NULL ∧ q ≠ NULL ∧
  (b ≠ Leaf → raddr b ≠ p ∧ raddr b ≠ q ∧ raddr b ≠ NULL) ∧
  (k ≠ [] → caddr k ≠ p ∧ caddr k ≠ q ∧ caddr k ≠ NULL ∧ (b ≠ Leaf → caddr k ≠ raddr b)).
Proof.
  intros O E. pose proof (owns_nodup _ _ _ O) as Hn. pose proof (owns_ok _ _ _ O) as Ho.
  rewrite addrs_plug, E in Hn, Ho. rewrite Forall_forall in Ho.
  assert (Hb : b ≠ Leaf → raddr b ∈ addrs b) by apply raddr_in.
  assert (Hk : k ≠ [] → caddr k ∈ caddrs k) by apply caddr_in.
  split; [nd|]. split; [apply ok_addr_nonnull, Ho; set_solver|].
  split; [apply ok_addr_nonnull, Ho; set_solver|]. split.
  - intros Nb. specialize (Hb Nb). split; [nd|]. split; [nd|].
    apply ok_addr_nonnull, Ho. set_solver.
  - intros Nk. specialize (Hk Nk). split; [nd|]. split; [nd|]. split.
    + apply ok_addr_nonnull, Ho. set_solver.
    + intros Nb. specialize (Hb Nb). nd.
Qed.

(** ** Replacing the subtree in the hole *)

Lemma owns_subst F F' h h' t t' k :
  owns F h (plug t k) →
  NoDup (addrs t') → Forall ok_addr (addrs t') → (∀ x, x ∈ addrs t' → x ∉ caddrs k) →
  rep h' (caddr k) t' → rot_hole h' k (raddr t') →
  (∀ x, x ∈ caddrs k → x ≠ caddr k → h' !! x = h !! x) →
  (∀ x, x ∉ addrs t' → x ∉ caddrs k → h' !! x = F' !! x) →
  owns F' h' (plug t' k).
Proof.
  rewrite !owns_split. intros (Hn & Ho & Rt & Rk & Hf) Hn' Ho' Hd Rt' Hk Hs Hf'.
  apply NoDup_app in Hn as (_ & _ & Hn). apply Forall_app in Ho as [_ Ho].
  split_and!; try done.
  - apply NoDup_app. auto.
  - apply Forall_app. auto.
  - by eapply crep_retarget.
Qed.

(** A new node in an empty hole. *)
Lemma owns_graft F h h' k a d :
  owns F h (plug Leaf k) → ok_addr a → a ∉ caddrs k →
  h' !! a = Some (mk_cell (caddr k) NULL NULL d) → rot_hole h' k a →
  (∀ x, x ≠ a → (k ≠ [] → x ≠ caddr k) → h' !! x = h !! x) →
  owns F h' (plug (Node Leaf a d Leaf) k).
Proof.
  intros O Ha Na Ea Hk Hs. eapply owns_subst; [exact O|..]; simpl.
  - apply NoDup_singleton.
  - by apply Forall_singleton.
  - intros x ->%list_elem_of_singleton. done.
  - done.
  - done.
  - intros x Hx Nx. apply Hs; [|done]. by intros ->.
  - intros x Hx Hc. rewrite list_elem_of_singleton in Hx. rewrite Hs; [|done|].
    + apply owns_split in O as (_ & _ & _ & _ & Hf). apply Hf; [apply not_elem_of_nil|done].
    + intros Nk ->. by apply Hc, caddr_in.
Qed.

(** A node with at most one child is replaced by the child [t]. *)
Lemma owns_splice F h h' l a d r t k :
  owns F h (plug (Node l a d r) k) → (l = Leaf ∧ t = r) ∨ (r = Leaf ∧ t = l) →
  h' !! a = h !! a →
  (∀ tl x dx tr, t = Node tl x dx tr →
     h' !! x = Some (mk_cell (caddr k) (raddr tl) (raddr tr) dx)) →
  rot_hole h' k (raddr t) →
  (∀ x, x ≠ a → (t ≠ Leaf → x ≠ raddr t) → (k ≠ [] → x ≠ caddr k) → h' !! x = h !! x) →
  owns (<[a := mk_cell (caddr k) (raddr l) (raddr r) d]> F) h' (plug t k).
Proof.
  intros O Ht Ea Et Hk Hs. pose proof O as O'.
  apply owns_split in O' as (Hn & Ho & (Ra & Rl & Rr) & Rk & Hf).
  assert (Hat : ∀ x, x ∈ addrs (Node l a d r) ↔ x = a ∨ x ∈ addrs t).
  { intros x. simpl. destruct Ht as [[-> ->]|[-> ->]]; simpl; set_solver. }
  assert (Ht' : rep h a t) by (by destruct Ht as [[-> ->]|[-> ->]]).
  assert (Nt : NoDup (addrs t) ∧ a ∉ addrs t).
  { destruct Ht as [[-> ->]|[-> ->]]; simpl in *; split;
      (apply NoDup_occ; intros x; occ_at x; autorewrite with occ in *; lia) || nd. }
  eapply owns_subst; [exact O|..].
  - apply Nt.
  - apply Forall_app in Ho as [Ho _]. rewrite Forall_forall in *. intros x Hx.
    apply Ho, Hat. by right.
  - intros x Hx. assert (Hx' : x ∈ addrs (Node l a d r)) by (apply Hat; by right). nd.
  - eapply rep_reparent; [apply Nt|exact Ht'|exact Et|].
    intros x Hx Nx. apply Hs.
    + intros ->. by apply Nt.
    + done.
    + intros Nk ->. pose proof (caddr_in k Nk).
      assert (caddr k ∈ addrs (Node l a d r)) by (apply Hat; by right).
      occ_solve (caddr k).
  - done.
  - intros x Hx Nx. apply Hs; [| |done].
    + assert (a ∈ addrs (Node l a d r)) by (apply Hat; by left). nd.
    + intros Nl ->. pose proof (raddr_in t Nl).
      assert (raddr t ∈ addrs (Node l a d r)) by (apply Hat; by right). occ_solve (raddr t).
  - intros x Hx Hc. destruct (decide (x = a)) as [->|Na].
    { by rewrite lookup_insert_eq, Ea. }
    rewrite lookup_insert_ne by done. rewrite Hs; [|done|by intros Nl ->; apply Hx, raddr_in
      |by intros Nk ->; apply Hc, caddr_in].
    apply Hf; [|done]. rewrite Hat. tauto.
Qed.

(** The heap in which a node with at most one child [t] has been replaced. *)
Definition splice_heap h (t : tree P) k : gmap Z cell :=
  let h1 := match t with
            | Leaf => h
            | Node tl x dx tr => <[x := mk_cell (caddr k) (raddr tl) (raddr tr) dx]> h
            end in
  match k with [] => h1 | f :: k' => <[faddr f := fcell (caddr k') (raddr t) f]> h1 end.

Lemma owns_splice_heap F h l a d r t k :
  owns F h (plug (Node l a d r) k) → (l = Leaf ∧ t = r) ∨ (r = Leaf ∧ t = l) →
  owns (<[a := mk_cell (caddr k) (raddr l) (raddr r) d]> F) (splice_heap h t k) (plug t k).
Proof.
  intros O Ht. pose proof (owns_nodup _ _ _ O) as Hn. rewrite addrs_plug in Hn.
  assert (Hx : ∀ tl x dx tr, t = Node tl x dx tr → x ≠ a ∧ x ∉ caddrs k).
  { intros tl x dx tr ->. simpl in Hn. destruct Ht as [[-> <-]|[-> <-]]; simpl in Hn; split; nd. }
  assert (Hk : ∀ f k', k = f :: k' → faddr f ≠ a).
  { intros f k' ->. simpl in Hn. nd. }
  unfold splice_heap. eapply owns_splice; [done|done|..].
  - destruct k as [|f k], t as [|tl x dx tr]; rewrite ?lookup_insert_ne; try done; try by eapply Hk.
    all: by eapply Hx.
  - intros tl x dx tr ->. destruct (Hx _ _ _ _ eq_refl) as [_ Nk].
    destruct k as [|f k]; [by rewrite lookup_insert_eq|].
    rewrite lookup_insert_ne, lookup_insert_eq; [done|]. simpl in Nk. set_solver.
  - intros f k' ->. by rewrite lookup_insert_eq.
  - intros x Nx Nt Nk. destruct k as [|f k], t as [|tl y dx tr]; rewrite ?lookup_insert_ne;
      try done; apply not_eq_sym; auto.
Qed.

(** The node [a] is replaced by a node at the new address [y]. *)
Lemma owns_rename F F' h h' l a d r k y :
  owns F h (plug (Node l a d r) k) → ok_addr y → y ∉ addrs (plug (Node l a d r) k) →
  h' !! y = Some (mk_cell (caddr k) (raddr l) (raddr r) d) →
  (∀ tl x dx tr, l = Node tl x dx tr → h' !! x = Some (mk_cell y (raddr tl) (raddr tr) dx)) →
  (∀ tl x dx tr, r = Node tl x dx tr → h' !! x = Some (mk_cell y (raddr tl) (raddr tr) dx)) →
  rot_hole h' k y →
  (∀ x, x ≠ a → x ≠ y → (l ≠ Leaf → x ≠ raddr l) → (r ≠ Leaf → x ≠ raddr r) →
     (k ≠ [] → x ≠ caddr k) → h' !! x = h !! x) →
  (∀ x, x ≠ a → x ≠ y → F' !! x = F !! x) → F' !! a = h' !! a →
  owns F' h' (plug (Node l y d r) k).
Proof.
  intros O Oy Ny Ey El Er Hk Hs HF HFa. pose proof O as O'.
  apply owns_split in O' as (Hn & Ho & (Ra & Rl & Rr) & Rk & Hf).
  rewrite addrs_plug in Ny. simpl in *.
  pose proof (raddr_in l) as Il. pose proof (raddr_in r) as Ir. pose proof (caddr_in k) as Ik.
  assert (Hch : ∀ x, x ∈ addrs l ∨ x ∈ addrs r ∨ x ∈ caddrs k → x ≠ a ∧ x ≠ y).
  { intros x Hx. split; destruct Hx as [Hx|[Hx|Hx]]; nd. }
  assert (Hs' : ∀ x, (x ∈ addrs l ∧ x ≠ raddr l) ∨ (x ∈ addrs r ∧ x ≠ raddr r) ∨
    (x ∈ caddrs k ∧ x ≠ caddr k) → h' !! x = h !! x).
  { intros x Hx. destruct (Hch x ltac:(tauto)) as [Na Ny']. apply Hs; try done.
    - intros Hl ->. specialize (Il Hl). destruct Hx as [[]|[[]|[]]]; occ_solve (raddr l).
    - intros Hr ->. specialize (Ir Hr). destruct Hx as [[]|[[]|[]]]; occ_solve (raddr r).
    - intros Hc ->. specialize (Ik Hc). destruct Hx as [[]|[[]|[]]]; occ_solve (caddr k). }
  eapply owns_subst; [exact O|..].
  - apply NoDup_occ. intros x. occ_at x. rewrite not_elem_of_occ in Ny.
    simpl. autorewrite with occ in *. destruct (decide (x = y)) as [->|]; repeat case_decide; lia.
  - simpl. apply Forall_app in Ho as [Ho _]. apply Forall_app in Ho as [Ho1 Ho2].
    apply Forall_app. split; [done|]. apply Forall_cons. split; [done|].
    by apply Forall_cons in Ho2 as [_ ?].
  - simpl. intros x. rewrite elem_of_app, elem_of_cons. intros [Hx|[->|Hx]]; nd.
  - simpl. split_and!; [done| |].
    + eapply rep_reparent; [|exact Rl|exact El|intros; apply Hs'; tauto].
      by apply NoDup_app in Hn as [(? & _)%NoDup_app _].
    + eapply rep_reparent; [|exact Rr|exact Er|intros; apply Hs'; tauto].
      by apply NoDup_app in Hn as [(_ & _ & [_ ?]%NoDup_cons)%NoDup_app _].
  - done.
  - intros x Hx Nx. apply Hs'. tauto.
  - simpl. intros x Hx Hc. destruct (decide (x = a)) as [->|Na]; [done|].
    assert (x ≠ y) by set_solver. rewrite HF by done.
    rewrite Hs; [apply Hf; set_solver|set_solver..].
Qed.

End layout.
