(* ===== verification/PSearch.v ===== *)
(** * Walks down a search tree

    The place a comparison-driven walk from the root ends at, and what the
    order of the in-order list says about that place. *)

From S2P Require Import Prelude PTree.

(** Where a walk from [t] in [k] ends that goes left at [Lt], right at [Gt]
    and stops at [Eq]; the comparison sees the address and the payload. *)
Fixpoint locate {P} (d : Z → P → comparison) (t : tree P) (k : list (frame P)) :
    tree P * list (frame P) :=
  match t with
  | Leaf => (Leaf, k)
  | Node l a c r =>
      match d a c with
      | Lt => locate d l (FL a c r :: k)
      | Gt => locate d r (FR l a c :: k)
      | Eq => (t, k)
      end
  end.

(** A walk that looks at addresses only. *)
Notation alocate d := (locate (λ a _, d a)).

(** The in-order list is sorted for the walk. *)
Definition walkable_by {A} (d : A → comparison) : list A → Prop :=
  StronglySorted (λ x y, (d x = Lt → d y = Lt) ∧ (d y = Gt → d x = Gt)).
Notation walkable := (@walkable_by Z).

(** The walk that looks for [v] among increasing values. *)
Lemma compare_walkable (v : Z) l : StronglySorted Z.lt l → walkable_by (Z.compare v) l.
Proof.
  apply StronglySorted_weaken. intros x y _ _ Hxy. rewrite !Z.compare_lt_iff, !Z.compare_gt_iff. lia.
Qed.

Section walkable.
Context {A : Type} (d : A → comparison).

(** A list walked past [a]: everything beyond [a] is on its side. *)
Lemma walkable_after xs a ys :
  walkable_by d (xs ++ a :: ys) → d a = Lt → Forall (λ y, d y = Lt) ys.
Proof.
  intros [_ [_ H]]%StronglySorted_app Ha. apply StronglySorted_inv in H as [_ H].
  eapply Forall_impl; [exact H|]. simpl. tauto.
Qed.

Lemma walkable_before xs a ys :
  walkable_by d (xs ++ a :: ys) → d a = Gt → Forall (λ y, d y = Gt) xs.
Proof.
  intros [H _]%StronglySorted_app Ha. apply Forall_forall. intros x Hx.
  apply (H x a Hx); [set_solver +|done].
Qed.

Lemma walkable_fmap {B} (f : B → A) l : walkable_by d (f <$> l) ↔ walkable_by (d ∘ f) l.
Proof.
  unfold walkable_by. induction l as [|x l IH]; csimpl; [split; constructor|]. split.
  - intros [H1 H2]%StronglySorted_inv. constructor; [by apply IH|]. by apply Forall_fmap in H2.
  - intros [H1 H2]%StronglySorted_inv. constructor; [by apply IH|]. by apply Forall_fmap.
Qed.
End walkable.

Section locate.
Context {P : Type} (d : Z → P → comparison).

Lemma locate_plug (t : tree P) : ∀ k, plug (locate d t k).1 (locate d t k).2 = plug t k.
Proof.
  induction t as [|l IHl a c r IHr]; intros k; simpl; [done|].
  destruct (d a c); [done|by rewrite IHl|by rewrite IHr].
Qed.

Lemma locate_end (t : tree P) : ∀ k,
  (locate d t k).1 = Leaf ∨ ∃ l a c r, (locate d t k).1 = Node l a c r ∧ d a c = Eq.
Proof.
  induction t as [|l IHl a c r IHr]; intros k; simpl; [by left|].
  destruct (d a c) eqn:E; [right; eauto 10|apply IHl|apply IHr].
Qed.

Lemma locate_cut (t : tree P) : ∀ k, walkable_by (uncurry d) (items (plug t k)) →
  Forall (λ x, d x.1 x.2 = Gt) (ipre k) → Forall (λ x, d x.1 x.2 = Lt) (ipost k) →
  Forall (λ x, d x.1 x.2 = Gt) (ipre (locate d t k).2) ∧
  Forall (λ x, d x.1 x.2 = Lt) (ipost (locate d t k).2).
Proof.
  induction t as [|l IHl a c r IHr]; intros k W H1 H2; simpl; [done|].
  assert (W1 : walkable_by (uncurry d) ((ipre k ++ items l) ++ (a, c) :: (items r ++ ipost k))).
  { rewrite items_plug_split in W. simpl in W. by rewrite <-?app_assoc in W |- *. }
  assert (Hu : ∀ o l, Forall (λ x, uncurry d x = o) l → Forall (λ x, d x.1 x.2 = o) l).
  { intros o ? H. eapply Forall_impl; [exact H|]. by intros []. }
  destruct (d a c) eqn:E; [done|..].
  - apply IHl; [done..|]. simpl. constructor; [done|]. by eapply Hu, walkable_after.
  - apply IHr; [done|..|done]. simpl. rewrite app_assoc. apply Forall_app.
    split; [by eapply Hu, walkable_before|]. by constructor.
Qed.
End locate.

(** The same for a walk over addresses. *)
Lemma alocate_cut {P} (d : Z → comparison) (t : tree P) :
  walkable d (addrs t) →
  Forall (λ x, d x = Gt) (cpre (alocate d t []).2) ∧ Forall (λ x, d x = Lt) (cpost (alocate d t []).2).
Proof.
  intros W. destruct (locate_cut (λ a _, d a) t []) as [H1 H2]; [|constructor..|].
  - rewrite <-items_addrs in W. apply (proj1 (walkable_fmap d fst (items t))) in W.
    unfold walkable_by in *. eapply StronglySorted_weaken; [|exact W]. by intros [] [] _ _.
  - rewrite cpre_items, cpost_items. split; by apply Forall_fmap.
Qed.

(** The first and the last node of a tree, at the end of a path of left or of
    right steps. *)
Lemma leftmost {P} (t : tree P) :
  t ≠ Leaf → ∃ y d r k, t = plug (Node Leaf y d r) k ∧ Forall is_FL k.
Proof.
  induction t as [|l IH a d r _]; [done|]. intros _. destruct l as [|ll x dx lr].
  - by exists a, d, r, [].
  - destruct IH as (y & d' & r' & k & E & Hk); [done|].
    exists y, d', r', (k ++ [FL a d r]). rewrite plug_app, <-E. split; [done|].
    apply Forall_app. by repeat constructor.
Qed.

Lemma rightmost {P} (t : tree P) :
  t ≠ Leaf → ∃ l y d k, t = plug (Node l y d Leaf) k ∧ Forall is_FR k.
Proof.
  induction t as [|l _ a d r IH]; [done|]. intros _. destruct r as [|rl x dx rr].
  - by exists l, a, d, [].
  - destruct IH as (l' & y & d' & k & E & Hk); [done|].
    exists l', y, d', (k ++ [FR l a d]). rewrite plug_app, <-E. split; [done|].
    apply Forall_app. by repeat constructor.
Qed.

Lemma plug_node {P} l (a : Z) (d : P) r k : ∃ l' a' d' r', plug (Node l a d r) k = Node l' a' d' r'.
Proof.
  revert l a d r. induction k as [|[] k IH]; intros; simpl; [by eexists _, _, _, _|apply IH..].
Qed.
