(* ===== verification/PJoin.v ===== *)
(** * Removing the root by joining its subtrees *)

From S2P Require Import Prelude PTree.

Section join.
Context {P cell : Type} `{TN : TreeNode P cell}.
Context (F F' h h' : gmap Z cell) (n p : Z) (d dp : P) (pl r : tree P) (kl : list (frame P)).

Notation l := (plug (Node pl p dp Leaf) kl).

(** The left subtree by its parts. *)
Lemma join_addrs : addrs l ≡ₚ p :: addrs pl ++ caddrs kl.
Proof. rewrite addrs_plug. simpl. rewrite <-app_assoc. symmetry. apply Permutation_middle. Qed.

Lemma join_root : (kl = [] ∧ raddr l = p) ∨ (kl ≠ [] ∧ raddr l ∈ caddrs kl).
Proof. destruct kl as [|f k]; [by left|right]. split; [done|]. apply raddr_plug_in. Qed.

Context (O : owns F h (Node l n d r)).

Lemma join_nodup : NoDup (p :: addrs pl ++ caddrs kl ++ n :: addrs r).
Proof.
  pose proof (owns_nodup _ _ _ O) as Hn. cbn [addrs] in Hn. rewrite join_addrs in Hn.
  apply NoDup_occ. intros x. apply (NoDup_occ _) with (x := x) in Hn. autorewrite with occ in *. lia.
Qed.

(** The left subtree on its own. *)
Definition orphan : gmap Z cell :=
  match l with Leaf => h | Node tl x dx tr => <[x := mk_cell NULL (raddr tl) (raddr tr) dx]> h end.

Lemma orphan_rep : rep orphan NULL l.
Proof.
  destruct (owns_rep _ _ _ O) as (_ & Rl & _). eapply rep_reparent; [|exact Rl|..].
  - pose proof join_nodup as Hn. rewrite join_addrs. apply NoDup_occ. intros x.
    apply (NoDup_occ _) with (x := x) in Hn. autorewrite with occ in *. lia.
  - intros tl x dx tr E. unfold orphan. rewrite E. apply lookup_insert_eq.
  - intros x _ Nx. unfold orphan. destruct l; [done|]. by apply lookup_insert_ne, not_eq_sym.
Qed.

Context (Hp : h' !! p = Some (mk_cell (caddr kl) (raddr pl) (raddr r) dp)).
Context (Hl : ∀ tl x dx tr, kl ≠ [] → l = Node tl x dx tr →
  h' !! x = Some (mk_cell NULL (raddr tl) (raddr tr) dx)).
Context (Hr : ∀ tl x dx tr, r = Node tl x dx tr →
  h' !! x = Some (mk_cell p (raddr tl) (raddr tr) dx)).
Context (Hs : ∀ x, x ≠ n → x ≠ p → x ≠ raddr l → (r ≠ Leaf → x ≠ raddr r) → h' !! x = h !! x).
Context (HF : ∀ x, x ≠ n → F' !! x = F !! x) (HFn : F' !! n = h' !! n).

Lemma join_same x : x ∈ addrs pl ++ caddrs kl → h' !! x = orphan !! x.
Proof.
  intros Hx. pose proof join_nodup as Hn. pose proof (raddr_in r) as Ir.
  assert (Nn : x ≠ n) by nd. assert (Np : x ≠ p) by nd.
  assert (Nr : r ≠ Leaf → x ≠ raddr r) by (intros N ->; specialize (Ir N); clear -Hn Ir Hx; occ_solve (raddr r)).
  unfold orphan. destruct (decide (x = raddr l)) as [E|Nl].
  - destruct l as [|tl y dx tr] eqn:El; simpl in E; subst x.
    + pose proof join_addrs as A. rewrite El in A. by apply Permutation_nil_cons in A.
    + rewrite lookup_insert_eq. apply Hl; [|done]. intros ->. simpl in El. congruence.
  - rewrite Hs by done. destruct l; [done|]. by rewrite lookup_insert_ne by (by apply not_eq_sym).
Qed.

(** The root [n] goes; its right subtree [r] is hung under the last node [p]
    of its left subtree. *)
Lemma owns_join : owns F' h' (plug (Node pl p dp r) kl).
Proof.
  pose proof join_nodup as Hn. pose proof (raddr_in r) as Ir. pose proof orphan_rep as R1.
  apply rep_plug in R1 as [(_ & Rpl & _) Rk]. destruct (owns_rep _ _ _ O) as (_ & _ & Rr).
  split.
  - rewrite addrs_plug. simpl. apply NoDup_occ. intros x. apply (NoDup_occ _) with (x := x) in Hn.
    autorewrite with occ in *. lia.
  - pose proof (owns_ok _ _ _ O) as Ho. cbn [addrs] in Ho. rewrite join_addrs in Ho.
    rewrite addrs_plug. simpl. rewrite Forall_forall in *. intros x Hx. apply Ho. clear -Hx. set_solver.
  - apply rep_plug. simpl. split; [split; [done|split]|].
    + eapply rep_same; [|exact Rpl]. intros x Hx. apply join_same. apply elem_of_app. by left.
    + eapply rep_reparent; [|exact Rr|exact Hr|].
      * apply NoDup_occ. intros x. apply (NoDup_occ _) with (x := x) in Hn. autorewrite with occ in *. lia.
      * intros x Hx Nx. apply Hs; [nd|nd| |done]. intros ->.
        destruct join_root as [[_ E]|[_ E]]; [rewrite E in Hx; occ_solve p|clear -E Hx Hn; occ_solve (raddr l)].
    + eapply crep_same; [|exact Rk]. intros x Hx. apply join_same. apply elem_of_app. by right.
  - intros x Hx. destruct (decide (x = n)) as [->|Nn]; [done|].
    rewrite addrs_plug in Hx. simpl in Hx.
    assert (Hx' : x ∉ addrs (Node l n d r)).
    { cbn [addrs]. rewrite join_addrs. clear -Hx Nn. set_solver. }
    rewrite Hs, HF; [by apply (owns_frame _ _ _ O)|done|done|clear -Hx; set_solver|..].
    + intros ->. apply Hx'. cbn [addrs]. apply elem_of_app. left. apply raddr_in. intros E.
      pose proof join_addrs as A. rewrite E in A. by apply Permutation_nil_cons in A.
    + intros N ->. specialize (Ir N). clear -Hx Ir. set_solver.
Qed.
End join.

(** A struct outside the tree is freed. *)
Lemma owns_delete {P cell} `{TN : TreeNode P cell} (F h : gmap Z cell) (t : tree P) a :
  owns F h t → a ∉ addrs t → owns (delete a F) (delete a h) t.
Proof.
  intros [Hn Ho Hr Hf] Na. split; [done|done|..].
  - eapply rep_same; [|exact Hr]. intros b Hb. apply lookup_delete_ne. by intros ->.
  - intros b Hb. destruct (decide (a = b)) as [->|]; [by rewrite !lookup_delete_eq|].
    rewrite !lookup_delete_ne by done. auto.
Qed.
