(* ===== verification/PHeap.v ===== *)
(** * A memory of tree nodes with parent pointers

    The AVL tree and the splay tree keep their nodes as structs with a
    parent, a left and a right pointer and some data ([height] and [val], or
    [v]).  This file has the accesses to such structs, [malloc] and [free],
    and the lemmas and tactics that run straight-line code over them. *)

From S2P Require Import Prelude PTree.

Record pnode (P : Type) := PN { parent : Z; left : Z; right : Z; dat : P }.
Arguments PN {P} parent left right dat.
Arguments parent {P} p. Arguments left {P} p. Arguments right {P} p. Arguments dat {P} p.

(** The memory, a global root pointer (for the program that has one), and the
    blocks [malloc] will hand out: their address and what they happen to
    hold; [malloc] returns NULL when there is none left. *)
Record pst (P : Type) := PSt { nodes : gmap Z (pnode P); groot : Z; pool : list (Z * pnode P) }.
Arguments PSt {P} nodes groot pool.
Arguments nodes {P} p. Arguments groot {P} p. Arguments pool {P} p.

#[export] Instance pnode_tree P : TreeNode P (pnode P) := {
  mk_cell := PN; ok_addr a := a ≠ NULL; ok_addr_nonnull a H := H }.

Section accesses.
Context {P : Type}.

Definition pload (p : Z) : M (pst P) (pnode P) := λ s,
  match nodes s !! p with Some c => Ok (c, s) | None => Err Segv end.
Definition pstore (p : Z) (c : pnode P) : M (pst P) unit := λ s,
  match nodes s !! p with
  | Some _ => Ok ((), PSt (<[p := c]> (nodes s)) (groot s) (pool s))
  | None => Err Segv
  end.

Definition get_p (p : Z) : M (pst P) Z := c ← pload p; mret (parent c).
Definition get_l (p : Z) : M (pst P) Z := c ← pload p; mret (left c).
Definition get_r (p : Z) : M (pst P) Z := c ← pload p; mret (right c).
Definition get_d (p : Z) : M (pst P) P := c ← pload p; mret (dat c).
Definition set_p (p x : Z) : M (pst P) unit := c ← pload p; pstore p (PN x (left c) (right c) (dat c)).
Definition set_l (p x : Z) : M (pst P) unit := c ← pload p; pstore p (PN (parent c) x (right c) (dat c)).
Definition set_r (p x : Z) : M (pst P) unit := c ← pload p; pstore p (PN (parent c) (left c) x (dat c)).
Definition set_d (p : Z) (d : P) : M (pst P) unit :=
  c ← pload p; pstore p (PN (parent c) (left c) (right c) d).
Definition get_groot : M (pst P) Z := gets groot.
Definition set_groot (x : Z) : M (pst P) unit := modify (λ s, PSt (nodes s) x (pool s)).

Definition malloc : M (pst P) Z := λ s,
  match pool s with
  | [] => Ok (NULL, s)
  | (a, c) :: l => Ok (a, PSt (<[a := c]> (nodes s)) (groot s) l)
  end.
Definition free (p : Z) : M (pst P) unit := λ s,
  match nodes s !! p with
  | Some _ => Ok ((), PSt (delete p (nodes s)) (groot s) (pool s))
  | None => Err Segv
  end.

(** Loops run at most once per node of the memory, and once more. *)
Definition pfuel (s : pst P) : nat := S (S (size (nodes s))).

Definition phas (s : pst P) (p par l r : Z) (d : P) : Prop := nodes s !! p = Some (PN par l r d).
Definition pupd (s : pst P) (p par l r : Z) (d : P) : pst P :=
  PSt (<[p := PN par l r d]> (nodes s)) (groot s) (pool s).

Lemma phas_upd_eq s p par l r d : phas (pupd s p par l r d) p par l r d.
Proof. apply lookup_insert_eq. Qed.
Lemma phas_upd_ne s p q par l r d par' l' r' d' :
  q ≠ p → phas s p par l r d → phas (pupd s q par' l' r' d') p par l r d.
Proof. intros N H. unfold phas, pupd. simpl. by rewrite lookup_insert_ne. Qed.

Section primitives.
Context (s : pst P) (p par l r : Z) (d : P) (H : phas s p par l r d).
Ltac prim := unfold get_p, get_l, get_r, get_d, set_p, set_l, set_r, set_d, pload, pstore,
  mbind, M_bind; unfold phas in H; rewrite H; simpl; rewrite ?H; reflexivity.
Lemma get_p_ok : get_p p s = Ok (par, s).
Proof. prim. Qed.
Lemma get_l_ok : get_l p s = Ok (l, s).
Proof. prim. Qed.
Lemma get_r_ok : get_r p s = Ok (r, s).
Proof. prim. Qed.
Lemma get_d_ok : get_d p s = Ok (d, s).
Proof. prim. Qed.
Lemma set_p_ok x : set_p p x s = Ok ((), pupd s p x l r d).
Proof. prim. Qed.
Lemma set_l_ok x : set_l p x s = Ok ((), pupd s p par x r d).
Proof. prim. Qed.
Lemma set_r_ok x : set_r p x s = Ok ((), pupd s p par l x d).
Proof. prim. Qed.
Lemma set_d_ok x : set_d p x s = Ok ((), pupd s p par l r x).
Proof. prim. Qed.
End primitives.
End accesses.

Ltac pneq := first [assumption | apply not_eq_sym; assumption | congruence].
Ltac phs :=
  lazymatch goal with
  | |- phas (pupd _ ?q _ _ _ _) ?q _ _ _ _ => apply phas_upd_eq
  | |- phas (pupd _ _ _ _ _ _) _ _ _ _ _ => apply phas_upd_ne; [pneq | phs]
  | |- phas _ _ _ _ _ _ => eassumption
  end.
Ltac prd1 :=
  erewrite bind_ok; [|first
    [ eapply get_l_ok; phs | eapply get_r_ok; phs | eapply get_p_ok; phs | eapply get_d_ok; phs
    | lazymatch goal with |- mret _ _ = _ => apply ret_ok end ]].
Ltac pwr1 :=
  erewrite bind_ok; [|first
    [ eapply set_l_ok; phs | eapply set_r_ok; phs | eapply set_p_ok; phs | eapply set_d_ok; phs ]].
Ltac pbr1 := first [rewrite (proj2 (Z.eqb_neq _ _)) by pneq | rewrite Z.eqb_refl].
Ltac ptidy := cbv beta iota; cbn [fst snd negb andb orb].
Ltac prd := repeat (first [rewrite bind_assoc | prd1 | pbr1]; ptidy).
Ltac pgo := repeat (first [rewrite bind_assoc | pwr1 | prd1 | pbr1]; ptidy).

(** Lookups in a memory built from updates. *)
Ltac plookup :=
  unfold pupd; cbn [nodes groot pool raddr caddr faddr];
  repeat first [rewrite lookup_insert_eq | rewrite lookup_insert_ne by pneq]; try done.

(** The memory after a rotation. *)
Ltac prot :=
  lazymatch goal with
  | |- rot_same _ _ _ _ _ _ =>
      split; [intros; simplify_eq; plookup
             |intros ? ? ? Hx1 Hx2; try specialize (Hx1 ltac:(done));
              try specialize (Hx2 ltac:(done)); plookup]
  | |- rot_hole _ _ _ => intros ? ? [=]; subst; plookup
  | |- _ => plookup
  end.

Section owned.
Context {P : Type} (F : gmap Z (pnode P)) (s : pst P).

Definition POwn (t : tree P) : Prop := owns F (nodes s) t.

Lemma POwn_has l a d r k : POwn (plug (Node l a d r) k) → phas s a (caddr k) (raddr l) (raddr r) d.
Proof. intros O. by apply owns_lookup in O. Qed.

Definition pfhas (par x : Z) (f : frame P) : Prop :=
  match f with
  | FL g d r => phas s g par x (raddr r) d
  | FR l g d => phas s g par (raddr l) x d
  end.

Lemma POwn_parent t f k : POwn (plug t (f :: k)) → pfhas (caddr k) (raddr t) f.
Proof. destruct f; simpl; intros O; exact (POwn_has _ _ _ _ _ O). Qed.

Lemma POwn_nonnull l a d r k : POwn (plug (Node l a d r) k) → a ≠ NULL.
Proof. intros O. by apply owns_ok_focus in O. Qed.

Lemma POwn_frame_nonnull t f k : POwn (plug t (f :: k)) → faddr f ≠ NULL.
Proof. intros O. by apply owns_ok_frame in O. Qed.

Lemma POwn_depth t k : POwn (plug t k) → (length k < pfuel s)%nat.
Proof.
  intros O. apply owns_length in O. rewrite addrs_plug, length_app in O.
  pose proof (length_caddrs k). unfold pfuel. lia.
Qed.

Lemma POwn_height t : POwn t → (height t < pfuel s)%nat.
Proof. intros O. apply owns_length in O. pose proof (height_length t). unfold pfuel. lia. Qed.

Lemma POwn_null t k : POwn (plug t k) → raddr t = NULL ↔ t = Leaf.
Proof.
  intros O. destruct t as [|l a c r]; [done|]. simpl. split; [|done].
  intros ->. by apply POwn_nonnull in O.
Qed.
End owned.

Lemma malloc_ok {P} (s : pst P) a x y z w pl : pool s = (a, PN x y z w) :: pl →
  malloc s = Ok (a, pupd (PSt (nodes s) (groot s) pl) a x y z w).
Proof. intros E. unfold malloc. by rewrite E. Qed.
