(* ===== verification/RbTree.v ===== *)
(** * The red-black tree library: src/tree/rbtree/rbtree.h and rbtree.c

    The memory of the library: the [struct rb_node]s by address, and the
    [rb_node] field of the [struct rb_root] the caller passes.  Every macro,
    inline function and function of the two files is a definition here with
    the name it has in C; [load] and [store] stop with [Segv] at an address
    that holds no node, so that a theorem that an operation returns includes
    that it follows no null or dangling pointer.  A loop carries fuel; the
    entry points start it with [fuel s], one more than the number of structs
    in memory. *)

From S2P Require Import Prelude PTree.

(** ** rbtree.h *)

Definition RB_RED : Z := 0.
Definition RB_BLACK : Z := 1.

(** [unsigned long] is 64 bits wide; [~3] and [~1] are converted to it. *)
Definition ulong (z : Z) : Z := z `mod` 2 ^ 64.

Record rb_node := Rb {
  rb_parent_color : Z;
  rb_right : Z;
  rb_left : Z
}.

Record rb_state := RbSt {
  mem : gmap Z rb_node;
  rb_root : Z
}.

Definition fuel (s : rb_state) : nat := S (size (mem s)).

Definition load (p : Z) : M rb_state rb_node := λ s,
  match mem s !! p with Some c => Ok (c, s) | None => Err Segv end.

Definition store (p : Z) (c : rb_node) : M rb_state unit := λ s,
  match mem s !! p with
  | Some _ => Ok ((), RbSt (<[p := c]> (mem s)) (rb_root s))
  | None => Err Segv
  end.

Definition get_left (p : Z) : M rb_state Z := c ← load p; mret (rb_left c).
Definition get_right (p : Z) : M rb_state Z := c ← load p; mret (rb_right c).
Definition set_left (p x : Z) : M rb_state unit :=
  c ← load p; store p (Rb (rb_parent_color c) (rb_right c) x).
Definition set_right (p x : Z) : M rb_state unit :=
  c ← load p; store p (Rb (rb_parent_color c) x (rb_left c)).
Definition set_pc (p x : Z) : M rb_state unit :=
  c ← load p; store p (Rb x (rb_right c) (rb_left c)).

Definition get_root : M rb_state Z := gets rb_root.
Definition set_root (x : Z) : M rb_state unit := modify (λ s, RbSt (mem s) x).

Definition rb_parent (r : Z) : M rb_state Z :=
  c ← load r; mret (Z.land (rb_parent_color c) (ulong (Z.lnot 3))).
Definition rb_color (r : Z) : M rb_state Z :=
  c ← load r; mret (Z.land (rb_parent_color c) 1).
Definition rb_is_red (r : Z) : M rb_state bool :=
  c ← rb_color r; mret (c =? 0).
Definition rb_is_black (r : Z) : M rb_state bool :=
  c ← rb_color r; mret (negb (c =? 0)).
Definition rb_set_red (r : Z) : M rb_state unit :=
  c ← load r; set_pc r (Z.land (rb_parent_color c) (ulong (Z.lnot 1))).
Definition rb_set_black (r : Z) : M rb_state unit :=
  c ← load r; set_pc r (Z.lor (rb_parent_color c) 1).
Definition rb_set_parent (rb p : Z) : M rb_state unit :=
  c ← load rb; set_pc rb (Z.lor (Z.land (rb_parent_color c) 3) p).
Definition rb_set_color (rb color : Z) : M rb_state unit :=
  c ← load rb; set_pc rb (Z.lor (Z.land (rb_parent_color c) (ulong (Z.lnot 1))) color).

Definition RB_ROOT : Z := NULL.
Definition RB_EMPTY_ROOT : M rb_state bool := r ← get_root; mret (r =? NULL).
Definition RB_EMPTY_NODE (node : Z) : M rb_state bool :=
  p ← rb_parent node; mret (p =? node).
Definition RB_CLEAR_NODE (node : Z) : M rb_state unit := rb_set_parent node node.

Definition rb_init_node (rb : Z) : M rb_state unit :=
  set_pc rb 0;; set_right rb NULL;; set_left rb NULL;; RB_CLEAR_NODE rb.

(** [struct rb_node **rb_link]: the address of the root field or of a child
    field of some node. *)
Inductive link := LRoot | LLeft (p : Z) | LRight (p : Z).

Definition get_link (lk : link) : M rb_state Z :=
  match lk with LRoot => get_root | LLeft p => get_left p | LRight p => get_right p end.
Definition set_link (lk : link) (x : Z) : M rb_state unit :=
  match lk with LRoot => set_root x | LLeft p => set_left p x | LRight p => set_right p x end.

Definition rb_link_node (node parent : Z) (rb_link : link) : M rb_state unit :=
  set_pc node parent;;
  set_right node NULL;; set_left node NULL;;
  set_link rb_link node.

(** ** rbtree.c: rotations and insertion *)

Definition __rb_rotate_left (node : Z) : M rb_state unit :=
  right ← get_right node;
  parent ← rb_parent node;
  rl ← get_left right;
  set_right node rl;;
  (if rl =? NULL then mret () else rl' ← get_left right; rb_set_parent rl' node);;
  set_left right node;;
  rb_set_parent right parent;;
  (if parent =? NULL then set_root right
   else pl ← get_left parent;
        if node =? pl then set_left parent right else set_right parent right);;
  rb_set_parent node right.

Definition __rb_rotate_right (node : Z) : M rb_state unit :=
  left ← get_left node;
  parent ← rb_parent node;
  lr ← get_right left;
  set_left node lr;;
  (if lr =? NULL then mret () else lr' ← get_right left; rb_set_parent lr' node);;
  set_right left node;;
  rb_set_parent left parent;;
  (if parent =? NULL then set_root left
   else pr ← get_right parent;
        if node =? pr then set_right parent left else set_left parent left);;
  rb_set_parent node left.

(** [p && rb_is_red(p)] and [!p || rb_is_black(p)]. *)
Definition and_red (p : Z) : M rb_state bool :=
  if p =? NULL then mret false else rb_is_red p.
Definition or_black (p : Z) : M rb_state bool :=
  if p =? NULL then mret true else rb_is_black p.

Fixpoint rb_insert_color_loop (n : nat) (node : Z) : M rb_state unit :=
  match n with
  | O => fail Fuel
  | S n =>
      parent ← rb_parent node;
      go ← and_red parent;
      if negb go then mret () else
      gparent ← rb_parent parent;
      gl ← get_left gparent;
      if parent =? gl then
        uncle ← get_right gparent;
        ured ← and_red uncle;
        if (ured : bool) then
          rb_set_black uncle;; rb_set_black parent;; rb_set_red gparent;;
          rb_insert_color_loop n gparent
        else
          pr ← get_right parent;
          pn ← (if pr =? node
                then __rb_rotate_left parent;; mret (node, parent)
                else mret (parent, node));
          rb_set_black pn.1;; rb_set_red gparent;; __rb_rotate_right gparent;;
          rb_insert_color_loop n pn.2
      else
        uncle ← get_left gparent;
        ured ← and_red uncle;
        if (ured : bool) then
          rb_set_black uncle;; rb_set_black parent;; rb_set_red gparent;;
          rb_insert_color_loop n gparent
        else
          pl ← get_left parent;
          pn ← (if pl =? node
                then __rb_rotate_right parent;; mret (node, parent)
                else mret (parent, node));
          rb_set_black pn.1;; rb_set_red gparent;; __rb_rotate_left gparent;;
          rb_insert_color_loop n pn.2
  end.

Definition rb_insert_color (node : Z) : M rb_state unit := λ s,
  (rb_insert_color_loop (fuel s) node;; r ← get_root; rb_set_black r) s.

(** ** rbtree.c: removal *)

(** The body of the loop of [__rb_erase_color] below the rotation that makes
    the sibling [other] black, for a node that is a left or a right child;
    [loop node parent] is the next iteration. *)
Definition erase_left_rest (loop : Z → Z → M rb_state Z) (parent other : Z) : M rb_state Z :=
  ol ← get_left other; bl ← or_black ol;
  br ← (if (bl : bool) then or' ← get_right other; or_black or' else mret false);
  if (bl && br : bool) then
    rb_set_red other;;
    parent' ← rb_parent parent;
    loop parent parent'
  else
    or' ← get_right other; br ← or_black or';
    other ← (if (br : bool) then
               ol ← get_left other; rb_set_black ol;; rb_set_red other;;
               __rb_rotate_right other;; get_right parent
             else mret other);
    pc ← rb_color parent; rb_set_color other pc;;
    rb_set_black parent;;
    or' ← get_right other; rb_set_black or';;
    __rb_rotate_left parent;;
    get_root.

Definition erase_right_rest (loop : Z → Z → M rb_state Z) (parent other : Z) : M rb_state Z :=
  ol ← get_left other; bl ← or_black ol;
  br ← (if (bl : bool) then or' ← get_right other; or_black or' else mret false);
  if (bl && br : bool) then
    rb_set_red other;;
    parent' ← rb_parent parent;
    loop parent parent'
  else
    ol ← get_left other; bl ← or_black ol;
    other ← (if (bl : bool) then
               or' ← get_right other; rb_set_black or';; rb_set_red other;;
               __rb_rotate_left other;; get_left parent
             else mret other);
    pc ← rb_color parent; rb_set_color other pc;;
    rb_set_black parent;;
    ol ← get_left other; rb_set_black ol;;
    __rb_rotate_right parent;;
    get_root.

(** The loop of [__rb_erase_color]; it returns the [node] it ends with. *)
Fixpoint __rb_erase_color_loop (n : nat) (node parent : Z) : M rb_state Z :=
  match n with
  | O => fail Fuel
  | S n =>
      b ← or_black node;
      r ← get_root;
      if negb (b && negb (node =? r)) then mret node else
      pl ← get_left parent;
      if pl =? node then
        other ← get_right parent;
        red ← rb_is_red other;
        other ← (if (red : bool) then
                   rb_set_black other;; rb_set_red parent;;
                   __rb_rotate_left parent;; get_right parent
                 else mret other);
        erase_left_rest (__rb_erase_color_loop n) parent other
      else
        other ← get_left parent;
        red ← rb_is_red other;
        other ← (if (red : bool) then
                   rb_set_black other;; rb_set_red parent;;
                   __rb_rotate_right parent;; get_left parent
                 else mret other);
        erase_right_rest (__rb_erase_color_loop n) parent other
  end.

Definition __rb_erase_color (node parent : Z) : M rb_state unit := λ s,
  (node ← __rb_erase_color_loop (fuel s) node parent;
   if node =? NULL then mret () else rb_set_black node) s.

(** [while (n->rb_left) n = n->rb_left] and its mirror image. *)
Fixpoint go_left (n : nat) (node : Z) : M rb_state Z :=
  match n with
  | O => fail Fuel
  | S n => left ← get_left node; if left =? NULL then mret node else go_left n left
  end.

Fixpoint go_right (n : nat) (node : Z) : M rb_state Z :=
  match n with
  | O => fail Fuel
  | S n => right ← get_right node; if right =? NULL then mret node else go_right n right
  end.

(** The part of [rb_erase] for a node with at most one child; it returns
    [(child, parent, color)] for the code at the label [color]. *)
Definition rb_erase_splice (node child : Z) : M rb_state (Z * Z * Z) :=
  parent ← rb_parent node;
  color ← rb_color node;
  (if child =? NULL then mret () else rb_set_parent child parent);;
  (if parent =? NULL then set_root child
   else pl ← get_left parent;
        if pl =? node then set_left parent child else set_right parent child);;
  mret (child, parent, color).

(** The part of [rb_erase] for a node [old] with two children. *)
Definition rb_erase_two (old : Z) : M rb_state (Z * Z * Z) := λ s,
  (node ← get_right old;
   node ← go_left (fuel s) node;
   op ← rb_parent old;
   (if op =? NULL then set_root node
    else opl ← get_left op;
         if opl =? old then set_left op node else set_right op node);;
   child ← get_right node;
   parent ← rb_parent node;
   color ← rb_color node;
   parent ← (if parent =? old then mret node
             else
               (if child =? NULL then mret () else rb_set_parent child parent);;
               set_left parent child;;
               or' ← get_right old; set_right node or';;
               or' ← get_right old; rb_set_parent or' node;;
               mret parent);
   oc ← load old; set_pc node (rb_parent_color oc);;
   ol ← get_left old; set_left node ol;;
   ol ← get_left old; rb_set_parent ol node;;
   mret (child, parent, color)) s.

Definition rb_erase (node : Z) : M rb_state unit :=
  l ← get_left node;
  r ← get_right node;
  cpc ← (if l =? NULL then rb_erase_splice node r
         else if r =? NULL then rb_erase_splice node l
         else rb_erase_two node);
  let '(child, parent, color) := cpc in
  if color =? RB_BLACK then __rb_erase_color child parent else mret ().

(** ** rbtree.c: traversal and replacement *)

Definition rb_first : M rb_state Z := λ s,
  (n ← get_root; if n =? NULL then mret NULL else go_left (fuel s) n) s.

Definition rb_last : M rb_state Z := λ s,
  (n ← get_root; if n =? NULL then mret NULL else go_right (fuel s) n) s.

(** [while ((parent = rb_parent(node)) && node == parent->rb_right) node = parent;]
    and its mirror image; they return [parent]. *)
Fixpoint climb_right (n : nat) (node : Z) : M rb_state Z :=
  match n with
  | O => fail Fuel
  | S n =>
      parent ← rb_parent node;
      if parent =? NULL then mret parent else
      pr ← get_right parent;
      if node =? pr then climb_right n parent else mret parent
  end.

Fixpoint climb_left (n : nat) (node : Z) : M rb_state Z :=
  match n with
  | O => fail Fuel
  | S n =>
      parent ← rb_parent node;
      if parent =? NULL then mret parent else
      pl ← get_left parent;
      if node =? pl then climb_left n parent else mret parent
  end.

Definition rb_next (node : Z) : M rb_state Z := λ s,
  (parent ← rb_parent node;
   if parent =? node then mret NULL else
   r ← get_right node;
   if r =? NULL then climb_right (fuel s) node
   else go_left (fuel s) r) s.

Definition rb_prev (node : Z) : M rb_state Z := λ s,
  (parent ← rb_parent node;
   if parent =? node then mret NULL else
   l ← get_left node;
   if l =? NULL then climb_left (fuel s) node
   else go_right (fuel s) l) s.

Definition rb_replace_node (victim new : Z) : M rb_state unit :=
  parent ← rb_parent victim;
  (if parent =? NULL then set_root new
   else pl ← get_left parent;
        if victim =? pl then set_left parent new else set_right parent new);;
  (vl ← get_left victim;
   if vl =? NULL then mret () else vl' ← get_left victim; rb_set_parent vl' new);;
  (vr ← get_right victim;
   if vr =? NULL then mret () else vr' ← get_right victim; rb_set_parent vr' new);;
  c ← load victim; store new c.

(** ** rbtree.c: augmented trees

    [rb_augment_f func] is the caller's: it may read the tree and it updates
    the data [void *data] points to. *)
Section augment.
Context {D : Type} (func : rb_state → Z → D → D).

Definition call (node : Z) (d : D) : M rb_state D := λ s, Ok (func s node d, s).

Fixpoint rb_augment_path (n : nat) (node : Z) (data : D) : M rb_state D :=
  match n with
  | O => fail Fuel
  | S n =>
      data ← call node data;
      parent ← rb_parent node;
      if parent =? NULL then mret data else
      pl ← get_left parent;
      pr ← get_right parent;
      data ← (if (node =? pl) && negb (pr =? NULL) then call pr data
              else if negb (pl =? NULL) then call pl data
              else mret data);
      rb_augment_path n parent data
  end.

Definition rb_augment_insert (node : Z) (data : D) : M rb_state D := λ s,
  (l ← get_left node;
   r ← get_right node;
   let node := if negb (l =? NULL) then l else if negb (r =? NULL) then r else node in
   rb_augment_path (fuel s) node data) s.

Definition rb_augment_erase_end (node : Z) (data : D) : M rb_state D := λ s,
  (if node =? NULL then mret data else rb_augment_path (fuel s) node data) s.
End augment.

Definition rb_augment_erase_begin (node : Z) : M rb_state Z :=
  l ← get_left node;
  r ← get_right node;
  if (r =? NULL) && (l =? NULL) then rb_parent node
  else if r =? NULL then mret l
  else if l =? NULL then mret r
  else
    deepest ← rb_next node;
    dr ← get_right deepest;
    if negb (dr =? NULL) then mret dr
    else dp ← rb_parent deepest;
         if negb (dp =? node) then mret dp else mret deepest.
