(* ===== verification/RbHeap.v ===== *)
(** * Red-black trees in memory: the struct, the primitives, the rotations

    [struct rb_node] keeps the colour in bit 0 of the parent pointer.  For
    addresses aligned to four bytes the macros of rbtree.h read and write the
    two parts independently ([pc_parent] to [pc_set_color]); the rest of the
    development works with the struct [mk_cell parent left right colour]. *)

From S2P Require Import Prelude PTree RbTree.

Inductive color := Red | Black.

#[export] Instance color_eq_dec : EqDecision color.
Proof. solve_decision. Defined.

Definition cbit (c : color) : Z := match c with Red => RB_RED | Black => RB_BLACK end.

(** Null, or an aligned 64-bit address. *)
Definition ptr (a : Z) : Prop := 0 ≤ a < 2 ^ 64 ∧ a `mod` 4 = 0.

#[export, refine] Instance rb_tree_node : TreeNode color rb_node := {|
  mk_cell par l r c := Rb (Z.lor par (cbit c)) r l;
  ok_addr a := ptr a ∧ a ≠ NULL
|}.
Proof. by intros a [_ ?]. Defined.

(** ** The packed word *)

Lemma ptr_shift a : ptr a → ∃ m, 0 ≤ m < 2 ^ 62 ∧ a = Z.shiftl m 2.
Proof.
  intros [Hr Hm]. exists (a / 4). rewrite Z.shiftl_mul_pow2 by lia.
  split; [|pose proof (Z.div_mod a 4 ltac:(lia)); lia].
  split; [apply Z.div_pos; lia|]. apply Z.div_lt_upper_bound; lia.
Qed.

Lemma ulong_not3 : ulong (Z.lnot 3) = Z.shiftl (Z.ones 62) 2.
Proof. reflexivity. Qed.
Lemma ulong_not1 : ulong (Z.lnot 1) = Z.shiftl (Z.ones 63) 1.
Proof. reflexivity. Qed.

Lemma bit_below m i : 0 ≤ m < 2 ^ 62 → 62 ≤ i → Z.testbit m i = false.
Proof.
  intros Hm Hi. destruct (decide (m = 0)) as [->|]; [apply Z.bits_0|].
  apply Z.bits_above_log2; [lia|].
  apply Z.log2_lt_pow2; [lia|]. apply Z.lt_le_trans with (2 ^ 62); [lia|].
  apply Z.pow_le_mono_r; lia.
Qed.

(** Case analysis on the three kinds of bits of the packed word. *)
Ltac word_bits Hm :=
  cbn [cbit]; unfold RB_RED, RB_BLACK;
  apply Z.bits_inj'; intros i Hi;
  rewrite ?Z.land_spec, ?Z.lor_spec, ?Z.land_spec, ?Z.lor_spec, ?Z.shiftl_spec by lia;
  destruct (decide (i = 0)) as [->|]; [|destruct (decide (i = 1)) as [->|]];
  rewrite ?(Z.testbit_neg_r _ (0 - 2)), ?(Z.testbit_neg_r _ (1 - 2)),
    ?(Z.testbit_neg_r _ (0 - 1)) by lia;
  [try done | try done |];
  rewrite ?(Z.bits_above_log2 1 i), ?(Z.bits_above_log2 3 i), ?Z.bits_0 by (cbn; lia);
  destruct (decide (i < 64));
  rewrite ?Z.ones_spec_low, ?Z.ones_spec_high, ?(bit_below _ (i - 2) Hm) by lia;
  rewrite ?andb_true_r, ?andb_false_r, ?orb_false_r; try done.

Lemma pc_parent par c :
  ptr par → Z.land (Z.lor par (cbit c)) (ulong (Z.lnot 3)) = par.
Proof.
  intros (m & Hm & ->)%ptr_shift. rewrite ulong_not3. destruct c; word_bits Hm.
Qed.

Lemma pc_color par c : ptr par → Z.land (Z.lor par (cbit c)) 1 = cbit c.
Proof. intros (m & Hm & ->)%ptr_shift. destruct c; word_bits Hm. Qed.

Lemma pc_set_parent par c p :
  ptr par → Z.lor (Z.land (Z.lor par (cbit c)) 3) p = Z.lor p (cbit c).
Proof.
  intros (m & Hm & ->)%ptr_shift. rewrite (Z.lor_comm p). f_equal.
  destruct c; word_bits Hm.
Qed.

Lemma pc_set_black par c : Z.lor (Z.lor par (cbit c)) 1 = Z.lor par (cbit Black).
Proof. rewrite <-Z.lor_assoc. by destruct c. Qed.

Lemma pc_set_color par c c' :
  ptr par →
  Z.lor (Z.land (Z.lor par (cbit c)) (ulong (Z.lnot 1))) (cbit c') = Z.lor par (cbit c').
Proof.
  intros (m & Hm & ->)%ptr_shift. f_equal. rewrite ulong_not1. destruct c; word_bits Hm.
Qed.

Lemma pc_set_red par c :
  ptr par → Z.land (Z.lor par (cbit c)) (ulong (Z.lnot 1)) = Z.lor par (cbit Red).
Proof. intros H. rewrite <-(pc_set_color par c Red H). by rewrite Z.lor_0_r. Qed.

(** ** Primitive operations on a struct in memory *)

Definition has (s : rb_state) (p par l r : Z) (c : color) : Prop :=
  mem s !! p = Some (mk_cell par l r c) ∧ ptr par.

Definition upd (s : rb_state) (p par l r : Z) (c : color) : rb_state :=
  RbSt (<[p := mk_cell par l r c]> (mem s)) (rb_root s).

Definition reroot (s : rb_state) (x : Z) : rb_state := RbSt (mem s) x.

Lemma has_upd_eq s p par l r c : ptr par → has (upd s p par l r c) p par l r c.
Proof. intros H. split; [|done]. apply lookup_insert_eq. Qed.

Lemma has_upd_ne s p q par l r c par' l' r' c' :
  q ≠ p → has s p par l r c → has (upd s q par' l' r' c') p par l r c.
Proof. intros Hne [E H]. split; [|done]. simpl. by rewrite lookup_insert_ne. Qed.

Lemma has_reroot s x p par l r c : has s p par l r c → has (reroot s x) p par l r c.
Proof. done. Qed.

Section primitives.
Context (s : rb_state) (p par l r : Z) (c : color) (H : has s p par l r c).

Ltac prim := destruct H as [E Hp];
  repeat (unfold rb_is_red, rb_is_black, get_left, get_right, set_left, set_right,
    rb_parent, rb_color, rb_set_red, rb_set_black, rb_set_parent, rb_set_color, set_pc, load, store,
    mbind, M_bind, mret, M_ret; simpl; rewrite E); simpl;
  rewrite ?pc_parent, ?pc_color, ?pc_set_parent, ?pc_set_black, ?pc_set_color, ?pc_set_red by done;
  try done.

Lemma get_left_ok : get_left p s = Ok (l, s).
Proof. prim. Qed.
Lemma get_right_ok : get_right p s = Ok (r, s).
Proof. prim. Qed.
Lemma rb_parent_ok : rb_parent p s = Ok (par, s).
Proof. prim. Qed.
Lemma rb_color_ok : rb_color p s = Ok (cbit c, s).
Proof. prim. Qed.
Lemma rb_is_red_ok : rb_is_red p s = Ok (bool_decide (c = Red), s).
Proof. prim. by destruct c. Qed.
Lemma rb_is_black_ok : rb_is_black p s = Ok (bool_decide (c = Black), s).
Proof. prim. by destruct c. Qed.
Lemma set_left_ok x : set_left p x s = Ok ((), upd s p par x r c).
Proof. prim. Qed.
Lemma set_right_ok x : set_right p x s = Ok ((), upd s p par l x c).
Proof. prim. Qed.
Lemma rb_set_red_ok : rb_set_red p s = Ok ((), upd s p par l r Red).
Proof. prim. Qed.
Lemma rb_set_black_ok : rb_set_black p s = Ok ((), upd s p par l r Black).
Proof. prim. Qed.
Lemma rb_set_parent_ok x : rb_set_parent p x s = Ok ((), upd s p x l r c).
Proof. prim. Qed.
Lemma rb_set_color_ok c' : rb_set_color p (cbit c') s = Ok ((), upd s p par l r c').
Proof. prim. Qed.
Lemma set_pc_ok par' l' r' c' :
  set_pc p (rb_parent_color (mk_cell par' l' r' c')) s = Ok ((), upd s p par' l r c').
Proof. prim. Qed.
Lemma load_ok : load p s = Ok (mk_cell par l r c, s).
Proof. prim. Qed.
End primitives.

Lemma get_root_ok s : get_root s = Ok (rb_root s, s).
Proof. done. Qed.
Lemma set_root_ok s x : set_root x s = Ok ((), reroot s x).
Proof. done. Qed.

(** Reading the colour through a pointer that may be null. *)
Lemma and_red_ok s p par l r c :
  p ≠ NULL → has s p par l r c → and_red p s = Ok (bool_decide (c = Red), s).
Proof. intros Hp H. unfold and_red. rewrite (proj2 (Z.eqb_neq _ _) Hp). by eapply rb_is_red_ok. Qed.
Lemma and_red_null s : and_red NULL s = Ok (false, s).
Proof. done. Qed.
Lemma or_black_ok s p par l r c :
  p ≠ NULL → has s p par l r c → or_black p s = Ok (bool_decide (c = Black), s).
Proof. intros Hp H. unfold or_black. rewrite (proj2 (Z.eqb_neq _ _) Hp). by eapply rb_is_black_ok. Qed.
Lemma or_black_null s : or_black NULL s = Ok (true, s).
Proof. done. Qed.

(** [hs] finds the content of a struct in a memory built from updates. *)
Ltac neq := first [assumption | apply not_eq_sym; assumption | congruence].
Ltac hs :=
  lazymatch goal with
  | |- has (reroot _ _) _ _ _ _ _ => apply has_reroot; hs
  | |- has (upd _ ?q _ _ _ _) ?q _ _ _ _ => apply has_upd_eq; try eassumption
  | |- has (upd _ _ _ _ _ _) _ _ _ _ _ => apply has_upd_ne; [neq | hs]
  | |- has _ _ _ _ _ _ => eassumption
  end.

(** [rd1] and [wr1] run one reading or writing primitive at the head of the
    program, [br1] decides a branch. *)
Ltac rd1 :=
  erewrite bind_ok; [|first
    [ eapply get_left_ok; hs | eapply get_right_ok; hs | eapply rb_parent_ok; hs
    | eapply rb_color_ok; hs | eapply rb_is_red_ok; hs | eapply rb_is_black_ok; hs
    | eapply load_ok; hs
    | eapply and_red_ok; [neq|hs] | apply and_red_null
    | eapply or_black_ok; [neq|hs] | apply or_black_null
    | apply get_root_ok
    | lazymatch goal with |- mret _ _ = _ => apply ret_ok end ]].
Ltac wr1 :=
  erewrite bind_ok; [|first
    [ eapply set_left_ok; hs | eapply set_right_ok; hs | eapply rb_set_red_ok; hs
    | eapply rb_set_black_ok; hs | eapply rb_set_parent_ok; hs
    | eapply rb_set_color_ok; hs | eapply set_pc_ok; hs | apply set_root_ok ]].
Ltac br1 :=
  first
  [ rewrite (proj2 (Z.eqb_neq _ _)) by neq
  | rewrite Z.eqb_refl
  | rewrite bool_decide_eq_true_2 by reflexivity
  | rewrite bool_decide_eq_false_2 by discriminate ].
Ltac tidy := cbv beta iota; cbn [fst snd negb andb orb].
Ltac rd := repeat (first [rewrite bind_assoc | rd1 | br1]; tidy).
Ltac go := repeat (first [rewrite bind_assoc | wr1 | rd1 | br1]; tidy).

(** ** The tree in memory and its rotations *)

Definition Own (F : gmap Z rb_node) (s : rb_state) (t : tree color) : Prop :=
  owns F (mem s) t ∧ rb_root s = raddr t.

Lemma ptr_null : ptr NULL.
Proof. done. Qed.
#[export] Hint Resolve ptr_null : ptree.

Lemma ptr_caddr F s t k : Own F s (plug t k) → ptr (caddr k).
Proof.
  intros [O _]. destruct k as [|f k]; [done|].
  by destruct (owns_ok_frame _ _ _ _ _ O).
Qed.

Lemma Own_has F s l a c r k :
  Own F s (plug (Node l a c r) k) → has s a (caddr k) (raddr l) (raddr r) c.
Proof.
  intros H. split; [|by eapply ptr_caddr]. destruct H as [O _].
  by apply owns_lookup in O.
Qed.

Lemma Own_ptr F s l a c r k : Own F s (plug (Node l a c r) k) → ptr a ∧ a ≠ NULL.
Proof. intros [O _]. by apply owns_ok_focus in O. Qed.

Lemma Own_ptr_root F s t k : Own F s (plug t k) → ptr (raddr t).
Proof. intros O. destruct t; [done|]. by apply Own_ptr in O as [? _]. Qed.

Lemma Own_color F s l a c c' r k :
  Own F s (plug (Node l a c r) k) →
  Own F (upd s a (caddr k) (raddr l) (raddr r) c') (plug (Node l a c' r) k).
Proof.
  intros [O E]. split; [by eapply owns_set_data|]. simpl. rewrite E.
  apply raddr_plug_ext. by right.
Qed.

(** What the parent of the subtree in the hole holds. *)
Definition fhas (s : rb_state) (par x : Z) (f : frame color) : Prop :=
  match f with
  | FL g c r => has s g par x (raddr r) c
  | FR l g c => has s g par (raddr l) x c
  end.

Lemma Own_parent F s t f k : Own F s (plug t (f :: k)) → fhas s (caddr k) (raddr t) f.
Proof. destruct f; simpl; intros O; exact (Own_has _ _ _ _ _ _ _ O). Qed.

(** The heap after a rotation: every lookup is an update or an old value. *)
Ltac rot_lookup :=
  simpl; repeat first
  [ rewrite lookup_insert_eq | rewrite lookup_insert_ne by neq ]; try done.
Ltac rot_heap :=
  lazymatch goal with
  | |- rot_same _ _ _ _ _ _ =>
      split; [intros; simplify_eq; rot_lookup
             |intros ? ? ? Hx1 Hx2; try specialize (Hx1 ltac:(done));
              try specialize (Hx2 ltac:(done)); rot_lookup]
  | |- rot_hole _ _ _ => intros ? ? [=]; subst; rot_lookup
  | |- _ => rot_lookup
  end.

(** The proof of both rotations: by cases on whether the middle subtree and
    the context are empty, run the code and compare the heaps. *)
Ltac rot_cases b k Nb Nk Hb Hf :=
  destruct b as [|bl x cx br];
    [|destruct Nb as (? & ? & ?); [done|]; specialize (Hb _ _ _ _ eq_refl)];
  (destruct k as [|[g cg gr|gl g cg] k'];
    [|destruct Nk as (? & ? & ? & N); [done|]; destruct (Hf _ _ eq_refl) as [Hg Ng];
      try specialize (N ltac:(done)) ..]);
  cbn [raddr caddr faddr fdata fsib fhas] in *.

Section rotations.
Context (F : gmap Z rb_node) (s : rb_state) (a b c : tree color) (p q : Z) (cp cq : color).
Context (k : list (frame color)).

Lemma rb_rotate_left_ok :
  Own F s (plug (Node a p cp (Node b q cq c)) k) →
  ∃ s', __rb_rotate_left p s = Ok ((), s') ∧
        Own F s' (plug (Node (Node a p cp b) q cq c) k).
Proof.
  intros O. pose proof (proj1 O) as Oh.
  destruct (rot_neq _ _ p q a b c _ k Oh eq_refl) as (Npq & Np & Nq & Nb & Nk).
  pose proof (Own_has _ _ _ _ _ _ _ O) as Hp.
  pose proof (Own_has F s b q cq c (FR a p cp :: k) O) as Hq.
  pose proof (ptr_caddr _ _ _ _ O) as Pk.
  pose proof (Own_ptr _ _ _ _ _ _ _ O) as [Pp _].
  destruct (Own_ptr F s b q cq c (FR a p cp :: k) O) as [Pq _].
  assert (Hb : ∀ bl x cx br, b = Node bl x cx br → has s x q (raddr bl) (raddr br) cx).
  { intros bl x cx br ->.
    exact (Own_has F s bl x cx br (FL q cq c :: FR a p cp :: k) O). }
  assert (Hf : ∀ f k', k = f :: k' → fhas s (caddr k') p f ∧ p ≠ raddr (fsib f)).
  { intros f k' ->. split; [exact (Own_parent _ _ _ _ _ O)|].
    by eapply owns_sibling_ne. }
  destruct O as [_ Er]. unfold __rb_rotate_left. cbn [raddr] in *.
  pose proof (λ h', owns_rotate_left F (mem s) h' a p cp b q cq c k cp cq Oh) as R.
  assert (Ek : k ≠ [] → rb_root s = raddr (plug (Node (Node a p cp b) q cq c) k)).
  { intros. rewrite Er. apply raddr_plug_ext. by left. }
  rot_cases b k Nb Nk Hb Hf; go;
    (eexists; split; [eapply rb_set_parent_ok; hs|]);
    (split; [apply R; rot_heap|try done; by apply Ek]).
Qed.

Lemma rb_rotate_right_ok :
  Own F s (plug (Node (Node a q cq b) p cp c) k) →
  ∃ s', __rb_rotate_right p s = Ok ((), s') ∧
        Own F s' (plug (Node a q cq (Node b p cp c)) k).
Proof.
  intros O. pose proof (proj1 O) as Oh.
  destruct (rot_neq _ _ q p a b c _ k Oh) as (Npq & Nq & Np & Nb & Nk).
  { simpl. by rewrite <-app_assoc. }
  pose proof (Own_has _ _ _ _ _ _ _ O) as Hp.
  pose proof (Own_has F s a q cq b (FL p cp c :: k) O) as Hq.
  pose proof (ptr_caddr _ _ _ _ O) as Pk.
  pose proof (Own_ptr _ _ _ _ _ _ _ O) as [Pp _].
  destruct (Own_ptr F s a q cq b (FL p cp c :: k) O) as [Pq _].
  assert (Hb : ∀ bl x cx br, b = Node bl x cx br → has s x q (raddr bl) (raddr br) cx).
  { intros bl x cx br ->.
    exact (Own_has F s bl x cx br (FR a q cq :: FL p cp c :: k) O). }
  assert (Hf : ∀ f k', k = f :: k' → fhas s (caddr k') p f ∧ p ≠ raddr (fsib f)).
  { intros f k' ->. split; [exact (Own_parent _ _ _ _ _ O)|].
    by eapply owns_sibling_ne. }
  destruct O as [_ Er]. unfold __rb_rotate_right. cbn [raddr] in *.
  pose proof (λ h', owns_rotate_right F (mem s) h' a q cq b p cp c k cp cq Oh) as R.
  assert (Ek : k ≠ [] → rb_root s = raddr (plug (Node a q cq (Node b p cp c)) k)).
  { intros. rewrite Er. apply raddr_plug_ext. by left. }
  rot_cases b k Nb Nk Hb Hf; go;
    (eexists; split; [eapply rb_set_parent_ok; hs|]);
    (split; [apply R; rot_heap|try done; by apply Ek]).
Qed.
End rotations.

(** Recolouring the node in focus. *)
Section recolour.
Context {F : gmap Z rb_node} {s : rb_state} {l r : tree color} {a : Z} {c : color}.
Context {k : list (frame color)} (O : Own F s (plug (Node l a c r) k)).

Lemma set_black_own :
  ∃ s', rb_set_black a s = Ok ((), s') ∧ Own F s' (plug (Node l a Black r) k).
Proof. eexists. split; [|eapply Own_color, O]. eapply rb_set_black_ok, Own_has, O. Qed.

Lemma set_red_own :
  ∃ s', rb_set_red a s = Ok ((), s') ∧ Own F s' (plug (Node l a Red r) k).
Proof. eexists. split; [|eapply Own_color, O]. eapply rb_set_red_ok, Own_has, O. Qed.

Lemma set_color_own c' :
  ∃ s', rb_set_color a (cbit c') s = Ok ((), s') ∧ Own F s' (plug (Node l a c' r) k).
Proof. eexists. split; [|eapply Own_color, O]. eapply rb_set_color_ok, Own_has, O. Qed.
End recolour.

(** Recolouring the parent of the hole. *)
Lemma set_black_fill {F s t f k} :
  Own F s (plug (fill f t) k) →
  ∃ s', rb_set_black (faddr f) s = Ok ((), s') ∧ Own F s' (plug (fill (fset Black f) t) k).
Proof. destruct f; intros O; exact (set_black_own O). Qed.

Lemma set_red_fill {F s t f k} :
  Own F s (plug (fill f t) k) →
  ∃ s', rb_set_red (faddr f) s = Ok ((), s') ∧ Own F s' (plug (fill (fset Red f) t) k).
Proof. destruct f; intros O; exact (set_red_own O). Qed.

Lemma Own_flip {F s t f k} :
  Own F s (plug t (f :: k)) ↔ Own F s (plug (fsib f) (fflip f t :: k)).
Proof. simpl. by rewrite fill_fflip. Qed.

(** Reading through the root of a subtree, null or not, and through the
    parent of the hole. *)
Lemma and_red_own {F s t k} :
  Own F s (plug t k) →
  and_red (raddr t) s = Ok (match t with Node _ _ Red _ => true | _ => false end, s).
Proof.
  destruct t as [|l a c r]; intros O; [done|].
  simpl. rewrite (and_red_ok _ _ _ _ _ _ (proj2 (Own_ptr _ _ _ _ _ _ _ O)) (Own_has _ _ _ _ _ _ _ O)).
  by destruct c.
Qed.

Lemma or_black_own {F s t k} :
  Own F s (plug t k) →
  or_black (raddr t) s = Ok (match t with Node _ _ Red _ => false | _ => true end, s).
Proof.
  destruct t as [|l a c r]; intros O; [done|].
  simpl. rewrite (or_black_ok _ _ _ _ _ _ (proj2 (Own_ptr _ _ _ _ _ _ _ O)) (Own_has _ _ _ _ _ _ _ O)).
  by destruct c.
Qed.

Lemma and_red_frame {F s t f k} :
  Own F s (plug t (f :: k)) →
  and_red (faddr f) s = Ok (match fdata f with Red => true | Black => false end, s).
Proof.
  intros O. apply (@and_red_own F s (fill f t) k) in O.
  destruct f as [a c r|l a c]; simpl in *; rewrite O; by destruct c.
Qed.

Lemma rb_parent_own {F s l a c r k} :
  Own F s (plug (Node l a c r) k) → rb_parent a s = Ok (caddr k, s).
Proof. intros O. eapply rb_parent_ok, Own_has, O. Qed.

Lemma rb_parent_frame {F s t f k} :
  Own F s (plug t (f :: k)) → rb_parent (faddr f) s = Ok (caddr k, s).
Proof. destruct f; intros O; exact (rb_parent_own O). Qed.

Lemma Own_sibling_ne {F s l a c r f k} :
  Own F s (plug (Node l a c r) (f :: k)) → a ≠ raddr (fsib f).
Proof. intros [O _]. by eapply owns_sibling_ne. Qed.

Lemma get_root_own {F s t} : Own F s t → get_root s = Ok (raddr t, s).
Proof. intros [_ E]. unfold get_root, gets. by rewrite E. Qed.

(** A struct outside the tree can be freed or written. *)
Lemma Own_free F r t a : Own F r t → a ∉ addrs t →
  Own (delete a F) (RbSt (delete a (mem r)) (rb_root r)) t.
Proof.
  intros [O E] Na. split; [|done]. destruct O as [Hn Ho Hr Hf]. split; [done|done|..]; simpl.
  - eapply rep_same; [|exact Hr]. intros b Hb. apply lookup_delete_ne. by intros ->.
  - intros b Hb. destruct (decide (a = b)) as [->|]; [by rewrite !lookup_delete_eq|].
    rewrite !lookup_delete_ne by done. auto.
Qed.

Lemma Own_write F r t a c : Own F r t → a ∉ addrs t →
  Own (<[a := c]> F) (RbSt (<[a := c]> (mem r)) (rb_root r)) t.
Proof.
  intros [O E] Na. split; [|done]. destruct O as [Hn Ho Hr Hf]. split; [done|done|..]; simpl.
  - eapply rep_same; [|exact Hr]. intros b Hb. apply lookup_insert_ne. by intros ->.
  - intros b Hb. destruct (decide (a = b)) as [->|]; [by rewrite !lookup_insert_eq|].
    rewrite !lookup_insert_ne by done. auto.
Qed.
