(* ===== verification/RbWalk.v ===== *)
(** * Walking along the links: the leftmost and the rightmost node

    The loops of [rb_first], [rb_last], [rb_next], [rb_prev] and [rb_erase]
    that follow left links or right links as far as they go. *)

From S2P Require Import Prelude PTree PSearch RbTree RbHeap.

Section walk.
Context (F : gmap Z rb_node) (s : rb_state).

Lemma plug_nonnull l a c r k k' : Own F s (plug (plug (Node l a c r) k) k') →
  raddr (plug (Node l a c r) k) ≠ NULL.
Proof.
  destruct (plug_node l a c r k) as (? & ? & ? & ? & ->). intros O. by apply Own_ptr in O as [_ ?].
Qed.

Lemma go_left_ok kl : ∀ n y c r k,
  Forall is_FL kl → Own F s (plug (Node Leaf y c r) (kl ++ k)) → (length kl < n)%nat →
  go_left n (raddr (plug (Node Leaf y c r) kl)) s = Ok (y, s).
Proof.
  induction kl as [|f kl IH] using rev_ind; intros n y c r k Hf O Hn; (destruct n as [|n]; [simpl in Hn; lia|]).
  - pose proof (Own_has _ _ _ _ _ _ _ O) as H. simpl. by rd.
  - rewrite Forall_app, Forall_singleton in Hf. destruct Hf as [Hf Hf1].
    destruct f as [ra cr rr|]; [|done]. rewrite length_app in Hn. simpl in Hn.
    rewrite <-app_assoc in O. rewrite plug_app. simpl.
    pose proof O as O'. rewrite plug_app in O'. pose proof (plug_nonnull _ _ _ _ _ _ O') as Hnn.
    pose proof (Own_has F s _ ra cr rr k O') as H. rd. apply (IH n y c r (FL ra cr rr :: k)); [done..|lia].
Qed.

Lemma go_right_ok kl : ∀ n y c l k,
  Forall is_FR kl → Own F s (plug (Node l y c Leaf) (kl ++ k)) → (length kl < n)%nat →
  go_right n (raddr (plug (Node l y c Leaf) kl)) s = Ok (y, s).
Proof.
  induction kl as [|f kl IH] using rev_ind; intros n y c l k Hf O Hn; (destruct n as [|n]; [simpl in Hn; lia|]).
  - pose proof (Own_has _ _ _ _ _ _ _ O) as H. simpl. by rd.
  - rewrite Forall_app, Forall_singleton in Hf. destruct Hf as [Hf Hf1].
    destruct f as [|rl ra cr]; [done|]. rewrite length_app in Hn. simpl in Hn.
    rewrite <-app_assoc in O. rewrite plug_app. simpl.
    pose proof O as O'. rewrite plug_app in O'. pose proof (plug_nonnull _ _ _ _ _ _ O') as Hnn.
    pose proof (Own_has F s rl ra cr _ k O') as H. rd. apply (IH n y c l (FR rl ra cr :: k)); [done..|lia].
Qed.
End walk.

Lemma Own_fuel_ctx F s t k : Own F s (plug t k) → (length k < fuel s)%nat.
Proof.
  intros [O _]. apply owns_length in O. rewrite addrs_plug, length_app in O.
  pose proof (length_caddrs k). unfold fuel. lia.
Qed.
