(* ===== verification/RbInsert.v ===== *)
(** * Insertion keeps a red-black tree: rb_insert_color

    The invariant of a red-black tree as rbtree.c keeps it, in the form the
    loops need: [rbt t c n] for a subtree with root colour [c] and black
    height [n], [rctx k c n] for a context that a subtree of that colour and
    height completes to a red-black tree with a black root. *)

From S2P Require Import Prelude PTree RbTree RbHeap.

Inductive rbt : tree color → color → nat → Prop :=
  | rbt_leaf : rbt Leaf Black 0
  | rbt_red l a r n : rbt l Black n → rbt r Black n → rbt (Node l a Red r) Red n
  | rbt_black l a r cl cr n : rbt l cl n → rbt r cr n → rbt (Node l a Black r) Black (S n).

Inductive rctx : list (frame color) → color → nat → Prop :=
  | rctx_nil n : rctx [] Black n
  | rctx_black f k c cs n :
      fdata f = Black → rbt (fsib f) cs n → rctx k Black (S n) → rctx (f :: k) c n
  | rctx_red f k n :
      fdata f = Red → rbt (fsib f) Black n → rctx k Red n → rctx (f :: k) Black n.

Definition red_black (t : tree color) : Prop := ∃ n, rbt t Black n.

Create HintDb rb.
#[export] Hint Constructors rbt rctx : rb.

Lemma rctx_plug t k c n : rbt t c n → rctx k c n → red_black (plug t k).
Proof.
  intros Ht Hk. revert t Ht.
  induction Hk as [n|f k c cs n E Hs Hk IH|f k n E Hs Hk IH]; intros t Ht; simpl.
  - by exists n.
  - apply IH. destruct f; simpl in *; subst; eauto with rb.
  - apply IH. destruct f; simpl in *; subst; eauto with rb.
Qed.

Lemma rctx_unplug t k m :
  rbt (plug t k) Black m → ∃ c n, rbt t c n ∧ rctx k c n.
Proof.
  revert t. induction k as [|f k IH]; intros t H; simpl in *; [eauto with rb|].
  destruct (IH _ H) as (c & n & Hf & Hk).
  destruct f as [a d r|l a d]; simpl in Hf; inversion Hf; subst;
    eexists _, _; (split; [eassumption|]); eauto using rctx.
Qed.

(** A context that takes a red subtree takes a black one as well. *)
Lemma rctx_any k c n : rctx k c n → rctx k Black n.
Proof. inversion 1; eauto with rb. Qed.

Lemma rctx_red_inv k n :
  rctx k Red n → ∃ f k' cs, k = f :: k' ∧ fdata f = Black ∧ rbt (fsib f) cs n ∧ rctx k' Black (S n).
Proof. inversion 1; subst; eauto 10. Qed.

Lemma rbt_black_not_red t n : rbt t Black n → ∀ l a r, t ≠ Node l a Red r.
Proof. inversion 1; congruence. Qed.

(** ** The cases of the loop *)

(** Not a node whose colour is red. *)
Definition blackish (t : tree color) : Prop :=
  match t with Node _ _ Red _ => False | _ => True end.

#[export] Instance blackish_dec t : Decision (blackish t).
Proof. destruct t as [|l a [] r]; [left|right|left]; simpl; auto. Defined.

Lemma rbt_not_blackish t c n : rbt t c n → ¬ blackish t → c = Red.
Proof. by inversion 1. Qed.

Lemma rbt_blackish t n : rbt t Black n → blackish t.
Proof. by inversion 1. Qed.
#[export] Hint Resolve rbt_blackish : rb.

Section insert_cases.
Context (F : gmap Z rb_node).
Implicit Types (s : rb_state) (t : tree color) (k : list (frame color)).

Lemma insert_stop s n l a c r f k :
  Own F s (plug (Node l a c r) (f :: k)) → fdata f = Black →
  rb_insert_color_loop (S n) a s = Ok ((), s).
Proof.
  intros O E. simpl. run (rb_parent_own O). simpl.
  run (and_red_frame O). by rewrite E.
Qed.

(** A red uncle: recolour and go on from the grandparent. *)
Lemma insert_uncle_red s n l a r f g k ul ua ur :
  Own F s (plug (Node l a Red r) (f :: g :: k)) →
  fdata f = Red → fdata g = Black → fsib g = Node ul ua Red ur →
  ∃ s', rb_insert_color_loop (S n) a s = rb_insert_color_loop n (faddr g) s' ∧
        Own F s' (plug (fill (fset Red (fflip g (fill (fset Black f) (Node l a Red r))))
                             (Node ul ua Black ur)) k).
Proof.
  intros O Ef Eg Eu. simpl. set (N := Node l a Red r) in *.
  pose proof (Own_parent F s _ g k O) as Hg. rewrite raddr_fill in Hg.
  pose proof O as Ou. rewrite (@Own_flip F s (fill f N) g k), Eu in Ou.
  pose proof (and_red_own Ou : and_red ua s = Ok (true, s)) as Hu.
  destruct (set_black_own Ou) as (s1 & E1 & O1).
  assert (Nf : faddr f ≠ ua).
  { pose proof (Own_sibling_ne Ou) as H. destruct g, f; simpl in *; congruence. }
  assert (O2 : Own F s1 (plug (fill f N) (fflip (fflip g (fill f N)) (Node ul ua Black ur) :: k))).
  { by destruct g. }
  destruct (set_black_fill O2) as (s2 & E2 & O3).
  destruct (@set_red_fill F s2 (fill (fset Black f) N) _ _ O3) as (s3 & E3 & O4).
  exists s3. split.
  - run (rb_parent_own O). simpl. run (and_red_frame O). rewrite Ef. tidy.
    run (rb_parent_frame O). simpl.
    destruct g as [ga gc u|u ga gc]; simpl in *; subst; simpl in *; rd;
      run Hu; run E1; run E2; by run E3.
  - by destruct g.
Qed.

(** A black uncle: one rotation at the grandparent, after one at the parent
    when the node is an inner grandchild.  The next test of the loop stops
    it, because the subtree now has a black root. *)
Lemma and_red_blackish s t k :
  Own F s (plug t k) → blackish t → and_red (raddr t) s = Ok (false, s).
Proof. intros O B. rewrite (and_red_own O). by destruct t as [|? ? []]. Qed.

(** The tests of the loop up to the colour of the uncle. *)
Ltac insert_enter O B :=
  let Hp := fresh "Hp" in let Hg := fresh "Hg" in let Hu := fresh "Hu" in
  let Ns := fresh "Ns" in let Nu := fresh "Nu" in
  pose proof (Own_sibling_ne O) as Ns; cbn [fsib] in Ns;
  lazymatch type of O with Own _ ?s (plug ?t (?f :: ?g :: ?k)) =>
    pose proof (Own_parent F s t f (g :: k) O) as Hp;
    pose proof (Own_parent F s (fill f t) g k O) as Hg;
    pose proof (and_red_blackish s _ _ (proj1 (@Own_flip F s (fill f t) g k) O) B) as Hu;
    pose proof (@Own_sibling_ne F s _ _ _ _ g k O) as Nu
  end;
  cbn [fhas fsib raddr fill caddr faddr] in *;
  cbn [rb_insert_color_loop]; run (rb_parent_own O); cbn [caddr faddr];
  run (and_red_frame O); cbn [fdata]; tidy; run (rb_parent_frame O); cbn [caddr faddr].

Section black_uncle.
Context (s : rb_state) (n : nat) (l r ps u : tree color) (a pa ga : Z) (k : list (frame color)).
Context (B : blackish u).

Lemma insert_left_outer :
  Own F s (plug (Node l a Red r) (FL pa Red ps :: FL ga Black u :: k)) →
  ∃ s', rb_insert_color_loop (S (S n)) a s = Ok ((), s') ∧
        Own F s' (plug (Node (Node l a Red r) pa Black (Node ps ga Red u)) k).
Proof.
  intros O.
  destruct (@set_black_own F s _ _ _ _ (FL ga Black u :: k) O) as (s1 & E1 & O1).
  destruct (@set_red_own F s1 _ _ _ _ k O1) as (s2 & E2 & O2).
  destruct (rb_rotate_right_ok _ _ _ _ _ _ _ _ _ _ O2) as (s3 & E3 & O3).
  exists s3. split; [|done].
  insert_enter O B. rd. run Hu. rd. run E1. run E2. run E3.
  by eapply (insert_stop _ _ _ _ _ _ (FL pa Black (Node ps ga Red u)) k O3).
Qed.

Lemma insert_left_inner :
  Own F s (plug (Node l a Red r) (FR ps pa Red :: FL ga Black u :: k)) →
  ∃ s', rb_insert_color_loop (S (S n)) a s = Ok ((), s') ∧
        Own F s' (plug (Node (Node ps pa Red l) a Black (Node r ga Red u)) k).
Proof.
  intros O.
  destruct (rb_rotate_left_ok F s ps l r pa a Red Red (FL ga Black u :: k) O) as (s0 & E0 & O0).
  destruct (@set_black_own F s0 _ _ _ _ (FL ga Black u :: k) O0) as (s1 & E1 & O1).
  destruct (@set_red_own F s1 _ _ _ _ k O1) as (s2 & E2 & O2).
  destruct (rb_rotate_right_ok _ _ _ _ _ _ _ _ _ _ O2) as (s3 & E3 & O3).
  exists s3. split; [|done].
  insert_enter O B. rd. run Hu. rd. run E0. rd. run E1. run E2. run E3.
  by eapply (insert_stop _ _ _ _ _ _ (FL a Black (Node r ga Red u)) k O3).
Qed.

Lemma insert_right_outer :
  Own F s (plug (Node l a Red r) (FR ps pa Red :: FR u ga Black :: k)) →
  ∃ s', rb_insert_color_loop (S (S n)) a s = Ok ((), s') ∧
        Own F s' (plug (Node (Node u ga Red ps) pa Black (Node l a Red r)) k).
Proof.
  intros O.
  destruct (@set_black_own F s _ _ _ _ (FR u ga Black :: k) O) as (s1 & E1 & O1).
  destruct (@set_red_own F s1 _ _ _ _ k O1) as (s2 & E2 & O2).
  destruct (rb_rotate_left_ok _ _ _ _ _ _ _ _ _ _ O2) as (s3 & E3 & O3).
  exists s3. split; [|done].
  insert_enter O B. rd. run Hu. rd. run E1. run E2. run E3.
  by eapply (insert_stop _ _ _ _ _ _ (FR (Node u ga Red ps) pa Black) k O3).
Qed.

Lemma insert_right_inner :
  Own F s (plug (Node l a Red r) (FL pa Red ps :: FR u ga Black :: k)) →
  ∃ s', rb_insert_color_loop (S (S n)) a s = Ok ((), s') ∧
        Own F s' (plug (Node (Node u ga Red l) a Black (Node r pa Red ps)) k).
Proof.
  intros O.
  destruct (rb_rotate_right_ok F s l r ps pa a Red Red (FR u ga Black :: k) O) as (s0 & E0 & O0).
  destruct (@set_black_own F s0 _ _ _ _ (FR u ga Black :: k) O0) as (s1 & E1 & O1).
  destruct (@set_red_own F s1 _ _ _ _ k O1) as (s2 & E2 & O2).
  destruct (rb_rotate_left_ok _ _ _ _ _ _ _ _ _ _ O2) as (s3 & E3 & O3).
  exists s3. split; [|done].
  insert_enter O B. rd. run Hu. rd. run E0. rd. run E1. run E2. run E3.
  by eapply (insert_stop _ _ _ _ _ _ (FR (Node u ga Red l) a Black) k O3).
Qed.
End black_uncle.
End insert_cases.

(** ** The loop *)

Lemma insert_black_uncle F s n l a r f g k m cu :
  Own F s (plug (Node l a Red r) (f :: g :: k)) →
  fdata f = Red → fdata g = Black → blackish (fsib g) →
  rbt l Black m → rbt r Black m → rbt (fsib f) Black m → rbt (fsib g) cu m →
  ∃ s' t, rb_insert_color_loop (S (S n)) a s = Ok ((), s') ∧ Own F s' (plug t k) ∧
    rbt t Black (S m) ∧ addrs t = addrs (plug (Node l a Red r) [f; g]).
Proof.
  intros O Ef Eg B Hl Hr Hs Hu.
  assert (cu = Black) as -> by (inversion Hu; subst; auto; by rewrite <-H in B).
  destruct f as [pa cp ps|ps pa cp], g as [ga cg u|u ga cg]; simpl in *; subst.
  - destruct (insert_left_outer F s n l r ps u a pa ga k B O) as (s' & E & O').
    eexists _, _. split_and!; [exact E|exact O'|eauto 6 with rb|flat].
  - destruct (insert_right_inner F s n l r ps u a pa ga k B O) as (s' & E & O').
    eexists _, _. split_and!; [exact E|exact O'|eauto 6 with rb|flat].
  - destruct (insert_left_inner F s n l r ps u a pa ga k B O) as (s' & E & O').
    eexists _, _. split_and!; [exact E|exact O'|eauto 6 with rb|flat].
  - destruct (insert_right_outer F s n l r ps u a pa ga k B O) as (s' & E & O').
    eexists _, _. split_and!; [exact E|exact O'|eauto 6 with rb|flat].
Qed.

Lemma insert_loop_ok F n k l a r m s :
  (length k < n)%nat → Own F s (plug (Node l a Red r) k) →
  rbt l Black m → rbt r Black m → rctx k Black m →
  ∃ s' t' c m', rb_insert_color_loop n a s = Ok ((), s') ∧ Own F s' t' ∧
    rbt t' c m' ∧ addrs t' = addrs (plug (Node l a Red r) k).
Proof.
  revert k l a r m s. induction (lt_wf n) as [n _ IH]. intros k l a r m s Hn O Hl Hr Hk.
  destruct n as [|n]; [lia|].
  inversion Hk as [m' E1 E2|f k' c cs m' Ef Hs Hk' E1 E2|f k' m' Ef Hs Hk' E1 E2]; subst.
  { exists s, (Node l a Red r), Red, m. split_and!; [|done|by constructor|done].
    simpl. run (rb_parent_own O). by run (and_red_null s). }
  { destruct (rctx_plug (Node l a Red r) (f :: k') Red m) as [m' Hm]; [by constructor|eauto with rb|].
    eexists s, _, _, _. split_and!; [|exact O|exact Hm|done]. by eapply insert_stop. }
  destruct (rctx_red_inv _ _ Hk') as (g & k & cu & -> & Eg & Hu & Hk'').
  assert (Hn' : ∃ n', n = S n') by (destruct n; simpl in Hn; [lia|eauto]).
  destruct Hn' as [n' ->].
  destruct (decide (blackish (fsib g))) as [B|B].
  - destruct (insert_black_uncle F s n' l a r f g k m cu) as (s' & t & E & O' & Ht & Ea); auto.
    destruct (rctx_plug _ _ _ _ Ht Hk'') as [m' Hm].
    eexists s', _, _, _. split_and!; [exact E|exact O'|exact Hm|].
    etrans; [apply (addrs_plug_ext _ _ k Ea)|]. done.
  - destruct (fsib g) as [|ul ua [] ur] eqn:Eu; try by destruct B.
    destruct (insert_uncle_red F s (S n') l a r f g k ul ua ur O Ef Eg Eu) as (s1 & -> & O1).
    inversion Hu; subst.
    assert (Hf : rbt (fill (fset Black f) (Node l a Red r)) Black (S m)).
    { destruct f; simpl in *; eauto with rb. }
    assert (Hk2 : ∃ gl gr, fill (fset Red (fflip g (fill (fset Black f) (Node l a Red r)))) (Node ul ua Black ur)
      = Node gl (faddr g) Red gr ∧ rbt gl Black (S m) ∧ rbt gr Black (S m)).
    { destruct g; simpl; eexists _, _; eauto with rb. }
    destruct Hk2 as (gl & gr & E & Hgl & Hgr). rewrite E in O1.
    destruct (IH (S n') ltac:(lia) k gl (faddr g) gr (S m) s1) as (s' & t' & c & m' & ? & ? & ? & Ea); auto.
    { simpl in Hn. lia. }
    eexists _, _, _, _. split_and!; try done. rewrite Ea, <-E. simpl. apply addrs_plug_ext.
    destruct f, g; simpl in *; subst; flat.
Qed.

(** ** The entry points *)

Lemma Own_fuel F s l a c r k :
  Own F s (plug (Node l a c r) k) → (length k < fuel s)%nat.
Proof. intros [O _]. apply owns_depth in O. unfold fuel. lia. Qed.

Lemma rb_insert_color_ok F s a k :
  Own F s (plug (Node Leaf a Red Leaf) k) → red_black (plug Leaf k) →
  ∃ s' t', rb_insert_color a s = Ok ((), s') ∧ Own F s' t' ∧ red_black t' ∧
    addrs t' = addrs (plug (Node Leaf a Red Leaf) k).
Proof.
  intros O [m Hm]. destruct (rctx_unplug _ _ _ Hm) as (c & n & Hl & Hk).
  inversion Hl; subst.
  destruct (insert_loop_ok F (fuel s) k Leaf a Leaf 0 s) as (s1 & t1 & c & m1 & E1 & O1 & Ht & Ea);
    auto using rbt_leaf. { by eapply Own_fuel. }
  unfold rb_insert_color. run E1. run (get_root_ok s1). rewrite (proj2 O1).
  destruct t1 as [|l1 a1 c1 r1].
  { assert (Ha : a ∈ addrs (plug (Node Leaf a Red Leaf) k)).
    { rewrite addrs_plug. simpl. set_solver. }
    rewrite <-Ea in Ha. by apply elem_of_nil in Ha. }
  destruct (@set_black_own F s1 l1 r1 a1 c1 [] O1) as (s' & E & O').
  exists s', (Node l1 a1 Black r1). split_and!; [exact E|exact O'| |exact Ea].
  inversion Ht; subst; eexists; eauto with rb.
Qed.

(** The link field of a hole. *)
Definition hlink {P} (k : list (frame P)) : link :=
  match k with
  | [] => LRoot
  | FL a _ _ :: _ => LLeft a
  | FR _ a _ :: _ => LRight a
  end.

Lemma set_pc_red_ok s a x c0 :
  mem s !! a = Some c0 →
  set_pc a x s = Ok ((), upd s a x (rb_left c0) (rb_right c0) Red).
Proof.
  intros E. unfold set_pc, load, store, mbind, M_bind. rewrite E, E. unfold upd. simpl.
  by rewrite Z.lor_0_r.
Qed.

Lemma rb_link_node_ok F s k a :
  Own F s (plug Leaf k) → is_Some (F !! a) → a ∉ addrs (plug Leaf k) → ptr a → a ≠ NULL →
  ∃ s', rb_link_node a (caddr k) (hlink k) s = Ok ((), s') ∧
        Own F s' (plug (Node Leaf a Red Leaf) k).
Proof.
  intros O [c0 Fa] Na Pa Na0. pose proof O as [Oh Er].
  assert (Ha : mem s !! a = Some c0) by (by rewrite (owns_frame _ _ _ Oh)).
  assert (Nk : a ∉ caddrs k) by (rewrite addrs_plug in Na; set_solver).
  pose proof (ptr_caddr _ _ _ _ O) as Pk.
  assert (Hf : ∀ f k', k = f :: k' → fhas s (caddr k') NULL f ∧ faddr f ≠ a).
  { intros f k' ->. split; [exact (Own_parent _ _ _ _ _ O)|]. simpl in Nk. set_solver. }
  pose proof (λ h', owns_graft F (mem s) h' k a Red Oh (conj Pa Na0) Nk) as G.
  assert (Ek : k ≠ [] → rb_root s = raddr (plug (Node Leaf a Red Leaf) k)).
  { intros. rewrite Er. apply raddr_plug_ext. by left. }
  unfold rb_link_node. run (set_pc_red_ok s a (caddr k) c0 Ha). tidy.
  destruct k as [|[g cg gr|gl g cg] k'];
    [|destruct (Hf _ _ eq_refl) as [Hg Ng]..]; cbn [caddr faddr fhas hlink set_link] in *; go.
  1: eexists; split; [apply set_root_ok|].
  2: eexists; split; [eapply set_left_ok; hs|].
  3: eexists; split; [eapply set_right_ok; hs|].
  all: split; [apply G|try done; by apply Ek].
  all: try rot_heap.
  all: intros x Nx Hx; try specialize (Hx ltac:(done)); rot_lookup.
Qed.

Lemma get_link_ok F s t k : Own F s (plug t k) → get_link (hlink k) s = Ok (raddr t, s).
Proof.
  intros O. destruct k as [|f k]; [by apply (get_root_own O)|].
  pose proof (Own_parent _ _ _ _ _ O) as Hf.
  destruct f; simpl in *; [by eapply get_left_ok|by eapply get_right_ok].
Qed.
