(* ===== verification/RbErase.v ===== *)
(** * Removal keeps a red-black tree: rb_erase

    [__rb_erase_color] works on a subtree whose black height is one too small
    for its place; [rb_erase] takes the node out of the tree, replaced by its
    only child or by its successor, and calls it when the node that left its
    place was black. *)

From S2P Require Import Prelude PTree PSearch RbTree RbHeap RbWalk RbInsert.

Definition blacken (t : tree color) : tree color :=
  match t with Leaf => Leaf | Node l a _ r => Node l a Black r end.

(** The state of the loop: the place of [t] in [k] needs black height [S m];
    [t] has height [m], or its red root makes up for the difference. *)
Definition deficit (t : tree color) (k : list (frame color)) (m : nat) : Prop :=
  rctx k Black (S m) ∧
  (rbt t Black m ∨ (¬ blackish t ∧ rbt (blacken t) Black (S m))).

(** What the loop leaves to the final [rb_set_black(node)]. *)
Definition repaired (F : gmap Z rb_node) (s : rb_state) (node : Z) (as_ : list Z) : Prop :=
  ∃ t k, node = raddr t ∧ Own F s (plug t k) ∧ red_black (plug (blacken t) k) ∧
    addrs (plug t k) = as_.

Lemma or_black_blackish {F s t k} :
  Own F s (plug t k) → blackish t → or_black (raddr t) s = Ok (true, s).
Proof. intros O B. rewrite (or_black_own O). by destruct t as [|? ? []]. Qed.

(** The cases of an iteration below the first rotation.  The sibling [oa] is
    black with children [ol] and [or']. *)
Section erase_cases.
Context (F : gmap Z rb_node) (loop : Z → Z → M rb_state Z).
Context (s : rb_state) (p oa : Z) (cp : color) (t ol or' : tree color) (k : list (frame color)).

(** Both children of the sibling are black: recolour it and go up. *)
Lemma erase_left_up :
  Own F s (plug t (FL p cp (Node ol oa Black or') :: k)) → blackish ol → blackish or' →
  ∃ s', erase_left_rest loop p oa s = loop p (caddr k) s' ∧
        Own F s' (plug (Node t p cp (Node ol oa Red or')) k).
Proof.
  intros O Bl Br.
  pose proof (O : Own F s (plug (Node ol oa Black or') (FR t p cp :: k))) as Oo.
  pose proof (Own_has _ _ _ _ _ _ _ Oo) as Ho.
  pose proof (or_black_blackish (O : Own F s (plug ol (FL oa Black or' :: FR t p cp :: k))) Bl) as El.
  pose proof (or_black_blackish (O : Own F s (plug or' (FR ol oa Black :: FR t p cp :: k))) Br) as Er.
  destruct (set_red_own Oo) as (s1 & E1 & O1).
  exists s1. split; [|done]. unfold erase_left_rest. rd. run El. rd. run Er. tidy. run E1.
  by run (rb_parent_own (O1 : Own F s1 (plug (Node t p cp _) k))).
Qed.

Lemma erase_right_up :
  Own F s (plug t (FR (Node ol oa Black or') p cp :: k)) → blackish ol → blackish or' →
  ∃ s', erase_right_rest loop p oa s = loop p (caddr k) s' ∧
        Own F s' (plug (Node (Node ol oa Red or') p cp t) k).
Proof.
  intros O Bl Br.
  pose proof (O : Own F s (plug (Node ol oa Black or') (FL p cp t :: k))) as Oo.
  pose proof (Own_has _ _ _ _ _ _ _ Oo) as Ho.
  pose proof (or_black_blackish (O : Own F s (plug ol (FL oa Black or' :: FL p cp t :: k))) Bl) as El.
  pose proof (or_black_blackish (O : Own F s (plug or' (FR ol oa Black :: FL p cp t :: k))) Br) as Er.
  destruct (set_red_own Oo) as (s1 & E1 & O1).
  exists s1. split; [|done]. unfold erase_right_rest. rd. run El. rd. run Er. tidy. run E1.
  by run (rb_parent_own (O1 : Own F s1 (plug (Node _ p cp t) k))).
Qed.
End erase_cases.

(** The far child of the sibling is red: one rotation ends the loop. *)
Section erase_far.
Context (F : gmap Z rb_node) (s : rb_state) (p oa fa : Z) (cp : color).
Context (t near fl fr : tree color) (k : list (frame color)).

(** The last part of the body, from [rb_set_color(other, rb_color(parent))]. *)
Definition left_tail : M rb_state Z :=
  pc ← rb_color p; rb_set_color oa pc;; rb_set_black p;;
  or' ← get_right oa; rb_set_black or';; __rb_rotate_left p;; get_root.
Definition right_tail : M rb_state Z :=
  pc ← rb_color p; rb_set_color oa pc;; rb_set_black p;;
  ol ← get_left oa; rb_set_black ol;; __rb_rotate_right p;; get_root.

Lemma left_tail_ok :
  Own F s (plug t (FL p cp (Node near oa Black (Node fl fa Red fr)) :: k)) →
  let t' := plug (Node (Node t p Black near) oa cp (Node fl fa Black fr)) k in
  ∃ s', left_tail s = Ok (raddr t', s') ∧ Own F s' t'.
Proof.
  intros O. pose proof (Own_has F s t p cp _ k O) as Hp.
  destruct (@set_color_own F s _ _ oa _ (FR t p cp :: k) O cp) as (s1 & E1 & O1).
  destruct (@set_black_own F s1 _ _ p _ k O1) as (s2 & E2 & O2).
  pose proof (Own_has F s2 near oa cp (Node fl fa Red fr) (FR t p Black :: k) O2) as Ho.
  destruct (@set_black_own F s2 fl fr fa _ (FR near oa cp :: FR t p Black :: k) O2) as (s3 & E3 & O3).
  destruct (rb_rotate_left_ok F s3 t near _ p oa _ _ k O3) as (s4 & E4 & O4).
  exists s4. split; [|done]. unfold left_tail. rd. run E1. run E2. simpl in Ho. rd.
  run E3. run E4. exact (get_root_own O4).
Qed.

Lemma right_tail_ok :
  Own F s (plug t (FR (Node (Node fl fa Red fr) oa Black near) p cp :: k)) →
  let t' := plug (Node (Node fl fa Black fr) oa cp (Node near p Black t)) k in
  ∃ s', right_tail s = Ok (raddr t', s') ∧ Own F s' t'.
Proof.
  intros O. pose proof (Own_has F s _ p cp t k O) as Hp.
  destruct (@set_color_own F s _ _ oa _ (FL p cp t :: k) O cp) as (s1 & E1 & O1).
  destruct (@set_black_own F s1 _ _ p _ k O1) as (s2 & E2 & O2).
  pose proof (Own_has F s2 (Node fl fa Red fr) oa cp near (FL p Black t :: k) O2) as Ho.
  destruct (@set_black_own F s2 fl fr fa _ (FL oa cp near :: FL p Black t :: k) O2) as (s3 & E3 & O3).
  destruct (rb_rotate_right_ok F s3 _ near t p oa _ _ k O3) as (s4 & E4 & O4).
  exists s4. split; [|done]. unfold right_tail. rd. run E1. run E2. simpl in Ho. rd.
  run E3. run E4. exact (get_root_own O4).
Qed.

Context (loop : Z → Z → M rb_state Z).

Lemma erase_left_far :
  Own F s (plug t (FL p cp (Node near oa Black (Node fl fa Red fr)) :: k)) →
  let t' := plug (Node (Node t p Black near) oa cp (Node fl fa Black fr)) k in
  ∃ s', erase_left_rest loop p oa s = Ok (raddr t', s') ∧ Own F s' t'.
Proof.
  intros O. destruct (left_tail_ok O) as (s' & E & O'). exists s'. split; [|done].
  pose proof (Own_has F s near oa Black (Node fl fa Red fr) (FR t p cp :: k) O) as Ho.
  pose proof (or_black_own (O : Own F s (plug near (FL oa Black (Node fl fa Red fr) :: FR t p cp :: k)))) as En.
  pose proof (or_black_own (O : Own F s (plug (Node fl fa Red fr) (FR near oa Black :: FR t p cp :: k)))) as Ef.
  simpl in Ho, Ef. rewrite <-E. unfold erase_left_rest. rd. run En.
  destruct (match near with Node _ _ Red _ => false | _ => true end); rd; repeat (run Ef; rd); done.
Qed.

Lemma erase_right_far :
  Own F s (plug t (FR (Node (Node fl fa Red fr) oa Black near) p cp :: k)) →
  let t' := plug (Node (Node fl fa Black fr) oa cp (Node near p Black t)) k in
  ∃ s', erase_right_rest loop p oa s = Ok (raddr t', s') ∧ Own F s' t'.
Proof.
  intros O. destruct (right_tail_ok O) as (s' & E & O'). exists s'. split; [|done].
  pose proof (Own_has F s (Node fl fa Red fr) oa Black near (FL p cp t :: k) O) as Ho.
  pose proof (or_black_own (O : Own F s (plug (Node fl fa Red fr) (FL oa Black near :: FL p cp t :: k)))) as Ef.
  simpl in Ho, Ef. rewrite <-E. unfold erase_right_rest. rd. repeat (run Ef; rd). done.
Qed.
End erase_far.

(** Only the near child of the sibling is red: rotate it up first. *)
Section erase_near.
Context (F : gmap Z rb_node) (loop : Z → Z → M rb_state Z).
Context (s : rb_state) (p oa na : Z) (cp : color) (t nl nr far : tree color) (k : list (frame color)).

Lemma erase_left_near :
  Own F s (plug t (FL p cp (Node (Node nl na Red nr) oa Black far) :: k)) → blackish far →
  let t' := plug (Node (Node t p Black nl) na cp (Node nr oa Black far)) k in
  ∃ s', erase_left_rest loop p oa s = Ok (raddr t', s') ∧ Own F s' t'.
Proof.
  intros O B.
  pose proof (Own_has F s (Node nl na Red nr) oa Black far (FR t p cp :: k) O) as Ho.
  pose proof (or_black_own (O : Own F s (plug (Node nl na Red nr) (FL oa Black far :: FR t p cp :: k)))) as En.
  pose proof (or_black_blackish (O : Own F s (plug far (FR (Node nl na Red nr) oa Black :: FR t p cp :: k))) B) as Ef.
  destruct (@set_black_own F s nl nr na _ (FL oa Black far :: FR t p cp :: k) O) as (s1 & E1 & O1).
  destruct (@set_red_own F s1 _ far oa _ (FR t p cp :: k) O1) as (s2 & E2 & O2).
  destruct (rb_rotate_right_ok F s2 nl nr far oa na _ _ (FR t p cp :: k) O2) as (s3 & E3 & O3).
  destruct (left_tail_ok F s3 p na oa cp t nl nr far k O3) as (s' & E & O').
  exists s'. split; [|done]. pose proof (Own_has F s3 t p cp _ k O3) as Hp.
  rewrite <-E. simpl in Ho, En, Hp. unfold erase_left_rest. rd. run En. rd. run Ef. rd. run E1. run E2. run E3. rd1. done.
Qed.

Lemma erase_right_near :
  Own F s (plug t (FR (Node far oa Black (Node nl na Red nr)) p cp :: k)) → blackish far →
  let t' := plug (Node (Node far oa Black nl) na cp (Node nr p Black t)) k in
  ∃ s', erase_right_rest loop p oa s = Ok (raddr t', s') ∧ Own F s' t'.
Proof.
  intros O B.
  pose proof (Own_has F s far oa Black (Node nl na Red nr) (FL p cp t :: k) O) as Ho.
  pose proof (or_black_own (O : Own F s (plug (Node nl na Red nr) (FR far oa Black :: FL p cp t :: k)))) as En.
  pose proof (or_black_blackish (O : Own F s (plug far (FL oa Black (Node nl na Red nr) :: FL p cp t :: k))) B) as Ef.
  destruct (@set_black_own F s nl nr na _ (FR far oa Black :: FL p cp t :: k) O) as (s1 & E1 & O1).
  destruct (@set_red_own F s1 far _ oa _ (FL p cp t :: k) O1) as (s2 & E2 & O2).
  destruct (rb_rotate_left_ok F s2 far nl nr oa na _ _ (FL p cp t :: k) O2) as (s3 & E3 & O3).
  destruct (right_tail_ok F s3 p na oa cp t nr far nl k O3) as (s' & E & O').
  exists s'. split; [|done]. pose proof (Own_has F s3 _ p cp t k O3) as Hp.
  rewrite <-E. simpl in Ho, En, Hp. unfold erase_right_rest. rd. run Ef. rd. run En. rd. run Ef. rd.
  run E1. run E2. run E3. rd1. done.
Qed.
End erase_near.

(** The part of an iteration below the first rotation, by cases. *)
Lemma rbt_node t c n : rbt t c (S n) → ∃ l a c' r, t = Node l a c' r.
Proof. inversion 1; eauto. Qed.

Lemma rbt_black_node t n :
  rbt t Black (S n) → ∃ l a r cl cr, t = Node l a Black r ∧ rbt l cl n ∧ rbt r cr n.
Proof. inversion 1; subst; eauto 10. Qed.

Lemma rbt_is_black t c n : rbt t c n → blackish t → rbt t Black n.
Proof. intros H B. by inversion H; subst. Qed.

Lemma rbt_is_red t c n :
  rbt t c n → ¬ blackish t → ∃ l a r, t = Node l a Red r ∧ rbt l Black n ∧ rbt r Black n.
Proof. inversion 1; subst; simpl; try done; eauto 10. Qed.

(** An iteration ends with a repaired tree, or goes up with the deficit to
    the parent of colour [c]. *)
Definition progress (F : gmap Z rb_node) (loop : Z → Z → M rb_state Z) (m : M rb_state Z)
    (s : rb_state) (c : color) (k : list (frame color)) (as_ : list Z) : Prop :=
  (∃ s' t, m s = Ok (raddr t, s') ∧ Own F s' t ∧ red_black t ∧ addrs t = as_) ∨
  (∃ s' t n, m s = loop (raddr t) (caddr k) s' ∧ Own F s' (plug t k) ∧ deficit t k n ∧
     (c = Red → ¬ blackish t) ∧ addrs (plug t k) = as_).

Lemma rctx_frame_inv f k n :
  rctx (f :: k) Black n →
  ∃ c n' cs, rctx k c n' ∧ rbt (fsib f) cs n ∧
    (fdata f = Black ∧ c = Black ∧ n' = S n ∨ fdata f = Red ∧ c = Red ∧ n' = n ∧ cs = Black).
Proof. inversion 1; subst; eauto 10. Qed.

Lemma erase_left_rest_ok F loop s p oa cp t ol or' k m :
  Own F s (plug t (FL p cp (Node ol oa Black or') :: k)) → rbt t Black m →
  rctx (FL p cp (Node ol oa Black or') :: k) Black (S m) →
  progress F loop (erase_left_rest loop p oa) s cp k
    (addrs (plug t (FL p cp (Node ol oa Black or') :: k))).
Proof.
  intros O Ht (c & n' & cs & Hk & Ho & Hc)%rctx_frame_inv. simpl in Ho, Hc.
  inversion Ho as [| |? ? ? cl cr ? Hl Hr]; subst.
  destruct (decide (blackish or')) as [Br|Br]; [destruct (decide (blackish ol)) as [Bl|Bl]|].
  - destruct (erase_left_up F loop s p oa cp t ol or' k O Bl Br) as (s' & E & O').
    right. exists s', (Node t p cp (Node ol oa Red or')), (match cp with Red => m | Black => S m end).
    split; [exact E|]. split; [exact O'|]. split; [|split; [by intros -> []|simpl; by apply addrs_plug_ext]].
    pose proof (rbt_is_black _ _ _ Hl Bl). pose proof (rbt_is_black _ _ _ Hr Br).
    destruct Hc as [(-> & -> & ->)|(-> & -> & -> & _)].
    + split; [exact Hk|]. left. eauto with rb.
    + split; [by eapply rctx_any|]. right. split; [by intros []|]. simpl. eauto with rb.
  - destruct (rbt_is_red _ _ _ Hl Bl) as (nl & na & nr & -> & Hnl & Hnr).
    destruct (erase_left_near F loop s p oa na cp t nl nr or' k O Br) as (s' & E & O').
    left. eexists s', _. split; [exact E|]. split; [exact O'|]. split.
    + destruct Hc as [(-> & -> & ->)|(-> & -> & -> & _)]; eapply rctx_plug; [|exact Hk| |exact Hk]; eauto 6 with rb.
    + simpl. apply addrs_plug_ext. flat.
  - destruct (rbt_is_red _ _ _ Hr Br) as (fl & fa & fr & -> & Hfl & Hfr).
    destruct (erase_left_far F s p oa fa cp t ol fl fr k loop O) as (s' & E & O').
    left. eexists s', _. split; [exact E|]. split; [exact O'|]. split.
    + destruct Hc as [(-> & -> & ->)|(-> & -> & -> & _)]; eapply rctx_plug; [|exact Hk| |exact Hk]; eauto 6 with rb.
    + simpl. apply addrs_plug_ext. flat.
Qed.

Lemma erase_right_rest_ok F loop s p oa cp t ol or' k m :
  Own F s (plug t (FR (Node ol oa Black or') p cp :: k)) → rbt t Black m →
  rctx (FR (Node ol oa Black or') p cp :: k) Black (S m) →
  progress F loop (erase_right_rest loop p oa) s cp k
    (addrs (plug t (FR (Node ol oa Black or') p cp :: k))).
Proof.
  intros O Ht (c & n' & cs & Hk & Ho & Hc)%rctx_frame_inv. simpl in Ho, Hc.
  inversion Ho as [| |? ? ? cl cr ? Hl Hr]; subst.
  destruct (decide (blackish ol)) as [Bl|Bl]; [destruct (decide (blackish or')) as [Br|Br]|].
  - destruct (erase_right_up F loop s p oa cp t ol or' k O Bl Br) as (s' & E & O').
    right. exists s', (Node (Node ol oa Red or') p cp t), (match cp with Red => m | Black => S m end).
    split; [exact E|]. split; [exact O'|]. split; [|split; [by intros -> []|simpl; by apply addrs_plug_ext]].
    pose proof (rbt_is_black _ _ _ Hl Bl). pose proof (rbt_is_black _ _ _ Hr Br).
    destruct Hc as [(-> & -> & ->)|(-> & -> & -> & _)].
    + split; [exact Hk|]. left. eauto with rb.
    + split; [by eapply rctx_any|]. right. split; [by intros []|]. simpl. eauto with rb.
  - destruct (rbt_is_red _ _ _ Hr Br) as (nl & na & nr & -> & Hnl & Hnr).
    destruct (erase_right_near F loop s p oa na cp t nl nr ol k O Bl) as (s' & E & O').
    left. eexists s', _. split; [exact E|]. split; [exact O'|]. split.
    + destruct Hc as [(-> & -> & ->)|(-> & -> & -> & _)]; eapply rctx_plug; [|exact Hk| |exact Hk]; eauto 6 with rb.
    + simpl. apply addrs_plug_ext. flat.
  - destruct (rbt_is_red _ _ _ Hl Bl) as (fl & fa & fr & -> & Hfl & Hfr).
    destruct (erase_right_far F s p oa fa cp t or' fl fr k loop O) as (s' & E & O').
    left. eexists s', _. split; [exact E|]. split; [exact O'|]. split.
    + destruct Hc as [(-> & -> & ->)|(-> & -> & -> & _)]; eapply rctx_plug; [|exact Hk| |exact Hk]; eauto 6 with rb.
    + simpl. apply addrs_plug_ext. flat.
Qed.

(** ** The loop *)

(** The sibling is red: make it the grandparent. *)
Lemma left_red_sibling F s p oa t ol or' k :
  Own F s (plug t (FL p Black (Node ol oa Red or') :: k)) →
  ∃ s', (rb_set_black oa;; rb_set_red p;; __rb_rotate_left p;; get_right p) s = Ok (raddr ol, s') ∧
        Own F s' (plug t (FL p Red ol :: FL oa Black or' :: k)).
Proof.
  intros O.
  destruct (@set_black_own F s _ _ oa _ (FR t p Black :: k) O) as (s1 & E1 & O1).
  destruct (@set_red_own F s1 _ _ p _ k O1) as (s2 & E2 & O2).
  destruct (rb_rotate_left_ok F s2 t ol or' p oa _ _ k O2) as (s3 & E3 & O3).
  exists s3. split; [|done]. run E1. run E2. run E3.
  eapply get_right_ok, (Own_has F s3 t p Red ol (FL oa Black or' :: k) O3).
Qed.

Lemma right_red_sibling F s p oa t ol or' k :
  Own F s (plug t (FR (Node ol oa Red or') p Black :: k)) →
  ∃ s', (rb_set_black oa;; rb_set_red p;; __rb_rotate_right p;; get_left p) s = Ok (raddr or', s') ∧
        Own F s' (plug t (FR or' p Red :: FR ol oa Black :: k)).
Proof.
  intros O.
  destruct (@set_black_own F s _ _ oa _ (FL p Black t :: k) O) as (s1 & E1 & O1).
  destruct (@set_red_own F s1 _ _ p _ k O1) as (s2 & E2 & O2).
  destruct (rb_rotate_right_ok F s2 ol or' t p oa _ _ k O2) as (s3 & E3 & O3).
  exists s3. split; [|done]. run E1. run E2. run E3.
  eapply get_left_ok, (Own_has F s3 or' p Red t (FR ol oa Black :: k) O3).
Qed.

(** The tests that open an iteration, for a black [t] that is not the root. *)
Lemma root_differs F s t f k : Own F s (plug t (f :: k)) → raddr t ≠ rb_root s.
Proof.
  intros [O ->] E. pose proof (raddr_plug_in t f k) as Hin. rewrite <-E in Hin.
  pose proof (owns_nodup _ _ _ O) as Hn. pose proof (owns_ok _ _ _ O) as Ho.
  rewrite addrs_plug in Hn, Ho. destruct t as [|l a c r].
  - rewrite Forall_forall in Ho. eapply ok_addr_nonnull; [apply Ho|done]. set_solver.
  - simpl in *. assert (a ∈ addrs l ++ a :: addrs r) by set_solver. occ_solve a.
Qed.

Lemma sibling_differs F s t l a c r (f : frame color) k :
  Own F s (plug t (f :: k)) → fsib f = Node l a c r → a ≠ raddr t.
Proof.
  intros O E. rewrite Own_flip, E in O. apply Own_sibling_ne in O.
  by destruct f.
Qed.

Lemma erase_enter F n s t f k m :
  Own F s (plug t (f :: k)) → rbt t Black m →
  __rb_erase_color_loop (S n) (raddr t) (faddr f) s =
  (pl ← get_left (faddr f);
   if pl =? raddr t then
     other ← get_right (faddr f);
     red ← rb_is_red other;
     other ← (if (red : bool) then
                rb_set_black other;; rb_set_red (faddr f);;
                __rb_rotate_left (faddr f);; get_right (faddr f)
              else mret other);
     erase_left_rest (__rb_erase_color_loop n) (faddr f) other
   else
     other ← get_left (faddr f);
     red ← rb_is_red other;
     other ← (if (red : bool) then
                rb_set_black other;; rb_set_red (faddr f);;
                __rb_rotate_right (faddr f);; get_left (faddr f)
              else mret other);
     erase_right_rest (__rb_erase_color_loop n) (faddr f) other) s.
Proof.
  intros O Ht. cbn [__rb_erase_color_loop].
  run (or_black_blackish O (rbt_blackish _ _ Ht)). run (get_root_ok s).
  rewrite (proj2 (Z.eqb_neq _ _) (root_differs _ _ _ _ _ O)). done.
Qed.

Lemma erase_iteration_left F n s t p cp o k m :
  Own F s (plug t (FL p cp o :: k)) → rbt t Black m → rctx (FL p cp o :: k) Black (S m) →
  ∃ c k', (k' = k ∨ c = Red) ∧
  progress F (__rb_erase_color_loop n)
    (__rb_erase_color_loop (S n) (raddr t) p) s c k' (addrs (plug t (FL p cp o :: k))).
Proof.
  intros O Ht Hk. destruct (rctx_frame_inv _ _ _ Hk) as (c & n' & cs & Hk' & Ho & Hc).
  simpl in Ho, Hc. destruct (rbt_node _ _ _ Ho) as (ol & oa & co & or' & ->).
  pose proof (Own_has F s t p cp _ k O) as Hp.
  pose proof (Own_has F s ol oa co or' (FR t p cp :: k) O) as Hoa.
  unfold progress. pose proof (erase_enter F n s t _ k m O Ht) as E. simpl faddr in E.
  rewrite E. simpl in Hp, Hoa. rd.
  destruct co; rd.
  - inversion Ho as [|? ? ? ? Hol Hor|]; subst.
    destruct Hc as [(-> & -> & ->)|(_ & _ & _ & ?)]; [|done].
    destruct (left_red_sibling F s p oa t ol or' k O) as (s1 & E1 & O1).
    rewrite <-bind_assoc, (bind_ok _ _ _ _ _ E1).
    destruct (rbt_black_node _ _ Hol) as (? & ? & ? & ? & ? & -> & ? & ?).
    exists Red, (FL oa Black or' :: k). split; [by right|].
    replace (addrs _) with (addrs (plug t (FL p Red (Node x x0 Black x1) :: FL oa Black or' :: k))).
    + eapply erase_left_rest_ok; eauto with rb.
    + simpl. apply addrs_plug_ext. flat.
  - exists cp, k. split; [by left|]. by eapply erase_left_rest_ok.
Qed.

Lemma erase_iteration_right F n s t p cp o k m :
  Own F s (plug t (FR o p cp :: k)) → rbt t Black m → rctx (FR o p cp :: k) Black (S m) →
  ∃ c k', (k' = k ∨ c = Red) ∧
  progress F (__rb_erase_color_loop n)
    (__rb_erase_color_loop (S n) (raddr t) p) s c k' (addrs (plug t (FR o p cp :: k))).
Proof.
  intros O Ht Hk. destruct (rctx_frame_inv _ _ _ Hk) as (c & n' & cs & Hk' & Ho & Hc).
  simpl in Ho, Hc. destruct (rbt_node _ _ _ Ho) as (ol & oa & co & or' & ->).
  pose proof (Own_has F s _ p cp t k O) as Hp.
  pose proof (Own_has F s ol oa co or' (FL p cp t :: k) O) as Hoa.
  pose proof (sibling_differs F s t _ _ _ _ _ k O eq_refl) as Hne.
  unfold progress. pose proof (erase_enter F n s t _ k m O Ht) as E. simpl faddr in E.
  rewrite E. simpl in Hp, Hoa. rd.
  destruct co; rd.
  - inversion Ho as [|? ? ? ? Hol Hor|]; subst.
    destruct Hc as [(-> & -> & ->)|(_ & _ & _ & ?)]; [|done].
    destruct (right_red_sibling F s p oa t ol or' k O) as (s1 & E1 & O1).
    rewrite <-bind_assoc, (bind_ok _ _ _ _ _ E1).
    destruct (rbt_black_node _ _ Hor) as (? & ? & ? & ? & ? & -> & ? & ?).
    exists Red, (FR ol oa Black :: k). split; [by right|].
    replace (addrs _) with (addrs (plug t (FR (Node x x0 Black x1) p Red :: FR ol oa Black :: k))).
    + eapply erase_right_rest_ok; eauto with rb.
    + simpl. apply addrs_plug_ext. flat.
  - exists cp, k. split; [by left|]. by eapply erase_right_rest_ok.
Qed.

Lemma blacken_black t n : rbt t Black n → blacken t = t.
Proof. by inversion 1. Qed.

Lemma erase_loop_ok F n : ∀ s t k m,
  Own F s (plug t k) → deficit t k m → (if decide (blackish t) then length k < n else 0 < n)%nat →
  ∃ node s', __rb_erase_color_loop n (raddr t) (caddr k) s = Ok (node, s') ∧
    repaired F s' node (addrs (plug t k)).
Proof.
  induction n as [|n IH]; intros s t k m O [Hk Ht] Hn; [case_decide; lia|].
  destruct (decide (blackish t)) as [B|B].
  2: { destruct Ht as [Ht|[_ Ht]]; [by destruct B; eapply rbt_blackish|].
       exists (raddr t), s. split.
       - cbn [__rb_erase_color_loop]. run (or_black_own O). run (get_root_ok s).
         by destruct t as [|? ? [] ?]; [destruct B| |destruct B].
       - exists t, k. repeat split; try apply O. by eapply rctx_plug. }
  destruct Ht as [Ht|[? _]]; [|done].
  destruct k as [|f k].
  - exists (raddr t), s. split.
    + cbn [__rb_erase_color_loop]. run (or_black_blackish O B). run (get_root_ok s).
      destruct O as [_ ->]. simpl. by rewrite Z.eqb_refl.
    + exists t, []. repeat split; try apply O. rewrite (blacken_black _ _ Ht). by exists m.
  - assert (∃ c k', (k' = k ∨ c = Red) ∧
      progress F (__rb_erase_color_loop n)
        (__rb_erase_color_loop (S n) (raddr t) (caddr (f :: k))) s c k' (addrs (plug t (f :: k))))
      as (c & k' & Hk' & [(s' & t' & E & O' & R & A)|(s' & t' & m' & E & O' & D & C & A)]).
    { destruct f; [by eapply erase_iteration_left|by eapply erase_iteration_right]. }
    + exists (raddr t'), s'. split; [done|]. exists t', []. split; [done|]. split; [done|].
      split; [|done]. destruct R as [m' R]. simpl. rewrite (blacken_black _ _ R). by exists m'.
    + rewrite E, <-A. apply IH with m'; [done|done|].
      simpl in Hn. case_decide; [|lia]. destruct Hk' as [-> | ->]; [lia|]. by destruct C.
Qed.

Lemma rb_erase_color_ok F s t k m :
  Own F s (plug t k) → deficit t k m →
  ∃ s' t', __rb_erase_color (raddr t) (caddr k) s = Ok ((), s') ∧ Own F s' t' ∧ red_black t' ∧
    addrs t' = addrs (plug t k).
Proof.
  intros O D. pose proof (Own_fuel_ctx _ _ _ _ O) as Hf.
  destruct (erase_loop_ok F (fuel s) s t k m O D) as (node & s1 & E & t1 & k1 & -> & O1 & R & A).
  { case_decide; lia. }
  unfold __rb_erase_color. run E. destruct t1 as [|l a c r].
  - exists s1, (plug Leaf k1). by rewrite <-A.
  - pose proof (Own_ptr _ _ _ _ _ _ _ O1) as Hp. destruct (set_black_own O1) as (s2 & E2 & O2).
    exists s2, (plug (Node l a Black r) k1). simpl.
    rewrite (proj2 (Z.eqb_neq a NULL)) by apply Hp. split; [done|]. split; [done|]. split; [done|].
    rewrite <-A. by apply addrs_plug_ext.
Qed.

(** ** Taking the node out of the tree *)

(** What a node that left the tree still holds. *)
Definition cell_of (l r : tree color) (c : color) (k : list (frame color)) : rb_node :=
  mk_cell (caddr k) (raddr l) (raddr r) c.

Section splice.
Context (F : gmap Z rb_node) (s : rb_state) (l r t : tree color) (a : Z) (c : color).
Context (k : list (frame color)).
Context (O : Own F s (plug (Node l a c r) k)).
Context (Ht : (l = Leaf ∧ t = r) ∨ (r = Leaf ∧ t = l)).

Lemma splice_child tl x cx tr :
  t = Node tl x cx tr → has s x a (raddr tl) (raddr tr) cx ∧ x ≠ a ∧ x ∉ caddrs k.
Proof.
  intros ->. pose proof (owns_nodup _ _ _ (proj1 O)) as Hn. rewrite addrs_plug in Hn.
  simpl in Hn. destruct Ht as [[-> <-]|[-> <-]]; simpl in Hn.
  - split; [exact (Own_has F s tl x cx tr (FR Leaf a c :: k) O)|]. split; nd.
  - split; [exact (Own_has F s tl x cx tr (FL a c Leaf :: k) O)|]. split; nd.
Qed.

Lemma rb_erase_splice_ok :
  ∃ s', rb_erase_splice a (raddr t) s = Ok ((raddr t, caddr k, cbit c), s') ∧
        Own (<[a := cell_of l r c k]> F) s' (plug t k).
Proof.
  pose proof (Own_has _ _ _ _ _ _ _ O) as Ha. pose proof (ptr_caddr _ _ _ _ O) as Pk.
  pose proof splice_child as Hx.
  assert (Hf : ∀ f k', k = f :: k' → fhas s (caddr k') a f ∧ faddr f ≠ a ∧ a ≠ raddr (fsib f) ∧
    (t ≠ Leaf → raddr t ≠ faddr f) ∧ faddr f ≠ NULL).
  { intros f k' ->. split; [exact (Own_parent _ _ _ _ _ O)|]. split; [|split; [|split]].
    - pose proof (owns_nodup _ _ _ (proj1 O)) as Hn. rewrite addrs_plug in Hn. simpl in Hn. nd.
    - eapply (owns_sibling_ne _ _ _ _ _ _ _ _ (proj1 O)).
    - intros Nt. destruct t as [|tl x cx tr]; [done|]. destruct (Hx _ _ _ _ eq_refl) as (_ & _ & N).
      simpl in *. set_solver.
    - eapply ok_addr_nonnull, owns_ok_frame, O. }
  pose proof (λ h', owns_splice F (mem s) h' l a c r t k (proj1 O) Ht) as G.
  assert (Ek : k ≠ [] → rb_root s = raddr (plug t k)).
  { intros. rewrite (proj2 O). apply raddr_plug_ext. by left. }
  assert (Pt : t ≠ Leaf → raddr t ≠ NULL).
  { intros Nt. destruct t as [|tl x cx tr]; [done|].
    destruct Ht as [[-> <-]|[-> <-]];
      [apply (Own_ptr F s tl x cx tr (FR Leaf a c :: k) O)|apply (Own_ptr F s tl x cx tr (FL a c Leaf :: k) O)]. }
  unfold rb_erase_splice. rd.
  destruct t as [|tl x cx tr];
    [|destruct (Hx _ _ _ _ eq_refl) as (Htx & Nxa & _); specialize (Pt ltac:(done))];
  (destruct k as [|[g cg gr|gl g cg] k'];
    [|destruct (Hf _ _ eq_refl) as (Hg & Nga & Nsib & Nx & Ng); try specialize (Nx ltac:(done)) ..]);
  cbn [raddr caddr faddr fsib fhas] in *; go.
  all: eexists; (split; [reflexivity|]).
  all: split; [apply G|try done; by apply Ek].
  all: try (intros; simplify_eq; rot_heap; fail).
  all: try (intros x1 Nx1 Hx1 Hx2; try specialize (Hx1 ltac:(done)); try specialize (Hx2 ltac:(done)); rot_lookup).
Qed.
End splice.

(** *** A node with two children: its successor [y] takes its place *)
Section two_children.
Context (F : gmap Z rb_node) (s : rb_state).
Context (ll lr yr : tree color) (la a y : Z) (cl ca cy : color) (k : list (frame color)).

Notation l := (Node ll la cl lr).
Notation Y := (Node Leaf y cy yr).

(** The two steps on the heap: take [y] out, then put it in the place of [a]. *)
Lemma two_rename h' kl :
  Own F s (plug (Node l a ca (plug Y kl)) k) →
  h' !! y = Some (mk_cell (caddr k) la (raddr (plug yr kl)) ca) →
  h' !! la = Some (mk_cell y (raddr ll) (raddr lr) cl) →
  (∀ tl x dx tr, plug yr kl = Node tl x dx tr → h' !! x = Some (mk_cell y (raddr tl) (raddr tr) dx)) →
  rot_hole h' k y →
  (∀ x, x ≠ a → x ≠ y → x ≠ la → (plug yr kl ≠ Leaf → x ≠ raddr (plug yr kl)) →
     (k ≠ [] → x ≠ caddr k) → h' !! x = splice_heap (mem s) yr (kl ++ FR l a ca :: k) !! x) →
  h' !! a = Some (cell_of l (plug Y kl) ca k) →
  owns (<[a := cell_of l (plug Y kl) ca k]> F) h' (plug yr (kl ++ FR l y ca :: k)).
Proof.
  intros [O _] Hy Hl Hr Hk Hs Ha.
  assert (O1 : owns F (mem s) (plug Y (kl ++ FR l a ca :: k))) by (by rewrite plug_app).
  pose proof (owns_ok_focus _ _ _ _ _ _ _ O1) as Py.
  pose proof (owns_splice_heap _ _ _ _ _ _ yr _ O1 (or_introl (conj eq_refl eq_refl))) as O2.
  rewrite plug_app in O2 |- *. simpl in O2 |- *.
  eapply owns_rename; [exact O2|done|..].
  - change (y ∉ addrs (plug (plug yr kl) (FR l a ca :: k))). rewrite <-plug_app, addrs_plug.
    pose proof (owns_nodup _ _ _ O1) as Hn. rewrite addrs_plug in Hn. simpl in Hn. nd.
  - exact Hy.
  - intros ? ? ? ? [= <- <- <- <-]. exact Hl.
  - exact Hr.
  - exact Hk.
  - intros x N1 N2 N3 N4 N5. apply Hs; auto.
  - intros x N1 N2. by rewrite !lookup_insert_ne by done.
  - by rewrite lookup_insert_eq, Ha.
Qed.

(** What the three cases share. *)
Lemma two_facts kl :
  Own F s (plug (Node l a ca (plug Y kl)) k) → Forall is_FL kl →
  has s a (caddr k) la (raddr (plug Y kl)) ca ∧
  has s y (caddr (kl ++ FR l a ca :: k)) NULL (raddr yr) cy ∧
  has s la a (raddr ll) (raddr lr) cl ∧
  (ptr a ∧ ptr y ∧ ptr (caddr k) ∧ ptr (caddr (kl ++ FR l a ca :: k))) ∧
  go_left (fuel s) (raddr (plug Y kl)) s = Ok (y, s) ∧
  (a ≠ y ∧ a ≠ la ∧ y ≠ la) ∧
  NoDup (y :: addrs yr ++ caddrs kl ++ (a :: addrs l) ++ caddrs k).
Proof.
  intros O Hkl. pose proof O as O1.
  change (Own F s (plug (plug Y kl) (FR l a ca :: k))) in O1. rewrite <-plug_app in O1.
  pose proof (owns_nodup _ _ _ (proj1 O1)) as Hn. rewrite addrs_plug in Hn.
  rewrite caddrs_app in Hn. cbn [addrs caddrs faddr fsib app] in Hn.
  split; [exact (Own_has _ _ _ _ _ _ _ O)|]. split; [exact (Own_has _ _ _ _ _ _ _ O1)|].
  split; [exact (Own_has F s ll la cl lr (FL a ca (plug Y kl) :: k) O)|].
  split; [split_and!; try by eapply ptr_caddr|].
  { by eapply Own_ptr. } { by eapply Own_ptr. }
  split; [|split; [split_and!; nd|]].
  - eapply go_left_ok; [done|exact O1|]. apply Own_fuel_ctx in O1. rewrite length_app in O1. lia.
  - cbn [addrs app]. by rewrite <-app_assoc in Hn |- *.
Qed.

Lemma two_frame kl :
  Own F s (plug (Node l a ca (plug Y kl)) k) → Forall is_FL kl → ∀ f k', k = f :: k' →
  fhas s (caddr k') a f ∧ a ≠ raddr (fsib f) ∧ faddr f ≠ NULL ∧
  faddr f ≠ a ∧ faddr f ≠ y ∧ faddr f ≠ la ∧ faddr f ∉ caddrs kl ∧ faddr f ∉ addrs yr.
Proof.
  intros O Hkl f k' E. destruct (two_facts kl O Hkl) as (_ & _ & _ & _ & _ & _ & Hn).
  subst. cbn [addrs caddrs faddr fsib app] in Hn.
  split; [exact (Own_parent _ _ _ _ _ O)|]. split; [apply (owns_sibling_ne _ _ _ _ _ _ _ _ (proj1 O))|].
  split; [eapply ok_addr_nonnull, owns_ok_frame, O|]. split_and!; nd.
Qed.

Lemma two_child kl tl x dx tr :
  Own F s (plug (Node l a ca (plug Y kl)) k) → Forall is_FL kl → yr = Node tl x dx tr →
  has s x y (raddr tl) (raddr tr) dx ∧ x ≠ NULL ∧
  x ≠ y ∧ x ≠ a ∧ x ≠ la ∧ x ∉ caddrs kl ∧ x ∉ caddrs k.
Proof.
  intros O Hkl E. destruct (two_facts kl O Hkl) as (_ & _ & _ & _ & _ & _ & Hn).
  rewrite E in O, Hn. cbn [addrs app] in Hn.
  change (Own F s (plug (plug (Node Leaf y cy (Node tl x dx tr)) kl) (FR l a ca :: k))) in O.
  rewrite <-plug_app in O.
  split; [exact (Own_has F s tl x dx tr (FR Leaf y cy :: _) O)|].
  split; [apply (Own_ptr F s tl x dx tr (FR Leaf y cy :: _) O)|]. split_and!; nd.
Qed.

Lemma two_root kl : k ≠ [] → Own F s (plug (Node l a ca (plug Y kl)) k) →
  rb_root s = raddr (plug yr (kl ++ FR l y ca :: k)).
Proof. intros Nk [_ ->]. rewrite plug_app. simpl. apply raddr_plug_ext. by left. Qed.

(** The lookups that remain: of a node the code has written, or of another. *)
Ltac two_lookup :=
  lazymatch goal with
  | |- rot_hole _ _ _ => rot_heap
  | Hx : ∀ tl x dx tr, _ = Node tl x dx tr → _ |- ∀ _ _ _ _, _ =>
      intros tl x dx tr E; destruct (Hx _ _ _ _ E) as ([Ex _] & ? & ? & ? & ? & ? & Hxk);
      try apply not_elem_of_cons in Hxk as [Hxk _]; cbn [faddr] in *; two_lookup
  | |- _ => unfold cell_of, upd, reroot; cbn [mem plug raddr app];
      repeat first [rewrite lookup_insert_eq | rewrite lookup_insert_ne by (cbn [caddr faddr raddr]; neq)];
      first [reflexivity | eassumption]
  end.

Lemma erase_two_next :
  Own F s (plug (Node l a ca Y) k) →
  ∃ s', rb_erase_two a s = Ok ((raddr yr, y, cbit cy), s') ∧
        Own (<[a := cell_of l Y ca k]> F) s' (plug yr (FR l y ca :: k)).
Proof.
  intros O. pose proof (λ h', two_rename h' [] O) as G.
  destruct (two_facts [] O) as (Ha & Hy & Hl & (Pa & Py & Pk & _) & Hgo & (N1 & N2 & N3) & Hn); [done|].
  pose proof (two_frame [] O (Forall_nil_2 _)) as Hf.
  pose proof (λ tl x dx tr, two_child [] tl x dx tr O (Forall_nil_2 _)) as Hx. pose proof (proj1 Ha). pose proof (λ Nk, two_root [] Nk O) as Ek.
  cbn [plug raddr app] in Ha, Hy, Hgo, Hf. cbn [caddr faddr] in Hy.
  unfold rb_erase_two. rd. run Hgo.
  destruct k as [|[g cg gr|gl g cg] k'];
    [|destruct (Hf _ _ eq_refl) as (Hg & Nsib & Ng & Nga & Ngy & Ngl & _ & _) ..];
  cbn [raddr caddr faddr fsib fhas] in *; go.
  all: eexists; (split; [reflexivity|]).
  all: split; [apply G|try done; by apply Ek].
  all: try (two_lookup; fail).
  all: intros x N4 N5 N6 N7 N8; try specialize (N8 ltac:(done)); unfold splice_heap;
    destruct yr as [|tl x' dx tr]; try specialize (N7 ltac:(done)); cbn [raddr caddr faddr] in *; two_lookup.
Qed.

(** [y] is the left child of the right child of [a]. *)
Lemma erase_two_near ga cg gr :
  Own F s (plug (Node l a ca (Node Y ga cg gr)) k) →
  ∃ s', rb_erase_two a s = Ok ((raddr yr, ga, cbit cy), s') ∧
        Own (<[a := cell_of l (Node Y ga cg gr) ca k]> F) s'
          (plug yr (FL ga cg gr :: FR l y ca :: k)).
Proof.
  intros O. assert (Hkl : Forall is_FL [FL ga cg gr]) by (by repeat constructor).
  pose proof (λ h', two_rename h' [FL ga cg gr] O) as G.
  destruct (two_facts [FL ga cg gr] O Hkl)
    as (Ha & Hy & Hl & (Pa & Py & Pk & Pg) & Hgo & (N1 & N2 & N3) & Hn).
  pose proof (two_frame [FL ga cg gr] O Hkl) as Hf.
  pose proof (λ tl x dx tr, two_child [FL ga cg gr] tl x dx tr O Hkl) as Hx.
  pose proof (proj1 Ha). pose proof (λ Nk, two_root [FL ga cg gr] Nk O) as Ek.
  pose proof (Own_has F s Y ga cg gr (FR l a ca :: k) O) as Hga.
  cbn [plug raddr app fill caddr faddr caddrs] in *. clear O Hkl.
  cbn [addrs fsib app] in Hn.
  assert (Ngy : ga ≠ y) by nd. assert (Nga : ga ≠ a) by nd. assert (Ngl : ga ≠ la) by nd. clear Hn.
  unfold rb_erase_two. rd. run Hgo.
  destruct yr as [|tl x cx tr];
    [|destruct (Hx _ _ _ _ eq_refl) as (Htx & N4 & N5 & N6 & N7 & N8 & N9);
      apply not_elem_of_cons in N8 as [N8 _]];
  (destruct k as [|[g cg' gr'|gl g cg'] k'];
    [|destruct (Hf _ _ eq_refl) as (Hg & Nsib & Ng & Nga' & Ngy' & Ngl' & Ngk & Ngx);
      apply not_elem_of_cons in Ngk as [Ngk _]; try apply not_elem_of_cons in N9 as [N9 _] ..]);
  cbn [raddr caddr faddr fsib fhas] in *; clear Hf Hx; go.
  all: eexists; (split; [reflexivity|]).
  all: split; [apply G|try done; by apply Ek].
  all: clear G Ek Hgo.
  all: try (two_lookup; fail).
  all: try (intros ? ? ? ? [= <- <- <- <-]; two_lookup; fail).
  all: intros z M1 M2 M3 M4 M5; specialize (M4 ltac:(done)); try specialize (M5 ltac:(done));
    unfold splice_heap; cbn [raddr caddr faddr] in *;
    try (destruct (decide (z = x)) as [->|]); two_lookup.
Qed.

Lemma two_far_has ga cg gr kl ra cr rr : Own F s (plug (Node l a ca (plug Y ((FL ga cg gr :: kl) ++ [FL ra cr rr]))) k) →
  has s ga (caddr (kl ++ FL ra cr rr :: FR l a ca :: k)) y (raddr gr) cg ∧
  has s ra a (raddr (plug Y (FL ga cg gr :: kl))) (raddr rr) cr.
Proof.
  rewrite plug_app. intros O. split; [|exact (Own_has F s _ ra cr rr (FR l a ca :: k) O)].
  change (Own F s (plug (plug Y (FL ga cg gr :: kl)) (FL ra cr rr :: FR l a ca :: k))) in O.
  rewrite <-plug_app in O. exact (Own_has F s Y ga cg gr (kl ++ _) O).
Qed.

(** [y] is further down: its parent [ga] is not the right child [ra] of [a]. *)
Lemma erase_two_far ga cg gr kl ra cr rr :
  let kr := (FL ga cg gr :: kl) ++ [FL ra cr rr] in
  Forall is_FL kr → Own F s (plug (Node l a ca (plug Y kr)) k) →
  ∃ s', rb_erase_two a s = Ok ((raddr yr, ga, cbit cy), s') ∧
        Own (<[a := cell_of l (plug Y kr) ca k]> F) s' (plug yr (kr ++ FR l y ca :: k)).
Proof.
  intros kr Hkl O. pose proof (λ h', two_rename h' kr O) as G.
  destruct (two_facts kr O Hkl)
    as (Ha & Hy & Hl & (Pa & Py & Pk & Pg) & Hgo & (N1 & N2 & N3) & Hn).
  pose proof (two_frame kr O Hkl) as Hf.
  pose proof (λ tl x dx tr, two_child kr tl x dx tr O Hkl) as Hx.
  pose proof (proj1 Ha). pose proof (λ Nk, two_root kr Nk O) as Ek.
  assert (ER : ∀ t, plug t kr = Node (plug t (FL ga cg gr :: kl)) ra cr rr) by (intros; unfold kr; by rewrite plug_app).
  assert (Er : raddr (plug yr (FL ga cg gr :: kl)) = raddr (plug Y (FL ga cg gr :: kl))).
  { apply raddr_plug_ext. by left. }
  destruct (two_far_has ga cg gr kl ra cr rr O) as [Hga Hra].
  assert (Pga : ptr (caddr (kl ++ FL ra cr rr :: FR l a ca :: k))) by apply Hga.
  assert (Hsh : kr ++ FR l a ca :: k = FL ga cg gr :: kl ++ FL ra cr rr :: FR l a ca :: k)
    by (unfold kr; by rewrite <-app_assoc).
  assert (Hc : caddrs kr = ga :: addrs gr ++ caddrs kl ++ ra :: addrs rr).
  { unfold kr. rewrite caddrs_app. cbn [caddrs faddr fsib]. rewrite app_nil_r. flat. }
  rewrite !ER in *. rewrite Hsh, Hc in *. cbn [raddr caddr faddr] in *.
  set (TL := plug yr (FL ga cg gr :: kl)) in *. clearbody TL.
  clear O Hkl. cbn [addrs app] in Hn.
  assert (ga ≠ y ∧ ga ≠ a ∧ ga ≠ la ∧ ra ≠ y ∧ ra ≠ a ∧ ra ≠ la ∧ ga ≠ ra)
    as (M1 & M2 & M3 & M4 & M5 & M6 & M7) by (split_and!; nd). clear Hn.
  set (P := caddr (kl ++ _)) in *. set (RL := raddr (plug Y _)) in *.
  unfold rb_erase_two. rd. run Hgo.
  destruct yr as [|tl x cx tr];
    [|destruct (Hx _ _ _ _ eq_refl) as (Htx & N4 & N5 & N6 & N7 & N8 & N9);
      apply not_elem_of_cons in N8 as [N8 N8'];
      assert (x ≠ ra) by (intros ->; apply N8'; set_solver +)];
  (destruct k as [|[g cg' gr'|gl g cg'] k'];
    [|destruct (Hf _ _ eq_refl) as (Hg & Nsib & Ng & Nga' & Ngy' & Ngl' & Ngk & Ngx);
      apply not_elem_of_cons in Ngk as [Ngk Ngk']; cbn [faddr] in *;
      assert (g ≠ ra) by (intros ->; apply Ngk'; set_solver +);
      try apply not_elem_of_cons in N9 as [N9 _] ..]);
  cbn [raddr caddr faddr fsib fhas] in *; clear Hf Hx; go.
  all: eexists; (split; [reflexivity|]).
  all: split; [apply G|first [by apply Ek | by rewrite plug_app]].
  all: clear G Ek Hgo.
  all: try (two_lookup; fail).
  all: try (intros ? ? ? ? [= <- <- <- <-]; rewrite Er; two_lookup; fail).
  all: intros z K1 K2 K3 K4 K5; specialize (K4 ltac:(done)); try specialize (K5 ltac:(done));
    unfold splice_heap; cbn [raddr caddr faddr] in *;
    (destruct (decide (z = ga)) as [->|]; [|try (destruct (decide (z = x)) as [->|])]); two_lookup.
Qed.
End two_children.

Lemma erase_two_ok F s l a ca r k :
  l ≠ Leaf → r ≠ Leaf → Own F s (plug (Node l a ca r) k) →
  ∃ y cy yr kl, r = plug (Node Leaf y cy yr) kl ∧ Forall is_FL kl ∧
  ∃ s', rb_erase_two a s = Ok ((raddr yr, caddr (kl ++ FR l y ca :: k), cbit cy), s') ∧
        Own (<[a := cell_of l r ca k]> F) s' (plug yr (kl ++ FR l y ca :: k)).
Proof.
  intros Hl Hr O. destruct (leftmost r Hr) as (y & cy & yr & kl & -> & Hkl).
  destruct l as [|ll la cl lr]; [done|]. exists y, cy, yr, kl. split; [done|]. split; [done|].
  destruct kl as [|f kl]; [by apply erase_two_next|].
  destruct f as [ga cg gr|]; [|by inversion Hkl].
  destruct kl as [|f kl _] using rev_ind; [by apply erase_two_near|].
  assert (∃ ra cr rr, f = FL ra cr rr) as (ra & cr & rr & ->).
  { rewrite app_comm_cons, Forall_app, Forall_singleton in Hkl. destruct Hkl as [_ ?].
    destruct f; [eauto|done]. }
  by apply erase_two_far.
Qed.

(** ** rb_erase *)

Lemma rctx_readdr kl l a y ca k c n :
  rctx (kl ++ FR l a ca :: k) c n → rctx (kl ++ FR l y ca :: k) c n.
Proof.
  revert c n. induction kl as [|f kl IH]; intros c n H; simpl in *.
  - inversion H; subst; [by eapply rctx_black|by eapply rctx_red].
  - inversion H; subst; [eapply rctx_black|eapply rctx_red]; eauto.
Qed.

(** The place a node with at most one child leaves. *)
Lemma splice_deficit l a c r t k cc n :
  (l = Leaf ∧ t = r) ∨ (r = Leaf ∧ t = l) → rbt (Node l a c r) cc n → rctx k cc n →
  if decide (c = Black) then deficit t k 0 else red_black (plug t k).
Proof.
  intros Ht H Hk. inversion H as [|? ? ? ? Hl Hr|? ? ? ? ? n' Hl Hr]; subst.
  - rewrite decide_False by done. apply rctx_any in Hk.
    destruct Ht as [[-> ->]|[-> ->]]; by eapply rctx_plug.
  - rewrite decide_True by done.
    assert (Htt : ∃ ct, rbt t ct 0 ∧ n' = O).
    { destruct Ht as [[-> ->]|[-> ->]]; [inversion Hl|inversion Hr]; subst; eauto. }
    destruct Htt as (ct & Htt & ->). split; [done|].
    inversion Htt; subst; [by left|right]. split; [by intros []|]. simpl. eauto with rb.
Qed.

Lemma erase_finish F s t k c :
  Own F s (plug t k) → (if decide (c = Black) then deficit t k 0 else red_black (plug t k)) →
  ∃ s' t', (if cbit c =? RB_BLACK then __rb_erase_color (raddr t) (caddr k) else mret ()) s = Ok ((), s') ∧
    Own F s' t' ∧ red_black t' ∧ addrs t' = addrs (plug t k).
Proof.
  intros O H. destruct c; simpl in H |- *; [by exists s, (plug t k)|]. by eapply rb_erase_color_ok.
Qed.

Lemma rb_erase_start l a c r k F s :
  Own F s (plug (Node l a c r) k) → red_black (plug (Node l a c r) k) →
  ∃ s' t' k' c', 
    (cpc ← (if raddr l =? NULL then rb_erase_splice a (raddr r)
            else if raddr r =? NULL then rb_erase_splice a (raddr l)
            else rb_erase_two a); mret cpc) s = Ok ((raddr t', caddr k', cbit c'), s') ∧
    Own (<[a := cell_of l r c k]> F) s' (plug t' k') ∧
    (if decide (c' = Black) then deficit t' k' 0 else red_black (plug t' k')) ∧
    addrs (plug t' k') = (cpre k ++ addrs l) ++ addrs r ++ cpost k.
Proof.
  intros O [m R]. destruct (rctx_unplug _ _ _ R) as (cc & n & Hn & Hk).
  destruct (decide (raddr l = NULL)) as [El|El]; [|destruct (decide (raddr r = NULL)) as [Er|Er]].
  - assert (l = Leaf) as ->.
    { destruct l as [|ll la cl lr]; [done|]. by destruct (proj2 (Own_ptr F s ll la cl lr (FL a c r :: k) O)). }
    destruct (rb_erase_splice_ok F s Leaf r r a c k O) as (s' & E & O'); [by left|].
    exists s', r, k, c. split; [by run E|]. split; [done|].
    split; [apply (splice_deficit Leaf a c r r k cc n); [by left|done..]|].
    rewrite addrs_plug_split. by rewrite app_nil_r.
  - assert (r = Leaf) as ->.
    { destruct r as [|ll la cl lr]; [done|]. by destruct (proj2 (Own_ptr F s ll la cl lr (FR l a c :: k) O)). }
    destruct (rb_erase_splice_ok F s l Leaf l a c k O) as (s' & E & O'); [by right|].
    exists s', l, k, c. rewrite (proj2 (Z.eqb_neq _ _) El). split; [by run E|]. split; [done|].
    split; [apply (splice_deficit l a c Leaf l k cc n); [by right|done..]|].
    rewrite addrs_plug_split. flat.
  - destruct (erase_two_ok F s l a c r k) as (y & cy & yr & kl & -> & Hkl & s' & E & O');
      [by intros ->|by intros ->|done|].
    rewrite (proj2 (Z.eqb_neq _ _) El), (proj2 (Z.eqb_neq _ _) Er).
    exists s', yr, (kl ++ FR l y c :: k), cy. split; [by run E|]. split; [done|]. split.
    + change (rbt (plug (plug (Node Leaf y cy yr) kl) (FR l a c :: k)) Black m) in R.
      rewrite <-plug_app in R. destruct (rctx_unplug _ _ _ R) as (cc' & n' & Hn' & Hk').
      apply (splice_deficit Leaf y cy yr yr _ cc' n'); [by left|done|by eapply rctx_readdr].
    + rewrite plug_app. simpl. rewrite addrs_plug_split.
      destruct (addrs_left_path kl Hkl) as [rest Hrest]. cbn [addrs]. rewrite !Hrest. flat.
Qed.

Lemma rb_erase_ok F s l a c r k :
  Own F s (plug (Node l a c r) k) → red_black (plug (Node l a c r) k) →
  ∃ s' t' xs ys, rb_erase a s = Ok ((), s') ∧ Own (<[a := cell_of l r c k]> F) s' t' ∧
    red_black t' ∧ addrs (plug (Node l a c r) k) = xs ++ a :: ys ∧ addrs t' = xs ++ ys.
Proof.
  intros O R. destruct (rb_erase_start l a c r k F s O R) as (s1 & t1 & k1 & c1 & E1 & O1 & D & A).
  destruct (erase_finish _ _ _ _ _ O1 D) as (s2 & t2 & E2 & O2 & R2 & A2).
  exists s2, t2, (cpre k ++ addrs l), (addrs r ++ cpost k).
  pose proof (Own_has _ _ _ _ _ _ _ O) as Ha.
  split; [|split; [done|split; [done|split; [|by rewrite A2, A]]]].
  - unfold rb_erase. rd.
    apply bind_ok_inv in E1 as (cpc & s1' & E1 & [= -> ->]). run E1. exact E2.
  - rewrite addrs_plug_split. simpl. by repeat (rewrite <-app_assoc; simpl).
Qed.
