(* ===== verification/RbIter.v ===== *)
(** * Traversal and replacement: rb_first, rb_last, rb_next, rb_prev,
    rb_replace_node and the augmented walks *)

From S2P Require Import Prelude PTree PSearch RbTree RbHeap RbWalk RbInsert.

(** The node a list of addresses starts or ends with, [NULL] if there is none. *)
Definition first_addr (l : list Z) : Z := default NULL (head l).
Definition last_addr (l : list Z) : Z := default NULL (last l).

Lemma first_addr_app x l l' : first_addr ((x :: l) ++ l') = x.
Proof. done. Qed.

Lemma last_addr_snoc l x : last_addr (l ++ [x]) = x.
Proof. unfold last_addr. by rewrite last_snoc. Qed.

Lemma addrs_right_end {P} (l : tree P) y d k :
  Forall is_FR k → ∃ pre, addrs (plug (Node l y d Leaf) k) = pre ++ [y].
Proof.
  intros Hk. destruct (addrs_right_path k Hk) as [pre Hp].
  exists (pre ++ addrs l). rewrite Hp. flat.
Qed.

Section iteration.
Context (F : gmap Z rb_node) (s : rb_state).

(** The first and the last node of a subtree. *)
Lemma go_left_first t k : t ≠ Leaf → Own F s (plug t k) →
  go_left (fuel s) (raddr t) s = Ok (first_addr (addrs t), s).
Proof.
  intros Nt O. destruct (leftmost t Nt) as (y & d & r & kl & -> & Hkl).
  rewrite <-plug_app in O. destruct (addrs_left_path kl Hkl) as [rest Hr]. rewrite Hr.
  apply (go_left_ok F s kl _ y d r k Hkl O). apply Own_fuel_ctx in O. rewrite length_app in O. lia.
Qed.

Lemma go_right_last t k : t ≠ Leaf → Own F s (plug t k) →
  go_right (fuel s) (raddr t) s = Ok (last_addr (addrs t), s).
Proof.
  intros Nt O. destruct (rightmost t Nt) as (l & y & d & kl & -> & Hkl).
  rewrite <-plug_app in O. destruct (addrs_right_end l y d kl Hkl) as [pre ->]. rewrite last_addr_snoc.
  apply (go_right_ok F s kl _ y d l k Hkl O). apply Own_fuel_ctx in O. rewrite length_app in O. lia.
Qed.

Lemma raddr_null t k : Own F s (plug t k) → raddr t = NULL ↔ t = Leaf.
Proof.
  intros O. destruct t as [|l a c r]; [done|]. simpl. split; [|done].
  intros ->. by destruct (Own_ptr _ _ _ _ _ _ _ O) as [_ []].
Qed.

Lemma rb_first_ok t : Own F s t → rb_first s = Ok (first_addr (addrs t), s).
Proof.
  intros O. unfold rb_first. run (get_root_own O). destruct (Z.eqb_spec (raddr t) NULL) as [E|E].
  - by apply (raddr_null t []) in E as ->.
  - apply (go_left_first t []); [by intros ->|done].
Qed.

Lemma rb_last_ok t : Own F s t → rb_last s = Ok (last_addr (addrs t), s).
Proof.
  intros O. unfold rb_last. run (get_root_own O). destruct (Z.eqb_spec (raddr t) NULL) as [E|E].
  - by apply (raddr_null t []) in E as ->.
  - apply (go_right_last t []); [by intros ->|done].
Qed.

(** Climbing while the node is a right (left) child. *)
Lemma climb_right_ok k : ∀ n l a c r,
  Own F s (plug (Node l a c r) k) → (length k < n)%nat →
  climb_right n a s = Ok (first_addr (cpost k), s).
Proof.
  induction k as [|f k IH]; intros n l a c r O Hn; (destruct n as [|n]; [simpl in Hn; lia|]);
    simpl; run (rb_parent_own O); simpl; [done|].
  pose proof (Own_parent _ _ _ _ _ O) as Hf.
  pose proof (owns_sibling_ne _ _ _ _ _ _ _ _ (proj1 O)) as Hs.
  pose proof (ok_addr_nonnull _ (owns_ok_frame _ _ _ _ _ (proj1 O))) as Hnn.
  destruct f as [p cp u|u p cp]; cbn [fhas fsib faddr] in *; rd; [done|].
  apply (IH n u p cp (Node l a c r) O). simpl in Hn. lia.
Qed.

Lemma climb_left_ok k : ∀ n l a c r,
  Own F s (plug (Node l a c r) k) → (length k < n)%nat →
  climb_left n a s = Ok (last_addr (cpre k), s).
Proof.
  induction k as [|f k IH]; intros n l a c r O Hn; (destruct n as [|n]; [simpl in Hn; lia|]);
    simpl; run (rb_parent_own O); simpl; [done|].
  pose proof (Own_parent _ _ _ _ _ O) as Hf.
  pose proof (owns_sibling_ne _ _ _ _ _ _ _ _ (proj1 O)) as Hs.
  pose proof (ok_addr_nonnull _ (owns_ok_frame _ _ _ _ _ (proj1 O))) as Hnn.
  destruct f as [p cp u|u p cp]; cbn [fhas fsib faddr] in *; rd.
  - apply (IH n (Node l a c r) p cp u O). simpl in Hn. lia.
  - by rewrite app_assoc, last_addr_snoc.
Qed.

Lemma parent_not_self l a c r k : Own F s (plug (Node l a c r) k) → caddr k ≠ a.
Proof.
  intros O. pose proof (Own_ptr _ _ _ _ _ _ _ O) as [_ Na].
  destruct k as [|f k]; simpl; [done|].
  pose proof (owns_nodup _ _ _ (proj1 O)) as Hn. rewrite addrs_plug in Hn. simpl in Hn. nd.
Qed.

Lemma rb_next_focus l a c r k : Own F s (plug (Node l a c r) k) →
  rb_next a s = Ok (first_addr (addrs r ++ cpost k), s).
Proof.
  intros O. pose proof (Own_has _ _ _ _ _ _ _ O) as Ha. pose proof (parent_not_self _ _ _ _ _ O).
  unfold rb_next. rd. destruct (Z.eqb_spec (raddr r) NULL) as [E|E].
  - apply (raddr_null r (FR l a c :: k) O) in E as ->.
    apply (climb_right_ok k _ l a c Leaf O). by eapply Own_fuel_ctx.
  - rewrite (go_left_first r (FR l a c :: k)); [|by intros ->|done].
    destruct r as [|rl x d rr]; [done|]. simpl. by destruct (addrs rl).
Qed.

Lemma last_addr_app x l l' : last_addr (l ++ x :: l') = last_addr (x :: l').
Proof. unfold last_addr. rewrite last_app, !last_cons. by destruct (last l'). Qed.

Lemma rb_prev_focus l a c r k : Own F s (plug (Node l a c r) k) →
  rb_prev a s = Ok (last_addr (cpre k ++ addrs l), s).
Proof.
  intros O. pose proof (Own_has _ _ _ _ _ _ _ O) as Ha. pose proof (parent_not_self _ _ _ _ _ O).
  unfold rb_prev. rd. destruct (Z.eqb_spec (raddr l) NULL) as [E|E].
  - apply (raddr_null l (FL a c r :: k) O) in E as ->. rewrite app_nil_r.
    apply (climb_left_ok k _ Leaf a c r O). by eapply Own_fuel_ctx.
  - rewrite (go_right_last l (FL a c r :: k)); [|by intros ->|done].
    destruct (addrs l) as [|x xs] eqn:El; [|by rewrite last_addr_app].
    destruct l as [|ll x d lr]; [done|]. simpl in El. by destruct (addrs ll).
Qed.

(** A node of the tree splits the in-order list in one way. *)
Lemma focus_split t xs a ys : Own F s t → addrs t = xs ++ a :: ys →
  ∃ l c r k, t = plug (Node l a c r) k ∧ xs = cpre k ++ addrs l ∧ ys = addrs r ++ cpost k.
Proof.
  intros [O _] E. destruct (addrs_focus t a) as (l & c & r & k & ->).
  { rewrite E. set_solver +. }
  exists l, c, r, k. split; [done|].
  apply (split_at_unique a); rewrite <-E; [|by apply owns_nodup with F (mem s)].
  rewrite addrs_plug_split. flat.
Qed.

Lemma rb_next_ok t xs a ys : Own F s t → addrs t = xs ++ a :: ys →
  rb_next a s = Ok (first_addr ys, s).
Proof.
  intros O E. destruct (focus_split t xs a ys O E) as (l & c & r & k & -> & -> & ->).
  by eapply rb_next_focus.
Qed.

Lemma rb_prev_ok t xs a ys : Own F s t → addrs t = xs ++ a :: ys →
  rb_prev a s = Ok (last_addr xs, s).
Proof.
  intros O E. destruct (focus_split t xs a ys O E) as (l & c & r & k & -> & -> & ->).
  by eapply rb_prev_focus.
Qed.
End iteration.

(** [for (node = rb_first(root); node; node = rb_next(node))]: the nodes in
    the order the body sees them. *)
Fixpoint rb_for_each_loop (n : nat) (node : Z) : M rb_state (list Z) :=
  match n with
  | O => fail Fuel
  | S n => if node =? NULL then mret [] else
           next ← rb_next node; rest ← rb_for_each_loop n next; mret (node :: rest)
  end.

Definition rb_for_each : M rb_state (list Z) := λ s,
  (node ← rb_first; rb_for_each_loop (fuel s) node) s.

Lemma rb_for_each_loop_ok F s t xs : Own F s t → ∀ ys n, addrs t = xs ++ ys → (length ys < n)%nat →
  rb_for_each_loop n (first_addr ys) s = Ok (ys, s).
Proof.
  intros O ys. revert xs. induction ys as [|y ys IH]; intros xs n E Hn; (destruct n as [|n]; [lia|]).
  - done.
  - cbn [rb_for_each_loop]. change (first_addr (y :: ys)) with y. simpl in Hn.
    pose proof (owns_ok _ _ _ (proj1 O)) as Ho. rewrite E, Forall_app, Forall_cons in Ho.
    destruct Ho as (_ & Hy & _). rewrite (proj2 (Z.eqb_neq _ _) (ok_addr_nonnull _ Hy)).
    run (rb_next_ok F s t xs y ys O E).
    run (IH (xs ++ [y]) n ltac:(by rewrite <-app_assoc) ltac:(lia)). done.
Qed.

Lemma rb_for_each_ok F s t : Own F s t → rb_for_each s = Ok (addrs t, s).
Proof.
  intros O. unfold rb_for_each. run (rb_first_ok F s t O).
  apply (rb_for_each_loop_ok F s t [] O); [done|]. pose proof (owns_length _ _ _ (proj1 O)).
  unfold fuel. lia.
Qed.

(** ** Replacing a node in place *)
Lemma store_ok s p c c' : mem s !! p = Some c → store p c' s = Ok ((), RbSt (<[p := c']> (mem s)) (rb_root s)).
Proof. intros E. unfold store. by rewrite E. Qed.

Section replace.
Context (F : gmap Z rb_node) (s : rb_state) (l r : tree color) (a y : Z) (c : color).
Context (k : list (frame color)) (c0 : rb_node).
Context (O : Own F s (plug (Node l a c r) k)) (Fy : F !! y = Some c0).
Context (Ny : y ∉ addrs (plug (Node l a c r) k)) (Py : ptr y) (Ny0 : y ≠ NULL).

Lemma replace_child t (f : frame color) tl x d tr :
  plug (Node l a c r) k = plug t (f :: k) → faddr f = a → t = Node tl x d tr →
  has s x a (raddr tl) (raddr tr) d ∧ x ≠ NULL ∧ x ≠ a ∧ x ≠ y ∧ x ∉ caddrs k.
Proof.
  intros E <- ->. pose proof O as O1. pose proof Ny as Ny1. rewrite E in O1, Ny1.
  pose proof (owns_nodup _ _ _ (proj1 O1)) as Hn. rewrite addrs_plug in Hn, Ny1.
  cbn [addrs caddrs] in Hn, Ny1.
  split; [exact (Own_has _ _ _ _ _ _ _ O1)|]. split; [by eapply Own_ptr|].
  split_and!; nd.
Qed.

Lemma replace_frame f k' : k = f :: k' →
  fhas s (caddr k') a f ∧ a ≠ raddr (fsib f) ∧ faddr f ≠ NULL ∧ faddr f ≠ a ∧ faddr f ≠ y.
Proof.
  intros E. pose proof O as O1. pose proof Ny as Ny1. rewrite E in O1, Ny1.
  pose proof (owns_nodup _ _ _ (proj1 O1)) as Hn. rewrite addrs_plug in Hn, Ny1.
  cbn [addrs caddrs] in Hn, Ny1.
  split; [exact (Own_parent _ _ _ _ _ O1)|]. split; [apply (owns_sibling_ne _ _ _ _ _ _ _ _ (proj1 O1))|].
  split; [eapply ok_addr_nonnull, owns_ok_frame, O1|]. split; [nd|].
  intros E'. apply Ny1. rewrite <-E'. set_solver +.
Qed.

Lemma rb_replace_node_ok :
  ∃ s', rb_replace_node a y s = Ok ((), s') ∧
        Own (<[a := mk_cell (caddr k) (raddr l) (raddr r) c]> F) s' (plug (Node l y c r) k).
Proof.
  pose proof (Own_has _ _ _ _ _ _ _ O) as Ha.
  pose proof (λ h', owns_rename F (<[a := mk_cell (caddr k) (raddr l) (raddr r) c]> F) (mem s) h'
    l a c r k y (proj1 O) (conj Py Ny0) Ny) as G.
  pose proof (λ tl x d tr, replace_child l (FL a c r) tl x d tr eq_refl eq_refl) as Hl.
  pose proof (λ tl x d tr, replace_child r (FR l a c) tl x d tr eq_refl eq_refl) as Hr.
  pose proof replace_frame as Hf.
  assert (Hy : mem s !! y = Some c0) by (by rewrite (owns_frame _ _ _ (proj1 O))).
  assert (Nay : a ≠ y) by (intros <-; apply Ny; rewrite addrs_plug; set_solver +).
  assert (Hlr : l ≠ Leaf → r ≠ Leaf → raddr l ≠ raddr r).
  { intros Nl Nr. apply raddr_in in Nl, Nr. pose proof (owns_nodup _ _ _ (proj1 O)) as Hn.
    rewrite addrs_plug in Hn. cbn [addrs] in Hn. intros E. rewrite E in Nl. occ_solve (raddr r). }
  pose proof (Own_ptr _ _ _ _ _ _ _ O) as [Pa _]. pose proof (ptr_caddr _ _ _ _ O) as Pk.
  assert (Ek : k ≠ [] → rb_root s = raddr (plug (Node l y c r) k)).
  { intros. rewrite (proj2 O). apply raddr_plug_ext. by left. }
  assert (∃ s', rb_replace_node a y s = Ok ((), s') ∧
    owns (<[a := mk_cell (caddr k) (raddr l) (raddr r) c]> F) (mem s') (plug (Node l y c r) k) ∧
    rb_root s' = match k with [] => y | _ => rb_root s end) as (s' & E & O' & R).
  2: { exists s'. split; [done|]. split; [done|]. rewrite R. destruct k; [done|by apply Ek]. }
  clear Ek. unfold rb_replace_node.
  destruct l as [|ll lx lc lr], r as [|rl rx rc rr], k as [|[g cg gr|gl g cg] k'].
  all: try (destruct (Hl _ _ _ _ eq_refl) as (? & ? & ? & ? & ?)).
  all: try (destruct (Hr _ _ _ _ eq_refl) as (? & ? & ? & ? & ?)).
  all: try (destruct (Hf _ _ eq_refl) as (? & ? & ? & ? & ?)).
  all: try (specialize (Hlr ltac:(done) ltac:(done))).
  all: cbn [raddr caddr caddrs faddr fsib fhas] in *; clear Hl Hr Hf.
  all: try match goal with H : _ ∉ _ :: _ |- _ => apply not_elem_of_cons in H as [? _] end.
  all: try match goal with H : _ ∉ _ :: _ |- _ => apply not_elem_of_cons in H as [? _] end.
  all: cbn [faddr] in *; go.
  all: eexists; (split; [eapply store_ok; simpl; rewrite ?lookup_insert_ne by neq; exact Hy|]).
  all: split; [|done]; apply G; simpl.
  all: try (intros ? ? ? ? [= <- <- <- <-]).
  all: try rot_heap.
  all: try (intros; rewrite ?lookup_insert_ne by neq; done).
  all: try (symmetry; exact (proj1 Ha)).
  all: intros z ? ? Hz1 Hz2 Hz3; repeat match goal with H : ?x ≠ ?y → _ |- _ => specialize (H ltac:(done)) end.
  all: rewrite ?lookup_insert_ne by neq; done.
Qed.
End replace.

(** ** Augmented walks

    The nodes [rb_augment_path] calls its function on, from a node [x] with
    context [k]: the node, its sibling (a left child without sibling is
    visited again instead), and so on up to the root. *)
Definition aug_sibling (x : Z) (f : frame color) : list Z :=
  match f with
  | FL _ _ Leaf => [x]
  | FL _ _ r => [raddr r]
  | FR Leaf _ _ => []
  | FR l _ _ => [raddr l]
  end.

Fixpoint aug_trace (x : Z) (k : list (frame color)) : list Z :=
  x :: match k with [] => [] | f :: k' => aug_sibling x f ++ aug_trace (faddr f) k' end.

Section augment.
Context {D : Type} (func : rb_state → Z → D → D) (F : gmap Z rb_node) (s : rb_state).

Definition run_trace (d : D) (tr : list Z) : D := fold_left (λ d x, func s x d) tr d.

Lemma rb_augment_path_ok k : ∀ n l a c r d,
  Own F s (plug (Node l a c r) k) → (length k < n)%nat →
  rb_augment_path func n a d s = Ok (run_trace d (aug_trace a k), s).
Proof.
  induction k as [|f k IH]; intros n l a c r d O Hn; (destruct n as [|n]; [simpl in Hn; lia|]);
    simpl; erewrite bind_ok by reflexivity; run (rb_parent_own O); simpl; [done|].
  pose proof (Own_parent _ _ _ _ _ O) as Hf.
  pose proof (owns_sibling_ne _ _ _ _ _ _ _ _ (proj1 O)) as Hs.
  pose proof (ok_addr_nonnull _ (owns_ok_frame _ _ _ _ _ (proj1 O))) as Hnn.
  pose proof (proj2 (Own_ptr _ _ _ _ _ _ _ O)) as Hna.
  assert (Hsn : fsib f ≠ Leaf → raddr (fsib f) ≠ NULL).
  { apply Own_flip in O. intros N. contradict N. by apply (raddr_null F s _ _ O). }
  simpl in Hn. clear -IH O Hn Hf Hs Hnn Hna Hsn.
  destruct f as [p cp u|u p cp]; cbn [fhas fsib faddr] in *;
    destruct u as [|ul ux uc ur]; cbn [raddr aug_sibling app] in *;
    try specialize (Hsn ltac:(done)); rd;
    try (erewrite bind_ok by reflexivity).
  - apply (IH n (Node l a c r) p cp Leaf _ O). lia.
  - apply (IH n (Node l a c r) p cp _ _ O). lia.
  - apply (IH n Leaf p cp (Node l a c r) _ O). lia.
  - apply (IH n _ p cp (Node l a c r) _ O). lia.
Qed.

Lemma rb_augment_insert_ok l a c r k d :
  Own F s (plug (Node l a c r) k) →
  rb_augment_insert func a d s = Ok (run_trace d
    match l, r with
    | Node _ x _ _, _ => aug_trace x (FL a c r :: k)
    | Leaf, Node _ x _ _ => aug_trace x (FR l a c :: k)
    | Leaf, Leaf => aug_trace a k
    end, s).
Proof.
  intros O. pose proof (Own_has _ _ _ _ _ _ _ O) as Ha. unfold rb_augment_insert. rd.
  destruct l as [|ll lx lc lr]; [destruct r as [|rl rx rc rr]|]; cbn [raddr].
  - rewrite Z.eqb_refl. cbn [negb]. eapply rb_augment_path_ok; [exact O|]. by eapply Own_fuel_ctx.
  - pose proof (O : Own F s (plug (Node rl rx rc rr) (FR Leaf a c :: k))) as O1.
    rewrite (proj2 (Z.eqb_neq rx NULL)) by apply (Own_ptr _ _ _ _ _ _ _ O1). simpl negb. cbv iota.
    eapply rb_augment_path_ok; [exact O1|]. by eapply Own_fuel_ctx.
  - pose proof (O : Own F s (plug (Node ll lx lc lr) (FL a c r :: k))) as O1.
    rewrite (proj2 (Z.eqb_neq lx NULL)) by apply (Own_ptr _ _ _ _ _ _ _ O1). simpl negb. cbv iota.
    eapply rb_augment_path_ok; [exact O1|]. by eapply Own_fuel_ctx.
Qed.
End augment.

(** Every ancestor is visited after both of its children. *)
Lemma aug_trace_order x k1 f k2 :
  ∃ pre post, aug_trace x (k1 ++ f :: k2) = pre ++ faddr f :: post ∧
    List.last (x :: map faddr k1) NULL ∈ pre ∧
    (fsib f ≠ Leaf → raddr (fsib f) ∈ pre).
Proof.
  revert x. induction k1 as [|g k1 IH]; intros x; simpl.
  - exists (x :: aug_sibling x f), (tail (aug_trace (faddr f) k2)). split; [by destruct k2|]. split; [set_solver +|].
    intros N. destruct f as [? ? []|[] ? ?]; simpl in *; try done; set_solver +.
  - destruct (IH (faddr g)) as (pre & post & E & H1 & H2).
    exists (x :: aug_sibling x g ++ pre), post. rewrite E. split; [by flat|].
    split; [|intros N; specialize (H2 N); set_solver].
    destruct k1; simpl in *; set_solver.
Qed.

(** ** The height of a red-black tree *)
Lemma rbt_size t c n :
  rbt t c n → (2 ^ n ≤ S (length (addrs t)))%nat ∧
    (height t ≤ 2 * n + match c with Red => 1 | Black => 0 end)%nat.
Proof.
  induction 1 as [|l a r n Hl [Sl Gl] Hr [Sr Gr]|l a r cl cr n Hl [Sl Gl] Hr [Sr Gr]];
    simpl; rewrite ?length_app; simpl; [lia|lia|].
  destruct cl, cr; lia.
Qed.

Lemma red_black_height t :
  red_black t → (height t ≤ 2 * Nat.log2 (S (length (addrs t))))%nat.
Proof.
  intros [n H]. apply rbt_size in H as [H1 H2].
  assert (n ≤ Nat.log2 (S (length (addrs t))))%nat; [|lia].
  rewrite <-(Nat.log2_pow2 n) by lia. by apply Nat.log2_le_mono.
Qed.
