(* ===== verification/RbMap.v ===== *)
(** * Maps from strings on a red-black tree: rbtree-data.c and rbtree-test.c

    Both programs embed [struct rb_node] as the first member of a struct that
    holds a string key, so the address of the struct is the address of its
    node.  The memory holds the nodes (in the tree's state) and the rest of
    the structs. *)

From S2P Require Import Prelude CStr PTree PSearch RbTree RbHeap RbWalk RbInsert RbErase RbIter.

(** [struct commqueue] and [struct mynode] without the node. *)
Record commqueue := Commqueue { sequence : cstring; sock_from : Z; commandId : Z }.
Record mynode := Mynode { string : option cstring }.

(** The key [strcmp] reads: an array in the struct, or a pointer to a string
    ([None] for a null pointer). *)
Class Keyed (P : Type) := key : P → option cstring.
#[export] Instance commqueue_keyed : Keyed commqueue := λ p, Some (sequence p).
#[export] Instance mynode_keyed : Keyed mynode := λ p, string p.

Record cst (P : Type) := Cst { rbs : rb_state; data : gmap Z P }.
Arguments Cst {P} rbs data.
Arguments rbs {P} c.
Arguments data {P} c.

Definition lift {P A} (m : M rb_state A) : M (cst P) A := λ s,
  match m (rbs s) with Ok (a, r) => Ok (a, Cst r (data s)) | Err e => Err e end.

Section operations.
Context {P : Type} `{Keyed P}.

Definition key_at (node : Z) : M (cst P) cstring := λ s,
  match data s !! node ≫= key with Some k => Ok (k, s) | None => Err Segv end.

Fixpoint search_loop (n : nat) (seq : cstring) (node : Z) : M (cst P) Z :=
  match n with
  | O => fail Fuel
  | S n =>
      if node =? NULL then mret NULL else
      k ← key_at node;
      let result := strcmp seq k in
      if result <? 0 then l ← lift (get_left node); search_loop n seq l
      else if 0 <? result then r ← lift (get_right node); search_loop n seq r
      else mret node
  end.

Definition search (seq : cstring) : M (cst P) Z := λ s,
  (node ← lift get_root; search_loop (fuel (rbs s)) seq node) s.

(** The loop of [insert]: [new] is the link the new node goes to; [None] is
    the early return for a key that is in the tree. *)
Fixpoint insert_loop (n : nat) (seq : cstring) (new : link) (parent : Z) :
    M (cst P) (option (link * Z)) :=
  match n with
  | O => fail Fuel
  | S n =>
      node ← lift (get_link new);
      if node =? NULL then mret (Some (new, parent)) else
      k ← key_at node;
      let result := strcmp seq k in
      if result <? 0 then insert_loop n seq (LLeft node) node
      else if 0 <? result then insert_loop n seq (LRight node) node
      else mret None
  end.

Definition insert (d : Z) : M (cst P) Z := λ s,
  (seq ← key_at d;
   place ← insert_loop (fuel (rbs s)) seq LRoot NULL;
   match place with
   | None => mret 0
   | Some (new, parent) => lift (rb_link_node d parent new);; lift (rb_insert_color d);; mret 1
   end) s.

(** [free] of a struct, and the two wrappers. *)
Definition free_struct (node : Z) : M (cst P) unit := λ s,
  match data s !! node with
  | Some _ => Ok ((), Cst (RbSt (delete node (mem (rbs s))) (rb_root (rbs s))) (delete node (data s)))
  | None => Err Segv
  end.

Definition commqueue_free (node : Z) : M (cst P) unit :=
  if node =? NULL then mret () else free_struct node.

(** [if (data) { rb_erase(&data->node, &mytree); commqueue_free(data); }] *)
Definition erase_free (d : Z) : M (cst P) unit :=
  if d =? NULL then mret () else lift (rb_erase d);; commqueue_free d.
End operations.

(** [my_free]: the string, then the struct. *)
Definition my_free (node : Z) : M (cst mynode) unit :=
  if node =? NULL then mret () else
  (λ s, match data s !! node with
        | Some (Mynode (Some _)) => Ok ((), Cst (rbs s) (<[node := Mynode None]> (data s)))
        | Some (Mynode None) => Ok ((), s)
        | None => Err Segv
        end);;
  free_struct node.


(** ** The map a tree stands for *)
Section abstraction.
Context {P : Type} `{Keyed P}.
Implicit Types s : cst P.

Definition kof s (a : Z) : option cstring := data s !! a ≫= key.

Record Map (F : gmap Z rb_node) s (t : tree color) : Prop := {
  map_own : Own F (rbs s) t;
  map_rb : red_black t;
  map_keys : ∀ a, a ∈ addrs t → ∃ k, kof s a = Some k ∧ is_cstring k;
  map_sorted : StronglySorted (λ a b, ∀ ka kb, kof s a = Some ka → kof s b = Some kb → str_lt ka kb) (addrs t);
}.

Definition absmap s (t : tree color) : gmap cstring Z :=
  list_to_map ((λ a, (default [] (kof s a), a)) <$> addrs t).

Lemma keys_nodup F s t : Map F s t → NoDup ((λ a, default [] (kof s a)) <$> addrs t).
Proof.
  intros [_ _ Hk Hs]. induction Hs as [|a l Hs IH Ha]; csimpl; [constructor|].
  constructor; [|apply IH; intros; apply Hk; set_solver].
  intros (b & E & Hb)%list_elem_of_fmap. rewrite Forall_forall in Ha. specialize (Ha b Hb).
  destruct (Hk a) as (ka & Ea & _); [set_solver|]. destruct (Hk b) as (kb & Eb & _); [set_solver|].
  rewrite Ea, Eb in E. simpl in E. subst kb. by eapply str_lt_irrefl, Ha.
Qed.

Lemma absmap_lookup F s t k a : Map F s t →
  absmap s t !! k = Some a ↔ a ∈ addrs t ∧ kof s a = Some k.
Proof.
  intros Hm. unfold absmap. rewrite <-elem_of_list_to_map.
  2: { rewrite <-list_fmap_compose. exact (keys_nodup F s t Hm). }
  rewrite list_elem_of_fmap. split.
  - intros (b & [= -> ->] & Hb). split; [done|]. by destruct (map_keys _ _ _ Hm b Hb) as (k & -> & _).
  - intros [Ha E]. exists a. by rewrite E.
Qed.

Lemma absmap_ext F F' s s' t t' : Map F s t → Map F' s' t' →
  (∀ a k, a ∈ addrs t ∧ kof s a = Some k ↔ a ∈ addrs t' ∧ kof s' a = Some k) →
  absmap s t = absmap s' t'.
Proof.
  intros Hm Hm' Ha. apply map_eq. intros k. apply option_eq. intros a.
  by rewrite (absmap_lookup F), (absmap_lookup F'), Ha by done.
Qed.

(** The comparison at each node of a walk for the key [seq]. *)
Definition dir s (seq : cstring) (a : Z) : comparison :=
  match kof s a with Some k => strcmp seq k ?= 0 | None => Eq end.

Lemma dir_walkable F s t seq : Map F s t → is_cstring seq → walkable (dir s seq) (addrs t).
Proof.
  intros [_ _ Hk Hs] Hq. induction Hs as [|a l Hs IH Ha]; constructor.
  - apply IH. intros b Hb. apply Hk. set_solver.
  - apply Forall_forall. intros b Hb. rewrite Forall_forall in Ha. specialize (Ha b Hb).
    destruct (Hk a) as (ka & Ea & Ca); [set_solver|]. destruct (Hk b) as (kb & Eb & Cb); [set_solver|].
    specialize (Ha ka kb Ea Eb). unfold dir. rewrite Ea, Eb, !Z.compare_lt_iff, !Z.compare_gt_iff.
    split; intros E.
    + by apply (str_lt_trans seq ka kb).
    + assert (Hb' : str_lt kb seq) by (unfold str_lt; rewrite strcmp_antisym; lia).
      pose proof (str_lt_trans ka kb seq Ca Cb Hq Ha Hb') as T. unfold str_lt in T.
      rewrite (strcmp_antisym ka seq). lia.
Qed.
End abstraction.

(** ** The operations refine the map *)
Section refinement.
Context {P : Type} `{Keyed P}.
Implicit Types s : cst P.

Lemma lift_ok {A} (m : M rb_state A) s a r :
  m (rbs s) = Ok (a, r) → lift m s = Ok (a, Cst r (data s)).
Proof. intros E. unfold lift. by rewrite E. Qed.

Lemma lift_read {A} (m : M rb_state A) s a :
  m (rbs s) = Ok (a, rbs s) → lift m s = Ok (a, s).
Proof. intros E. rewrite (lift_ok _ _ _ _ E). by destruct s. Qed.

Lemma key_at_ok s a k : kof s a = Some k → key_at a s = Ok (k, s).
Proof. intros E. unfold key_at. unfold kof in E. by rewrite E. Qed.

Lemma dir_spec s seq a k : kof s a = Some k →
  match dir s seq a with
  | Lt => (strcmp seq k <? 0) = true
  | Gt => (strcmp seq k <? 0) = false ∧ (0 <? strcmp seq k) = true
  | Eq => (strcmp seq k <? 0) = false ∧ (0 <? strcmp seq k) = false
  end.
Proof. intros E. unfold dir. rewrite E. destruct (Z.compare_spec (strcmp seq k) 0); lia. Qed.

Section walks.
Context (F : gmap Z rb_node) (s : cst P) (seq : cstring).

Lemma search_loop_ok t : ∀ n k, Own F (rbs s) (plug t k) →
  (∀ a, a ∈ addrs t → is_Some (kof s a)) → (height t < n)%nat →
  search_loop n seq (raddr t) s = Ok (raddr (alocate (dir s seq) t k).1, s).
Proof.
  induction t as [|l IHl a c r IHr]; intros n k O Hin Hn; (destruct n as [|n]; [simpl in Hn; lia|]).
  - done.
  - simpl raddr. cbn [search_loop]. simpl in Hn, Hin.
    rewrite (proj2 (Z.eqb_neq _ _) (proj2 (Own_ptr _ _ _ _ _ _ _ O))).
    destruct (Hin a) as [ka Ek]; [set_solver +|]. run (key_at_ok _ _ _ Ek).
    pose proof (dir_spec s seq a ka Ek) as D. pose proof (Own_has _ _ _ _ _ _ _ O) as Ha. simpl.
    destruct (dir s seq a) eqn:E; simpl.
    + by destruct D as [-> ->].
    + rewrite D. run (lift_read _ s _ (get_left_ok _ _ _ _ _ _ Ha)).
      apply IHl; [done| |lia]. intros; apply Hin; set_solver.
    + destruct D as [-> ->]. run (lift_read _ s _ (get_right_ok _ _ _ _ _ _ Ha)).
      apply IHr; [done| |lia]. intros; apply Hin; set_solver.
Qed.

Lemma map_insert_loop_ok t : ∀ n k, Own F (rbs s) (plug t k) →
  (∀ a, a ∈ addrs t → is_Some (kof s a)) → (height t < n)%nat →
  insert_loop n seq (hlink k) (caddr k) s =
  Ok (match alocate (dir s seq) t k with
      | (Leaf, k') => Some (hlink k', caddr k')
      | _ => None
      end, s).
Proof.
  induction t as [|l IHl a c r IHr]; intros n k O Hin Hn; (destruct n as [|n]; [simpl in Hn; lia|]);
    cbn [insert_loop]; run (lift_read _ s _ (get_link_ok _ _ _ _ O)); cbn [raddr].
  - done.
  - simpl in Hn, Hin. rewrite (proj2 (Z.eqb_neq _ _) (proj2 (Own_ptr _ _ _ _ _ _ _ O))).
    destruct (Hin a) as [ka Ek]; [set_solver +|]. run (key_at_ok _ _ _ Ek).
    pose proof (dir_spec s seq a ka Ek) as D. simpl.
    destruct (dir s seq a) eqn:E; simpl.
    + by destruct D as [-> ->].
    + rewrite D. apply (IHl n (FL a c r :: k)); [done| |lia]. intros; apply Hin; set_solver.
    + destruct D as [-> ->]. apply (IHr n (FR l a c :: k)); [done| |lia]. intros; apply Hin; set_solver.
Qed.
End walks.

Lemma own_fuel_height F s t : Own F (rbs s) t → (height t < fuel (rbs s))%nat.
Proof.
  intros [O _]. apply owns_length in O. pose proof (height_length t). unfold fuel. lia.
Qed.

Lemma map_kof F s t a : Map F s t → a ∈ addrs t → is_Some (kof s a).
Proof. intros Hm Ha. destruct (map_keys _ _ _ Hm a Ha) as (k & E & _). eauto. Qed.

(** The walk for a key finds its node, or the place where it is missing. *)
Lemma locate_lookup F s t seq : Map F s t → is_cstring seq →
  match alocate (dir s seq) t [] with
  | (Leaf, k) => absmap s t !! seq = None ∧ t = plug Leaf k ∧
      Forall (λ x, dir s seq x = Gt) (cpre k) ∧ Forall (λ x, dir s seq x = Lt) (cpost k)
  | (Node _ a _ _, _) => absmap s t !! seq = Some a
  end.
Proof.
  intros Hm Hq. pose proof (locate_plug (λ a _, dir s seq a) t []) as Hp.
  pose proof (locate_end (λ a _, dir s seq a) t []) as He.
  destruct (alocate_cut (dir s seq) t) as [H1 H2]; [by eapply dir_walkable|].
  destruct (alocate (dir s seq) t []) as [t' k] eqn:E. simpl in *. subst t.
  destruct t' as [|l a c r].
  - split; [|done]. apply eq_None_not_Some. intros [a [Ha Ek]%(absmap_lookup F)]; [|done].
    assert (dir s seq a = Eq) as Hd by (unfold dir; by rewrite Ek, strcmp_refl).
    rewrite addrs_plug_split in Ha. rewrite Forall_forall in H1, H2.
    apply elem_of_app in Ha as [Ha|Ha]; [specialize (H1 a Ha)|specialize (H2 a Ha)]; congruence.
  - destruct He as [?|(l' & a' & c' & r' & [= <- <- <- <-] & Hd)]; [done|].
    assert (Ha : a ∈ addrs (plug (Node l a c r) k)) by (rewrite addrs_plug; set_solver +).
    apply (absmap_lookup F); [done|]. split; [done|].
    destruct (map_keys _ _ _ Hm a Ha) as (ka & Ek & Ck). rewrite Ek. f_equal.
    unfold dir in Hd. rewrite Ek in Hd. apply Z.compare_eq in Hd. symmetry. by apply strcmp_eq.
Qed.

Lemma search_ok F s t seq : Map F s t → is_cstring seq →
  search seq s = Ok (default NULL (absmap s t !! seq), s).
Proof.
  intros Hm Hq. pose proof (map_own _ _ _ Hm) as O. unfold search.
  run (lift_read _ s _ (get_root_own O)).
  rewrite (search_loop_ok F s seq t _ [] O); [|by intros; eapply map_kof|by eapply own_fuel_height].
  pose proof (locate_lookup F s t seq Hm Hq) as L.
  by destruct (alocate (dir s seq) t []) as [[|l a c r] k]; [destruct L as [-> _]|rewrite L].
Qed.

(** Inserting at the place found keeps the order. *)
Lemma insert_sorted F s t seq k d : Map F s t → is_cstring seq → kof s d = Some seq →
  t = plug Leaf k → Forall (λ x, dir s seq x = Gt) (cpre k) →
  Forall (λ x, dir s seq x = Lt) (cpost k) →
  StronglySorted (λ a b, ∀ ka kb, kof s a = Some ka → kof s b = Some kb → str_lt ka kb)
    (addrs (plug (Node Leaf d Red Leaf) k)).
Proof.
  intros Hm Hq Hd -> H1 H2. pose proof (map_sorted _ _ _ Hm) as Hs.
  rewrite addrs_plug_split in Hs |- *. apply StronglySorted_insert; [done|..].
  - eapply Forall_impl; [exact H1|]. intros a Ha ka kd Ea Ed. simplify_eq.
    unfold dir in Ha. rewrite Ea in Ha. apply Z.compare_gt_iff in Ha.
    unfold str_lt. rewrite strcmp_antisym. lia.
  - eapply Forall_impl; [exact H2|]. intros a Ha kd ka Ed Ea. simplify_eq.
    unfold dir in Ha. rewrite Ea in Ha. by apply Z.compare_lt_iff in Ha.
Qed.

Lemma insert_ok F s t d seq : Map F s t → kof s d = Some seq → is_cstring seq →
  d ∉ addrs t → is_Some (F !! d) → ptr d → d ≠ NULL →
  match absmap s t !! seq with
  | Some _ => insert d s = Ok (0, s)
  | None => ∃ s' t', insert d s = Ok (1, s') ∧ Map F s' t' ∧ data s' = data s ∧
      absmap s' t' = <[seq := d]> (absmap s t)
  end.
Proof.
  intros Hm Ed Hq Nd Fd Pd Nd0. pose proof (map_own _ _ _ Hm) as O.
  pose proof (locate_lookup F s t seq Hm Hq) as L.
  pose proof (map_insert_loop_ok F s seq t _ [] O (λ a, map_kof F s t a Hm) (own_fuel_height F s t O)) as E.
  unfold insert. 
  destruct (alocate (dir s seq) t []) as [[|l a c r] k].
  2: { rewrite L. run (key_at_ok _ _ _ Ed). by run E. }
  destruct L as (Ln & Et & H1 & H2). rewrite Ln.
  pose proof (insert_sorted F s t seq k d Hm Hq Ed Et H1 H2) as Hs.
  rewrite Et in O, Nd. destruct (rb_link_node_ok F (rbs s) k d O Fd Nd Pd Nd0) as (r1 & E1 & O1).
  destruct (rb_insert_color_ok F r1 d k O1) as (r2 & t' & E2 & O2 & R2 & A2).
  { rewrite <-Et. apply Hm. }
  assert (Hin : ∀ b, b ∈ addrs t' ↔ b = d ∨ b ∈ addrs t).
  { intros b. rewrite A2, Et, !addrs_plug_split. simpl. set_solver +. }
  assert (Hm' : Map F (Cst r2 (data s)) t').
  { split; [done..| |by rewrite A2].
    intros b [->|Hb]%Hin; [by exists seq|]. exact (map_keys _ _ _ Hm b Hb). }
  exists (Cst r2 (data s)), t'. split; [|split; [done|split; [done|]]].
  - run (key_at_ok _ _ _ Ed). run E. run (lift_ok _ s _ _ E1).
    by run (lift_ok _ (Cst r1 (data s)) _ _ E2).
  - apply map_eq. intros q. apply option_eq. intros b.
    rewrite (absmap_lookup F _ _ _ _ Hm'), Hin, lookup_insert_Some, (absmap_lookup F _ _ _ _ Hm).
    change (kof (Cst r2 (data s)) b) with (kof s b). split.
    + intros [[->|Hb] Eb]; [left; naive_solver|right]. split; [|done]. intros <-.
      by rewrite (proj2 (absmap_lookup F s t seq b Hm)) in Ln.
    + intros [[<- <-]|(? & ? & ?)]; auto.
Qed.

(** Taking a node out of the tree and freeing it takes its key out of the map. *)
Lemma map_remove F F' s r t t' xs a ys :
  Map F s t → addrs t = xs ++ a :: ys → Own F' r t' → red_black t' → addrs t' = xs ++ ys →
  Map F' (Cst r (delete a (data s))) t' ∧
  ∀ b, b ∈ addrs t' ↔ b ≠ a ∧ b ∈ addrs t.
Proof.
  intros Hm A O1 R1 A1. pose proof (owns_nodup _ _ _ (proj1 (map_own _ _ _ Hm))) as Hn. rewrite A in Hn.
  assert (Na : a ∉ addrs t') by (rewrite A1; nd).
  assert (Hin : ∀ b, b ∈ addrs t' ↔ b ≠ a ∧ b ∈ addrs t).
  { intros b. rewrite A, A1 in *. split; [intros Hb; split; [by intros ->|set_solver]|set_solver]. }
  assert (Hkof : ∀ b, b ≠ a → kof (Cst r (delete a (data s))) b = kof s b).
  { intros b Nb. unfold kof. simpl. by rewrite lookup_delete_ne. }
  split; [|done]. split; [done|done|..].
  - intros b [Nb Hb]%Hin. rewrite Hkof by done. by apply (map_keys _ _ _ Hm).
  - pose proof (map_sorted _ _ _ Hm) as Hs. rewrite A in Hs. apply StronglySorted_remove in Hs.
    rewrite A1. revert Hs. apply StronglySorted_weaken. intros x y Hx Hy Hxy ka kb.
    rewrite <-A1 in Hx, Hy. apply Hin in Hx as [Nx _], Hy as [Ny _]. rewrite !Hkof by done. auto.
Qed.

Lemma erase_free_ok F s t a seq : Map F s t → absmap s t !! seq = Some a →
  ∃ s' t', erase_free a s = Ok ((), s') ∧ Map (delete a F) s' t' ∧
    data s' = delete a (data s) ∧ absmap s' t' = delete seq (absmap s t).
Proof.
  intros Hm La. pose proof (map_own _ _ _ Hm) as O.
  pose proof La as [Ha Ek]%(absmap_lookup F); [|done].
  destruct (addrs_focus t a Ha) as (l & c & r & k & ->).
  destruct (rb_erase_ok F (rbs s) l a c r k O (map_rb _ _ _ Hm)) as (r1 & t' & xs & ys & E & O1 & R1 & A & A1).
  pose proof (proj2 (Own_ptr _ _ _ _ _ _ _ O)) as Na0.
  assert (Na : a ∉ addrs t').
  { rewrite A1. pose proof (owns_nodup _ _ _ (proj1 O)) as Hn. rewrite A in Hn. nd. }
  pose proof (Own_free _ _ _ _ O1 Na) as O2. rewrite delete_insert_eq in O2.
  destruct (map_remove _ _ _ _ _ _ _ _ _ Hm A O2 R1 A1) as [Hm' Hin].
  eexists _, t'. split; [|split; [exact Hm'|split; [done|]]].
  - unfold erase_free, commqueue_free. rewrite (proj2 (Z.eqb_neq _ _) Na0).
    run (lift_ok _ s _ _ E). unfold free_struct. simpl.
    destruct (map_kof _ _ _ _ Hm Ha) as [q Eq]. unfold kof in Eq. by destruct (data s !! a).
  - apply map_eq. intros q. apply option_eq. intros b.
    rewrite (absmap_lookup _ _ _ _ _ Hm'), Hin, lookup_delete_Some, (absmap_lookup F _ _ _ _ Hm).
    split.
    + intros [[Nb Hb] Eb]. assert (kof s b = Some q) as Eb'.
      { unfold kof in *. simpl in Eb. by rewrite lookup_delete_ne in Eb. }
      split; [|done]. intros <-. apply Nb.
      assert (absmap s (plug (Node l a c r) k) !! seq = Some b) by (by apply (absmap_lookup F)). congruence.
    + intros (Nq & Hb & Eb). assert (Nb : b ≠ a) by congruence.
      split; [done|]. unfold kof in *. simpl. by rewrite lookup_delete_ne.
Qed.
End refinement.
