(* ===== verification/TimerQueue.v ===== *)
(** * The timer queue of rbtree-list.c

    A queue of timers ordered by expiry on a red-black tree, with a pointer
    to the first timer.  [struct timerqueue_node] and [IPTM_NODE] start with
    the tree node, so the three share one address.  [WARN_ON_ONCE], which the
    file uses without defining it, is taken to log only. *)

From S2P Require Import Prelude CStr PTree PSearch RbTree RbHeap RbWalk RbInsert RbErase RbIter.

(** The members of [IPTM_NODE] after its timer. *)
Record iptm := Iptm { ip_suff : Z; cip : cstring; last_updated : Z; valid_time : Z }.

(** [struct timerqueue_head], the [expires] members and the IPTM_NODEs. *)
Record tq := Tq { trb : rb_state; expires : gmap Z Z; tnext : Z; inodes : gmap Z iptm }.

Definition tlift {A} (m : M rb_state A) : M tq A := λ s,
  match m (trb s) with
  | Ok (a, r) => Ok (a, Tq r (expires s) (tnext s) (inodes s))
  | Err e => Err e
  end.

Definition expires_at (node : Z) : M tq Z := λ s,
  match expires s !! node with Some e => Ok (e, s) | None => Err Segv end.
Definition set_next (x : Z) : M tq unit := modify (λ s, Tq (trb s) (expires s) x (inodes s)).

Definition timerqueue_getnext : M tq Z := gets tnext.
Definition timerqueue_init (node : Z) : M tq unit := tlift (RB_CLEAR_NODE node).
Definition timerqueue_init_head : M tq unit := tlift (set_root NULL);; set_next NULL.

(** The loop of [timerqueue_add]. *)
Fixpoint add_loop (n : nat) (e : Z) (p : link) (parent : Z) : M tq (link * Z) :=
  match n with
  | O => fail Fuel
  | S n =>
      x ← tlift (get_link p);
      if x =? NULL then mret (p, parent) else
      ptr ← expires_at x;
      if e <? ptr then add_loop n e (LLeft x) x else add_loop n e (LRight x) x
  end.

Definition timerqueue_add (node : Z) : M tq unit := λ s,
  (e ← expires_at node;
   pp ← add_loop (fuel (trb s)) e LRoot NULL;
   tlift (rb_link_node node pp.2 pp.1);;
   tlift (rb_insert_color node);;
   next ← timerqueue_getnext;
   (if next =? NULL then set_next node
    else en ← expires_at next; if e <? en then set_next node else mret ())) s.

Definition timerqueue_del (node : Z) : M tq unit :=
  next ← timerqueue_getnext;
  (if next =? node then rbn ← tlift (rb_next node); set_next rbn else mret ());;
  tlift (rb_erase node);;
  tlift (RB_CLEAR_NODE node).

Definition timerqueue_iterate_next (node : Z) : M tq Z :=
  if node =? NULL then mret NULL else tlift (rb_next node).

Definition TMQ_OUT : Z := 120.

(** [timerqueue_append]: [inode] is the block [calloc] returns, [curr] the
    value of the local variable of that name, which the code never sets. *)
Definition timerqueue_append (inode curr valid : Z) : M tq unit :=
  timerqueue_init inode;;
  modify (λ s, Tq (trb s) (<[inode := curr + TMQ_OUT]> (expires s)) (tnext s)
    (<[inode := Iptm 1000 [84; 69; 83; 84] curr valid]> (inodes s)));;
  timerqueue_add inode.

Definition timerqueue_delete (ptr : Z) : M tq unit :=
  timerqueue_del ptr;;
  modify (λ s, Tq (RbSt (delete ptr (mem (trb s))) (rb_root (trb s)))
    (delete ptr (expires s)) (tnext s) (delete ptr (inodes s))).

(** ** The abstract queue

    A list of timers (address and expiry) in the order they fire; a timer is
    added after those that expire no later. *)
Fixpoint enqueue (x : Z * Z) (q : list (Z * Z)) : list (Z * Z) :=
  match q with
  | [] => [x]
  | y :: q' => if x.2 <? y.2 then x :: q else y :: enqueue x q'
  end.

Definition dequeue (a : Z) (q : list (Z * Z)) : list (Z * Z) :=
  filter (λ x, x.1 ≠ a) q.

Record TQ (F : gmap Z rb_node) (s : tq) (t : tree color) (q : list (Z * Z)) : Prop := {
  tq_own : Own F (trb s) t;
  tq_rb : red_black t;
  tq_addrs : addrs t = q.*1;
  tq_expires : Forall (λ x, expires s !! x.1 = Some x.2) q;
  tq_sorted : StronglySorted (λ x y, x.2 <= y.2) q;
  tq_next : tnext s = first_addr (q.*1);
}.

Lemma enqueue_at x q1 q2 :
  Forall (λ y, y.2 <= x.2) q1 → Forall (λ y, x.2 < y.2) q2 → enqueue x (q1 ++ q2) = q1 ++ x :: q2.
Proof.
  intros H1 H2. induction H1 as [|y q1 Hy H1 IH]; simpl.
  - destruct H2 as [|y q2 Hy H2]; simpl; [done|]. by rewrite (proj2 (Z.ltb_lt _ _)).
  - rewrite (proj2 (Z.ltb_ge _ _)) by done. by rewrite IH.
Qed.

Lemma dequeue_at (a e : Z) q1 q2 : a ∉ q1.*1 → a ∉ q2.*1 → dequeue a (q1 ++ (a, e) :: q2) = q1 ++ q2.
Proof.
  intros H1 H2. unfold dequeue. rewrite filter_app, filter_cons_False by (simpl; tauto).
  assert (Hid : ∀ q : list (Z * Z), a ∉ q.*1 → filter (λ x, x.1 ≠ a) q = q).
  { clear. induction q as [|[b e] q IH]; csimpl; [done|]. intros H.
    rewrite filter_cons_True by set_solver. rewrite IH; set_solver. }
  by rewrite !Hid.
Qed.

Section timers.
Context (F : gmap Z rb_node) (s : tq) (t : tree color) (q : list (Z * Z)) (Q : TQ F s t q).

Lemma tlift_ok {A} (m : M rb_state A) s0 a r :
  m (trb s0) = Ok (a, r) → tlift m s0 = Ok (a, Tq r (expires s0) (tnext s0) (inodes s0)).
Proof. intros E. unfold tlift. by rewrite E. Qed.

Lemma tlift_read {A} (m : M rb_state A) s0 a :
  m (trb s0) = Ok (a, trb s0) → tlift m s0 = Ok (a, s0).
Proof. intros E. rewrite (tlift_ok _ _ _ _ E). by destruct s0. Qed.

Lemma expires_at_ok s0 a e : expires s0 !! a = Some e → expires_at a s0 = Ok (e, s0).
Proof. intros E. unfold expires_at. by rewrite E. Qed.

(** The walk of [timerqueue_add]. *)
Definition later (e a : Z) : comparison :=
  match expires s !! a with Some ea => if e <? ea then Lt else Gt | None => Gt end.

Lemma add_loop_ok e : ∀ t n k, Own F (trb s) (plug t k) →
  (∀ a, a ∈ addrs t → is_Some (expires s !! a)) → (height t < n)%nat →
  let k' := (alocate (later e) t k).2 in
  add_loop n e (hlink k) (caddr k) s = Ok ((hlink k', caddr k'), s) ∧ (alocate (later e) t k).1 = Leaf.
Proof.
  induction t0 as [|l IHl a c r IHr]; intros n k O Hin Hn; (destruct n as [|n]; [simpl in Hn; lia|]);
    cbn [add_loop locate]; run (tlift_read _ s _ (get_link_ok F (trb s) _ _ O)); cbn [raddr].
  - done.
  - simpl in Hn, Hin. rewrite (proj2 (Z.eqb_neq _ _) (proj2 (Own_ptr _ _ _ _ _ _ _ O))).
    destruct (Hin a) as [ea Ee]; [set_solver +|]. run (expires_at_ok _ _ _ Ee).
    assert (later e a = if e <? ea then Lt else Gt) as -> by (unfold later; by rewrite Ee).
    destruct (e <? ea).
    + apply (IHl n (FL a c r :: k)); [done| |lia]. intros; apply Hin; set_solver.
    + apply (IHr n (FR l a c :: k)); [done| |lia]. intros; apply Hin; set_solver.
Qed.

Lemma tq_expires_at a : a ∈ addrs t → is_Some (expires s !! a).
Proof.
  rewrite (tq_addrs _ _ _ _ Q). intros (x & -> & Hx)%list_elem_of_fmap.
  pose proof (tq_expires _ _ _ _ Q) as He. rewrite Forall_forall in He. rewrite (He x Hx). eauto.
Qed.

Lemma later_walkable e : walkable (later e) (addrs t).
Proof.
  rewrite (tq_addrs _ _ _ _ Q). pose proof (tq_expires _ _ _ _ Q) as He.
  pose proof (tq_sorted _ _ _ _ Q) as Hs. clear Q.
  induction Hs as [|x q' Hs IH Hx]; csimpl; [constructor|].
  apply Forall_cons in He as [Ex He]. constructor; [by apply IH|].
  apply Forall_fmap, Forall_forall. intros y Hy. rewrite Forall_forall in Hx, He.
  specialize (Hx y Hy). unfold later. simpl. rewrite Ex, (He y Hy).
  destruct (Z.ltb_spec e x.2), (Z.ltb_spec e y.2); try done; lia.
Qed.

(** The place the walk ends at splits the queue. *)
Lemma add_place e : ∃ k q1 q2, alocate (later e) t [] = (Leaf, k) ∧ t = plug Leaf k ∧
  q = q1 ++ q2 ∧ cpre k = q1.*1 ∧ cpost k = q2.*1 ∧
  Forall (λ y, y.2 <= e) q1 ∧ Forall (λ y, e < y.2) q2.
Proof.
  pose proof (tq_own _ _ _ _ Q) as O.
  destruct (add_loop_ok e t (S (height t)) [] O tq_expires_at) as [_ El]; [lia|].
  pose proof (locate_plug (λ a _, later e a) t []) as Hp.
  destruct (alocate_cut (later e) t) as [H1 H2]; [by apply later_walkable|].
  destruct (alocate (later e) t []) as [t' k]. simpl in *. subst t'.
  pose proof (tq_addrs _ _ _ _ Q) as A. rewrite <-Hp, addrs_plug_split in A. simpl in A.
  symmetry in A. apply fmap_app_inv in A as (q1 & q2 & E1 & E2 & Eq).
  exists k, q1, q2. split; [done|]. split; [done|]. split; [done|]. split; [done|]. split; [done|].
  pose proof (tq_expires _ _ _ _ Q) as He. rewrite Eq, Forall_app in He. destruct He as [He1 He2].
  rewrite E1 in H1. rewrite E2 in H2. rewrite Forall_fmap in H1, H2. split.
  - clear -H1 He1. rewrite Forall_forall in *. intros y Hy. specialize (H1 y Hy). simpl in H1.
    unfold later in H1. rewrite (He1 y Hy) in H1. destruct (Z.ltb_spec e y.2); [done|lia].
  - clear -H2 He2. rewrite Forall_forall in *. intros y Hy. specialize (H2 y Hy). simpl in H2.
    unfold later in H2. rewrite (He2 y Hy) in H2. destruct (Z.ltb_spec e y.2); [done|done].
Qed.

(** Keeping the pointer to the first timer up to date. *)
Lemma add_next d e s1 : expires s1 = expires s → tnext s1 = tnext s → 
  (next ← timerqueue_getnext;
   if next =? NULL then set_next d
   else en ← expires_at next; if e <? en then set_next d else mret ()) s1 =
  Ok ((), Tq (trb s1) (expires s) (first_addr ((enqueue (d, e) q).*1)) (inodes s1)).
Proof.
  intros He Hn. unfold timerqueue_getnext, gets. erewrite bind_ok by reflexivity.
  rewrite Hn, (tq_next _ _ _ _ Q). pose proof (tq_expires _ _ _ _ Q) as Hq.
  pose proof (owns_ok _ _ _ (proj1 (tq_own _ _ _ _ Q))) as Ho. rewrite (tq_addrs _ _ _ _ Q) in Ho.
  destruct q as [|[a ea] q']; csimpl.
  - unfold set_next, modify. by rewrite He.
  - apply Forall_cons in Hq as [Ea _]. apply Forall_cons in Ho as [Ha _]. simpl in Ha.
    change (first_addr (a :: q'.*1)) with a. rewrite (proj2 (Z.eqb_neq a NULL)) by apply Ha.
    simpl in Ea. rewrite <-He in Ea. run (expires_at_ok _ _ _ Ea).
    destruct (e <? ea); csimpl; [unfold set_next, modify; by rewrite He|].
    rewrite ret_ok, <-He. change (first_addr (a :: _)) with a. destruct s1; simpl in *.
    by rewrite Hn, (tq_next _ _ _ _ Q).
Qed.

Lemma timerqueue_add_ok d e :
  expires s !! d = Some e → d ∉ addrs t → is_Some (F !! d) → ptr d → d ≠ NULL →
  ∃ s' t', timerqueue_add d s = Ok ((), s') ∧ TQ F s' t' (enqueue (d, e) q) ∧
    expires s' = expires s ∧ inodes s' = inodes s.
Proof.
  intros Ed Nd Fd Pd Nd0. pose proof (tq_own _ _ _ _ Q) as O.
  destruct (add_place e) as (k & q1 & q2 & El & Et & Eq & E1 & E2 & H1 & H2).
  destruct (add_loop_ok e t (fuel (trb s)) [] O tq_expires_at) as [Ea _].
  { pose proof (owns_length _ _ _ (proj1 O)). pose proof (height_length t). unfold fuel. lia. }
  rewrite El in Ea. simpl in Ea. rewrite Et in O, Nd.
  destruct (rb_link_node_ok F (trb s) k d O Fd Nd Pd Nd0) as (r1 & L1 & O1).
  destruct (rb_insert_color_ok F r1 d k O1) as (r2 & t' & L2 & O2 & R2 & A2).
  { rewrite <-Et. apply (tq_rb _ _ _ _ Q). }
  assert (Hq : enqueue (d, e) q = q1 ++ (d, e) :: q2) by (rewrite Eq; by apply enqueue_at).
  exists (Tq r2 (expires s) (first_addr ((enqueue (d, e) q).*1)) (inodes s)), t'.
  split; [|split; [|done]].
  - unfold timerqueue_add. run (expires_at_ok _ _ _ Ed). run Ea. simpl fst; simpl snd.
    run (tlift_ok _ s _ _ L1). run (tlift_ok _ (Tq r1 _ _ _) _ _ L2).
    by apply (add_next d e (Tq r2 (expires s) (tnext s) (inodes s))).
  - pose proof (tq_expires _ _ _ _ Q) as He. pose proof (tq_sorted _ _ _ _ Q) as Hs.
    rewrite Eq in He, Hs. split; [done|done|..|done]; rewrite Hq.
    + rewrite A2, addrs_plug_split, E1, E2, fmap_app. done.
    + apply Forall_app in He as [He1 He2]. apply Forall_app. split; [done|]. by constructor.
    + apply StronglySorted_insert; [done|done|]. eapply Forall_impl; [exact H2|]. simpl. lia.
Qed.

Lemma del_next a q1 e q2 : q = q1 ++ (a, e) :: q2 →
  (next ← timerqueue_getnext;
   if next =? a then rbn ← tlift (rb_next a); set_next rbn else mret ()) s =
  Ok ((), Tq (trb s) (expires s) (first_addr ((q1 ++ q2).*1)) (inodes s)).
Proof.
  intros Eq. pose proof (tq_own _ _ _ _ Q) as O. pose proof (tq_addrs _ _ _ _ Q) as A.
  rewrite Eq, fmap_app in A. csimpl in A.
  pose proof (owns_nodup _ _ _ (proj1 O)) as Hn. rewrite A in Hn.
  unfold timerqueue_getnext, gets. erewrite bind_ok by reflexivity.
  rewrite (tq_next _ _ _ _ Q), Eq, fmap_app. destruct q1 as [|[b eb] q1]; csimpl in *.
  - change (first_addr (a :: q2.*1)) with a. rewrite Z.eqb_refl.
    by run (tlift_read _ s _ (rb_next_ok F (trb s) t [] a (q2.*1) O A)).
  - change (first_addr (b :: _)) with b. rewrite (proj2 (Z.eqb_neq b a)) by nd.
    change (first_addr (b :: _)) with b. rewrite ret_ok.
    assert (Hb : tnext s = b) by (rewrite (tq_next _ _ _ _ Q), Eq; done). rewrite <-Hb. by destruct s.
Qed.

Lemma timerqueue_del_ok a : a ∈ addrs t →
  ∃ s' t' c, timerqueue_del a s = Ok ((), s') ∧ TQ (<[a := c]> F) s' t' (dequeue a q) ∧
    a ∉ addrs t' ∧ (∃ l r k, c = mk_cell a l r k) ∧ expires s' = expires s ∧ inodes s' = inodes s.
Proof.
  intros Ha. pose proof (tq_own _ _ _ _ Q) as O. pose proof (tq_addrs _ _ _ _ Q) as A.
  assert (∃ q1 e q2, q = q1 ++ (a, e) :: q2) as (q1 & e & q2 & Eq).
  { rewrite A in Ha. apply list_elem_of_fmap in Ha as ([a' e] & -> & Hx).
    apply list_elem_of_split in Hx as (q1 & q2 & ->). by exists q1, e, q2. }
  pose proof (owns_nodup _ _ _ (proj1 O)) as Hn. rewrite A, Eq, fmap_app in Hn. csimpl in Hn.
  destruct (addrs_focus t a Ha) as (l & c & r & k & Et). rewrite Et in O.
  destruct (rb_erase_ok F (trb s) l a c r k O) as (r1 & t' & xs & ys & E & O1 & R1 & A1 & A2).
  { rewrite <-Et. apply (tq_rb _ _ _ _ Q). }
  destruct (split_at_unique a xs ys (q1.*1) (q2.*1)) as [-> ->].
  { rewrite <-A1, <-Et, A, Eq, fmap_app. done. } { rewrite <-A1. apply O. }
  assert (Na : a ∉ addrs t') by (rewrite A2; nd).
  assert (Hh : has r1 a (caddr k) (raddr l) (raddr r) c).
  { split; [|by eapply ptr_caddr]. rewrite (owns_frame _ _ _ (proj1 O1) a Na). apply lookup_insert_eq. }
  pose proof (Own_write _ _ _ a (mk_cell a (raddr l) (raddr r) c) O1 Na) as O2. rewrite insert_insert_eq in O2.
  assert (Hq : dequeue a q = q1 ++ q2) by (rewrite Eq; apply dequeue_at; nd).
  exists (Tq (upd r1 a a (raddr l) (raddr r) c) (expires s) (first_addr ((q1 ++ q2).*1)) (inodes s)), t', (mk_cell a (raddr l) (raddr r) c).
  split; [|split; [|split; [done|eauto 10]]].
  - pose proof (del_next a q1 e q2 Eq) as Hd. unfold timerqueue_del.
    rewrite <-bind_assoc, (bind_ok _ _ _ _ _ Hd).
    run (tlift_ok _ (Tq (trb s) _ _ _) _ _ E). unfold RB_CLEAR_NODE.
    by rewrite (tlift_ok _ (Tq r1 _ _ _) _ _ (rb_set_parent_ok _ _ _ _ _ _ Hh a)).
  - pose proof (tq_expires _ _ _ _ Q) as He. pose proof (tq_sorted _ _ _ _ Q) as Hs.
    rewrite Eq in He, Hs. rewrite Hq. split; [done|done|..|done].
    + by rewrite A2, fmap_app.
    + apply Forall_app in He as [He1 He2]. apply Forall_app. split; [done|]. by apply Forall_cons in He2 as [_ ?].
    + by eapply StronglySorted_remove.
Qed.
End timers.
