(* ===== verification/RbProps.v ===== *)
(** * The properties of the red-black tree and of its clients *)

From S2P Require Import Prelude CStr PTree PSearch RbTree RbHeap RbWalk RbInsert RbErase RbIter.
From S2P Require Import RbMap TimerQueue.

(** ** Concrete trees for the witnesses *)
Ltac nodup := apply (bool_decide_unpack _); vm_compute; exact I.
Ltac own_ex :=
  split; [split; [nodup|repeat constructor; done|simpl; repeat split; reflexivity|done]|reflexivity].

Definition ex_tree : tree color :=
  Node (Node Leaf 16 Red Leaf) 32 Black (Node Leaf 48 Red Leaf).

Definition ex_state : rb_state :=
  RbSt {[16 := mk_cell 32 0 0 Red; 32 := mk_cell 0 16 48 Black; 48 := mk_cell 32 0 0 Red;
         64 := {| rb_parent_color := 7; rb_right := 7; rb_left := 7 |}]} 32.

Lemma ex_own : Own (mem ex_state) ex_state ex_tree.
Proof. own_ex. Qed.

Lemma ex_red_black : red_black ex_tree.
Proof. exists 1%nat. repeat econstructor. Qed.

(** The context of the free place to the right of node 48. *)
Definition ex_ctx : list (frame color) := [FR Leaf 48 Red; FR (Node Leaf 16 Red Leaf) 32 Black].

(** ** rbtree.c *)

(** C1: linking a new node into a free place of a red-black tree and
    rebalancing ([rb_link_node], [rb_insert_color]) terminates without a bad
    access, gives a red-black tree again, and puts the node at exactly that
    place of the in-order sequence; memory outside the tree is untouched. *)
Theorem rb_insert_correct F s k a :
  Own F s (plug Leaf k) → red_black (plug Leaf k) →
  is_Some (F !! a) → a ∉ addrs (plug Leaf k) → ptr a → a ≠ NULL →
  ∃ s' t', (rb_link_node a (caddr k) (hlink k);; rb_insert_color a) s = Ok ((), s') ∧
    Own F s' t' ∧ red_black t' ∧
    addrs (plug Leaf k) = cpre k ++ cpost k ∧ addrs t' = cpre k ++ a :: cpost k.
Proof.
  intros O R Fa Na Pa Na0. destruct (rb_link_node_ok F s k a O Fa Na Pa Na0) as (s1 & E1 & O1).
  destruct (rb_insert_color_ok F s1 a k O1 R) as (s2 & t' & E2 & O2 & R2 & A2).
  exists s2, t'. split; [by run E1|]. rewrite A2, !addrs_plug_split. done.
Qed.

Lemma rb_insert_correct_witness :
  ∃ s' t', (rb_link_node 64 48 (LRight 48);; rb_insert_color 64) ex_state = Ok ((), s') ∧
    Own (mem ex_state) s' t' ∧ red_black t' ∧
    addrs ex_tree = [16; 32; 48] ∧ addrs t' = [16; 32; 48; 64].
Proof.
  apply (rb_insert_correct (mem ex_state) ex_state ex_ctx 64);
    [exact ex_own|exact ex_red_black|by eexists|nodup|done|done].
Defined.

(** C2: removing any node of a red-black tree ([rb_erase], with
    [__rb_erase_color]) terminates without a bad access and leaves a
    red-black tree whose in-order sequence has lost exactly that node; the
    removed node keeps its content and memory outside the tree is untouched. *)
Theorem rb_erase_correct F s t a :
  Own F s t → red_black t → a ∈ addrs t →
  ∃ s' t' xs ys c, rb_erase a s = Ok ((), s') ∧ mem s !! a = Some c ∧
    Own (<[a := c]> F) s' t' ∧ red_black t' ∧ addrs t = xs ++ a :: ys ∧ addrs t' = xs ++ ys.
Proof.
  intros O R Ha. destruct (addrs_focus t a Ha) as (l & c & r & k & ->).
  destruct (rb_erase_ok F s l a c r k O R) as (s' & t' & xs & ys & E & O' & R' & A & A').
  exists s', t', xs, ys, (cell_of l r c k). split; [done|]. split; [|done].
  exact (proj1 (Own_has _ _ _ _ _ _ _ O)).
Qed.

Lemma rb_erase_correct_witness :
  ∃ s' t' xs ys c, rb_erase 32 ex_state = Ok ((), s') ∧ mem ex_state !! 32 = Some c ∧
    Own (<[32 := c]> (mem ex_state)) s' t' ∧ red_black t' ∧
    addrs ex_tree = xs ++ 32 :: ys ∧ addrs t' = xs ++ ys.
Proof.
  apply (rb_erase_correct (mem ex_state) ex_state ex_tree 32);
    [exact ex_own|exact ex_red_black|apply (bool_decide_unpack _); vm_compute; exact I].
Defined.

(** C40: the traversal follows the in-order sequence: [rb_first] and [rb_last]
    return its ends, [rb_next] and [rb_prev] the neighbours of a node (NULL at
    the ends), and the loop over [rb_first]/[rb_next] sees every node once. *)
Theorem rb_traversal_correct F s t xs a ys :
  Own F s t → addrs t = xs ++ a :: ys →
  rb_first s = Ok (first_addr (xs ++ a :: ys), s) ∧ rb_last s = Ok (last_addr (xs ++ a :: ys), s) ∧
  rb_next a s = Ok (first_addr ys, s) ∧ rb_prev a s = Ok (last_addr xs, s) ∧
  rb_for_each s = Ok (xs ++ a :: ys, s).
Proof.
  intros O E. rewrite <-E. split_and!.
  - by apply (rb_first_ok F). - by apply (rb_last_ok F).
  - by apply (rb_next_ok F s t xs a ys). - by apply (rb_prev_ok F s t xs a ys).
  - by apply (rb_for_each_ok F).
Qed.

Lemma rb_traversal_correct_witness :
  rb_first ex_state = Ok (16, ex_state) ∧ rb_last ex_state = Ok (48, ex_state) ∧
  rb_next 32 ex_state = Ok (48, ex_state) ∧ rb_prev 32 ex_state = Ok (16, ex_state) ∧
  rb_for_each ex_state = Ok ([16; 32; 48], ex_state).
Proof. exact (rb_traversal_correct (mem ex_state) ex_state ex_tree [16] 32 [48] ex_own eq_refl). Defined.

(** [rb_replace_node] puts a new node in the place of a node of the tree:
    same shape, same colours, the new address where the old one was; the
    victim keeps its content. *)
Theorem rb_replace_correct F s l r a y c k c0 :
  Own F s (plug (Node l a c r) k) → F !! y = Some c0 →
  y ∉ addrs (plug (Node l a c r) k) → ptr y → y ≠ NULL →
  ∃ s' v, rb_replace_node a y s = Ok ((), s') ∧ mem s !! a = Some v ∧
    Own (<[a := v]> F) s' (plug (Node l y c r) k).
Proof.
  intros O Fy Ny Py Ny0. destruct (rb_replace_node_ok F s l r a y c k c0 O Fy Ny Py Ny0) as (s' & E & O').
  eexists s', _. split; [done|]. split; [|exact O']. exact (proj1 (Own_has _ _ _ _ _ _ _ O)).
Qed.

Lemma rb_replace_correct_witness :
  ∃ s' v, rb_replace_node 32 64 ex_state = Ok ((), s') ∧ mem ex_state !! 32 = Some v ∧
    Own (<[32 := v]> (mem ex_state)) s'
      (Node (Node Leaf 16 Red Leaf) 64 Black (Node Leaf 48 Red Leaf)).
Proof.
  apply (rb_replace_correct (mem ex_state) ex_state (Node Leaf 16 Red Leaf) (Node Leaf 48 Red Leaf)
    32 64 Black [] (Rb 7 7 7)); [exact ex_own|reflexivity|nodup|done|done].
Defined.

(** [rb_augment_path] called on a node calls the function on that node and
    on every ancestor up to the root, each ancestor after both of its
    children, and returns; nothing in the tree changes. *)
Theorem rb_augment_correct {D} (func : rb_state → Z → D → D) F s l a c r k d :
  Own F s (plug (Node l a c r) k) →
  rb_augment_path func (fuel s) a d s =
    Ok (fold_left (λ d x, func s x d) (aug_trace a k) d, s) ∧
  ∀ k1 f k2, k = k1 ++ f :: k2 → ∃ pre post, aug_trace a k = pre ++ faddr f :: post ∧
    List.last (a :: map faddr k1) NULL ∈ pre ∧ (fsib f ≠ Leaf → raddr (fsib f) ∈ pre).
Proof.
  intros O. split; [|intros k1 f k2 ->; apply aug_trace_order].
  eapply rb_augment_path_ok; [exact O|]. by eapply Own_fuel_ctx.
Qed.

Lemma rb_augment_correct_witness :
  rb_augment_path (λ _ x d, d ++ [x]) (fuel ex_state) 48 [] ex_state = Ok ([48; 16; 32], ex_state).
Proof.
  exact (proj1 (rb_augment_correct (λ _ x d, d ++ [x]) (mem ex_state) ex_state Leaf 48 Red Leaf
    [FR (Node Leaf 16 Red Leaf) 32 Black] [] ex_own)).
Defined.

(** The tree and the frame determine the state. *)
Lemma Own_unique F s s' t : Own F s t → Own F s' t → s = s'.
Proof.
  intros [O E] [O' E']. destruct s as [h root], s' as [h' root']; simpl in *. f_equal; [|congruence].
  apply map_eq. intros a. destruct (decide (a ∈ addrs t)) as [Ha|Ha].
  - destruct (addrs_focus t a Ha) as (l & c & r & k & ->).
    by rewrite (owns_lookup _ _ _ _ _ _ _ O), (owns_lookup _ _ _ _ _ _ _ O').
  - by rewrite (owns_frame _ _ _ O), (owns_frame _ _ _ O').
Qed.

(** [__rb_rotate_left] turns the subtree (a p (b q c)) into ((a p b) q c)
    wherever it is in the tree, keeps the colours and every other node, and
    [__rb_rotate_right] at the new root restores the memory exactly. *)
Theorem rb_rotate_roundtrip F s a b c p q cp cq k :
  Own F s (plug (Node a p cp (Node b q cq c)) k) →
  ∃ s', __rb_rotate_left p s = Ok ((), s') ∧
    Own F s' (plug (Node (Node a p cp b) q cq c) k) ∧ __rb_rotate_right q s' = Ok ((), s).
Proof.
  intros O. destruct (rb_rotate_left_ok F s a b c p q cp cq k O) as (s1 & E1 & O1).
  destruct (rb_rotate_right_ok F s1 a b c q p cq cp k O1) as (s2 & E2 & O2).
  exists s1. split; [done|]. split; [done|]. by rewrite E2, (Own_unique F s s2 _ O O2).
Qed.

Lemma rb_rotate_roundtrip_witness :
  ∃ s', __rb_rotate_left 32 ex_state = Ok ((), s') ∧
    Own (mem ex_state) s' (Node (Node (Node Leaf 16 Red Leaf) 32 Black Leaf) 48 Red Leaf) ∧
    __rb_rotate_right 48 s' = Ok ((), ex_state).
Proof.
  exact (rb_rotate_roundtrip (mem ex_state) ex_state (Node Leaf 16 Red Leaf) Leaf Leaf 32 48 Black Red [] ex_own).
Defined.

(** ** rbtree-data.c and rbtree-test.c *)

Definition ex_data : gmap Z commqueue :=
  {[16 := Commqueue [97] 1 1; 32 := Commqueue [98] 2 2; 48 := Commqueue [99; 100] 3 3;
    64 := Commqueue [99] 4 4]}.
Definition ex_map : cst commqueue := Cst ex_state ex_data.

Lemma ex_map_ok : Map (mem ex_state) ex_map ex_tree.
Proof.
  split; [exact ex_own|exact ex_red_black|..].
  - intros a Ha. repeat (apply elem_of_cons in Ha as [->|Ha]; [eexists; split; [reflexivity|]; repeat constructor; lia|]).
    by apply elem_of_nil in Ha.
  - change (addrs ex_tree) with [16; 32; 48].
    repeat (apply SSorted_cons || apply SSorted_nil || apply Forall_cons_2 || apply Forall_nil_2);
      intros ka kb Ha Hb; vm_compute in Ha, Hb; simplify_eq; reflexivity.
Qed.

(** [search] ([my_search]) returns the node of a key, NULL for a key that
    is not in the map, after at most 2 log2(n+1) + 1 iterations of its loop. *)
Theorem search_correct F (s : cst commqueue) t seq :
  Map F s t → is_cstring seq →
  search seq s = Ok (default NULL (absmap s t !! seq), s) ∧
  search_loop (2 * Nat.log2 (S (length (addrs t))) + 1) seq (rb_root (rbs s)) s =
    Ok (default NULL (absmap s t !! seq), s).
Proof.
  intros Hm Hq. pose proof (search_ok F s t seq Hm Hq) as E. split; [done|]. rewrite <-E.
  pose proof (map_own _ _ _ Hm) as O. unfold search. run (lift_read _ s _ (get_root_ok _)).
  rewrite (proj2 O). pose proof (red_black_height t (map_rb _ _ _ Hm)).
  rewrite !(search_loop_ok F s seq t _ [] O) by (first [by intros; eapply map_kof|by eapply own_fuel_height|lia]).
  done.
Qed.

Lemma search_correct_witness :
  search [98] ex_map = Ok (32, ex_map) ∧ search_loop 5 [98] 32 ex_map = Ok (32, ex_map).
Proof.
  exact (search_correct (mem ex_state) ex_map ex_tree [98] ex_map_ok ltac:(repeat constructor; lia)).
Defined.

(** C24: [insert] ([my_insert]) of a struct whose key is in the map returns 0
    and changes nothing; otherwise it returns 1, the tree is a red-black tree
    ordered by key again, and the map has gained exactly that binding. *)
Theorem insert_correct F (s : cst commqueue) t d seq :
  Map F s t → kof s d = Some seq → is_cstring seq →
  d ∉ addrs t → is_Some (F !! d) → ptr d → d ≠ NULL →
  match absmap s t !! seq with
  | Some _ => insert d s = Ok (0, s)
  | None => ∃ s' t', insert d s = Ok (1, s') ∧ Map F s' t' ∧ data s' = data s ∧
      absmap s' t' = <[seq := d]> (absmap s t)
  end.
Proof. apply insert_ok. Qed.

Lemma insert_correct_witness :
  ∃ s' t', insert 64 ex_map = Ok (1, s') ∧ Map (mem ex_state) s' t' ∧ data s' = ex_data ∧
    absmap s' t' = <[[99] := 64]> (absmap ex_map ex_tree).
Proof.
  exact (insert_correct (mem ex_state) ex_map ex_tree 64 [99] ex_map_ok eq_refl
    ltac:(repeat constructor; lia) ltac:(nodup) ltac:(by eexists) ltac:(done) ltac:(done)).
Defined.

(** C25: erasing and freeing the node [search] found takes exactly its key out
    of the map, and the struct out of the memory. *)
Theorem erase_free_correct F (s : cst commqueue) t seq a :
  Map F s t → is_cstring seq → absmap s t !! seq = Some a →
  ∃ s' t', (d ← search seq; erase_free d) s = Ok ((), s') ∧ Map (delete a F) s' t' ∧
    data s' = delete a (data s) ∧ absmap s' t' = delete seq (absmap s t).
Proof.
  intros Hm Hq L. run (search_ok F s t seq Hm Hq). rewrite L. simpl. by apply erase_free_ok.
Qed.

Lemma erase_free_correct_witness :
  ∃ s' t', (d ← search [98]; erase_free d) ex_map = Ok ((), s') ∧
    Map (delete 32 (mem ex_state)) s' t' ∧ data s' = delete 32 ex_data ∧
    absmap s' t' = delete [98] (absmap ex_map ex_tree).
Proof.
  exact (erase_free_correct (mem ex_state) ex_map ex_tree [98] 32 ex_map_ok
    ltac:(repeat constructor; lia) eq_refl).
Defined.

(** ** rbtree-list.c *)

Definition ex_queue : tq :=
  Tq ex_state {[16 := 5; 32 := 7; 48 := 7; 64 := 3]} 16 ∅.

Lemma ex_queue_ok : TQ (mem ex_state) ex_queue ex_tree [(16, 5); (32, 7); (48, 7)].
Proof.
  split; [exact ex_own|exact ex_red_black|reflexivity|repeat constructor|repeat constructor; simpl; lia|reflexivity].
Qed.

(** C28: [timerqueue_add] inserts a timer after the queued timers that expire
    no later (timers with equal expiry fire in the order they were added),
    keeps the tree a red-black tree, and [timerqueue_getnext] returns the
    first timer of the new queue. *)
Theorem timerqueue_add_correct F s t q d e :
  TQ F s t q → expires s !! d = Some e → d ∉ addrs t → is_Some (F !! d) → ptr d → d ≠ NULL →
  ∃ s' t', timerqueue_add d s = Ok ((), s') ∧ TQ F s' t' (enqueue (d, e) q) ∧
    timerqueue_getnext s' = Ok (first_addr ((enqueue (d, e) q).*1), s').
Proof.
  intros Q Ed Nd Fd Pd Nd0.
  destruct (timerqueue_add_ok F s t q Q d e Ed Nd Fd Pd Nd0) as (s' & t' & E & Q' & _).
  exists s', t'. split; [done|]. split; [done|].
  unfold timerqueue_getnext, gets. by rewrite (tq_next _ _ _ _ Q').
Qed.

Lemma timerqueue_add_correct_witness :
  ∃ s' t', timerqueue_add 64 ex_queue = Ok ((), s') ∧
    TQ (mem ex_state) s' t' [(64, 3); (16, 5); (32, 7); (48, 7)] ∧
    timerqueue_getnext s' = Ok (64, s').
Proof.
  exact (timerqueue_add_correct (mem ex_state) ex_queue ex_tree [(16, 5); (32, 7); (48, 7)] 64 3
    ex_queue_ok eq_refl ltac:(nodup) ltac:(by eexists) ltac:(done) ltac:(done)).
Defined.

(** [timerqueue_del] of a queued timer takes exactly that timer out of
    the queue, leaves it marked as not queued (RB_EMPTY_NODE), and keeps the
    pointer to the next timer at the head of the queue. *)
Theorem timerqueue_del_correct F s t q a :
  TQ F s t q → a ∈ addrs t →
  ∃ s' t' c, timerqueue_del a s = Ok ((), s') ∧ TQ (<[a := c]> F) s' t' (dequeue a q) ∧
    timerqueue_getnext s' = Ok (first_addr ((dequeue a q).*1), s') ∧
    RB_EMPTY_NODE a (trb s') = Ok (true, trb s').
Proof.
  intros Q Ha. destruct (timerqueue_del_ok F s t q Q a Ha) as (s' & t' & c & E & Q' & Na & Hc & _).
  exists s', t', c. split; [done|]. split; [done|]. split.
  - unfold timerqueue_getnext, gets. by rewrite (tq_next _ _ _ _ Q').
  - destruct Hc as (l & r & k & ->).
    assert (Hh : has (trb s') a a l r k).
    { split; [|pose proof (owns_ok _ _ _ (proj1 (tq_own _ _ _ _ Q))) as Ho; rewrite Forall_forall in Ho; by apply Ho].
      rewrite (owns_frame _ _ _ (proj1 (tq_own _ _ _ _ Q')) a Na). apply lookup_insert_eq. }
    unfold RB_EMPTY_NODE. run (rb_parent_ok _ _ _ _ _ _ Hh). by rewrite Z.eqb_refl.
Qed.

Lemma timerqueue_del_correct_witness :
  ∃ s' t' c, timerqueue_del 16 ex_queue = Ok ((), s') ∧
    TQ (<[16 := c]> (mem ex_state)) s' t' [(32, 7); (48, 7)] ∧
    timerqueue_getnext s' = Ok (32, s') ∧ RB_EMPTY_NODE 16 (trb s') = Ok (true, trb s').
Proof.
  apply (timerqueue_del_correct (mem ex_state) ex_queue ex_tree [(16, 5); (32, 7); (48, 7)] 16 ex_queue_ok).
  apply (bool_decide_unpack _); vm_compute; exact I.
Defined.
