(* ===== verification/Splay.v ===== *)
(** * The splay tree of splay.c

    [Insert], [Find] and [Erase] move the node they end at to the root with
    [Splay].  The tree is a search tree without duplicates in the global
    variable [root]. *)

From S2P Require Import Prelude PTree PSearch PJoin PHeap.

(** [struct Node]: [l], [r], [p] are the pointers, [v] the data. *)
Notation sst := (pst Z).

Definition rightRotate (P : Z) : M sst unit :=
  T ← get_l P;
  B ← get_r T;
  D ← get_p P;
  (if D =? NULL then mret ()
   else Dr ← get_r D; if Dr =? P then set_r D T else set_l D T);;
  (if B =? NULL then mret () else set_p B P);;
  set_p T D;;
  set_r T P;;
  set_p P T;;
  set_l P B.

Definition leftRotate (P : Z) : M sst unit :=
  T ← get_r P;
  B ← get_l T;
  D ← get_p P;
  (if D =? NULL then mret ()
   else Dr ← get_r D; if Dr =? P then set_r D T else set_l D T);;
  (if B =? NULL then mret () else set_p B P);;
  set_p T D;;
  set_l T P;;
  set_p P T;;
  set_r P B.

Fixpoint Splay_loop (n : nat) (T : Z) : M sst unit :=
  match n with
  | O => fail Fuel
  | S n =>
      p ← get_p T;
      if p =? NULL then mret () else
      pp ← get_p p;
      if pp =? NULL then
        pl ← get_l p;
        if pl =? T then rightRotate p else leftRotate p
      else
        ppl ← get_l pp;
        (if ppl =? p then
           pl ← get_l p;
           if pl =? T then rightRotate pp;; rightRotate p else leftRotate p;; rightRotate pp
         else
           pl ← get_l p;
           if pl =? T then rightRotate p;; leftRotate pp else leftRotate pp;; leftRotate p);;
        Splay_loop n T
  end.

Definition Splay (T : Z) : M sst unit := λ s,
  (Splay_loop (pfuel s) T;; set_groot T) s.

(** [malloc] and the initialisation of a node, with the store through the
    pointer [root], [P->l] or [P->r] that precedes it. *)
Definition new_node (v par : Z) (link : Z → M sst unit) : M sst Z :=
  a ← malloc;
  link a;;
  set_p a par;;
  set_r a NULL;;
  set_l a NULL;;
  set_d a v;;
  mret a.

(** The loop of [Insert]; it returns the node to splay. *)
Fixpoint Insert_loop (n : nat) (v P : Z) : M sst Z :=
  match n with
  | O => fail Fuel
  | S n =>
      Pv ← get_d P;
      if Pv =? v then mret P else
      if v <? Pv then
        l ← get_l P;
        if l =? NULL then new_node v P (set_l P) else Insert_loop n v l
      else
        r ← get_r P;
        if r =? NULL then new_node v P (set_r P) else Insert_loop n v r
  end.

Definition Insert (v : Z) : M sst unit := λ s,
  (root ← get_groot;
   if root =? NULL then new_node v NULL set_groot;; mret ()
   else P ← Insert_loop (pfuel s) v root; Splay P) s.

(** [Inorder]: the values it prints after "v:". *)
Fixpoint Inorder (n : nat) (R : Z) : M sst (list Z) :=
  match n with
  | O => fail Fuel
  | S n =>
      if R =? NULL then mret [] else
      l ← get_l R; vl ← Inorder n l;
      v ← get_d R;
      r ← get_r R; vr ← Inorder n r;
      mret (vl ++ v :: vr)
  end.

(** The loop of [Find]; it returns the last node visited. *)
Fixpoint Find_loop (n : nat) (v P : Z) : M sst Z :=
  match n with
  | O => fail Fuel
  | S n =>
      if P =? NULL then mret P else
      Pv ← get_d P;
      if Pv =? v then mret P else
      if v <? Pv then l ← get_l P; if l =? NULL then mret P else Find_loop n v l
      else r ← get_r P; if r =? NULL then mret P else Find_loop n v r
  end.

Definition Find (v : Z) : M sst Z := λ s,
  (root ← get_groot;
   if root =? NULL then mret NULL else
   P ← Find_loop (pfuel s) v root;
   Splay P;;
   Pv ← get_d P;
   mret (if Pv =? v then P else NULL)) s.

(** [while (P->r) P = P->r;] *)
Fixpoint go_max (n : nat) (P : Z) : M sst Z :=
  match n with
  | O => fail Fuel
  | S n => r ← get_r P; if r =? NULL then mret P else go_max n r
  end.

Definition Erase (v : Z) : M sst Z := λ s,
  (N ← Find v;
   if N =? NULL then mret 0 else
   Splay N;;
   P ← get_l N;
   if P =? NULL then
     Nr ← get_r N;
     set_groot Nr;;
     root ← get_groot; set_p root NULL;;
     free N;;
     mret 1
   else
     P ← go_max (pfuel s) P;
     Nr ← get_r N;
     (if Nr =? NULL then mret ()
      else set_r P Nr;; Nr' ← get_r N; set_p Nr' P);;
     Nl ← get_l N; set_groot Nl;;
     root ← get_groot; set_p root NULL;;
     free N;;
     mret 1) s.

(** ** Rotations *)
Section rotations.
Context (F : gmap Z (pnode Z)) (s : sst) (a b c : tree Z) (p q dp dq : Z).
Context (k : list (frame Z)).

Lemma leftRotate_ok :
  POwn F s (plug (Node a p dp (Node b q dq c)) k) →
  ∃ s', leftRotate p s = Ok ((), s') ∧ POwn F s' (plug (Node (Node a p dp b) q dq c) k) ∧
        groot s' = groot s ∧ pool s' = pool s.
Proof.
  intros O. destruct (rot_neq F (nodes s) p q a b c _ k O eq_refl) as (Npq & Np & Nq & Nb & Nk).
  pose proof (POwn_has _ _ _ _ _ _ _ O) as Hp.
  pose proof (POwn_has F s b q dq c (FR a p dp :: k) O) as Hq.
  assert (Hb : ∀ bl x cx br, b = Node bl x cx br → phas s x q (raddr bl) (raddr br) cx).
  { intros bl x cx br ->. exact (POwn_has F s bl x cx br (FL q dq c :: FR a p dp :: k) O). }
  assert (Hf : ∀ f k', k = f :: k' → pfhas s (caddr k') p f ∧ p ≠ raddr (fsib f)).
  { intros f k' ->. split; [exact (POwn_parent _ _ _ _ _ O)|by eapply owns_sibling_ne]. }
  pose proof (λ h', owns_rotate_left F (nodes s) h' a p dp b q dq c k dp dq O) as R.
  clear O. unfold leftRotate. cbn [raddr] in *.
  destruct b as [|bl x cx br];
    [|destruct Nb as (? & ? & ?); [done|]; specialize (Hb _ _ _ _ eq_refl)];
  (destruct k as [|[g cg gr|gl g cg] k'];
    [|destruct Nk as (? & ? & ? & N); [done|]; destruct (Hf _ _ eq_refl) as [Hg Ng];
      try specialize (N ltac:(done)) ..]);
  cbn [raddr caddr faddr fdata fsib pfhas] in *; pgo;
    (eexists; split; [eapply set_r_ok; phs|]);
    (split; [apply R; prot|done]).
Qed.

Lemma rightRotate_ok :
  POwn F s (plug (Node (Node a q dq b) p dp c) k) →
  ∃ s', rightRotate p s = Ok ((), s') ∧ POwn F s' (plug (Node a q dq (Node b p dp c)) k) ∧
        groot s' = groot s ∧ pool s' = pool s.
Proof.
  intros O. destruct (rot_neq F (nodes s) q p a b c _ k O) as (Npq & Nq & Np & Nb & Nk).
  { simpl. by rewrite <-app_assoc. }
  pose proof (POwn_has _ _ _ _ _ _ _ O) as Hp.
  pose proof (POwn_has F s a q dq b (FL p dp c :: k) O) as Hq.
  assert (Hb : ∀ bl x cx br, b = Node bl x cx br → phas s x q (raddr bl) (raddr br) cx).
  { intros bl x cx br ->. exact (POwn_has F s bl x cx br (FR a q dq :: FL p dp c :: k) O). }
  assert (Hf : ∀ f k', k = f :: k' → pfhas s (caddr k') p f ∧ p ≠ raddr (fsib f)).
  { intros f k' ->. split; [exact (POwn_parent _ _ _ _ _ O)|by eapply owns_sibling_ne]. }
  pose proof (λ h', owns_rotate_right F (nodes s) h' a q dq b p dp c k dp dq O) as R.
  clear O. unfold rightRotate. cbn [raddr] in *.
  destruct b as [|bl x cx br];
    [|destruct Nb as (? & ? & ?); [done|]; specialize (Hb _ _ _ _ eq_refl)];
  (destruct k as [|[g cg gr|gl g cg] k'];
    [|destruct Nk as (? & ? & ? & N); [done|]; destruct (Hf _ _ eq_refl) as [Hg Ng];
      try specialize (N ltac:(done)) ..]);
  cbn [raddr caddr faddr fdata fsib pfhas] in *; pgo;
    (eexists; split; [eapply set_l_ok; phs|]);
    (split; [apply R; prot|done]).
Qed.
End rotations.

(** ** Splaying *)

(** What an operation that only moves nodes keeps. *)
Definition moved (F : gmap Z (pnode Z)) (s s' : sst) (t t' : tree Z) : Prop :=
  POwn F s' t' ∧ items t' = items t ∧ groot s' = groot s ∧ pool s' = pool s.

Section splaying.
Context (F : gmap Z (pnode Z)).

(** The tests on the place of [T] below its parent [p]. *)
Lemma child_test s l T d r f k :
  POwn F s (plug (Node l T d r) (f :: k)) →
  ∃ x, get_l (faddr f) s = Ok (x, s) ∧ (x =? T) = (match f with FL _ _ _ => true | FR _ _ _ => false end).
Proof.
  intros O. pose proof (POwn_parent _ _ _ _ _ O) as Hf. pose proof (owns_sibling_ne _ _ _ _ _ _ _ _ O) as Hs.
  destruct f; simpl in *; (eexists; split; [by eapply get_l_ok|]); lia.
Qed.

Lemma zig s l T d r f :
  POwn F s (plug (Node l T d r) [f]) →
  ∃ s' l' r', (if match f with FL _ _ _ => true | FR _ _ _ => false end
               then rightRotate (faddr f) else leftRotate (faddr f)) s = Ok ((), s') ∧
    moved F s s' (plug (Node l T d r) [f]) (Node l' T d r').
Proof.
  intros O. destruct f as [p dp c|a p dp]; simpl in *.
  - destruct (rightRotate_ok F s l r c p T dp d [] O) as (s' & E & O' & ? & ?).
    exists s', l, (Node r p dp c). split; [done|]. split_and!; [done| |done..]. flat.
  - destruct (leftRotate_ok F s a l r p T dp d [] O) as (s' & E & O' & ? & ?).
    exists s', (Node a p dp l), r. split; [done|]. split_and!; [done| |done..]. flat.
Qed.

Lemma zigzig s l T d r f g k :
  POwn F s (plug (Node l T d r) (f :: g :: k)) →
  ∃ s' l' r',
    (if match g with FL _ _ _ => true | FR _ _ _ => false end
     then if match f with FL _ _ _ => true | FR _ _ _ => false end
          then rightRotate (faddr g);; rightRotate (faddr f)
          else leftRotate (faddr f);; rightRotate (faddr g)
     else if match f with FL _ _ _ => true | FR _ _ _ => false end
          then rightRotate (faddr f);; leftRotate (faddr g)
          else leftRotate (faddr g);; leftRotate (faddr f)) s = Ok ((), s') ∧
    moved F s s' (plug (Node l T d r) (f :: g :: k)) (plug (Node l' T d r') k).
Proof.
  intros O. destruct g as [q dq e|e q dq], f as [p dp c|a p dp]; cbn [faddr].
  - destruct (rightRotate_ok F s (Node l T d r) c e q p dq dp k O) as (s1 & E1 & O1 & ? & ?).
    destruct (rightRotate_ok F s1 l r (Node c q dq e) p T dp d k O1) as (s2 & E2 & O2 & ? & ?).
    eexists s2, _, _. split; [by run E1|]. split_and!; [exact O2| |congruence..].
    simpl. apply items_plug_ext. flat.
  - destruct (leftRotate_ok F s a l r p T dp d (FL q dq e :: k) O) as (s1 & E1 & O1 & ? & ?).
    destruct (rightRotate_ok F s1 (Node a p dp l) r e q T dq d k O1) as (s2 & E2 & O2 & ? & ?).
    eexists s2, _, _. split; [by run E1|]. split_and!; [exact O2| |congruence..].
    simpl. apply items_plug_ext. flat.
  - destruct (rightRotate_ok F s l r c p T dp d (FR e q dq :: k) O) as (s1 & E1 & O1 & ? & ?).
    destruct (leftRotate_ok F s1 e l (Node r p dp c) q T dq d k O1) as (s2 & E2 & O2 & ? & ?).
    eexists s2, _, _. split; [by run E1|]. split_and!; [exact O2| |congruence..].
    simpl. apply items_plug_ext. flat.
  - destruct (leftRotate_ok F s e a (Node l T d r) q p dq dp k O) as (s1 & E1 & O1 & ? & ?).
    destruct (leftRotate_ok F s1 (Node e q dq a) l r p T dp d k O1) as (s2 & E2 & O2 & ? & ?).
    eexists s2, _, _. split; [by run E1|]. split_and!; [exact O2| |congruence..].
    simpl. apply items_plug_ext. flat.
Qed.

Lemma Splay_loop_ok n : ∀ s l T d r k,
  POwn F s (plug (Node l T d r) k) → (length k < n)%nat →
  ∃ s' l' r', Splay_loop n T s = Ok ((), s') ∧
    moved F s s' (plug (Node l T d r) k) (Node l' T d r').
Proof.
  induction n as [|n IH]; intros s l T d r k O Hn; [lia|].
  pose proof (POwn_has _ _ _ _ _ _ _ O) as HT. cbn [Splay_loop]. prd.
  destruct k as [|f k]; [by exists s, l, r|]. cbn [caddr].
  rewrite (proj2 (Z.eqb_neq _ _) (POwn_frame_nonnull _ _ _ _ _ O)).
  destruct (child_test s l T d r f k O) as (x & Ex & Tx).
  assert (Ep : get_p (faddr f) s = Ok (caddr k, s)).
  { pose proof (POwn_parent _ _ _ _ _ O) as Hf. destruct f; simpl in *; by eapply get_p_ok. }
  run Ep. destruct k as [|g k]; cbn [caddr].
  - rewrite Z.eqb_refl. run Ex. rewrite Tx. apply (zig s l T d r f O).
  - assert (Op : POwn F s (plug (fill f (Node l T d r)) (g :: k))) by exact O.
    rewrite (proj2 (Z.eqb_neq _ _) (POwn_frame_nonnull _ _ _ _ _ Op)).
    assert (∃ y, get_l (faddr g) s = Ok (y, s) ∧
      (y =? faddr f) = (match g with FL _ _ _ => true | FR _ _ _ => false end)) as (y & Ey & Ty).
    { destruct f; exact (child_test s _ _ _ _ g k Op). }
    run Ey. rewrite Ty.
    destruct (zigzig s l T d r f g k O) as (s1 & l1 & r1 & E1 & O1 & I1 & G1 & P1).
    destruct (IH s1 l1 T d r1 k O1) as (s2 & l2 & r2 & E2 & O2 & I2 & G2 & P2); [simpl in Hn; lia|].
    exists s2, l2, r2. split; [|split_and!; [done|by rewrite I2|congruence..]].
    rewrite <-E2. destruct g, f; run Ex; rewrite Tx; exact (bind_ok _ (λ _, Splay_loop n T) _ _ _ E1).
Qed.

Lemma Splay_ok s l T d r k :
  POwn F s (plug (Node l T d r) k) →
  ∃ s' l' r', Splay T s = Ok ((), s') ∧ POwn F s' (Node l' T d r') ∧
    items (Node l' T d r') = items (plug (Node l T d r) k) ∧ groot s' = T ∧ pool s' = pool s.
Proof.
  intros O. destruct (Splay_loop_ok (pfuel s) s l T d r k O) as (s1 & l' & r' & E & O1 & I1 & _ & P1).
  { by eapply POwn_depth. }
  exists (PSt (nodes s1) T (pool s1)), l', r'. split; [|done].
  unfold Splay. by run E.
Qed.
End splaying.

(** ** The operations *)
Definition vals (t : tree Z) : list Z := (items t).*2.

(** The tree of the program: its root in [root], increasing values. *)
Record Tree (F : gmap Z (pnode Z)) (s : sst) (t : tree Z) : Prop := {
  tree_own : POwn F s t;
  tree_root : groot s = raddr t;
  tree_sorted : StronglySorted Z.lt (vals t);
}.

(** The last node a walk visits. *)
Definition walk_end (tk : tree Z * list (frame Z)) : Z :=
  match tk with (Leaf, k) => caddr k | (Node _ a _ _, _) => a end.

Notation cmp v := (λ (_ : Z) (x : Z), v ?= x).

Section operations.
Context (F : gmap Z (pnode Z)).

Lemma cmp_spec v x : match v ?= x with
  | Eq => (x =? v) = true
  | Lt => (x =? v) = false ∧ (v <? x) = true
  | Gt => (x =? v) = false ∧ (v <? x) = false end.
Proof. destruct (Z.compare_spec v x); lia. Qed.

Lemma Find_loop_ok s v t : ∀ n k, t ≠ Leaf → POwn F s (plug t k) → (height t < n)%nat →
  Find_loop n v (raddr t) s = Ok (walk_end (locate (cmp v) t k), s).
Proof.
  induction t as [|l IHl a x r IHr]; intros n k Nt O Hn; [done|].
  destruct n as [|n]; [lia|]. cbn [Find_loop raddr locate]. simpl in Hn.
  pose proof (POwn_nonnull _ _ _ _ _ _ _ O) as Na. pose proof (POwn_has _ _ _ _ _ _ _ O) as Ha.
  prd. pose proof (cmp_spec v x) as C. destruct (v ?= x).
  - by rewrite C.
  - destruct C as [-> ->]. prd. pose proof (POwn_null F s l (FL a x r :: k) O) as Hl.
    destruct (Z.eqb_spec (raddr l) NULL) as [E|E].
    + apply Hl in E as ->. done.
    + apply IHl; [tauto|done|lia].
  - destruct C as [-> ->]. prd. pose proof (POwn_null F s r (FR l a x :: k) O) as Hr.
    destruct (Z.eqb_spec (raddr r) NULL) as [E|E].
    + apply Hr in E as ->. done.
    + apply IHr; [tauto|done|lia].
Qed.

(** Linking a new node below the parent of an empty place. *)
Lemma new_node_ok s v f k a c pl :
  POwn F s (plug Leaf (f :: k)) → pool s = (a, c) :: pl → a ≠ NULL → a ∉ addrs (plug Leaf (f :: k)) →
  ∃ s', new_node v (faddr f) (match f with FL g _ _ => set_l g | FR _ g _ => set_r g end) s = Ok (a, s') ∧
    POwn F s' (plug (Node Leaf a v Leaf) (f :: k)) ∧ groot s' = groot s ∧ pool s' = pl.
Proof.
  intros O Ep Na Nin. destruct c as [x y z w].
  assert (Nc : a ∉ caddrs (f :: k)) by (rewrite addrs_plug in Nin; set_solver).
  pose proof (POwn_parent _ _ _ _ _ O) as Hf.
  pose proof (λ h', owns_graft F (nodes s) h' (f :: k) a v O Na Nc) as G.
  assert (Ng : faddr f ≠ a) by (simpl in Nc; set_solver).
  unfold new_node. run (malloc_ok s a x y z w pl Ep).
  destruct f as [g dg gr|gl g dg]; cbn [faddr pfhas raddr] in *; pgo.
  all: eexists; split; [reflexivity|]; split; [|done].
  all: apply G; [plookup|prot|intros b N1 N2; specialize (N2 ltac:(done)); plookup].
Qed.

Lemma Insert_loop_ok s v t : ∀ n k, t ≠ Leaf → POwn F s (plug t k) → (height t < n)%nat →
  match locate (cmp v) t k with
  | (Node _ a _ _, _) => Insert_loop n v (raddr t) s = Ok (a, s)
  | (Leaf, k') => ∀ a c pl, pool s = (a, c) :: pl → a ≠ NULL → a ∉ addrs (plug t k) →
      ∃ s', Insert_loop n v (raddr t) s = Ok (a, s') ∧
        POwn F s' (plug (Node Leaf a v Leaf) k') ∧ groot s' = groot s ∧ pool s' = pl
  end.
Proof.
  induction t as [|l IHl a x r IHr]; intros n k Nt O Hn; [done|].
  destruct n as [|n]; [lia|]. cbn [raddr locate]. simpl in Hn.
  pose proof (POwn_has _ _ _ _ _ _ _ O) as Ha. pose proof (cmp_spec v x) as C.
  destruct (v ?= x).
  - cbn [Insert_loop]. prd. by rewrite C.
  - destruct C as [C1 C2]. destruct (decide (l = Leaf)) as [->|El].
    + simpl. intros b c pl Ep Nb Nin.
      destruct (new_node_ok s v (FL a x r) k b c pl O Ep Nb Nin) as (s' & E & ?).
      exists s'. split; [|done]. prd. rewrite C1, C2. prd. exact E.
    + assert (Nl : raddr l ≠ NULL) by (by rewrite (POwn_null F s l (FL a x r :: k) O)).
      assert (E : Insert_loop (S n) v a s = Insert_loop n v (raddr l) s).
      { cbn [Insert_loop]. prd. rewrite C1, C2. by prd. }
      rewrite E. exact (IHl n (FL a x r :: k) El O ltac:(lia)).
  - destruct C as [C1 C2]. destruct (decide (r = Leaf)) as [->|Er].
    + simpl. intros b c pl Ep Nb Nin.
      destruct (new_node_ok s v (FR l a x) k b c pl O Ep Nb Nin) as (s' & E & ?).
      exists s'. split; [|done]. prd. rewrite C1, C2. prd. exact E.
    + assert (Nr : raddr r ≠ NULL) by (by rewrite (POwn_null F s r (FR l a x :: k) O)).
      assert (E : Insert_loop (S n) v a s = Insert_loop n v (raddr r) s).
      { cbn [Insert_loop]. prd. rewrite C1, C2. by prd. }
      rewrite E. exact (IHr n (FR l a x :: k) Er O ltac:(lia)).
Qed.

(** Where the walk for [v] ends. *)
Lemma walk_place t v : StronglySorted Z.lt (vals t) →
  match locate (cmp v) t [] with
  | (Node l a x r, k) => t = plug (Node l a x r) k ∧ x = v
  | (Leaf, k) => t = plug Leaf k ∧ v ∉ vals t ∧
      Forall (λ x, x.2 < v) (ipre k) ∧ Forall (λ x, v < x.2) (ipost k)
  end.
Proof.
  intros Hs. pose proof (locate_plug (cmp v) t []) as Hp. pose proof (locate_end (cmp v) t []) as He.
  destruct (locate_cut (cmp v) t []) as [H1 H2]; [|constructor..|].
  { pose proof (proj1 (walkable_fmap (Z.compare v) snd (items t)) (compare_walkable v _ Hs)) as W.
    eapply StronglySorted_weaken; [|exact W]. by intros [] [] _ _. }
  destruct (locate (cmp v) t []) as [[|l a x r] k]; simpl in *.
  - split; [done|]. rewrite <-Hp. unfold vals. rewrite items_plug_split. simpl.
    assert (Forall (λ x, x.2 < v) (ipre k)) as G1.
    { eapply Forall_impl; [exact H1|]. simpl. intros x. by rewrite Z.compare_gt_iff. }
    assert (Forall (λ x, v < x.2) (ipost k)) as G2.
    { eapply Forall_impl; [exact H2|]. simpl. intros x. by rewrite Z.compare_lt_iff. }
    split; [|done]. rewrite Forall_forall in G1, G2.
    intros (x & -> & [Hx|Hx]%elem_of_app)%list_elem_of_fmap; [specialize (G1 x Hx)|specialize (G2 x Hx)]; lia.
  - destruct He as [?|(? & ? & ? & ? & [= <- <- <- <-] & E)]; [done|]. apply Z.compare_eq in E. done.
Qed.

Lemma vals_items t t' : items t' = items t → vals t' = vals t.
Proof. unfold vals. by intros ->. Qed.

Lemma items_in (l r : tree Z) a x k : (a, x) ∈ items (plug (Node l a x r) k).
Proof. rewrite items_plug_split. simpl. set_solver +. Qed.

Lemma Find_ok s t v : Tree F s t →
  ∃ s' t' res, Find v s = Ok (res, s') ∧ Tree F s' t' ∧ items t' = items t ∧ pool s' = pool s ∧
    ((v ∉ vals t ∧ res = NULL) ∨ (∃ l r, t' = Node l res v r)).
Proof.
  intros [O R S]. pose proof (walk_place t v S) as W. unfold Find.
  assert (Eg : get_groot s = Ok (raddr t, s)) by (unfold get_groot, gets; by rewrite R).
  run Eg. destruct (decide (t = Leaf)) as [->|Nt].
  { exists s, Leaf, NULL. split; [done|]. split; [done|]. split; [done|]. split; [done|]. left. split; [set_solver +|done]. }
  rewrite (proj2 (Z.eqb_neq _ _)) by (by rewrite (POwn_null F s t [] O)).
  run (Find_loop_ok s v t _ [] Nt O (POwn_height _ _ _ O)).
  destruct (locate (cmp v) t []) as [[|l a x r] k]; simpl walk_end.
  - destruct W as (Et & Nv & _). destruct k as [|f k]; [done|].
    assert (∃ l d r, fill f Leaf = Node l (faddr f) d r) as (l & d & r & Ef) by (destruct f; simpl; eauto).
    assert (Et' : t = plug (Node l (faddr f) d r) k) by (rewrite <-Ef; exact Et).
    rewrite Et' in O. destruct (Splay_ok F s l (faddr f) d r k O) as (s1 & l' & r' & E & O1 & I1 & G1 & P1).
    rewrite <-Et' in I1. exists s1, (Node l' (faddr f) d r'), NULL. cbn [caddr]. run E.
    pose proof (POwn_has F s1 l' (faddr f) d r' [] O1) as Hd. prd.
    assert (d ≠ v).
    { intros ->. apply Nv. unfold vals. rewrite <-I1. simpl. rewrite fmap_app. set_solver +. }
    prd. split; [done|]. split; [split; [done|done|by rewrite (vals_items t)]|]. eauto 10.
  - destruct W as [Et ->]. rewrite Et in O.
    destruct (Splay_ok F s l a v r k O) as (s1 & l' & r' & E & O1 & I1 & G1 & P1).
    rewrite <-Et in I1. exists s1, (Node l' a v r'), a. run E.
    pose proof (POwn_has F s1 l' a v r' [] O1) as Hd. prd.
    split; [done|]. split; [split; [done|done|by rewrite (vals_items t)]|]. eauto 10.
Qed.

Lemma new_root_ok s v a c pl :
  POwn F s Leaf → pool s = (a, c) :: pl → a ≠ NULL →
  ∃ s', new_node v NULL set_groot s = Ok (a, s') ∧ POwn F s' (Node Leaf a v Leaf) ∧
    groot s' = a ∧ pool s' = pl.
Proof.
  intros O Ep Na. destruct c as [x y z w]. unfold new_node. run (malloc_ok s a x y z w pl Ep).
  assert (Eg : set_groot a (pupd (PSt (nodes s) (groot s) pl) a x y z w) =
    Ok ((), pupd (PSt (nodes s) a pl) a x y z w)) by done.
  run Eg. pgo. eexists. split; [reflexivity|]. split; [|done].
  apply (owns_graft F (nodes s) _ [] a v O Na); [set_solver +|plookup|prot|].
  intros b Nb _. plookup.
Qed.

Lemma sorted_insert k v a : StronglySorted Z.lt (vals (plug Leaf k)) →
  Forall (λ x, x.2 < v) (ipre k) → Forall (λ x, v < x.2) (ipost k) →
  StronglySorted Z.lt (vals (plug (Node Leaf a v Leaf) k)).
Proof.
  unfold vals. rewrite !items_plug_split. simpl. rewrite !fmap_app. csimpl. intros S H1 H2.
  apply StronglySorted_insert; [done|..]; by apply Forall_fmap.
Qed.

Lemma Insert_ok s t v a c pl : Tree F s t → pool s = (a, c) :: pl → a ≠ NULL → a ∉ addrs t →
  ∃ s' t', Insert v s = Ok ((), s') ∧ Tree F s' t' ∧ (∃ l b r, t' = Node l b v r) ∧
    ((v ∈ vals t ∧ items t' = items t ∧ pool s' = pool s) ∨
     (v ∉ vals t ∧ pool s' = pl ∧ ∃ i1 i2, items t = i1 ++ i2 ∧ items t' = i1 ++ (a, v) :: i2)).
Proof.
  intros [O R S] Ep Na Nin. pose proof (walk_place t v S) as W. unfold Insert.
  assert (Eg : get_groot s = Ok (raddr t, s)) by (unfold get_groot, gets; by rewrite R).
  run Eg. destruct (decide (t = Leaf)) as [->|Nt].
  { destruct (new_root_ok s v a c pl O Ep Na) as (s' & E & O' & G' & P').
    exists s', (Node Leaf a v Leaf). simpl. split; [by run E|]. split; [split; [done|done|repeat constructor]|].
    split; [eauto|]. right. split; [set_solver +|]. split; [done|]. by exists [], []. }
  rewrite (proj2 (Z.eqb_neq _ _)) by (by rewrite (POwn_null F s t [] O)).
  pose proof (Insert_loop_ok s v t (pfuel s) [] Nt O (POwn_height _ _ _ O)) as L.
  destruct (locate (cmp v) t []) as [[|l b x r] k].
  - destruct W as (Et & Nv & H1 & H2). destruct (L a c pl Ep Na Nin) as (s1 & E1 & O1 & G1 & P1).
    destruct (Splay_ok F s1 Leaf a v Leaf k O1) as (s2 & l' & r' & E2 & O2 & I2 & G2 & P2).
    exists s2, (Node l' a v r'). split; [by run E1|]. split; [|split; [eauto|right]].
    + split; [done|done|]. rewrite (vals_items _ _ I2). apply sorted_insert; [by rewrite <-Et|done..].
    + split; [done|]. split; [congruence|]. exists (ipre k), (ipost k).
      rewrite I2, Et, !items_plug_split. done.
  - destruct W as [Et ->]. rewrite Et in O.
    destruct (Splay_ok F s l b v r k O) as (s1 & l' & r' & E & O1 & I1 & G1 & P1). rewrite <-Et in I1.
    exists s1, (Node l' b v r'). split; [by run L|].
    split; [split; [done|done|by rewrite (vals_items t)]|]. split; [eauto|left].
    split; [|done]. unfold vals. rewrite Et. apply list_elem_of_fmap. exists (b, v). split; [done|apply items_in].
Qed.

Lemma go_max_ok s kl : ∀ n l p d k,
  Forall is_FR kl → POwn F s (plug (Node l p d Leaf) (kl ++ k)) → (length kl < n)%nat →
  go_max n (raddr (plug (Node l p d Leaf) kl)) s = Ok (p, s).
Proof.
  induction kl as [|f kl IH] using rev_ind; intros n l p d k Hf O Hn; (destruct n as [|n]; [simpl in Hn; lia|]).
  - pose proof (POwn_has _ _ _ _ _ _ _ O) as H. simpl. by prd.
  - rewrite Forall_app, Forall_singleton in Hf. destruct Hf as [Hf Hf1].
    destruct f as [|rl ra dr]; [done|]. rewrite length_app in Hn. simpl in Hn.
    rewrite <-app_assoc in O. rewrite plug_app. simpl. pose proof O as O'. rewrite plug_app in O'.
    assert (Hnn : raddr (plug (Node l p d Leaf) kl) ≠ NULL).
    { intros E. apply (POwn_null F s _ (FR rl ra dr :: k) O') in E.
      destruct (plug_node l p d Leaf kl) as (? & ? & ? & ? & E'). congruence. }
    pose proof (POwn_has F s rl ra dr _ k O') as H. prd. apply (IH n l p d (FR rl ra dr :: k)); [done..|lia].
Qed.

(** Erasing the root: the part of [Erase] after the second [Splay]. *)
Definition erase_end (N : Z) : M sst Z :=
  Nl ← get_l N; set_groot Nl;; root ← get_groot; set_p root NULL;; free N;; mret 1.
Definition erase_root (n : nat) (N : Z) : M sst Z :=
  P ← get_l N;
  if P =? NULL then
    Nr ← get_r N; set_groot Nr;; root ← get_groot; set_p root NULL;; free N;; mret 1
  else
    P ← go_max n P;
    Nr ← get_r N;
    (if Nr =? NULL then mret () else set_r P Nr;; Nr' ← get_r N; set_p Nr' P);;
    erase_end N.

Lemma set_groot_ok (s : sst) x : set_groot x s = Ok ((), PSt (nodes s) x (pool s)).
Proof. done. Qed.
Lemma get_groot_ok (s : sst) : get_groot s = Ok (groot s, s).
Proof. done. Qed.
Lemma free_ok (s : sst) p par l r d : phas s p par l r d →
  free p s = Ok ((), PSt (delete p (nodes s)) (groot s) (pool s)).
Proof. unfold phas, free. by intros ->. Qed.

Lemma erase_root_right s n N v rl x dx rr :
  let r := Node rl x dx rr in
  POwn F s (Node Leaf N v r) →
  ∃ s', erase_root n N s = Ok (1, s') ∧ POwn (delete N F) s' r ∧ groot s' = x ∧ pool s' = pool s.
Proof.
  intros r O. pose proof (POwn_has F s Leaf N v r [] O) as HN.
  pose proof (POwn_has F s rl x dx rr [FR Leaf N v] O) as Hx. simpl in HN, Hx.
  pose proof (owns_nodup _ _ _ O) as Hn. simpl in Hn. assert (Nx : N ≠ x) by nd.
  unfold erase_root. prd. run (set_groot_ok s x). run (get_groot_ok (PSt (nodes s) x (pool s))).
  change (phas (PSt (nodes s) x (pool s)) N NULL NULL x v) in HN.
  change (phas (PSt (nodes s) x (pool s)) x N (raddr rl) (raddr rr) dx) in Hx. simpl groot.
  pgo. erewrite bind_ok; [|eapply free_ok; phs].
  eexists. split; [reflexivity|]. split; [|done].
  assert (Nr : N ∉ addrs r) by (simpl; nd).
  eapply owns_delete in Nr; [|eapply (owns_splice F (nodes s) (nodes (pupd s x NULL (raddr rl) (raddr rr) dx)) Leaf N v r r [] O)].
  - rewrite delete_insert_eq in Nr. exact Nr.
  - by left.
  - plookup.
  - intros ? ? ? ? [= <- <- <- <-]. plookup.
  - intros ? ? [=].
  - intros y N1 N2 _. specialize (N2 ltac:(done)). simpl in N2. plookup.
Qed.

(** Running the end of [Erase] on a memory [s] whose left subtree has root [la]. *)
Lemma erase_end_ok (s : sst) N v la par l r d NR :
  phas s N NULL la NR v → phas s la par l r d → N ≠ la →
  erase_end N s = Ok (1, PSt (delete N (nodes (pupd s la NULL l r d))) la (pool s)).
Proof.
  intros HN Hla Nl. unfold erase_end. prd. run (set_groot_ok s la). run (get_groot_ok (PSt (nodes s) la (pool s))).
  change (phas (PSt (nodes s) la (pool s)) N NULL la NR v) in HN.
  change (phas (PSt (nodes s) la (pool s)) la par l r d) in Hla. simpl groot.
  pgo. erewrite bind_ok; [|eapply free_ok; phs]. done.
Qed.

Lemma join_right s N v pl p dp kl r tl x dx tr :
  let l := plug (Node pl p dp Leaf) kl in
  POwn F s (Node l N v r) → r = Node tl x dx tr →
  phas s x N (raddr tl) (raddr tr) dx ∧ x ≠ NULL ∧ x ≠ N ∧ x ≠ p ∧ x ≠ raddr l.
Proof.
  intros l O ->. pose proof (join_nodup _ _ _ _ _ _ _ _ _ O) as Hd. simpl in Hd.
  split; [exact (POwn_has F s tl x dx tr [FR l N v] O)|].
  split; [exact (POwn_nonnull F s tl x dx tr [FR l N v] O)|].
  split; [nd|]. split; [nd|].
  destruct (join_root p dp pl kl) as [[_ E]|[_ E]]; fold l in E; [rewrite E; nd|nd].
Qed.

(** The memory after [owns_join] and [free]. *)
Ltac join_heap HN J :=
  match type of HN with phas _ ?N _ ?L ?NR ?v =>
    match goal with |- POwn (delete N ?F) _ _ =>
      rewrite <-(delete_insert_eq F N (PN NULL L NR v)); apply owns_delete; [|done] end end;
  apply J; clear J;
  try (intros ? ? ? ? ? [= <- <- <- <-]); try (intros ? ? ? ? [= <- <- <- <-]);
  try (intros ? ? ? ? Hz; try specialize (Hz ltac:(done))); try intros;
  plookup.

Lemma erase_root_left s n N v pl p dp kl r :
  let l := plug (Node pl p dp Leaf) kl in
  Forall is_FR kl → (length kl < n)%nat → POwn F s (Node l N v r) →
  ∃ s', erase_root n N s = Ok (1, s') ∧ POwn (delete N F) s' (plug (Node pl p dp r) kl) ∧
    groot s' = raddr l ∧ pool s' = pool s.
Proof.
  intros l Hkl Hn O. pose proof (POwn_has F s l N v r [] O) as HN.
  pose proof (λ F' h', owns_join F F' (nodes s) h' N p v dp pl r kl O) as J.
  pose proof (join_nodup _ _ _ _ _ _ _ _ _ O) as Hd.
  assert (O1 : POwn F s (plug (Node pl p dp Leaf) (kl ++ [FL N v r]))) by (by rewrite plug_app).
  pose proof (go_max_ok s kl n pl p dp [FL N v r] Hkl O1 Hn) as Hgo.
  pose proof (POwn_has F s pl p dp Leaf (kl ++ [FL N v r]) O1) as Hp.
  assert (Hl : raddr l ≠ NULL).
  { intros E. apply (POwn_null F s _ [FL N v r] O) in E.
    destruct (plug_node pl p dp Leaf kl) as (? & ? & ? & ? & E'). unfold l in E. congruence. }
  pose proof (λ tl x dx tr, join_right s N v pl p dp kl r tl x dx tr O) as Hr. fold l in Hr.
  assert (NN : N ∉ addrs (plug (Node pl p dp r) kl)).
  { rewrite addrs_plug. simpl. nd. }
  unfold erase_root. simpl in HN. fold l in Hgo. prd. run Hgo.
  destruct kl as [|f kl _] using rev_ind.
  - simpl in l, Hp. subst l. simpl in *. assert (NNp : N ≠ p) by nd.
    destruct r as [|rl x dx rr]; [|destruct (Hr _ _ _ _ eq_refl) as (Hx & Nx0 & NxN & Nxp & _)]; simpl in *; pgo.
    all: erewrite (erase_end_ok _ N v p N (raddr pl) _ dp _) by first [phs|done].
    all: eexists; split; [reflexivity|]; split; [|done].
    all: join_heap HN J.
  - assert (∃ ll la dla, f = FR ll la dla) as (ll & la & dla & ->).
    { rewrite Forall_app, Forall_singleton in Hkl. destruct Hkl as [_ ?]. destruct f; [done|eauto]. }
    assert (El : l = Node ll la dla (plug (Node pl p dp Leaf) kl)) by (unfold l; by rewrite plug_app).
    assert (Hla : phas s la N (raddr ll) (raddr (plug (Node pl p dp Leaf) kl)) dla).
    { rewrite El in O. exact (POwn_has F s ll la dla _ [FL N v r] O). }
    change (plug (Node pl p dp Leaf) (kl ++ [FR ll la dla])) with l in J.
    assert (Ec : caddrs (kl ++ [FR ll la dla]) = caddrs kl ++ la :: addrs ll ++ []) by (by rewrite caddrs_app).
    rewrite Ec in Hd. assert (N ≠ p ∧ N ≠ la ∧ p ≠ la) as (N1 & N2 & N3) by (split_and!; nd).
    assert (Er : raddr l = la) by (by rewrite El). rewrite Er in *. clear Hd Ec O O1 Hl Hgo.
    assert (Hc : caddr ((kl ++ [FR ll la dla]) ++ [FL N v r]) = caddr (kl ++ [FR ll la dla])) by (by destruct kl).
    rewrite Hc in Hp. set (cp := caddr (kl ++ _)) in *. clearbody cp.
    destruct r as [|rl x dx rr]; [|destruct (Hr _ _ _ _ eq_refl) as (Hx & Nx0 & NxN & Nxp & Nxl)]; simpl in *; pgo.
    all: erewrite (erase_end_ok _ N v la N (raddr ll) _ dla _) by first [phs|done].
    all: eexists; split; [reflexivity|]; split; [|done].
    all: rewrite El in J; join_heap HN J.
Qed.

Lemma erase_root_ok s n N v l r :
  POwn F s (Node l N v r) → (length (items (Node l N v r)) < n)%nat → ¬ (l = Leaf ∧ r = Leaf) →
  ∃ s' t', erase_root n N s = Ok (1, s') ∧ POwn (delete N F) s' t' ∧ groot s' = raddr t' ∧
    pool s' = pool s ∧ items t' = items l ++ items r.
Proof.
  intros O Hn Nlr. destruct (decide (l = Leaf)) as [->|Nl].
  - destruct r as [|rl x dx rr]; [naive_solver|].
    destruct (erase_root_right s n N v rl x dx rr O) as (s' & E & O' & G' & P').
    by exists s', (Node rl x dx rr).
  - destruct (rightmost l Nl) as (pl & p & dp & kl & -> & Hkl).
    destruct (erase_root_left s n N v pl p dp kl r Hkl) as (s' & E & O' & G' & P'); [|done|].
    { rewrite <-(length_fmap fst), items_addrs in Hn. simpl in Hn. rewrite length_app in Hn.
      pose proof (length_caddrs kl). rewrite addrs_plug, length_app in Hn. lia. }
    exists s', (plug (Node pl p dp r) kl). split; [done|]. split; [done|].
    split; [rewrite G'; apply raddr_plug_ext; by right|]. split; [done|].
    rewrite !items_plug_split. simpl.
    assert (ipost kl = []) as ->; [|by rewrite !app_nil_r, <-!app_assoc].
    clear -Hkl. induction Hkl as [|[] ? ? ? IH]; done.
Qed.

Lemma erase_root_empty s n N v : POwn F s (Node Leaf N v Leaf) → nodes s !! NULL = None →
  erase_root n N s = Err Segv.
Proof.
  intros O H0. pose proof (POwn_has F s Leaf N v Leaf [] O) as HN. simpl in HN.
  unfold erase_root. prd. run (set_groot_ok s NULL). run (get_groot_ok (PSt (nodes s) NULL (pool s))).
  apply bind_err. unfold set_p. apply bind_err. unfold pload. simpl. by rewrite H0.
Qed.

(** What [Find] and the second [Splay] leave for [erase_root]. *)
Lemma Erase_start s t v : Tree F s t →
  (v ∉ vals t ∧ ∃ s' t', Erase v s = Ok (0, s') ∧ Tree F s' t' ∧ items t' = items t) ∨
  (∃ s' l N r, Erase v s = erase_root (pfuel s) N s' ∧ POwn F s' (Node l N v r) ∧
     items (Node l N v r) = items t ∧ pool s' = pool s).
Proof.
  intros HT. destruct (Find_ok s t v HT) as (s1 & t1 & res & E1 & [O1 R1 S1] & I1 & P1 & C).
  destruct C as [[Nv ->]|(l & r & ->)].
  - left. split; [done|]. exists s1, t1. split; [unfold Erase; by run E1|done].
  - right. destruct (Splay_ok F s1 l res v r [] O1) as (s2 & l' & r' & E2 & O2 & I2 & G2 & P2).
    exists s2, l', res, r'. split; [|split; [done|split; [by rewrite I2|congruence]]].
    unfold Erase. run E1. pose proof (POwn_nonnull F s1 l res v r [] O1) as Nr.
    rewrite (proj2 (Z.eqb_neq _ _) Nr). by run E2.
Qed.

Lemma Erase_ok s t v : Tree F s t → v ∈ vals t → (2 ≤ length (vals t))%nat →
  ∃ s' t' N i1 i2, Erase v s = Ok (1, s') ∧ Tree (delete N F) s' t' ∧ pool s' = pool s ∧
    items t = i1 ++ (N, v) :: i2 ∧ items t' = i1 ++ i2.
Proof.
  intros HT Hv Hlen. destruct (Erase_start s t v HT) as [[? _]|(s1 & l & N & r & E & O & I & P)]; [done|].
  destruct (erase_root_ok s1 (pfuel s) N v l r O) as (s2 & t' & E2 & O2 & G2 & P2 & I2).
  - rewrite I, <-(length_fmap fst), items_addrs. unfold pfuel.
    pose proof (owns_length _ _ _ (tree_own _ _ _ HT)). lia.
  - intros [-> ->]. unfold vals in Hlen. rewrite <-I in Hlen. simpl in Hlen. lia.
  - exists s2, t', N, (items l), (items r). split; [by rewrite E|].
    split; [|split; [congruence|by rewrite <-I, I2]]. split; [done|done|].
    pose proof (tree_sorted _ _ _ HT) as S. unfold vals in *. rewrite <-I in S. rewrite I2.
    simpl in S. rewrite fmap_app in S |- *. by eapply StronglySorted_remove.
Qed.
End operations.

Lemma Inorder_ok F s t : ∀ n k, POwn F s (plug t k) → (height t < n)%nat →
  Inorder n (raddr t) s = Ok (vals t, s).
Proof.
  induction t as [|l IHl a x r IHr]; intros n k O Hn; (destruct n as [|n]; [simpl in Hn; lia|]); [done|].
  simpl in Hn. cbn [Inorder raddr]. pose proof (POwn_nonnull _ _ _ _ _ _ _ O) as Na.
  pose proof (POwn_has _ _ _ _ _ _ _ O) as Ha. prd.
  run (IHl n (FL a x r :: k) O ltac:(lia)). prd. run (IHr n (FR l a x :: k) O ltac:(lia)).
  unfold vals. simpl. by rewrite fmap_app.
Qed.

(** ** Properties *)

(** A tree of three nodes: 2 at the root, 1 and 3 below it. *)
Definition ex_tree3 : tree Z := Node (Node Leaf 10 1 Leaf) 20 2 (Node Leaf 30 3 Leaf).
Definition ex_splay : sst :=
  PSt {[10 := PN 20 0 0 1; 20 := PN 0 10 30 2; 30 := PN 20 0 0 3]} 20 [(40, PN 9 9 9 9)].

Lemma ex_splay_ok : Tree (nodes ex_splay) ex_splay ex_tree3.
Proof.
  split; [|done|repeat constructor; lia]. split.
  - apply (bool_decide_unpack _); vm_compute; exact I.
  - repeat constructor; done.
  - simpl; repeat split; reflexivity.
  - done.
Qed.

(** C7: [Splay] moves a node at any depth to the root: it terminates without a
    bad access, sets [root] to the node, and keeps the in-order sequence of
    nodes and values. *)
Theorem Splay_correct F s l T d r k :
  POwn F s (plug (Node l T d r) k) →
  ∃ s' l' r', Splay T s = Ok ((), s') ∧ POwn F s' (Node l' T d r') ∧
    items (Node l' T d r') = items (plug (Node l T d r) k) ∧ groot s' = T ∧ pool s' = pool s.
Proof. apply Splay_ok. Qed.

Lemma Splay_correct_witness :
  ∃ s' l' r', Splay 30 ex_splay = Ok ((), s') ∧ POwn (nodes ex_splay) s' (Node l' 30 3 r') ∧
    items (Node l' 30 3 r') = [(10, 1); (20, 2); (30, 3)] ∧ groot s' = 30 ∧
    pool s' = [(40, PN 9 9 9 9)].
Proof.
  exact (Splay_correct (nodes ex_splay) ex_splay Leaf 30 3 Leaf [FR (Node Leaf 10 1 Leaf) 20 2]
    (tree_own _ _ _ ex_splay_ok)).
Defined.

(** C34: [Insert] of a value that is in the tree keeps the nodes; of a new value
    it adds one node, at its place in the order; in both cases the tree stays
    ordered and the node of the value is at the root. *)
Theorem Insert_correct F s t v a c pl :
  Tree F s t → pool s = (a, c) :: pl → a ≠ NULL → a ∉ addrs t →
  ∃ s' t', Insert v s = Ok ((), s') ∧ Tree F s' t' ∧ (∃ l b r, t' = Node l b v r) ∧
    ((v ∈ vals t ∧ items t' = items t ∧ pool s' = pool s) ∨
     (v ∉ vals t ∧ pool s' = pl ∧ ∃ i1 i2, items t = i1 ++ i2 ∧ items t' = i1 ++ (a, v) :: i2)).
Proof. apply Insert_ok. Qed.

Lemma Insert_correct_witness :
  ∃ s' t', Insert 5 ex_splay = Ok ((), s') ∧ Tree (nodes ex_splay) s' t' ∧
    (∃ l b r, t' = Node l b 5 r) ∧
    ((5 ∈ [1; 2; 3] ∧ items t' = items ex_tree3 ∧ pool s' = pool ex_splay) ∨
     (5 ∉ [1; 2; 3] ∧ pool s' = [] ∧ ∃ i1 i2, items ex_tree3 = i1 ++ i2 ∧ items t' = i1 ++ (40, 5) :: i2)).
Proof.
  apply (Insert_correct (nodes ex_splay) ex_splay ex_tree3 5 40 (PN 9 9 9 9) [] ex_splay_ok); [done|done|].
  apply (bool_decide_unpack _); vm_compute; exact I.
Defined.

(** [Find] returns the node of a value and brings it to the root, or returns
    NULL for a value that is not in the tree; the nodes and their order stay. *)
Theorem Find_correct F s t v :
  Tree F s t →
  ∃ s' t' res, Find v s = Ok (res, s') ∧ Tree F s' t' ∧ items t' = items t ∧ pool s' = pool s ∧
    ((v ∉ vals t ∧ res = NULL) ∨ (∃ l r, t' = Node l res v r)).
Proof. apply Find_ok. Qed.

Lemma Find_correct_witness :
  ∃ s' t' res, Find 3 ex_splay = Ok (res, s') ∧ Tree (nodes ex_splay) s' t' ∧
    items t' = items ex_tree3 ∧ pool s' = pool ex_splay ∧
    ((3 ∉ [1; 2; 3] ∧ res = NULL) ∨ (∃ l r, t' = Node l res 3 r)).
Proof. exact (Find_correct (nodes ex_splay) ex_splay ex_tree3 3 ex_splay_ok). Defined.

(** C35: [Erase] of a value in a tree of at least two nodes returns 1, takes
    exactly its node out of the ordered sequence and frees it; of a value that
    is not in the tree it returns 0 and keeps the nodes. *)
Theorem Erase_correct F s t v :
  Tree F s t → (2 ≤ length (vals t))%nat →
  ∃ s' t' res, Erase v s = Ok (res, s') ∧
    ((v ∉ vals t ∧ res = 0 ∧ Tree F s' t' ∧ items t' = items t) ∨
     (res = 1 ∧ ∃ N i1 i2, Tree (delete N F) s' t' ∧ nodes s' !! N = None ∧
        items t = i1 ++ (N, v) :: i2 ∧ items t' = i1 ++ i2)).
Proof.
  intros HT Hlen. destruct (decide (v ∈ vals t)) as [Hv|Hv].
  - destruct (Erase_ok F s t v HT Hv Hlen) as (s' & t' & N & i1 & i2 & E & HT' & P & I1 & I2).
    exists s', t', 1. split; [done|]. right. split; [done|]. exists N, i1, i2. split; [done|]. split; [|done].
    rewrite (owns_frame _ _ _ (tree_own _ _ _ HT')); [apply lookup_delete_eq|].
    pose proof (owns_nodup _ _ _ (tree_own _ _ _ HT)) as Hn. rewrite <-items_addrs, I1, fmap_app in Hn.
    rewrite <-items_addrs, I2, fmap_app. csimpl in Hn. nd.
  - destruct (Erase_start F s t v HT) as [(_ & s' & t' & E & HT' & I)|(s1 & l & N & r & _ & _ & I & _)].
    + exists s', t', 0. split; [done|]. by left.
    + destruct Hv. unfold vals. rewrite <-I. simpl. rewrite fmap_app. set_solver +.
Qed.

Lemma Erase_correct_witness :
  ∃ s' t' res, Erase 2 ex_splay = Ok (res, s') ∧
    ((2 ∉ [1; 2; 3] ∧ res = 0 ∧ Tree (nodes ex_splay) s' t' ∧ items t' = items ex_tree3) ∨
     (res = 1 ∧ ∃ N i1 i2, Tree (delete N (nodes ex_splay)) s' t' ∧ nodes s' !! N = None ∧
        items ex_tree3 = i1 ++ (N, 2) :: i2 ∧ items t' = i1 ++ i2)).
Proof. apply (Erase_correct (nodes ex_splay) ex_splay ex_tree3 2 ex_splay_ok). simpl. lia. Defined.

(** [Erase] of the only value of a tree dereferences a null pointer
    ([root->p] after [root] has become NULL). *)
Theorem Erase_last_crash F s N v :
  Tree F s (Node Leaf N v Leaf) → nodes s !! NULL = None → Erase v s = Err Segv.
Proof.
  intros HT H0.
  destruct (Erase_start F s _ v HT) as [[Nv _]|(s1 & l & N' & r & E & O & I & _)].
  - destruct Nv. change (v ∈ [v]). set_solver +.
  - destruct l as [|? ? ? ?]; [destruct r as [|? ? ? ?]|].
    + rewrite E. apply (erase_root_empty F s1 _ N' v O).
      rewrite (owns_frame _ _ _ O). 2: { simpl in *. simplify_eq. apply POwn_nonnull with (k := []) in O. set_solver. }
      rewrite <-(owns_frame _ _ _ (tree_own _ _ _ HT)); [done|].
      simpl in *. simplify_eq. apply POwn_nonnull with (k := []) in O. set_solver.
    + apply (f_equal length) in I. simpl in I. rewrite !length_app in I. simpl in I. lia.
    + apply (f_equal length) in I. simpl in I. rewrite !length_app in I. simpl in I. lia.
Qed.

Lemma Erase_last_crash_witness :
  Erase 7 (PSt {[8 := PN 0 0 0 7]} 8 []) = Err Segv.
Proof.
  apply (Erase_last_crash {[8 := PN 0 0 0 7]} _ 8 7); [|done].
  split; [|done|repeat constructor]. split; [|repeat constructor; done|repeat split|done].
  apply (bool_decide_unpack _); vm_compute; exact I.
Defined.
