(* ===== verification/Avl.v ===== *)
(** * The AVL tree of avltree.c

    [insert] walks down to the place of a value, adds a node, and walks back
    up to the root; at every ancestor it recomputes the stored height and
    rotates where the heights of the children differ by two. *)

From S2P Require Import Prelude PTree PSearch PHeap.

(** [struct node]: [left], [right] and [parent] are the pointers of the
    memory, [val] and [height] the data. *)
Record adata := AD { val : Z; hgt : Z }.
Notation ast := (pst adata).

Definition max (a b : Z) : Z := if a >? b then a else b.

Fixpoint find (n : nat) (root v : Z) : M ast Z :=
  match n with
  | O => fail Fuel
  | S n =>
      if root =? NULL then mret NULL else
      d ← get_d root;
      if v <? val d then l ← get_l root; find n l v
      else if v >? val d then r ← get_r root; find n r v
      else mret root
  end.

Definition height (root : Z) : M ast Z :=
  if root =? NULL then mret 0 else d ← get_d root; mret (hgt d).

Definition adjust_height (root : Z) : M ast unit :=
  l ← get_l root; hl ← height l;
  r ← get_r root; hr ← height r;
  d ← get_d root;
  set_d root (AD (val d) (1 + max hl hr)).

Definition rotate_right (root : Z) : M ast Z :=
  new_root ← get_l root;
  p ← get_p root;
  (if p =? NULL then mret ()
   else pl ← get_l p; if pl =? root then set_l p new_root else set_r p new_root);;
  p ← get_p root; set_p new_root p;;
  set_p root new_root;;
  nr ← get_r new_root; set_l root nr;;
  rl ← get_l root;
  (if rl =? NULL then mret () else set_p rl root);;
  set_r new_root root;;
  adjust_height root;;
  adjust_height new_root;;
  mret new_root.

Definition rotate_left (root : Z) : M ast Z :=
  new_root ← get_r root;
  p ← get_p root;
  (if p =? NULL then mret ()
   else pr ← get_r p; if pr =? root then set_r p new_root else set_l p new_root);;
  p ← get_p root; set_p new_root p;;
  set_p root new_root;;
  nl ← get_l new_root; set_r root nl;;
  rr ← get_r root;
  (if rr =? NULL then mret () else set_p rr root);;
  set_l new_root root;;
  adjust_height root;;
  adjust_height new_root;;
  mret new_root.

Definition make_node (v parent : Z) : M ast Z :=
  n ← malloc;
  d ← get_d n; set_d n (AD v (hgt d));;
  set_p n parent;;
  d ← get_d n; set_d n (AD (val d) 1);;
  set_l n NULL;;
  set_r n NULL;;
  mret n.

Definition balance (root : Z) : M ast Z :=
  l ← get_l root; hl ← height l;
  r ← get_r root; hr ← height r;
  if hl - hr >? 1 then
    ll ← get_l l; hll ← height ll;
    lr ← get_r l; hlr ← height lr;
    if hll >? hlr then rotate_right root
    else rotate_left l;; rotate_right root
  else if hr - hl >? 1 then
    rr ← get_r r; hrr ← height rr;
    rl ← get_l r; hrl ← height rl;
    if hrr >? hrl then rotate_left root
    else rotate_right r;; rotate_left root
  else mret root.

(** The first loop of [insert]: it returns the node that has the value. *)
Fixpoint insert_walk (n : nat) (v current : Z) : M ast Z :=
  match n with
  | O => fail Fuel
  | S n =>
      d ← get_d current;
      if val d =? v then mret current else
      if v <? val d then
        l ← get_l current;
        if l =? NULL then
          a ← make_node v current; set_l current a;; l' ← get_l current; insert_walk n v l'
        else insert_walk n v l
      else
        r ← get_r current;
        if r =? NULL then
          a ← make_node v current; set_r current a;; r' ← get_r current; insert_walk n v r'
        else insert_walk n v r
  end.

(** The [do ... while] loop. *)
Fixpoint insert_up (n : nat) (current : Z) : M ast Z :=
  match n with
  | O => fail Fuel
  | S n =>
      current ← get_p current;
      adjust_height current;;
      current ← balance current;
      p ← get_p current;
      if p =? NULL then mret current else insert_up n current
  end.

Definition insert (root v : Z) : M ast Z := λ s,
  (current ← insert_walk (S (pfuel s)) v root;
   insert_up (pfuel s) current) s.

(** ** Heights and rotations *)

(** The height stored at the root of a tree. *)
Definition sh (t : tree adata) : Z := match t with Leaf => 0 | Node _ _ d _ => hgt d end.

Definition adj (l : tree adata) (d : adata) (r : tree adata) : adata :=
  AD (val d) (1 + Z.max (sh l) (sh r)).

Lemma max_ok a b : max a b = Z.max a b.
Proof. unfold max. destruct (Z.gtb_spec a b); lia. Qed.

Section heights.
Context (F : gmap Z (pnode adata)).

Lemma height_ok s t k : POwn F s (plug t k) → height (raddr t) s = Ok (sh t, s).
Proof.
  intros O. destruct t as [|l a d r]; [done|]. unfold height. simpl.
  pose proof (POwn_nonnull _ _ _ _ _ _ _ O) as Na. pose proof (POwn_has _ _ _ _ _ _ _ O) as Ha. by prd.
Qed.

Lemma adjust_height_ok s l a d r k : POwn F s (plug (Node l a d r) k) →
  ∃ s', adjust_height a s = Ok ((), s') ∧ POwn F s' (plug (Node l a (adj l d r) r) k) ∧
    pool s' = pool s.
Proof.
  intros O. pose proof (POwn_has _ _ _ _ _ _ _ O) as Ha.
  pose proof (height_ok s l (FL a d r :: k) O) as Hl. pose proof (height_ok s r (FR l a d :: k) O) as Hr.
  unfold adjust_height. prd. run Hl. prd. run Hr. prd. rewrite max_ok.
  eexists. split; [eapply set_d_ok; phs|]. split; [|done].
  exact (owns_set_data F (nodes s) l a d (adj l d r) r k O).
Qed.

Ltac avl_rotation O b k Nb Nk Hb Hf :=
  destruct b as [|bl x cx br];
    [|destruct Nb as (? & ? & ?); [done|]; specialize (Hb _ _ _ _ eq_refl)];
  (destruct k as [|[g cg gr|gl g cg] k'];
    [|destruct Nk as (? & ? & ? & N); [done|]; destruct (Hf _ _ eq_refl) as [Hg Ng];
      try specialize (N ltac:(done)) ..]);
  cbn [raddr caddr faddr fdata fsib pfhas] in *; pgo.

Section rotations.
Context (s : ast) (a b c : tree adata) (p q : Z) (dp dq : adata) (k : list (frame adata)).

Lemma rotate_left_ok :
  POwn F s (plug (Node a p dp (Node b q dq c)) k) →
  let dp' := adj a dp b in
  ∃ s', rotate_left p s = Ok (q, s') ∧
    POwn F s' (plug (Node (Node a p dp' b) q (adj (Node a p dp' b) dq c) c) k) ∧ pool s' = pool s.
Proof.
  intros O dp'.
  assert (∃ s1, rotate_left p s = (adjust_height p;; adjust_height q;; mret q) s1 ∧
    POwn F s1 (plug (Node (Node a p dp b) q dq c) k) ∧ pool s1 = pool s) as (s1 & E1 & O1 & P1).
  { destruct (rot_neq F (nodes s) p q a b c _ k O eq_refl) as (Npq & Np & Nq & Nb & Nk).
    pose proof (POwn_has _ _ _ _ _ _ _ O) as Hp.
    pose proof (POwn_has F s b q dq c (FR a p dp :: k) O) as Hq.
    assert (Hb : ∀ bl x cx br, b = Node bl x cx br → phas s x q (raddr bl) (raddr br) cx).
    { intros bl x cx br ->. exact (POwn_has F s bl x cx br (FL q dq c :: FR a p dp :: k) O). }
    assert (Hf : ∀ f k', k = f :: k' → pfhas s (caddr k') p f ∧ p ≠ raddr (fsib f)).
    { intros f k' ->. split; [exact (POwn_parent _ _ _ _ _ O)|by eapply owns_sibling_ne]. }
    pose proof (λ h', owns_rotate_left F (nodes s) h' a p dp b q dq c k dp dq O) as R.
    clear O. unfold rotate_left. avl_rotation O b k Nb Nk Hb Hf.
    all: eexists; split; [reflexivity|]; split; [apply R; prot|done]. }
  destruct (adjust_height_ok s1 a p dp b (FL q dq c :: k) O1) as (s2 & E2 & O2 & P2).
  destruct (adjust_height_ok s2 (Node a p dp' b) q dq c k O2) as (s3 & E3 & O3 & P3).
  exists s3. split; [|split; [done|congruence]]. rewrite E1. run E2. by run E3.
Qed.

Lemma rotate_right_ok :
  POwn F s (plug (Node (Node a q dq b) p dp c) k) →
  let dp' := adj b dp c in
  ∃ s', rotate_right p s = Ok (q, s') ∧
    POwn F s' (plug (Node a q (adj a dq (Node b p dp' c)) (Node b p dp' c)) k) ∧ pool s' = pool s.
Proof.
  intros O dp'.
  assert (∃ s1, rotate_right p s = (adjust_height p;; adjust_height q;; mret q) s1 ∧
    POwn F s1 (plug (Node a q dq (Node b p dp c)) k) ∧ pool s1 = pool s) as (s1 & E1 & O1 & P1).
  { destruct (rot_neq F (nodes s) q p a b c _ k O) as (Npq & Nq & Np & Nb & Nk).
    { simpl. by rewrite <-app_assoc. }
    pose proof (POwn_has _ _ _ _ _ _ _ O) as Hp.
    pose proof (POwn_has F s a q dq b (FL p dp c :: k) O) as Hq.
    assert (Hb : ∀ bl x cx br, b = Node bl x cx br → phas s x q (raddr bl) (raddr br) cx).
    { intros bl x cx br ->. exact (POwn_has F s bl x cx br (FR a q dq :: FL p dp c :: k) O). }
    assert (Hf : ∀ f k', k = f :: k' → pfhas s (caddr k') p f ∧ p ≠ raddr (fsib f)).
    { intros f k' ->. split; [exact (POwn_parent _ _ _ _ _ O)|by eapply owns_sibling_ne]. }
    pose proof (λ h', owns_rotate_right F (nodes s) h' a q dq b p dp c k dp dq O) as R.
    clear O. unfold rotate_right. avl_rotation O b k Nb Nk Hb Hf.
    all: eexists; split; [reflexivity|]; split; [apply R; prot|done]. }
  destruct (adjust_height_ok s1 b p dp c (FR a q dq :: k) O1) as (s2 & E2 & O2 & P2).
  destruct (adjust_height_ok s2 a q dq (Node b p dp' c) k O2) as (s3 & E3 & O3 & P3).
  exists s3. split; [|split; [done|congruence]]. rewrite E1. run E2. by run E3.
Qed.
End rotations.
End heights.

(** ** The AVL invariant *)
Fixpoint avl (t : tree adata) : Prop :=
  match t with
  | Leaf => True
  | Node l _ d r => avl l ∧ avl r ∧ hgt d = 1 + Z.max (sh l) (sh r) ∧ Z.abs (sh l - sh r) <= 1
  end.

(** A context whose hole takes an AVL tree of height [H]. *)
Fixpoint actx (k : list (frame adata)) (H : Z) : Prop :=
  match k with
  | [] => True
  | f :: k => avl (fsib f) ∧ Z.abs (H - sh (fsib f)) <= 1 ∧
      hgt (fdata f) = 1 + Z.max H (sh (fsib f)) ∧ actx k (hgt (fdata f))
  end.

(** The nodes with their values, in order. *)
Definition entries (t : tree adata) : list (Z * Z) := (λ x, (x.1, val x.2)) <$> items t.

Definition uneven (t : tree adata) : Prop :=
  match t with Leaf => False | Node l _ _ r => sh l ≠ sh r end.

Lemma avl_sh t : avl t → 0 <= sh t ∧ (t = Leaf ∨ 1 <= sh t).
Proof.
  induction t as [|l IHl a d r IHr]; simpl; [intros; split; [lia|by left]|].
  intros (Hl & Hr & E & _). specialize (IHl Hl). specialize (IHr Hr). split; [lia|right; lia].
Qed.

Lemma avl_plug t k : avl t → actx k (sh t) → avl (plug t k).
Proof.
  revert t. induction k as [|f k IH]; intros t Ht Hk; simpl in *; [done|].
  destruct Hk as (Hs & Hb & Hh & Hk). apply IH.
  - destruct f; simpl in *; split_and!; try done; lia.
  - by destruct f.
Qed.

Lemma avl_unplug t k : avl (plug t k) → avl t ∧ actx k (sh t).
Proof.
  revert t. induction k as [|f k IH]; intros t H; simpl in *; [done|].
  apply IH in H as [H Hk]. destruct f; simpl in *; destruct H as (? & ? & ? & ?); split_and!; try done; lia.
Qed.

Lemma entries_plug t t' k : entries t = entries t' → entries (plug t k) = entries (plug t' k).
Proof. unfold entries. rewrite !items_plug_split, !fmap_app. by intros ->. Qed.

Lemma entries_node l a d r : entries (Node l a d r) = entries l ++ (a, val d) :: entries r.
Proof. unfold entries. simpl. by rewrite fmap_app. Qed.

Ltac same_entries :=
  rewrite !entries_node; unfold adj; cbn [val app];
  repeat (rewrite <-app_assoc; cbn [app]); reflexivity.

(** [t] has been rebalanced to [t']. *)
Definition balanced F s k (t t' : tree adata) (s' : ast) : Prop :=
  POwn F s' (plug t' k) ∧ avl t' ∧ entries t' = entries t ∧ pool s' = pool s.

(** Rebalancing a node whose children are AVL trees. *)
Section balance.
Context (F : gmap Z (pnode adata)) (s : ast) (l r : tree adata) (a : Z) (d : adata).
Context (k : list (frame adata)).
Context (O : POwn F s (plug (Node l a d r) k)) (Hl : avl l) (Hr : avl r).
Context (Hd : hgt d = 1 + Z.max (sh l) (sh r)).

Lemma balance_none : Z.abs (sh l - sh r) <= 1 → balance a s = Ok (a, s).
Proof.
  intros Hb. pose proof (POwn_has _ _ _ _ _ _ _ O) as Ha.
  pose proof (height_ok F s l (FL a d r :: k) O) as El. pose proof (height_ok F s r (FR l a d :: k) O) as Er.
  unfold balance. prd. run El. prd. run Er.
  destruct (Z.gtb_spec (sh l - sh r) 1); [lia|]. by destruct (Z.gtb_spec (sh r - sh l) 1); [lia|].
Qed.

Lemma balance_left : sh l = sh r + 2 → uneven l →
  ∃ s' t', balance a s = Ok (raddr t', s') ∧ balanced F s k (Node l a d r) t' s' ∧ sh t' = sh l.
Proof.
  intros Hb Hu. pose proof (POwn_has _ _ _ _ _ _ _ O) as Ha.
  pose proof (height_ok F s l (FL a d r :: k) O) as El. pose proof (height_ok F s r (FR l a d :: k) O) as Er.
  destruct l as [|ll x dx lr]; [simpl in Hu; done|]. simpl in Hu, Hl, Hb.
  destruct Hl as (Hll & Hlr & Hx & Hbx).
  pose proof (POwn_has F s ll x dx lr (FL a d r :: k) O) as Hxs.
  pose proof (height_ok F s ll (FL x dx lr :: FL a d r :: k) O) as Ell.
  pose proof (height_ok F s lr (FR ll x dx :: FL a d r :: k) O) as Elr.
  unfold balance. cbn [raddr] in *. prd. run El. prd. run Er. cbn [sh].
  destruct (Z.gtb_spec (hgt dx - sh r) 1); [|lia]. prd. run Ell. prd. run Elr.
  destruct (Z.gtb_spec (sh ll) (sh lr)).
  - destruct (rotate_right_ok F s ll lr r a x d dx k O) as (s' & E & O' & P').
    match type of O' with POwn _ _ (plug ?t _) => exists s', t end.
    split; [exact E|]. split; [split; [exact O'|]|].
    + split; [|split; [|done]].
      * simpl. split_and!; try done; lia.
      * same_entries.
    + simpl. lia.
  - destruct lr as [|b y dy c]; [simpl in *; pose proof (avl_sh _ Hll); lia|].
    cbn [sh raddr avl] in *. destruct Hlr as (Hb' & Hc & Hy & Hby).
    destruct (rotate_left_ok F s ll b c x y dx dy (FL a d r :: k) O) as (s1 & E1 & O1 & P1).
    destruct (rotate_right_ok F s1 _ c r a y d _ k O1) as (s2 & E2 & O2 & P2).
    match type of O2 with POwn _ _ (plug ?t _) => exists s2, t end.
    split; [run E1; exact E2|]. split; [split; [exact O2|]|].
    + split; [|split; [|congruence]].
      * simpl. split_and!; try done; lia.
      * same_entries.
    + simpl. lia.
Qed.

Lemma balance_right : sh r = sh l + 2 → uneven r →
  ∃ s' t', balance a s = Ok (raddr t', s') ∧ balanced F s k (Node l a d r) t' s' ∧ sh t' = sh r.
Proof.
  intros Hb Hu. pose proof (POwn_has _ _ _ _ _ _ _ O) as Ha.
  pose proof (height_ok F s l (FL a d r :: k) O) as El. pose proof (height_ok F s r (FR l a d :: k) O) as Er.
  destruct r as [|rl x dx rr]; [simpl in Hu; done|]. simpl in Hu, Hr, Hb.
  destruct Hr as (Hrl & Hrr & Hx & Hbx).
  pose proof (POwn_has F s rl x dx rr (FR l a d :: k) O) as Hxs.
  pose proof (height_ok F s rl (FL x dx rr :: FR l a d :: k) O) as Erl.
  pose proof (height_ok F s rr (FR rl x dx :: FR l a d :: k) O) as Err.
  unfold balance. cbn [raddr] in *. prd. run El. prd. run Er. cbn [sh].
  destruct (Z.gtb_spec (sh l - hgt dx) 1); [lia|].
  destruct (Z.gtb_spec (hgt dx - sh l) 1); [|lia]. prd. run Err. prd. run Erl.
  destruct (Z.gtb_spec (sh rr) (sh rl)).
  - destruct (rotate_left_ok F s l rl rr a x d dx k O) as (s' & E & O' & P').
    match type of O' with POwn _ _ (plug ?t _) => exists s', t end.
    split; [exact E|]. split; [split; [exact O'|]|].
    + split; [|split; [|done]].
      * simpl. split_and!; try done; lia.
      * same_entries.
    + simpl. lia.
  - destruct rl as [|b y dy c]; [simpl in *; pose proof (avl_sh _ Hrr); lia|].
    cbn [sh raddr avl] in *. destruct Hrl as (Hb' & Hc & Hy & Hby).
    destruct (rotate_right_ok F s b c rr x y dx dy (FR l a d :: k) O) as (s1 & E1 & O1 & P1).
    destruct (rotate_left_ok F s1 l b _ a y d _ k O1) as (s2 & E2 & O2 & P2).
    match type of O2 with POwn _ _ (plug ?t _) => exists s2, t end.
    split; [run E1; exact E2|]. split; [split; [exact O2|]|].
    + split; [|split; [|congruence]].
      * simpl. split_and!; try done; lia.
      * same_entries.
    + simpl. lia.
Qed.
End balance.

(** ** Insertion *)

(** The state of the walk back up: [t] is an AVL tree in the place of a tree
    of height [H], and has grown by at most one. *)
Definition grown (t : tree adata) (k : list (frame adata)) (H : Z) : Prop :=
  avl t ∧ actx k H ∧ (sh t = H ∨ (sh t = H + 1 ∧ (uneven t ∨ sh t = 1))).

Section insertion.
Context (F : gmap Z (pnode adata)).

Lemma insert_step s t f k H :
  POwn F s (plug t (f :: k)) → grown t (f :: k) H →
  ∃ s1 s' t', adjust_height (faddr f) s = Ok ((), s1) ∧
    balance (faddr f) s1 = Ok (raddr t', s') ∧ POwn F s' (plug t' k) ∧
    grown t' k (hgt (fdata f)) ∧ entries t' = entries (fill f t) ∧ pool s' = pool s ∧ t' ≠ Leaf.
Proof.
  intros O (Ht & (Hs & Hb & Hh & Hk) & Hg).
  destruct (avl_sh _ Ht) as [Ht0 _]. destruct (avl_sh _ Hs) as [Hs0 _].
  assert (Ef : ∃ l r, fill f t = Node l (faddr f) (fdata f) r ∧ avl l ∧ avl r ∧
    ((l = t ∧ r = fsib f) ∨ (l = fsib f ∧ r = t))) by (destruct f; simpl in *; eauto 10).
  destruct Ef as (l & r & Ef & Hl & Hr & Hlr).
  assert (O1 : POwn F s (plug (Node l (faddr f) (fdata f) r) k)) by (rewrite <-Ef; exact O).
  destruct (adjust_height_ok F s l (faddr f) (fdata f) r k O1) as (s1 & E1 & O2 & P1).
  assert (Ee : entries (fill f t) = entries (Node l (faddr f) (adj l (fdata f) r) r)) by (rewrite Ef; same_entries).
  assert (Hd : hgt (adj l (fdata f) r) = 1 + Z.max (sh l) (sh r)) by done.
  assert (Hcase : (sh t = H + 1 ∧ sh (fsib f) = H - 1 ∧ uneven t) ∨ Z.abs (sh t - sh (fsib f)) <= 1).
  { destruct Hg as [Hg|[Hg [Hu|Hu]]]; [right; lia| |right; lia].
    destruct (decide (sh (fsib f) = H - 1)); [by left|right; lia]. }
  destruct Hcase as [(Hg1 & Hg2 & Hu)|Hcase].
  - assert (∃ s' t', balance (faddr f) s1 = Ok (raddr t', s') ∧
      balanced F s1 k (Node l (faddr f) (adj l (fdata f) r) r) t' s' ∧ sh t' = H + 1) as (s2 & t' & E2 & (O' & A' & En & P2) & Sh).
    { destruct Hlr as [[-> ->]|[-> ->]].
      - destruct (balance_left F s1 t (fsib f) (faddr f) _ k O2 Hl Hr) as (s2 & t' & ? & ? & ?); [first [done|lia]..|].
        exists s2, t'. split; [done|]. split; [done|lia].
      - destruct (balance_right F s1 (fsib f) t (faddr f) _ k O2 Hl Hr) as (s2 & t' & ? & ? & ?); [first [done|lia]..|].
        exists s2, t'. split; [done|]. split; [done|lia]. }
    exists s1, s2, t'. split; [done|]. split; [done|]. split; [done|].
    split; [split; [done|split; [done|left; lia]]|]. split; [by rewrite En|]. split; [congruence|].
    intros ->. simpl in Sh. lia.
  - assert (Hc' : Z.abs (sh l - sh r) <= 1) by (destruct Hlr as [[-> ->]|[-> ->]]; lia).
    pose proof (balance_none F s1 l r (faddr f) _ k O2 Hc') as E2.
    exists s1, s1, (Node l (faddr f) (adj l (fdata f) r) r). split; [done|]. split; [done|]. split; [done|].
    split; [|done]. split; [done|]. split; [done|]. cbn [sh adj hgt uneven].
    destruct Hlr as [[-> ->]|[-> ->]]; lia.
Qed.

Lemma insert_up_ok n : ∀ s t k H, k ≠ [] → t ≠ Leaf →
  POwn F s (plug t k) → grown t k H → (length k ≤ n)%nat →
  ∃ s' t', insert_up n (raddr t) s = Ok (raddr t', s') ∧ POwn F s' t' ∧ avl t' ∧
    entries t' = entries (plug t k) ∧ pool s' = pool s.
Proof.
  induction n as [|n IH]; intros s t k H Nk Nt O G Hn; [destruct k; [done|simpl in Hn; lia]|].
  destruct k as [|f k]; [done|]. destruct t as [|tl a d tr]; [done|].
  pose proof (POwn_has _ _ _ _ _ _ _ O) as Ha.
  destruct (insert_step s _ f k H O G) as (s1 & s2 & t' & E1 & E2 & O' & G' & En & P' & Nt').
  cbn [insert_up]. prd. cbn [caddr]. run E1. run E2.
  destruct t' as [|l' b d' r']; [done|]. pose proof (POwn_has _ _ _ _ _ _ _ O') as Hb. cbn [raddr]. prd.
  destruct k as [|g k]; cbn [caddr].
  - exists s2, (Node l' b d' r'). split; [done|]. split; [done|]. split; [apply G'|]. split; [|done]. exact En.
  - rewrite (proj2 (Z.eqb_neq _ _) (POwn_frame_nonnull _ _ _ _ _ O')).
    destruct (IH s2 (Node l' b d' r') (g :: k) _ ltac:(done) ltac:(done) O' G') as (s3 & t3 & E3 & O3 & A3 & En3 & P3);
      [simpl in *; lia|].
    exists s3, t3. split; [done|]. split; [done|]. split; [done|]. split; [|congruence].
    rewrite En3. change (plug (Node tl a d tr) (f :: g :: k)) with (plug (fill f (Node tl a d tr)) (g :: k)).
    by apply entries_plug.
Qed.

(** The walk down. *)
Notation vcmp v := (λ (_ : Z) (d : adata), v ?= val d).

Lemma vcmp_spec v x : match v ?= x with
  | Eq => (x =? v) = true
  | Lt => (x =? v) = false ∧ (v <? x) = true
  | Gt => (x =? v) = false ∧ (v <? x) = false end.
Proof. destruct (Z.compare_spec v x); lia. Qed.

(** A new node linked below the parent of an empty place. *)
Lemma link_new_ok s v n f k a c pl :
  POwn F s (plug Leaf (f :: k)) → pool s = (a, c) :: pl → a ≠ NULL → a ∉ addrs (plug Leaf (f :: k)) →
  ∃ s', (match f with
         | FL g _ _ => b ← make_node v g; set_l g b;; l' ← get_l g; insert_walk (S n) v l'
         | FR _ g _ => b ← make_node v g; set_r g b;; r' ← get_r g; insert_walk (S n) v r'
         end) s = Ok (a, s') ∧
    POwn F s' (plug (Node Leaf a (AD v 1) Leaf) (f :: k)) ∧ pool s' = pl.
Proof.
  intros O Ep Na Nin. destruct c as [x y z w].
  assert (Nc : a ∉ caddrs (f :: k)) by (rewrite addrs_plug in Nin; set_solver).
  pose proof (POwn_parent _ _ _ _ _ O) as Hf.
  pose proof (λ h', owns_graft F (nodes s) h' (f :: k) a (AD v 1) O Na Nc) as G.
  assert (Ng : faddr f ≠ a) by (simpl in Nc; set_solver).
  destruct f as [g dg gr|gl g dg]; cbn [faddr pfhas raddr] in *; unfold make_node;
    run (malloc_ok s a x y z w pl Ep); pgo; cbn [insert_walk]; pgo.
  all: eexists; split; [reflexivity|]; split; [|done].
  all: apply G; [plookup|prot|intros b N1 N2; specialize (N2 ltac:(done)); plookup].
Qed.

Lemma insert_walk_ok s v t : ∀ n k, t ≠ Leaf → POwn F s (plug t k) → (S (PTree.height t) < n)%nat →
  match locate (vcmp v) t k with
  | (Node _ a _ _, _) => insert_walk n v (raddr t) s = Ok (a, s)
  | (Leaf, k') => ∀ a c pl, pool s = (a, c) :: pl → a ≠ NULL → a ∉ addrs (plug t k) →
      ∃ s', insert_walk n v (raddr t) s = Ok (a, s') ∧
        POwn F s' (plug (Node Leaf a (AD v 1) Leaf) k') ∧ pool s' = pl
  end.
Proof.
  induction t as [|l IHl a x r IHr]; intros n k Nt O Hn; [done|].
  destruct n as [|n]; [lia|]. cbn [raddr locate]. simpl in Hn.
  pose proof (POwn_has _ _ _ _ _ _ _ O) as Ha. pose proof (vcmp_spec v (val x)) as C.
  destruct (v ?= val x).
  - cbn [insert_walk]. prd. by rewrite C.
  - destruct C as [C1 C2]. destruct (decide (l = Leaf)) as [->|El].
    + simpl. intros b c pl Ep Nb Nin. destruct n as [|n]; [simpl in Hn; lia|].
      destruct (link_new_ok s v n (FL a x r) k b c pl O Ep Nb Nin) as (s' & E & ?).
      exists s'. split; [|done]. prd. rewrite C1, C2. prd. exact E.
    + assert (Nl : raddr l ≠ NULL) by (by rewrite (POwn_null F s l (FL a x r :: k) O)).
      assert (E : insert_walk (S n) v a s = insert_walk n v (raddr l) s).
      { cbn [insert_walk]. prd. rewrite C1, C2. by prd. }
      rewrite E. exact (IHl n (FL a x r :: k) El O ltac:(lia)).
  - destruct C as [C1 C2]. destruct (decide (r = Leaf)) as [->|Er].
    + simpl. intros b c pl Ep Nb Nin. destruct n as [|n]; [simpl in Hn; lia|].
      destruct (link_new_ok s v n (FR l a x) k b c pl O Ep Nb Nin) as (s' & E & ?).
      exists s'. split; [|done]. prd. rewrite C1, C2. prd. exact E.
    + assert (Nr : raddr r ≠ NULL) by (by rewrite (POwn_null F s r (FR l a x :: k) O)).
      assert (E : insert_walk (S n) v a s = insert_walk n v (raddr r) s).
      { cbn [insert_walk]. prd. rewrite C1, C2. by prd. }
      rewrite E. exact (IHr n (FR l a x :: k) Er O ltac:(lia)).
Qed.
End insertion.

(** ** The tree of the program *)
Record ATree (F : gmap Z (pnode adata)) (s : ast) (t : tree adata) : Prop := {
  atree_own : POwn F s t;
  atree_avl : avl t;
  atree_sorted : StronglySorted Z.lt (entries t).*2;
}.

Section operations.
Context (F : gmap Z (pnode adata)).

Notation vcmp v := (λ (_ : Z) (d : adata), v ?= val d).

Lemma entries_split t k :
  entries (plug t k) = ((λ x, (x.1, val x.2)) <$> ipre k) ++ entries t ++ ((λ x, (x.1, val x.2)) <$> ipost k).
Proof. unfold entries. by rewrite items_plug_split, !fmap_app. Qed.

(** Where the walk for [v] ends. *)
Lemma avl_place t v : StronglySorted Z.lt (entries t).*2 →
  match locate (vcmp v) t [] with
  | (Node l a d r, k) => t = plug (Node l a d r) k ∧ val d = v
  | (Leaf, k) => t = plug Leaf k ∧ v ∉ (entries t).*2 ∧
      Forall (λ x, val x.2 < v) (ipre k) ∧ Forall (λ x, v < val x.2) (ipost k)
  end.
Proof.
  intros Hs. pose proof (locate_plug (vcmp v) t []) as Hp. pose proof (locate_end (vcmp v) t []) as He.
  assert (Ev : (entries t).*2 = (λ x, val x.2) <$> items t) by (unfold entries; by rewrite <-list_fmap_compose).
  destruct (locate_cut (vcmp v) t []) as [H1 H2]; [|constructor..|].
  { rewrite Ev in Hs. pose proof (proj1 (walkable_fmap (Z.compare v) _ (items t)) (compare_walkable v _ Hs)) as W.
    eapply StronglySorted_weaken; [|exact W]. by intros [] [] _ _. }
  destruct (locate (vcmp v) t []) as [[|l a x r] k]; simpl in *.
  - split; [done|]. rewrite Ev, <-Hp, items_plug_split. simpl.
    assert (G1 : Forall (λ x, val x.2 < v) (ipre k)).
    { eapply Forall_impl; [exact H1|]. simpl. intros x. by rewrite Z.compare_gt_iff. }
    assert (G2 : Forall (λ x, v < val x.2) (ipost k)).
    { eapply Forall_impl; [exact H2|]. simpl. intros x. by rewrite Z.compare_lt_iff. }
    split; [|done]. rewrite Forall_forall in G1, G2.
    intros (x & -> & [Hx|Hx]%elem_of_app)%list_elem_of_fmap; [specialize (G1 x Hx)|specialize (G2 x Hx)]; lia.
  - destruct He as [?|(? & ? & ? & ? & [= <- <- <- <-] & E)]; [done|]. apply Z.compare_eq in E. done.
Qed.

Lemma find_ok s v t : ∀ n k, POwn F s (plug t k) → (PTree.height t < n)%nat →
  find n (raddr t) v s = Ok (raddr (locate (vcmp v) t k).1, s).
Proof.
  induction t as [|l IHl a d r IHr]; intros n k O Hn; (destruct n as [|n]; [lia|]); [done|].
  simpl in Hn. cbn [find raddr locate]. pose proof (POwn_nonnull _ _ _ _ _ _ _ O) as Na.
  pose proof (POwn_has _ _ _ _ _ _ _ O) as Ha. prd.
  destruct (Z.compare_spec v (val d)) as [E|E|E].
  - rewrite Z.gtb_ltb, !(proj2 (Z.ltb_ge _ _)) by lia. done.
  - rewrite (proj2 (Z.ltb_lt _ _)) by lia. prd. apply IHl; [done|lia].
  - rewrite (proj2 (Z.ltb_ge v _)), Z.gtb_ltb, (proj2 (Z.ltb_lt _ _)) by lia. prd. apply IHr; [done|lia].
Qed.

(** The stored height is the height, and it is logarithmic. *)
Lemma sh_height t : avl t → sh t = Z.of_nat (PTree.height t).
Proof.
  induction t as [|l IHl a d r IHr]; simpl; [done|]. intros (Hl & Hr & -> & _).
  rewrite (IHl Hl), (IHr Hr). lia.
Qed.

Lemma avl_size t : avl t → 2 ^ sh t <= (Z.of_nat (length (addrs t)) + 1) ^ 2.
Proof.
  induction t as [|l IHl a d r IHr]; simpl; [done|]. intros (Hl & Hr & Hd & Hb).
  specialize (IHl Hl). specialize (IHr Hr). rewrite length_app. simpl.
  destruct (avl_sh _ Hl) as [L0 _]. destruct (avl_sh _ Hr) as [R0 _].
  set (A := Z.of_nat (length (addrs l)) + 1) in *. set (B := Z.of_nat (length (addrs r)) + 1) in *.
  replace (Z.of_nat _ + 1) with (A + B) by lia. assert (0 < A ∧ 0 < B) by lia.
  destruct (Z.le_gt_cases (hgt d) 1) as [H1|H1].
  { assert (2 ^ hgt d <= 2 ^ 1) by (apply Z.pow_le_mono_r; lia). nia. }
  set (p := 2 ^ (hgt d - 2)). assert (Hp : 0 < p) by (apply Z.pow_pos_nonneg; lia).
  assert (Hd4 : 2 ^ hgt d = 4 * p).
  { unfold p. replace (hgt d) with (2 + (hgt d - 2)) at 1 by lia. rewrite Z.pow_add_r by lia. lia. }
  assert (HA : p <= 2 ^ sh l ∧ p <= 2 ^ sh r) by (unfold p; split; apply Z.pow_le_mono_r; lia).
  assert (HAB : 2 * p <= 2 ^ sh l ∨ 2 * p <= 2 ^ sh r).
  { assert (2 * p = 2 ^ (hgt d - 1)) as ->.
    { unfold p. rewrite <-Z.pow_succ_r by lia. f_equal. lia. }
    destruct (Z.max_spec (sh l) (sh r)) as [[? E]|[? E]]; [right|left]; apply Z.pow_le_mono_r; lia. }
  assert (p <= A * B).
  { apply Z.square_le_simpl_nonneg; [nia|]. replace (A * B * (A * B)) with (A ^ 2 * B ^ 2) by ring.
    apply Z.mul_le_mono_nonneg; lia. }
  rewrite Hd4. replace ((A + B) ^ 2) with (A ^ 2 + B ^ 2 + 2 * (A * B)) by ring. lia.
Qed.

Lemma avl_height_log t : avl t → (PTree.height t ≤ 2 * Nat.log2 (S (length (addrs t))) + 1)%nat.
Proof.
  intros H. pose proof (avl_size t H) as Hz. rewrite (sh_height t H) in Hz.
  set (m := S (length (addrs t))) in *.
  assert (Hm : (m < 2 ^ S (Nat.log2 m))%nat) by (apply Nat.log2_spec; lia).
  apply Nat.nlt_ge. intros Hlt.
  assert (2 ^ Z.of_nat (2 * Nat.log2 m + 2) <= 2 ^ Z.of_nat (PTree.height t)) by (apply Z.pow_le_mono_r; lia).
  assert (Z.of_nat m < 2 ^ Z.of_nat (S (Nat.log2 m))).
  { apply Nat2Z.inj_lt in Hm. by rewrite Nat2Z.inj_pow in Hm. }
  replace (Z.of_nat (2 * Nat.log2 m + 2)) with (2 * Z.of_nat (S (Nat.log2 m))) in * by lia.
  rewrite Z.mul_comm, Z.pow_mul_r in * by lia.
  replace (Z.of_nat (length (addrs t)) + 1) with (Z.of_nat m) in Hz by lia. nia.
Qed.

(** A walk that starts and the place it ends at. *)
Lemma locate_root v l a d r : v ≠ val d →
  (locate (vcmp v) (Node l a d r) []).2 ≠ [].
Proof.
  intros Nv. assert (H : ∀ (t : tree adata) k, k ≠ [] → (locate (vcmp v) t k).2 ≠ []).
  { induction t as [|l' IHl x y r' IHr]; intros k Nk; simpl; [done|].
    destruct (v ?= val y); [done|by apply IHl|by apply IHr]. }
  simpl. destruct (Z.compare_spec v (val d)); [done|by apply H|by apply H].
Qed.

Lemma length_ctx s t k : POwn F s (plug t k) → (length k ≤ size (nodes s))%nat.
Proof.
  intros O. apply owns_length in O. rewrite addrs_plug, length_app in O.
  pose proof (length_caddrs k). lia.
Qed.

Lemma insert_found s l a d r v : ATree F s (Node l a d r) → v ≠ val d → v ∈ (entries (Node l a d r)).*2 →
  ∃ s' t', insert a v s = Ok (raddr t', s') ∧ ATree F s' t' ∧
    entries t' = entries (Node l a d r) ∧ pool s' = pool s.
Proof.
  intros [O A St] Nv Hv. set (t := Node l a d r) in *. pose proof (avl_place t v St) as W.
  pose proof (insert_walk_ok F s v t (S (pfuel s)) [] ltac:(done) O) as L.
  assert (Hh : (S (PTree.height t) < S (pfuel s))%nat) by (pose proof (POwn_height F s t O); lia).
  specialize (L Hh). pose proof (locate_root v l a d r Nv) as Nk. fold t in Nk.
  destruct (locate (vcmp v) t []) as [[|l' b x r'] k]; [naive_solver|]. destruct W as [Et Ev].
  assert (O' : POwn F s (plug (Node l' b x r') k)) by (by rewrite <-Et).
  rewrite Et in A. apply avl_unplug in A as [A1 A2].
  destruct (insert_up_ok F (pfuel s) s (Node l' b x r') k (sh (Node l' b x r')) Nk ltac:(done) O')
    as (s' & t' & E & O2 & A3 & En & P).
  { split; [done|]. split; [done|]. by left. } { pose proof (length_ctx s _ _ O'). unfold pfuel. lia. }
  exists s', t'. split; [unfold insert; simpl raddr in L; by run L|].
  rewrite <-Et in En. split; [|done]. split; [done|done|by rewrite En].
Qed.

Lemma insert_new s l a d r v b c pl : ATree F s (Node l a d r) → v ∉ (entries (Node l a d r)).*2 →
  pool s = (b, c) :: pl → b ≠ NULL → b ∉ addrs (Node l a d r) →
  ∃ s' t' e1 e2, insert a v s = Ok (raddr t', s') ∧ ATree F s' t' ∧ pool s' = pl ∧
    entries (Node l a d r) = e1 ++ e2 ∧ entries t' = e1 ++ (b, v) :: e2.
Proof.
  intros [O A St] Nv Ep Nb Nin. set (t := Node l a d r) in *. pose proof (avl_place t v St) as W.
  assert (Nvd : v ≠ val d).
  { intros ->. apply Nv. unfold t. rewrite entries_node, fmap_app. csimpl. set_solver +. }
  pose proof (insert_walk_ok F s v t (S (pfuel s)) [] ltac:(done) O) as L.
  assert (Hh : (S (PTree.height t) < S (pfuel s))%nat) by (pose proof (POwn_height F s t O); lia).
  specialize (L Hh). pose proof (locate_root v l a d r Nvd) as Nk. fold t in Nk.
  destruct (locate (vcmp v) t []) as [[|l' x y r'] k].
  2: { destruct W as [Et Ev]. destruct Nv. rewrite Et, entries_split, entries_node, !fmap_app. csimpl.
       rewrite Ev. set_solver +. }
  destruct W as (Et & _ & H1 & H2). destruct (L b c pl Ep Nb Nin) as (s1 & E1 & O1 & P1).
  rewrite Et in A. apply avl_unplug in A as [_ A2].
  destruct (insert_up_ok F (pfuel s) s1 (Node Leaf b (AD v 1) Leaf) k 0 Nk ltac:(done) O1)
    as (s' & t' & E & O2 & A3 & En & P).
  { split; [simpl; lia|]. split; [done|]. right. simpl. lia. }
  { rewrite Et in O. pose proof (length_ctx s _ _ O). unfold pfuel. lia. }
  rewrite entries_split, entries_node in En. simpl in En.
  eexists s', t', _, _. split; [unfold insert; simpl raddr in L, E1; by run E1|].
  split; [|split; [congruence|split; [rewrite Et, entries_split; reflexivity|exact En]]].
  split; [done|done|]. rewrite Et, entries_split in St. simpl in St. rewrite En. rewrite !fmap_app in St |- *. csimpl.
  apply StronglySorted_insert; [done|..]; rewrite <-list_fmap_compose; by apply Forall_fmap.
Qed.

Lemma insert_root_crash s l a d r : POwn F s (Node l a d r) → nodes s !! NULL = None →
  insert a (val d) s = Err Segv.
Proof.
  intros O H0. pose proof (POwn_has F s l a d r [] O) as Ha. simpl in Ha.
  unfold insert. cbn [insert_walk]. prd. unfold pfuel. cbn [insert_up]. prd.
  apply bind_err. unfold adjust_height. apply bind_err. unfold get_l. apply bind_err.
  unfold pload. by rewrite H0.
Qed.
End operations.

(** ** Properties *)
Definition ex_avl_tree : tree adata :=
  Node (Node Leaf 10 (AD 1 1) Leaf) 20 (AD 2 3) (Node Leaf 30 (AD 3 2) (Node Leaf 40 (AD 4 1) Leaf)).
Definition ex_avl : ast :=
  PSt {[10 := PN 20 0 0 (AD 1 1); 20 := PN 0 10 30 (AD 2 3); 30 := PN 20 0 40 (AD 3 2);
        40 := PN 30 0 0 (AD 4 1)]} 0 [(50, PN 9 9 9 (AD 9 9))].

Lemma ex_avl_ok : ATree (nodes ex_avl) ex_avl ex_avl_tree.
Proof.
  split; [|simpl; split_and!; try done; lia|repeat constructor; lia]. split.
  - apply (bool_decide_unpack _); vm_compute; exact I.
  - repeat constructor; done.
  - simpl; repeat split; reflexivity.
  - done.
Qed.

(** C6: [insert] of a value that is not in the tree adds one node at its place in
    the order; it terminates without a bad access, the stored heights are the
    heights of the subtrees, and the heights of siblings differ by at most one. *)
Theorem avl_insert_correct F s l a d r v b c pl :
  ATree F s (Node l a d r) → v ∉ (entries (Node l a d r)).*2 →
  pool s = (b, c) :: pl → b ≠ NULL → b ∉ addrs (Node l a d r) →
  ∃ s' t' e1 e2, insert a v s = Ok (raddr t', s') ∧ ATree F s' t' ∧ pool s' = pl ∧
    entries (Node l a d r) = e1 ++ e2 ∧ entries t' = e1 ++ (b, v) :: e2.
Proof. apply insert_new. Qed.

Lemma avl_insert_correct_witness :
  ∃ s' t' e1 e2, insert 20 5 ex_avl = Ok (raddr t', s') ∧ ATree (nodes ex_avl) s' t' ∧ pool s' = [] ∧
    entries ex_avl_tree = e1 ++ e2 ∧ entries t' = e1 ++ (50, 5) :: e2.
Proof.
  apply (avl_insert_correct (nodes ex_avl) ex_avl (Node Leaf 10 (AD 1 1) Leaf) 20 (AD 2 3)
    (Node Leaf 30 (AD 3 2) (Node Leaf 40 (AD 4 1) Leaf)) 5 50 (PN 9 9 9 (AD 9 9)) [] ex_avl_ok); try done.
  all: apply (bool_decide_unpack _); vm_compute; exact I.
Defined.

(** [insert] of a value that is in the tree, at a node other than the root,
    keeps the nodes, their order and the balance. *)
Theorem avl_insert_present F s l a d r v :
  ATree F s (Node l a d r) → v ≠ val d → v ∈ (entries (Node l a d r)).*2 →
  ∃ s' t', insert a v s = Ok (raddr t', s') ∧ ATree F s' t' ∧
    entries t' = entries (Node l a d r) ∧ pool s' = pool s.
Proof. apply insert_found. Qed.

Lemma avl_insert_present_witness :
  ∃ s' t', insert 20 4 ex_avl = Ok (raddr t', s') ∧ ATree (nodes ex_avl) s' t' ∧
    entries t' = [(10, 1); (20, 2); (30, 3); (40, 4)] ∧ pool s' = pool ex_avl.
Proof.
  apply (avl_insert_present (nodes ex_avl) ex_avl (Node Leaf 10 (AD 1 1) Leaf) 20 (AD 2 3)
    (Node Leaf 30 (AD 3 2) (Node Leaf 40 (AD 4 1) Leaf)) 4 ex_avl_ok); [done|].
  apply (bool_decide_unpack _); vm_compute; exact I.
Defined.

(** [insert] of the value of the root dereferences a null pointer: the
    [do] loop runs once for the parent of the root. *)
Theorem avl_insert_root_crash F s l a d r :
  POwn F s (Node l a d r) → nodes s !! NULL = None → insert a (val d) s = Err Segv.
Proof. apply insert_root_crash. Qed.

Lemma avl_insert_root_crash_witness : insert 20 2 ex_avl = Err Segv.
Proof.
  exact (avl_insert_root_crash (nodes ex_avl) ex_avl _ 20 (AD 2 3) _ (atree_own _ _ _ ex_avl_ok) eq_refl).
Defined.

(** [find] returns the node of a value, or NULL for a value that is not in
    the tree, and its recursion is no deeper than 2 log2(n+1) + 2. *)
Theorem avl_find_correct F s t v :
  ATree F s t →
  ∃ res, find (2 * Nat.log2 (S (length (addrs t))) + 2) (raddr t) v s = Ok (res, s) ∧
    ((res = NULL ∧ v ∉ (entries t).*2) ∨ (res, v) ∈ entries t).
Proof.
  intros [O A St]. eexists. split.
  - apply (find_ok F s v t _ [] O). pose proof (avl_height_log t A). lia.
  - pose proof (avl_place t v St) as W.
    destruct (locate _ t []) as [[|l a d r] k]; simpl; [left; naive_solver|right].
    destruct W as [-> <-]. rewrite entries_split, entries_node. set_solver +.
Qed.

Lemma avl_find_correct_witness :
  ∃ res, find 6 20 3 ex_avl = Ok (res, ex_avl) ∧
    ((res = NULL ∧ 3 ∉ [1; 2; 3; 4]) ∨ (res, 3) ∈ [(10, 1); (20, 2); (30, 3); (40, 4)]).
Proof. exact (avl_find_correct (nodes ex_avl) ex_avl ex_avl_tree 3 ex_avl_ok). Defined.
