(* ===== verification/McList.v ===== *)
(** * The circular doubly linked lists of gap_mclist.h

    A list is a ring of [struct list_head]s: the head and its entries.  Several
    rings can live in one memory; an entry can move between them. *)

From S2P Require Import Prelude.

Record list_head := LH { next : Z; prev : Z }.
Notation lmem := (gmap Z list_head).

Definition lget (f : list_head → Z) (p : Z) : M lmem Z := λ h,
  match h !! p with Some c => Ok (f c, h) | None => Err Segv end.
Definition lset (f : list_head → list_head) (p : Z) : M lmem unit := λ h,
  match h !! p with Some c => Ok ((), alter f p h) | None => Err Segv end.

Definition get_next := lget next.
Definition get_prev := lget prev.
Definition set_next (p x : Z) := lset (λ c, LH x (prev c)) p.
Definition set_prev (p x : Z) := lset (λ c, LH (next c) x) p.

Definition INIT_LIST_HEAD (list : Z) : M lmem unit :=
  set_next list list;; set_prev list list.

Definition __list_add (nelm prev next : Z) : M lmem unit :=
  set_prev next nelm;;
  set_next nelm next;;
  set_prev nelm prev;;
  set_next prev nelm.

Definition list_add (nelm head : Z) : M lmem unit :=
  n ← get_next head; __list_add nelm head n.

Definition list_add_tail (nelm head : Z) : M lmem unit :=
  p ← get_prev head; __list_add nelm p head.

Definition __list_del (prev next : Z) : M lmem unit :=
  set_prev next prev;; set_next prev next.

Definition list_del (entry : Z) : M lmem unit :=
  p ← get_prev entry; n ← get_next entry;
  __list_del p n;;
  set_next entry NULL;;
  set_prev entry NULL.

Definition list_replace (old nelm : Z) : M lmem unit :=
  n ← get_next old; set_next nelm n;;
  n ← get_next nelm; set_prev n nelm;;
  p ← get_prev old; set_prev nelm p;;
  p ← get_prev nelm; set_next p nelm.

Definition list_replace_init (old nelm : Z) : M lmem unit :=
  list_replace old nelm;; INIT_LIST_HEAD old.

Definition list_move (list head : Z) : M lmem unit :=
  p ← get_prev list; n ← get_next list; __list_del p n;; list_add list head.

Definition list_move_tail (list head : Z) : M lmem unit :=
  p ← get_prev list; n ← get_next list; __list_del p n;; list_add_tail list head.

Definition list_is_last (list head : Z) : M lmem bool := n ← get_next list; mret (n =? head).
Definition list_is_first (list head : Z) : M lmem bool := p ← get_prev list; mret (p =? head).
Definition list_empty (head : Z) : M lmem bool := n ← get_next head; mret (n =? head).

(** The iteration macros, with the loop body [body pos]; they return what the
    bodies return, in order. *)
Section iteration.
Context {A : Type} (body : Z → M lmem A).

Fixpoint for_each (get : Z → M lmem Z) (n : nat) (pos head : Z) : M lmem (list A) :=
  match n with
  | O => fail Fuel
  | S n => _ ← get pos;
           if pos =? head then mret [] else
           a ← body pos; pos ← get pos; rest ← for_each get n pos head; mret (a :: rest)
  end.

Definition list_for_each (head : Z) : M lmem (list A) := λ h,
  (pos ← get_next head; for_each get_next (S (size h)) pos head) h.
Definition list_for_each_prev (head : Z) : M lmem (list A) := λ h,
  (pos ← get_prev head; for_each get_prev (S (size h)) pos head) h.

Fixpoint for_each_safe (fuel : nat) (pos n head : Z) : M lmem (list A) :=
  match fuel with
  | O => fail Fuel
  | S fuel => if pos =? head then mret [] else
              a ← body pos;
              let pos := n in
              n ← get_next pos;
              rest ← for_each_safe fuel pos n head; mret (a :: rest)
  end.

Definition list_for_each_safe (head : Z) : M lmem (list A) := λ h,
  (pos ← get_next head; n ← get_next pos; for_each_safe (S (size h)) pos n head) h.
End iteration.

(** [list_entry]: the object that holds the node [ptr] in a member at offset [off]. *)
Definition list_entry (off ptr : Z) : Z := ptr - off.

Section entry_iteration.
Context {A : Type} (off : Z) (body : Z → M lmem A).

Fixpoint for_each_entry (n : nat) (pos head : Z) : M lmem (list A) :=
  match n with
  | O => fail Fuel
  | S n => _ ← get_next (pos + off);
           if pos + off =? head then mret [] else
           a ← body pos;
           p ← get_next (pos + off); rest ← for_each_entry n (list_entry off p) head; mret (a :: rest)
  end.

Definition list_for_each_entry (head : Z) : M lmem (list A) := λ h,
  (p ← get_next head; for_each_entry (S (size h)) (list_entry off p) head) h.

Fixpoint for_each_entry_safe (fuel : nat) (pos n head : Z) : M lmem (list A) :=
  match fuel with
  | O => fail Fuel
  | S fuel => if pos + off =? head then mret [] else
              a ← body pos;
              let pos := n in
              p ← get_next (n + off);
              rest ← for_each_entry_safe fuel pos (list_entry off p) head; mret (a :: rest)
  end.

Definition list_for_each_entry_safe (head : Z) : M lmem (list A) := λ h,
  (p ← get_next head; let pos := list_entry off p in
   q ← get_next (pos + off); for_each_entry_safe (S (size h)) pos (list_entry off q) head) h.
End entry_iteration.

(** ** Rings *)
Definition nextof (h : lmem) (x : Z) : option Z := next <$> h !! x.
Definition prevof (h : lmem) (x : Z) : option Z := prev <$> h !! x.

(** The nodes of a family of rings (head and entries), and their successors. *)
Definition firsts (rs : list (Z * list Z)) : list Z := concat ((λ r, r.1 :: r.2) <$> rs).
Definition seconds (rs : list (Z * list Z)) : list Z := concat ((λ r, r.2 ++ [r.1]) <$> rs).

(** [l] lists the nodes of some rings, [m] their successors. *)
Record linked (F h : lmem) (l m : list Z) : Prop := {
  linked_nodup : NoDup l;
  linked_perm : m ≡ₚ l;
  linked_next : Forall2 (λ x y, nextof h x = Some y) l m;
  linked_prev : Forall2 (λ x y, prevof h y = Some x) l m;
  linked_frame : ∀ a, a ∉ l → h !! a = F !! a;
}.

Definition Rings (F h : lmem) (rs : list (Z * list Z)) : Prop := linked F h (firsts rs) (seconds rs).

(** ** Writes *)
Section writes.
Context (h : lmem) (p x : Z) (Hp : is_Some (h !! p)).

Definition wn : lmem := alter (λ c, LH x (prev c)) p h.
Definition wp : lmem := alter (λ c, LH (next c) x) p h.

Lemma set_next_ok : set_next p x h = Ok ((), wn).
Proof. unfold set_next, lset. by destruct Hp as [c ->]. Qed.
Lemma set_prev_ok : set_prev p x h = Ok ((), wp).
Proof. unfold set_prev, lset. by destruct Hp as [c ->]. Qed.
Lemma nextof_wn_eq : nextof wn p = Some x.
Proof. unfold nextof, wn. rewrite lookup_alter_eq. by destruct Hp as [c ->]. Qed.
Lemma prevof_wp_eq : prevof wp p = Some x.
Proof. unfold prevof, wp. rewrite lookup_alter_eq. by destruct Hp as [c ->]. Qed.
End writes.

Lemma nextof_wn_ne h p x y : y ≠ p → nextof (wn h p x) y = nextof h y.
Proof. intros N. unfold nextof, wn. by rewrite lookup_alter_ne. Qed.
Lemma prevof_wp_ne h p x y : y ≠ p → prevof (wp h p x) y = prevof h y.
Proof. intros N. unfold prevof, wp. by rewrite lookup_alter_ne. Qed.
Lemma prevof_wn h p x y : prevof (wn h p x) y = prevof h y.
Proof.
  unfold prevof, wn. destruct (decide (y = p)) as [->|]; [|by rewrite lookup_alter_ne].
  rewrite lookup_alter_eq. by destruct (h !! p).
Qed.
Lemma nextof_wp h p x y : nextof (wp h p x) y = nextof h y.
Proof.
  unfold nextof, wp. destruct (decide (y = p)) as [->|]; [|by rewrite lookup_alter_ne].
  rewrite lookup_alter_eq. by destruct (h !! p).
Qed.
Lemma wn_some h p x y : is_Some (h !! y) → is_Some (wn h p x !! y).
Proof.
  unfold wn. intros [c E]. destruct (decide (y = p)) as [->|]; [rewrite lookup_alter_eq|rewrite lookup_alter_ne by done]; rewrite E; simpl; eauto.
Qed.
Lemma wp_some h p x y : is_Some (h !! y) → is_Some (wp h p x !! y).
Proof.
  unfold wp. intros [c E]. destruct (decide (y = p)) as [->|]; [rewrite lookup_alter_eq|rewrite lookup_alter_ne by done]; rewrite E; simpl; eauto.
Qed.
Lemma wn_ne h p x y : y ≠ p → wn h p x !! y = h !! y.
Proof. intros. by apply lookup_alter_ne. Qed.
Lemma wp_ne h p x y : y ≠ p → wp h p x !! y = h !! y.
Proof. intros. by apply lookup_alter_ne. Qed.
Lemma get_next_ok h x y : nextof h x = Some y → get_next x h = Ok (y, h).
Proof. unfold nextof, get_next, lget. destruct (h !! x); simpl; naive_solver. Qed.
Lemma get_prev_ok h x y : prevof h x = Some y → get_prev x h = Ok (y, h).
Proof. unfold prevof, get_prev, lget. destruct (h !! x); simpl; naive_solver. Qed.
Lemma nextof_some h x y : nextof h x = Some y → is_Some (h !! x).
Proof. unfold nextof. destruct (h !! x); simpl; [eauto|done]. Qed.
Lemma prevof_some h x y : prevof h x = Some y → is_Some (h !! x).
Proof. unfold prevof. destruct (h !! x); simpl; [eauto|done]. Qed.

Create HintDb mclist.
#[export] Hint Resolve wn_some wp_some nextof_some prevof_some : mclist.

(** ** Adding and removing a node at any position *)
Section core.
Context (F h : lmem) (l1 l2 m1 m2 : list Z) (p n e : Z) (Hlen : length l1 = length m1).

Lemma add_core :
  linked F h (l1 ++ p :: l2) (m1 ++ n :: m2) → e ∉ l1 ++ p :: l2 → is_Some (h !! e) →
  ∃ h', __list_add e p n h = Ok ((), h') ∧ linked F h' (l1 ++ p :: e :: l2) (m1 ++ e :: n :: m2).
Proof.
  intros [Hn Hm Hnx Hpv Hf] Ne He. pose proof Hn as Hn'. rewrite <-Hm in Hn'.
  assert (Ne' : e ∉ m1 ++ n :: m2) by (by rewrite Hm).
  apply Forall2_app_inv in Hnx as [Hnx1 [Hnxp Hnx2]%Forall2_cons_1]; [|done].
  apply Forall2_app_inv in Hpv as [Hpv1 [Hpvp Hpv2]%Forall2_cons_1]; [|done].
  assert (e ≠ p) by set_solver. assert (e ≠ n) by set_solver.
  exists (wn (wp (wn (wp h n e) e n) e p) p e). split.
  - unfold __list_add. run (set_prev_ok h n e ltac:(eauto with mclist)).
    run (set_next_ok (wp h n e) e n ltac:(eauto with mclist)).
    run (set_prev_ok (wn (wp h n e) e n) e p ltac:(eauto with mclist)).
    apply set_next_ok. eauto with mclist.
  - split.
    + clear -Hn Ne. apply NoDup_occ. intros x. destruct (decide (x = e)) as [->|];
        apply (NoDup_occ _) with (x := x) in Hn || apply (NoDup_occ _) with (x := e) in Hn;
        apply not_elem_of_occ in Ne; autorewrite with occ in *; repeat case_decide; try congruence; lia.
    + rewrite <-(Permutation_middle m1 (n :: m2) e), Hm, (Permutation_middle l1 (p :: l2) e).
      by rewrite perm_swap.
    + apply Forall2_app; [|constructor; [|constructor]].
      * eapply Forall2_weaken; [|exact Hnx1]. intros x y Hx Hy E.
        rewrite nextof_wn_ne, nextof_wp, nextof_wn_ne, nextof_wp; [done|nd|nd].
      * apply nextof_wn_eq. eauto with mclist.
      * rewrite nextof_wn_ne, nextof_wp by done. apply nextof_wn_eq. eauto with mclist.
      * eapply Forall2_weaken; [|exact Hnx2]. intros x y Hx Hy E.
        rewrite nextof_wn_ne, nextof_wp, nextof_wn_ne, nextof_wp; [done|nd|nd].
    + apply Forall2_app; [|constructor; [|constructor]].
      * eapply Forall2_weaken; [|exact Hpv1]. intros x y Hx Hy E.
        rewrite prevof_wn, prevof_wp_ne, prevof_wn, prevof_wp_ne; [done|nd|nd].
      * rewrite prevof_wn. apply prevof_wp_eq. eauto with mclist.
      * rewrite prevof_wn, prevof_wp_ne, prevof_wn by done. apply prevof_wp_eq. eauto with mclist.
      * eapply Forall2_weaken; [|exact Hpv2]. intros x y Hx Hy E.
        rewrite prevof_wn, prevof_wp_ne, prevof_wn, prevof_wp_ne; [done|nd|nd].
    + intros a Ha. assert (Ha' : a ∉ l1 ++ p :: l2) by set_solver.
      assert (Ha2 : a ∉ m1 ++ n :: m2) by (by rewrite Hm).
      rewrite wn_ne, wp_ne, wn_ne, wp_ne by set_solver. by apply Hf.
Qed.

Lemma del_core :
  linked F h (l1 ++ p :: e :: l2) (m1 ++ e :: n :: m2) →
  ∃ h' c, __list_del p n h = Ok ((), h') ∧ h !! e = Some c ∧ h' !! e = Some c ∧
    linked (<[e := c]> F) h' (l1 ++ p :: l2) (m1 ++ n :: m2).
Proof.
  intros [Hn Hm Hnx Hpv Hf]. pose proof Hn as Hn'. rewrite <-Hm in Hn'.
  apply Forall2_app_inv in Hnx as [Hnx1 [Hnxp [Hnxe Hnx2]%Forall2_cons_1]%Forall2_cons_1]; [|done].
  apply Forall2_app_inv in Hpv as [Hpv1 [Hpvp [Hpve Hpv2]%Forall2_cons_1]%Forall2_cons_1]; [|done].
  assert (Nep : e ≠ p) by nd. assert (Nen : e ≠ n) by (clear Hn; nd).
  destruct (nextof_some _ _ _ Hnxe) as [c Hc].
  assert (He : wn (wp h n p) p n !! e = Some c) by (by rewrite wn_ne, wp_ne).
  exists (wn (wp h n p) p n), c. split; [|split; [done|split; [done|]]].
  - unfold __list_del. run (set_prev_ok h n p ltac:(eauto with mclist)).
    apply set_next_ok. eauto with mclist.
  - split.
    + clear -Hn. apply NoDup_occ. intros x. apply (NoDup_occ _) with (x := x) in Hn.
      autorewrite with occ in *. lia.
    + apply (Permutation_cons_inv (a := e)). rewrite (Permutation_middle m1 (n :: m2) e), Hm.
      rewrite (Permutation_middle l1 (p :: l2) e). by rewrite perm_swap.
    + apply Forall2_app; [|constructor].
      * eapply Forall2_weaken; [|exact Hnx1]. intros x y Hx Hy E. rewrite nextof_wn_ne, nextof_wp; [done|nd].
      * apply nextof_wn_eq. eauto with mclist.
      * eapply Forall2_weaken; [|exact Hnx2]. intros x y Hx Hy E. rewrite nextof_wn_ne, nextof_wp; [done|nd].
    + apply Forall2_app; [|constructor].
      * eapply Forall2_weaken; [|exact Hpv1]. intros x y Hx Hy E. rewrite prevof_wn, prevof_wp_ne; [done|nd].
      * rewrite prevof_wn. apply prevof_wp_eq. eauto with mclist.
      * eapply Forall2_weaken; [|exact Hpv2]. intros x y Hx Hy E. rewrite prevof_wn, prevof_wp_ne; [done|nd].
    + intros a Ha. destruct (decide (a = e)) as [->|Na]; [by rewrite lookup_insert_eq|].
      assert (Ha' : a ∉ l1 ++ p :: e :: l2) by set_solver.
      assert (Ha2 : a ∉ m1 ++ e :: n :: m2) by (by rewrite Hm).
      rewrite wn_ne, wp_ne, lookup_insert_ne by set_solver. by apply Hf.
Qed.
End core.

(** ** The operations on rings *)
Lemma firsts_app r1 r2 : firsts (r1 ++ r2) = firsts r1 ++ firsts r2.
Proof. unfold firsts. by rewrite fmap_app, concat_app. Qed.
Lemma seconds_app r1 r2 : seconds (r1 ++ r2) = seconds r1 ++ seconds r2.
Proof. unfold seconds. by rewrite fmap_app, concat_app. Qed.
Lemma firsts_cons hd xs r : firsts ((hd, xs) :: r) = hd :: xs ++ firsts r.
Proof. done. Qed.
Lemma seconds_cons hd xs r : seconds ((hd, xs) :: r) = xs ++ hd :: seconds r.
Proof. unfold seconds. csimpl. by rewrite <-app_assoc. Qed.
Lemma length_firsts r : length (firsts r) = length (seconds r).
Proof.
  induction r as [|[hd xs] r IH]; [done|]. rewrite firsts_cons, seconds_cons. simpl.
  rewrite !length_app. simpl. lia.
Qed.

(** The entry before the place after [xs], the one after the place before [ys]. *)
Definition before (hd : Z) (xs : list Z) : Z := default hd (last xs).
Definition after (ys : list Z) (hd : Z) : Z := default hd (head ys).

Lemma before_split hd xs : ∃ zs, (∀ r, hd :: xs ++ r = zs ++ before hd xs :: r) ∧ length zs = length xs.
Proof.
  unfold before. destruct xs as [|x xs _] using rev_ind; [by exists []|].
  exists (hd :: xs). rewrite last_snoc, length_app. simpl. split; [|lia]. intros r. by rewrite <-app_assoc.
Qed.

Lemma after_split ys hd : ∃ ws, ∀ r, ys ++ hd :: r = after ys hd :: ws ++ r.
Proof. destruct ys as [|y ys]; [by exists []|]. exists (ys ++ [hd]). intros r. simpl. by rewrite <-app_assoc. Qed.

Lemma linked_same F F' h h' l m : linked F h l m →
  (∀ a, a ∈ l → h' !! a = h !! a) → (∀ a, a ∉ l → h' !! a = F' !! a) → linked F' h' l m.
Proof.
  intros [Hn Hm Hnx Hpv Hf] Hs HF. split; [done|done|..|done].
  - eapply Forall2_weaken; [|exact Hnx]. intros x y Hx _. unfold nextof. by rewrite Hs.
  - eapply Forall2_weaken; [|exact Hpv]. intros x y _ Hy. unfold prevof. rewrite Hs; [done|]. by rewrite <-Hm.
Qed.

Lemma linked_at F h l1 p l2 m1 n m2 : length l1 = length m1 → linked F h (l1 ++ p :: l2) (m1 ++ n :: m2) →
  nextof h p = Some n ∧ prevof h n = Some p.
Proof.
  intros Hlen [_ _ Hnx Hpv _].
  apply Forall2_app_inv in Hnx as [_ [N _]%Forall2_cons_1]; [|done].
  by apply Forall2_app_inv in Hpv as [_ [Q _]%Forall2_cons_1]; [|done].
Qed.

(** In a family of rings, the nodes are distinct and an entry is followed by
    the next one, the last one by the head. *)
Lemma ring_lists r1 hd xs r2 :
  firsts (r1 ++ (hd, xs) :: r2) = firsts r1 ++ hd :: xs ++ firsts r2 ∧
  seconds (r1 ++ (hd, xs) :: r2) = seconds r1 ++ xs ++ hd :: seconds r2.
Proof. by rewrite firsts_app, seconds_app, firsts_cons, seconds_cons. Qed.

Section rings.
Context (F h : lmem).

(** What is stored around a place of a ring. *)
Lemma ring_at r1 hd xs e ys r2 : Rings F h (r1 ++ (hd, xs ++ e :: ys) :: r2) →
  prevof h e = Some (before hd xs) ∧ nextof h e = Some (after ys hd) ∧
  ∃ zs ws, (∀ r, hd :: xs ++ r = zs ++ before hd xs :: r) ∧ (∀ r, ys ++ hd :: r = after ys hd :: ws ++ r) ∧
    length (firsts r1 ++ zs) = length (seconds r1 ++ xs) ∧
    linked F h ((firsts r1 ++ zs) ++ before hd xs :: e :: ys ++ firsts r2)
      ((seconds r1 ++ xs) ++ e :: after ys hd :: ws ++ seconds r2).
Proof.
  unfold Rings. rewrite firsts_app, seconds_app, firsts_cons, seconds_cons. intros L.
  destruct (before_split hd xs) as (zs & Ez & Lz). destruct (after_split ys hd) as (ws & Ew).
  assert (E1 : firsts r1 ++ hd :: (xs ++ e :: ys) ++ firsts r2 =
    (firsts r1 ++ zs) ++ before hd xs :: e :: ys ++ firsts r2) by (rewrite <-!app_assoc, Ez; done).
  assert (E2 : seconds r1 ++ (xs ++ e :: ys) ++ hd :: seconds r2 =
    (seconds r1 ++ xs) ++ e :: after ys hd :: ws ++ seconds r2)
    by (rewrite <-!app_assoc; simpl; by rewrite Ew).
  rewrite E1, E2 in L. assert (Hlen : length (firsts r1 ++ zs) = length (seconds r1 ++ xs)).
  { rewrite !length_app, length_firsts. lia. }
  destruct (linked_at _ _ _ _ _ _ _ _ Hlen L) as [_ Q].
  assert (N : nextof h e = Some (after ys hd)).
  { apply (linked_at F h ((firsts r1 ++ zs) ++ [before hd xs]) e (ys ++ firsts r2)
      ((seconds r1 ++ xs) ++ [e]) _ (ws ++ seconds r2)); [rewrite !length_app in *; simpl; lia|].
    by rewrite <-!app_assoc in *. }
  split; [done|]. split; [done|]. by exists zs, ws.
Qed.

Lemma list_add_ok r1 hd xs r2 e : Rings F h (r1 ++ (hd, xs) :: r2) →
  e ∉ firsts (r1 ++ (hd, xs) :: r2) → is_Some (h !! e) →
  ∃ h', list_add e hd h = Ok ((), h') ∧ Rings F h' (r1 ++ (hd, e :: xs) :: r2).
Proof.
  unfold Rings. destruct (ring_lists r1 hd xs r2) as [-> ->].
  destruct (ring_lists r1 hd (e :: xs) r2) as [-> ->]. intros L Ne He.
  destruct (after_split xs hd) as (ws & Ew). simpl. rewrite Ew in L |- *.
  destruct (linked_at _ _ _ _ _ _ _ _ (length_firsts r1) L) as [N _].
  destruct (add_core _ _ _ _ _ _ _ _ _ (length_firsts r1) L Ne He) as (h' & E & L').
  exists h'. split; [|done]. unfold list_add. by run (get_next_ok _ _ _ N).
Qed.

Lemma list_add_tail_ok r1 hd xs r2 e : Rings F h (r1 ++ (hd, xs) :: r2) →
  e ∉ firsts (r1 ++ (hd, xs) :: r2) → is_Some (h !! e) →
  ∃ h', list_add_tail e hd h = Ok ((), h') ∧ Rings F h' (r1 ++ (hd, xs ++ [e]) :: r2).
Proof.
  unfold Rings. destruct (ring_lists r1 hd xs r2) as [-> ->].
  destruct (ring_lists r1 hd (xs ++ [e]) r2) as [-> ->]. intros L Ne He.
  destruct (before_split hd xs) as (zs & Ez & Lz). rewrite <-!app_assoc. simpl. rewrite Ez, !app_assoc in *.
  assert (Hlen : length (firsts r1 ++ zs) = length (seconds r1 ++ xs)) by (rewrite !length_app, length_firsts; lia).
  destruct (linked_at _ _ _ _ _ _ _ _ Hlen L) as [_ Q].
  destruct (add_core _ _ _ _ _ _ _ _ _ Hlen L Ne He) as (h' & E & L').
  exists h'. split; [|done]. unfold list_add_tail. by run (get_prev_ok _ _ _ Q).
Qed.
End rings.

(** Taking an entry out of its ring, as [list_move] does before adding it. *)
Lemma unlink_ok F h r1 hd xs e ys r2 : Rings F h (r1 ++ (hd, xs ++ e :: ys) :: r2) →
  ∃ p n h' c, get_prev e h = Ok (p, h) ∧ get_next e h = Ok (n, h) ∧
    __list_del p n h = Ok ((), h') ∧ h' !! e = Some c ∧
    e ∉ firsts (r1 ++ (hd, xs ++ ys) :: r2) ∧ Rings (<[e := c]> F) h' (r1 ++ (hd, xs ++ ys) :: r2).
Proof.
  intros R. destruct (ring_at F h _ _ _ _ _ _ R) as (Ep & En & zs & ws & Ez & Ew & Hlen & L).
  destruct (del_core F h _ _ _ _ _ _ _ Hlen L) as (h1 & c & E1 & Hc & Hc1 & L1).
  eexists _, _, h1, c. split; [by apply get_prev_ok|]. split; [by apply get_next_ok|]. do 2 (split; [done|]).
  pose proof (linked_nodup _ _ _ _ L) as Hn. unfold Rings.
  destruct (ring_lists r1 hd (xs ++ ys) r2) as [-> ->]. rewrite <-!app_assoc, Ez, Ew, !app_assoc.
  split; [nd|]. by rewrite <-!app_assoc in *.
Qed.

Lemma Rings_frame F F' h h' rs : Rings F h rs → (∀ a, a ∈ firsts rs → h' !! a = h !! a) →
  (∀ a, a ∉ firsts rs → h' !! a = F' !! a) → Rings F' h' rs.
Proof. exact (linked_same F F' h h' _ _). Qed.

Lemma list_del_ok F h r1 hd xs e ys r2 : Rings F h (r1 ++ (hd, xs ++ e :: ys) :: r2) →
  ∃ h', list_del e h = Ok ((), h') ∧
    Rings (<[e := LH NULL NULL]> F) h' (r1 ++ (hd, xs ++ ys) :: r2).
Proof.
  intros (p & n & h1 & c & Ep & En & E1 & Hc1 & Ne & R1)%unlink_ok.
  exists (wp (wn h1 e NULL) e NULL). split.
  - unfold list_del. run Ep. run En. run E1.
    run (set_next_ok h1 e NULL ltac:(eauto)). apply set_prev_ok. eauto with mclist.
  - eapply Rings_frame; [exact R1|..].
    + intros a Ha. assert (a ≠ e) by (by intros ->). by rewrite wp_ne, wn_ne.
    + intros a Ha. destruct (decide (a = e)) as [->|Na].
      * unfold wp, wn. by rewrite lookup_insert_eq, !lookup_alter_eq, Hc1.
      * rewrite wp_ne, wn_ne, (linked_frame _ _ _ _ R1 a Ha) by done. by rewrite !lookup_insert_ne.
Qed.

(** A move takes the entry out of its ring and puts it into the ring of the
    given head as the rings are then. *)
Section move.
Context (F h : lmem) (r1 r2 q1 q2 : list (Z * list Z)) (hd hd' e : Z) (xs ys zs : list Z).
Context (Hq : r1 ++ (hd, xs ++ ys) :: r2 = q1 ++ (hd', zs) :: q2).

Lemma list_move_ok : Rings F h (r1 ++ (hd, xs ++ e :: ys) :: r2) →
  ∃ h', list_move e hd' h = Ok ((), h') ∧ Rings F h' (q1 ++ (hd', e :: zs) :: q2).
Proof.
  intros (p & n & h1 & c & Ep & En & E1 & Hc1 & Ne & R1)%unlink_ok. rewrite Hq in *.
  destruct (list_add_ok _ _ _ _ _ _ e R1 Ne ltac:(eauto)) as (h' & E & R').
  exists h'. split; [unfold list_move; run Ep; run En; run E1; done|].
  eapply Rings_frame; [exact R'|done|]. intros a Ha. rewrite (linked_frame _ _ _ _ R' a Ha).
  apply lookup_insert_ne. intros ->. apply Ha. rewrite (proj1 (ring_lists _ _ _ _)). set_solver +.
Qed.

Lemma list_move_tail_ok : Rings F h (r1 ++ (hd, xs ++ e :: ys) :: r2) →
  ∃ h', list_move_tail e hd' h = Ok ((), h') ∧ Rings F h' (q1 ++ (hd', zs ++ [e]) :: q2).
Proof.
  intros (p & n & h1 & c & Ep & En & E1 & Hc1 & Ne & R1)%unlink_ok. rewrite Hq in *.
  destruct (list_add_tail_ok _ _ _ _ _ _ e R1 Ne ltac:(eauto)) as (h' & E & R').
  exists h'. split; [unfold list_move_tail; run Ep; run En; run E1; done|].
  eapply Rings_frame; [exact R'|done|]. intros a Ha. rewrite (linked_frame _ _ _ _ R' a Ha).
  apply lookup_insert_ne. intros ->. apply Ha. rewrite (proj1 (ring_lists _ _ _ _)). set_solver +.
Qed.
End move.

(** ** Replacing a node *)
Definition subst_node (old nelm x : Z) : Z := if x =? old then nelm else x.
Definition subst_ring (old nelm : Z) (r : Z * list Z) : Z * list Z :=
  (subst_node old nelm r.1, subst_node old nelm <$> r.2).

Lemma subst_node_eq old nelm : subst_node old nelm old = nelm.
Proof. unfold subst_node. by rewrite Z.eqb_refl. Qed.
Lemma subst_node_ne old nelm x : x ≠ old → subst_node old nelm x = x.
Proof. unfold subst_node. by intros ->%Z.eqb_neq. Qed.

Lemma firsts_subst old nelm rs : firsts (subst_ring old nelm <$> rs) = subst_node old nelm <$> firsts rs.
Proof.
  induction rs as [|[hd xs] rs IH]; [done|].
  rewrite fmap_cons. unfold subst_ring at 1. rewrite !firsts_cons, fmap_cons, fmap_app, IH. done.
Qed.
Lemma seconds_subst old nelm rs : seconds (subst_ring old nelm <$> rs) = subst_node old nelm <$> seconds rs.
Proof.
  induction rs as [|[hd xs] rs IH]; [done|].
  rewrite fmap_cons. unfold subst_ring at 1. rewrite !seconds_cons, fmap_app, IH. done.
Qed.

Lemma Forall2_both {A B} (R1 R2 : A → B → Prop) l k :
  Forall2 R1 l k → Forall2 R2 l k → Forall2 (λ x y, R1 x y ∧ R2 x y) l k.
Proof. induction 1; inversion_clear 1; auto. Qed.

Section replace.
Context (F h : lmem) (l m : list Z) (old nelm : Z).
Context (L : linked F h l m) (Hold : old ∈ l) (Hnew : nelm ∉ l) (Hs : is_Some (h !! nelm)).

Let linked_pair : Forall2 (λ x y, nextof h x = Some y ∧ prevof h y = Some x) l m.
Proof. destruct L. by apply Forall2_both. Qed.

(** The neighbours of [old], and how the links of the ring relate to them. *)
Lemma replace_around : ∃ p n, nextof h old = Some n ∧ prevof h old = Some p ∧ p ∈ l ∧ n ∈ l ∧
  nextof h p = Some old ∧ prevof h n = Some old ∧
  ∀ x y, nextof h x = Some y → prevof h y = Some x →
    (x = old ↔ y = n) ∧ (y = old ↔ x = p).
Proof.
  destruct (proj1 (list_elem_of_lookup _ _) Hold) as [i Hi].
  destruct (Forall2_lookup_l _ _ _ _ _ linked_pair Hi) as (n & Hn & N1 & N2).
  assert (Hold' : old ∈ m) by (by rewrite (linked_perm _ _ _ _ L)).
  destruct (proj1 (list_elem_of_lookup _ _) Hold') as [j Hj].
  destruct (Forall2_lookup_r _ _ _ _ _ linked_pair Hj) as (p & Hp & P1 & P2).
  exists p, n. do 2 (split; [done|]). split; [by eapply list_elem_of_lookup_2|].
  split; [rewrite <-(linked_perm _ _ _ _ L); by eapply list_elem_of_lookup_2|].
  do 2 (split; [done|]). intros x y N P. naive_solver congruence.
Qed.

Lemma replace_self : nextof h old = Some old → prevof h old = Some old →
  list_replace old nelm h = Ok ((), wn (wp (wp (wn h nelm old) old nelm) nelm nelm) nelm nelm).
Proof.
  intros N P. pose proof (nextof_some _ _ _ N). unfold list_replace.
  run (get_next_ok _ _ _ N). run (set_next_ok h nelm old Hs).
  run (get_next_ok _ _ _ (nextof_wn_eq h nelm old Hs)). run (set_prev_ok (wn h nelm old) old nelm ltac:(eauto with mclist)).
  run (get_prev_ok _ _ _ (prevof_wp_eq (wn h nelm old) old nelm ltac:(eauto with mclist))).
  run (set_prev_ok (wp (wn h nelm old) old nelm) nelm nelm ltac:(eauto with mclist)).
  run (get_prev_ok _ _ _ (prevof_wp_eq (wp (wn h nelm old) old nelm) nelm nelm ltac:(eauto with mclist))).
  apply set_next_ok. eauto with mclist.
Qed.

Lemma replace_other p n : nextof h old = Some n → prevof h old = Some p → n ≠ old →
  is_Some (h !! n) → is_Some (h !! p) →
  list_replace old nelm h = Ok ((), wn (wp (wp (wn h nelm n) n nelm) nelm p) p nelm).
Proof.
  intros N P Nn Hn Hp. assert (old ≠ nelm) by (by intros ->). unfold list_replace.
  run (get_next_ok _ _ _ N). run (set_next_ok h nelm n Hs).
  run (get_next_ok _ _ _ (nextof_wn_eq h nelm n Hs)). run (set_prev_ok (wn h nelm n) n nelm ltac:(eauto with mclist)).
  assert (P' : prevof (wp (wn h nelm n) n nelm) old = Some p) by (by rewrite prevof_wp_ne, prevof_wn).
  run (get_prev_ok _ _ _ P').
  run (set_prev_ok (wp (wn h nelm n) n nelm) nelm p ltac:(eauto with mclist)).
  run (get_prev_ok _ _ _ (prevof_wp_eq (wp (wn h nelm n) n nelm) nelm p ltac:(eauto with mclist))).
  apply set_next_ok. eauto with mclist.
Qed.

(** The links after the writes, for [old] alone in its ring and with others. *)
Lemma links_self x y : x ∈ l → y ∈ l → (x = old ↔ y = old) → nextof h x = Some y → prevof h y = Some x →
  let h' := wn (wp (wp (wn h nelm old) old nelm) nelm nelm) nelm nelm in
  nextof h' (subst_node old nelm x) = Some (subst_node old nelm y) ∧
  prevof h' (subst_node old nelm y) = Some (subst_node old nelm x).
Proof.
  intros Hx Hy Hxy N P h'. subst h'. assert (x ≠ nelm ∧ y ≠ nelm) as [Nx Ny] by (split; by intros ->).
  destruct (decide (x = old)) as [->|Nxo].
  - assert (y = old) as -> by tauto. rewrite !subst_node_eq. rewrite prevof_wn.
    split; [apply nextof_wn_eq|apply prevof_wp_eq]; eauto with mclist.
  - assert (y ≠ old) by tauto. rewrite !subst_node_ne by done.
    rewrite nextof_wn_ne, !nextof_wp, nextof_wn_ne by done.
    by rewrite prevof_wn, !prevof_wp_ne, prevof_wn by done.
Qed.

Lemma links_other p n x y : p ∈ l → n ∈ l → n ≠ old → p ≠ old → x ∈ l → y ∈ l →
  (x = old ↔ y = n) → (y = old ↔ x = p) → nextof h x = Some y → prevof h y = Some x →
  let h' := wn (wp (wp (wn h nelm n) n nelm) nelm p) p nelm in
  nextof h' (subst_node old nelm x) = Some (subst_node old nelm y) ∧
  prevof h' (subst_node old nelm y) = Some (subst_node old nelm x).
Proof.
  intros Hp Hn Nn Np Hx Hy Hxn Hyp N P h'. subst h'.
  assert (x ≠ nelm ∧ y ≠ nelm ∧ p ≠ nelm ∧ n ≠ nelm) as (Nx & Ny & Npn & Nnn) by (split_and!; by intros ->).
  pose proof (nextof_some _ _ _ N). pose proof (prevof_some _ _ _ P). split.
  - destruct (decide (x = old)) as [->|Nxo].
    + assert (y = n) as -> by tauto. rewrite subst_node_eq, subst_node_ne by done.
      rewrite nextof_wn_ne, !nextof_wp by done. by apply nextof_wn_eq.
    + rewrite (subst_node_ne _ _ x) by done. destruct (decide (x = p)) as [->|].
      * assert (y = old) as -> by tauto. rewrite subst_node_eq. apply nextof_wn_eq. eauto with mclist.
      * rewrite subst_node_ne by tauto. by rewrite nextof_wn_ne, !nextof_wp, nextof_wn_ne.
  - rewrite prevof_wn. destruct (decide (y = old)) as [->|Nyo].
    + assert (x = p) as -> by tauto. rewrite subst_node_eq, subst_node_ne by done.
      apply prevof_wp_eq. eauto with mclist.
    + rewrite (subst_node_ne _ _ y) by done. destruct (decide (y = n)) as [->|].
      * assert (x = old) as -> by tauto. rewrite subst_node_eq, prevof_wp_ne by done.
        apply prevof_wp_eq. eauto with mclist.
      * rewrite subst_node_ne by tauto. by rewrite !prevof_wp_ne, prevof_wn.
Qed.

(** What the writes of a replacement leave at the nodes and outside them. *)
Lemma replace_writes : ∃ h', list_replace old nelm h = Ok ((), h') ∧ is_Some (h' !! old) ∧
  Forall2 (λ x y, nextof h' (subst_node old nelm x) = Some (subst_node old nelm y) ∧
    prevof h' (subst_node old nelm y) = Some (subst_node old nelm x)) l m ∧
  ∀ a, a ∉ l → a ≠ nelm → h' !! a = h !! a.
Proof.
  destruct replace_around as (p & n & N & P & Hp & Hn & Np & Pn & Hxy).
  assert (Hm : ∀ y, y ∈ m → y ∈ l) by (intros y; by rewrite (linked_perm _ _ _ _ L)).
  pose proof (nextof_some _ _ _ N) as Ho.
  destruct (decide (n = old)) as [->|Nno].
  - assert (p = old) as -> by congruence. eexists. split; [by apply replace_self|].
    split; [by eauto 8 with mclist|]. split.
    + eapply Forall2_weaken; [|exact linked_pair]. intros x y Hx Hy [Nx Py].
      destruct (Hxy x y Nx Py). apply links_self; auto.
    + intros a Ha Na. assert (a ≠ old) by (by intros ->). by rewrite wn_ne, !wp_ne, wn_ne.
  - assert (p ≠ old) by congruence. eexists. split; [by apply replace_other; eauto with mclist|].
    split; [by eauto 8 with mclist|]. split.
    + eapply Forall2_weaken; [|exact linked_pair]. intros x y Hx Hy [Nx Py].
      destruct (Hxy x y Nx Py). apply links_other; auto.
    + intros a Ha Na. assert (a ≠ p ∧ a ≠ n) as [? ?] by (split; by intros ->). by rewrite wn_ne, !wp_ne, wn_ne.
Qed.

Lemma replace_core : ∃ h' c, list_replace old nelm h = Ok ((), h') ∧ h' !! old = Some c ∧
  linked (<[old := c]> F) h' (subst_node old nelm <$> l) (subst_node old nelm <$> m).
Proof.
  destruct replace_writes as (h' & E & [c Hc] & Hl & Hf). exists h', c. do 2 (split; [done|]). split.
  - apply NoDup_fmap_2_strong; [|by destruct L]. intros x y Hx Hy. unfold subst_node.
    destruct (Z.eqb_spec x old), (Z.eqb_spec y old); naive_solver.
  - by rewrite (linked_perm _ _ _ _ L).
  - apply Forall2_fmap_2. eapply Forall2_impl; [exact Hl|]. by intros x y [? ?].
  - apply Forall2_fmap_2. eapply Forall2_impl; [exact Hl|]. by intros x y [? ?].
  - intros a Ha. destruct (decide (a = old)) as [->|Na]; [by rewrite lookup_insert_eq|].
    assert (Hal : a ∉ l) by (intros Hal; apply Ha, list_elem_of_fmap; exists a; by rewrite subst_node_ne).
    assert (a ≠ nelm) by (intros ->; apply Ha, list_elem_of_fmap; exists old; by rewrite subst_node_eq).
    rewrite Hf, lookup_insert_ne by done. by apply L.
Qed.
End replace.

Lemma init_ok F h l m e : linked F h l m → e ∉ l → is_Some (h !! e) →
  ∃ h', INIT_LIST_HEAD e h = Ok ((), h') ∧ linked F h' (e :: l) (e :: m).
Proof.
  intros [Hn Hm Hnx Hpv Hf] Ne He. exists (wp (wn h e e) e e). split.
  { unfold INIT_LIST_HEAD. run (set_next_ok h e e He). apply set_prev_ok. eauto with mclist. }
  assert (Ne' : e ∉ m) by (by rewrite Hm). split.
  - by constructor.
  - by rewrite Hm.
  - constructor; [rewrite nextof_wp; by apply nextof_wn_eq|]. eapply Forall2_weaken; [|exact Hnx].
    intros x y Hx _ E. rewrite nextof_wp, nextof_wn_ne; [done|by intros ->].
  - constructor; [apply prevof_wp_eq; eauto with mclist|]. eapply Forall2_weaken; [|exact Hpv].
    intros x y _ Hy E. rewrite prevof_wp_ne, prevof_wn; [done|by intros ->].
  - intros a [Na Ha]%not_elem_of_cons. rewrite wp_ne, wn_ne by done. by apply Hf.
Qed.

Lemma list_replace_init_ok F h rs old nelm : Rings F h rs → old ∈ firsts rs → nelm ∉ firsts rs →
  is_Some (h !! nelm) →
  ∃ h', list_replace_init old nelm h = Ok ((), h') ∧ Rings F h' ((old, []) :: (subst_ring old nelm <$> rs)).
Proof.
  intros R Ho Hn Hs. destruct (replace_core F h _ _ old nelm R Ho Hn Hs) as (h1 & c & E1 & Hc & L1).
  assert (No : old ∉ subst_node old nelm <$> firsts rs).
  { intros (x & E & Hx)%list_elem_of_fmap. unfold subst_node in E.
    destruct (Z.eqb_spec x old); [|done]. by subst. }
  destruct (init_ok _ _ _ _ old L1 No ltac:(eauto)) as (h2 & E2 & L2).
  exists h2. split; [unfold list_replace_init; run E1; done|].
  unfold Rings. rewrite firsts_cons, seconds_cons, firsts_subst, seconds_subst. simpl.
  eapply linked_same; [exact L2|done|]. intros a Ha. rewrite (linked_frame _ _ _ _ L2 a Ha).
  apply lookup_insert_ne. intros ->. apply Ha. left.
Qed.

(** ** Iteration *)
Section iterate.
Context (F h : lmem) (r1 r2 : list (Z * list Z)) (hd : Z) (xs : list Z).
Context (R : Rings F h (r1 ++ (hd, xs) :: r2)).

Lemma ring_nodup : NoDup (hd :: xs).
Proof.
  pose proof (linked_nodup _ _ _ _ R) as Hn. rewrite (proj1 (ring_lists _ _ _ _)) in Hn.
  apply NoDup_app in Hn as (_ & _ & Hn). by apply (NoDup_app (hd :: xs)) in Hn as [? _].
Qed.

Lemma ring_head : nextof h hd = Some (after xs hd) ∧ prevof h hd = Some (before hd xs).
Proof.
  pose proof R as L. unfold Rings in L. destruct (ring_lists r1 hd xs r2) as [E1 E2]. rewrite E1, E2 in L.
  clear E1 E2.
  destruct (after_split xs hd) as (ws & Ew). destruct (before_split hd xs) as (zs & Ez & Lz). split.
  - rewrite Ew in L. by apply (linked_at _ _ _ _ _ _ _ _ (length_firsts r1) L).
  - rewrite Ez, !app_assoc in L. eapply linked_at; [|exact L]. rewrite !length_app, length_firsts. lia.
Qed.

Lemma ring_size : (length xs < S (size h))%nat.
Proof.
  assert (Hs : list_to_set xs ⊆ dom h).
  { intros x Hx%elem_of_list_to_set. apply list_elem_of_split in Hx as (ys & zs & ->).
    destruct (ring_at _ _ _ _ _ _ _ _ R) as (_ & N & _). apply elem_of_dom. by eapply nextof_some. }
  apply subseteq_size in Hs. rewrite size_dom, size_list_to_set in Hs; [lia|].
  eapply NoDup_cons. exact ring_nodup.
Qed.

Lemma ring_next ys x zs : xs = ys ++ x :: zs → get_next x h = Ok (after zs hd, h) ∧
  get_prev x h = Ok (before hd ys, h) ∧ x ≠ hd.
Proof.
  intros E. pose proof R as R'. pose proof ring_nodup as Hn. rewrite E in R', Hn.
  destruct (ring_at _ _ _ _ _ _ _ _ R') as (P & N & _).
  split; [by apply get_next_ok|]. split; [by apply get_prev_ok|]. intros ->.
  apply NoDup_cons in Hn as [Hn _]. apply Hn. set_solver +.
Qed.

Context {A : Type} (body : Z → M lmem A) (f : Z → A) (Hbody : ∀ x, x ∈ xs → body x h = Ok (f x, h)).

Lemma for_each_next_ok ys : ∀ zs n, xs = zs ++ ys → (length ys < n)%nat →
  for_each body get_next n (after ys hd) hd h = Ok (f <$> ys, h).
Proof.
  induction ys as [|y ys IH]; intros zs [|n] E Hn; [lia|..|lia|]; simpl in *.
  - unfold after. simpl. run (get_next_ok _ _ _ (proj1 ring_head)). by rewrite Z.eqb_refl.
  - destruct (ring_next _ _ _ E) as (N & _ & Ne). unfold after at 1. simpl.
    run N. apply Z.eqb_neq in Ne as ->. run (Hbody y ltac:(set_solver)). run N.
    run (IH (zs ++ [y]) n ltac:(by rewrite <-app_assoc) ltac:(lia)). done.
Qed.

Lemma list_for_each_ok : list_for_each body hd h = Ok (f <$> xs, h).
Proof.
  unfold list_for_each. run (get_next_ok _ _ _ (proj1 ring_head)).
  apply (for_each_next_ok xs []); [done|]. exact ring_size.
Qed.

Lemma for_each_prev_ok ys : ∀ zs n, xs = ys ++ zs → (length ys < n)%nat →
  for_each body get_prev n (before hd ys) hd h = Ok (f <$> reverse ys, h).
Proof.
  induction ys as [|y ys IH] using rev_ind; intros zs [|n] E Hn; [lia|..|lia|].
  - unfold before. simpl. run (get_prev_ok _ _ _ (proj2 ring_head)). by rewrite Z.eqb_refl.
  - rewrite <-app_assoc in E. destruct (ring_next _ _ _ E) as (_ & P & Ne). unfold before at 1.
    rewrite last_snoc, reverse_app. simpl. rewrite length_app in Hn. simpl in Hn.
    run P. apply Z.eqb_neq in Ne as ->. run (Hbody y ltac:(set_solver)). run P.
    run (IH ([y] ++ zs) n E ltac:(lia)). done.
Qed.

Lemma list_for_each_prev_ok : list_for_each_prev body hd h = Ok (f <$> reverse xs, h).
Proof.
  unfold list_for_each_prev. run (get_prev_ok _ _ _ (proj2 ring_head)).
  apply (for_each_prev_ok xs []); [by rewrite app_nil_r|]. exact ring_size.
Qed.
End iterate.

(** The macros over entries are the macros over nodes, shifted. *)
Section entries.
Context {A : Type} (off : Z) (body : Z → M lmem A).

Lemma list_entry_off p : list_entry off p + off = p.
Proof. unfold list_entry. lia. Qed.

Lemma for_each_entry_eq n : ∀ pos head h,
  for_each_entry off body n (list_entry off pos) head h =
  for_each (λ p, body (list_entry off p)) get_next n pos head h.
Proof.
  induction n as [|n IH]; intros pos head h; [done|]. simpl. rewrite list_entry_off.
  unfold mbind, M_bind. destruct (get_next pos h) as [[? h0]|]; [|done]. destruct (pos =? head); [done|].
  destruct (body (list_entry off pos) h0) as [[a h1]|]; [|done].
  destruct (get_next pos h1) as [[p h2]|]; [|done]. by rewrite IH.
Qed.

Lemma list_for_each_entry_eq head h : list_for_each_entry off body head h =
  list_for_each (λ p, body (list_entry off p)) head h.
Proof.
  unfold list_for_each_entry, list_for_each, mbind, M_bind.
  destruct (get_next head h) as [[p h']|]; [|done]. apply for_each_entry_eq.
Qed.

Lemma for_each_entry_safe_eq fuel : ∀ pos n head h,
  for_each_entry_safe off body fuel (list_entry off pos) (list_entry off n) head h =
  for_each_safe (λ p, body (list_entry off p)) fuel pos n head h.
Proof.
  induction fuel as [|fuel IH]; intros pos n head h; [done|]. simpl. rewrite !list_entry_off.
  destruct (pos =? head); [done|]. unfold mbind, M_bind.
  destruct (body (list_entry off pos) h) as [[a h1]|]; [|done].
  destruct (get_next n h1) as [[p h2]|]; [|done]. by rewrite IH.
Qed.

Lemma list_for_each_entry_safe_eq head h : list_for_each_entry_safe off body head h =
  list_for_each_safe (λ p, body (list_entry off p)) head h.
Proof.
  unfold list_for_each_entry_safe, list_for_each_safe, mbind, M_bind.
  destruct (get_next head h) as [[p h']|]; [|done]. rewrite list_entry_off.
  destruct (get_next p h') as [[q h'']|]; [|done]. apply for_each_entry_safe_eq.
Qed.
End entries.

(** ** Deleting while iterating *)
Definition del_when (d : Z → bool) (pos : Z) : M lmem unit :=
  if d pos then list_del pos else mret ().

Definition cleared (F : lmem) (xs : list Z) : lmem := foldl (λ F x, <[x := LH NULL NULL]> F) F xs.

Section safe.
Context (d : Z → bool) (r1 r2 : list (Z * list Z)) (hd : Z).

Lemma ring_after F h kept ys : Rings F h (r1 ++ (hd, kept ++ ys) :: r2) →
  ∃ n, get_next (after ys hd) h = Ok (n, h) ∧ ∀ x zs, ys = x :: zs → n = after zs hd.
Proof.
  intros R. destruct ys as [|y ys].
  - eexists. split; [eapply get_next_ok, (ring_head _ _ _ _ _ _ R)|done].
  - exists (after ys hd). split; [by apply (ring_next _ _ _ _ _ _ R kept y ys)|]. by intros x zs [= -> ->].
Qed.

Lemma del_when_ok F h kept y ys : Rings F h (r1 ++ (hd, kept ++ y :: ys) :: r2) →
  ∃ h', del_when d y h = Ok ((), h') ∧
    Rings (cleared F (if d y then [y] else [])) h' (r1 ++ (hd, (kept ++ if d y then [] else [y]) ++ ys) :: r2).
Proof.
  intros R. unfold del_when. destruct (d y).
  - rewrite app_nil_r. by apply list_del_ok.
  - exists h. split; [done|]. by rewrite <-app_assoc.
Qed.

Lemma for_each_safe_ok ys : ∀ F h kept n fuel, Rings F h (r1 ++ (hd, kept ++ ys) :: r2) →
  (∀ x zs, ys = x :: zs → n = after zs hd) → (length ys < fuel)%nat →
  ∃ l h', for_each_safe (del_when d) fuel (after ys hd) n hd h = Ok (l, h') ∧
    Rings (cleared F (filter (λ x, d x = true) ys)) h'
      (r1 ++ (hd, kept ++ filter (λ x, d x = false) ys) :: r2).
Proof.
  induction ys as [|y ys IH]; intros F h kept n [|fuel] R Hn Hf; [lia|..|lia|]; simpl in *.
  - unfold after. simpl. rewrite Z.eqb_refl. by eexists _, _.
  - destruct (ring_next _ _ _ _ _ _ R kept y ys eq_refl) as (_ & _ & Ne).
    apply Z.eqb_neq in Ne. unfold after at 1. simpl. rewrite Ne.
    destruct (del_when_ok _ _ _ _ _ R) as (h1 & E1 & R1). run E1.
    destruct (ring_after _ _ _ _ R1) as (n' & En & Hn'). rewrite (Hn y ys eq_refl). run En.
    destruct (IH _ _ _ n' fuel R1 Hn' ltac:(lia)) as (l & h' & E & R'). run E.
    eexists _, _. split; [done|]. rewrite !filter_cons.
    destruct (d y); [rewrite decide_True, decide_False by done|rewrite decide_False, decide_True by done];
      [by rewrite app_nil_r in R'|by rewrite <-app_assoc in R'].
Qed.

Lemma list_for_each_safe_ok F h xs : Rings F h (r1 ++ (hd, xs) :: r2) →
  ∃ l h', list_for_each_safe (del_when d) hd h = Ok (l, h') ∧
    Rings (cleared F (filter (λ x, d x = true) xs)) h' (r1 ++ (hd, filter (λ x, d x = false) xs) :: r2).
Proof.
  intros R. unfold list_for_each_safe. run (get_next_ok _ _ _ (proj1 (ring_head _ _ _ _ _ _ R))).
  destruct (ring_after F h [] xs R) as (n & En & Hn). run En.
  apply (for_each_safe_ok xs F h [] n); [done|done|]. by eapply ring_size.
Qed.
End safe.

(** ** Tests *)
Lemma tests_ok F h r1 hd xs r2 : Rings F h (r1 ++ (hd, xs) :: r2) →
  list_empty hd h = Ok (bool_decide (xs = []), h) ∧
  ∀ ys x zs, xs = ys ++ x :: zs →
    list_is_first x hd h = Ok (bool_decide (ys = []), h) ∧ list_is_last x hd h = Ok (bool_decide (zs = []), h).
Proof.
  intros R. pose proof (ring_nodup _ _ _ _ _ _ R) as [Hn _]%NoDup_cons. split.
  - unfold list_empty. run (get_next_ok _ _ _ (proj1 (ring_head _ _ _ _ _ _ R))).
    destruct xs as [|x xs]; unfold after; simpl; [by rewrite Z.eqb_refl|].
    assert (x ≠ hd) as ->%Z.eqb_neq by set_solver. done.
  - intros ys x zs ->. destruct (ring_next _ _ _ _ _ _ R ys x zs eq_refl) as (N & P & Ne).
    unfold list_is_first, list_is_last. run N. run P. unfold before, after, mret, M_ret. split; do 3 f_equal.
    + destruct ys as [|y ys _] using rev_ind; simpl; [by rewrite Z.eqb_refl|].
      rewrite last_snoc, bool_decide_false by (by destruct ys). apply Z.eqb_neq. set_solver.
    + destruct zs as [|z zs]; simpl; [by rewrite Z.eqb_refl|]. apply Z.eqb_neq. set_solver.
Qed.

(** ** The properties *)
Definition sample : lmem := list_to_map
  [(100, LH 1 3); (1, LH 2 100); (2, LH 3 1); (3, LH 100 2); (200, LH 200 200); (9, LH NULL NULL)].

Lemma sample_rings : Rings sample sample [(100, [1; 2; 3]); (200, [])].
Proof.
  split; [vm_compute; by apply (bool_decide_unpack _)| |repeat constructor|repeat constructor|done].
  change (([1; 2; 3] ++ [100]) ++ [200] ≡ₚ ([100] ++ [1; 2; 3]) ++ [200]). by rewrite (Permutation_app_comm [1; 2; 3]).
Qed.

(** [list_add] puts a node that is in no list at the front of the list,
    [list_add_tail] at its end; every other list and all other memory stay as
    they were, so the lists serve as stacks and as queues. *)
Theorem mclist_add_correct F h r1 hd xs r2 e : Rings F h (r1 ++ (hd, xs) :: r2) →
  e ∉ firsts (r1 ++ (hd, xs) :: r2) → is_Some (h !! e) →
  (∃ h', list_add e hd h = Ok ((), h') ∧ Rings F h' (r1 ++ (hd, e :: xs) :: r2)) ∧
  (∃ h', list_add_tail e hd h = Ok ((), h') ∧ Rings F h' (r1 ++ (hd, xs ++ [e]) :: r2)).
Proof. intros R Ne He. split; [by apply list_add_ok|by apply list_add_tail_ok]. Qed.

Lemma mclist_add_correct_witness :
  ∃ h', list_add_tail 9 100 sample = Ok ((), h') ∧ Rings sample h' [(100, [1; 2; 3; 9]); (200, [])].
Proof.
  apply (mclist_add_correct sample sample [] 100 [1; 2; 3] [(200, [])] 9 sample_rings);
    [by apply (bool_decide_unpack _)|by eexists].
Defined.

(** [list_move] and [list_move_tail] take an entry out of the list it is
    in and put it at the front, or at the end, of the list of the given head,
    which may be the same list; nothing else changes. *)
Theorem mclist_move_correct F h r1 hd xs e ys r2 q1 hd' zs q2 :
  Rings F h (r1 ++ (hd, xs ++ e :: ys) :: r2) → r1 ++ (hd, xs ++ ys) :: r2 = q1 ++ (hd', zs) :: q2 →
  (∃ h', list_move e hd' h = Ok ((), h') ∧ Rings F h' (q1 ++ (hd', e :: zs) :: q2)) ∧
  (∃ h', list_move_tail e hd' h = Ok ((), h') ∧ Rings F h' (q1 ++ (hd', zs ++ [e]) :: q2)).
Proof.
  intros R E. split; [by eapply list_move_ok; [exact E|]|by eapply list_move_tail_ok; [exact E|]].
Qed.

Lemma mclist_move_correct_witness :
  ∃ h', list_move 2 200 sample = Ok ((), h') ∧ Rings sample h' [(100, [1; 3]); (200, [2])].
Proof.
  exact (proj1 (mclist_move_correct sample sample [] 100 [1] 2 [3] [(200, [])]
    [(100, [1; 3])] 200 [] [] sample_rings eq_refl)).
Defined.

(** [list_replace_init] puts a new node in the place of an old one, be it
    an entry or the head of a list, and leaves the old one an empty list;
    nothing else changes. *)
Theorem mclist_replace_correct F h rs old nelm : Rings F h rs → old ∈ firsts rs → nelm ∉ firsts rs →
  is_Some (h !! nelm) →
  ∃ h', list_replace_init old nelm h = Ok ((), h') ∧ Rings F h' ((old, []) :: (subst_ring old nelm <$> rs)).
Proof. apply list_replace_init_ok. Qed.

Lemma mclist_replace_correct_witness :
  ∃ h', list_replace_init 100 9 sample = Ok ((), h') ∧ Rings sample h' [(100, []); (9, [1; 2; 3]); (200, [])].
Proof.
  apply (mclist_replace_correct sample sample [(100, [1; 2; 3]); (200, [])] 100 9 sample_rings);
    [by apply (bool_decide_unpack _)|by apply (bool_decide_unpack _)|by eexists].
Defined.

(** with a loop body that only reads, [list_for_each] and
    [list_for_each_entry] run the body on the entries of the list in order,
    [list_for_each_prev] in reverse order, each entry once and the head never. *)
Theorem mclist_for_each_correct {A} F h r1 hd xs r2 off (body : Z → M lmem A) f :
  Rings F h (r1 ++ (hd, xs) :: r2) → (∀ x, x ∈ xs → body x h = Ok (f x, h)) →
  list_for_each body hd h = Ok (f <$> xs, h) ∧
  list_for_each_prev body hd h = Ok (f <$> reverse xs, h) ∧
  list_for_each_entry off (λ p, body (p + off)) hd h = Ok (f <$> xs, h).
Proof.
  intros R Hb. split; [by eapply list_for_each_ok|]. split; [by eapply list_for_each_prev_ok|].
  rewrite list_for_each_entry_eq. eapply list_for_each_ok; [done|].
  intros x Hx. rewrite list_entry_off. by apply Hb.
Qed.

Lemma mclist_for_each_correct_witness :
  list_for_each (λ p, mret (10 * p)) 100 sample = Ok ([10; 20; 30], sample).
Proof.
  exact (proj1 (mclist_for_each_correct sample sample [] 100 [1; 2; 3] [(200, [])] 8
    (λ p, mret (10 * p)) (λ p, 10 * p) sample_rings (λ x _, eq_refl))).
Defined.

(** a [list_for_each_safe] loop whose body deletes the current entry when a
    test on it holds ends with the list of the entries on which it does not, in
    their order, the deleted nodes cleared and nothing else changed. *)
Theorem mclist_for_each_safe_correct d F h r1 hd xs r2 : Rings F h (r1 ++ (hd, xs) :: r2) →
  ∃ l h', list_for_each_safe (del_when d) hd h = Ok (l, h') ∧
    Rings (cleared F (filter (λ x, d x = true) xs)) h' (r1 ++ (hd, filter (λ x, d x = false) xs) :: r2).
Proof. apply list_for_each_safe_ok. Qed.

Lemma mclist_for_each_safe_correct_witness :
  ∃ l h', list_for_each_safe (del_when (λ x, x =? 2)) 100 sample = Ok (l, h') ∧
    Rings (<[2 := LH NULL NULL]> sample) h' [(100, [1; 3]); (200, [])].
Proof.
  exact (mclist_for_each_safe_correct (λ x, x =? 2) sample sample [] 100 [1; 2; 3] [(200, [])] sample_rings).
Defined.
