(* ===== verification/CInt.v ===== *)
(** Machine integers: the conversions to C's integer types, and the
    arithmetic meaning of the shifts and masks that pack and unpack bytes. *)
From S2P Require Import Prelude.

Definition u8 (x : Z) : Z := x mod 2 ^ 8.
Definition u16 (x : Z) : Z := x mod 2 ^ 16.
Definition u32 (x : Z) : Z := x mod 2 ^ 32.
Definition u64 (x : Z) : Z := x mod 2 ^ 64.
Definition s64 (x : Z) : Z := (x + 2 ^ 63) mod 2 ^ 64 - 2 ^ 63.
(** Conversion to [char] (signed) and to [int]. *)
Definition s8 (x : Z) : Z := (x + 2 ^ 7) mod 2 ^ 8 - 2 ^ 7.
Definition s32 (x : Z) : Z := (x + 2 ^ 31) mod 2 ^ 32 - 2 ^ 31.

Definition is_u8 (x : Z) : Prop := 0 ≤ x < 2 ^ 8.
Definition is_u32 (x : Z) : Prop := 0 ≤ x < 2 ^ 32.
Definition is_s8 (x : Z) : Prop := - 2 ^ 7 ≤ x < 2 ^ 7.

Lemma u32_range x : is_u32 (u32 x).
Proof. apply Z.mod_pos_bound. lia. Qed.
Lemma u32_id x : is_u32 x → u32 x = x.
Proof. apply Z.mod_small. Qed.
Lemma s8_range x : is_s8 (s8 x).
Proof. unfold s8, is_s8. pose proof (Z.mod_pos_bound (x + 2 ^ 7) (2 ^ 8)). lia. Qed.
Lemma s32_id x : - 2 ^ 31 ≤ x < 2 ^ 31 → s32 x = x.
Proof. intros H. unfold s32. rewrite Z.mod_small; lia. Qed.

(** A character survives being read as an unsigned byte. *)
Lemma s8_mod x : is_s8 x → s8 (x mod 2 ^ 8) = x.
Proof.
  unfold is_s8, s8. intros H. rewrite Zplus_mod_idemp_l. rewrite Z.mod_small; lia.
Qed.

(** Packing: a value shifted up leaves room for a smaller one. *)
Lemma lor_shiftl_add x y k : 0 ≤ k → 0 ≤ y < 2 ^ k → Z.lor (Z.shiftl x k) y = x * 2 ^ k + y.
Proof.
  intros Hk Hy. pose proof (Z.add_lor_land (Z.shiftl x k) y) as A. rewrite (Z.shiftl_mul_pow2 x k) in A at 3 by done.
  assert (E : Z.land (Z.shiftl x k) y = 0); [|lia].
  apply Z.bits_inj'. intros i Hi. rewrite Z.land_spec, Z.bits_0.
  destruct (decide (i < k)) as [Hik|Hik].
  - by rewrite Z.shiftl_spec_low.
  - destruct (decide (y = 0)) as [->|]; [by rewrite Z.bits_0, andb_false_r|].
    rewrite (Z.bits_above_log2 y i), andb_false_r; [done|lia|]. apply Z.log2_lt_pow2; [lia|].
    eapply Z.lt_le_trans; [apply Hy|]. apply Z.pow_le_mono_r; lia.
Qed.

(** Unpacking: the bits from [k] on, [w] of them. *)
Lemma shiftr_land x k w : 0 ≤ k → 0 ≤ w → Z.land (Z.shiftr x k) (Z.ones w) = x / 2 ^ k mod 2 ^ w.
Proof. intros Hk Hw. by rewrite Z.land_ones, Z.shiftr_div_pow2. Qed.

Lemma land_mask x w : 0 ≤ w → Z.land x (Z.ones w) = x mod 2 ^ w.
Proof. intros Hw. by apply Z.land_ones. Qed.

(** The digits of a number below [b ^ 4], and below [b ^ 3]. *)
Lemma digits4 b x : 0 < b → 0 ≤ x < b * b * b * b →
  ((x / (b * b * b) mod b * b + x / (b * b) mod b) * b + x / b mod b) * b + x mod b = x.
Proof.
  intros Hb Hx. pose proof (Z.div_mod x b ltac:(lia)). set (q := x / b) in *.
  assert (E2 : x / (b * b) = q / b) by (unfold q; rewrite Z.div_div; lia).
  assert (E3 : x / (b * b * b) = q / b / b) by (unfold q; rewrite !Z.div_div; try lia; f_equal; lia).
  rewrite E2, E3. pose proof (Z.div_mod q b ltac:(lia)). set (p := q / b) in *.
  pose proof (Z.div_mod p b ltac:(lia)). set (o := p / b) in *.
  assert (Ho : o mod b = o); [|rewrite Ho; nia].
  assert (Hq : 0 ≤ q < b * b * b) by (split; [apply Z.div_pos; lia|apply Z.div_lt_upper_bound; nia]).
  assert (Hp : 0 ≤ p < b * b) by (split; [apply Z.div_pos; lia|apply Z.div_lt_upper_bound; nia]).
  apply Z.mod_small. split; [apply Z.div_pos; lia|apply Z.div_lt_upper_bound; lia].
Qed.

Lemma digits3 b x : 0 < b → 0 ≤ x < b * b * b →
  (x / (b * b) mod b * b + x / b mod b) * b + x mod b = x.
Proof.
  intros Hb Hx. rewrite <-(digits4 b x) at 4 by nia.
  assert (E : x / (b * b * b) = 0) by (apply Z.div_small; lia). rewrite E, Zmod_0_l. lia.
Qed.

(** Bytes in memory on a little-endian machine, and [htons]. *)
Definition le16 (x : Z) : list Z := [x mod 2 ^ 8; x / 2 ^ 8 mod 2 ^ 8].
Definition le32 (x : Z) : list Z := le16 x ++ le16 (x / 2 ^ 16).
Definition le64 (x : Z) : list Z := le32 x ++ le32 (x / 2 ^ 32).
Definition htons (x : Z) : Z := x mod 2 ^ 8 * 2 ^ 8 + x / 2 ^ 8 mod 2 ^ 8.
Definition is_u16 (x : Z) : Prop := 0 ≤ x < 2 ^ 16.

Lemma u16_range x : is_u16 (u16 x).
Proof. apply Z.mod_pos_bound. lia. Qed.
Lemma u16_id x : is_u16 x → u16 x = x.
Proof. apply Z.mod_small. Qed.

Lemma le16_u8 x : Forall is_u8 (le16 x).
Proof. repeat constructor; apply Z.mod_pos_bound; lia. Qed.

Lemma le16_value x : is_u16 x → x mod 2 ^ 8 + 2 ^ 8 * (x / 2 ^ 8 mod 2 ^ 8) = x.
Proof.
  intros [? ?]. rewrite (Z.mod_small (x / 2 ^ 8)).
  - pose proof (Z.div_mod x (2 ^ 8)). lia.
  - split; [apply Z.div_pos; lia|apply Z.div_lt_upper_bound; lia].
Qed.

Lemma htons_range x : is_u16 (htons x).
Proof.
  unfold htons, is_u16. pose proof (Z.mod_pos_bound x (2 ^ 8)). pose proof (Z.mod_pos_bound (x / 2 ^ 8) (2 ^ 8)). lia.
Qed.

Lemma le16_htons x : le16 (htons x) = [x / 2 ^ 8 mod 2 ^ 8; x mod 2 ^ 8].
Proof.
  unfold le16, htons. pose proof (Z.mod_pos_bound x (2 ^ 8)). pose proof (Z.mod_pos_bound (x / 2 ^ 8) (2 ^ 8)).
  set (a := x mod 2 ^ 8) in *. set (b := x / 2 ^ 8 mod 2 ^ 8) in *. f_equal.
  - rewrite Z.add_comm, Z.mod_add by lia. apply Z.mod_small. lia.
  - f_equal. rewrite Z.add_comm, Z.div_add by lia. rewrite (Z.div_small b) by lia. apply Z.mod_small. lia.
Qed.
