(* ===== verification/CArr.v ===== *)
(** Arrays of integers: a list that is read and written by index, where an
    access outside of it is [Segv], and character arrays given as strings. *)
From Stdlib Require Import String Ascii.
From S2P Require Import Prelude.

Notation arr := (list Z).

Definition aget (i : Z) : M arr Z := λ l,
  if i <? 0 then Err Segv else
  match l !! Z.to_nat i with Some v => Ok (v, l) | None => Err Segv end.
Definition aset (i v : Z) : M arr unit := λ l,
  if i <? 0 then Err Segv else
  if bool_decide (Z.to_nat i < length l)%nat then Ok ((), <[Z.to_nat i := v]> l) else Err Segv.

(** A read of an array that is not part of the state. *)
Definition cget {S} (data : arr) (i : Z) : M S Z := λ s,
  if i <? 0 then Err Segv else
  match data !! Z.to_nat i with Some v => Ok (v, s) | None => Err Segv end.

(** The characters of a literal, without the terminating NUL. *)
Definition chars (s : string) : arr := (λ a, Z.of_N (N_of_ascii a)) <$> list_ascii_of_string s.

Lemma aget_ok i l : (i < length l)%nat → aget (Z.of_nat i) l = Ok (l !!! i, l).
Proof.
  intros H. unfold aget. rewrite (proj2 (Z.ltb_ge _ _)) by lia. rewrite Nat2Z.id.
  by rewrite (list_lookup_lookup_total_lt l i H).
Qed.
Lemma aset_ok i v l : (i < length l)%nat → aset (Z.of_nat i) v l = Ok ((), <[i := v]> l).
Proof.
  intros H. unfold aset. rewrite (proj2 (Z.ltb_ge _ _)) by lia. rewrite Nat2Z.id.
  by rewrite bool_decide_true.
Qed.

Lemma aset_app (l1 l2 : arr) x y k : k = Z.of_nat (length l1) → aset k y (l1 ++ x :: l2) = Ok ((), l1 ++ y :: l2).
Proof.
  intros ->. rewrite aset_ok by (rewrite length_app; simpl; lia). by rewrite insert_app_r_alt, Nat.sub_diag by lia.
Qed.

Section const.
Context {St : Type} (s : St).

Lemma cget_ok (data : arr) (i : nat) v : data !! i = Some v → cget data (Z.of_nat i) s = Ok (v, s).
Proof. intros H. unfold cget. rewrite (proj2 (Z.ltb_ge _ _)) by lia. by rewrite Nat2Z.id, H. Qed.

Lemma cget_app (l1 l2 : arr) x k : k = Z.of_nat (length l1) → cget (l1 ++ x :: l2) k s = Ok (x, s).
Proof. intros ->. apply cget_ok. by rewrite lookup_app_r, Nat.sub_diag by lia. Qed.

Lemma cget_in (data : arr) k : 0 ≤ k < Z.of_nat (length data) → ∃ v, cget data k s = Ok (v, s).
Proof.
  intros H. destruct (lookup_lt_is_Some_2 data (Z.to_nat k)) as [v Hv]; [lia|].
  exists v. rewrite <-(Z2Nat.id k) by lia. by apply cget_ok.
Qed.

Lemma cget_out (data : arr) k : k < 0 → cget data k s = Err Segv.
Proof. intros H. unfold cget. by rewrite (proj2 (Z.ltb_lt _ _)). Qed.
End const.

Lemma aset_in (l : arr) k v : 0 ≤ k < Z.of_nat (length l) → ∃ l', aset k v l = Ok ((), l') ∧ length l' = length l.
Proof.
  intros H. exists (<[Z.to_nat k := v]> l). split; [|by rewrite length_insert].
  rewrite <-(Z2Nat.id k) at 1 by lia. apply aset_ok. lia.
Qed.

Lemma aset_at out l i k v : k = Z.of_nat (length out) + Z.of_nat i → (i < length l)%nat →
  aset k v (out ++ l) = Ok ((), out ++ <[i := v]> l).
Proof.
  intros -> Hi. rewrite <-Nat2Z.inj_add, aset_ok by (rewrite length_app; lia). by rewrite insert_app_r.
Qed.

Lemma drop_next {A} (l : list A) n x r : drop n l = x :: r → drop (S n) l = r ∧ l !! n = Some x ∧ (n < length l)%nat.
Proof.
  intros E. assert (H : l !! n = Some x) by (rewrite <-(Nat.add_0_r n), <-lookup_drop; by rewrite E).
  split; [|split; [done|by eapply lookup_lt_Some]]. rewrite (drop_S l x n H) in E. by injection E.
Qed.
