(* ===== verification/CBuf.v ===== *)
(** * Strings in character buffers

    The functions of string.h the programs use.  A buffer is a list of bytes;
    the string in it ends at the first NUL. *)
From S2P Require Import Prelude CArr.

(** The string at the start of a buffer; [None] when there is no NUL. *)
Fixpoint cstr (b : arr) : option arr :=
  match b with
  | [] => None
  | x :: b => if x =? 0 then Some [] else (x ::.) <$> cstr b
  end.

Definition no_nul (s : arr) : Prop := Forall (λ c, c ≠ 0) s.

#[export] Instance no_nul_dec s : Decision (no_nul s).
Proof. apply Forall_dec. intros c. apply _. Defined.

Lemma cstr_app s b : no_nul s → cstr (s ++ 0 :: b) = Some s.
Proof.
  induction 1 as [|x s Hx Hs IH]; simpl; [done|]. by rewrite (proj2 (Z.eqb_neq x 0)), IH.
Qed.

Lemma cstr_Some b s : cstr b = Some s ↔ no_nul s ∧ ∃ r, b = s ++ 0 :: r.
Proof.
  split; [|intros (Hs & r & ->); by apply cstr_app].
  revert s. induction b as [|x b IH]; intros s; simpl; [done|].
  destruct (Z.eqb_spec x 0) as [->|Hx]; [intros [= <-]; split; [constructor|by exists b]|].
  destruct (cstr b) as [t|] eqn:E; simpl; [|done]. intros [= <-].
  destruct (IH t eq_refl) as (Ht & r & ->). split; [by constructor|by exists r].
Qed.

Lemma cstr_None b : cstr b = None ↔ no_nul b.
Proof.
  induction b as [|x b IH]; simpl; [split; [constructor|done]|].
  unfold no_nul in *. rewrite Forall_cons. destruct (Z.eqb_spec x 0) as [->|Hx]; [naive_solver|].
  rewrite fmap_None, IH. naive_solver.
Qed.

(** [s] starts with [p]. *)
Fixpoint starts_with (p s : arr) : bool :=
  match p, s with
  | [], _ => true
  | x :: p, y :: s => (x =? y) && starts_with p s
  | _ :: _, [] => false
  end.

Lemma starts_with_spec p s : starts_with p s = true ↔ ∃ r, s = p ++ r.
Proof.
  revert s. induction p as [|x p IH]; intros s; simpl; [split; eauto|].
  destruct s as [|y s]; [split; [done|by intros (r & ?)]|].
  rewrite andb_true_iff, Z.eqb_eq, IH. split.
  - intros (-> & r & ->). by exists r.
  - intros (r & [= -> ->]). eauto.
Qed.

(** [strstr]: the position of the first occurrence of [p]. *)
Fixpoint strstr (s p : arr) : option nat :=
  if starts_with p s then Some 0%nat
  else match s with [] => None | _ :: s => S <$> strstr s p end.

Lemma strstr_Some s p n :
  strstr s p = Some n ↔
  (∃ r, drop n s = p ++ r) ∧ (n ≤ length s)%nat ∧ ∀ k, (k < n)%nat → ¬ ∃ r, drop k s = p ++ r.
Proof.
  revert n. induction s as [|x s IH]; intros n; simpl.
  - destruct (starts_with p []) eqn:E.
    + apply starts_with_spec in E as [r E]. split; [intros [= <-]; simpl; eauto with lia|].
      intros (_ & Hn & _). f_equal. lia.
    + split; [done|]. intros ((r & Hr) & Hn & _). rewrite drop_nil in Hr.
      assert (starts_with p [] = true) by (apply starts_with_spec; eauto). congruence.
  - destruct (starts_with p (x :: s)) eqn:E.
    + apply starts_with_spec in E as [r E].
      split; [intros [= <-]; split; [by exists r|split; [lia|intros; lia]]|].
      intros (_ & _ & Hm). destruct n as [|n]; [done|]. exfalso. apply (Hm 0%nat); [lia|]. by exists r.
    + assert (¬ ∃ r, x :: s = p ++ r) as Hx by (rewrite <- starts_with_spec, E; done).
      rewrite fmap_Some. split.
      * intros (k & Hk & ->). apply IH in Hk as (Hr & Hl & Hm). split; [done|]. split; [lia|].
        intros [|j] Hj; [done|]. apply Hm. lia.
      * intros (Hr & Hl & Hm). destruct n as [|n]; [done|]. exists n. split; [|done]. apply IH.
        split; [done|]. split; [lia|]. intros k Hk. apply (Hm (S k)). lia.
Qed.

Lemma strstr_None s p : strstr s p = None ↔ ∀ k, ¬ ∃ r, drop k s = p ++ r.
Proof.
  induction s as [|x s IH]; simpl.
  - destruct (starts_with p []) eqn:E.
    + apply starts_with_spec in E. split; [done|]. intros H. by destruct (H 0%nat).
    + split; [|done]. intros _ k. rewrite drop_nil, <- starts_with_spec, E. done.
  - destruct (starts_with p (x :: s)) eqn:E.
    + apply starts_with_spec in E. split; [done|]. intros H. by destruct (H 0%nat).
    + rewrite fmap_None, IH. split.
      * intros H [|k]; [|apply H]. simpl. rewrite <- starts_with_spec, E. done.
      * intros H k. apply (H (S k)).
Qed.

(** [strchr]. *)
Fixpoint strchr (s : arr) (c : Z) : option nat :=
  match s with
  | [] => None
  | x :: s => if x =? c then Some 0%nat else S <$> strchr s c
  end.

Lemma strchr_Some s c n :
  strchr s c = Some n ↔ s !! n = Some c ∧ ∀ k, (k < n)%nat → s !! k ≠ Some c.
Proof.
  revert n. induction s as [|x s IH]; intros n; simpl; [by split; [|intros [? _]]|].
  destruct (Z.eqb_spec x c) as [->|Hx].
  - split; [intros [= <-]; split; [done|intros; lia]|].
    intros [Hn Hk]. destruct n as [|n]; [done|]. by destruct (Hk 0%nat ltac:(lia)).
  - rewrite fmap_Some. split.
    + intros (k & Hk & ->). apply IH in Hk as [Hk Hm]. split; [done|]. intros [|j] Hj; simpl; [congruence|].
      apply Hm. lia.
    + intros [Hn Hm]. destruct n as [|n]; [simpl in Hn; congruence|]. exists n. split; [|done]. apply IH.
      split; [done|]. intros k Hk. apply (Hm (S k)). lia.
Qed.

Lemma strchr_None s c : strchr s c = None ↔ c ∉ s.
Proof.
  induction s as [|x s IH]; simpl; [split; [intros _; apply not_elem_of_nil|done]|].
  rewrite not_elem_of_cons. destruct (Z.eqb_spec x c) as [->|Hx]; [naive_solver|].
  rewrite fmap_None, IH. naive_solver.
Qed.

Lemma strchr_app s c r : c ∉ s → strchr (s ++ c :: r) c = Some (length s).
Proof.
  intros Hs. apply strchr_Some. split; [by apply list_lookup_middle|]. intros k Hk E. apply Hs.
  rewrite lookup_app_l in E by done. by eapply list_elem_of_lookup_2.
Qed.

(** *** Decimal numbers, as printed with [%d] and [%u] *)
Fixpoint dec_digits (fuel : nat) (n : Z) : arr :=
  match fuel with
  | O => []
  | S fuel => if n <? 10 then [48 + n] else dec_digits fuel (n / 10) ++ [48 + n mod 10]
  end.

Definition dec (n : Z) : arr :=
  if n <? 0 then 45 :: dec_digits (S (Z.to_nat (- n))) (- n) else dec_digits (S (Z.to_nat n)) n.
