(* ===== verification/Sort.v ===== *)
(** Bubble sort and heap sort (src/sort/sort.c, src/util/util.c).

    Both sorts are shown to terminate and to leave a sorted permutation of the
    array, and hence to agree. *)
From S2P Require Import Prelude CArr.

#[local] Coercion Z.of_nat : nat >-> Z.

Definition swap (a b : Z) : M arr unit :=
  temp ← aget a;
  v ← aget b; aset a v;;
  aset b temp.

(** [for (k = from; ...; k--)] running [n] times. *)
Fixpoint for_down (n : nat) (from : Z) (body : Z → M arr unit) : M arr unit :=
  match n with O => mret () | S n => body from;; for_down n (from - 1) body end.
Fixpoint for_up (n : nat) (from : Z) (body : Z → M arr unit) : M arr unit :=
  match n with O => mret () | S n => body from;; for_up n (from + 1) body end.

Definition bubble_step (j : Z) : M arr unit :=
  x ← aget (j - 1); y ← aget j;
  if x >? y then
    temp ← aget (j - 1);
    v ← aget j; aset (j - 1) v;;
    aset j temp
  else mret ().

Definition bubble (size : Z) : M arr unit :=
  for_up (Z.to_nat size) 0 (λ i,
    for_down (Z.to_nat (size - 1 - i)) (size - 1) bubble_step).

(** The test [p && arr[q] > arr[max]] of [adjust_heap], which reads the array
    only when [p] holds. *)
Definition child_larger (p : bool) (q max : Z) : M arr bool :=
  if p then x ← aget q; y ← aget max; mret (x >? y) else mret false.

Fixpoint adjust_heap (n : nat) (i size : Z) : M arr unit :=
  match n with
  | O => fail Fuel
  | S n =>
      let lchild := 2 * i in
      let rchild := 2 * i + 1 in
      let max := i in
      if i <=? Z.quot size 2 then
        b ← child_larger (lchild <? size) lchild max;
        let max := if (b : bool) then lchild else max in
        b ← child_larger (rchild <? size) rchild max;
        let max := if (b : bool) then rchild else max in
        if negb (max =? i) then
          swap i max;;
          adjust_heap n max size
        else mret ()
      else mret ()
  end.

Definition adjust (i size : Z) : M arr unit := λ l, adjust_heap (S (length l)) i size l.

Definition build_heap (size : Z) : M arr unit :=
  for_down (Z.to_nat (Z.quot size 2 + 1)) (Z.quot size 2) (λ k, adjust k size).

Definition heap_sort (size : Z) : M arr unit :=
  build_heap size;;
  for_down (Z.to_nat size) (size - 1) (λ i,
    swap 0 i;;
    adjust 0 i).

(** ** Reading and swapping *)
Definition swp (i j : nat) (l : arr) : arr := <[j := l !!! i]> (<[i := l !!! j]> l).

Lemma swp_length i j l : length (swp i j l) = length l.
Proof. unfold swp. by rewrite !length_insert. Qed.

Lemma swp_lookup i j l k : (i < length l)%nat → (j < length l)%nat →
  swp i j l !!! k = if decide (k = i) then l !!! j else if decide (k = j) then l !!! i else l !!! k.
Proof.
  intros Hi Hj. unfold swp. destruct (decide (k = j)) as [->|Nj].
  - rewrite list_lookup_total_insert_eq by (by rewrite length_insert). by case_decide; subst.
  - rewrite list_lookup_total_insert_ne by done. case_decide as D; [subst|by rewrite list_lookup_total_insert_ne].
    by rewrite list_lookup_total_insert_eq.
Qed.

Lemma swp_perm i j l : (i < length l)%nat → (j < length l)%nat → swp i j l ≡ₚ l.
Proof.
  intros Hi Hj. apply Permutation_insert_swap; by apply list_lookup_lookup_total_lt.
Qed.

Lemma swap_ok i j l : (i < length l)%nat → (j < length l)%nat →
  swap (Z.of_nat i) (Z.of_nat j) l = Ok ((), swp i j l).
Proof.
  intros Hi Hj. unfold swap. run (aget_ok i l Hi). run (aget_ok j l Hj). run (aset_ok i (l !!! j) l Hi).
  apply aset_ok. by rewrite length_insert.
Qed.

(** ** Loops *)
Section loops.
Context (body : Z → M arr unit) (I : Z → arr → Prop).

Lemma for_up_inv (n : nat) : ∀ from l,
  (∀ k l, from ≤ k < from + n → I k l → ∃ l', body k l = Ok ((), l') ∧ I (k + 1) l') → I from l →
  ∃ l', for_up n from body l = Ok ((), l') ∧ I (from + n) l'.
Proof.
  induction n as [|n IH]; intros from l Hb HI; simpl.
  - exists l. by rewrite Z.add_0_r.
  - destruct (Hb from l) as (l1 & E1 & HI1); [lia|done|]. run E1.
    destruct (IH (from + 1) l1) as (l2 & E2 & HI2); [|done|].
    + intros k l' Hk. apply Hb. lia.
    + exists l2. split; [done|]. by replace (from + S n) with (from + 1 + n) by lia.
Qed.

Lemma for_down_inv (n : nat) : ∀ from l,
  (∀ k l, from - n < k ≤ from → I k l → ∃ l', body k l = Ok ((), l') ∧ I (k - 1) l') → I from l →
  ∃ l', for_down n from body l = Ok ((), l') ∧ I (from - n) l'.
Proof.
  induction n as [|n IH]; intros from l Hb HI; simpl.
  - exists l. by rewrite Z.sub_0_r.
  - destruct (Hb from l) as (l1 & E1 & HI1); [lia|done|]. run E1.
    destruct (IH (from - 1) l1) as (l2 & E2 & HI2); [|done|].
    + intros k l' Hk. apply Hb. lia.
    + exists l2. split; [done|]. by replace (from - S n) with (from - 1 - n) by lia.
Qed.
End loops.

(** Case analysis on the reads of a swapped array. *)
Ltac swp_cases := rewrite ?swp_lookup in * by lia; repeat case_decide; subst; try lia.

(** The entries below [i] are in place: each is at most all that follow it. *)
Definition placed (i n : nat) (l : arr) : Prop := ∀ a b, (a < i)%nat → (a ≤ b < n)%nat → l !!! a ≤ l !!! b.

Lemma placed_sorted l : placed (length l) (length l) l → StronglySorted Z.le l.
Proof.
  induction l as [|x l IH]; intros Hp; constructor.
  - apply IH. intros a b Ha Hb. apply (Hp (S a) (S b)); simpl; lia.
  - apply Forall_lookup. intros i y Hy. pose proof (lookup_lt_Some _ _ _ Hy).
    rewrite <-(list_lookup_total_correct _ _ _ Hy). apply (Hp O (S i)); simpl; lia.
Qed.

(** ** Bubble sort *)
Section bubble.
Context (l0 : arr).
Notation n := (length l0).

Definition bubbling (i j : Z) (l : arr) : Prop :=
  l ≡ₚ l0 ∧ placed (Z.to_nat i) n l ∧ ∀ b, (Z.to_nat j ≤ b < n)%nat → l !!! Z.to_nat j ≤ l !!! b.

Lemma bubble_step_ok i j l : 0 ≤ i < j → j < n → bubbling i j l →
  ∃ l', bubble_step j l = Ok ((), l') ∧ bubbling i (j - 1) l'.
Proof.
  intros Hi Hj (HP & Hp & Hm). assert (Hl : length l = n) by (by rewrite HP).
  assert (∃ q, j = Z.of_nat (S q)) as [q ->] by (exists (Z.to_nat (j - 1)); lia).
  rewrite Nat2Z.id in Hm. unfold bubble_step. replace (Z.of_nat (S q) - 1) with (Z.of_nat q) by lia.
  run (aget_ok q l ltac:(lia)). run (aget_ok (S q) l ltac:(lia)).
  destruct (Z.gtb_spec (l !!! q) (l !!! S q)) as [Hgt|Hle].
  - exists (swp q (S q) l). split; [apply (swap_ok q (S q)); lia|]. split; [|split].
    + rewrite swp_perm by lia. done.
    + intros a b Ha Hb. swp_cases; apply Hp; lia.
    + intros b Hb. rewrite Nat2Z.id in *. swp_cases; apply Hm; lia.
  - exists l. split; [done|]. do 2 (split; [done|]). intros b Hb. rewrite Nat2Z.id in *.
    destruct (decide (b = q)) as [->|]; [lia|]. etrans; [exact Hle|]. apply Hm. lia.
Qed.

Lemma bubble_ok : ∃ l, bubble (length l0) l0 = Ok ((), l) ∧ l ≡ₚ l0 ∧ StronglySorted Z.le l.
Proof.
  set (I := λ (i : Z) (l : arr), l ≡ₚ l0 ∧ placed (Z.to_nat i) n l).
  destruct (for_up_inv (λ i, for_down (Z.to_nat (n - 1 - i)) (n - 1) bubble_step) I (Z.to_nat n) 0 l0)
    as (l & E & HP & Hp).
  - intros i l Hi (HP & Hp).
    destruct (for_down_inv bubble_step (bubbling i) (Z.to_nat (n - 1 - i)) (n - 1) l) as (l' & E & HP' & Hp' & Hm).
    + intros k l' Hk. apply bubble_step_ok; lia.
    + split; [done|]. split; [done|]. intros b Hb. by replace b with (Z.to_nat (n - 1)) by lia.
    + exists l'. split; [done|]. split; [done|]. intros a b Ha Hb.
      replace (n - 1 - Z.to_nat (n - 1 - i)) with i in * by lia.
      destruct (decide (a = Z.to_nat i)) as [->|]; [by apply Hm|]. apply Hp'; lia.
  - split; [done|]. intros a b; lia.
  - exists l. split; [done|]. split; [done|]. apply placed_sorted.
    rewrite HP at 1 2. by replace (Z.to_nat (0 + Z.to_nat n)) with n in Hp by lia.
Qed.
End bubble.

(** ** Heap sort

    The array from index 0 is a tree in which [k >= 1] is below [k / 2]: the
    root has the one child 1, and its "left child" is itself. *)
Definition below (k p n : nat) : Prop := (1 ≤ k < n)%nat ∧ (k = 2 * p ∨ k = 2 * p + 1)%nat.

Definition heap (lo n : nat) (l : arr) : Prop :=
  ∀ p k, (lo ≤ p)%nat → below k p n → l !!! k ≤ l !!! p.

(** A heap but for the order between [i] and its children. *)
Definition sift (i lo n : nat) (l : arr) : Prop :=
  (∀ p k, (lo ≤ p)%nat → below k p n → p ≠ i → l !!! k ≤ l !!! p) ∧
  (∀ p k, (lo ≤ p)%nat → below i p n → below k i n → l !!! k ≤ l !!! p).

Definition rearranged (n : nat) (l l' : arr) : Prop :=
  l' ≡ₚ l ∧ (∀ k, (n ≤ k)%nat → l' !!! k = l !!! k) ∧
  ∀ v, (∀ k, (k < n)%nat → l !!! k ≤ v) → ∀ k, (k < n)%nat → l' !!! k ≤ v.

Lemma rearranged_refl n l : rearranged n l l.
Proof. done. Qed.
Lemma rearranged_trans n l1 l2 l3 : rearranged n l1 l2 → rearranged n l2 l3 → rearranged n l1 l3.
Proof.
  intros (P1 & S1 & B1) (P2 & S2 & B2). split; [by rewrite P2|]. split.
  - intros k Hk. by rewrite S2, S1.
  - intros v Hv. by apply B2, B1.
Qed.
Lemma rearranged_swp n i j l : (i < n)%nat → (j < n)%nat → (n ≤ length l)%nat → rearranged n l (swp i j l).
Proof.
  intros Hi Hj Hn. split; [apply swp_perm; lia|]. split.
  - intros k Hk. swp_cases.
  - intros v Hv k Hk. swp_cases; apply Hv; lia.
Qed.

Lemma half_spec (n : nat) : 0 ≤ Z.quot n 2 ∧ 2 * Z.quot n 2 ≤ n < 2 * Z.quot n 2 + 2.
Proof. pose proof (Z.quot_rem' n 2). pose proof (Z.rem_bound_pos n 2). lia. Qed.

Section adjust.
Context (n lo : nat).

Lemma child_larger_ok (c m : nat) l : (n ≤ length l)%nat → (m < n ∨ n ≤ c)%nat →
  child_larger (c <? n) c m l = Ok (bool_decide (c < n)%nat && (l !!! c >? l !!! m), l).
Proof.
  intros Hl Hm. unfold child_larger. destruct (Z.ltb_spec c n).
  - rewrite bool_decide_true by lia. run (aget_ok c l ltac:(lia)). by run (aget_ok m l ltac:(lia)).
  - by rewrite bool_decide_false by lia.
Qed.

(** The index [adjust_heap] continues with. *)
Definition larger (l : arr) (c m : nat) : nat :=
  if bool_decide (c < n)%nat && (l !!! c >? l !!! m) then c else m.
Definition pick (l : arr) (i : nat) : nat := larger l (2 * i + 1) (larger l (2 * i) i).

Lemma larger_Z (l : arr) (c m : nat) :
  (if bool_decide (c < n)%nat && (l !!! c >? l !!! m) then c : Z else m) = larger l c m.
Proof. unfold larger. by case_match. Qed.

Lemma larger_spec l c m : (larger l c m = m ∨ larger l c m = c ∧ (c < n)%nat ∧ l !!! m < l !!! c) ∧
  l !!! m ≤ l !!! larger l c m ∧ ((c < n)%nat → l !!! c ≤ l !!! larger l c m).
Proof.
  unfold larger. destruct (decide (c < n)%nat); [rewrite bool_decide_true by done|rewrite bool_decide_false by done];
    simpl; [|naive_solver lia].
  destruct (Z.gtb_spec (l !!! c) (l !!! m)); naive_solver lia.
Qed.

Lemma pick_spec l i : (pick l i = i ∨ below (pick l i) i n ∧ pick l i ≠ i) ∧
  l !!! i ≤ l !!! pick l i ∧ ∀ k, below k i n → l !!! k ≤ l !!! pick l i.
Proof.
  unfold pick. destruct (larger_spec l (2 * i) i) as (A1 & B1 & C1).
  destruct (larger_spec l (2 * i + 1) (larger l (2 * i) i)) as (A2 & B2 & C2).
  set (m1 := larger l (2 * i) i) in *. set (m2 := larger l (2 * i + 1) m1) in *. split; [|split].
  - unfold below. destruct A2 as [->|(-> & ? & ?)]; [|right; lia].
    destruct A1 as [->|(-> & ? & ?)]; [by left|]. destruct (decide (i = 0%nat)) as [->|]; [by left|right; lia].
  - lia.
  - intros k [Hk [-> | ->]]; [specialize (C1 ltac:(lia)); lia|by apply C2; lia].
Qed.

Lemma sift_done i l : sift i lo n l → (∀ k, below k i n → l !!! k ≤ l !!! i) → heap lo n l.
Proof. intros [H1 H2] Hk p k Hp Hb. destruct (decide (p = i)) as [->|]; [by apply Hk|by apply H1]. Qed.

Lemma sift_swp i m l : sift i lo n l → below m i n → m ≠ i → (n ≤ length l)%nat → l !!! i ≤ l !!! m →
  (∀ k, below k i n → l !!! k ≤ l !!! m) → sift m lo n (swp i m l).
Proof.
  intros [H1 H2] Hm Nm Hl Him Hk. assert (i < m < n)%nat by (unfold below in Hm; lia). split.
  - intros p k Hp Hb Npm. swp_cases; first [by apply H1|by apply H2|by apply Hk|unfold below in *; lia].
  - intros p k Hp Hb Hb'. assert (p = i) as -> by (unfold below in *; lia).
    assert (k ≠ i ∧ k ≠ m) by (unfold below in *; lia). swp_cases.
    apply H1; [unfold below in *; lia|done|lia].
Qed.

Lemma adjust_heap_ok fuel : ∀ i l, (n - i < fuel)%nat → (n ≤ length l)%nat → sift i lo n l →
  ∃ l', adjust_heap fuel i n l = Ok ((), l') ∧ heap lo n l' ∧ rearranged n l l'.
Proof.
  induction fuel as [|fuel IH]; intros i l Hf Hl Hs; [lia|]. cbn [adjust_heap].
  pose proof (half_spec n) as Hq.
  destruct (Z.leb_spec i (Z.quot n 2)).
  - destruct (pick_spec l i) as (Hp & Hge & Hmax).
    assert (Hm1 : (larger l (2 * i) i < n ∨ n ≤ 2 * i + 1)%nat).
    { destruct (proj1 (larger_spec l (2 * i) i)) as [->|(-> & ? & ?)]; lia. }
    replace (2 * Z.of_nat i + 1) with (Z.of_nat (2 * i + 1)) by lia.
    replace (2 * Z.of_nat i) with (Z.of_nat (2 * i)) by lia.
    run (child_larger_ok (2 * i) i l Hl ltac:(lia)).
    cbv zeta. rewrite (larger_Z l (2 * i) i).
    run (child_larger_ok (2 * i + 1) (larger l (2 * i) i) l Hl Hm1).
    rewrite larger_Z. fold (pick l i).
    destruct Hp as [Ep|[Hb Np]].
    + rewrite Ep, Z.eqb_refl. exists l. split; [done|]. split; [|done].
      apply (sift_done i); [done|]. by rewrite Ep in Hmax.
    + rewrite (proj2 (Z.eqb_neq _ _)) by lia. simpl.
      assert (i < pick l i < n)%nat by (unfold below in Hb; lia).
      run (swap_ok i (pick l i) l ltac:(lia) ltac:(lia)).
      destruct (IH (pick l i) (swp i (pick l i) l)) as (l' & E & Hh & Hr);
        [lia|by rewrite swp_length|by apply sift_swp|].
      exists l'. split; [done|]. split; [done|]. eapply rearranged_trans; [|exact Hr]. apply rearranged_swp; lia.
  - exists l. split; [done|]. split; [|done]. apply (sift_done i); [done|]. unfold below. lia.
Qed.

Lemma adjust_ok i l : (n ≤ length l)%nat → sift i lo n l →
  ∃ l', adjust i n l = Ok ((), l') ∧ heap lo n l' ∧ rearranged n l l'.
Proof. intros Hl. apply adjust_heap_ok; lia. Qed.
End adjust.

Lemma build_heap_ok l : ∃ l', build_heap (length l) l = Ok ((), l') ∧ heap 0 (length l) l' ∧ l' ≡ₚ l.
Proof.
  set (n := length l). pose proof (half_spec n) as Hq.
  destruct (for_down_inv (λ k, adjust k n) (λ k l', heap (Z.to_nat (k + 1)) n l' ∧ l' ≡ₚ l)
    (Z.to_nat (Z.quot n 2 + 1)) (Z.quot n 2) l) as (l' & E & Hh & HP).
  - intros k l' Hk (Hh & HP). assert (Hl : length l' = n) by (by rewrite HP).
    destruct (adjust_ok n (Z.to_nat k) (Z.to_nat k) l') as (l2 & E & Hh2 & Hr).
    + lia.
    + split; [intros p q Hp Hb Ne; apply Hh; [lia|done]|]. intros p q Hp Hb. unfold below in Hb. lia.
    + exists l2. replace (Z.of_nat (Z.to_nat k)) with k in E by lia. split; [done|].
      replace (k - 1 + 1) with k by lia. split; [done|]. destruct Hr as [HP2 _]. by rewrite HP2.
  - split; [|done]. intros p k Hp Hb. unfold below in Hb. lia.
  - exists l'. split; [done|]. split; [|done].
    by replace (Z.to_nat (Z.quot n 2 - Z.of_nat (Z.to_nat (Z.quot n 2 + 1)) + 1)) with 0%nat in Hh by lia.
Qed.

Lemma heap_root n l k : heap 0 n l → (k < n)%nat → l !!! k ≤ l !!! 0%nat.
Proof.
  intros Hh. induction (Nat.lt_wf 0 k) as [k _ IH]. intros Hk.
  destruct (decide (k = 0)%nat) as [->|]; [done|].
  assert (∃ p, k = 2 * p ∨ k = 2 * p + 1)%nat as [p Hp].
  { destruct (Nat.Even_or_Odd k) as [[p ->]|[p ->]]; eauto. }
  etrans; [apply (Hh p k); [lia|split; [lia|done]]|]. apply IH; lia.
Qed.

(** The entries from [i] on are in place: each is at least all before it. *)
Definition tail_placed (i n : nat) (l : arr) : Prop := ∀ a b, (i ≤ b < n)%nat → (a ≤ b)%nat → l !!! a ≤ l !!! b.

Lemma heap_sort_step n i l : (i < n)%nat → length l = n → heap 0 (S i) l → tail_placed (S i) n l →
  ∃ l', (swap 0 i;; adjust 0 i) l = Ok ((), l') ∧ heap 0 i l' ∧ tail_placed i n l' ∧ l' ≡ₚ l.
Proof.
  intros Hi Hl Hh Ht. pose proof (swap_ok 0 i l ltac:(lia) ltac:(lia)) as E1. change (Z.of_nat 0) with 0 in E1.
  run E1. destruct (adjust_ok i 0 0 (swp 0 i l)) as (l' & E & Hh' & HP & Hs & Hb).
  - rewrite swp_length. lia.
  - split; [|intros p k _ Hb; unfold below in Hb; lia].
    intros p k _ [Hk Hp] Ne. swp_cases; apply Hh; unfold below; lia.
  - exists l'. split; [done|]. split; [done|]. split; [|by rewrite HP, swp_perm by lia].
    intros a b Hb' Hab. rewrite (Hs b) by lia. destruct (decide (a < i)%nat) as [Ha|].
    + apply Hb; [|done]. intros k Hk. swp_cases; first [by apply Ht; lia|by apply (heap_root (S i)); [done|lia]].
    + rewrite Hs by lia. swp_cases; first [done|by apply Ht; lia|by apply (heap_root (S i)); [done|lia]].
Qed.

Lemma heap_sort_ok l : ∃ l', heap_sort (length l) l = Ok ((), l') ∧ l' ≡ₚ l ∧ StronglySorted Z.le l'.
Proof.
  unfold heap_sort. destruct (build_heap_ok l) as (l1 & E1 & Hh & HP1). run E1. set (n := length l) in *.
  destruct (for_down_inv (λ i, swap 0 i;; adjust 0 i)
    (λ i l', l' ≡ₚ l ∧ heap 0 (Z.to_nat (i + 1)) l' ∧ tail_placed (Z.to_nat (i + 1)) n l')
    (Z.to_nat n) (n - 1) l1) as (l2 & E2 & HP2 & _ & Ht).
  - intros k l' Hk (HP & Hh' & Ht). assert (Hl : length l' = n) by (by rewrite HP).
    replace (Z.to_nat (k + 1)) with (S (Z.to_nat k)) in * by lia.
    destruct (heap_sort_step n (Z.to_nat k) l') as (l2 & E2 & Hh2 & Ht2 & HP2); [lia|done..|].
    replace (Z.of_nat (Z.to_nat k)) with k in E2 by lia. exists l2. split; [done|].
    replace (k - 1 + 1) with k by lia. split; [by rewrite HP2|done].
  - split; [done|]. replace (Z.to_nat (n - 1 + 1)) with n by lia. split; [done|]. intros a b; lia.
  - exists l2. split; [done|]. split; [done|]. apply placed_sorted.
    assert (Hl : length l2 = n) by (by rewrite HP2). rewrite Hl. intros a b Ha Hb. apply Ht; lia.
Qed.

(** ** The properties *)

(** [bubble], run on a whole array, ends without an access outside of it and
    leaves a sorted permutation of the array. *)
Theorem bubble_sorts l : ∃ l', bubble (length l) l = Ok ((), l') ∧ l' ≡ₚ l ∧ StronglySorted Z.le l'.
Proof. apply bubble_ok. Qed.

(** C30: [heap_sort], run on a whole array, ends without an access outside of it
    and leaves a sorted permutation of the array, although the left child of
    index 0 is index 0 itself; it therefore ends in the same array as [bubble]. *)
Theorem heap_sort_sorts l : ∃ l', heap_sort (length l) l = Ok ((), l') ∧ l' ≡ₚ l ∧
  StronglySorted Z.le l' ∧ bubble (length l) l = Ok ((), l').
Proof.
  destruct (heap_sort_ok l) as (l' & E & HP & Hs). exists l'. do 3 (split; [done|]).
  destruct (bubble_ok l) as (l2 & E2 & HP2 & Hs2). replace l' with l2; [done|].
  apply (StronglySorted_unique Z.le); [done..|by rewrite HP2].
Qed.
