(* ===== verification/Base64.v ===== *)
(** Base64 encoding and decoding (src/crypt/base64.c).

    Characters are signed, buffers are arrays of characters.  The three things
    the outcome depends on besides the arguments are parameters: whether
    [malloc] gives memory, the address of the table (the difference of a null
    pointer and it is the "position" of a character that is not in the table),
    and how many bytes behind the local array [need] may be overwritten
    without harm, since the decoder clears 4 bytes of its 3. *)
From Stdlib Require Import String.
From S2P Require Import Prelude CInt CArr.

Definition base : arr :=
  chars "ABCDEFGHIJKLMNOPQRSTUVWXYZabcdefghijklmnopqrstuvwxyz0123456789+/=" ++ [0].

(** The index of the last occurrence. *)
Fixpoint strrchr (l : arr) (ch : Z) : option Z :=
  match l with
  | [] => None
  | c :: l => match strrchr l ch with
              | Some i => Some (i + 1)
              | None => if c =? ch then Some 0 else None
              end
  end.

Section base64.
Context (base_addr slack : Z) (alloc_ok : bool).

Definition find_pos (ch : Z) : Z :=
  s8 (match strrchr base ch with Some i => i | None => 0 - base_addr end).

Section encode.
Context (data : arr) (data_len : Z).

(** [while (temp < 3)]: at most 3 more bytes. *)
Fixpoint gather3 (k : nat) (tmp temp prepare : Z) : M arr (Z * Z * Z) :=
  match k with
  | O => mret (tmp, temp, prepare)
  | S k =>
      if tmp >=? data_len then mret (tmp, temp, prepare) else
      c ← cget data tmp;
      let prepare := s32 (Z.lor (Z.shiftl prepare 8) (Z.land c 0xFF)) in
      gather3 k (tmp + 1) (temp + 1) prepare
  end.

(** [for (i = 0; i < 4; i++)] *)
Fixpoint put4 (k : nat) (i temp prepare f : Z) : M arr Z :=
  match k with
  | O => mret f
  | S k =>
      let changed_i := s8 (if temp <? i then 0x40 else Z.land (Z.shiftr prepare ((3 - i) * 6)) 0x3F) in
      c ← cget base changed_i;
      aset f c;;
      put4 k (i + 1) temp prepare (f + 1)
  end.

Fixpoint encode_loop (n : nat) (tmp f : Z) : M arr Z :=
  match n with
  | O => fail Fuel
  | S n =>
      if tmp <? data_len then
        r ← gather3 3 tmp 0 0;
        let '(tmp, temp, prepare) := r in
        let prepare := s32 (Z.shiftl prepare ((3 - temp) * 8)) in
        f ← put4 4 0 temp prepare f;
        encode_loop n tmp f
      else mret f
  end.

(** [None]: the process exits for lack of memory.  [ret_len] is an int, which is
    exceeded only by data of more than 1.6 GB; that is not modelled. *)
Definition base64_encode : res (option arr) :=
  let ret_len := Z.quot data_len 3 in
  let temp := Z.rem data_len 3 in
  let ret_len := if temp >? 0 then ret_len + 1 else ret_len in
  let ret_len := ret_len * 4 + 1 in
  if negb alloc_ok then Ok None else
  match (f ← encode_loop (S (Z.to_nat data_len)) 0 0; aset f 0) (replicate (Z.to_nat ret_len) 0) with
  | Ok (_, ret) => Ok (Some ret)
  | Err e => Err e
  end.
End encode.

Section decode.
Context (data : arr) (limit : Z).

(** [memset(need, 0, 4)] *)
Definition clear_need : M arr unit := if 4 <=? 3 + slack then mret () else fail Segv.

Fixpoint gather4 (k : nat) (tmp temp prepare : Z) : M arr (Z * Z * Z) :=
  match k with
  | O => mret (tmp, temp, prepare)
  | S k =>
      if tmp >=? limit then mret (tmp, temp, prepare) else
      c ← cget data tmp;
      let prepare := s32 (Z.lor (Z.shiftl prepare 6) (find_pos c)) in
      gather4 k (tmp + 1) (temp + 1) prepare
  end.

Fixpoint put3 (k : nat) (i temp prepare f : Z) : M arr Z :=
  match k with
  | O => mret f
  | S k =>
      if i =? temp then mret f else
      aset f (s8 (Z.land (Z.shiftr prepare ((2 - i) * 8)) 0xFF));;
      put3 k (i + 1) temp prepare (f + 1)
  end.

Fixpoint decode_loop (n : nat) (tmp f : Z) : M arr Z :=
  match n with
  | O => fail Fuel
  | S n =>
      if tmp <? limit then
        clear_need;;
        r ← gather4 4 tmp 0 0;
        let '(tmp, temp, prepare) := r in
        let prepare := s32 (Z.shiftl prepare ((4 - temp) * 6)) in
        f ← put3 3 0 temp prepare f;
        decode_loop n tmp f
      else mret f
  end.
End decode.

(** The number of [=] among the last three characters. *)
Definition count_equals (data : arr) (data_len : Z) : M arr Z :=
  c1 ← cget data (data_len - 1);
  let equal_count := if c1 =? 61 then 1 else 0 in
  c2 ← cget data (data_len - 2);
  let equal_count := if c2 =? 61 then equal_count + 1 else equal_count in
  c3 ← cget data (data_len - 3);
  mret (if c3 =? 61 then equal_count + 1 else equal_count).

Definition base64_decode (data : arr) (data_len : Z) : res (option arr) :=
  let ret_len := Z.quot data_len 4 * 3 in
  match count_equals data data_len [] with
  | Err e => Err e
  | Ok (equal_count, _) =>
      let ret_len := match equal_count with
                     | 0 => ret_len + 4 | 1 => ret_len + 4 | 2 => ret_len + 3 | 3 => ret_len + 2
                     | _ => ret_len
                     end in
      if negb alloc_ok then Ok None else
      match (f ← decode_loop data (data_len - equal_count) (S (Z.to_nat data_len)) 0 0; aset f 0)
              (replicate (Z.to_nat ret_len) 0) with
      | Ok (_, ret) => Ok (Some ret)
      | Err e => Err e
      end
  end.
End base64.

(** ** The encoding of RFC 4648 *)
Definition sym (i : Z) : Z := base !!! Z.to_nat i.
Definition word (a b c : Z) : Z := a * 2 ^ 16 + b * 2 ^ 8 + c.
Definition quad (x : Z) : arr :=
  [sym (x / 2 ^ 18 mod 2 ^ 6); sym (x / 2 ^ 12 mod 2 ^ 6); sym (x / 2 ^ 6 mod 2 ^ 6); sym (x mod 2 ^ 6)].

(** The symbols of a list of bytes, the number of [=] behind them, and the
    number of groups of 3 bytes. *)
Fixpoint symbols (l : list Z) : arr :=
  match l with
  | [] => []
  | [a] => take 2 (quad (word a 0 0))
  | [a; b] => take 3 (quad (word a b 0))
  | a :: b :: c :: l => quad (word a b c) ++ symbols l
  end.
Fixpoint pads (l : list Z) : nat :=
  match l with [] => 0 | [_] => 2 | [_; _] => 1 | _ :: _ :: _ :: l => pads l end.
Fixpoint groups (l : list Z) : nat :=
  match l with [] => 0 | [_] => 1 | [_; _] => 1 | _ :: _ :: _ :: l => S (groups l) end.
Definition b64 (l : list Z) : arr := symbols l ++ replicate (pads l) 61.

Lemma list_ind3 {A} (P : list A → Prop) : P [] → (∀ a, P [a]) → (∀ a b, P [a; b]) →
  (∀ a b c l, P l → P (a :: b :: c :: l)) → ∀ l, P l.
Proof.
  intros H0 H1 H2 H3 l. induction (well_founded_ltof _ length l) as [l _ IH].
  destruct l as [|a [|b [|c l]]]; auto. apply H3, IH. unfold ltof. simpl. lia.
Qed.

Lemma groups_length l : 3 * Z.of_nat (groups l) - 2 ≤ Z.of_nat (length l) ≤ 3 * Z.of_nat (groups l).
Proof. induction l as [| | |a b c l IH] using list_ind3; simpl; lia. Qed.
Lemma pads_spec l : (length l + pads l = 3 * groups l)%nat.
Proof. induction l as [| | |a b c l IH] using list_ind3; simpl; lia. Qed.
Lemma length_symbols l : (length (symbols l) + pads l = 4 * groups l)%nat.
Proof. induction l as [| | |a b c l IH] using list_ind3; simpl; lia. Qed.
Lemma length_b64 l : length (b64 l) = (4 * groups l)%nat.
Proof. unfold b64. rewrite length_app, length_replicate. apply length_symbols. Qed.
Lemma groups_fmap f l : groups (f <$> l) = groups l.
Proof. induction l as [| | |a b c l IH] using list_ind3; csimpl; congruence. Qed.

(** ** The table *)
Lemma sym_ok {St} (s : St) i : 0 ≤ i < 66 → cget base i s = Ok (sym i, s).
Proof.
  intros Hi. rewrite <-(Z2Nat.id i) at 1 by lia. apply cget_ok.
  apply list_lookup_lookup_total_lt. change (length base) with 66%nat. lia.
Qed.

Lemma sym_pos : Forall (λ i, strrchr base (base !!! i) = Some (Z.of_nat i) ∧ base !!! i ≠ 61) (seq 0 64).
Proof. apply (bool_decide_unpack _). by vm_compute. Qed.

Lemma sym_spec i : 0 ≤ i < 64 → strrchr base (sym i) = Some i ∧ sym i ≠ 61.
Proof.
  intros Hi. destruct (proj1 (Forall_forall _ _) sym_pos (Z.to_nat i)) as [H1 H2]; [apply elem_of_seq; lia|].
  rewrite Z2Nat.id in H1 by lia. done.
Qed.

Lemma find_pos_sym addr i : 0 ≤ i < 64 → find_pos addr (sym i) = i.
Proof.
  intros Hi. unfold find_pos. rewrite (proj1 (sym_spec i Hi)). unfold s8. rewrite Z.mod_small; lia.
Qed.

Lemma mod_range x k : 0 ≤ k → 0 ≤ x mod 2 ^ k < 2 ^ k.
Proof. intros Hk. apply Z.mod_pos_bound. lia. Qed.

(** ** Encoding *)
Lemma put4_step k i temp x f out l (p : nat) : 0 ≤ i ≤ 3 → 
  f = Z.of_nat (length out) + Z.of_nat p → (p < length l)%nat →
  put4 (S k) i temp x f (out ++ l) =
  put4 k (i + 1) temp x (f + 1)
    (out ++ <[p := if temp <? i then 61 else sym (x / 2 ^ ((3 - i) * 6) mod 2 ^ 6)]> l).
Proof.
  intros Hi Hf Hp. cbn [put4]. set (ch := if temp <? i then _ else Z.land _ _).
  assert (E : ch = if temp <? i then 64 else x / 2 ^ ((3 - i) * 6) mod 2 ^ 6).
  { unfold ch. destruct (temp <? i); [done|]. by rewrite <-(shiftr_land x ((3 - i) * 6) 6) by lia. }
  assert (Hch : 0 ≤ ch < 65).
  { rewrite E. destruct (temp <? i); [lia|]. pose proof (mod_range (x / 2 ^ ((3 - i) * 6)) 6). lia. }
  assert (Es : s8 ch = ch) by (unfold s8; rewrite Z.mod_small; lia).
  rewrite Es. run (sym_ok (out ++ l) ch ltac:(lia)). rewrite (bind_ok _ _ _ _ _ (aset_at _ _ _ _ _ Hf Hp)).
  do 3 f_equal. rewrite E. by destruct (temp <? i).
Qed.

Lemma put4_ok (temp : nat) x out z0 z1 z2 z3 zs : (1 ≤ temp ≤ 3)%nat →
  put4 4 0 (Z.of_nat temp) x (Z.of_nat (length out)) (out ++ z0 :: z1 :: z2 :: z3 :: zs) =
  Ok (Z.of_nat (length out) + 4, out ++ (take (S temp) (quad x) ++ replicate (3 - temp) 61) ++ zs).
Proof.
  intros Ht. rewrite (put4_step 3 0 _ _ _ _ _ 0), (put4_step 2 1 _ _ _ _ _ 1), (put4_step 1 2 _ _ _ _ _ 2),
    (put4_step 0 3 _ _ _ _ _ 3) by (simpl; lia). cbn [put4].
  assert (temp = 1 ∨ temp = 2 ∨ temp = 3)%nat as [-> | [-> | ->]] by lia;
    unfold mret, M_ret; cbn; rewrite Z.div_1_r; do 2 f_equal; lia.
Qed.

Section encoding.
Context (data : arr).
Notation len := (Z.of_nat (length data)).

Lemma gather3_step k n temp p c r (s : arr) : drop n data = c :: r → 0 ≤ p < 2 ^ 16 →
  gather3 data len (S k) (Z.of_nat n) temp p s = gather3 data len k (Z.of_nat (S n)) (temp + 1) (p * 2 ^ 8 + u8 c) s.
Proof.
  intros (_ & Hc & Hn)%drop_next Hp. cbn [gather3]. rewrite Z.geb_leb, (proj2 (Z.leb_gt _ _)) by lia.
  run (cget_ok s data n c Hc). pose proof (mod_range c 8). fold (u8 c) in *.
  replace (Z.land c 0xFF) with (u8 c) by (symmetry; by apply (land_mask c 8)).
  rewrite lor_shiftl_add, s32_id by lia. by replace (Z.of_nat n + 1) with (Z.of_nat (S n)) by lia.
Qed.

Lemma gather3_end k temp p (s : arr) :
  gather3 data len k (Z.of_nat (length data)) temp p s = Ok ((Z.of_nat (length data), temp, p), s).
Proof. destruct k; [done|]. cbn [gather3]. by rewrite Z.geb_leb, Z.leb_refl. Qed.

(** One round of the loop: a full group, and the last one. *)
Lemma encode_round k n out (x : Z) (temp n' : nat) zs :
  (n < length data)%nat → (1 ≤ temp ≤ 3)%nat → 
  (∀ s, ∃ p, gather3 data len 3 (Z.of_nat n) 0 0 s = Ok ((Z.of_nat n', Z.of_nat temp, p), s) ∧
     s32 (Z.shiftl p ((3 - Z.of_nat temp) * 8)) = x) →
  encode_loop data len (S k) (Z.of_nat n) (Z.of_nat (length out)) (out ++ 0 :: 0 :: 0 :: 0 :: zs) =
  let out' := out ++ take (S temp) (quad x) ++ replicate (3 - temp) 61 in
  encode_loop data len k (Z.of_nat n') (Z.of_nat (length out')) (out' ++ zs).
Proof.
  intros Hn Ht Hg. cbn [encode_loop]. rewrite (proj2 (Z.ltb_lt _ _)) by lia.
  destruct (Hg (out ++ 0 :: 0 :: 0 :: 0 :: zs)) as (p & E & Ex). run E. rewrite Ex.
  run (put4_ok temp x out 0 0 0 0 zs Ht). rewrite <-(app_assoc out). do 2 f_equal.
  rewrite !length_app, length_replicate, length_take. simpl. lia.
Qed.

Lemma word_shift (a b c : Z) : is_u8 a → is_u8 b → is_u8 c →
  s32 (Z.shiftl a 16) = word a 0 0 ∧ s32 (Z.shiftl (a * 2 ^ 8 + b) 8) = word a b 0 ∧
  s32 (Z.shiftl ((a * 2 ^ 8 + b) * 2 ^ 8 + c) 0) = word a b c.
Proof. unfold is_u8, word. intros. rewrite !Z.shiftl_mul_pow2 by lia. rewrite !s32_id; lia. Qed.

Lemma u8_range x : is_u8 (u8 x).
Proof. apply mod_range. lia. Qed.

Lemma encode_loop_ok rest : ∀ k n out, drop n data = rest → (length data = n + length rest)%nat →
  (length rest < k)%nat →
  encode_loop data len k (Z.of_nat n) (Z.of_nat (length out)) (out ++ replicate (4 * groups rest + 1) 0) =
  Ok (Z.of_nat (length (out ++ b64 (u8 <$> rest))), (out ++ b64 (u8 <$> rest)) ++ [0]).
Proof.
  induction rest as [|a|a b|a b c rest IH] using list_ind3; intros [|k] n out D Hl Hk; simpl in Hl; try (simpl in Hk; lia).
  - cbn [encode_loop]. rewrite (proj2 (Z.ltb_ge _ _)) by lia. by rewrite app_nil_r.
  - change (replicate (4 * groups [a] + 1) 0) with (0 :: 0 :: 0 :: 0 :: [0]).
    rewrite (encode_round k n out (word (u8 a) 0 0) 1 (length data)); [|lia|lia|].
    + destruct k; [simpl in Hk; lia|]. cbv zeta. cbn [encode_loop]. by rewrite Z.ltb_irrefl.
    + intros s. exists (u8 a). rewrite (gather3_step _ _ _ _ _ _ _ D) by lia.
      replace (S n) with (length data) by lia. rewrite gather3_end. split; [done|].
      exact (proj1 (word_shift _ _ _ (u8_range a) (u8_range a) (u8_range a))).
  - change (replicate (4 * groups [a; b] + 1) 0) with (0 :: 0 :: 0 :: 0 :: [0]).
    rewrite (encode_round k n out (word (u8 a) (u8 b) 0) 2 (length data)); [|lia|lia|].
    + destruct k; [simpl in Hk; lia|]. cbv zeta. cbn [encode_loop]. by rewrite Z.ltb_irrefl.
    + intros s. exists (u8 a * 2 ^ 8 + u8 b). rewrite (gather3_step _ _ _ _ _ _ _ D) by lia.
      apply drop_next in D as (D & _). pose proof (u8_range a). unfold is_u8 in *.
      rewrite (gather3_step _ _ _ _ _ _ _ D) by lia.
      replace (S (S n)) with (length data) by lia. rewrite gather3_end. split; [done|].
      exact (proj1 (proj2 (word_shift _ _ _ (u8_range a) (u8_range b) (u8_range b)))).
  - replace (4 * groups (a :: b :: c :: rest) + 1)%nat with (4 + (4 * groups rest + 1))%nat by (simpl groups; lia).
    change (replicate (4 + (4 * groups rest + 1)) 0) with (0 :: 0 :: 0 :: 0 :: replicate (4 * groups rest + 1) 0).
    rewrite (encode_round k n out (word (u8 a) (u8 b) (u8 c)) 3 (S (S (S n)))); [|lia|lia|].
    + cbv zeta. rewrite IH; [|by do 3 (apply drop_next in D as (D & _))|simpl in *; lia|simpl in Hk; lia].
      assert (Eo : ∀ q : arr, (out ++ take 4 q ++ replicate (3 - 3) 61) ++ b64 (u8 <$> rest) =
        out ++ (take 4 q ++ symbols (u8 <$> rest)) ++ replicate (pads (u8 <$> rest)) 61)
        by (intros q; unfold b64; by rewrite app_nil_r, <-!app_assoc).
      rewrite Eo. done.
    + intros s. exists ((u8 a * 2 ^ 8 + u8 b) * 2 ^ 8 + u8 c).
      pose proof (u8_range a). pose proof (u8_range b). unfold is_u8 in *.
      rewrite (gather3_step _ _ _ _ _ _ _ D) by lia. apply drop_next in D as (D & _).
      rewrite (gather3_step _ _ _ _ _ _ _ D) by lia. apply drop_next in D as (D & _).
      rewrite (gather3_step _ _ _ _ _ _ _ D) by lia. split; [done|].
      exact (proj2 (proj2 (word_shift _ _ _ (u8_range a) (u8_range b) (u8_range c)))).
Qed.

Lemma base64_encode_ok : base64_encode true data len = Ok (Some (b64 (u8 <$> data) ++ [0])).
Proof.
  unfold base64_encode. simpl negb. cbv iota.
  assert (El : (if Z.rem len 3 >? 0 then Z.quot len 3 + 1 else Z.quot len 3) = Z.of_nat (groups data)).
  { pose proof (groups_length data). pose proof (Z.quot_rem' len 3). pose proof (Z.rem_bound_pos len 3).
    destruct (Z.gtb_spec (Z.rem len 3) 0); lia. }
  rewrite El. replace (Z.to_nat (Z.of_nat (groups data) * 4 + 1)) with (4 * groups data + 1)%nat by lia.
  pose proof (encode_loop_ok data (S (Z.to_nat len)) 0 [] eq_refl eq_refl ltac:(lia)) as E.
  rewrite !app_nil_l in E. change (Z.of_nat 0) with 0 in E. change (Z.of_nat (length [])) with 0 in E.
  rewrite (bind_ok _ _ _ _ _ E). by rewrite aset_app.
Qed.
End encoding.

(** ** Decoding *)
Definition byte (x i : Z) : Z := s8 (x / 2 ^ ((2 - i) * 8) mod 2 ^ 8).

Lemma put3_step k i temp x f out l (p : nat) : 0 ≤ i ≤ 2 → i ≠ temp →
  f = Z.of_nat (length out) + Z.of_nat p → (p < length l)%nat →
  put3 (S k) i temp x f (out ++ l) = put3 k (i + 1) temp x (f + 1) (out ++ <[p := byte x i]> l).
Proof.
  intros Hi Ni Hf Hp. cbn [put3]. rewrite (proj2 (Z.eqb_neq _ _) Ni).
  rewrite (bind_ok _ _ _ _ _ (aset_at _ _ _ _ _ Hf Hp)). unfold byte.
  by rewrite <-(shiftr_land x ((2 - i) * 8) 8) by lia.
Qed.

Lemma put3_three temp x out z0 z1 z2 zs : 3 ≤ temp →
  put3 3 0 temp x (Z.of_nat (length out)) (out ++ z0 :: z1 :: z2 :: zs) =
  Ok (Z.of_nat (length out) + 3, out ++ byte x 0 :: byte x 1 :: byte x 2 :: zs).
Proof.
  intros Ht. rewrite (put3_step 2 0 _ _ _ _ _ 0), (put3_step 1 1 _ _ _ _ _ 1), (put3_step 0 2 _ _ _ _ _ 2)
    by (simpl; lia). cbn [put3]. unfold mret, M_ret. simpl. do 2 f_equal. lia.
Qed.

Lemma put3_two x out z0 z1 zs :
  put3 3 0 2 x (Z.of_nat (length out)) (out ++ z0 :: z1 :: zs) =
  Ok (Z.of_nat (length out) + 2, out ++ byte x 0 :: byte x 1 :: zs).
Proof.
  rewrite (put3_step 2 0 _ _ _ _ _ 0), (put3_step 1 1 _ _ _ _ _ 1) by (simpl; lia).
  cbn [put3]. unfold mret, M_ret. simpl. do 2 f_equal. lia.
Qed.

Lemma word_byte a b c : is_u8 a → is_u8 b → is_u8 c →
  byte (word a b c) 0 = s8 a ∧ byte (word a b c) 1 = s8 b ∧ byte (word a b c) 2 = s8 c.
Proof.
  unfold byte, word, is_u8. intros. split_and!; f_equal; cbn [Z.sub Z.mul Z.add Z.opp Z.pos_sub];
    Z.div_mod_to_equations; lia.
Qed.

Lemma word_range a b c : is_u8 a → is_u8 b → is_u8 c → 0 ≤ word a b c < 2 ^ 24.
Proof. unfold word, is_u8. lia. Qed.

(** The symbols of a group give the group back. *)
Lemma quad_value x : 0 ≤ x < 2 ^ 24 →
  ((x / 2 ^ 18 mod 2 ^ 6 * 2 ^ 6 + x / 2 ^ 12 mod 2 ^ 6) * 2 ^ 6 + x / 2 ^ 6 mod 2 ^ 6) * 2 ^ 6 + x mod 2 ^ 6 = x.
Proof. intros Hx. apply (digits4 (2 ^ 6) x); lia. Qed.

Lemma word_low a b : is_u8 a → is_u8 b → word a b 0 mod 2 ^ 6 = 0 ∧ word a 0 0 / 2 ^ 6 mod 2 ^ 6 = 0.
Proof. unfold word, is_u8. intros. split; Z.div_mod_to_equations; lia. Qed.

Section decoding.
Context (addr slack : Z) (Hslack : 1 ≤ slack) (d : arr) (limit : nat) (Hlimit : (limit ≤ length d)%nat).

Lemma gather4_step k n temp p i r (s : arr) : drop n d = sym i :: r → (n < limit)%nat → 0 ≤ i < 2 ^ 6 → 0 ≤ p < 2 ^ 18 →
  gather4 addr d (Z.of_nat limit) (S k) (Z.of_nat n) temp p s =
  gather4 addr d (Z.of_nat limit) k (Z.of_nat (S n)) (temp + 1) (p * 2 ^ 6 + i) s.
Proof.
  intros (_ & Hc & Hn)%drop_next Hl Hi Hp. cbn [gather4]. rewrite Z.geb_leb, (proj2 (Z.leb_gt _ _)) by lia.
  run (cget_ok s d n _ Hc). rewrite find_pos_sym by done.
  rewrite lor_shiftl_add, s32_id by lia. by replace (Z.of_nat n + 1) with (Z.of_nat (S n)) by lia.
Qed.

Lemma gather4_end k temp p (s : arr) :
  gather4 addr d (Z.of_nat limit) k (Z.of_nat limit) temp p s = Ok ((Z.of_nat limit, temp, p), s).
Proof. destruct k; [done|]. cbn [gather4]. by rewrite Z.geb_leb, Z.leb_refl. Qed.

Lemma decode_round k n f s (x temp : Z) n' f' s' : (n < limit)%nat →
  (∃ p, gather4 addr d (Z.of_nat limit) 4 (Z.of_nat n) 0 0 s = Ok ((Z.of_nat n', temp, p), s) ∧
     s32 (Z.shiftl p ((4 - temp) * 6)) = x) →
  put3 3 0 temp x f s = Ok (f', s') →
  decode_loop addr slack d (Z.of_nat limit) (S k) (Z.of_nat n) f s =
  decode_loop addr slack d (Z.of_nat limit) k (Z.of_nat n') f' s'.
Proof.
  intros Hn (p & E & Ex) Ep. cbn [decode_loop]. rewrite (proj2 (Z.ltb_lt _ _)) by lia.
  unfold clear_need. rewrite (proj2 (Z.leb_le _ _)) by lia.
  rewrite (bind_ok _ _ _ _ _ (ret_ok () s)). run E. rewrite Ex. by run Ep.
Qed.

Lemma decode_done k f s : decode_loop addr slack d (Z.of_nat limit) (S k) (Z.of_nat limit) f s = Ok (f, s).
Proof. cbn [decode_loop]. by rewrite Z.ltb_irrefl. Qed.

Lemma gather_quad n x r (s : arr) : 0 ≤ x < 2 ^ 24 → drop n d = quad x ++ r → (n + 4 ≤ limit)%nat →
  gather4 addr d (Z.of_nat limit) 4 (Z.of_nat n) 0 0 s = Ok ((Z.of_nat (n + 4), 4, x), s).
Proof.
  intros Hx D Hl. pose proof (quad_value x Hx) as Q. unfold quad in D.
  pose proof (mod_range (x / 2 ^ 18) 6). pose proof (mod_range (x / 2 ^ 12) 6).
  pose proof (mod_range (x / 2 ^ 6) 6). pose proof (mod_range x 6).
  rewrite (gather4_step _ _ _ _ _ _ _ D) by lia. apply drop_next in D as (D & _).
  rewrite (gather4_step _ _ _ _ _ _ _ D) by lia. apply drop_next in D as (D & _).
  rewrite (gather4_step _ _ _ _ _ _ _ D) by lia. apply drop_next in D as (D & _).
  rewrite (gather4_step _ _ _ _ _ _ _ D) by lia. cbn [gather4]. unfold mret, M_ret.
  do 3 f_equal; [f_equal; lia|]. rewrite <-Q at 5. lia.
Qed.

Lemma gather_take m n x r (s : arr) : 0 ≤ x < 2 ^ 24 → (m = 2 ∨ m = 3)%nat → drop n d = take m (quad x) ++ r →
  (limit = n + m)%nat → x mod 2 ^ 6 = 0 → (m = 2%nat → x / 2 ^ 6 mod 2 ^ 6 = 0) →
  ∃ p, gather4 addr d (Z.of_nat limit) 4 (Z.of_nat n) 0 0 s = Ok ((Z.of_nat limit, Z.of_nat m, p), s) ∧
    s32 (Z.shiftl p ((4 - Z.of_nat m) * 6)) = x.
Proof.
  intros Hx Hm D Hl H0 H1. pose proof (quad_value x Hx) as Q.
  pose proof (mod_range (x / 2 ^ 18) 6). pose proof (mod_range (x / 2 ^ 12) 6). pose proof (mod_range (x / 2 ^ 6) 6).
  assert (D' := D). destruct Hm as [-> | ->]; unfold quad in D'; cbn [take app] in D'.
  - rewrite (gather4_step _ _ _ _ _ _ _ D') by lia. apply drop_next in D' as (D' & _).
    rewrite (gather4_step _ _ _ _ _ _ _ D') by lia. replace (S (S n)) with limit by lia. rewrite gather4_end.
    eexists. split; [done|]. rewrite Z.shiftl_mul_pow2, s32_id by lia. specialize (H1 eq_refl). lia.
  - rewrite (gather4_step _ _ _ _ _ _ _ D') by lia. apply drop_next in D' as (D' & _).
    rewrite (gather4_step _ _ _ _ _ _ _ D') by lia. apply drop_next in D' as (D' & _).
    rewrite (gather4_step _ _ _ _ _ _ _ D') by lia. replace (S (S (S n))) with limit by lia. rewrite gather4_end.
    eexists. split; [done|]. rewrite Z.shiftl_mul_pow2, s32_id by lia. lia.
Qed.

Lemma decode_loop_ok rest : Forall is_u8 rest → ∀ k n out z tail,
  drop n d = symbols rest ++ tail → (limit = n + length (symbols rest))%nat → (3 * groups rest ≤ z)%nat →
  (groups rest < k)%nat →
  ∃ f, decode_loop addr slack d (Z.of_nat limit) k (Z.of_nat n) (Z.of_nat (length out)) (out ++ replicate z 0) =
      Ok (f, out ++ (s8 <$> rest) ++ replicate (z - length rest) 0) ∧
    Z.of_nat (length out + length rest) ≤ f ≤ Z.of_nat (length out + 3 * groups rest).
Proof.
  assert (u0 : is_u8 0) by done.
  induction rest as [|a|a b|a b c rest IH] using list_ind3; intros Hr [|k] n out z tail D Hl Hz Hk; try lia;
    try (simpl in Hk; lia).
  - simpl in Hl. rewrite Nat.add_0_r in Hl. subst n. eexists. rewrite decode_done. simpl. rewrite Nat.sub_0_r.
    split; [done|lia].
  - apply Forall_cons in Hr as [Ha _]. destruct z as [|[|[|z]]]; [simpl in Hz; lia..|].
    destruct (word_byte a 0 0) as (B0 & B1 & _); [done..|]. destruct (word_low a 0 Ha u0) as [L0 L1].
    destruct (gather_take 2 n (word a 0 0) tail (out ++ replicate (S (S (S z))) 0)) as (p & E & Ex);
      [by apply word_range|by left|done|done|done|done|].
    destruct k as [|k]; [simpl in Hk; lia|].
    rewrite (decode_round (S k) n _ _ (word a 0 0) 2 limit _ _ ltac:(simpl in Hl; lia) ltac:(eauto) (put3_two _ _ _ _ _)).
    rewrite decode_done, B0, B1. eexists. split; [done|simpl; lia].
  - apply Forall_cons in Hr as [Ha [Hb _]%Forall_cons]. destruct z as [|[|[|z]]]; [simpl in Hz; lia..|].
    destruct (word_byte a b 0) as (B0 & B1 & B2); [done..|]. destruct (word_low a b Ha Hb) as [L0 _].
    destruct (gather_take 3 n (word a b 0) tail (out ++ replicate (S (S (S z))) 0)) as (p & E & Ex);
      [by apply word_range|by right|done|done|done|done|].
    destruct k as [|k]; [simpl in Hk; lia|].
    rewrite (decode_round (S k) n _ _ (word a b 0) 3 limit _ _ ltac:(simpl in Hl; lia) ltac:(eauto)
      (put3_three 3 _ _ _ _ _ _ ltac:(lia))).
    rewrite decode_done, B0, B1, B2. eexists. split; [done|simpl; lia].
  - apply Forall_cons in Hr as [Ha [Hb [Hc Hr]%Forall_cons]%Forall_cons].
    destruct z as [|[|[|z]]]; [simpl in Hz; lia..|].
    destruct (word_byte a b c) as (B0 & B1 & B2); [done..|]. pose proof (word_range a b c Ha Hb Hc) as W.
    assert (D' : drop n d = quad (word a b c) ++ symbols rest ++ tail) by (rewrite D; done).
    pose proof (gather_quad n _ _ (out ++ replicate (S (S (S z))) 0) W D' ltac:(simpl in Hl; lia)) as E.
    assert (Es : s32 (Z.shiftl (word a b c) ((4 - 4) * 6)) = word a b c)
      by (rewrite Z.shiftl_mul_pow2, s32_id by lia; lia).
    rewrite (decode_round k n _ _ (word a b c) 4 (n + 4) _ _ ltac:(simpl in Hl; lia) ltac:(eauto)
      (put3_three 4 _ _ _ _ _ _ ltac:(lia))). rewrite B0, B1, B2.
    destruct (IH Hr k (n + 4)%nat (out ++ [s8 a; s8 b; s8 c]) z tail) as (f & Ef & Hf);
      [|simpl in Hl; lia|simpl in Hz; lia|simpl in Hk; lia|].
    + do 4 (apply drop_next in D' as (D' & _)). by replace (n + 4)%nat with (S (S (S (S n)))) by lia.
    + rewrite length_app in Ef, Hf. simpl in Ef, Hf. rewrite <-!app_assoc in Ef. simpl in Ef.
      replace (Z.of_nat (length out) + 3) with (Z.of_nat (length out + 3)) by lia.
      exists f. split; [exact Ef|]. simpl. lia.
Qed.
End decoding.

Lemma symbols_not_pad l : Forall is_u8 l → Forall (λ c, c ≠ 61) (symbols l).
Proof.
  assert (Hq : ∀ x, Forall (λ c, c ≠ 61) (quad x)).
  { intros x. unfold quad. repeat constructor; apply sym_spec, (mod_range _ 6); lia. }
  induction l as [|a|a b|a b c l IH] using list_ind3; intros Hl; cbn [symbols].
  - constructor.
  - apply Forall_take, Hq.
  - apply Forall_take, Hq.
  - apply Forall_app. split; [apply Hq|]. apply IH. by do 3 (apply Forall_cons in Hl as [_ Hl]).
Qed.

(** The count of [=] among the last three characters is that of the padding. *)
Definition equals (c : Z) : Z := if c =? 61 then 1 else 0.

Lemma tail_pads l : Forall is_u8 l → l ≠ [] → ∃ l' c3 c2 c1, b64 l = l' ++ [c3; c2; c1] ∧
  equals c1 + equals c2 + equals c3 = Z.of_nat (pads l).
Proof.
  intros Hl Hn. pose proof (symbols_not_pad l Hl) as Hs. pose proof (length_symbols l) as Ls.
  assert (Hg : (1 ≤ groups l ∧ pads l ≤ 2)%nat).
  { clear -Hn. induction l as [| | |a b c l IH] using list_ind3; simpl; [done|lia|lia|].
    destruct l; [simpl; lia|]. specialize (IH ltac:(done)). lia. }
  unfold b64. assert (E61 : equals 61 = 1) by done.
  assert (E0 : ∀ c, c ≠ 61 → equals c = 0) by (intros c Hc; unfold equals; by rewrite (proj2 (Z.eqb_neq _ _) Hc)).
  destruct (symbols l) as [|x1 l1 _] using rev_ind; [simpl in Ls; lia|].
  destruct l1 as [|x2 l2 _] using rev_ind; [simpl in Ls; lia|]. rewrite !length_app in Ls. simpl in Ls.
  apply Forall_app in Hs as [Hs Hx1]. apply Forall_app in Hs as [Hs Hx2].
  apply Forall_cons in Hx1 as [Hx1 _]. apply Forall_cons in Hx2 as [Hx2 _].
  destruct (pads l) as [|[|[|p]]]; [| | |lia].
  - destruct l2 as [|x3 l3 _] using rev_ind; [simpl in Ls; lia|]. apply Forall_app in Hs as [_ [Hx3 _]%Forall_cons].
    exists l3, x3, x2, x1. simpl. rewrite <-!app_assoc. simpl. by rewrite !E0.
  - exists l2, x2, x1, 61. rewrite <-!app_assoc. simpl. by rewrite E61, !E0.
  - exists (l2 ++ [x2]), x1, 61, 61. rewrite <-!app_assoc. simpl. by rewrite E61, E0.
Qed.

Lemma count_equals_ok l' c3 c2 c1 r s :
  count_equals (l' ++ c3 :: c2 :: c1 :: r) (Z.of_nat (length l' + 3)) s = Ok (equals c1 + equals c2 + equals c3, s).
Proof.
  unfold count_equals.
  assert (Hg : ∀ (i : nat) v, (c3 :: c2 :: c1 :: r) !! i = Some v →
    cget (l' ++ c3 :: c2 :: c1 :: r) (Z.of_nat (length l' + i)) s = Ok (v, s)).
  { intros i v Hi. apply cget_ok. by rewrite lookup_app_r, Nat.add_sub' by lia. }
  replace (Z.of_nat (length l' + 3) - 1) with (Z.of_nat (length l' + 2)) by lia.
  replace (Z.of_nat (length l' + 3) - 2) with (Z.of_nat (length l' + 1)) by lia.
  replace (Z.of_nat (length l' + 3) - 3) with (Z.of_nat (length l' + 0)) by lia.
  run (Hg 2%nat c1 eq_refl). run (Hg 1%nat c2 eq_refl). run (Hg 0%nat c3 eq_refl).
  unfold mret, M_ret, equals. destruct (c1 =? 61), (c2 =? 61), (c3 =? 61); done.
Qed.

Lemma aset_zero l z f : Z.of_nat (length l) ≤ f < Z.of_nat (length l + z) →
  aset f 0 (l ++ replicate z 0) = Ok ((), l ++ replicate z 0).
Proof.
  intros Hf. rewrite (aset_at l (replicate z 0) (Z.to_nat f - length l) f); [|lia|rewrite length_replicate; lia].
  do 3 f_equal. apply list_insert_id, lookup_replicate. split; [done|lia].
Qed.

(** The size of the decoder's buffer. *)
Lemma ret_len_eq e : 0 ≤ e ≤ 3 → ∀ x, match e with
  | 0 => x + 4 | 1 => x + 4 | 2 => x + 3 | 3 => x + 2 | _ => x end = x + Z.min 4 (5 - e).
Proof. intros He x. assert (e = 0 ∨ e = 1 ∨ e = 2 ∨ e = 3) as [-> | [-> | [-> | ->]]] by lia; lia. Qed.

Lemma base64_decode_ok addr slack l : 1 ≤ slack → Forall is_u8 l → l ≠ [] →
  ∃ m, base64_decode addr slack true (b64 l ++ [0]) (Z.of_nat (length (b64 l))) =
    Ok (Some ((s8 <$> l) ++ replicate (S m) 0)).
Proof.
  intros Hs Hl Hn. destruct (tail_pads l Hl Hn) as (l' & c3 & c2 & c1 & E & Ec). pose proof (length_b64 l) as Lb.
  pose proof (count_equals_ok l' c3 c2 c1 [0] []) as C. rewrite Ec in C.
  assert (El : l' ++ c3 :: c2 :: c1 :: [0] = b64 l ++ [0]) by (rewrite E; by rewrite <-app_assoc).
  assert (Ell : length (b64 l) = (length l' + 3)%nat) by (rewrite E, length_app; simpl; lia).
  rewrite El, <-Ell in C. unfold base64_decode. rewrite C. simpl negb. cbv iota.
  pose proof (pads_spec l) as Ps. pose proof (length_symbols l) as Ls. pose proof (groups_length l) as Gl.
  rewrite ret_len_eq by lia. rewrite Lb.
  replace (Z.quot (Z.of_nat (4 * groups l)) 4) with (Z.of_nat (groups l))
    by (apply (Z.quot_unique _ _ _ 0); lia).
  match goal with |- context [replicate (Z.to_nat ?e)] => set (z := Z.to_nat e) end. assert (Hz : (3 * groups l + 3 ≤ z)%nat) by lia. clearbody z.
  destruct (decode_loop_ok addr slack Hs (b64 l ++ [0]) (length (symbols l)) ltac:(rewrite length_app; lia) l Hl
    (S (Z.to_nat (Z.of_nat (4 * groups l)))) 0 [] z (replicate (pads l) 61 ++ [0])) as (f & Ef & Hf).
  - unfold b64. by rewrite <-app_assoc.
  - lia.
  - lia.
  - lia.
  - replace (Z.of_nat (4 * groups l) - Z.of_nat (pads l)) with (Z.of_nat (length (symbols l))) by lia.
    rewrite !app_nil_l in Ef. change (Z.of_nat 0) with 0 in Ef. change (Z.of_nat (length [])) with 0 in Ef.
    rewrite (bind_ok _ _ _ _ _ Ef). simpl in Hf. rewrite aset_zero by (rewrite length_fmap; lia).
    exists (z - length l - 1)%nat. by replace (S (z - length l - 1)) with (z - length l)%nat by lia.
Qed.

(** ** Decoding anything *)
Section safety.
Context (addr slack : Z) (Hslack : 1 ≤ slack) (d : arr) (limit : Z) (Hlimit : limit ≤ Z.of_nat (length d)).

Lemma gather4_safe k : ∀ tmp temp p (s : arr), 0 ≤ tmp ≤ limit →
  ∃ p', gather4 addr d limit k tmp temp p s =
    Ok ((tmp + Z.min (Z.of_nat k) (limit - tmp), temp + Z.min (Z.of_nat k) (limit - tmp), p'), s).
Proof.
  induction k as [|k IH]; intros tmp temp p s Ht; cbn [gather4].
  - rewrite Z.min_l, !Z.add_0_r by lia. by eexists.
  - rewrite Z.geb_leb. destruct (Z.leb_spec limit tmp).
    + rewrite Z.min_r by lia. replace (limit - tmp) with 0 by lia. rewrite !Z.add_0_r. by eexists.
    + destruct (cget_in s d tmp) as [v E]; [lia|]. run E.
      destruct (IH (tmp + 1) (temp + 1) (s32 (Z.lor (Z.shiftl p 6) (find_pos addr v))) s) as [p' E']; [lia|].
      exists p'. rewrite E'. do 3 f_equal. f_equal; lia.
Qed.

Lemma put3_safe k : ∀ i temp x f (s : arr), i ≤ temp → 0 ≤ f → f + Z.of_nat k ≤ Z.of_nat (length s) ∨
    f + (temp - i) ≤ Z.of_nat (length s) →
  ∃ s', put3 k i temp x f s = Ok (f + Z.min (Z.of_nat k) (temp - i), s') ∧ length s' = length s.
Proof.
  induction k as [|k IH]; intros i temp x f s Hi Hf Hs; cbn [put3].
  - rewrite Z.min_l, Z.add_0_r by lia. by eexists.
  - destruct (Z.eqb_spec i temp) as [->|Ne].
    + rewrite Z.min_r by lia. rewrite Z.sub_diag, Z.add_0_r. by eexists.
    + destruct (aset_in s f (s8 (Z.land (Z.shiftr x ((2 - i) * 8)) 255))) as (s1 & E1 & L1); [lia|]. run E1.
      destruct (IH (i + 1) temp x (f + 1) s1) as (s' & E & L); [lia|lia|rewrite L1; lia|].
      exists s'. rewrite E, L, L1. split; [|done]. do 2 f_equal. lia.
Qed.

Lemma decode_loop_safe k : ∀ tmp f (s : arr) q r, 0 ≤ tmp → limit - tmp = 4 * q + r → 0 ≤ q → 0 ≤ r < 4 →
  0 ≤ f → f + 3 * q + r < Z.of_nat (length s) → limit - tmp < Z.of_nat k →
  ∃ f' s', decode_loop addr slack d limit k tmp f s = Ok (f', s') ∧ length s' = length s ∧ 0 ≤ f' < Z.of_nat (length s).
Proof.
  induction k as [|k IH]; intros tmp f s q r Ht E Hq Hr Hf Hs Hk; [lia|]. cbn [decode_loop].
  destruct (Z.ltb_spec tmp limit); [|exists f, s; split; [done|lia]].
  unfold clear_need. rewrite (proj2 (Z.leb_le _ _)) by lia. rewrite (bind_ok _ _ _ _ _ (ret_ok () s)).
  destruct (gather4_safe 4 tmp 0 0 s) as [p' Eg]; [lia|]. run Eg.
  set (m := Z.min (Z.of_nat 4) (limit - tmp)). rewrite Z.add_0_l.
  destruct (put3_safe 3 0 m (s32 (Z.shiftl p' ((4 - m) * 6))) f s) as (s1 & E1 & L1); [lia|lia|lia|]. run E1.
  destruct (decide (q = 0)) as [->|Nq].
  - destruct (IH (tmp + m) (f + Z.min (Z.of_nat 3) (m - 0)) s1 0 0) as (f' & s' & E2 & L2 & Hf'); [lia..|].
    exists f', s'. rewrite L2, L1 in *. by split.
  - destruct (IH (tmp + m) (f + Z.min (Z.of_nat 3) (m - 0)) s1 (q - 1) r) as (f' & s' & E2 & L2 & Hf'); [lia..|].
    exists f', s'. rewrite L2, L1 in *. by split.
Qed.
End safety.

Lemma last_three (d : arr) len : 3 ≤ len ≤ Z.of_nat (length d) →
  ∃ l' c3 c2 c1 r, d = l' ++ c3 :: c2 :: c1 :: r ∧ len = Z.of_nat (length l' + 3).
Proof.
  intros Hl. exists (take (Z.to_nat len - 3) d).
  assert (Ld : (3 ≤ length (drop (Z.to_nat len - 3) d))%nat) by (rewrite length_drop; lia).
  destruct (drop (Z.to_nat len - 3) d) as [|c3 [|c2 [|c1 r]]] eqn:Ed; [simpl in Ld; lia..|].
  exists c3, c2, c1, r. rewrite <-Ed, take_drop, length_take. split; [done|]. lia.
Qed.

Lemma equals_range c1 c2 c3 : 0 ≤ equals c1 + equals c2 + equals c3 ≤ 3.
Proof. unfold equals. repeat case_match; lia. Qed.

Lemma count_equals_short d len s : len < 3 → count_equals d len s = Err Segv.
Proof.
  intros Hl. unfold count_equals, mbind, M_bind.
  assert (Hc : ∀ i, cget d i s = Err Segv ∨ ∃ v, cget d i s = Ok (v, s))
    by (intros i; unfold cget; repeat case_match; eauto).
  destruct (Hc (len - 1)) as [->|[v1 ->]]; [done|]. destruct (Hc (len - 2)) as [->|[v2 ->]]; [done|].
  by rewrite cget_out by lia.
Qed.

Lemma base64_decode_safe_ok addr slack d len : 1 ≤ slack → 3 ≤ len ≤ Z.of_nat (length d) →
  ∃ ret, base64_decode addr slack true d len = Ok (Some ret).
Proof.
  intros Hs Hl. destruct (last_three d len Hl) as (l' & c3 & c2 & c1 & r & -> & ->).
  unfold base64_decode. rewrite count_equals_ok. simpl negb. cbv iota.
  set (e := equals c1 + equals c2 + equals c3).
  assert (He : 0 ≤ e ≤ 3) by apply equals_range. rewrite ret_len_eq by done.
  set (len := Z.of_nat (length l' + 3)). pose proof (Z.quot_rem' len 4). pose proof (Z.rem_bound_pos len 4).
  pose proof (Z.div_mod (len - e) 4). pose proof (Z.mod_pos_bound (len - e) 4).
  match goal with |- context [replicate (Z.to_nat ?x)] => set (z := x) end.
  destruct (decode_loop_safe addr slack Hs (l' ++ c3 :: c2 :: c1 :: r) (len - e) ltac:(lia) (S (Z.to_nat len)) 0 0
    (replicate (Z.to_nat z) 0) ((len - e) / 4) ((len - e) mod 4)) as (f & s & E & L & Hf);
    [rewrite ?length_replicate; lia..|].
  rewrite (bind_ok _ _ _ _ _ E). rewrite <-L in Hf. destruct (aset_in s f 0 Hf) as (s' & E' & _).
  rewrite E'. by eexists.
Qed.

(** ** The properties *)

(** C29: [base64_encode] ends within its buffer, which it fills exactly: the
    encoding of RFC 4648 of the bytes, with its padding, and a NUL. *)
Theorem base64_encode_correct data :
  base64_encode true data (Z.of_nat (length data)) = Ok (Some (b64 (u8 <$> data) ++ [0])).
Proof. apply base64_encode_ok. Qed.

(** C27: Decoding what was encoded gives back every non-empty string of
    characters, followed only by NULs, provided the byte behind [need] is free. *)
Theorem base64_roundtrip addr slack data : 1 ≤ slack → Forall is_s8 data → data ≠ [] →
  ∃ e m, base64_encode true data (Z.of_nat (length data)) = Ok (Some (e ++ [0])) ∧
    base64_decode addr slack true (e ++ [0]) (Z.of_nat (length e)) = Ok (Some (data ++ replicate (S m) 0)).
Proof.
  intros Hs Hd Hn. assert (Hu : Forall is_u8 (u8 <$> data)) by (apply Forall_fmap, Forall_true; intros; apply u8_range).
  destruct (base64_decode_ok addr slack (u8 <$> data) Hs Hu) as [m E]; [by destruct data|].
  exists (b64 (u8 <$> data)), m. split; [apply base64_encode_ok|]. rewrite E. do 3 f_equal.
  rewrite <-list_fmap_compose. clear -Hd. induction Hd as [|c l Hc _ IH]; [done|]. csimpl. rewrite IH. f_equal. by apply s8_mod.
Qed.

Lemma base64_roundtrip_witness :
  ∃ e m, base64_encode true (chars "A") 1 = Ok (Some (e ++ [0])) ∧
    base64_decode 4096 1 true (e ++ [0]) (Z.of_nat (length e)) = Ok (Some (chars "A" ++ replicate (S m) 0)).
Proof. apply (base64_roundtrip 4096 1 (chars "A")); [lia|repeat constructor; lia|done]. Defined.

(** On any input of at least 3 characters, valid base64 or not,
    [base64_decode] ends without an access outside its buffer and its input,
    provided the byte behind [need] is free. *)
Theorem base64_decode_safe addr slack d len : 1 ≤ slack → 3 ≤ len ≤ Z.of_nat (length d) →
  ∃ ret, base64_decode addr slack true d len = Ok (Some ret).
Proof. apply base64_decode_safe_ok. Qed.

Lemma base64_decode_safe_witness : ∃ ret, base64_decode 4096 1 true (chars "=!x") 3 = Ok (Some ret).
Proof. apply (base64_decode_safe 4096 1 (chars "=!x") 3); [lia|]. simpl. lia. Defined.

(** [base64_decode] reads in front of its input when that has fewer than 3
    characters (the empty string, which [base64_encode] produces, among them),
    and it writes behind the array [need] on every input of 4 characters or more. *)
Theorem base64_decode_faults addr slack alloc d len :
  (len < 3 → base64_decode addr slack alloc d len = Err Segv) ∧
  (slack < 1 → 4 ≤ len ≤ Z.of_nat (length d) → base64_decode addr slack true d len = Err Segv).
Proof.
  split; [intros Hl; unfold base64_decode; by rewrite count_equals_short|].
  intros Hs Hl. assert (Hl4 : 4 ≤ len) by lia.
  destruct (last_three d len ltac:(lia)) as (l' & c3 & c2 & c1 & r & -> & E).
  unfold base64_decode. rewrite E, count_equals_ok, <-E. simpl negb. cbv iota. pose proof (equals_range c1 c2 c3).
  unfold mbind, M_bind. cbn [decode_loop].
  rewrite (proj2 (Z.ltb_lt 0 (len - (equals c1 + equals c2 + equals c3)))) by lia.
  unfold clear_need. by rewrite (proj2 (Z.leb_gt 4 (3 + slack))) by lia.
Qed.

Lemma base64_decode_faults_witness :
  base64_decode 4096 1 true [0] 0 = Err Segv ∧ base64_decode 4096 0 true (chars "QQ==") 4 = Err Segv.
Proof.
  split; [apply (proj1 (base64_decode_faults 4096 1 true [0] 0)); lia|].
  apply (proj2 (base64_decode_faults 4096 0 true (chars "QQ==") 4)); simpl; lia.
Defined.
