(* ===== verification/Md5.v ===== *)
(** MD5 (src/md5sum/md5.c, md5.h): the code.

    Words are unsigned 32-bit integers, the arrays of the context and the
    buffers are lists; a read or a copy outside of an array is [Segv]. *)
From S2P Require Import Prelude CInt CArr.

Record MD5_CTX := Ctx { count : arr; state : arr; buffer : arr }.

(** ** The macros *)
Definition not32 (x : Z) : Z := u32 (Z.lnot x).
Definition F (x y z : Z) : Z := Z.lor (Z.land x y) (Z.land (not32 x) z).
Definition G (x y z : Z) : Z := Z.lor (Z.land x z) (Z.land y (not32 z)).
Definition H (x y z : Z) : Z := Z.lxor (Z.lxor x y) z.
Definition I (x y z : Z) : Z := Z.lxor y (Z.lor x (not32 z)).
Definition ROTATE_LEFT (x n : Z) : Z := Z.lor (u32 (Z.shiftl x n)) (Z.shiftr x (32 - n)).

Definition FF (a b c d x s ac : Z) : Z :=
  let a := u32 (a + (F b c d + x + ac)) in
  let a := ROTATE_LEFT a s in
  u32 (a + b).
Definition GG (a b c d x s ac : Z) : Z :=
  let a := u32 (a + (G b c d + x + ac)) in
  let a := ROTATE_LEFT a s in
  u32 (a + b).
Definition HH (a b c d x s ac : Z) : Z :=
  let a := u32 (a + (H b c d + x + ac)) in
  let a := ROTATE_LEFT a s in
  u32 (a + b).
Definition II (a b c d x s ac : Z) : Z :=
  let a := u32 (a + (I b c d + x + ac)) in
  let a := ROTATE_LEFT a s in
  u32 (a + b).

(** ** Words and bytes: the array written to is the state *)
Fixpoint MD5Encode_loop (n : nat) (input : arr) (len i j : Z) : M arr unit :=
  match n with
  | O => fail Fuel
  | S n =>
      if j <? len then
        w ← cget input i; aset j (Z.land w 0xFF);;
        w ← cget input i; aset (j + 1) (Z.land (Z.shiftr w 8) 0xFF);;
        w ← cget input i; aset (j + 2) (Z.land (Z.shiftr w 16) 0xFF);;
        w ← cget input i; aset (j + 3) (Z.land (Z.shiftr w 24) 0xFF);;
        MD5Encode_loop n input len (i + 1) (j + 4)
      else mret ()
  end.
Definition MD5Encode (input : arr) (len : Z) : M arr unit := MD5Encode_loop (S (Z.to_nat len)) input len 0 0.

Fixpoint MD5Decode_loop (n : nat) (input : arr) (len i j : Z) : M arr unit :=
  match n with
  | O => fail Fuel
  | S n =>
      if j <? len then
        b0 ← cget input j; b1 ← cget input (j + 1); b2 ← cget input (j + 2); b3 ← cget input (j + 3);
        aset i (Z.lor (Z.lor (Z.lor b0 (Z.shiftl b1 8)) (Z.shiftl b2 16)) (Z.shiftl b3 24));;
        MD5Decode_loop n input len (i + 1) (j + 4)
      else mret ()
  end.
Definition MD5Decode (input : arr) (len : Z) : M arr unit := MD5Decode_loop (S (Z.to_nat len)) input len 0 0.

(** The 64 steps on the words [x] of a block.  [assign a := e ; k] is a [let]
    that is kept folded in the proofs about the long sequence. *)
Definition assigned {A B} (e : A) (k : A → B) : B := k e.
Notation "'assign' a := e ; k" := (assigned e (λ a, k))
  (at level 100, a name, k at level 200, right associativity, only parsing).

Definition rounds (a b c d : Z) (x : arr) : Z * Z * Z * Z :=
  assign a := FF a b c d (x !!! 0%nat) 7 0xd76aa478 ; (* 1 *)
  assign d := FF d a b c (x !!! 1%nat) 12 0xe8c7b756 ; (* 2 *)
  assign c := FF c d a b (x !!! 2%nat) 17 0x242070db ; (* 3 *)
  assign b := FF b c d a (x !!! 3%nat) 22 0xc1bdceee ; (* 4 *)
  assign a := FF a b c d (x !!! 4%nat) 7 0xf57c0faf ; (* 5 *)
  assign d := FF d a b c (x !!! 5%nat) 12 0x4787c62a ; (* 6 *)
  assign c := FF c d a b (x !!! 6%nat) 17 0xa8304613 ; (* 7 *)
  assign b := FF b c d a (x !!! 7%nat) 22 0xfd469501 ; (* 8 *)
  assign a := FF a b c d (x !!! 8%nat) 7 0x698098d8 ; (* 9 *)
  assign d := FF d a b c (x !!! 9%nat) 12 0x8b44f7af ; (* 10 *)
  assign c := FF c d a b (x !!! 10%nat) 17 0xffff5bb1 ; (* 11 *)
  assign b := FF b c d a (x !!! 11%nat) 22 0x895cd7be ; (* 12 *)
  assign a := FF a b c d (x !!! 12%nat) 7 0x6b901122 ; (* 13 *)
  assign d := FF d a b c (x !!! 13%nat) 12 0xfd987193 ; (* 14 *)
  assign c := FF c d a b (x !!! 14%nat) 17 0xa679438e ; (* 15 *)
  assign b := FF b c d a (x !!! 15%nat) 22 0x49b40821 ; (* 16 *)
  assign a := GG a b c d (x !!! 1%nat) 5 0xf61e2562 ; (* 17 *)
  assign d := GG d a b c (x !!! 6%nat) 9 0xc040b340 ; (* 18 *)
  assign c := GG c d a b (x !!! 11%nat) 14 0x265e5a51 ; (* 19 *)
  assign b := GG b c d a (x !!! 0%nat) 20 0xe9b6c7aa ; (* 20 *)
  assign a := GG a b c d (x !!! 5%nat) 5 0xd62f105d ; (* 21 *)
  assign d := GG d a b c (x !!! 10%nat) 9 0x2441453 ; (* 22 *)
  assign c := GG c d a b (x !!! 15%nat) 14 0xd8a1e681 ; (* 23 *)
  assign b := GG b c d a (x !!! 4%nat) 20 0xe7d3fbc8 ; (* 24 *)
  assign a := GG a b c d (x !!! 9%nat) 5 0x21e1cde6 ; (* 25 *)
  assign d := GG d a b c (x !!! 14%nat) 9 0xc33707d6 ; (* 26 *)
  assign c := GG c d a b (x !!! 3%nat) 14 0xf4d50d87 ; (* 27 *)
  assign b := GG b c d a (x !!! 8%nat) 20 0x455a14ed ; (* 28 *)
  assign a := GG a b c d (x !!! 13%nat) 5 0xa9e3e905 ; (* 29 *)
  assign d := GG d a b c (x !!! 2%nat) 9 0xfcefa3f8 ; (* 30 *)
  assign c := GG c d a b (x !!! 7%nat) 14 0x676f02d9 ; (* 31 *)
  assign b := GG b c d a (x !!! 12%nat) 20 0x8d2a4c8a ; (* 32 *)
  assign a := HH a b c d (x !!! 5%nat) 4 0xfffa3942 ; (* 33 *)
  assign d := HH d a b c (x !!! 8%nat) 11 0x8771f681 ; (* 34 *)
  assign c := HH c d a b (x !!! 11%nat) 16 0x6d9d6122 ; (* 35 *)
  assign b := HH b c d a (x !!! 14%nat) 23 0xfde5380c ; (* 36 *)
  assign a := HH a b c d (x !!! 1%nat) 4 0xa4beea44 ; (* 37 *)
  assign d := HH d a b c (x !!! 4%nat) 11 0x4bdecfa9 ; (* 38 *)
  assign c := HH c d a b (x !!! 7%nat) 16 0xf6bb4b60 ; (* 39 *)
  assign b := HH b c d a (x !!! 10%nat) 23 0xbebfbc70 ; (* 40 *)
  assign a := HH a b c d (x !!! 13%nat) 4 0x289b7ec6 ; (* 41 *)
  assign d := HH d a b c (x !!! 0%nat) 11 0xeaa127fa ; (* 42 *)
  assign c := HH c d a b (x !!! 3%nat) 16 0xd4ef3085 ; (* 43 *)
  assign b := HH b c d a (x !!! 6%nat) 23 0x4881d05 ; (* 44 *)
  assign a := HH a b c d (x !!! 9%nat) 4 0xd9d4d039 ; (* 45 *)
  assign d := HH d a b c (x !!! 12%nat) 11 0xe6db99e5 ; (* 46 *)
  assign c := HH c d a b (x !!! 15%nat) 16 0x1fa27cf8 ; (* 47 *)
  assign b := HH b c d a (x !!! 2%nat) 23 0xc4ac5665 ; (* 48 *)
  assign a := II a b c d (x !!! 0%nat) 6 0xf4292244 ; (* 49 *)
  assign d := II d a b c (x !!! 7%nat) 10 0x432aff97 ; (* 50 *)
  assign c := II c d a b (x !!! 14%nat) 15 0xab9423a7 ; (* 51 *)
  assign b := II b c d a (x !!! 5%nat) 21 0xfc93a039 ; (* 52 *)
  assign a := II a b c d (x !!! 12%nat) 6 0x655b59c3 ; (* 53 *)
  assign d := II d a b c (x !!! 3%nat) 10 0x8f0ccc92 ; (* 54 *)
  assign c := II c d a b (x !!! 10%nat) 15 0xffeff47d ; (* 55 *)
  assign b := II b c d a (x !!! 1%nat) 21 0x85845dd1 ; (* 56 *)
  assign a := II a b c d (x !!! 8%nat) 6 0x6fa87e4f ; (* 57 *)
  assign d := II d a b c (x !!! 15%nat) 10 0xfe2ce6e0 ; (* 58 *)
  assign c := II c d a b (x !!! 6%nat) 15 0xa3014314 ; (* 59 *)
  assign b := II b c d a (x !!! 13%nat) 21 0x4e0811a1 ; (* 60 *)
  assign a := II a b c d (x !!! 4%nat) 6 0xf7537e82 ; (* 61 *)
  assign d := II d a b c (x !!! 11%nat) 10 0xbd3af235 ; (* 62 *)
  assign c := II c d a b (x !!! 2%nat) 15 0x2ad7d2bb ; (* 63 *)
  assign b := II b c d a (x !!! 9%nat) 21 0xeb86d391 ; (* 64 *)
  (a, b, c, d).

(** [state[i] += ...]; the local array [x] is set by [MD5Decode] before it is
    read. *)
Definition MD5Transform (st block : arr) : res arr :=
  match MD5Decode block 64 (replicate 64 0), st with
  | Ok (_, x), [s0; s1; s2; s3] =>
      let '(a, b, c, d) := rounds s0 s1 s2 s3 x in
      Ok [u32 (s0 + a); u32 (s1 + b); u32 (s2 + c); u32 (s3 + d)]
  | Ok _, _ => Err Segv
  | Err e, _ => Err e
  end.

(** ** The context *)
Definition PADDING : arr := 0x80 :: replicate 63 0.

(** The context before [MD5Init] is not initialised. *)
Definition MD5Init (context : MD5_CTX) : MD5_CTX :=
  Ctx [0; 0] [0x67452301; 0xEFCDAB89; 0x98BADCFE; 0x10325476] (buffer context).

(** [memcpy(&dst[at], &src[from], n)] *)
Definition memcpy (dst : arr) (at_ : Z) (src : arr) (from n : Z) : res arr :=
  if (at_ + n <=? Z.of_nat (length dst)) && (from + n <=? Z.of_nat (length src)) then
    Ok (take (Z.to_nat at_) dst ++ take (Z.to_nat n) (drop (Z.to_nat from) src) ++ drop (Z.to_nat (at_ + n)) dst)
  else Err Segv.

(** [for (i = partlen; i + 64 <= inputlen; i += 64)], in unsigned arithmetic. *)
Fixpoint Update_loop (n : nat) (st input : arr) (i inputlen : Z) : res (arr * Z) :=
  match n with
  | O => Err Fuel
  | S n =>
      if u32 (i + 64) <=? inputlen then
        match MD5Transform st (drop (Z.to_nat i) input) with
        | Ok st => Update_loop n st input (u32 (i + 64)) inputlen
        | Err e => Err e
        end
      else Ok (st, i)
  end.

Definition MD5Update (context : MD5_CTX) (input : arr) (inputlen : Z) : res MD5_CTX :=
  let c0 := count context !!! 0%nat in
  let c1 := count context !!! 1%nat in
  let index := Z.land (Z.shiftr c0 3) 0x3F in
  let partlen := 64 - index in
  let c0 := u32 (c0 + u32 (Z.shiftl inputlen 3)) in
  let c1 := if c0 <? u32 (Z.shiftl inputlen 3) then u32 (c1 + 1) else c1 in
  let c1 := u32 (c1 + Z.shiftr inputlen 29) in
  if inputlen >=? partlen then
    match memcpy (buffer context) index input 0 partlen with
    | Err e => Err e
    | Ok buf =>
        match MD5Transform (state context) buf with
        | Err e => Err e
        | Ok st =>
            match Update_loop (S (Z.to_nat inputlen)) st input partlen inputlen with
            | Err e => Err e
            | Ok (st, i) =>
                match memcpy buf 0 input i (inputlen - i) with
                | Err e => Err e
                | Ok buf => Ok (Ctx [c0; c1] st buf)
                end
            end
        end
    end
  else
    match memcpy (buffer context) index input 0 inputlen with
    | Err e => Err e
    | Ok buf => Ok (Ctx [c0; c1] (state context) buf)
    end.

(** The digest, of 16 bytes, is the array written to. *)
Definition MD5Final (context : MD5_CTX) : M arr MD5_CTX := λ digest,
  let index := Z.land (Z.shiftr (count context !!! 0%nat) 3) 0x3F in
  let padlen := if index <? 56 then 56 - index else 120 - index in
  match MD5Encode (count context) 8 (replicate 8 0) with
  | Err e => Err e
  | Ok (_, bits) =>
      match MD5Update context PADDING padlen with
      | Err e => Err e
      | Ok context =>
          match MD5Update context bits 8 with
          | Err e => Err e
          | Ok context => (MD5Encode (state context) 16;; mret context) digest
          end
      end
  end.

(** ** The MD5 of a file (src/md5sum/calc.c)

    [opened] says whether [open] succeeds, [reads] is what the calls of [read]
    give in turn: [None] for an error, or the bytes read. *)
Definition READ_DATA_SIZE : Z := 1024.
Definition MD5_SIZE : nat := 16.

Fixpoint read_loop (reads : list (option arr)) (data : arr) (md5 : MD5_CTX) : res (option MD5_CTX) :=
  match reads with
  | [] => Err Fuel
  | None :: _ => Ok None
  | Some bytes :: reads =>
      let ret := Z.of_nat (length bytes) in
      let data := bytes ++ drop (length bytes) data in
      match MD5Update md5 data ret with
      | Err e => Err e
      | Ok md5 => if (0 =? ret) || (ret <? READ_DATA_SIZE) then Ok (Some md5) else read_loop reads data md5
      end
  end.

Definition hex_digit (x : Z) : Z := if x <? 10 then 48 + x else 87 + x.

(** [snprintf(md5_str + i * 2, 3, "%02x", v)] *)
Definition print_hex (at_ v : Z) : M arr unit :=
  aset at_ (hex_digit (v / 16));; aset (at_ + 1) (hex_digit (v mod 16));; aset (at_ + 2) 0.

Fixpoint print_digest (i : Z) (digest : arr) : M arr unit :=
  match digest with
  | [] => mret ()
  | v :: digest => print_hex (i * 2) v;; print_digest (i + 1) digest
  end.

(** The string is the array written to; [junk] is the uninitialised context. *)
Definition Compute_file_md5 (opened : bool) (reads : list (option arr)) (junk : MD5_CTX) : M arr Z := λ md5_str,
  if negb opened then Ok (-1, md5_str) else
  match read_loop reads (replicate (Z.to_nat READ_DATA_SIZE) 0) (MD5Init junk) with
  | Err e => Err e
  | Ok None => Ok (-1, md5_str)
  | Ok (Some md5) =>
      match MD5Final md5 (replicate MD5_SIZE 0) with
      | Err e => Err e
      | Ok (_, md5_value) => (print_digest 0 md5_value;; aset 32 0;; mret 0) md5_str
      end
  end.
