(* ===== verification/Md5Props.v ===== *)
(** MD5: the unrolled transformation is the one of RFC 1321, the context is
    a faithful record of the message seen so far however it was cut into
    pieces, and the digest is that of the RFC. *)
From S2P Require Import Prelude CInt CArr Md5.

(** ** RFC 1321, section 3 *)
Definition T : arr :=
  [0xd76aa478; 0xe8c7b756; 0x242070db; 0xc1bdceee;
   0xf57c0faf; 0x4787c62a; 0xa8304613; 0xfd469501;
   0x698098d8; 0x8b44f7af; 0xffff5bb1; 0x895cd7be;
   0x6b901122; 0xfd987193; 0xa679438e; 0x49b40821;
   0xf61e2562; 0xc040b340; 0x265e5a51; 0xe9b6c7aa;
   0xd62f105d; 0x2441453; 0xd8a1e681; 0xe7d3fbc8;
   0x21e1cde6; 0xc33707d6; 0xf4d50d87; 0x455a14ed;
   0xa9e3e905; 0xfcefa3f8; 0x676f02d9; 0x8d2a4c8a;
   0xfffa3942; 0x8771f681; 0x6d9d6122; 0xfde5380c;
   0xa4beea44; 0x4bdecfa9; 0xf6bb4b60; 0xbebfbc70;
   0x289b7ec6; 0xeaa127fa; 0xd4ef3085; 0x4881d05;
   0xd9d4d039; 0xe6db99e5; 0x1fa27cf8; 0xc4ac5665;
   0xf4292244; 0x432aff97; 0xab9423a7; 0xfc93a039;
   0x655b59c3; 0x8f0ccc92; 0xffeff47d; 0x85845dd1;
   0x6fa87e4f; 0xfe2ce6e0; 0xa3014314; 0x4e0811a1;
   0xf7537e82; 0xbd3af235; 0x2ad7d2bb; 0xeb86d391].

Definition op (f : Z → Z → Z → Z) (a b c d x s ac : Z) : Z :=
  u32 (ROTATE_LEFT (u32 (a + (f b c d + x + ac))) s + b).

Definition step (x : arr) (abcd : Z * Z * Z * Z) (i : nat) : Z * Z * Z * Z :=
  let '(a, b, c, d) := abcd in
  let new f k s := op f a b c d (x !!! (k mod 16)%nat) (s !!! (i mod 4)%nat) (T !!! i) in
  (d, match (i / 16)%nat with
      | 0%nat => new F i [7; 12; 17; 22]
      | 1%nat => new G (5 * i + 1)%nat [5; 9; 14; 20]
      | 2%nat => new H (3 * i + 5)%nat [4; 11; 16; 23]
      | _ => new I (7 * i)%nat [6; 10; 15; 21]
      end, b, c).

(** One step of the unrolled code against one step of the table. *)
Lemma unroll {A B C} (f : A → B → A) s i l (e : C) (K : C → A) s' :
  f s i = s' e → (∀ v, K v = foldl f (s' v) l) → assigned e K = foldl f s (i :: l).
Proof. intros E HK. cbn. rewrite E. apply HK. Qed.

Ltac unroll_step := lazymatch goal with
  |- assigned ?e ?K = foldl (step ?x) (?a, ?b, ?c, ?d) (?i :: ?l) =>
      apply (unroll (step x) (a, b, c, d) i l e K (λ v, (d, v, b, c))); [reflexivity|intro; cbv beta] end.

Lemma rounds_table a b c d x : rounds a b c d x = foldl (step x) (a, b, c, d) (seq 0 64).
Proof.
  cbv beta delta [rounds]. let s := eval cbv in (seq 0 64) in change (seq 0 64) with s.
  do 64 unroll_step. done.
Qed.

(** Little-endian words. *)
Definition le_word (b0 b1 b2 b3 : Z) : Z :=
  Z.lor (Z.lor (Z.lor b0 (Z.shiftl b1 8)) (Z.shiftl b2 16)) (Z.shiftl b3 24).
Fixpoint words (l : arr) : arr :=
  match l with
  | b0 :: b1 :: b2 :: b3 :: l => le_word b0 b1 b2 b3 :: words l
  | _ => []
  end.
Definition le4 (w : Z) : arr :=
  [w mod 2 ^ 8; w / 2 ^ 8 mod 2 ^ 8; w / 2 ^ 16 mod 2 ^ 8; w / 2 ^ 24 mod 2 ^ 8].
Definition bytes (ws : arr) : arr := concat (le4 <$> ws).

Definition compress (st block : arr) : arr :=
  match st with
  | [s0; s1; s2; s3] =>
      let '(a, b, c, d) := foldl (step (words block)) (s0, s1, s2, s3) (seq 0 64) in
      [u32 (s0 + a); u32 (s1 + b); u32 (s2 + c); u32 (s3 + d)]
  | _ => st
  end.

(** [n] blocks of 64 bytes. *)
Fixpoint absorb (n : nat) (st m : arr) : arr :=
  match n with O => st | S n => absorb n (compress st (take 64 m)) (drop 64 m) end.

Definition init : arr := [0x67452301; 0xEFCDAB89; 0x98BADCFE; 0x10325476].

(** Section 3.1 and 3.2: a one bit, zeros up to 448 bits modulo 512, and the
    length in bits modulo [2 ^ 64], low word first. *)
Definition pad (m : arr) : arr :=
  let bits := 8 * Z.of_nat (length m) in
  m ++ 0x80 :: replicate ((119 - length m mod 64) mod 64) 0 ++ bytes [u32 bits; u32 (bits / 2 ^ 32)].

Definition md5 (m : arr) : arr := bytes (absorb (length (pad m) / 64) init (pad m)).

(** ** Encoding and decoding words *)
Lemma Decode_loop_ok input m : ∀ k j out zs rest, drop j input = rest → (4 * m ≤ length rest)%nat →
  (m ≤ length zs)%nat → (m < k)%nat →
  MD5Decode_loop k input (Z.of_nat (j + 4 * m)) (Z.of_nat (length out)) (Z.of_nat j) (out ++ zs) =
  Ok ((), out ++ take m (words rest) ++ drop m zs).
Proof.
  induction m as [|m IH]; intros [|k] j out zs rest D Hr Hz Hk; try lia; cbn [MD5Decode_loop].
  - rewrite (proj2 (Z.ltb_ge _ _)) by lia. done.
  - rewrite (proj2 (Z.ltb_lt _ _)) by lia.
    destruct rest as [|b0 [|b1 [|b2 [|b3 rest]]]]; [simpl in Hr; lia..|]. destruct zs as [|z zs]; [simpl in Hz; lia|].
    pose proof (drop_next _ _ _ _ D) as (D1 & L0 & _). pose proof (drop_next _ _ _ _ D1) as (D2 & L1 & _).
    pose proof (drop_next _ _ _ _ D2) as (D3 & L2 & _). pose proof (drop_next _ _ _ _ D3) as (D4 & L3 & _).
    replace (Z.of_nat j + 1) with (Z.of_nat (S j)) by lia. replace (Z.of_nat j + 2) with (Z.of_nat (S (S j))) by lia.
    replace (Z.of_nat j + 3) with (Z.of_nat (S (S (S j)))) by lia.
    run (cget_ok (out ++ z :: zs) _ _ _ L0). run (cget_ok (out ++ z :: zs) _ _ _ L1).
    run (cget_ok (out ++ z :: zs) _ _ _ L2). run (cget_ok (out ++ z :: zs) _ _ _ L3).
    run (aset_app out zs z (le_word b0 b1 b2 b3) _ eq_refl).
    specialize (IH k (j + 4)%nat (out ++ [le_word b0 b1 b2 b3]) zs rest).
    rewrite length_app, <-!app_assoc in IH. simpl in IH, Hr, Hz.
    replace (Z.of_nat (j + 4 * S m)) with (Z.of_nat (j + 4 + 4 * m)) by lia.
    replace (Z.of_nat (length out) + 1) with (Z.of_nat (length out + 1)) by lia.
    replace (Z.of_nat j + 4) with (Z.of_nat (j + 4)) by lia.
    apply IH; [|lia..]. by replace (j + 4)%nat with (S (S (S (S j)))) by lia.
Qed.

Lemma Encode_loop_ok input m : ∀ k i out zs rest, drop i input = rest → (m ≤ length rest)%nat →
  (4 * m ≤ length zs)%nat → (m < k)%nat →
  MD5Encode_loop k input (Z.of_nat (length out + 4 * m)) (Z.of_nat i) (Z.of_nat (length out)) (out ++ zs) =
  Ok ((), out ++ bytes (take m rest) ++ drop (4 * m) zs).
Proof.
  induction m as [|m IH]; intros [|k] i out zs rest D Hr Hz Hk; try lia; cbn [MD5Encode_loop].
  - rewrite (proj2 (Z.ltb_ge _ _)) by lia. done.
  - rewrite (proj2 (Z.ltb_lt _ _)) by lia.
    destruct rest as [|w rest]; [simpl in Hr; lia|]. destruct zs as [|z0 [|z1 [|z2 [|z3 zs]]]]; [simpl in Hz; lia..|].
    pose proof (drop_next _ _ _ _ D) as (D1 & L0 & _).
    assert (E0 : Z.land w 0xFF = w mod 2 ^ 8) by (by apply (land_mask w 8)).
    pose proof (λ k Hk, shiftr_land w k 8 Hk ltac:(lia)) as Es. change (Z.ones 8) with 0xFF in Es.
    assert (Hw : ∀ s : arr, cget input (Z.of_nat i) s = Ok (w, s)) by (intros s; by apply cget_ok).
    assert (Ha : ∀ (p : nat) v (l : arr), (p < length l)%nat →
      aset (Z.of_nat (length out) + Z.of_nat p) v (out ++ l) = Ok ((), out ++ <[p := v]> l))
      by (intros p v l Hp; by apply aset_at).
    run (Hw (out ++ z0 :: z1 :: z2 :: z3 :: zs)). run (aset_app out (z1 :: z2 :: z3 :: zs) z0 (Z.land w 0xFF) _ eq_refl).
    run (Hw (out ++ Z.land w 255 :: z1 :: z2 :: z3 :: zs)).
    run (Ha 1%nat (Z.land (Z.shiftr w 8) 0xFF) (Z.land w 255 :: z1 :: z2 :: z3 :: zs) ltac:(simpl; lia)).
    cbn [insert list_insert]. rewrite E0, (Es 8) by lia.
    run (Hw (out ++ w mod 2 ^ 8 :: w / 2 ^ 8 mod 2 ^ 8 :: z2 :: z3 :: zs)).
    run (Ha 2%nat (Z.land (Z.shiftr w 16) 0xFF) (w mod 2 ^ 8 :: w / 2 ^ 8 mod 2 ^ 8 :: z2 :: z3 :: zs) ltac:(simpl; lia)).
    cbn [insert list_insert]. rewrite (Es 16) by lia.
    run (Hw (out ++ w mod 2 ^ 8 :: w / 2 ^ 8 mod 2 ^ 8 :: w / 2 ^ 16 mod 2 ^ 8 :: z3 :: zs)).
    run (Ha 3%nat (Z.land (Z.shiftr w 24) 0xFF) (w mod 2 ^ 8 :: w / 2 ^ 8 mod 2 ^ 8 :: w / 2 ^ 16 mod 2 ^ 8 :: z3 :: zs) ltac:(simpl; lia)).
    cbn [insert list_insert]. rewrite (Es 24) by lia. clear Ha Hw.
    specialize (IH k (S i) (out ++ le4 w) zs rest D1). rewrite length_app, <-!app_assoc in IH. simpl in IH, Hr, Hz.
    replace (Z.of_nat (length out + 4 * S m)) with (Z.of_nat (length out + 4 + 4 * m)) by lia.
    replace (Z.of_nat (length out) + 4) with (Z.of_nat (length out + 4)) by lia.
    replace (Z.of_nat i + 1) with (Z.of_nat (S i)) by lia.
    replace (drop (4 * S m) (z0 :: z1 :: z2 :: z3 :: zs)) with (drop (4 * m) zs) by (by rewrite Nat.mul_succ_r, Nat.add_comm).
    apply IH; lia.
Qed.

Lemma Encode_ok ws out : length out = (4 * length ws)%nat →
  MD5Encode ws (Z.of_nat (length out)) out = Ok ((), bytes ws).
Proof.
  intros Hl. unfold MD5Encode.
  pose proof (Encode_loop_ok ws (length ws) (S (Z.to_nat (Z.of_nat (length out)))) 0 [] out ws eq_refl) as E.
  simpl length in E. rewrite !app_nil_l in E. rewrite Hl. rewrite Hl in E. change (Z.of_nat 0) with 0 in E.
  rewrite Nat.add_0_l in E. rewrite E by lia. by rewrite firstn_all, drop_ge, app_nil_r by lia.
Qed.

Lemma Decode_ok input m out : (4 * m ≤ length input)%nat → (m ≤ length out)%nat →
  MD5Decode input (Z.of_nat (4 * m)) out = Ok ((), take m (words input) ++ drop m out).
Proof.
  intros Hi Ho. unfold MD5Decode.
  pose proof (Decode_loop_ok input m (S (Z.to_nat (Z.of_nat (4 * m)))) 0 [] out input eq_refl) as E.
  simpl length in E. rewrite !app_nil_l in E. change (Z.of_nat 0) with 0 in E. rewrite Nat.add_0_l in E.
  apply E; lia.
Qed.

(** Bytes packed into a word come back, and a word from its bytes. *)
Lemma le_word_sum b0 b1 b2 b3 : is_u8 b0 → is_u8 b1 → is_u8 b2 → is_u8 b3 →
  le_word b0 b1 b2 b3 = ((b3 * 2 ^ 8 + b2) * 2 ^ 8 + b1) * 2 ^ 8 + b0.
Proof.
  unfold is_u8, le_word. intros. rewrite (Z.lor_comm b0), lor_shiftl_add by lia.
  rewrite (Z.lor_comm (b1 * 2 ^ 8 + b0)), lor_shiftl_add by lia.
  rewrite (Z.lor_comm (b2 * 2 ^ 16 + _)), lor_shiftl_add by lia. lia.
Qed.

Lemma le_word_le4 w : is_u32 w →
  le_word (w mod 2 ^ 8) (w / 2 ^ 8 mod 2 ^ 8) (w / 2 ^ 16 mod 2 ^ 8) (w / 2 ^ 24 mod 2 ^ 8) = w.
Proof.
  intros Hw. rewrite le_word_sum by (apply Z.mod_pos_bound; lia).
  rewrite <-(digits4 (2 ^ 8) w) at 5 by (unfold is_u32 in Hw; lia). done.
Qed.

Lemma words_bytes ws : Forall is_u32 ws → words (bytes ws) = ws.
Proof.
  induction 1 as [|w ws Hw _ IH]; [done|]. unfold bytes in *. csimpl. by rewrite le_word_le4, IH.
Qed.

(** ** The transformation *)
Lemma words_app l1 l2 m : length l1 = (4 * m)%nat → words (l1 ++ l2) = words l1 ++ words l2.
Proof.
  revert l1. induction m as [|m IH]; intros l1 Hl; [by destruct l1|].
  destruct l1 as [|b0 [|b1 [|b2 [|b3 l1]]]]; try (simpl in Hl; lia). simpl. f_equal. apply IH. simpl in Hl. lia.
Qed.
Lemma length_words l m : length l = (4 * m)%nat → length (words l) = m.
Proof.
  revert l. induction m as [|m IH]; intros l Hl; [by destruct l|].
  destruct l as [|b0 [|b1 [|b2 [|b3 l]]]]; try (simpl in Hl; lia). simpl. f_equal. apply IH. simpl in Hl. lia.
Qed.

Lemma step_ext x y s i : (∀ k, (k < 16)%nat → x !!! k = y !!! k) → step x s i = step y s i.
Proof.
  intros Hxy. destruct s as [[[a b] c] d]. unfold step.
  assert (Hm : ∀ k, x !!! (k mod 16)%nat = y !!! (k mod 16)%nat) by (intros k; apply Hxy, Nat.mod_upper_bound; lia).
  by rewrite !Hm.
Qed.

Lemma Transform_ok st block : length st = 4%nat → (64 ≤ length block)%nat →
  MD5Transform st block = Ok (compress st (take 64 block)).
Proof.
  intros Hs Hb. unfold MD5Transform.
  pose proof (Decode_ok block 16 (replicate 64 0) ltac:(lia) ltac:(rewrite length_replicate; lia)) as E.
  change (Z.of_nat (4 * 16)) with 64 in E. rewrite E.
  destruct st as [|s0 [|s1 [|s2 [|s3 [|]]]]]; try discriminate. rewrite rounds_table. unfold compress.
  assert (Hl : length (take 64 block) = (4 * 16)%nat) by (rewrite length_take; lia).
  assert (Ew : take 16 (words block) = words (take 64 block)).
  { rewrite <-(take_drop 64 block) at 1. rewrite (words_app _ _ 16 Hl).
    rewrite take_app_le by (by rewrite (length_words _ 16)). apply take_ge. by rewrite (length_words _ 16). }
  rewrite Ew. set (x := words (take 64 block) ++ _).
  assert (Ef : ∀ l s, foldl (step x) s l = foldl (step (words (take 64 block))) s l).
  { induction l as [|i l IH]; intros s; [done|]. simpl. rewrite <-IH. f_equal. apply step_ext.
    intros k Hk. unfold x. rewrite !list_lookup_total_alt, lookup_app_l; [done|]. by rewrite (length_words _ 16). }
  rewrite Ef. by destruct (foldl _ _ _) as [[[a b] c] d].
Qed.

Lemma length_compress st b : length st = 4%nat → length (compress st b) = 4%nat.
Proof.
  intros Hs. destruct st as [|s0 [|s1 [|s2 [|s3 [|]]]]]; try discriminate. unfold compress.
  by destruct (foldl _ _ _) as [[[? ?] ?] ?].
Qed.

Lemma length_absorb n : ∀ st m, length st = 4%nat → length (absorb n st m) = 4%nat.
Proof. induction n as [|n IH]; intros st m Hs; [done|]. simpl. apply IH. by apply length_compress. Qed.

Lemma absorb_app n1 n2 : ∀ st m1 m2, length m1 = (64 * n1)%nat →
  absorb (n1 + n2) st (m1 ++ m2) = absorb n2 (absorb n1 st m1) m2.
Proof.
  induction n1 as [|n1 IH]; intros st m1 m2 Hl; [by destruct m1|].
  cbn [absorb Nat.add]. rewrite take_app_le, drop_app_le by lia. apply IH. rewrite length_drop. lia.
Qed.

(** ** The context represents the message so far *)
Definition low (m : arr) : Z := u32 (8 * Z.of_nat (length m)).
Definition high (m : arr) : Z := u32 (8 * Z.of_nat (length m) / 2 ^ 32).

Definition Rep (ctx : MD5_CTX) (m : arr) : Prop := ∃ q full tail,
  m = full ++ tail ∧ length full = (64 * q)%nat ∧ (length tail < 64)%nat ∧
  count ctx = [low m; high m] ∧ state ctx = absorb q init full ∧
  length (buffer ctx) = 64%nat ∧ take (length tail) (buffer ctx) = tail.

Lemma index_ok m full tail q : m = full ++ tail → length full = (64 * q)%nat → (length tail < 64)%nat →
  Z.land (Z.shiftr (low m) 3) 0x3F = Z.of_nat (length tail).
Proof.
  intros -> Hf Ht. rewrite (shiftr_land _ 3 6) by lia. unfold low, u32. rewrite length_app, Hf.
  Z.div_mod_to_equations. lia.
Qed.

Lemma carry_ok a b M : 0 < M → (a mod M + b mod M) mod M = (a + b) mod M ∧
  (a + b) / M = a / M + b / M + (if (a + b) mod M <? b mod M then 1 else 0).
Proof.
  intros HM. split; [symmetry; apply Z.add_mod; lia|].
  pose proof (Z.div_mod a M ltac:(lia)). pose proof (Z.div_mod b M ltac:(lia)).
  pose proof (Z.mod_pos_bound a M HM). pose proof (Z.mod_pos_bound b M HM).
  destruct (decide (a mod M + b mod M < M)) as [Hs|Hs].
  - assert (E : (a + b) mod M = a mod M + b mod M) by (symmetry; apply (Z.mod_unique _ _ (a / M + b / M)); lia).
    rewrite E, (proj2 (Z.ltb_ge _ _)) by lia. symmetry. apply (Z.div_unique _ _ _ (a mod M + b mod M)); lia.
  - assert (E : (a + b) mod M = a mod M + b mod M - M)
      by (symmetry; apply (Z.mod_unique _ _ (a / M + b / M + 1)); lia).
    rewrite E, (proj2 (Z.ltb_lt _ _)) by lia. symmetry. apply (Z.div_unique _ _ _ (a mod M + b mod M - M)); lia.
Qed.

Lemma count_ok m x : let n := Z.of_nat (length x) in
  u32 (low m + u32 (Z.shiftl n 3)) = low (m ++ x) ∧
  u32 ((if low (m ++ x) <? u32 (Z.shiftl n 3) then u32 (high m + 1) else high m) + Z.shiftr n 29) = high (m ++ x).
Proof.
  intros n. rewrite Z.shiftl_mul_pow2, Z.shiftr_div_pow2 by lia. unfold low, high, u32.
  rewrite length_app, Nat2Z.inj_add, Z.mul_add_distr_l. fold n. replace (n * 2 ^ 3) with (8 * n) by lia.
  set (a := 8 * Z.of_nat (length m)). destruct (carry_ok a (8 * n) (2 ^ 32)) as [C1 C2]; [lia|].
  split; [exact C1|]. rewrite C2. replace (n / 2 ^ 29) with (8 * n / 2 ^ 32)
    by (change (2 ^ 32) with (8 * 2 ^ 29); rewrite Z.div_mul_cancel_l by lia; done).
  destruct (_ <? _).
  - rewrite Zplus_mod_idemp_l, Zplus_assoc_reverse, Zplus_mod_idemp_l. f_equal. lia.
  - rewrite Zplus_mod_idemp_l. f_equal. lia.
Qed.

Lemma memcpy_ok dst (at_ : nat) src (from n : nat) : (at_ + n ≤ length dst)%nat → (from + n ≤ length src)%nat →
  memcpy dst (Z.of_nat at_) src (Z.of_nat from) (Z.of_nat n) =
  Ok (take at_ dst ++ take n (drop from src) ++ drop (at_ + n) dst).
Proof.
  intros Hd Hs. unfold memcpy. rewrite !(proj2 (Z.leb_le _ _)) by lia. simpl.
  by replace (Z.to_nat (Z.of_nat at_ + Z.of_nat n)) with (at_ + n)%nat by lia; rewrite !Nat2Z.id.
Qed.

Lemma Update_loop_ok input (n : nat) : (n ≤ length input)%nat → Z.of_nat n < 2 ^ 32 - 64 → ∀ fuel st i,
  (i ≤ n)%nat → (n - i < fuel)%nat → length st = 4%nat →
  ∃ k mid tail, take (n - i) (drop i input) = mid ++ tail ∧ length mid = (64 * k)%nat ∧ (length tail < 64)%nat ∧
    Update_loop fuel st input (Z.of_nat i) (Z.of_nat n) = Ok (absorb k st mid, Z.of_nat (i + 64 * k)).
Proof.
  intros Hn Hb. induction fuel as [|fuel IH]; intros st i Hi Hf Hs; [lia|]. cbn [Update_loop].
  rewrite u32_id by (unfold is_u32; lia). destruct (Z.leb_spec (Z.of_nat i + 64) (Z.of_nat n)).
  - rewrite Nat2Z.id, Transform_ok by (rewrite ?length_drop; lia).
    destruct (IH (compress st (take 64 (drop i input))) (i + 64)%nat) as (k & mid & tail & E & Hm & Ht & EU);
      [lia|lia|by apply length_compress|].
    exists (S k), (take 64 (drop i input) ++ mid), tail. split_and!; [|rewrite length_app, length_take, length_drop; lia|done|].
    + rewrite <-app_assoc, <-E, <-drop_drop, take_take_drop. f_equal. lia.
    + replace (Z.of_nat i + 64) with (Z.of_nat (i + 64)) by lia. rewrite EU. cbn [absorb].
      rewrite take_app_le, drop_app_le by (rewrite length_take, length_drop; lia).
      rewrite (take_ge (take _ _)), (drop_ge (take _ _)) by (rewrite length_take; lia). do 3 f_equal. lia.
  - exists 0%nat, [], (take (n - i) (drop i input)). split_and!; [done|done|rewrite length_take; lia|].
    do 3 f_equal. lia.
Qed.

Section update.
Context (ctx : MD5_CTX) (m input : arr) (n : nat).
Context (HR : Rep ctx m) (Hn : (n ≤ length input)%nat) (Hb : Z.of_nat n < 2 ^ 32 - 64).

Lemma counts_after : let c0 := u32 (low m + u32 (Z.shiftl (Z.of_nat n) 3)) in
  [c0; u32 ((if c0 <? u32 (Z.shiftl (Z.of_nat n) 3) then u32 (high m + 1) else high m) + Z.shiftr (Z.of_nat n) 29)] =
  [low (m ++ take n input); high (m ++ take n input)].
Proof.
  destruct (count_ok m (take n input)) as [C0 C1]. rewrite length_take, Nat.min_l in C0, C1 by lia.
  intros c0. unfold c0. by rewrite C0, C1.
Qed.

(** The buffer is filled up, and the rest of the input goes block by block. *)
Lemma Update_full full tail q : m = full ++ tail → length full = (64 * q)%nat → (length tail < 64)%nat →
  state ctx = absorb q init full → length (buffer ctx) = 64%nat → take (length tail) (buffer ctx) = tail →
  (64 - length tail ≤ n)%nat →
  ∃ k mid tail' buf, let p := (64 - length tail)%nat in
    memcpy (buffer ctx) (Z.of_nat (length tail)) input 0 (Z.of_nat p) = Ok (tail ++ take p input) ∧
    MD5Transform (state ctx) (tail ++ take p input) = Ok (absorb (q + 1) init (full ++ tail ++ take p input)) ∧
    Update_loop (S n) (absorb (q + 1) init (full ++ tail ++ take p input)) input (Z.of_nat p) (Z.of_nat n) =
      Ok (absorb (q + 1 + k) init (full ++ tail ++ take p input ++ mid), Z.of_nat (p + 64 * k)) ∧
    memcpy (tail ++ take p input) 0 input (Z.of_nat (p + 64 * k)) (Z.of_nat n - Z.of_nat (p + 64 * k)) = Ok buf ∧
    take n input = take p input ++ mid ++ tail' ∧ length mid = (64 * k)%nat ∧ (length tail' < 64)%nat ∧
    length buf = 64%nat ∧ take (length tail') buf = tail'.
Proof.
  intros Em Hf Ht Es Hbl Hbt Hp. set (p := (64 - length tail)%nat). assert (Hp' : (p ≤ n)%nat) by done.
  assert (Li : length init = 4%nat) by done.
  assert (Hblk : length (tail ++ take p input) = 64%nat) by (rewrite length_app, length_take; lia).
  destruct (Update_loop_ok input n Hn Hb (S n) (absorb (q + 1) init (full ++ tail ++ take p input)) p)
    as (k & mid & tail' & E & Hm & Ht' & EU); [lia|lia|by apply length_absorb|].
  assert (Hlen : (length mid + length tail' = n - p)%nat)
    by (rewrite <-length_app, <-E, length_take, length_drop; lia).
  assert (Et : take (length tail') (drop (p + 64 * k) input) = tail').
  { rewrite <-drop_drop, take_drop_commute. replace (64 * k + length tail')%nat with (n - p)%nat by lia.
    rewrite E, drop_app_le, drop_ge by lia. done. }
  exists k, mid, tail', (tail' ++ drop (length tail') (tail ++ take p input)). split_and!.
  - change 0 with (Z.of_nat 0). rewrite memcpy_ok by lia. rewrite Hbt, (drop_ge (buffer ctx)) by lia. by rewrite app_nil_r.
  - rewrite Transform_ok by (rewrite ?Es, ?length_absorb; lia). rewrite Es, (take_ge _ 64) by lia.
    rewrite (absorb_app q 1 init full _ Hf). cbn [absorb]. by rewrite (take_ge _ 64) by lia.
  - rewrite EU. do 2 f_equal. rewrite !app_assoc, <-(app_assoc full). symmetry. apply absorb_app. rewrite length_app. lia.
  - replace (Z.of_nat n - Z.of_nat (p + 64 * k)) with (Z.of_nat (length tail')) by lia. change 0 with (Z.of_nat 0).
    rewrite memcpy_ok by lia. by rewrite Et.
  - rewrite <-E, take_take_drop. f_equal. lia.
  - done.
  - done.
  - rewrite length_app, length_drop. lia.
  - by rewrite take_app_le, take_ge by lia.
Qed.

Lemma Update_ok : ∃ ctx', MD5Update ctx input (Z.of_nat n) = Ok ctx' ∧ Rep ctx' (m ++ take n input).
Proof.
  destruct HR as (q & full & tail & Em & Hf & Ht & Ec & Es & Hbl & Hbt).
  unfold MD5Update. rewrite Ec. cbn [lookup_total list_lookup_total].
  rewrite (index_ok m full tail q Em Hf Ht). pose proof counts_after as C. cbv zeta in C. rewrite C. clear C.
  rewrite Z.geb_leb. destruct (Z.leb_spec (64 - Z.of_nat (length tail)) (Z.of_nat n)) as [Hp|Hp].
  - destruct (Update_full full tail q) as (k & mid & tail' & buf & E1 & E2 & E3 & E4 & En & Hm & Ht' & Hl' & Hb');
      [done..|lia|]. replace (64 - Z.of_nat (length tail)) with (Z.of_nat (64 - length tail)) by lia.
    rewrite E1, E2, Nat2Z.id, E3, E4. eexists. split; [done|].
    exists (q + 1 + k)%nat, (full ++ tail ++ take (64 - length tail) input ++ mid), tail'. split_and!; try done.
    + rewrite Em, En. by rewrite <-!app_assoc.
    + rewrite !length_app, length_take. lia.
  - change 0 with (Z.of_nat 0). rewrite memcpy_ok by lia. eexists. split; [done|].
    exists q, full, (tail ++ take n input). split_and!; try done.
    + rewrite Em. by rewrite <-app_assoc.
    + rewrite length_app, length_take. lia.
    + cbn [buffer]. rewrite !length_app, !length_take, !length_drop. lia.
    + cbn [buffer]. rewrite Hbt, drop_0, app_assoc, take_app_le, take_ge by lia. done.
Qed.
End update.

(** ** The digest *)
Lemma length_bytes ws : length (bytes ws) = (4 * length ws)%nat.
Proof. unfold bytes. induction ws as [|w ws IH]; [done|]. csimpl. rewrite IH. lia. Qed.

Definition padlen (t : nat) : nat := if decide (t < 56)%nat then 56 - t else 120 - t.

Lemma padlen_eq (t : nat) : (t < 64)%nat → padlen t = S ((119 - t) mod 64) ∧ (padlen t ≤ 64)%nat.
Proof.
  intros Ht. unfold padlen. case_decide.
  - rewrite <-(Nat.mod_unique (119 - t) 64 1 (55 - t)) by lia. lia.
  - rewrite Nat.mod_small by lia. lia.
Qed.

Lemma pad_eq m full tail q : m = full ++ tail → length full = (64 * q)%nat → (length tail < 64)%nat →
  pad m = (m ++ take (padlen (length tail)) PADDING) ++ bytes [low m; high m] ∧ length (pad m) = (64 * (length (pad m) / 64))%nat.
Proof.
  intros Em Hf Ht. destruct (padlen_eq _ Ht) as [Ep Hp].
  assert (Et : (length m mod 64)%nat = length tail).
  { rewrite Em, length_app, Hf. symmetry. apply (Nat.mod_unique _ _ q); lia. }
  assert (E : pad m = (m ++ take (padlen (length tail)) PADDING) ++ bytes [low m; high m]).
  { unfold pad. rewrite Et, Ep. unfold PADDING. cbn [take]. rewrite take_replicate, Nat.min_l, <-app_assoc; [done|].
    pose proof (Nat.mod_upper_bound (119 - length tail) 64). lia. }
  split; [done|]. rewrite E, !length_app, length_take, length_bytes, Em, length_app, Hf.
  change (length PADDING) with 64%nat. rewrite Nat.min_l by done. simpl length.
  assert (Hm : ∃ r, (64 * q + length tail + padlen (length tail) + 4 * 2 = 64 * r)%nat).
  { unfold padlen. case_decide; [exists (q + 1)%nat|exists (q + 2)%nat]; lia. }
  destruct Hm as [r ->]. by rewrite Nat.mul_comm, Nat.div_mul, Nat.mul_comm by lia.
Qed.

Lemma Rep_full ctx m n : Rep ctx m → length m = (64 * n)%nat → state ctx = absorb n init m.
Proof.
  intros (q & full & tail & -> & Hf & Ht & _ & Es & _) Hl. rewrite length_app in Hl.
  destruct tail; [|simpl in *; lia]. rewrite app_nil_r. simpl in Hl. by replace n with q by lia.
Qed.

Lemma Final_ok ctx m digest : Rep ctx m → length digest = 16%nat →
  ∃ ctx', MD5Final ctx digest = Ok (ctx', md5 m).
Proof.
  intros HR Hd. pose proof HR as (q & full & tail & Em & Hf & Ht & Ec & _). destruct (pad_eq m full tail q Em Hf Ht) as [Ep Hl].
  destruct (padlen_eq _ Ht) as [_ Hp]. unfold MD5Final. rewrite Ec. cbn [lookup_total list_lookup_total].
  rewrite (index_ok m full tail q Em Hf Ht).
  replace (if Z.of_nat (length tail) <? 56 then 56 - Z.of_nat (length tail) else 120 - Z.of_nat (length tail))
    with (Z.of_nat (padlen (length tail)))
    by (unfold padlen; destruct (Z.ltb_spec (Z.of_nat (length tail)) 56); case_decide; lia).
  rewrite (Encode_ok [low m; high m] (replicate 8 0) eq_refl : MD5Encode [low m; high m] 8 (replicate 8 0) = _).
  destruct (Update_ok ctx m PADDING (padlen (length tail)) HR Hp ltac:(lia)) as (c1 & E1 & R1). rewrite E1.
  destruct (Update_ok c1 _ (bytes [low m; high m]) 8 R1 ltac:(rewrite length_bytes; simpl; lia) ltac:(lia)) as (c2 & E2 & R2).
  change (Z.of_nat 8) with 8 in E2. rewrite E2. rewrite (take_ge (bytes _)), <-Ep in R2 by (rewrite length_bytes; simpl; lia).
  pose proof (Rep_full _ _ _ R2 Hl) as Es.
  assert (Ee : MD5Encode (state c2) 16 digest = Ok ((), md5 m)).
  { unfold md5. rewrite <-Es. pose proof (Encode_ok (state c2) digest) as Ee. rewrite Hd in Ee. apply Ee.
    rewrite Es, length_absorb; done. }
  exists c2. by run Ee.
Qed.

Lemma Init_ok junk : length (buffer junk) = 64%nat → Rep (MD5Init junk) [].
Proof. intros Hb. exists 0%nat, [], []. split_and!; try done. simpl. lia. Qed.

(** Feeding a message in pieces. *)
Fixpoint Updates (ctx : MD5_CTX) (pieces : list arr) : res MD5_CTX :=
  match pieces with
  | [] => Ok ctx
  | x :: pieces => match MD5Update ctx x (Z.of_nat (length x)) with Ok ctx => Updates ctx pieces | Err e => Err e end
  end.

Definition short (x : arr) : Prop := Z.of_nat (length x) < 2 ^ 32 - 64.

Lemma Updates_ok pieces : Forall short pieces → ∀ ctx m, Rep ctx m →
  ∃ ctx', Updates ctx pieces = Ok ctx' ∧ Rep ctx' (m ++ concat pieces).
Proof.
  induction 1 as [|x pieces Hx _ IH]; intros ctx m HR; simpl.
  - rewrite app_nil_r. eauto.
  - destruct (Update_ok ctx m x (length x) HR) as (c1 & E1 & R1); [done|done|]. rewrite E1, firstn_all in *.
    destruct (IH c1 _ R1) as (c2 & E2 & R2). exists c2. split; [done|]. by rewrite app_assoc.
Qed.

(** ** Files *)
Lemma read_loop_ok chunks final : Forall (λ c : arr, length c = 1024%nat) chunks → (length final < 1024)%nat →
  ∀ data ctx m, Rep ctx m → ∃ ctx', read_loop (Some <$> chunks ++ [final]) data ctx = Ok (Some ctx') ∧
    Rep ctx' (m ++ concat chunks ++ final).
Proof.
  intros Hc Hf. induction Hc as [|c chunks Hc _ IH]; intros data ctx m HR; cbn [app fmap list_fmap read_loop].
  - destruct (Update_ok ctx m (final ++ drop (length final) data) (length final) HR) as (c1 & E1 & R1);
      [rewrite length_app; lia|lia|]. rewrite E1. rewrite take_app_le, firstn_all in R1 by lia.
    rewrite (proj2 (Z.ltb_lt (Z.of_nat (length final)) READ_DATA_SIZE)), orb_true_r by (unfold READ_DATA_SIZE; lia). eauto.
  - destruct (Update_ok ctx m (c ++ drop (length c) data) (length c) HR) as (c1 & E1 & R1);
      [rewrite length_app; lia|lia|]. rewrite E1. rewrite take_app_le, firstn_all in R1 by lia.
    rewrite (proj2 (Z.ltb_ge (Z.of_nat (length c)) READ_DATA_SIZE)) by (unfold READ_DATA_SIZE; lia).
    rewrite (proj2 (Z.eqb_neq 0 (Z.of_nat (length c)))) by lia. simpl.
    destruct (IH (c ++ drop (length c) data) c1 _ R1) as (c2 & E2 & R2). exists c2. split; [done|]. by rewrite <-!app_assoc in *.
Qed.

Definition hex (l : arr) : arr := concat ((λ v, [hex_digit (v / 16); hex_digit (v mod 16)]) <$> l).

Lemma print_digest_ok l : ∀ (i : nat) out z zs, length out = (2 * i)%nat → (2 * length l ≤ length zs)%nat →
  ∃ z', print_digest (Z.of_nat i) l (out ++ z :: zs) = Ok ((), out ++ hex l ++ z' :: drop (2 * length l) zs).
Proof.
  induction l as [|v l IH]; intros i out z zs Ho Hz; cbn [print_digest]; [by exists z|].
  destruct zs as [|z1 [|z2 zs]]; [simpl in Hz; lia..|]. unfold print_hex.
  run (aset_at out (z :: z1 :: z2 :: zs) 0 (Z.of_nat i * 2) (hex_digit (v / 16)) ltac:(lia) ltac:(simpl; lia)).
  cbn [insert list_insert].
  run (aset_at out (hex_digit (v / 16) :: z1 :: z2 :: zs) 1 (Z.of_nat i * 2 + 1) (hex_digit (v mod 16)) ltac:(lia) ltac:(simpl; lia)).
  cbn [insert list_insert].
  run (aset_at out (hex_digit (v / 16) :: hex_digit (v mod 16) :: z2 :: zs) 2 (Z.of_nat i * 2 + 2) 0 ltac:(lia) ltac:(simpl; lia)).
  cbn [insert list_insert].
  destruct (IH (S i) (out ++ [hex_digit (v / 16); hex_digit (v mod 16)]) 0 zs) as [z' E];
    [rewrite length_app; simpl; lia|simpl in Hz; lia|].
  exists z'. rewrite <-!app_assoc in E. replace (Z.of_nat i + 1) with (Z.of_nat (S i)) by lia.
  simpl in E. rewrite E. do 3 f_equal. unfold hex. csimpl. do 3 f_equal. simpl. by rewrite Nat.add_succ_r.
Qed.

Lemma length_hex l : length (hex l) = (2 * length l)%nat.
Proof. unfold hex. induction l as [|v l IH]; [done|]. csimpl. rewrite IH. lia. Qed.

Lemma length_md5 m : length (md5 m) = 16%nat.
Proof. unfold md5. by rewrite length_bytes, length_absorb. Qed.

Lemma Compute_file_md5_ok chunks final junk md5_str :
  Forall (λ c : arr, length c = 1024%nat) chunks → (length final < 1024)%nat →
  length (buffer junk) = 64%nat → (33 ≤ length md5_str)%nat →
  Compute_file_md5 true (Some <$> chunks ++ [final]) junk md5_str =
  Ok (0, hex (md5 (concat chunks ++ final)) ++ 0 :: drop 33 md5_str).
Proof.
  intros Hc Hf Hb Hs. unfold Compute_file_md5. simpl negb. cbv iota.
  destruct (read_loop_ok chunks final Hc Hf (replicate (Z.to_nat READ_DATA_SIZE) 0) (MD5Init junk) [] (Init_ok junk Hb))
    as (ctx & E & HR). rewrite E. rewrite app_nil_l in HR. set (m := concat chunks ++ final) in *.
  destruct (Final_ok ctx m (replicate MD5_SIZE 0) HR eq_refl) as (ctx' & EF). rewrite EF.
  destruct md5_str as [|z zs]; [simpl in Hs; lia|]. simpl in Hs.
  destruct (print_digest_ok (md5 m) 0 [] z zs) as [z' EP]; [done|rewrite length_md5; lia|].
  rewrite !app_nil_l in EP. change (Z.of_nat 0) with 0 in EP. run EP.
  run (aset_app (hex (md5 m)) (drop (2 * length (md5 m)) zs) z' 0 32 ltac:(rewrite length_hex, length_md5; lia)).
  by rewrite length_md5.
Qed.

(** ** The properties *)

(** The 64 unrolled steps of [MD5Transform], with their registers, word
    indices, shifts and constants, are those of the tables of RFC 1321: on a
    whole block it adds their result to the state. *)
Theorem MD5Transform_rfc s0 s1 s2 s3 block : length block = 64%nat →
  MD5Transform [s0; s1; s2; s3] block =
  let '(a, b, c, d) := foldl (step (words block)) (s0, s1, s2, s3) (seq 0 64) in
  Ok [u32 (s0 + a); u32 (s1 + b); u32 (s2 + c); u32 (s3 + d)].
Proof.
  intros Hb. rewrite Transform_ok by (simpl; lia). rewrite take_ge by lia. unfold compress.
  by destruct (foldl _ _ _) as [[[a b] c] d].
Qed.

Lemma MD5Transform_rfc_witness :
  MD5Transform [1; 2; 3; 4] (replicate 64 65) =
  let '(a, b, c, d) := foldl (step (words (replicate 64 65))) (1, 2, 3, 4) (seq 0 64) in
  Ok [u32 (1 + a); u32 (2 + b); u32 (3 + c); u32 (4 + d)].
Proof. apply (MD5Transform_rfc 1 2 3 4 (replicate 64 65)). reflexivity. Defined.

(** C4: However a message is cut into pieces (each below [2 ^ 32 - 64] bytes),
    [MD5Init], one [MD5Update] for each piece and [MD5Final] stay within their
    arrays and give the MD5 of RFC 1321 of the whole message. *)
Theorem MD5_correct junk pieces digest : length (buffer junk) = 64%nat → Forall short pieces →
  length digest = 16%nat →
  ∃ ctx ctx', Updates (MD5Init junk) pieces = Ok ctx ∧ MD5Final ctx digest = Ok (ctx', md5 (concat pieces)).
Proof.
  intros Hb Hp Hd. destruct (Updates_ok pieces Hp _ _ (Init_ok junk Hb)) as (ctx & E & HR).
  destruct (Final_ok ctx _ digest HR Hd) as (ctx' & EF). by exists ctx, ctx'.
Qed.

Definition some_ctx : MD5_CTX := Ctx [7; 7] [1; 2; 3; 4] (replicate 64 9).

Lemma MD5_correct_witness : ∃ ctx ctx', Updates (MD5Init some_ctx) [[97]; [98; 99]] = Ok ctx ∧
  MD5Final ctx (replicate 16 0) = Ok (ctx', md5 [97; 98; 99]).
Proof. apply (MD5_correct some_ctx [[97]; [98; 99]] (replicate 16 0)); [done|repeat constructor|done]. Defined.

(** [MD5Decode] undoes [MD5Encode] on arrays of 32-bit words. *)
Theorem MD5_encode_decode ws out out' : Forall is_u32 ws → length out = (4 * length ws)%nat → length out' = length ws →
  ∃ bs, MD5Encode ws (Z.of_nat (length out)) out = Ok ((), bs) ∧
    MD5Decode bs (Z.of_nat (length bs)) out' = Ok ((), ws).
Proof.
  intros Hw Ho Ho'. exists (bytes ws). split; [by apply Encode_ok|]. rewrite length_bytes.
  rewrite Decode_ok by (rewrite ?length_bytes; lia). rewrite words_bytes by done.
  by rewrite firstn_all, drop_ge, app_nil_r by lia.
Qed.

Lemma MD5_encode_decode_witness : ∃ bs, MD5Encode [0x01020304; 0xFFFFFFFF] 8 (replicate 8 0) = Ok ((), bs) ∧
  MD5Decode bs (Z.of_nat (length bs)) [0; 0] = Ok ((), [0x01020304; 0xFFFFFFFF]).
Proof.
  apply (MD5_encode_decode [0x01020304; 0xFFFFFFFF] (replicate 8 0) [0; 0]); [|done|done].
  repeat constructor; vm_compute; congruence.
Defined.

(** [Compute_file_md5], on a file whose reads give full buffers up to the
    last one, returns 0 and writes the MD5 of the file's bytes as 32 hexadecimal
    digits and a NUL. *)
Theorem Compute_file_md5_correct chunks final junk md5_str :
  Forall (λ c : arr, length c = 1024%nat) chunks → (length final < 1024)%nat →
  length (buffer junk) = 64%nat → (33 ≤ length md5_str)%nat →
  Compute_file_md5 true (Some <$> chunks ++ [final]) junk md5_str =
  Ok (0, hex (md5 (concat chunks ++ final)) ++ 0 :: drop 33 md5_str).
Proof. apply Compute_file_md5_ok. Qed.

Lemma Compute_file_md5_correct_witness :
  Compute_file_md5 true [Some (replicate 1024 65); Some [66]] some_ctx (replicate 33 1) =
  Ok (0, hex (md5 (concat [replicate 1024 65] ++ [66])) ++ [0]).
Proof.
  apply (Compute_file_md5_correct [replicate 1024 65] [66] some_ctx (replicate 33 1));
    [repeat constructor|simpl; lia|done|rewrite length_replicate; lia].
Defined.
