(* ===== verification/ThreadPool.v ===== *)
(** * The thread pool (thread/pool/thread_pool.c, thread_pool.h)

    The pool is a concurrent program, so it is modelled as a step function on
    a state that holds the shared memory and the program counters of all
    threads: the workers, which run [thread_routine], and the clients, which
    call [tpool_create], [tpool_add_work] and [tpool_destroy].  The program
    counters are named after the source lines.  A step executes one statement;
    the only statements put together are those on memory no other thread can
    reach (the fields of a work item before it is published) and the walk to
    the end of the queue, which is made of reads under the lock.  Which thread
    steps, which waiter a signal wakes and whether malloc, calloc and the
    pthread initialisers succeed is decided by the scheduler, so the theorems
    hold for all of them.  [pthread_cond_wait] may also return without a
    signal.

    The threads are created detached; [pthread_join] on such a thread returns
    an error at once, which is what glibc does.

    The theorems: in every interleaving without [tpool_destroy], no access
    faults, mutual exclusion holds, works are taken in the order in which they
    were accepted and each worker runs exactly the works it took; every run
    ends, apart from spurious wake-ups, and ends with all accepted works run;
    [tpool_destroy] does not wait for the workers and frees the memory under
    them. *)

From S2P Require Import Prelude.

(** ** The state *)
Record tpool_work_t := mk_work { routine : Z; arg : Z; next : Z }.

Record tpool_t := mk_tpool {
  shutdown : Z; max_thr_num : Z; thr_id : option (list nat); queue_head : Z }.

(** Program counters of a worker.  [L20z] is asleep in [pthread_cond_wait],
    [L20w] has been woken and waits for the lock. *)
Inductive wpc :=
| L17 | L19 | L20 | L20z | L20w | L22 | L23 | L24 | L26
| L27 (work : Z) | L28 (work : Z) | L30 (work : Z) | L31 (work : Z) | WExit.

(** Program counters of a client. *)
Inductive cpc :=
| Idle
| L41 (n : Z) | L51 (n : Z) | L57 (n : Z) | L62 (n : Z) | L72 (i : nat)
| L129 (r a : Z) | L134 (r a : Z) | L145 (work : Z) | L146 (work : Z) | L159 | L160
| L91 | L95 | L98 | L99 | L100 | L102 (i : nat) | L106 | L108 | L109 | L111 (member : Z)
| L114 | L115 | L116.

#[export] Instance wpc_eq_dec : EqDecision wpc.
Proof. solve_decision. Defined.

#[export] Instance cpc_eq_dec : EqDecision cpc.
Proof. solve_decision. Defined.

Inductive call := CCreate (n : Z) | CAdd (r a : Z) | CDestroy.

Inductive tid := W (i : nat) | C (j : nat).

#[export] Instance tid_eq_dec : EqDecision tid.
Proof. solve_decision. Defined.

(** [tpool] is [None] while the pointer is null and after its target has been
    freed: both make any access fault. *)
Record state := mk_state {
  tpool : option tpool_t;
  owner : option tid;
  works : gmap Z tpool_work_t;
  workers : list wpc;
  clients : list (cpc * list call);
  exited : bool }.

(** What a step does that can be seen from outside: a work is appended to the
    queue, taken by a worker, run by a worker, a call returns. *)
Inductive event :=
| EPush (r a : Z) | ETake (i : nat) (r a : Z) | ERun (i : nat) (r a : Z)
| ERet (j : nat) (v : Z) | EVoid (j : nat) | ESpurious (i : nat) | ETau.

(** A step is blocked, faults, or leads to a new state. *)
Inductive out (A : Type) := Blocked | Fault | Done (a : A).
Arguments Blocked {A}.
Arguments Fault {A}.
Arguments Done {A} a.

#[export] Instance out_ret : MRet out := λ A a, Done a.
#[export] Instance out_bind : MBind out := λ A B f m,
  match m with Done a => f a | Blocked => Blocked | Fault => Fault end.

Definition set_tpool P σ := mk_state (Some P) (owner σ) (works σ) (workers σ) (clients σ) (exited σ).
Definition set_owner o σ := mk_state (tpool σ) o (works σ) (workers σ) (clients σ) (exited σ).
Definition set_works h σ := mk_state (tpool σ) (owner σ) h (workers σ) (clients σ) (exited σ).
Definition set_workers ws σ := mk_state (tpool σ) (owner σ) (works σ) ws (clients σ) (exited σ).
Definition set_clients cs σ := mk_state (tpool σ) (owner σ) (works σ) (workers σ) cs (exited σ).
Definition free_tpool σ := mk_state None (owner σ) (works σ) (workers σ) (clients σ) (exited σ).
Definition exit1 σ := mk_state (tpool σ) (owner σ) (works σ) (workers σ) (clients σ) true.

Definition set_head p P := mk_tpool (shutdown P) (max_thr_num P) (thr_id P) p.
Definition set_shutdown v P := mk_tpool v (max_thr_num P) (thr_id P) (queue_head P).
Definition set_thr_id ids P := mk_tpool (shutdown P) (max_thr_num P) ids (queue_head P).

(** A worker or a client goes on at another line. *)
Definition wgoto (i : nat) (pc : wpc) (σ : state) : state :=
  set_workers (<[i := pc]> (workers σ)) σ.
Definition cgoto (j : nat) (pc : cpc) (σ : state) : state :=
  set_clients (alter (λ c, (pc, c.2)) j (clients σ)) σ.

(** *** Accesses *)
Definition pool (σ : state) : out tpool_t :=
  match tpool σ with Some P => Done P | None => Fault end.

Definition work_at (p : Z) (σ : state) : out tpool_work_t :=
  match works σ !! p with Some w => Done w | None => Fault end.

Definition free_work (p : Z) (σ : state) : out state :=
  match works σ !! p with Some _ => Done (set_works (delete p (works σ)) σ) | None => Fault end.

Definition pthread_mutex_lock (t : tid) (σ : state) : out state :=
  _ ← pool σ;
  match owner σ with None => Done (set_owner (Some t) σ) | Some _ => Blocked end.

(** Unlocking a mutex that another thread holds is undefined. *)
Definition pthread_mutex_unlock (t : tid) (σ : state) : out state :=
  _ ← pool σ;
  if decide (owner σ = Some t) then Done (set_owner None σ) else Fault.

Definition wake (pc : wpc) : wpc := match pc with L20z => L20w | _ => pc end.

(** [c] is the waiter the scheduler chooses. *)
Definition pthread_cond_signal (c : nat) (σ : state) : out state :=
  _ ← pool σ;
  if decide (L20z ∈ workers σ)
  then if decide (workers σ !! c = Some L20z) then Done (wgoto c L20w σ) else Blocked
  else Done σ.

Definition pthread_cond_broadcast (σ : state) : out state :=
  _ ← pool σ; Done (set_workers (wake <$> workers σ) σ).

(** ** thread_routine *)
Definition thread_routine (i : nat) (pc : wpc) (σ : state) : out (event * state) :=
  match pc with
  | L17 => σ ← pthread_mutex_lock (W i) σ; Done (ETau, wgoto i L19 σ)
  | L19 =>
      P ← pool σ;
      Done (ETau, wgoto i (if (queue_head P =? NULL) && (shutdown P =? 0) then L20 else L22) σ)
  | L20 => σ ← pthread_mutex_unlock (W i) σ; Done (ETau, wgoto i L20z σ)
  | L20z => Blocked
  | L20w => σ ← pthread_mutex_lock (W i) σ; Done (ETau, wgoto i L19 σ)
  | L22 => P ← pool σ; Done (ETau, wgoto i (if shutdown P =? 0 then L26 else L23) σ)
  | L23 => σ ← pthread_mutex_unlock (W i) σ; Done (ETau, wgoto i L24 σ)
  | L24 => Done (ETau, wgoto i WExit σ)
  | L26 => P ← pool σ; Done (ETau, wgoto i (L27 (queue_head P)) σ)
  | L27 work =>
      P ← pool σ;
      w ← work_at (queue_head P) σ;
      Done (ETake i (routine w) (arg w), wgoto i (L28 work) (set_tpool (set_head (next w) P) σ))
  | L28 work => σ ← pthread_mutex_unlock (W i) σ; Done (ETau, wgoto i (L30 work) σ)
  | L30 work => w ← work_at work σ; Done (ERun i (routine w) (arg w), wgoto i (L31 work) σ)
  | L31 work => σ ← free_work work σ; Done (ETau, wgoto i L17 σ)
  | WExit => Blocked
  end.

(** ** tpool_create

    [c] is zero when the call of the step fails. *)
Definition tpool_create (c : nat) (j : nat) (pc : cpc) (σ : state) : out (event * state) :=
  match pc with
  | L41 n =>
      if decide (c = 0%nat) then Done (ETau, exit1 σ)
      else Done (ETau, cgoto j (L51 n) (set_tpool (mk_tpool 0 n None NULL) σ))
  | L51 n =>
      _ ← pool σ;
      if decide (c = 0%nat) then Done (ETau, exit1 σ) else Done (ETau, cgoto j (L57 n) σ)
  | L57 n =>
      _ ← pool σ;
      if decide (c = 0%nat) then Done (ETau, exit1 σ) else Done (ETau, cgoto j (L62 n) σ)
  | L62 n =>
      P ← pool σ;
      if (Nat.eqb c 0) || (n <? 0) then Done (ETau, exit1 σ)
      else Done (ETau, cgoto j (L72 0) (set_tpool (set_thr_id (Some (replicate (Z.to_nat n) 0%nat)) P) σ))
  | L72 i =>
      P ← pool σ;
      if Z.of_nat i <? max_thr_num P then
        if decide (c = 0%nat) then Done (ETau, exit1 σ)
        else
          match thr_id P with
          | Some ids =>
              let t := length (workers σ) in
              Done (ETau, cgoto j (L72 (S i))
                (set_workers (workers σ ++ [L17])
                  (set_tpool (set_thr_id (Some (<[i := t]> ids)) P) σ)))
          | None => Fault
          end
      else Done (ERet j 0, cgoto j Idle σ)
  | _ => Blocked
  end.

(** ** tpool_add_work *)

(** The walk from [member] to the last item. *)
Fixpoint last_work (fuel : nat) (h : gmap Z tpool_work_t) (member : Z) : out Z :=
  match fuel with
  | O => Blocked
  | S fuel =>
      match h !! member with
      | None => Fault
      | Some w => if next w =? NULL then Done member else last_work fuel h (next w)
      end
  end.

Definition set_next (p n : Z) (h : gmap Z tpool_work_t) : gmap Z tpool_work_t :=
  alter (λ w, mk_work (routine w) (arg w) n) p h.

(** Lines 146 to 155; the walk visits each item at most once. *)
Definition append_work (work : Z) (σ : state) : out state :=
  P ← pool σ;
  if queue_head P =? NULL then Done (set_tpool (set_head work P) σ)
  else
    member ← last_work (S (size (works σ))) (works σ) (queue_head P);
    Done (set_works (set_next member work (works σ)) σ).

(** [c] is the address malloc returns, or the waiter [pthread_cond_signal]
    wakes. *)
Definition tpool_add_work (c : nat) (j : nat) (pc : cpc) (σ : state) : out (event * state) :=
  match pc with
  | L129 r a =>
      if r =? NULL then Done (ERet j (-1), cgoto j Idle σ) else Done (ETau, cgoto j (L134 r a) σ)
  | L134 r a =>
      let p := Z.of_nat c in
      if p =? NULL then Done (ERet j (-1), cgoto j Idle σ)
      else if decide (works σ !! p = None)
      then Done (ETau, cgoto j (L145 p) (set_works (<[p := mk_work r a NULL]> (works σ)) σ))
      else Blocked
  | L145 work => σ ← pthread_mutex_lock (C j) σ; Done (ETau, cgoto j (L146 work) σ)
  | L146 work =>
      w ← work_at work σ;
      σ ← append_work work σ;
      Done (EPush (routine w) (arg w), cgoto j L159 σ)
  | L159 => σ ← pthread_cond_signal c σ; Done (ETau, cgoto j L160 σ)
  | L160 => σ ← pthread_mutex_unlock (C j) σ; Done (ERet j 0, cgoto j Idle σ)
  | _ => Blocked
  end.

(** ** tpool_destroy *)
Definition tpool_destroy (j : nat) (pc : cpc) (σ : state) : out (event * state) :=
  match pc with
  | L91 =>
      P ← pool σ;
      if shutdown P =? 0 then Done (ETau, cgoto j L95 σ) else Done (EVoid j, cgoto j Idle σ)
  | L95 => P ← pool σ; Done (ETau, cgoto j L98 (set_tpool (set_shutdown 1 P) σ))
  | L98 => σ ← pthread_mutex_lock (C j) σ; Done (ETau, cgoto j L99 σ)
  | L99 => σ ← pthread_cond_broadcast σ; Done (ETau, cgoto j L100 σ)
  | L100 => σ ← pthread_mutex_unlock (C j) σ; Done (ETau, cgoto j (L102 0) σ)
  | L102 i =>
      P ← pool σ;
      if Z.of_nat i <? max_thr_num P then
        match thr_id P ≫= (.!! i) with
        | Some _ => Done (ETau, cgoto j (L102 (S i)) σ)
        | None => Fault
        end
      else Done (ETau, cgoto j L106 σ)
  | L106 => P ← pool σ; Done (ETau, cgoto j L108 (set_tpool (set_thr_id None P) σ))
  | L108 => P ← pool σ; Done (ETau, cgoto j (if queue_head P =? NULL then L114 else L109) σ)
  | L109 =>
      P ← pool σ;
      w ← work_at (queue_head P) σ;
      Done (ETau, cgoto j (L111 (queue_head P)) (set_tpool (set_head (next w) P) σ))
  | L111 member => σ ← free_work member σ; Done (ETau, cgoto j L108 σ)
  | L114 => _ ← pool σ; Done (ETau, cgoto j L115 σ)
  | L115 => _ ← pool σ; Done (ETau, cgoto j L116 σ)
  | L116 => _ ← pool σ; Done (EVoid j, cgoto j Idle (free_tpool σ))
  | _ => Blocked
  end.

(** ** A step of the system *)
Definition entry (k : call) : cpc :=
  match k with CCreate n => L41 n | CAdd r a => L129 r a | CDestroy => L91 end.

Definition client_step (c : nat) (j : nat) (σ : state) : out (event * state) :=
  match clients σ !! j with
  | None | Some (Idle, []) => Blocked
  | Some (Idle, k :: ks) => Done (ETau, set_clients (<[j := (entry k, ks)]> (clients σ)) σ)
  | Some (pc, _) =>
      match pc with
      | L41 _ | L51 _ | L57 _ | L62 _ | L72 _ => tpool_create c j pc σ
      | L129 _ _ | L134 _ _ | L145 _ | L146 _ | L159 | L160 => tpool_add_work c j pc σ
      | _ => tpool_destroy j pc σ
      end
  end.

(** What the scheduler decides: a thread steps, with the outcome of the call it
    makes, or a sleeping worker wakes up by itself. *)
Inductive sched := Run (t : tid) (c : nat) | Spurious (i : nat).

Definition step (s : sched) (σ : state) : out (event * state) :=
  if exited σ then Blocked
  else
    match s with
    | Run (W i) _ =>
        match workers σ !! i with Some pc => thread_routine i pc σ | None => Blocked end
    | Run (C j) c => client_step c j σ
    | Spurious i =>
        if decide (workers σ !! i = Some L20z) then Done (ESpurious i, wgoto i L20w σ) else Blocked
    end.

Fixpoint run (ss : list sched) (σ : state) : out (list event * state) :=
  match ss with
  | [] => Done ([], σ)
  | s :: ss => '(e, σ) ← step s σ; '(es, σ) ← run ss σ; Done (e :: es, σ)
  end.
