(* ===== verification/ThreadPoolProps.v ===== *)
(** * The thread pool: what holds in every interleaving

    The invariant of the pool and its preservation by every step, the
    termination measure, and the properties of the pool. *)

From S2P Require Import Prelude ThreadPool.

(** ** Threads and their program counters *)
Inductive tpc := WP (pc : wpc) | CP (pc : cpc).

Definition pc_of (σ : state) (t : tid) : option tpc :=
  match t with
  | W i => WP <$> workers σ !! i
  | C j => (λ c, CP c.1) <$> clients σ !! j
  end.

(** The program counters between a lock and its unlock. *)
Definition crit (pc : tpc) : bool :=
  match pc with
  | WP (L19 | L20 | L22 | L23 | L26 | L27 _ | L28 _) => true
  | CP (L146 _ | L159 | L160 | L99 | L100) => true
  | _ => false
  end.

Definition critical (σ : state) (t : tid) : bool :=
  match pc_of σ t with Some pc => crit pc | None => false end.

(** ** Traces and the queue *)
Definition pushes (tr : list event) : list (Z * Z) :=
  omap (λ e, match e with EPush r a => Some (r, a) | _ => None end) tr.
Definition takes (tr : list event) : list (Z * Z) :=
  omap (λ e, match e with ETake _ r a => Some (r, a) | _ => None end) tr.
Definition takes_of (i : nat) (tr : list event) : list (Z * Z) :=
  omap (λ e, match e with ETake k r a => if decide (k = i) then Some (r, a) else None | _ => None end) tr.
Definition runs_of (i : nat) (tr : list event) : list (Z * Z) :=
  omap (λ e, match e with ERun k r a => if decide (k = i) then Some (r, a) else None | _ => None end) tr.

Definition content (h : gmap Z tpool_work_t) (p : Z) : Z * Z :=
  match h !! p with Some w => (routine w, arg w) | None => (0, 0) end.

(** The works from [p] on. *)
Fixpoint collect (fuel : nat) (h : gmap Z tpool_work_t) (p : Z) : list (Z * Z) :=
  match fuel with
  | O => []
  | S fuel =>
      if p =? NULL then []
      else match h !! p with Some w => (routine w, arg w) :: collect fuel h (next w) | None => [] end
  end.

Definition queued (σ : state) : list (Z * Z) :=
  match tpool σ with
  | Some P => collect (size (works σ)) (works σ) (queue_head P)
  | None => []
  end.

(** The work a worker has taken and not yet run. *)
Definition pending (h : gmap Z tpool_work_t) (pc : option wpc) : list (Z * Z) :=
  match pc with Some (L28 p | L30 p) => [content h p] | _ => [] end.

(** ** The invariant

    [q] are the addresses of the queue in order; [own] says for every
    allocated work whether it is in the queue ([None]) or which thread holds
    it. *)
Fixpoint chain (h : gmap Z tpool_work_t) (p : Z) (q : list Z) : Prop :=
  match q with
  | [] => p = NULL
  | a :: q => p = a ∧ a ≠ NULL ∧ ∃ w, h !! a = Some w ∧ chain h (next w) q
  end.

Record Mem (own : gmap Z (option tid)) (h : gmap Z tpool_work_t) (q : list Z) (p : Z) : Prop := {
  mem_chain : chain h p q;
  mem_nodup : NoDup q;
  mem_queue : ∀ a, a ∈ q ↔ own !! a = Some None;
  mem_dom : ∀ a, is_Some (own !! a) ↔ is_Some (h !! a) }.

Definition Locks (σ : state) : Prop := ∀ t, critical σ t = true ↔ owner σ = Some t.

Definition ok (own : gmap Z (option tid)) (h : gmap Z tpool_work_t) (q : list Z) (P : tpool_t)
    (t : tid) (pc : tpc) : Prop :=
  match pc with
  | WP (L28 a | L30 a | L31 a) => own !! a = Some (Some t)
  | WP L20 => q = []
  | WP (L22 | L26) => q ≠ []
  | WP (L27 a) => head q = Some a
  | WP (L23 | L24 | WExit) => False
  | WP _ => True
  | CP (L145 a | L146 a) =>
      own !! a = Some (Some t) ∧ a ≠ NULL ∧ ∃ w, h !! a = Some w ∧ next w = NULL
  | CP (L72 _) => is_Some (thr_id P)
  | CP (Idle | L129 _ _ | L134 _ _ | L159 | L160) => True
  | CP _ => False
  end.

Definition is_add (k : call) : Prop := match k with CAdd _ _ => True | _ => False end.

(** If there is work and a worker sleeps, another one is awake or a client is
    about to signal. *)
Definition Wake (σ : state) (q : list Z) : Prop :=
  q ≠ [] → L20z ∈ workers σ →
  (∃ i pc, workers σ !! i = Some pc ∧ pc ≠ L20z) ∨ (∃ j ks, clients σ !! j = Some (L159, ks)).

Record Inv (own : gmap Z (option tid)) (q : list Z) (P : tpool_t) (tr : list event) (σ : state) : Prop := {
  i_pool : tpool σ = Some P;
  i_shut : shutdown P = 0;
  i_locks : Locks σ;
  i_mem : Mem own (works σ) q (queue_head P);
  i_ok : ∀ t pc, pc_of σ t = Some pc → ok own (works σ) q P t pc;
  i_calls : ∀ j c, clients σ !! j = Some c → Forall is_add c.2;
  i_wake : Wake σ q;
  i_fifo : takes tr ++ (content (works σ) <$> q) = pushes tr;
  i_runs : ∀ i, runs_of i tr ++ pending (works σ) (workers σ !! i) = takes_of i tr }.

(** ** Memory *)
Lemma chain_ext h h' p q :
  (∀ a, a ∈ q → h' !! a = h !! a) → chain h p q → chain h' p q.
Proof.
  revert p. induction q as [|a q IH]; intros p E; [done|].
  intros (-> & Ha & w & Hw & Hq). split; [done|]. split; [done|]. exists w.
  split; [rewrite E; [done|by left]|]. apply IH; [|done]. intros b Hb. apply E. by right.
Qed.

Lemma chain_lookup h p q a : chain h p q → a ∈ q → is_Some (h !! a).
Proof.
  revert p. induction q as [|b q IH]; intros p; [by rewrite elem_of_nil|].
  intros (-> & Hb & w & Hw & Hq) [->|Ha]%elem_of_cons; eauto.
Qed.

Lemma chain_nonnull h p q a : chain h p q → a ∈ q → a ≠ NULL.
Proof.
  revert p. induction q as [|b q IH]; intros p; [by rewrite elem_of_nil|].
  intros (-> & Hb & w & Hw & Hq) [->|Ha]%elem_of_cons; eauto.
Qed.

Lemma chain_size h p q : chain h p q → NoDup q → (length q ≤ size h)%nat.
Proof.
  intros Hc Hq. rewrite <- (size_list_to_set (C := gset Z) q), <- size_dom by done.
  apply subseteq_size. intros a. rewrite elem_of_list_to_set, elem_of_dom. by apply (chain_lookup h p).
Qed.

Lemma chain_last fuel h p q a :
  chain h p (q ++ [a]) → (length q < fuel)%nat → last_work fuel h p = Done a.
Proof.
  revert p fuel. induction q as [|b q IH]; intros p [|fuel] Hc Hf; simpl in Hf; try lia.
  - destruct Hc as (-> & Ha & w & Hw & Hn). simpl in *. rewrite Hw, Hn. done.
  - destruct Hc as (-> & Hb & w & Hw & Hn). simpl. rewrite Hw.
    destruct (Z.eqb_spec (next w) NULL) as [E|E].
    + exfalso. destruct q; simpl in Hn; destruct Hn as (? & ? & _); congruence.
    + apply IH; [done|lia].
Qed.

Lemma chain_collect fuel h p q :
  chain h p q → (length q ≤ fuel)%nat → collect fuel h p = content h <$> q.
Proof.
  revert p fuel. induction q as [|b q IH]; intros p [|fuel] Hc Hf; simpl in *; try lia; try done.
  - by subst p.
  - destruct Hc as (-> & Hb & w & Hw & Hn). rewrite (proj2 (Z.eqb_neq _ _) Hb), Hw. f_equal; [|apply IH; auto with lia].
    unfold content. by rewrite Hw.
Qed.

Lemma set_next_ne p n h a : a ≠ p → set_next p n h !! a = h !! a.
Proof. intros. by apply lookup_alter_ne. Qed.

Lemma set_next_content p n h a : content (set_next p n h) a = content h a.
Proof.
  unfold content, set_next. destruct (decide (a = p)) as [->|].
  - rewrite lookup_alter_eq. by destruct (h !! p).
  - by rewrite lookup_alter_ne.
Qed.

Lemma set_next_dom p n h a : is_Some (set_next p n h !! a) ↔ is_Some (h !! a).
Proof. unfold set_next. by rewrite lookup_alter_is_Some. Qed.

(** Appending [p] behind the last item [a]. *)
Lemma chain_append h p0 q a p w :
  chain h p0 (q ++ [a]) → NoDup (q ++ [a]) → p ∉ q ++ [a] → p ≠ NULL → h !! p = Some w → next w = NULL →
  chain (set_next a p h) p0 (q ++ [a; p]).
Proof.
  revert p0. induction q as [|b q IH]; intros p0 Hc Hn Hp Hp0 Hw Hwn; simpl in *.
  - destruct Hc as (-> & Ha & v & Hv & _). split; [done|]. split; [done|].
    exists (mk_work (routine v) (arg v) p). unfold set_next. rewrite lookup_alter_eq, Hv. split; [done|].
    split; [done|]. split; [done|]. exists w. rewrite lookup_alter_ne by set_solver. done.
  - destruct Hc as (-> & Hb & v & Hv & Hc). apply NoDup_cons in Hn as [Hb' Hn].
    split; [done|]. split; [done|]. exists v. rewrite set_next_ne by set_solver.
    split; [done|]. apply IH; try done. set_solver.
Qed.

Section memory.
Context {own : gmap Z (option tid)} {h : gmap Z tpool_work_t} {q : list Z} {p : Z}.
Hypothesis HM : Mem own h q p.

Lemma mem_held a x : own !! a = Some (Some x) → a ∉ q.
Proof. intros E ?%(mem_queue _ _ _ _ HM). congruence. Qed.

Lemma mem_alloc a x : own !! a = Some x → is_Some (h !! a).
Proof. intros E. apply (mem_dom _ _ _ _ HM). by rewrite E. Qed.

Lemma mem_fresh a : h !! a = None → own !! a = None.
Proof.
  intros E. apply eq_None_not_Some. rewrite (mem_dom _ _ _ _ HM), E. by intros [? ?].
Qed.

Lemma mem_head : p = NULL ↔ q = [].
Proof.
  pose proof (mem_chain _ _ _ _ HM) as Hc. destruct q as [|a q']; simpl in Hc; [done|].
  destruct Hc as (-> & Ha & _). split; [done|discriminate].
Qed.

(** A thread allocates a work. *)
Lemma Mem_alloc a w t : h !! a = None → Mem (<[a := Some t]> own) (<[a := w]> h) q p.
Proof.
  intros Ha. assert (a ∉ q) as Hq.
  { intros [??]%(chain_lookup h p q a (mem_chain _ _ _ _ HM)). congruence. }
  split.
  - apply (chain_ext h); [|apply HM]. intros b Hb. rewrite lookup_insert_ne; [done|set_solver].
  - apply HM.
  - intros b. rewrite (mem_queue _ _ _ _ HM b), lookup_insert_Some.
    pose proof (mem_fresh a Ha). intuition congruence.
  - intros b. rewrite !lookup_insert_is_Some, (mem_dom _ _ _ _ HM b). done.
Qed.

(** A thread frees a work it holds. *)
Lemma Mem_free a t : own !! a = Some (Some t) → Mem (delete a own) (delete a h) q p.
Proof.
  intros Ha. pose proof (mem_held a t Ha) as Hq. split.
  - apply (chain_ext h); [|apply HM]. intros b Hb. rewrite lookup_delete_ne; [done|set_solver].
  - apply HM.
  - intros b. rewrite (mem_queue _ _ _ _ HM b), lookup_delete_Some. intuition congruence.
  - intros b. rewrite !lookup_delete_is_Some, (mem_dom _ _ _ _ HM b). done.
Qed.

(** A thread puts a work it holds at the end of the queue. *)
Lemma Mem_push_nil a t w :
  q = [] → own !! a = Some (Some t) → a ≠ NULL → h !! a = Some w → next w = NULL →
  Mem (<[a := None]> own) h [a] a.
Proof.
  intros Eq Ha Ha0 Hw Hn. split; simpl.
  - split; [done|]. split; [done|]. by exists w.
  - apply NoDup_singleton.
  - intros b. pose proof (mem_queue _ _ _ _ HM b) as Hb. rewrite Eq, elem_of_nil in Hb.
    rewrite list_elem_of_singleton, lookup_insert_Some. intuition congruence.
  - intros b. rewrite lookup_insert_is_Some, <- (mem_dom _ _ _ _ HM b).
    destruct (decide (a = b)) as [->|]; [|naive_solver]. rewrite Ha. naive_solver.
Qed.

Lemma Mem_push q' l a t w :
  q = q' ++ [l] → own !! a = Some (Some t) → a ≠ NULL → h !! a = Some w → next w = NULL →
  Mem (<[a := None]> own) (set_next l a h) (q' ++ [l; a]) p.
Proof.
  intros Eq Ha Ha0 Hw Hn. pose proof (mem_held a t Ha) as Hq. pose proof HM as [H1 H2 H3 H4].
  rewrite Eq in *. split.
  - by apply (chain_append h p q' l a w).
  - change (NoDup (q' ++ [l] ++ [a])). rewrite app_assoc. apply NoDup_app. split; [done|].
    split; [set_solver|apply NoDup_singleton].
  - intros b. rewrite lookup_insert_Some, <- H3. set_solver.
  - intros b. rewrite lookup_insert_is_Some, set_next_dom, <- H4.
    destruct (decide (a = b)) as [->|]; [|naive_solver]. rewrite Ha. naive_solver.
Qed.

(** A worker takes the first work. *)
Lemma Mem_take a q' t w :
  q = a :: q' → h !! a = Some w → Mem (<[a := Some t]> own) h q' (next w).
Proof.
  intros Eq Hw. pose proof HM as [H1 H2 H3 H4]. rewrite Eq in *.
  destruct H1 as (_ & Ha & v & Hv & Hc). apply NoDup_cons in H2 as [Hn H2].
  assert (v = w) as -> by congruence. split; [done|done| |].
  - intros b. rewrite lookup_insert_Some. specialize (H3 b). rewrite elem_of_cons in H3.
    split; [intros Hb|intros [[? ?]|[? Hb]]; [congruence|]].
    + right. split; [set_solver|]. apply H3. by right.
    + apply H3 in Hb as [?|?]; [congruence|done].
  - intros b. rewrite lookup_insert_is_Some, <- H4. destruct (decide (a = b)) as [->|]; [|naive_solver].
    assert (own !! b = Some None) as -> by (apply H3; by left). naive_solver.
Qed.
End memory.

(** ** One thread moves *)
Definition moves (σ σ' : state) (t : tid) (pc : tpc) : Prop :=
  pc_of σ' t = Some pc ∧ ∀ t', t' ≠ t → pc_of σ' t' = pc_of σ t'.

(** A step leaves the lock alone, takes it or releases it. *)
Definition lock_step (σ σ' : state) (t : tid) (pc pc' : tpc) : Prop :=
  (owner σ' = owner σ ∧ crit pc' = crit pc) ∨
  (owner σ = None ∧ owner σ' = Some t ∧ crit pc' = true) ∨
  (owner σ = Some t ∧ owner σ' = None ∧ crit pc' = false).

Lemma Locks_step σ σ' t pc pc' :
  Locks σ → pc_of σ t = Some pc → moves σ σ' t pc' → lock_step σ σ' t pc pc' → Locks σ'.
Proof.
  intros HL Hpc [Hpc' Hne] Hc t'. pose proof (HL t) as Ht. pose proof (HL t') as Ht'.
  unfold critical in *. destruct (decide (t' = t)) as [->|Hn].
  - rewrite Hpc'. rewrite Hpc in Ht. destruct Hc as [[-> ->]|[(E1 & -> & ->)|(E1 & -> & ->)]]; naive_solver.
  - rewrite (Hne t') by done. destruct Hc as [[-> _]|[(E1 & -> & _)|(E1 & -> & _)]]; [done| |];
      rewrite E1 in *; naive_solver.
Qed.

Lemma ok_stable own own' h h' q q' P P' t pc :
  ok own h q P t pc → (crit pc = true → q' = q) →
  (∀ a, own !! a = Some (Some t) → own' !! a = Some (Some t) ∧ h' !! a = h !! a) →
  (is_Some (thr_id P) → is_Some (thr_id P')) → ok own' h' q' P' t pc.
Proof.
  intros Ho Hq Ha Hi. destruct pc as [[]|[]]; simpl in *; try done; try (by rewrite Hq); auto; try (by apply Ha).
  - destruct Ho as (E & ? & ?). destruct (Ha _ E) as [? ->]. done.
  - destruct Ho as (E & ? & ?). destruct (Ha _ E) as [? ->]. done.
Qed.

(** What the other threads rely on. *)
Definition keeps (t : tid) (own own' : gmap Z (option tid)) (h h' : gmap Z tpool_work_t) : Prop :=
  ∀ a t', t' ≠ t → own !! a = Some (Some t') → own' !! a = Some (Some t') ∧ h' !! a = h !! a.

Lemma keeps_refl t own h : keeps t own own h h.
Proof. by intros a t' _ ?. Qed.

Definition pend (pc : option tpc) : option Z :=
  match pc with Some (WP (L28 p | L30 p)) => Some p | _ => None end.

Lemma pending_pend h σ i :
  pending h (workers σ !! i) =
  match pend (pc_of σ (W i)) with Some p => [content h p] | None => [] end.
Proof. simpl. by destruct (workers σ !! i) as [[]|]. Qed.

(** The works worker [i] runs and takes in a step. *)
Definition foreign (t : tid) (e : event) : Prop :=
  match e with ETake i _ _ | ERun i _ _ => t = W i | _ => True end.

Section step.
Context {own : gmap Z (option tid)} {q : list Z} {P : tpool_t} {tr : list event} {σ : state}.
Hypothesis HI : Inv own q P tr σ.

Lemma Inv_step own' q' P' e σ' t pc pc' :
  pc_of σ t = Some pc → moves σ σ' t pc' → lock_step σ σ' t pc pc' →
  tpool σ' = Some P' → shutdown P' = 0 → (is_Some (thr_id P) → is_Some (thr_id P')) →
  Mem own' (works σ') q' (queue_head P') → (q' = q ∨ owner σ = Some t) →
  keeps t own own' (works σ) (works σ') →
  ok own' (works σ') q' P' t pc' →
  (∀ j c, clients σ' !! j = Some c → Forall is_add c.2) →
  Wake σ' q' →
  takes (tr ++ [e]) ++ (content (works σ') <$> q') = pushes (tr ++ [e]) →
  foreign t e →
  (∀ i, t = W i → runs_of i (tr ++ [e]) ++ pending (works σ') (workers σ' !! i) = takes_of i (tr ++ [e])) →
  Inv own' q' P' (tr ++ [e]) σ'.
Proof.
  intros Hpc Hm Hl HP Hs Hid HM Hq Hk Hok Hcs Hw Hf He Hr. split; auto.
  - by apply (Locks_step σ σ' t pc pc'); [apply HI|..].
  - intros t' pc1. destruct (decide (t' = t)) as [->|Hn]; [by rewrite (proj1 Hm); intros [= <-]|].
    rewrite (proj2 Hm t' Hn). intros E. apply (ok_stable own own' (works σ) (works σ') q q' P P'); [| | |done].
    + by apply HI.
    + intros Hcr. destruct Hq as [Hq|Ho]; [done|]. exfalso.
      assert (owner σ = Some t') by (apply (i_locks _ _ _ _ _ HI); unfold critical; by rewrite E).
      congruence.
    + intros a. by apply Hk.
  - intros i. destruct (decide (t = W i)) as [->|Hn]; [by apply Hr|].
    pose proof (i_runs _ _ _ _ _ HI i) as Hi. rewrite !pending_pend in *.
    rewrite (proj2 Hm (W i)) by congruence.
    assert (runs_of i (tr ++ [e]) = runs_of i tr ∧ takes_of i (tr ++ [e]) = takes_of i tr) as [-> ->].
    { unfold runs_of, takes_of. rewrite !omap_app. destruct e; simpl in *; rewrite ?app_nil_r; try done;
        (case_decide; [congruence|by rewrite ?app_nil_r]). }
    rewrite <- Hi. f_equal. destruct (pend (pc_of σ (W i))) as [p|] eqn:Ep; [|done].
    assert (own !! p = Some (Some (W i))) as Hp.
    { destruct (pc_of σ (W i)) as [pc1|] eqn:E1; [|done]. pose proof (i_ok _ _ _ _ _ HI _ _ E1) as Ho.
      destruct pc1 as [[]|[]]; simpl in *; congruence. }
    unfold content. by rewrite (proj2 (Hk p (W i) ltac:(congruence) Hp)).
Qed.

Definition quiet (e : event) : Prop :=
  match e with EPush _ _ | ETake _ _ _ | ERun _ _ _ => False | _ => True end.

Lemma quiet_trace e i :
  quiet e → pushes (tr ++ [e]) = pushes tr ∧ takes (tr ++ [e]) = takes tr ∧
    runs_of i (tr ++ [e]) = runs_of i tr ∧ takes_of i (tr ++ [e]) = takes_of i tr.
Proof.
  intros. unfold pushes, takes, runs_of, takes_of. rewrite !omap_app. by destruct e; simpl; rewrite ?app_nil_r.
Qed.

(** Steps that leave the works alone. *)
Lemma Inv_quiet e σ' t pc pc' :
  pc_of σ t = Some pc → moves σ σ' t pc' → lock_step σ σ' t pc pc' →
  tpool σ' = Some P → works σ' = works σ →
  ok own (works σ) q P t pc' →
  (∀ j c, clients σ' !! j = Some c → Forall is_add c.2) →
  Wake σ' q → quiet e → pend (Some pc') = pend (Some pc) →
  Inv own q P (tr ++ [e]) σ'.
Proof.
  intros Hpc Hm Hl HP Hh Hok Hcs Hw He Hp. apply (Inv_step own q P e σ' t pc pc'); rewrite ?Hh; auto.
  - apply HI.
  - apply HI.
  - apply keeps_refl.
  - destruct (quiet_trace e 0%nat He) as (-> & -> & _). apply HI.
  - by destruct e.
  - intros i ->. destruct (quiet_trace e i He) as (_ & _ & -> & ->). rewrite <- (i_runs _ _ _ _ _ HI i).
    rewrite !pending_pend, (proj1 Hm), Hpc. by rewrite Hp.
Qed.
End step.

(** ** Moving a worker and a client *)
Lemma moves_w i pc pc' σ : workers σ !! i = Some pc → moves σ (wgoto i pc' σ) (W i) (WP pc').
Proof.
  intros E. split; simpl.
  - rewrite list_lookup_insert_eq; [done|]. by eapply lookup_lt_Some.
  - intros [k|k] Hn; simpl; [|done]. by rewrite list_lookup_insert_ne by congruence.
Qed.

Lemma moves_c j c pc' σ : clients σ !! j = Some c → moves σ (cgoto j pc' σ) (C j) (CP pc').
Proof.
  intros E. split; simpl.
  - by rewrite list_lookup_alter_eq, E.
  - intros [k|k] Hn; simpl; [done|]. by rewrite list_lookup_alter_ne by congruence.
Qed.

Lemma calls_c σ j pc' :
  (∀ j c, clients σ !! j = Some c → Forall is_add c.2) →
  ∀ k c, clients (cgoto j pc' σ) !! k = Some c → Forall is_add c.2.
Proof.
  intros H k c. simpl. destruct (decide (j = k)) as [->|].
  - rewrite list_lookup_alter_eq. destruct (clients σ !! k) eqn:E; simpl; [|done]. intros [= <-]. exact (H k _ E).
  - rewrite list_lookup_alter_ne by done. apply H.
Qed.

(** A worker that is awake is the witness. *)
Lemma Wake_w i pc σ q : (i < length (workers σ))%nat → pc ≠ L20z → Wake (wgoto i pc σ) q.
Proof. intros Hi Hp _ _. left. exists i, pc. simpl. by rewrite list_lookup_insert_eq. Qed.

Lemma Wake_c j c pc σ q : clients σ !! j = Some c → c.1 ≠ L159 → Wake σ q → Wake (cgoto j pc σ) q.
Proof.
  intros E Hc HW Hq Hz. destruct (HW Hq Hz) as [?|(k & ks & Hk)]; [by left|]. right.
  exists k, ks. simpl. rewrite list_lookup_alter_ne; [done|]. intros ->. rewrite E in Hk. naive_solver.
Qed.

Lemma Wake_push j c σ q : clients σ !! j = Some c → Wake (cgoto j L159 σ) q.
Proof. intros E _ _. right. exists j, (c.2). simpl. by rewrite list_lookup_alter_eq, E. Qed.

(** ** A measure that every step decreases

    A work in the queue weighs as much as the steps a worker makes with it; a
    call weighs as much as its steps and the steps of the worker it wakes. *)
Definition wweight (pc : wpc) : nat :=
  match pc with
  | L17 | L20w => 5 | L19 => 4 | L22 => 3 | L26 => 2 | L27 _ => 1 | L20 => 1
  | L28 _ => 8 | L30 _ => 7 | L31 _ => 6 | _ => 0
  end.

Definition cweight (n : nat) (pc : cpc) : nat :=
  match pc with
  | L129 _ _ => 19 | L134 _ _ => 18 | L145 _ => 17 | L146 _ => 16 | L159 => 7 | L160 => 1
  | L72 i => 6 * (n - i) + 1
  | _ => 0
  end.

Definition ccost (n : nat) (c : cpc * list call) : nat := cweight n c.1 + 20 * length c.2.

Definition weight (k : nat) (P : tpool_t) (σ : state) : nat :=
  (if exited σ then 0 else 1) + 8 * k + sum_list_with wweight (workers σ) +
  sum_list_with (ccost (Z.to_nat (max_thr_num P))) (clients σ).

Definition measure (σ : state) : nat :=
  match tpool σ with Some P => weight (length (queued σ)) P σ | None => 0 end.

Lemma weight_w k P i pc pc' σ :
  workers σ !! i = Some pc →
  (weight k P (wgoto i pc' σ) + wweight pc = weight k P σ + wweight pc')%nat.
Proof.
  intros E. pose proof (sum_list_with_insert wweight (workers σ) i pc pc' E). unfold weight. simpl. lia.
Qed.

Lemma alter_insert {A} (f : A → A) (l : list A) j x : l !! j = Some x → alter f j l = <[j := f x]> l.
Proof. revert j. induction l as [|y l IH]; intros [|j] E; simplify_eq/=; f_equal; auto. Qed.

Lemma weight_c k P j pc ks pc' σ :
  clients σ !! j = Some (pc, ks) →
  let n := Z.to_nat (max_thr_num P) in
  (weight k P (cgoto j pc' σ) + cweight n pc = weight k P σ + cweight n pc')%nat.
Proof.
  intros E n. pose proof (sum_list_with_insert (ccost n) (clients σ) j _ (pc', ks) E) as H.
  unfold weight. simpl. rewrite (alter_insert _ _ _ _ E). unfold ccost at 2 4 in H. simpl in *. fold n. lia.
Qed.

(** ** Every step preserves the invariant *)

(** What a step has to satisfy: the invariant again, and a smaller weight. *)
Definition next_ok (q : list Z) (P : tpool_t) (tr : list event) (σ : state) (e : event) (σ' : state) : Prop :=
  ∃ own' q' P', Inv own' q' P' (tr ++ [e]) σ' ∧
    (weight (length q') P' σ' < weight (length q) P σ)%nat.

Definition good (q : list Z) (P : tpool_t) (tr : list event) (σ : state) (r : out (event * state)) : Prop :=
  match r with Blocked => True | Fault => False | Done (e, σ') => next_ok q P tr σ e σ' end.

Section preservation.
Context {own : gmap Z (option tid)} {q : list Z} {P : tpool_t} {tr : list event} {σ : state}.
Hypothesis HI : Inv own q P tr σ.

Lemma head_cons {A} (l : list A) x : head l = Some x → ∃ l', l = x :: l'.
Proof. destruct l; [done|]. intros [= ->]. eauto. Qed.

Lemma pool_ok : pool σ = Done P.
Proof. unfold pool. by rewrite (i_pool _ _ _ _ _ HI). Qed.

Lemma owner_crit t pc : pc_of σ t = Some pc → crit pc = true → owner σ = Some t.
Proof. intros E Hc. apply (i_locks _ _ _ _ _ HI). unfold critical. by rewrite E. Qed.

Lemma unlock_ok t pc :
  pc_of σ t = Some pc → crit pc = true → pthread_mutex_unlock t σ = Done (set_owner None σ).
Proof.
  intros E Hc. unfold pthread_mutex_unlock. rewrite pool_ok. simpl.
  by rewrite decide_True by exact (owner_crit t pc E Hc).
Qed.

Lemma lock_cases t :
  pthread_mutex_lock t σ = Blocked ∨
  (owner σ = None ∧ pthread_mutex_lock t σ = Done (set_owner (Some t) σ)).
Proof. unfold pthread_mutex_lock. rewrite pool_ok. simpl. destruct (owner σ); auto. Qed.

Lemma head_zero : (queue_head P =? NULL) = true ↔ q = [].
Proof. rewrite Z.eqb_eq. apply (mem_head (i_mem _ _ _ _ _ HI)). Qed.

(** The quiet steps of a worker. *)
Lemma quiet_w i pc pc' o :
  workers σ !! i = Some pc → lock_step σ (set_owner o σ) (W i) (WP pc) (WP pc') →
  ok own (works σ) q P (W i) (WP pc') → pend (Some (WP pc')) = pend (Some (WP pc)) →
  (pc' = L20z → q = []) → (wweight pc' < wweight pc)%nat →
  next_ok q P tr σ ETau (wgoto i pc' (set_owner o σ)).
Proof.
  intros E Hl Hok Hp Hz Hd. exists own, q, P.
  split; [|pose proof (weight_w (length q) P i pc pc' (set_owner o σ) E); unfold weight in *; simpl in *; lia].
  apply (Inv_quiet HI ETau _ (W i) (WP pc) (WP pc')); auto; simpl.
  - by rewrite E.
  - apply (moves_w i pc pc' σ E).
  - apply HI.
  - apply HI.
  - destruct (decide (pc' = L20z)) as [->|Hn].
    + intros Hq. by rewrite Hz in Hq.
    + apply (Wake_w i pc' (set_owner o σ) q); [|done]. simpl. by eapply lookup_lt_Some.
  - done.
Qed.

(** The quiet steps of a client. *)
Lemma quiet_c j pc ks pc' o e :
  clients σ !! j = Some (pc, ks) → lock_step σ (set_owner o σ) (C j) (CP pc) (CP pc') →
  ok own (works σ) q P (C j) (CP pc') → pc ≠ L159 → quiet e →
  (cweight (Z.to_nat (max_thr_num P)) pc' < cweight (Z.to_nat (max_thr_num P)) pc)%nat →
  next_ok q P tr σ e (cgoto j pc' (set_owner o σ)).
Proof.
  intros E Hl Hok Hn He Hd. exists own, q, P.
  split; [|pose proof (weight_c (length q) P j pc ks pc' (set_owner o σ) E); unfold weight in *; simpl in *; lia].
  apply (Inv_quiet HI e _ (C j) (CP pc) (CP pc')); auto.
  - simpl. by rewrite E.
  - apply (moves_c j (pc, ks) pc' (set_owner o σ) E).
  - apply HI.
  - apply (calls_c (set_owner o σ)). apply HI.
  - apply (Wake_c j (pc, ks)); [done..|]. apply HI.
Qed.

(** With the owner unchanged. *)
Lemma same_owner : set_owner (owner σ) σ = σ.
Proof. by destruct σ. Qed.

Lemma quiet_w_same i pc pc' :
  workers σ !! i = Some pc → crit (WP pc') = crit (WP pc) →
  ok own (works σ) q P (W i) (WP pc') → pend (Some (WP pc')) = pend (Some (WP pc)) → pc' ≠ L20z →
  (wweight pc' < wweight pc)%nat →
  next_ok q P tr σ ETau (wgoto i pc' σ).
Proof.
  intros E Hc Hok Hp Hz Hd. pose proof (quiet_w i pc pc' (owner σ)) as H. rewrite same_owner in H.
  apply H; auto; [by left|congruence].
Qed.

Lemma quiet_c_same j pc ks pc' e :
  clients σ !! j = Some (pc, ks) → crit (CP pc') = crit (CP pc) →
  ok own (works σ) q P (C j) (CP pc') → pc ≠ L159 → quiet e →
  (cweight (Z.to_nat (max_thr_num P)) pc' < cweight (Z.to_nat (max_thr_num P)) pc)%nat →
  next_ok q P tr σ e (cgoto j pc' σ).
Proof.
  intros E Hc Hok Hn He Hd. pose proof (quiet_c j pc ks pc' (owner σ) e) as H. rewrite same_owner in H.
  apply H; auto. by left.
Qed.

Lemma trace_take e :
  takes (tr ++ [e]) = takes tr ++ takes [e] ∧ pushes (tr ++ [e]) = pushes tr ++ pushes [e].
Proof. split; apply omap_app. Qed.

Lemma trace_of i e :
  runs_of i (tr ++ [e]) = runs_of i tr ++ runs_of i [e] ∧
  takes_of i (tr ++ [e]) = takes_of i tr ++ takes_of i [e].
Proof. split; apply omap_app. Qed.

Lemma take_good i a :
  workers σ !! i = Some (L27 a) → good q P tr σ (thread_routine i (L27 a) σ).
Proof.
  intros E. pose proof HI as [HP Hs HL HM Hok Hcs Hw Hf Hr].
  assert (pc_of σ (W i) = Some (WP (L27 a))) as Epc by (simpl; by rewrite E).
  pose proof (Hok _ _ Epc) as Ha. apply head_cons in Ha as [q' Eq].
  pose proof (mem_chain _ _ _ _ HM) as Hc. rewrite Eq in Hc, Hf. destruct Hc as (Eh & Ha0 & w & Hwa & _).
  simpl. rewrite pool_ok. simpl. unfold work_at. rewrite Eh, Hwa. simpl.
  exists (<[a := Some (W i)]> own), q', (set_head (next w) P).
  split; [|pose proof (weight_w (length q') P i _ (L28 a) σ E); rewrite Eq; unfold weight in *; simpl in *; lia].
  apply (Inv_step HI _ _ _ _ _ (W i) (WP (L27 a)) (WP (L28 a))); auto; simpl.
  - apply (moves_w i (L27 a) (L28 a) σ E).
  - by left.
  - by apply (Mem_take HM a q' (W i) w).
  - right. by apply (owner_crit (W i) (WP (L27 a))).
  - intros b t' Hn Hb. rewrite lookup_insert_ne; [done|]. intros <-.
    assert (own !! a = Some None) by (apply (mem_queue _ _ _ _ HM); rewrite Eq; by left). congruence.
  - by rewrite lookup_insert_eq.
  - apply Wake_w; [by eapply lookup_lt_Some|done].
  - destruct (trace_take (ETake i (routine w) (arg w))) as [-> ->]. simpl. rewrite app_nil_r, <- app_assoc.
    rewrite <- Hf. simpl. unfold content at 2. by rewrite Hwa.
  - done.
  - intros k [= <-]. destruct (trace_of i (ETake i (routine w) (arg w))) as [-> ->].
    rewrite <- (Hr i), E, list_lookup_insert_eq by (by eapply lookup_lt_Some). simpl.
    rewrite decide_True, !app_nil_r by done. unfold content. by rewrite Hwa.
Qed.

Lemma run_good i a :
  workers σ !! i = Some (L30 a) → good q P tr σ (thread_routine i (L30 a) σ).
Proof.
  intros E. pose proof HI as [HP Hs HL HM Hok Hcs Hw Hf Hr].
  assert (pc_of σ (W i) = Some (WP (L30 a))) as Epc by (simpl; by rewrite E).
  pose proof (Hok _ _ Epc) as Ha. simpl in Ha. destruct (mem_alloc HM a _ Ha) as [w Hwa].
  simpl. unfold work_at. rewrite Hwa. simpl. exists own, q, P.
  split; [|pose proof (weight_w (length q) P i _ (L31 a) σ E); unfold weight in *; simpl in *; lia].
  apply (Inv_step HI _ _ _ _ _ (W i) (WP (L30 a)) (WP (L31 a))); auto; simpl.
  - apply (moves_w i (L30 a) (L31 a) σ E).
  - by left.
  - apply keeps_refl.
  - apply Wake_w; [by eapply lookup_lt_Some|done].
  - destruct (trace_take (ERun i (routine w) (arg w))) as [-> ->]. simpl. by rewrite !app_nil_r.
  - done.
  - intros k [= <-]. destruct (trace_of i (ERun i (routine w) (arg w))) as [-> ->].
    rewrite <- (Hr i), E, list_lookup_insert_eq by (by eapply lookup_lt_Some). simpl.
    rewrite decide_True, !app_nil_r by done. unfold content. by rewrite Hwa.
Qed.

Lemma free_good i a :
  workers σ !! i = Some (L31 a) → good q P tr σ (thread_routine i (L31 a) σ).
Proof.
  intros E. pose proof HI as [HP Hs HL HM Hok Hcs Hw Hf Hr].
  assert (pc_of σ (W i) = Some (WP (L31 a))) as Epc by (simpl; by rewrite E).
  pose proof (Hok _ _ Epc) as Ha. simpl in Ha. destruct (mem_alloc HM a _ Ha) as [w Hwa].
  simpl. unfold free_work. rewrite Hwa. simpl. exists (delete a own), q, P.
  split; [|pose proof (weight_w (length q) P i _ L17 σ E); unfold weight in *; simpl in *; lia].
  apply (Inv_step HI _ _ _ _ _ (W i) (WP (L31 a)) (WP L17)); auto; simpl.
  - apply (moves_w i (L31 a) L17 σ E).
  - by left.
  - by apply (Mem_free HM a (W i)).
  - intros b t' Hn Hb. assert (a ≠ b) by congruence. by rewrite !lookup_delete_ne.
  - done.
  - apply Wake_w; [by eapply lookup_lt_Some|done].
  - destruct (quiet_trace (tr := tr) ETau 0%nat I) as (-> & -> & _). rewrite <- Hf. f_equal.
    apply list_fmap_ext. intros k b Hb. unfold content.
    rewrite lookup_delete_ne; [done|]. intros ->. apply (mem_held HM b _ Ha). by eapply list_elem_of_lookup_2.
  - done.
  - intros k [= <-]. destruct (quiet_trace (tr := tr) ETau i I) as (_ & _ & -> & ->).
    rewrite <- (Hr i), E, list_lookup_insert_eq by (by eapply lookup_lt_Some). done.
Qed.

Lemma worker_good i pc : workers σ !! i = Some pc → good q P tr σ (thread_routine i pc σ).
Proof.
  intros E. assert (pc_of σ (W i) = Some (WP pc)) as Epc by (simpl; by rewrite E).
  pose proof (i_ok _ _ _ _ _ HI _ _ Epc) as Hok.
  destruct pc; simpl in Hok; try done; try (by apply take_good); try (by apply run_good); try (by apply free_good).
  - simpl. destruct (lock_cases (W i)) as [->|[Ho ->]]; [done|]. simpl. apply (quiet_w i L17); [done| |done|done|done|simpl; lia]. right. by left.
  - simpl. rewrite pool_ok. simpl. rewrite (i_shut _ _ _ _ _ HI), andb_true_r.
    destruct (queue_head P =? NULL) eqn:Eh; apply (quiet_w_same i L19); try done; simpl; try lia.
    + by apply head_zero.
    + rewrite <- head_zero, Eh. done.
  - simpl. rewrite (unlock_ok _ _ Epc eq_refl). simpl. apply (quiet_w i L20); [done| |done|done|done|simpl; lia]. right. right.
    by split; [apply (owner_crit _ _ Epc)|].
  - simpl. destruct (lock_cases (W i)) as [->|[Ho ->]]; [done|]. simpl. apply (quiet_w i L20w); [done| |done|done|done|simpl; lia]. right. by left.
  - simpl. rewrite pool_ok. simpl. rewrite (i_shut _ _ _ _ _ HI). simpl. apply (quiet_w_same i L22); try done. simpl. lia.
  - simpl. rewrite pool_ok. simpl. apply (quiet_w_same i L26); try done; simpl; [|lia].
    pose proof (mem_chain _ _ _ _ (i_mem _ _ _ _ _ HI)) as Hc. clear -Hc Hok.
    destruct q; [done|]. by destruct Hc as (-> & _).
  - simpl. rewrite (unlock_ok _ _ Epc eq_refl). simpl. apply (quiet_w i (L28 work)); [done| |done|done|done|simpl; lia]. right. right.
    by split; [apply (owner_crit _ _ Epc)|].
Qed.
End preservation.

(** *** Steps that move two threads *)
Lemma Inv_wakeup own q P tr σ i :
  Inv own q P tr σ → workers σ !! i = Some L20z → Inv own q P tr (wgoto i L20w σ).
Proof.
  intros HI E. pose proof HI as [HP Hs HL HM Hok Hcs Hw Hf Hr].
  pose proof (moves_w i L20z L20w σ E) as Hm.
  split; auto.
  - apply (Locks_step σ _ (W i) (WP L20z) (WP L20w)); [done| |done|by left]. simpl. by rewrite E.
  - intros t pc. destruct (decide (t = W i)) as [->|Hn].
    + rewrite (proj1 Hm). by intros [= <-].
    + rewrite (proj2 Hm) by done. apply Hok.
  - apply Wake_w; [by eapply lookup_lt_Some|done].
  - intros k. rewrite <- (Hr k), !pending_pend. destruct (decide (k = i)) as [->|Hn].
    + rewrite (proj1 Hm). simpl. by rewrite E.
    + rewrite (proj2 Hm) by congruence. done.
Qed.

Lemma Inv_spawn own q P tr σ :
  Inv own q P tr σ → Inv own q P tr (set_workers (workers σ ++ [L17]) σ).
Proof.
  intros HI. pose proof HI as [HP Hs HL HM Hok Hcs Hw Hf Hr].
  assert (∀ t, pc_of (set_workers (workers σ ++ [L17]) σ) t =
            if decide (t = W (length (workers σ))) then Some (WP L17) else pc_of σ t) as Hpc.
  { intros t. case_decide as E.
    - subst t. simpl. by rewrite lookup_app_r, Nat.sub_diag by lia.
    - destruct t as [k|k]; [simpl|done]. destruct (decide (k < length (workers σ))%nat) as [Hk|Hk]; [by rewrite lookup_app_l|].
      rewrite !lookup_ge_None_2; [done|lia|]. rewrite length_app. simpl.
      assert (k ≠ length (workers σ)) by congruence. lia. }
  split; auto.
  - intros t. unfold critical. rewrite Hpc. case_decide as E; [|apply HL]. subst t. simpl.
    rewrite <- (HL (W _)). unfold critical. simpl. by rewrite lookup_ge_None_2 by lia.
  - intros t pc. rewrite Hpc. case_decide; [by intros [= <-]|apply Hok].
  - intros _ _. left. exists (length (workers σ)), L17. simpl. by rewrite lookup_app_r, Nat.sub_diag by lia.
  - intros i. rewrite <- (Hr i), !pending_pend, Hpc. case_decide as E; [|done]. injection E as ->. simpl.
    by rewrite lookup_ge_None_2 by lia.
Qed.

Lemma Inv_thr_id own q P tr σ ids :
  Inv own q P tr σ →
  Inv own q (set_thr_id (Some ids) P) tr (set_tpool (set_thr_id (Some ids) P) σ).
Proof.
  intros HI. pose proof HI as [HP Hs HL HM Hok Hcs Hw Hf Hr]. split; auto.
  intros t pc E. apply (ok_stable own own (works σ) (works σ) q q P); [by apply Hok|done|done|].
  intros _. by exists ids.
Qed.

Lemma Inv_event own q P tr σ e : quiet e → Inv own q P tr σ → Inv own q P (tr ++ [e]) σ.
Proof.
  intros He HI. pose proof HI as [HP Hs HL HM Hok Hcs Hw Hf Hr]. split; auto.
  - by destruct (quiet_trace (tr := tr) e 0%nat He) as (-> & -> & _).
  - intros i. by destruct (quiet_trace (tr := tr) e i He) as (_ & _ & -> & ->).
Qed.

(** *** The clients *)
Section clients.
Context {own : gmap Z (option tid)} {q : list Z} {P : tpool_t} {tr : list event} {σ : state}.
Hypothesis HI : Inv own q P tr σ.

Lemma call_good j k ks :
  clients σ !! j = Some (Idle, k :: ks) →
  next_ok q P tr σ ETau (set_clients (<[j := (entry k, ks)]> (clients σ)) σ).
Proof.
  intros E. pose proof (i_calls _ _ _ _ _ HI _ _ E) as Hks. simpl in Hks.
  apply Forall_cons in Hks as [Hk Hks]. destruct k; try done.
  assert (j < length (clients σ))%nat as Hj by (by eapply lookup_lt_Some).
  exists own, q, P. split.
  2:{ pose proof (sum_list_with_insert (ccost (Z.to_nat (max_thr_num P))) _ j _ (L129 r a, ks) E) as H.
      unfold ccost at 2 4 in H. unfold weight. simpl in *. lia. }
  apply (Inv_quiet HI ETau _ (C j) (CP Idle) (CP (L129 r a))); try done.
  - simpl. by rewrite E.
  - split; simpl; [by rewrite list_lookup_insert_eq|]. intros [i|i] Hn; [done|]. simpl.
    by rewrite list_lookup_insert_ne by congruence.
  - by left.
  - apply HI.
  - simpl. intros i c [(<- & <- & _)|[_ H]]%list_lookup_insert_Some; [done|]. by apply (i_calls _ _ _ _ _ HI i).
  - intros Hq Hz. destruct (i_wake _ _ _ _ _ HI Hq Hz) as [?|(i & l & Hi)]; [by left|]. right. exists i, l.
    simpl. rewrite list_lookup_insert_ne; [done|]. intros ->. congruence.
Qed.

Lemma alloc_good j r a ks p :
  clients σ !! j = Some (L134 r a, ks) → p ≠ NULL → works σ !! p = None →
  next_ok q P tr σ ETau (cgoto j (L145 p) (set_works (<[p := mk_work r a NULL]> (works σ)) σ)).
Proof.
  intros E Hp Hf. pose proof HI as [HP Hs HL HM Hok Hcs Hw Hff Hr].
  exists (<[p := Some (C j)]> own), q, P.
  split; [|pose proof (weight_c (length q) P j _ _ (L145 p) σ E); unfold weight in *; simpl in *; lia].
  apply (Inv_step HI _ _ _ _ _ (C j) (CP (L134 r a)) (CP (L145 p))); auto.
  - simpl. by rewrite E.
  - exact (moves_c j _ (L145 p) (set_works (<[p := mk_work r a NULL]> (works σ)) σ) E).
  - by left.
  - simpl. by apply (Mem_alloc HM).
  - intros b t' Hn Hb. simpl. assert (p ≠ b) by (intros <-; rewrite (mem_fresh HM p Hf) in Hb; done).
    by rewrite !lookup_insert_ne.
  - simpl. rewrite lookup_insert_eq. split; [done|]. split; [done|]. eexists. by rewrite lookup_insert_eq.
  - by apply calls_c.
  - by apply (Wake_c j (L134 r a, ks)).
  - destruct (quiet_trace (tr := tr) ETau 0%nat I) as (-> & -> & _). rewrite <- Hff. f_equal.
    apply list_fmap_ext. intros k b Hb. unfold content. simpl. rewrite lookup_insert_ne; [done|].
    intros <-. destruct (chain_lookup _ _ _ p (mem_chain _ _ _ _ HM)); [|congruence].
    by eapply list_elem_of_lookup_2.
  - done.
  - done.
Qed.

Lemma append_ok p w :
  own !! p = Some (Some w) → p ≠ NULL → (∃ v, works σ !! p = Some v ∧ next v = NULL) →
  ∃ σ' P' , append_work p σ = Done σ' ∧ tpool σ' = Some P' ∧ shutdown P' = 0 ∧ thr_id P' = thr_id P ∧
    max_thr_num P' = max_thr_num P ∧ exited σ' = exited σ ∧
    owner σ' = owner σ ∧ workers σ' = workers σ ∧ clients σ' = clients σ ∧
    Mem (<[p := None]> own) (works σ') (q ++ [p]) (queue_head P') ∧
    (∀ a, content (works σ') a = content (works σ) a) ∧
    (∀ a, a ∉ q → works σ' !! a = works σ !! a).
Proof.
  intros Ho Hp (v & Hv & Hn). pose proof (i_mem _ _ _ _ _ HI) as HM. unfold append_work.
  rewrite (pool_ok HI). cbn [mbind out_bind]. destruct (queue_head P =? NULL) eqn:Eh.
  - apply (head_zero HI) in Eh. exists (set_tpool (set_head p P) σ), (set_head p P).
    repeat (split; [done || apply HI|]). split; [|done]. pose proof HM as HM'. rewrite Eh in HM' |- *.
    by apply (Mem_push_nil HM' p w v).
  - assert (q ≠ []) as Hq by (rewrite <- (head_zero HI), Eh; done).
    destruct (exists_last Hq) as (q' & l & Eq). pose proof (mem_chain _ _ _ _ HM) as Hc. rewrite Eq in Hc.
    pose proof (chain_size _ _ _ Hc) as Hl. rewrite <- Eq in Hl. specialize (Hl (mem_nodup _ _ _ _ HM)).
    rewrite Eq, length_app in Hl. simpl in Hl.
    rewrite (chain_last _ _ _ q' l Hc) by lia. simpl.
    exists (set_works (set_next l p (works σ)) σ), P. repeat (split; [done || apply HI|]).
    split; [|split].
    + rewrite Eq, <- app_assoc. by apply (Mem_push HM q' l p w v).
    + intros a. apply set_next_content.
    + intros a Ha. apply set_next_ne. intros ->. apply Ha. rewrite Eq. set_solver +.
Qed.

Lemma push_good j p ks :
  clients σ !! j = Some (L146 p, ks) → good q P tr σ (tpool_add_work 0 j (L146 p) σ).
Proof.
  intros E. pose proof HI as [HP Hs HL HM Hok Hcs Hw Hf Hr].
  assert (pc_of σ (C j) = Some (CP (L146 p))) as Epc by (simpl; by rewrite E).
  pose proof (Hok _ _ Epc) as (Ho & Hp & v & Hv & Hn). simpl. unfold work_at. rewrite Hv. simpl.
  destruct (append_ok p (C j) Ho Hp ltac:(eauto)) as (σ' & P' & -> & HP' & Hs' & Hi & En & Ee & Eo & Ew & Ec & HM' & Hct & Hh).
  simpl. exists (<[p := None]> own), (q ++ [p]), P'. split.
  2:{ pose proof (weight_c (length (q ++ [p])) P j _ _ L159 σ E) as Hd. rewrite length_app in *.
      unfold weight in *. simpl in *. rewrite En, Ee, Ew, Ec. lia. }
  apply (Inv_step HI _ _ _ _ _ (C j) (CP (L146 p)) (CP L159)); auto.
  - split; [|intros t Hne]; simpl.
    + by rewrite Ec, list_lookup_alter_eq, E.
    + destruct t as [k|k]; simpl; [by rewrite Ew|]. by rewrite Ec, list_lookup_alter_ne by congruence.
  - left. by simpl; rewrite Eo.
  - by rewrite Hi.
  - right. by apply (owner_crit HI _ _ Epc).
  - intros b t' Hne Hb. simpl. assert (p ≠ b) by congruence. rewrite lookup_insert_ne by done.
    split; [done|]. apply Hh. by apply (mem_held HM b t').
  - done.
  - apply calls_c. by rewrite Ec.
  - apply (Wake_push j (L146 p, ks)). by rewrite Ec.
  - destruct (trace_take (tr := tr) (EPush (routine v) (arg v))) as [-> ->]. rewrite <- Hf. simpl.
    rewrite app_nil_r, fmap_app, <- app_assoc. f_equal. simpl. f_equal.
    + apply list_fmap_ext. auto.
    + rewrite Hct. unfold content. by rewrite Hv.
  - done.
  - done.
Qed.

Lemma signalled j ks σ1 own1 q1 P1 :
  Inv own1 q1 P1 tr σ1 → clients σ1 !! j = Some (L159, ks) → ¬ (q1 ≠ [] ∧ workers σ1 ≠ [] ∧ Forall (λ pc, pc = L20z) (workers σ1)) →
  Inv own1 q1 P1 (tr ++ [ETau]) (cgoto j L160 σ1).
Proof.
  intros H1 E Hn. apply (Inv_quiet H1 ETau _ (C j) (CP L159) (CP L160)); try done.
  - simpl. by rewrite E.
  - by apply (moves_c j (L159, ks)).
  - by left.
  - apply H1.
  - apply calls_c, H1.
  - intros Hq Hz. left. simpl in *. destruct (decide (Exists (λ pc, pc ≠ L20z) (workers σ1))) as [Hx|Hx].
    + apply Exists_exists in Hx as (pc & Hpc & Hne). apply list_elem_of_lookup_1 in Hpc as [i Hi]. eauto.
    + exfalso. apply Hn. split; [done|]. split; [intros E0; rewrite E0 in Hz; by apply elem_of_nil in Hz|].
      apply not_Exists_Forall in Hx; [|apply _]. eapply Forall_impl; [exact Hx|]. simpl. intros pc Hpc.
      by destruct (decide (pc = L20z)).
Qed.

Lemma signal_good c j ks :
  clients σ !! j = Some (L159, ks) → good q P tr σ (tpool_add_work c j L159 σ).
Proof.
  intros E. simpl. unfold pthread_cond_signal. rewrite (pool_ok HI). simpl.
  destruct (decide (L20z ∈ workers σ)) as [Hz|Hz]; [destruct (decide (workers σ !! c = Some L20z)) as [Hc|]; [|done]|]; simpl.
  - exists own, q, P. split.
    + apply (signalled j ks); [by apply Inv_wakeup|done|]. intros (_ & _ & Ha). simpl in Ha.
      rewrite Forall_lookup in Ha. specialize (Ha c L20w).
      rewrite list_lookup_insert_eq in Ha by (by eapply lookup_lt_Some). by specialize (Ha eq_refl).
    + pose proof (weight_w (length q) P c _ L20w σ Hc). pose proof (weight_c (length q) P j _ _ L160 (wgoto c L20w σ) E).
      simpl in *. lia.
  - exists own, q, P. split.
    + apply (signalled j ks); [done..|]. intros (_ & Hw & Ha). destruct (workers σ) as [|pc ws]; [done|].
      apply Forall_cons in Ha as [-> _]. apply Hz. by left.
    + pose proof (weight_c (length q) P j _ _ L160 σ E). simpl in *. lia.
Qed.

Lemma exit_good e : quiet e → exited σ = false → next_ok q P tr σ e (exit1 σ).
Proof.
  intros He Hx. exists own, q, P. split; [|unfold weight; rewrite Hx; simpl; lia].
  apply Inv_event; [done|]. pose proof HI as [? ? ? ? ? ? ? ? ?]. by split.
Qed.

Lemma create_good c j i ks :
  exited σ = false → clients σ !! j = Some (L72 i, ks) → good q P tr σ (tpool_create c j (L72 i) σ).
Proof.
  intros Hx E. assert (pc_of σ (C j) = Some (CP (L72 i))) as Epc by (simpl; by rewrite E).
  destruct (i_ok _ _ _ _ _ HI _ _ Epc) as [ids Hids]. simpl. rewrite (pool_ok HI). simpl.
  destruct (Z.ltb_spec (Z.of_nat i) (max_thr_num P)) as [Hi|Hi].
  - destruct (decide (c = 0%nat)); [by apply exit_good|]. rewrite Hids.
    set (ids' := <[i := length (workers σ)]> ids).
    exists own, q, (set_thr_id (Some ids') P). split.
    + apply (Inv_spawn own q _ _ (set_tpool (set_thr_id (Some ids') P) (cgoto j (L72 (S i)) σ))), Inv_thr_id.
      apply (Inv_quiet HI ETau _ (C j) (CP (L72 i)) (CP (L72 (S i)))); try done.
      * by apply (moves_c j (L72 i, ks)).
      * by left.
      * apply HI.
      * simpl. by rewrite Hids.
      * apply calls_c, HI.
      * apply (Wake_c j (L72 i, ks)); [done|done|apply HI].
    + pose proof (weight_c (length q) P j _ _ (L72 (S i)) σ E) as Hw. unfold weight in *. simpl in *.
      rewrite sum_list_with_app. simpl. lia.
  - apply (quiet_c_same HI j (L72 i) ks); try done. simpl. lia.
Qed.

Lemma client_good c j : exited σ = false → good q P tr σ (client_step c j σ).
Proof.
  intros Hx. unfold client_step. destruct (clients σ !! j) as [[pc ks]|] eqn:E; [|done].
  assert (pc_of σ (C j) = Some (CP pc)) as Epc by (simpl; by rewrite E).
  pose proof (i_ok _ _ _ _ _ HI _ _ Epc) as Hok.
  destruct pc; simpl in Hok; try done.
  - destruct ks as [|k ks]; [done|]. by apply call_good.
  - by apply (create_good c j i ks).
  - simpl. destruct (r =? NULL); apply (quiet_c_same HI j (L129 r a) ks); try done; simpl; lia.
  - simpl. destruct (Z.eqb_spec (Z.of_nat c) NULL).
    + apply (quiet_c_same HI j (L134 r a) ks); try done; simpl; lia.
    + case_decide; [|done]. by apply (alloc_good j r a ks).
  - simpl. destruct (lock_cases HI (C j)) as [->|[Ho ->]]; [done|]. simpl.
    apply (quiet_c HI j (L145 work) ks); try done; [right; by left|simpl; lia].
  - exact (push_good j work ks E).
  - by apply (signal_good c j ks).
  - simpl. rewrite (unlock_ok HI _ _ Epc eq_refl). simpl. apply (quiet_c HI j L160 ks); try done; [|simpl; lia].
    right. right. by split; [apply (owner_crit HI _ _ Epc)|].
Qed.
End clients.

Lemma step_good own q P tr σ t c :
  Inv own q P tr σ → good q P tr σ (step (Run t c) σ).
Proof.
  intros HI. unfold step. destruct (exited σ) eqn:Ex; [done|]. destruct t as [i|j].
  - destruct (workers σ !! i) as [pc|] eqn:E; [|done]. by apply (worker_good HI).
  - by apply (client_good HI).
Qed.

Lemma step_inv own q P tr σ s :
  Inv own q P tr σ →
  match step s σ with
  | Blocked => True
  | Fault => False
  | Done (e, σ') => ∃ own' q' P', Inv own' q' P' (tr ++ [e]) σ'
  end.
Proof.
  intros HI. destruct s as [t c|i].
  - pose proof (step_good own q P tr σ t c HI) as H. destruct (step _ _) as [| |[e σ']]; [done..|].
    destruct H as (? & ? & ? & ? & _). eauto.
  - unfold step. destruct (exited σ); [done|]. case_decide as E; [|done].
    exists own, q, P. apply Inv_event; [done|]. by apply Inv_wakeup.
Qed.

Lemma run_inv ss own q P tr σ :
  Inv own q P tr σ →
  match run ss σ with
  | Blocked => True
  | Fault => False
  | Done (es, σ') => ∃ own' q' P', Inv own' q' P' (tr ++ es) σ'
  end.
Proof.
  revert own q P tr σ. induction ss as [|s ss IH]; intros own q P tr σ HI; simpl.
  - exists own, q, P. by rewrite app_nil_r.
  - pose proof (step_inv own q P tr σ s HI) as H. destruct (step s σ) as [| |[e σ1]]; [done..|]. simpl.
    destruct H as (own1 & q1 & P1 & H). specialize (IH _ _ _ _ _ H).
    destruct (run ss σ1) as [| |[es σ2]]; [done..|]. simpl. by rewrite <- app_assoc in IH.
Qed.

Lemma inv_measure own q P tr σ : Inv own q P tr σ → measure σ = weight (length q) P σ ∧
  queued σ = content (works σ) <$> q.
Proof.
  intros HI. pose proof (i_mem _ _ _ _ _ HI) as HM. unfold measure, queued. rewrite (i_pool _ _ _ _ _ HI).
  rewrite (chain_collect _ _ _ q); [by rewrite length_fmap|apply HM|].
  apply (chain_size _ (queue_head P)); apply HM.
Qed.

(** ** The threads that were created stay *)
Definition Crew (n : Z) (σ : state) : Prop :=
  (∃ P, tpool σ = Some P ∧ max_thr_num P = n) ∧
  (workers σ ≠ [] ∨ (∃ ks, clients σ !! 0%nat = Some (L72 0, ks)) ∨ exited σ = true).

Lemma crew_workers n σ σ' :
  Crew n σ → tpool σ' = tpool σ → length (workers σ') = length (workers σ) → clients σ' = clients σ →
  exited σ' = exited σ → Crew n σ'.
Proof.
  intros [HP HC] EP Ew Ec Ee. split; [by rewrite EP|]. rewrite Ec, Ee. destruct HC as [Hw|HC]; [left|by right].
  intros E. rewrite E in Ew. by destruct (workers σ).
Qed.

Lemma crew_client n σ σ' j pc ks pc' :
  Crew n σ → clients σ !! j = Some (pc, ks) → (∀ i, pc ≠ L72 i) →
  (∃ P, tpool σ' = Some P ∧ max_thr_num P = n) → length (workers σ') = length (workers σ) →
  (∀ k, k ≠ j → clients σ' !! k = clients σ !! k) → exited σ' = exited σ →
  Crew n (cgoto j pc' σ').
Proof.
  intros [_ HC] E Hn HP Ew Ec Ee. split; [done|]. simpl. rewrite Ee. destruct HC as [Hw|[[l Hl]|Hx]]; [left|right; left|by right; right].
  - intros E0. rewrite E0 in Ew. by destruct (workers σ).
  - assert (j ≠ 0%nat) by (intros ->; rewrite E in Hl; injection Hl as -> _; by apply (Hn 0%nat)).
    exists l. by rewrite list_lookup_alter_ne, Ec.
Qed.

Ltac crew_pool :=
  unfold pthread_mutex_lock, pthread_mutex_unlock, pthread_cond_signal, pool, work_at, free_work;
  match goal with EP : tpool _ = Some _ |- _ => rewrite ?EP end; cbn [mbind out_bind].

Lemma worker_crew n i pc σ e σ' :
  Crew n σ → workers σ !! i = Some pc → thread_routine i pc σ = Done (e, σ') → Crew n σ'.
Proof.
  intros HC E. pose proof HC as [(P & EP & En) _].
  assert (workers σ ≠ []) as Hw by (intros E0; by rewrite E0 in E).
  assert (∀ σ1 pc1, (∃ P, tpool σ1 = Some P ∧ max_thr_num P = n) → workers σ1 = workers σ → Crew n (wgoto i pc1 σ1)) as Hg.
  { intros σ1 pc1 HP1 Hw1. split; [done|]. left. simpl. rewrite Hw1. intros E0.
    apply (f_equal length) in E0. rewrite length_insert in E0. by destruct (workers σ). }
  unfold thread_routine. crew_pool.
  destruct pc; try done; repeat case_match; intros; simplify_eq/=; apply Hg; simpl; eauto.
Qed.

Lemma create_crew n c j i ks σ e σ' :
  1 ≤ n → Crew n σ → clients σ !! j = Some (L72 i, ks) → tpool_create c j (L72 i) σ = Done (e, σ') → Crew n σ'.
Proof.
  intros Hn [(P & EP & En) HC] E. unfold tpool_create. crew_pool.
  destruct (Z.ltb_spec (Z.of_nat i) (max_thr_num P)) as [Hi|Hi].
  - case_decide; [intros [= <- <-]; split; [eauto|by right; right]|]. case_match; [|done].
    intros [= <- <-]. split; simpl; [eauto|]. left. by destruct (workers σ).
  - intros [= <- <-]. split; simpl; [eauto|]. destruct HC as [Hw|[[l Hl]|Hx]]; [by left| |by right; right].
    right. left. exists l. rewrite list_lookup_alter_ne; [done|]. intros ->. rewrite E in Hl.
    injection Hl as -> _. lia.
Qed.

Lemma add_crew n c j pc ks σ e σ' :
  Crew n σ → clients σ !! j = Some (pc, ks) → tpool_add_work c j pc σ = Done (e, σ') → Crew n σ'.
Proof.
  intros HC E. pose proof HC as [(P & EP & En) _]. unfold tpool_add_work, append_work. crew_pool.
  destruct pc; try done.
  - case_match; intros [= <- <-]; eapply crew_client; eauto.
  - repeat case_match; intros; simplify_eq/=; eapply crew_client; eauto.
  - repeat case_match; intros; simplify_eq/=; eapply crew_client; eauto.
  - destruct (works σ !! work) as [w|]; [|done]. cbn [mbind out_bind].
    destruct (queue_head P =? NULL); [|destruct (last_work _ _ _)]; try done; cbn [mbind out_bind];
      intros; simplify_eq; eapply crew_client; eauto; simpl; eauto.
  - repeat case_match; intros; simplify_eq/=; eapply crew_client; eauto; simpl; try done. by rewrite length_insert.
  - repeat case_match; intros; simplify_eq/=; eapply crew_client; eauto.
Qed.

Lemma step_crew n s own q P tr σ e σ' :
  1 ≤ n → Inv own q P tr σ → Crew n σ → step s σ = Done (e, σ') → Crew n σ'.
Proof.
  intros Hn HI HC. unfold step. destruct (exited σ) eqn:Ex; [done|]. destruct s as [[i|j] c|i].
  - destruct (workers σ !! i) eqn:E; [|done]. by apply worker_crew.
  - unfold client_step. destruct (clients σ !! j) as [[pc ks]|] eqn:E; [|done].
    assert (pc_of σ (C j) = Some (CP pc)) as Epc by (simpl; by rewrite E).
    pose proof (i_ok _ _ _ _ _ HI _ _ Epc) as Hok. destruct pc; simpl in Hok; try done;
      try (by eapply add_crew); try (by eapply create_crew).
    destruct ks as [|k ks]; [done|]. intros [= <- <-]. destruct HC as [HP HC]. split; [done|]. simpl.
    destruct HC as [Hw|[[l Hl]|Hx]]; [by left|right; left|by right; right].
    exists l. rewrite list_lookup_insert_ne; [done|]. intros ->. congruence.
  - case_decide as E; [|done]. intros [= <- <-]. apply (crew_workers n σ); auto. simpl. apply length_insert.
Qed.

(** ** Runs of the pool

    [created n calls css]: [tpool_create n] is about to create its threads;
    [calls] are the later calls of the thread that runs it and [css] those of
    other threads. *)
Definition created (n : Z) (calls : list call) (css : list (list call)) : state :=
  mk_state (Some (mk_tpool 0 n (Some (replicate (Z.to_nat n) 0%nat)) NULL)) None ∅ []
    ((L72 0, calls) :: ((λ ks, (Idle, ks)) <$> css)) false.

Definition start (calls : list call) (css : list (list call)) : state :=
  mk_state None None ∅ [] ((Idle, calls) :: ((λ ks, (Idle, ks)) <$> css)) false.

Lemma create_starts n calls css c :
  0 ≤ n → c ≠ 0%nat →
  run (replicate 5 (Run (C 0) c)) (start (CCreate n :: calls) css) = Done (replicate 5 ETau, created n calls css).
Proof.
  intros Hn Hc. destruct c as [|c]; [done|]. simpl.
  by destruct n; [..|lia].
Qed.

Lemma created_inv n calls css :
  Forall is_add calls → Forall (Forall is_add) css →
  Inv ∅ [] (mk_tpool 0 n (Some (replicate (Z.to_nat n) 0%nat)) NULL) [] (created n calls css).
Proof.
  intros Hc Hcs. split; try done.
  - intros [i|j]; unfold critical; simpl; [done|]. split; [|done].
    destruct j as [|j]; [done|]. simpl. rewrite list_lookup_fmap. by destruct (css !! j).
  - split; simpl.
    + done.
    + apply NoDup_nil_2.
    + intros a. rewrite lookup_empty, elem_of_nil. naive_solver.
    + intros a. by rewrite !lookup_empty.
  - intros [i|[|j]] pc; simpl; [done|intros [= <-]; by eexists|].
    rewrite list_lookup_fmap. destruct (css !! j); [|done]. by intros [= <-].
  - intros [|j] c; simpl; [by intros [= <-]|]. rewrite list_lookup_fmap. destruct (css !! j) eqn:E; [|done].
    intros [= <-]. simpl. by apply (Forall_lookup_1 _ _ _ _ Hcs E).
  - by intros H.
Qed.

Lemma created_crew n calls css : Crew n (created n calls css).
Proof. split; [by eexists|]. right. left. by exists calls. Qed.

Lemma run_crew ss n own q P tr σ es σ' :
  1 ≤ n → Inv own q P tr σ → Crew n σ → run ss σ = Done (es, σ') → Crew n σ'.
Proof.
  intros Hn. revert own q P tr σ es. induction ss as [|s ss IH]; intros own q P tr σ es HI HC; simpl.
  { by intros [= _ <-]. }
  pose proof (step_inv own q P tr σ s HI) as H. destruct (step s σ) as [| |[e σ1]] eqn:E; [done..|]. simpl.
  destruct (run ss σ1) as [| |[es1 σ2]] eqn:Er; [done..|]. simpl. intros [= _ <-].
  destruct H as (own1 & q1 & P1 & H). apply (IH _ _ _ _ σ1 es1 H); [|done].
  exact (step_crew n s own q P tr σ e σ1 Hn HI HC E).
Qed.

(** *** No run goes on for ever *)
Definition is_run (s : sched) : Prop := match s with Run _ _ => True | Spurious _ => False end.

Lemma run_length ss own q P tr σ es σ' :
  Inv own q P tr σ → Forall is_run ss → run ss σ = Done (es, σ') → (length ss ≤ weight (length q) P σ)%nat.
Proof.
  revert own q P tr σ es. induction ss as [|s ss IH]; intros own q P tr σ es HI Hs; simpl; [lia|].
  apply Forall_cons in Hs as [Hs Hss]. destruct s as [t c|]; [|done].
  pose proof (step_good own q P tr σ t c HI) as H. destruct (step _ σ) as [| |[e σ1]]; [done..|].
  destruct H as (own1 & q1 & P1 & H & Hlt). simpl.
  destruct (run ss σ1) as [| |[es1 σ2]] eqn:Er; [done..|]. simpl. intros [= _ ->].
  specialize (IH _ _ _ _ _ _ H Hss Er). lia.
Qed.

(** *** Where no thread can move, all work is done *)
Section quiescent.
Context {own : gmap Z (option tid)} {q : list Z} {P : tpool_t} {tr : list event} {σ : state}.
Hypothesis HI : Inv own q P tr σ.
Hypothesis Hx : exited σ = false.
Hypothesis HB : ∀ t c, step (Run t c) σ = Blocked.

Lemma blocked_w i pc : workers σ !! i = Some pc → thread_routine i pc σ = Blocked.
Proof. intros E. pose proof (HB (W i) 0%nat) as H. unfold step in H. by rewrite Hx, E in H. Qed.

Lemma blocked_c c j : client_step c j σ = Blocked.
Proof. pose proof (HB (C j) c) as H. unfold step in H. by rewrite Hx in H. Qed.

Lemma no_owner_w i : owner σ ≠ Some (W i).
Proof.
  intros Ho%(i_locks _ _ _ _ _ HI). unfold critical in Ho. destruct (pc_of σ (W i)) as [pc|] eqn:Epc; [|done].
  simpl in Epc. destruct (workers σ !! i) as [wp|] eqn:E; [|done]. injection Epc as <-.
  assert (pc_of σ (W i) = Some (WP wp)) as Epc by (simpl; by rewrite E).
  pose proof (blocked_w i wp E) as H.
  destruct wp; try done; simpl in H; rewrite ?(pool_ok HI), ?(unlock_ok HI _ _ Epc eq_refl) in H; try done.
  simpl in H. unfold work_at in H. by destruct (works σ !! queue_head P).
Qed.

Lemma no_owner_c j : owner σ ≠ Some (C j).
Proof.
  intros Ho%(i_locks _ _ _ _ _ HI). unfold critical in Ho. destruct (pc_of σ (C j)) as [pc|] eqn:Epc; [|done].
  simpl in Epc. destruct (clients σ !! j) as [[cp ks]|] eqn:E; [|done]. injection Epc as <-.
  assert (pc_of σ (C j) = Some (CP cp)) as Epc by (simpl; by rewrite E).
  pose proof (i_ok _ _ _ _ _ HI _ _ Epc) as Hok. pose proof (λ c, blocked_c c j) as H.
  unfold client_step in H. rewrite E in H. destruct cp; try done; simpl in H.
  - destruct Hok as (Ho' & Hn & Hw). specialize (H 0%nat).
    destruct (append_ok HI work (C j) Ho' Hn Hw) as (σ' & P' & Ea & _). destruct Hw as (w & Hw & _).
    unfold work_at in H. rewrite Hw in H. simpl in H. by rewrite Ea in H.
  - unfold pthread_cond_signal in H. rewrite (pool_ok HI) in H. simpl in H.
    destruct (decide (L20z ∈ workers σ)) as [Hz|]; [|by specialize (H 0%nat)].
    apply list_elem_of_lookup_1 in Hz as [c Hc]. specialize (H c). by rewrite decide_True in H by done.
  - specialize (H 0%nat). by rewrite (unlock_ok HI _ _ Epc eq_refl) in H.
Qed.

Lemma no_owner : owner σ = None.
Proof.
  destruct (owner σ) as [[i|j]|] eqn:E; [by destruct (no_owner_w i)|by destruct (no_owner_c j)|done].
Qed.

Lemma lock_free t : pthread_mutex_lock t σ = Done (set_owner (Some t) σ).
Proof. unfold pthread_mutex_lock. by rewrite (pool_ok HI), no_owner. Qed.

Lemma all_asleep i pc : workers σ !! i = Some pc → pc = L20z.
Proof.
  intros E. assert (pc_of σ (W i) = Some (WP pc)) as Epc by (simpl; by rewrite E).
  pose proof (blocked_w i pc E) as H. pose proof (i_ok _ _ _ _ _ HI _ _ Epc) as Hok.
  assert (crit (WP pc) = false) as Hc.
  { destruct (crit (WP pc)) eqn:Hc; [|done]. pose proof (owner_crit HI _ _ Epc Hc) as Ho.
    by rewrite no_owner in Ho. }
  destruct pc; try done; simpl in H; rewrite ?lock_free in H; try done.
  - unfold work_at in H. by destruct (works σ !! work).
  - unfold free_work in H. by destruct (works σ !! work).
Qed.

Lemma all_returned j c : clients σ !! j = Some c → c = (Idle, []).
Proof.
  destruct c as [pc ks]. intros E. assert (pc_of σ (C j) = Some (CP pc)) as Epc by (simpl; by rewrite E).
  pose proof (blocked_c 0%nat j) as H. pose proof (i_ok _ _ _ _ _ HI _ _ Epc) as Hok.
  assert (crit (CP pc) = false) as Hc.
  { destruct (crit (CP pc)) eqn:Hc; [|done]. pose proof (owner_crit HI _ _ Epc Hc) as Ho.
    by rewrite no_owner in Ho. }
  unfold client_step in H. rewrite E in H.
  destruct pc; try done; simpl in H; rewrite ?lock_free, ?(pool_ok HI) in H; try done.
  - by destruct ks.
  - simpl in H. by destruct (_ <? _).
  - by destruct (r =? NULL).
Qed.

Lemma queue_empty n : 1 ≤ n → Crew n σ → q = [].
Proof.
  intros Hn [_ HC]. destruct (decide (q = [])) as [|Hq]; [done|]. exfalso.
  assert (workers σ ≠ []) as Hw.
  { destruct HC as [?|[[ks Hk]|?]]; [done| |congruence]. by apply all_returned in Hk. }
  destruct (workers σ) as [|pc ws] eqn:Ew; [done|].
  assert (pc = L20z) as -> by (apply (all_asleep 0%nat); by rewrite Ew).
  destruct (i_wake _ _ _ _ _ HI Hq) as [(i & pc & Hi & Hne)|(j & ks & Hj)].
  - rewrite Ew. by left.
  - by apply all_asleep in Hi.
  - by apply all_returned in Hj.
Qed.
End quiescent.

(** ** tpool_create and tpool_destroy, run by one thread *)
Lemma run_app ss1 ss2 σ es1 σ1 es2 σ2 :
  run ss1 σ = Done (es1, σ1) → run ss2 σ1 = Done (es2, σ2) → run (ss1 ++ ss2) σ = Done (es1 ++ es2, σ2).
Proof.
  revert σ es1. induction ss1 as [|s ss1 IH]; intros σ es1; simpl; [by intros [= <- <-]|].
  destruct (step s σ) as [| |[e σ0]]; [done..|]. simpl.
  destruct (run ss1 σ0) as [| |[es0 σ3]] eqn:E; [done..|]. simpl. intros [= <- ->] H2.
  by rewrite (IH σ0 es0 E H2).
Qed.

Lemma run_cons s ss σ e σ1 es σ2 :
  step s σ = Done (e, σ1) → run ss σ1 = Done (es, σ2) → run (s :: ss) σ = Done (e :: es, σ2).
Proof. intros E1 E2. simpl. rewrite E1. simpl. by rewrite E2. Qed.

Definition creating (n : Z) (i : nat) (ids : list nat) (calls : list call) : state :=
  mk_state (Some (mk_tpool 0 n (Some ids) NULL)) None ∅ (replicate i L17) [(L72 i, calls)] false.

Lemma create_loop k n i ids calls :
  n = Z.of_nat (i + k) → length ids = (i + k)%nat →
  ∃ ids', run (replicate k (Run (C 0) 1)) (creating n i ids calls) =
      Done (replicate k ETau, creating n (i + k) ids' calls) ∧ length ids' = (i + k)%nat.
Proof.
  revert i ids. induction k as [|k IH]; intros i ids Hn Hl.
  { exists ids. by rewrite Nat.add_0_r in *. }
  destruct (IH (S i) (<[i := i]> ids)) as (ids' & H & Hl'); [lia|rewrite length_insert; lia|].
  exists ids'. rewrite <- Nat.add_succ_comm. split; [|done].
  change (replicate (S k) (Run (C 0) 1)) with (Run (C 0) 1 :: replicate k (Run (C 0) 1)).
  apply (run_cons _ _ _ _ (creating n (S i) (<[i := i]> ids) calls)); [|done].
  cbn -[Z.ltb Z.of_nat replicate]. rewrite (proj2 (Z.ltb_lt _ _)) by lia. simpl. rewrite length_replicate.
  unfold creating. by rewrite replicate_S_end.
Qed.

(** [tpool_create n] returns 0 with [n] workers. *)
Lemma create_returns n calls :
  0 ≤ n →
  ∃ ss tr ids, run ss (start (CCreate n :: calls) []) =
    Done (tr, mk_state (Some (mk_tpool 0 n (Some ids) NULL)) None ∅ (replicate (Z.to_nat n) L17) [(Idle, calls)] false) ∧
    length ids = Z.to_nat n ∧ last tr = Some (ERet 0 0).
Proof.
  intros Hn. destruct (create_loop (Z.to_nat n) n 0 (replicate (Z.to_nat n) 0%nat) calls) as (ids & H & Hl);
    [lia|by rewrite length_replicate|].
  set (fin := mk_state (Some (mk_tpool 0 n (Some ids) NULL)) None ∅ (replicate (Z.to_nat n) L17) [(Idle, calls)] false).
  assert (run [Run (C 0) 1] (creating n (Z.to_nat n) ids calls) = Done ([ERet 0 0], fin)) as Hf.
  { cbn -[Z.ltb Z.of_nat]. by rewrite (proj2 (Z.ltb_ge _ _)) by lia. }
  pose proof (run_app _ _ _ _ _ _ _ (create_starts n calls [] 1 Hn ltac:(lia)) (run_app _ _ _ _ _ _ _ H Hf)) as HH.
  eexists _, _, ids. split; [exact HH|]. split; [done|]. by rewrite app_assoc, last_snoc.
Qed.

Lemma destroy_returns n ids ws calls :
  0 ≤ n → length ids = Z.to_nat n →
  ∃ ss tr ws', run ss (mk_state (Some (mk_tpool 0 n (Some ids) NULL)) None ∅ ws [(Idle, CDestroy :: calls)] false) =
    Done (tr, mk_state None None ∅ ws' [(Idle, calls)] false) ∧ ws' = wake <$> ws.
Proof.
  intros Hn Hl. set (ws' := wake <$> ws).
  set (σ0 := mk_state (Some (mk_tpool 0 n (Some ids) NULL)) None ∅ ws [(Idle, CDestroy :: calls)] false).
  set (jn := λ i, mk_state (Some (mk_tpool 1 n (Some ids) NULL)) None ∅ ws' [(L102 i, calls)] false).
  assert (run (replicate 6 (Run (C 0) 1)) σ0 = Done (replicate 6 ETau, jn 0%nat)) as H1 by done.
  assert (∀ k i, n = Z.of_nat (i + k) →
    run (replicate k (Run (C 0) 1)) (jn i) = Done (replicate k ETau, jn (i + k)%nat)) as H2.
  { induction k as [|k IH]; intros i Hk; [by rewrite Nat.add_0_r|]. rewrite <- Nat.add_succ_comm.
    change (replicate (S k) (Run (C 0) 1)) with (Run (C 0) 1 :: replicate k (Run (C 0) 1)).
    apply (run_cons _ _ _ _ (jn (S i))); [|apply IH; lia].
    cbn -[Z.ltb Z.of_nat]. rewrite (proj2 (Z.ltb_lt _ _)) by lia. simpl.
    destruct (lookup_lt_is_Some_2 ids i) as [x ->]; [lia|]. done. }
  specialize (H2 (Z.to_nat n) 0%nat ltac:(lia)).
  assert (∃ tr, run (replicate 6 (Run (C 0) 1)) (jn (0 + Z.to_nat n)%nat) =
    Done (tr, mk_state None None ∅ ws' [(Idle, calls)] false)) as [tr H3].
  { eexists. cbn -[Z.ltb Z.of_nat]. by rewrite (proj2 (Z.ltb_ge _ _)) by lia. }
  pose proof (run_app _ _ _ _ _ _ _ H1 (run_app _ _ _ _ _ _ _ H2 H3)) as HH.
  eexists _, _, ws'. split; [exact HH|done].
Qed.

(** ** The properties *)

(** C3: Whatever the scheduler does, with any number of clients that only add
    work, no thread accesses memory that is not allocated, at most one thread
    is between a lock and its unlock, the works taken are exactly the first
    ones accepted, in order, and each worker runs the works it took, in order
    and once each. *)
Theorem tpool_safe n calls css ss :
  Forall is_add calls → Forall (Forall is_add) css →
  match run ss (created n calls css) with
  | Blocked => True
  | Fault => False
  | Done (tr, σ) =>
      (∀ t t', critical σ t = true → critical σ t' = true → t = t') ∧
      takes tr ++ queued σ = pushes tr ∧
      ∀ i, runs_of i tr ++ pending (works σ) (workers σ !! i) = takes_of i tr
  end.
Proof.
  intros Hc Hcs. pose proof (run_inv ss _ _ _ _ _ (created_inv n calls css Hc Hcs)) as H.
  destruct (run ss _) as [| |[tr σ]]; [done..|]. destruct H as (own & q & P & HI). simpl in HI.
  split; [|split; [|apply HI]].
  - intros t t' Ht%(i_locks _ _ _ _ _ HI) Ht'%(i_locks _ _ _ _ _ HI). congruence.
  - rewrite (proj2 (inv_measure _ _ _ _ _ HI)). apply HI.
Qed.

Lemma tpool_safe_witness :
  match run (replicate 3 (Run (C 0) 1)) (created 1 [CAdd 7 8] [[CAdd 7 9]]) with
  | Blocked => True
  | Fault => False
  | Done (tr, σ) =>
      (∀ t t', critical σ t = true → critical σ t' = true → t = t') ∧
      takes tr ++ queued σ = pushes tr ∧
      ∀ i, runs_of i tr ++ pending (works σ) (workers σ !! i) = takes_of i tr
  end.
Proof. apply (tpool_safe 1 [CAdd 7 8] [[CAdd 7 9]]); repeat constructor. Defined.

(** C8: From every state the pool can reach, any run without spurious
    wake-ups has at most [measure] steps, and where no thread can move any
    more every call has returned, every worker sleeps, the queue is empty and
    every accepted work has been taken and run by the worker that took it. *)
Theorem tpool_live n calls css ss tr σ :
  1 ≤ n → Forall is_add calls → Forall (Forall is_add) css →
  run ss (created n calls css) = Done (tr, σ) →
  (∀ ss' tr' σ', Forall is_run ss' → run ss' σ = Done (tr', σ') → (length ss' ≤ measure σ)%nat) ∧
  (exited σ = false → (∀ t c, step (Run t c) σ = Blocked) →
     Forall (λ c, c = (Idle, [])) (clients σ) ∧ Forall (λ pc, pc = L20z) (workers σ) ∧
     queued σ = [] ∧ takes tr = pushes tr ∧ ∀ i, runs_of i tr = takes_of i tr).
Proof.
  intros Hn Hc Hcs Hr. pose proof (created_inv n calls css Hc Hcs) as H0.
  pose proof (run_inv ss _ _ _ _ _ H0) as H. rewrite Hr in H. destruct H as (own & q & P & HI). simpl in HI.
  destruct (inv_measure _ _ _ _ _ HI) as [Hm Hq]. split.
  - intros ss' tr' σ' Hs Hr'. rewrite Hm. by apply (run_length ss' _ _ _ _ _ _ _ HI Hs Hr').
  - intros Hx HB. pose proof (run_crew ss n _ _ _ _ _ _ _ Hn H0 (created_crew n calls css) Hr) as HC.
    pose proof (queue_empty HI Hx HB n Hn HC) as E. rewrite Hq, E.
    assert (∀ i pc, workers σ !! i = Some pc → pc = L20z) as Hw by exact (all_asleep HI Hx HB).
    split; [apply Forall_lookup; exact (all_returned HI Hx HB)|]. split; [by apply Forall_lookup|].
    split; [done|]. split.
    + rewrite <- (i_fifo _ _ _ _ _ HI), E. simpl. by rewrite app_nil_r.
    + intros i. rewrite <- (i_runs _ _ _ _ _ HI i). destruct (workers σ !! i) as [pc|] eqn:Ei.
      * rewrite (Hw i pc Ei). simpl. by rewrite app_nil_r.
      * simpl. by rewrite app_nil_r.
Qed.

Lemma tpool_live_witness :
  run [] (created 2 [CAdd 7 8] []) = Done ([], created 2 [CAdd 7 8] []) ∧
  (∀ ss' tr' σ', Forall is_run ss' → run ss' (created 2 [CAdd 7 8] []) = Done (tr', σ') →
     (length ss' ≤ measure (created 2 [CAdd 7 8] []))%nat).
Proof.
  split; [reflexivity|].
  apply (tpool_live 2 [CAdd 7 8] [] [] [] (created 2 [CAdd 7 8] [])); [lia|repeat constructor..|reflexivity].
Defined.

(** C38: [tpool_destroy] does not wait for the workers: for every number of
    workers there is a run in which [tpool_create] and then [tpool_destroy]
    return and every worker accesses freed memory with its next step. *)
Theorem tpool_destroy_use_after_free n :
  1 ≤ n →
  ∃ ss tr σ, run ss (start [CCreate n; CDestroy] []) = Done (tr, σ) ∧ clients σ = [(Idle, [])] ∧
    ∀ i, (i < Z.to_nat n)%nat → step (Run (W i) 0) σ = Fault.
Proof.
  intros Hn. destruct (create_returns n [CDestroy]) as (ss1 & tr1 & ids & H1 & Hl & _); [lia|].
  destruct (destroy_returns n ids (replicate (Z.to_nat n) L17) [] ltac:(lia) Hl) as (ss2 & tr2 & ws & H2 & Hw).
  eexists _, _, _. split; [exact (run_app _ _ _ _ _ _ _ H1 H2)|]. split; [done|].
  intros i Hi. unfold step. simpl. rewrite Hw, list_lookup_fmap, lookup_replicate_2 by done. done.
Qed.

Lemma tpool_destroy_use_after_free_witness :
  ∃ ss tr σ, run ss (start [CCreate 2; CDestroy] []) = Done (tr, σ) ∧ clients σ = [(Idle, [])] ∧
    ∀ i, (i < Z.to_nat 2)%nat → step (Run (W i) 0) σ = Fault.
Proof. apply (tpool_destroy_use_after_free 2). lia. Defined.
