(* ===== verification/ProxyUtil.v ===== *)
(** * The containers of the proxy (socket/proxy/util.c, util.h)

    [fdlist] is the growing array of descriptors handed to poll, [collection]
    an array of pointers with null in the free slots.  Both are modelled with
    their arrays, every access is checked against the array, and both are
    shown to implement a list: appending for [fdlist], a bag with a stable
    order for [collection].  Fresh memory holds arbitrary values; malloc and
    realloc succeed. *)
From S2P Require Import Prelude CArr.

(** ** fdlist *)
Inductive fdowner := FD_LISTEN | FD_CLIENT | FD_SERVER.

#[export] Instance fdowner_eq_dec : EqDecision fdowner.
Proof. solve_decision. Defined.

Record pollfd := mk_pollfd { pfd : Z; pevents : Z; revents : Z }.

Record fdlist := mk_fdlist {
  count : Z; capacity : Z; owners : list fdowner; fds : list pollfd }.

(** The contents of fresh memory. *)
Class Junk := { junk_owner : fdowner; junk_pollfd : pollfd }.

Section fdlist.
Context `{Junk}.

Definition fdlist_create : fdlist :=
  mk_fdlist 0 4 (replicate 4 junk_owner) (replicate 4 junk_pollfd).

(** [realloc] keeps the old contents. *)
Definition fdlist_grow (l : fdlist) : fdlist :=
  if count l =? capacity l then
    let cap := capacity l * 2 in
    mk_fdlist (count l) cap (resize (Z.to_nat cap) junk_owner (owners l))
      (resize (Z.to_nat cap) junk_pollfd (fds l))
  else l.

Definition fdlist_add (owner : fdowner) (fd events : Z) : M fdlist unit := λ l,
  let l := fdlist_grow l in
  let i := Z.to_nat (count l) in
  if bool_decide (i < length (owners l) ∧ i < length (fds l))%nat && (0 <=? count l) then
    Ok ((), mk_fdlist (count l + 1) (capacity l) (<[i := owner]> (owners l))
              (<[i := mk_pollfd fd events 0]> (fds l)))
  else Err Segv.

Definition fdlist_free : M fdlist unit := λ _, Ok ((), mk_fdlist 0 0 [] []).

Definition fdlist_reset : M fdlist unit := λ l, Ok ((), mk_fdlist 0 (capacity l) (owners l) (fds l)).

(** What the list holds. *)
Definition entries (l : fdlist) : list (fdowner * pollfd) :=
  take (Z.to_nat (count l)) (zip (owners l) (fds l)).

Record fdlist_wf (l : fdlist) : Prop := {
  wf_count : 0 ≤ count l ≤ capacity l;
  wf_capacity : 4 ≤ capacity l;
  wf_owners : Z.of_nat (length (owners l)) = capacity l;
  wf_fds : Z.of_nat (length (fds l)) = capacity l }.

Lemma fdlist_create_ok : fdlist_wf fdlist_create ∧ entries fdlist_create = [].
Proof. by split; [split|]. Qed.

Lemma fdlist_reset_ok l :
  fdlist_wf l → ∃ l', fdlist_reset l = Ok ((), l') ∧ fdlist_wf l' ∧ entries l' = [] ∧ capacity l' = capacity l.
Proof. intros [? ? ? ?]. eexists. split; [done|]. split; [split; simpl; lia|done]. Qed.

Lemma fdlist_grow_ok l :
  fdlist_wf l →
  let l' := fdlist_grow l in
  fdlist_wf l' ∧ entries l' = entries l ∧ count l' = count l ∧ count l' < capacity l' ∧
  capacity l' = (if count l =? capacity l then capacity l * 2 else capacity l).
Proof.
  intros [Hc Hp Ho Hf] l'. subst l'. unfold fdlist_grow. destruct (Z.eqb_spec (count l) (capacity l)) as [E|E].
  - split; [split; simpl; rewrite ?length_resize; lia|]. split; [|simpl; lia].
    unfold entries. simpl. rewrite !zip_with_take, !take_resize_le by lia.
    by rewrite !resize_le by lia.
  - split; [by split|]. split; [done|]. split; [done|]. lia.
Qed.

Lemma fdlist_add_ok o fd ev l :
  fdlist_wf l →
  ∃ l', fdlist_add o fd ev l = Ok ((), l') ∧ fdlist_wf l' ∧
    entries l' = entries l ++ [(o, mk_pollfd fd ev 0)] ∧ count l' = count l + 1 ∧
    capacity l' = (if count l =? capacity l then capacity l * 2 else capacity l).
Proof.
  intros Hl. destruct (fdlist_grow_ok l Hl) as ([Hc Hp Ho Hf] & He & En & Hlt & Ecap).
  unfold fdlist_add. set (g := fdlist_grow l) in *.
  rewrite bool_decide_true by lia. rewrite (proj2 (Z.leb_le _ _)) by lia. simpl.
  eexists. split; [done|]. split; [split; simpl; rewrite ?length_insert; lia|].
  split; [|simpl; split; [lia|done]]. rewrite <- He. unfold entries. simpl.
  assert (Z.to_nat (count g) < length (zip (owners g) (fds g)))%nat as Hz by (rewrite length_zip_with; lia).
  replace (Z.to_nat (count g + 1)) with (S (Z.to_nat (count g))) by lia.
  rewrite <- insert_zip_with. rewrite (take_S_r _ _ (o, mk_pollfd fd ev 0)).
  - by rewrite take_insert_ge by lia.
  - by rewrite list_lookup_insert_eq.
Qed.

(** Adding a whole list of descriptors. *)
Fixpoint fdlist_adds (es : list (fdowner * (Z * Z))) : M fdlist unit :=
  match es with
  | [] => mret ()
  | (o, (fd, ev)) :: es => fdlist_add o fd ev;; fdlist_adds es
  end.

Definition as_entry (e : fdowner * (Z * Z)) : fdowner * pollfd := (e.1, mk_pollfd e.2.1 e.2.2 0).

Lemma fdlist_adds_ok es l :
  fdlist_wf l →
  ∃ l', fdlist_adds es l = Ok ((), l') ∧ fdlist_wf l' ∧ entries l' = entries l ++ (as_entry <$> es) ∧
    count l' = count l + Z.of_nat (length es) ∧
    (capacity l' = capacity l ∨ capacity l' < 2 * count l').
Proof.
  revert l. induction es as [|[o [fd ev]] es IH]; intros l Hl.
  - exists l. rewrite app_nil_r. repeat split; auto; try apply Hl. simpl. lia.
  - destruct (fdlist_add_ok o fd ev l Hl) as (l1 & E1 & Hl1 & He1 & Hn1 & Hc1).
    destruct (IH l1 Hl1) as (l2 & E2 & Hl2 & He2 & Hn2 & Hc2). exists l2. simpl.
    rewrite (bind_ok _ _ _ _ _ E1), E2. split; [done|]. split; [done|].
    split; [by rewrite He2, He1, <- app_assoc|]. split; [lia|].
    destruct Hl as [? ? _ _]. destruct (Z.eqb_spec (count l) (capacity l)); lia.
Qed.
End fdlist.

(** ** collection *)
Record collection := mk_collection { clist : arr; ccapacity : Z }.

Definition CAPACITY_STEP : Z := 8.

Definition collection_init : collection := mk_collection (replicate 8 NULL) CAPACITY_STEP.

Definition collection_free : M collection unit := λ _, Ok ((), mk_collection [] 0).

(** The loops run over the slots below [ccapacity]; [n] is the number of
    slots left. *)
Fixpoint find_slot (n : nat) (i : Z) (element : Z) (col : collection) : res (option Z) :=
  match n with
  | O => Ok None
  | S n =>
      match cget (clist col) i col with
      | Ok (p, _) => if p =? element then Ok (Some i) else find_slot n (i + 1) element col
      | Err e => Err e
      end
  end.

Definition cset (i v : Z) : M collection unit := λ col,
  match aset i v (clist col) with
  | Ok (_, l) => Ok ((), mk_collection l (ccapacity col))
  | Err e => Err e
  end.

Definition collection_add (element : Z) : M collection unit := λ col,
  match find_slot (Z.to_nat (ccapacity col)) 0 NULL col with
  | Ok (Some i) => cset i element col
  | Ok None =>
      let n := Z.to_nat (ccapacity col + CAPACITY_STEP) in
      let col := mk_collection (resize n NULL (clist col)) (ccapacity col) in
      (cset (ccapacity col) element;;
       modify (λ col, mk_collection (clist col) (ccapacity col + CAPACITY_STEP))) col
  | Err e => Err e
  end.

(** An absent element only causes a message. *)
Definition collection_remove (element : Z) : M collection unit := λ col,
  match find_slot (Z.to_nat (ccapacity col)) 0 element col with
  | Ok (Some i) => cset i NULL col
  | Ok None => Ok ((), col)
  | Err e => Err e
  end.

Fixpoint count_slots (n : nat) (i : Z) (cnt : Z) (col : collection) : res Z :=
  match n with
  | O => Ok cnt
  | S n =>
      match cget (clist col) i col with
      | Ok (p, _) => count_slots n (i + 1) (if p =? NULL then cnt else cnt + 1) col
      | Err e => Err e
      end
  end.

Definition collection_count (col : collection) : res Z :=
  count_slots (Z.to_nat (ccapacity col)) 0 0 col.

(** memcpy of [capacity] pointers. *)
Definition collection_copy (src : collection) : res collection :=
  if bool_decide (Z.to_nat (ccapacity src) ≤ length (clist src))%nat
  then Ok (mk_collection (take (Z.to_nat (ccapacity src)) (clist src)) (ccapacity src))
  else Err Segv.

(** [FOREACH ... ENDFOREACH] over a collection that is part of a larger
    state: the slots are read again at each turn; the body says whether to
    leave the loop. *)
Section foreach.
Context {S : Type} (get : S → collection).

Fixpoint FOREACH (n : nat) (i : Z) (body : Z → M S bool) : M S unit := λ s,
  match n with
  | O => Ok ((), s)
  | Datatypes.S n =>
      if i <? ccapacity (get s) then
        (p ← cget (clist (get s)) i;
         if p =? NULL then FOREACH n (i + 1) body
         else b ← body p; if b : bool then mret () else FOREACH n (i + 1) body) s
      else Ok ((), s)
  end.
End foreach.

(** What a collection holds, in the order of [FOREACH]. *)
Definition elements (col : collection) : list Z := filter (λ p, p ≠ NULL) (clist col).

Definition collection_wf (col : collection) : Prop := ccapacity col = Z.of_nat (length (clist col)).

Lemma find_slot_ok e col n i :
  (i + n = length (clist col))%nat →
  (∃ k, find_slot n (Z.of_nat i) e col = Ok (Some (Z.of_nat k)) ∧ (i ≤ k)%nat ∧ clist col !! k = Some e ∧
     ∀ j, (i ≤ j < k)%nat → clist col !! j ≠ Some e) ∨
  (find_slot n (Z.of_nat i) e col = Ok None ∧ ∀ j, (i ≤ j)%nat → clist col !! j ≠ Some e).
Proof.
  revert i. induction n as [|n IH]; intros i Hi; simpl.
  - right. split; [done|]. intros j Hj. rewrite lookup_ge_None_2 by lia. done.
  - destruct (lookup_lt_is_Some_2 (clist col) i) as [x Hx]; [lia|]. rewrite (cget_ok col _ i x Hx).
    destruct (Z.eqb_spec x e) as [->|Hne].
    + left. exists i. repeat split; auto. intros j Hj. lia.
    + replace (Z.of_nat i + 1) with (Z.of_nat (S i)) by lia.
      assert (∀ j k, (i ≤ j)%nat → ((S i ≤ j)%nat → clist col !! j ≠ Some e) → k = j → clist col !! k ≠ Some e) as Hj.
      { intros j k Hij Hs ->. destruct (decide (j = i)) as [->|]; [congruence|]. apply Hs. lia. }
      destruct (IH (S i) ltac:(lia)) as [(k & E & Hk & Hke & Hm)|(E & Hm)]; [left; exists k|right]; rewrite E.
      * split; [done|]. split; [lia|]. split; [done|]. intros j Hjk. apply (Hj j j); [lia| |done]. intros. apply Hm. lia.
      * split; [done|]. intros j Hij. apply (Hj j j); [lia| |done]. intros. apply Hm. lia.
Qed.

Lemma cset_ok (k : nat) v x l1 l2 col :
  clist col = l1 ++ x :: l2 → k = length l1 → cset (Z.of_nat k) v col = Ok ((), mk_collection (l1 ++ v :: l2) (ccapacity col)).
Proof. intros E ->. unfold cset. by rewrite E, (aset_app l1 l2 x v). Qed.

Lemma lookup_split {A} (l : list A) k x : l !! k = Some x → l = take k l ++ x :: drop (S k) l ∧ length (take k l) = k.
Proof.
  intros E. split; [symmetry; by apply take_drop_middle|]. rewrite length_take. apply lookup_lt_Some in E. lia.
Qed.

(** Adding: the first free slot, or a slot of the new part.  The others stay
    where they are. *)
Lemma collection_add_ok e col :
  collection_wf col → e ≠ NULL →
  ∃ col' l1 l2, collection_add e col = Ok ((), col') ∧ collection_wf col' ∧
    elements col = l1 ++ l2 ∧ elements col' = l1 ++ e :: l2.
Proof.
  intros Hw He. unfold collection_add, collection_wf in *.
  destruct (find_slot_ok NULL col (Z.to_nat (ccapacity col)) 0) as [(k & E & _ & Hk & _)|(E & Hn)]; [lia| |].
  - change (Z.of_nat 0) with 0 in E. rewrite E. destruct (lookup_split _ _ _ Hk) as [Es El].
    rewrite (cset_ok k e NULL _ _ col Es (eq_sym El)).
    set (a := take k (clist col)) in *. set (b := drop (S k) (clist col)) in *.
    exists (mk_collection (a ++ e :: b) (ccapacity col)), (elements (mk_collection a 0)), (elements (mk_collection b 0)).
    split; [done|]. split; [simpl; rewrite Hw, Es, !length_app; done|].
    unfold elements. rewrite Es. simpl. by rewrite !filter_app, !filter_cons, decide_False, decide_True by naive_solver.
  - change (Z.of_nat 0) with 0 in E. rewrite E.
    assert (resize (Z.to_nat (ccapacity col + CAPACITY_STEP)) NULL (clist col) = clist col ++ NULL :: replicate 7 NULL) as Er.
    { rewrite resize_ge by (unfold CAPACITY_STEP; lia). f_equal. change (NULL :: replicate 7 NULL) with (replicate 8 NULL).
      f_equal. unfold CAPACITY_STEP. lia. }
    rewrite Er.
    unfold mbind, M_bind. cbn [ccapacity]. rewrite Hw, (cset_ok (length (clist col)) e NULL (clist col) (replicate 7 NULL)) by done.
    eexists _, (elements col), []. split; [done|]. split.
    { cbn [clist ccapacity]. rewrite length_app. cbn [length]. rewrite length_replicate. unfold CAPACITY_STEP. lia. }
    rewrite app_nil_r. split; [done|]. unfold elements. cbn [clist]. rewrite filter_app, filter_cons, decide_True by done.
    done.
Qed.

Lemma collection_remove_ok e col :
  collection_wf col → e ≠ NULL →
  ∃ col', collection_remove e col = Ok ((), col') ∧ collection_wf col' ∧
    ((e ∉ elements col ∧ col' = col) ∨
     ∃ l1 l2, elements col = l1 ++ e :: l2 ∧ e ∉ l1 ∧ elements col' = l1 ++ l2).
Proof.
  intros Hw He. unfold collection_remove, collection_wf in *.
  destruct (find_slot_ok e col (Z.to_nat (ccapacity col)) 0) as [(k & E & _ & Hk & Hf)|(E & Hn)]; [lia| |];
    change (Z.of_nat 0) with 0 in E; rewrite E.
  - destruct (lookup_split _ _ _ Hk) as [Es El]. rewrite (cset_ok k NULL e _ _ col Es (eq_sym El)).
    set (a := take k (clist col)) in *. set (b := drop (S k) (clist col)) in *.
    eexists. split; [done|]. split; [simpl; rewrite Hw, Es, !length_app; done|]. right.
    exists (filter (λ p, p ≠ NULL) a), (filter (λ p, p ≠ NULL) b). unfold elements. rewrite Es. simpl.
    rewrite !filter_app, !filter_cons, decide_True, decide_False by naive_solver. split; [done|]. split; [|done].
    rewrite list_elem_of_filter. intros [_ Hin]. apply list_elem_of_lookup_1 in Hin as [j Hj].
    pose proof (lookup_lt_Some _ _ _ Hj). apply (Hf j); [lia|]. rewrite Es. by rewrite lookup_app_l.
  - exists col. split; [done|]. split; [done|]. left. split; [|done].
    unfold elements. rewrite list_elem_of_filter. intros [_ Hin]. apply list_elem_of_lookup_1 in Hin as [j Hj].
    by apply (Hn j); [lia|].
Qed.

Lemma count_slots_ok col n i cnt :
  (i + n = length (clist col))%nat →
  count_slots n (Z.of_nat i) cnt col = Ok (cnt + Z.of_nat (length (filter (λ p, p ≠ NULL) (drop i (clist col))))).
Proof.
  revert i cnt. induction n as [|n IH]; intros i cnt Hi; simpl.
  - rewrite drop_ge by lia. simpl. f_equal. lia.
  - destruct (lookup_lt_is_Some_2 (clist col) i) as [x Hx]; [lia|]. rewrite (cget_ok col _ i x Hx).
    replace (Z.of_nat i + 1) with (Z.of_nat (S i)) by lia. rewrite IH by lia. f_equal.
    rewrite (drop_S _ _ _ Hx), filter_cons. destruct (Z.eqb_spec x NULL) as [->|Hne].
    + by rewrite decide_False by naive_solver.
    + rewrite decide_True by done. simpl. lia.
Qed.

Lemma collection_count_ok col :
  collection_wf col → collection_count col = Ok (Z.of_nat (length (elements col))).
Proof. intros Hw. unfold collection_count. rewrite Hw, Nat2Z.id. by apply (count_slots_ok col (length (clist col)) 0 0). Qed.

Lemma collection_copy_ok col :
  collection_wf col → collection_copy col = Ok col.
Proof.
  intros Hw. unfold collection_copy. rewrite bool_decide_true by (unfold collection_wf in Hw; lia).
  rewrite Hw, Nat2Z.id, firstn_all. rewrite <- Hw. by destruct col.
Qed.
