(* ===== verification/Proxy.v ===== *)
(** * The proxy (socket/proxy/client.c, proxy.c)

    A poll loop that accepts clients, reads their requests, connects to the
    host the request names and passes the request on.  The state holds the
    client structures by address, the global collection of clients, the list
    of polled descriptors of [main_loop] and the state of the operating
    system, which is a parameter: its calls are the operations of the class
    [Kernel], and what the program relies on is the class [KernelLaws].  The
    program has one thread, so the mutex is not part of the state.  Output
    with printf is not modelled, except that printing a buffer with [%s] reads
    it up to its NUL. *)
From Stdlib Require Import String.
From S2P Require Import Prelude CArr CBuf ProxyUtil.

(** ** The operating system

    [K] is its state, [A] an entry of the list getaddrinfo returns. *)
Class Kernel (K A : Type) := {
  sys_accept : Z → K → Z * K;
  sys_nonblock : Z → K → K;
  sys_recv : Z → Z → K → (Z * arr) * K;
  sys_send : Z → arr → K → Z * K;
  sys_close : Z → K → K;
  sys_getaddrinfo : arr → option Z → Z → K → option (list A) * K;
  ai_family : A → Z;
  sys_socket : A → K → Z * K;
  sys_bind : Z → A → K → Z * K;
  sys_connect : Z → A → K → Z * K;
  sys_listen_socket : K → Z * K;
  sys_setsockopt : Z → K → Z * K;
  sys_bind_port : Z → Z → K → Z * K;
  sys_listen : Z → Z → K → Z * K;
  sys_poll : list pollfd → K → (Z * list Z) * K;
  sys_eintr : K → bool;
  sys_malloc : gset Z → K → Z;
  sys_memory : Z → K → arr }.

(** What the program relies on: recv fills at most the given length, poll
    answers for each descriptor, getaddrinfo returns at least one address,
    malloc returns fresh addresses and blocks of the size asked for. *)
Class KernelLaws (K A : Type) `{Kernel K A} : Prop := {
  recv_length : ∀ fd len k, 0 ≤ len → (length (sys_recv fd len k).1.2 ≤ Z.to_nat len)%nat;
  poll_length : ∀ fds k, length (sys_poll fds k).1.2 = length fds;
  getaddrinfo_some : ∀ host port family k, (sys_getaddrinfo host port family k).1 ≠ Some [];
  malloc_fresh : ∀ used k, sys_malloc used k ∉ used ∧ sys_malloc used k ≠ NULL;
  memory_length : ∀ n k, length (sys_memory n k) = Z.to_nat n }.

(** ** Data *)
Definition CMD_BUF_SIZE : Z := 0x10000.
Definition REPLY_BUF_SIZE : Z := 0x10000.
Definition POLLIN : Z := 1.
Definition POLLOUT : Z := 4.
Definition SERVER_PORT : Z := 5900.
Definition AF_UNSPEC : Z := 0.

Inductive client_state :=
| CLIENT_COMMAND | CLIENT_LISTEN | CLIENT_CONNECTING1 | CLIENT_CONNECTING2 | CLIENT_CONNECTED | CLIENT_DEAD.

#[export] Instance client_state_eq_dec : EqDecision client_state.
Proof. solve_decision. Defined.

Record mux_client := mk_client {
  fd : Z;
  ob_buf : option arr; ob_size : Z; ob_capacity : Z;
  ib_buf : option arr; ib_size : Z; ib_capacity : Z;
  events : Z; devents : Z;
  connect_tag : Z;
  cstate : client_state;
  proto_version : Z;
  server_fd : Z }.

Record state (K : Type) := mk_state {
  kern : K; heap : gmap Z mux_client; client_list : collection; pollfds : fdlist;
  listenfd : Z; should_exit : Z }.
Arguments mk_state {K}.
Arguments kern {K}.
Arguments heap {K}.
Arguments client_list {K}.
Arguments pollfds {K}.
Arguments listenfd {K}.
Arguments should_exit {K}.

Section proxy.
Context {K A : Type} `{!Kernel K A} `{!Junk}.

Definition set_kern k (s : state K) : state K := mk_state k (heap s) (client_list s) (pollfds s) (listenfd s) (should_exit s).
Definition set_heap h (s : state K) : state K := mk_state (kern s) h (client_list s) (pollfds s) (listenfd s) (should_exit s).
Definition set_list c (s : state K) : state K := mk_state (kern s) (heap s) c (pollfds s) (listenfd s) (should_exit s).
Definition set_pollfds l (s : state K) : state K := mk_state (kern s) (heap s) (client_list s) l (listenfd s) (should_exit s).
Definition set_listenfd l (s : state K) : state K := mk_state (kern s) (heap s) (client_list s) (pollfds s) l (should_exit s).

(** A system call; an operation on the collection; one on the poll list. *)
Definition sys {R} (f : K → R * K) : M (state K) R := λ s,
  let '(r, k) := f (kern s) in Ok (r, set_kern k s).
Definition on_list (m : M collection unit) : M (state K) unit := λ s,
  match m (client_list s) with Ok (_, c) => Ok ((), set_list c s) | Err e => Err e end.
Definition on_fds (m : M fdlist unit) : M (state K) unit := λ s,
  match m (pollfds s) with Ok (_, l) => Ok ((), set_pollfds l s) | Err e => Err e end.

Definition client (p : Z) : M (state K) mux_client := λ s,
  match heap s !! p with Some c => Ok (c, s) | None => Err Segv end.
Definition put_client (p : Z) (c : mux_client) : M (state K) unit := λ s,
  match heap s !! p with Some _ => Ok ((), set_heap (<[p := c]> (heap s)) s) | None => Err Segv end.

Definition set_events e c := mk_client (fd c) (ob_buf c) (ob_size c) (ob_capacity c) (ib_buf c) (ib_size c)
  (ib_capacity c) e (devents c) (connect_tag c) (cstate c) (proto_version c) (server_fd c).
Definition set_devents e c := mk_client (fd c) (ob_buf c) (ob_size c) (ob_capacity c) (ib_buf c) (ib_size c)
  (ib_capacity c) (events c) e (connect_tag c) (cstate c) (proto_version c) (server_fd c).
Definition set_cstate t c := mk_client (fd c) (ob_buf c) (ob_size c) (ob_capacity c) (ib_buf c) (ib_size c)
  (ib_capacity c) (events c) (devents c) (connect_tag c) t (proto_version c) (server_fd c).
Definition set_server_fd f c := mk_client (fd c) (ob_buf c) (ob_size c) (ob_capacity c) (ib_buf c) (ib_size c)
  (ib_capacity c) (events c) (devents c) (connect_tag c) (cstate c) (proto_version c) f.
Definition set_ib b c := mk_client (fd c) (ob_buf c) (ob_size c) (ob_capacity c) b (ib_size c)
  (ib_capacity c) (events c) (devents c) (connect_tag c) (cstate c) (proto_version c) (server_fd c).
Definition set_ob b n c := mk_client (fd c) b n (ob_capacity c) (ib_buf c) (ib_size c)
  (ib_capacity c) (events c) (devents c) (connect_tag c) (cstate c) (proto_version c) (server_fd c).

(** *** Buffers *)
Definition buffer (b : option arr) : M (state K) arr :=
  match b with Some l => mret l | None => fail Segv end.

(** The received bytes replace the start of the buffer. *)
Definition store (bytes b : arr) : M (state K) arr :=
  if bool_decide (length bytes ≤ length b)%nat then mret (bytes ++ drop (length bytes) b) else fail Segv.

Definition string_in (b : arr) : M (state K) arr :=
  match cstr b with Some s => mret s | None => fail Overread end.

(** ** client.c *)

(** Returns the result of recv and the bytes it stores. *)
Definition client_read (p len : Z) : M (state K) (Z * arr) :=
  c ← client p;
  if decide (cstate c = CLIENT_CONNECTED) then sys (sys_recv (fd c) len) else mret (-1, []).

Definition client_write (p : Z) (bytes : arr) : M (state K) Z :=
  c ← client p;
  if decide (cstate c = CLIENT_CONNECTED) then sys (sys_send (fd c) bytes) else mret (-1).

Definition client_set_events (p ev : Z) : M (state K) Z :=
  c ← client p;
  if decide (cstate c ≠ CLIENT_CONNECTED ∧ cstate c ≠ CLIENT_CONNECTING2) then mret (-1)
  else
    put_client p (set_devents ev c);;
    (if decide (cstate c = CLIENT_CONNECTED) then put_client p (set_events ev (set_devents ev c)) else mret ());;
    mret 0.

Definition new_client (cfd : Z) (k : K) : mux_client :=
  mk_client cfd (Some (sys_memory REPLY_BUF_SIZE k)) 0 REPLY_BUF_SIZE
    (Some (sys_memory CMD_BUF_SIZE k)) 0 CMD_BUF_SIZE POLLIN 0 0 CLIENT_CONNECTED 0 0.

Definition client_accept (lfd : Z) : M (state K) Z :=
  cfd ← sys (sys_accept lfd);
  if cfd <? 0 then mret cfd
  else
    modify (λ s, set_kern (sys_nonblock cfd (kern s)) s);;
    p ← gets (λ s, sys_malloc (dom (heap s)) (kern s));
    modify (λ s, set_heap (<[p := new_client cfd (kern s)]> (heap s)) s);;
    on_list (collection_add p);;
    mret cfd.

Definition client_close (p : Z) : M (state K) unit :=
  c ← client p;
  (if decide (cstate c = CLIENT_CONNECTING1 ∨ cstate c = CLIENT_CONNECTING2)
   then put_client p (set_cstate CLIENT_DEAD c) else mret ());;
  modify (λ s, set_kern (sys_close (fd c) (kern s)) s);;
  on_list (collection_remove p);;
  modify (λ s, set_heap (delete p (heap s)) s).

Definition foreach_client (body : Z → M (state K) bool) : M (state K) unit := λ s,
  FOREACH client_list (length (clist (client_list s))) 0 body s.

Definition client_get_fds : M (state K) unit :=
  foreach_client (λ p,
    c ← client p; on_fds (fdlist_add FD_CLIENT (fd c) (events c));; mret false).

Definition server_get_fds : M (state K) unit :=
  foreach_client (λ p,
    c ← client p;
    (if server_fd c =? 0 then mret () else on_fds (fdlist_add FD_SERVER (server_fd c) (events c)));;
    mret false).

Definition process_send (p : Z) : M (state K) unit :=
  c ← client p;
  if ob_size c =? 0 then put_client p (set_events (Z.ldiff (events c) POLLOUT) c)
  else
    b ← buffer (ob_buf c);
    r ← sys (sys_send (fd c) (take (Z.to_nat (ob_size c)) b));
    if r <=? 0 then client_close p
    else if r =? ob_size c then
      let c := set_events (Z.ldiff (events c) POLLOUT) (set_ob (Some b) 0 c) in
      put_client p c;;
      (if decide (cstate c = CLIENT_CONNECTING2)
       then put_client p (set_ob None 0 (set_events (devents c) (set_cstate CLIENT_CONNECTED c))) else mret ())
    else
      let n := Z.to_nat (ob_size c - r) in
      put_client p (set_ob (Some (take n (drop (Z.to_nat r) b) ++ drop n b)) (ob_size c - r) c).

Definition CRLF : arr := [13; 10].

(** The host of the request and the buffer, in which the line end is
    overwritten with NUL. *)
Definition parse_header_line (b : arr) : M (state K) (option arr * arr) :=
  s ← string_in b;
  if bool_decide (length s ≤ 4)%nat then mret (None, b)
  else
    match strstr s (chars "Host: ") with
    | None => mret (None, b)
    | Some n =>
        let tmp := (n + 6)%nat in
        match strstr (drop tmp s) CRLF with
        | None => mret (None, b)
        | Some e => mret (Some (take e (drop tmp s)), <[(tmp + e)%nat := 0]> b)
        end
    end.

(** The do-while loops over an address list. *)
Fixpoint bind_loop (sockfd : Z) (res : list A) : M (state K) Z :=
  match res with
  | [] => mret (-1)
  | a :: res =>
      r ← sys (sys_bind sockfd a);
      if r =? 0 then mret sockfd else bind_loop sockfd res
  end.

Definition bind_socket (sockfd : Z) (addr : arr) (family : Z) : M (state K) Z :=
  if sockfd <? 0 then fail Abort
  else if bool_decide (addr = []) then fail Abort
  else
    r ← sys (sys_getaddrinfo addr None family);
    match r with
    | None => mret (-1)
    | Some [] => fail Segv
    | Some res => bind_loop sockfd res
    end.

Fixpoint connect_loop (bind_to : arr) (res : list A) : M (state K) Z :=
  match res with
  | [] => mret (-1)
  | a :: res =>
      sockfd ← sys (sys_socket a);
      if sockfd <? 0 then connect_loop bind_to res
      else
        b ← bind_socket sockfd bind_to (ai_family a);
        if b <? 0 then
          modify (λ s, set_kern (sys_close sockfd (kern s)) s);; connect_loop bind_to res
        else
          r ← sys (sys_connect sockfd a);
          if r =? 0 then mret sockfd
          else modify (λ s, set_kern (sys_close sockfd (kern s)) s);; connect_loop bind_to res
  end.

Definition opensock (host : option arr) (port : Z) (bind_to : arr) : M (state K) Z :=
  match host with
  | None => fail Abort
  | Some host =>
      if port <=? 0 then fail Abort
      else
        r ← sys (sys_getaddrinfo host (Some port) AF_UNSPEC);
        match r with
        | None => mret (-1)
        | Some [] => fail Segv
        | Some res => connect_loop bind_to res
        end
  end.

Definition process_recv (p : Z) : M (state K) unit :=
  r ← client_read p CMD_BUF_SIZE;
  c ← client p;
  b ← buffer (ib_buf c);
  b ← store r.2 b;
  put_client p (set_ib (Some b) c);;
  _ ← string_in b;
  h ← parse_header_line b;
  put_client p (set_ib (Some h.2) c);;
  sfd ← opensock h.1 80 (chars "192.168.151.251");
  put_client p (set_server_fd sfd (set_ib (Some h.2) c));;
  (if sfd =? 0 then mret ()
   else s ← string_in h.2; _ ← sys (sys_send sfd s); mret ()).

Definition recv_server (p : Z) : M (state K) unit :=
  c ← client p;
  b ← buffer (ob_buf c);
  r ← sys (sys_recv (server_fd c) CMD_BUF_SIZE);
  b ← store r.2 b;
  put_client p (set_ob (Some b) (ob_size c) c);;
  _ ← string_in b;
  (if 0 <? r.1 then s ← string_in b; _ ← sys (sys_send (fd c) s); mret () else mret ()).

(** The search of the client with descriptor [f]. *)
Fixpoint find_client (n : nat) (i f : Z) : M (state K) (option Z) := λ s,
  match n with
  | O => Ok (None, s)
  | S n =>
      (p ← cget (clist (client_list s)) i;
       if p =? NULL then find_client n (i + 1) f
       else c ← client p; if fd c =? f then mret (Some p) else find_client n (i + 1) f) s
  end.

Definition client_process (f ev : Z) (owner : fdowner) : M (state K) unit :=
  n ← gets (λ s, Z.to_nat (ccapacity (client_list s)));
  r ← find_client n 0 f;
  match r with
  | None => mret ()
  | Some p =>
      match owner with
      | FD_CLIENT =>
          if negb (Z.land ev POLLIN =? 0) then process_recv p
          else if negb (Z.land ev POLLOUT =? 0) then process_send p else mret ()
      | FD_SERVER => if negb (Z.land ev POLLIN =? 0) then recv_server p else mret ()
      | FD_LISTEN => mret ()
      end
  end.

Definition client_init : M (state K) unit := modify (set_list collection_init).

Definition client_shutdown : M (state K) unit :=
  foreach_client (λ p, client_close p;; mret false);;
  on_list collection_free.

(** ** proxy.c *)
Definition create_socket : M (state K) Z :=
  l ← sys sys_listen_socket;
  modify (set_listenfd l);;
  if l <? 0 then mret (-1)
  else
    r ← sys (sys_setsockopt l);
    if r =? -1 then mret (-1)
    else
      modify (λ s, set_kern (sys_nonblock l (kern s)) s);;
      r ← sys (sys_bind_port l SERVER_PORT);
      if r <? 0 then mret (-1)
      else r ← sys (sys_listen l 10); if r <? 0 then mret (-1) else mret l.

(** The answers of poll are stored in the array. *)
Definition set_revents (rs : list Z) (l : fdlist) : fdlist :=
  mk_fdlist (count l) (capacity l) (owners l)
    (zip_with (λ f r, mk_pollfd (pfd f) (pevents f) r) (take (length rs) (fds l)) rs ++ drop (length rs) (fds l)).

Definition poll_step : M (state K) Z :=
  fds ← gets (λ s, take (Z.to_nat (count (pollfds s))) (fds (pollfds s)));
  r ← sys (sys_poll fds);
  modify (λ s, set_pollfds (set_revents r.2 (pollfds s)) s);;
  mret r.1.

(** The loop over the descriptors; [Some r] when [main_loop] returns. *)
Fixpoint serve (n : nat) (i : nat) : M (state K) (option Z) := λ s,
  match n with
  | O => Ok (None, s)
  | S n =>
      match owners (pollfds s) !! i, fds (pollfds s) !! i with
      | Some o, Some f =>
          (if revents f =? 0 then serve n (S i)
           else
             match o with
             | FD_LISTEN =>
                 l ← gets listenfd;
                 r ← client_accept l;
                 if r <? 0 then on_fds fdlist_free;; mret (Some (-1)) else serve n (S i)
             | _ => client_process (pfd f) (revents f) o;; serve n (S i)
             end) s
      | _, _ => Err Segv
      end
  end.

(** The descriptors to poll. *)
Definition build_fds : M (state K) unit :=
  on_fds fdlist_reset;;
  l ← gets listenfd;
  on_fds (fdlist_add FD_LISTEN l POLLIN);;
  server_get_fds;;
  client_get_fds.

(** One turn of the while loop. *)
Definition loop_body : M (state K) (option Z) :=
  build_fds;;
  cnt ← poll_step;
  if cnt =? -1 then
    x ← gets (λ s, sys_eintr (kern s) && negb (should_exit s =? 0));
    mret (if x : bool then Some 0 else None)
  else if cnt =? 0 then mret None
  else n ← gets (λ s, Z.to_nat (count (pollfds s))); serve n 0.

(** [n] turns; [None] when the loop is still running. *)
Fixpoint main_loop (n : nat) : M (state K) (option Z) := λ s,
  if negb (should_exit s =? 0) then Ok (Some 0, s)
  else
    match n with
    | O => Ok (None, s)
    | S n => (r ← loop_body; match r with Some v => mret (Some v) | None => main_loop n end) s
    end.

(** The state of the process when [main] starts, and [main]. *)
Definition process (k : K) : state K := mk_state k ∅ (mk_collection [] 0) fdlist_create 0 0.

Definition main (n : nat) : M (state K) (option Z) :=
  _ ← create_socket;
  modify (set_pollfds fdlist_create);;
  main_loop n.
End proxy.
