(* ===== verification/Hoare.v ===== *)
(** * Programs that may stop early

    [wp E m Q s]: run in state [s], [m] returns a result and a state that
    satisfy [Q], or stops with a fault in [E].  [ends] is the instance for a
    failed assertion and a string without NUL: the program does not access
    memory it does not own and does not run out of fuel. *)
From S2P Require Import Prelude.

Definition wp {S A} (E : fault → Prop) (m : M S A) (Q : A → S → Prop) (s : S) : Prop :=
  match m s with
  | Ok (a, s') => Q a s'
  | Err e => E e
  end.

Section wp.
Context {S : Type} {E : fault → Prop}.

Lemma wp_ok {A} (m : M S A) Q s a s' : m s = Ok (a, s') → Q a s' → wp E m Q s.
Proof. unfold wp. by intros ->. Qed.

Lemma wp_ret {A} (a : A) Q (s : S) : Q a s → wp E (mret a) Q s.
Proof. done. Qed.

Lemma wp_fail {A} e (Q : A → S → Prop) s : E e → wp E (fail e) Q s.
Proof. done. Qed.

Lemma wp_bind {A B} (m : M S A) (f : A → M S B) Q s : wp E m (λ a s', wp E (f a) Q s') s → wp E (m ≫= f) Q s.
Proof. unfold wp, mbind, M_bind. by destruct (m s) as [[a s']|]. Qed.

Lemma wp_mono {A} (m : M S A) (Q Q' : A → S → Prop) s : wp E m Q s → (∀ a s', Q a s' → Q' a s') → wp E m Q' s.
Proof. unfold wp. destruct (m s) as [[a s']|]; auto. Qed.

Lemma wp_gets {A} (f : S → A) Q s : Q (f s) s → wp E (gets f) Q s.
Proof. done. Qed.

Lemma wp_modify (f : S → S) Q s : Q () (f s) → wp E (modify f) Q s.
Proof. done. Qed.

(** [m] followed by something, where [m] satisfies a known triple. *)
Lemma wp_seq {A B} (m : M S A) (f : A → M S B) (P : A → S → Prop) Q s :
  wp E m P s → (∀ a s', P a s' → wp E (f a) Q s') → wp E (m ≫= f) Q s.
Proof. intros Hm Hf. apply wp_bind. by eapply wp_mono. Qed.
End wp.

Definition stops (e : fault) : Prop := match e with Abort | Overread => True | _ => False end.

Notation ends := (wp stops).
