(* ===== verification/ProxyProps.v ===== *)
(** * The proxy: what its loop guarantees

    The invariant of the client structures, that the poll loop preserves it
    whatever the operating system answers, and what reaches the server and
    the client. *)
From Stdlib Require Import String.
From S2P Require Import Prelude CArr CBuf Hoare ProxyUtil Proxy.

(** ** FOREACH visits the elements *)
Fixpoint each {S} (l : list Z) (body : Z → M S bool) : M S unit :=
  match l with
  | [] => mret ()
  | p :: l => b ← body p; if b : bool then mret () else each l body
  end.

Section foreach.
Context {S : Type} (get : S → collection) (I : S → Prop) (body : Z → M S bool).

(** The body leaves the slots behind the current one alone. *)
Definition stays_behind : Prop := ∀ k p s b s',
  I s → clist (get s) !! k = Some p → p ≠ NULL → body p s = Ok (b, s') →
  I s' ∧ drop (Datatypes.S k) (clist (get s')) = drop (Datatypes.S k) (clist (get s)) ∧
  ccapacity (get s') = ccapacity (get s) ∧ length (clist (get s')) = length (clist (get s)).

Lemma FOREACH_each n i s :
  stays_behind → I s → collection_wf (get s) → (i + n = length (clist (get s)))%nat →
  FOREACH get n (Z.of_nat i) body s = each (filter (λ p, p ≠ NULL) (drop i (clist (get s)))) body s.
Proof.
  intros Hb. revert i s. induction n as [|n IH]; intros i s HI Hw Hi; cbn [FOREACH].
  { by rewrite drop_ge by lia. }
  pose proof Hw as Hw'. unfold collection_wf in Hw'. rewrite (proj2 (Z.ltb_lt _ _)) by lia.
  destruct (lookup_lt_is_Some_2 (clist (get s)) i) as [p Hp]; [lia|].
  rewrite (bind_ok _ _ _ _ _ (cget_ok s _ i p Hp)), (drop_S _ _ _ Hp), filter_cons.
  replace (Z.of_nat i + 1) with (Z.of_nat (Datatypes.S i)) by lia.
  destruct (Z.eqb_spec p NULL) as [->|Hne].
  - rewrite decide_False by naive_solver. apply IH; [done|done|lia].
  - rewrite decide_True by done. cbn [each]. unfold mbind, M_bind.
    destruct (body p s) as [[[] s']|e] eqn:E; [done| |done].
    destruct (Hb i p s false s' HI Hp Hne E) as (HI' & Hd & Hc & Hl).
    rewrite IH; [by rewrite Hd|done| |lia]. unfold collection_wf. lia.
Qed.
End foreach.

(** ** The invariant *)
Record wf_client (c : mux_client) : Prop := {
  wf_state : cstate c = CLIENT_CONNECTED;
  wf_ob_size : ob_size c = 0;
  wf_ob : ∃ b, ob_buf c = Some b ∧ Z.of_nat (length b) = REPLY_BUF_SIZE;
  wf_ib : ∃ b, ib_buf c = Some b ∧ Z.of_nat (length b) = CMD_BUF_SIZE }.

(** The collection lists the allocated clients, each once. *)
Record PInv {K} (s : state K) : Prop := {
  p_wf : collection_wf (client_list s);
  p_nodup : NoDup (elements (client_list s));
  p_heap : ∀ p, p ∈ elements (client_list s) ↔ is_Some (heap s !! p);
  p_clients : ∀ p c, heap s !! p = Some c → wf_client c }.

(** Strings end in their buffers: fresh memory ends in a NUL, and recv never
    fills the whole buffer. *)
Definition terminated (K A : Type) `{!Kernel K A} : Prop :=
  (∀ n k, 0 < n → last (sys_memory n k) = Some 0) ∧
  (∀ fd k, (length (sys_recv fd CMD_BUF_SIZE k).1.2 < Z.to_nat CMD_BUF_SIZE)%nat).

(** Both buffers of each client end in a NUL. *)
Definition nul_client (c : mux_client) : Prop := ∀ b, ob_buf c = Some b ∨ ib_buf c = Some b → last b = Some 0.
Definition nul_clients {K} (s : state K) : Prop := ∀ p c, heap s !! p = Some c → nul_client c.

(** The proxy stops by a failed assertion, and without [T] also by a string
    function that reads behind a buffer. *)
Definition halts (T : Prop) (e : fault) : Prop := match e with Abort => True | Overread => ¬ T | _ => False end.

Section proxy.
Context {K A : Type} `{!Kernel K A} `{!KernelLaws K A} `{!Junk} (T : Prop) (HT : T → terminated K A).
Implicit Type s : state K.
Notation ends := (wp (halts T)).

Definition Inv s : Prop := PInv s ∧ (T → nul_clients s).

Lemma elements_spec (col : collection) p : p ∈ elements col ↔ p ≠ NULL ∧ p ∈ clist col.
Proof. unfold elements. by rewrite list_elem_of_filter. Qed.

Lemma client_ok s p c : heap s !! p = Some c → client p s = Ok (c, s).
Proof. unfold client. by intros ->. Qed.

Lemma put_client_ok s p c c' :
  heap s !! p = Some c → put_client p c' s = Ok ((), set_heap (<[p := c']> (heap s)) s).
Proof. unfold put_client. by intros ->. Qed.

(** Replacing a client by a well-formed one. *)
Lemma PInv_put s p c c' :
  PInv s → heap s !! p = Some c → wf_client c' → PInv (set_heap (<[p := c']> (heap s)) s).
Proof.
  intros [Hw Hn Hh Hc] Hp Hc'. split; simpl; auto.
  - intros x. rewrite Hh, lookup_insert_is_Some. destruct (decide (p = x)) as [->|]; [|naive_solver].
    rewrite Hp. naive_solver.
  - intros x d. rewrite lookup_insert_Some. intros [[<- <-]|[_ ?]]; eauto.
Qed.

Lemma Inv_put s p c c' :
  Inv s → heap s !! p = Some c → wf_client c' → (T → nul_client c') → Inv (set_heap (<[p := c']> (heap s)) s).
Proof.
  intros [HI HN] Hp Hw Hn. split; [by apply (PInv_put s p c)|]. intros HT' x d. simpl. rewrite lookup_insert_Some.
  intros [[_ <-]|[_ Hx]]; [auto|by eapply HN].
Qed.

(** The parts of the state a step leaves alone. *)
Lemma PInv_kern s k : PInv s → PInv (set_kern k s).
Proof. by intros [? ? ? ?]. Qed.
Lemma PInv_fds s l : PInv s → PInv (set_pollfds l s).
Proof. by intros [? ? ? ?]. Qed.

Lemma Inv_kern s k : Inv s → Inv (set_kern k s).
Proof. intros [HI HN]. split; [by apply PInv_kern|done]. Qed.
Lemma Inv_fds s l : Inv s → Inv (set_pollfds l s).
Proof. intros [HI HN]. split; [by apply PInv_fds|done]. Qed.

Lemma ends_sys {R} (f : K → R * K) (Q : R → state K → Prop) s :
  Q (f (kern s)).1 (set_kern (f (kern s)).2 s) → ends (sys f) Q s.
Proof. unfold wp, sys. by destruct (f (kern s)). Qed.

Lemma ends_client p c (Q : mux_client → state K → Prop) s :
  heap s !! p = Some c → Q c s → ends (client p) Q s.
Proof. intros E. by apply wp_ok, client_ok. Qed.

Lemma ends_string b (Q : arr → state K → Prop) s :
  (T → last b = Some 0) → (∀ x, cstr b = Some x → Q x s) → ends (string_in b) Q s.
Proof.
  unfold wp, string_in. intros Hb HQ. destruct (cstr b) eqn:E; [by apply HQ|]. intros HT'. specialize (Hb HT').
  apply last_Some in Hb as [l ->]. apply cstr_None, Forall_app in E as [_ E]. by apply Forall_cons in E as [? _].
Qed.

Lemma wf_new_client cfd (k : K) : wf_client (new_client cfd k).
Proof. split; try done; simpl; eexists; (split; [done|]); by rewrite memory_length. Qed.

Lemma nul_new_client cfd (k : K) : T → nul_client (new_client cfd k).
Proof. intros HT' b. destruct (HT HT') as [Hm _]. by intros [[= <-]|[= <-]]; apply Hm. Qed.

(** *** The structure of the client list *)
Lemma accept_inv s l :
  Inv s →
  ends (client_accept l) (λ r s', Inv s' ∧ pollfds s' = pollfds s ∧ should_exit s' = should_exit s ∧
    listenfd s' = listenfd s) s.
Proof.
  intros HI. unfold client_accept. apply wp_bind, ends_sys. destruct (sys_accept l (kern s)) as [cfd k]. simpl.
  destruct (cfd <? 0); [apply wp_ret; by split; [apply Inv_kern|]|].
  apply wp_bind, wp_modify, wp_bind, wp_gets, wp_bind, wp_modify. simpl.
  set (k' := sys_nonblock cfd k). destruct (malloc_fresh (dom (heap s)) k') as [Hf H0].
  set (p := sys_malloc (dom (heap s)) k') in *. rewrite not_elem_of_dom in Hf.
  destruct HI as [[Hw Hn Hh Hc] HN]. destruct (collection_add_ok p (client_list s) Hw H0) as (col & l1 & l2 & E & Hw' & E1 & E2).
  apply wp_bind. eapply wp_ok.
  { unfold on_list. simpl. by rewrite E. }
  apply wp_ret. split; [|done]. split.
  2: { intros HT' x d. simpl. rewrite lookup_insert_Some. intros [[_ <-]|[_ Hx]]; [by apply nul_new_client|by eapply HN]. }
  assert (p ∉ elements (client_list s)) as Hp by (rewrite Hh, Hf; by intros [? ?]).
  rewrite E1 in Hn, Hp. split; simpl.
  - done.
  - rewrite E2. apply NoDup_app. apply NoDup_app in Hn as (? & ? & ?). rewrite NoDup_cons. set_solver.
  - intros x. rewrite lookup_insert_is_Some, <- Hh, E1, E2. set_solver.
  - intros x d. rewrite lookup_insert_Some. intros [[_ <-]|[_ Hx]]; [apply wf_new_client|by eapply Hc].
Qed.

Lemma close_ok s p c :
  PInv s → heap s !! p = Some c →
  ∃ col, client_close p s = Ok ((), mk_state (sys_close (fd c) (kern s)) (delete p (heap s)) col (pollfds s) (listenfd s) (should_exit s)) ∧
    PInv (mk_state (sys_close (fd c) (kern s)) (delete p (heap s)) col (pollfds s) (listenfd s) (should_exit s)) ∧
    collection_remove p (client_list s) = Ok ((), col).
Proof.
  intros HI Hp. pose proof HI as [Hw Hn Hh Hc].
  assert (p ∈ elements (client_list s)) as Hin by (apply Hh; eauto).
  pose proof (proj1 (proj1 (elements_spec _ _) Hin)) as H0.
  destruct (collection_remove_ok p (client_list s) Hw H0) as (col & E & Hw' & [[? _]|(l1 & l2 & E1 & Hl1 & E2)]); [done|].
  exists col. split; [|split; [|done]].
  - unfold client_close. rewrite (bind_ok _ _ _ _ _ (client_ok s p c Hp)), (wf_state c (Hc p c Hp)).
    rewrite decide_False by (by intros [|]). unfold mbind, M_bind, on_list, modify. simpl. by rewrite E.
  - rewrite E1 in Hn. apply NoDup_app in Hn as (Hn1 & Hn2 & [Hn3 Hn4]%NoDup_cons). split; simpl.
    + done.
    + rewrite E2. apply NoDup_app. set_solver.
    + intros x. rewrite E2, lookup_delete_is_Some, <- Hh, E1. set_solver.
    + intros x d [_ Hx]%lookup_delete_Some. by eapply Hc.
Qed.

(** *** Connecting *)
Definition kern_only (s s' : state K) : Prop := ∃ k, s' = set_kern k s.

Lemma kern_only_trans s s1 s2 : kern_only s s1 → kern_only s1 s2 → kern_only s s2.
Proof. intros [k ->] [k' ->]. by exists k'. Qed.

Lemma kern_only_set s s1 k : kern_only s s1 → kern_only s (set_kern k s1).
Proof. intros [k' ->]. by exists k. Qed.

Lemma bind_loop_inv s0 sockfd res s :
  kern_only s0 s → ends (bind_loop sockfd res) (λ _, kern_only s0) s.
Proof.
  revert s. induction res as [|a res IH]; intros s Hs; [done|]. cbn [bind_loop]. apply wp_bind, ends_sys.
  destruct (_ =? _); [apply wp_ret|apply IH]; by apply kern_only_set.
Qed.

Lemma bind_socket_inv s0 sockfd addr family s :
  kern_only s0 s → ends (bind_socket sockfd addr family) (λ _, kern_only s0) s.
Proof.
  intros Hs. unfold bind_socket. destruct (sockfd <? 0); [done|]. case_bool_decide; [done|].
  apply wp_bind, ends_sys. pose proof (getaddrinfo_some addr None family (kern s)) as Hg.
  destruct (sys_getaddrinfo addr None family (kern s)) as [[[|a res]|] k]; simpl in *; [done| |].
  - by apply (bind_loop_inv s0 sockfd (a :: res)), kern_only_set.
  - by apply wp_ret, kern_only_set.
Qed.

Lemma connect_loop_inv s0 bind_to res s :
  kern_only s0 s → ends (connect_loop bind_to res) (λ _, kern_only s0) s.
Proof.
  revert s. induction res as [|a res IH]; intros s Hs; [done|]. cbn [connect_loop]. apply wp_bind, ends_sys.
  destruct (_ <? 0); [by apply IH, kern_only_set|].
  eapply wp_seq; [by apply (bind_socket_inv s0), kern_only_set|]. intros b s1 Hs1.
  destruct (b <? 0); [by apply wp_bind, wp_modify, IH, kern_only_set|].
  apply wp_bind, ends_sys. destruct (_ =? 0); [by apply wp_ret, kern_only_set|].
  by apply wp_bind, wp_modify, IH, kern_only_set, kern_only_set.
Qed.

Lemma opensock_inv host port bind_to s :
  ends (opensock host port bind_to) (λ _, kern_only s) s.
Proof.
  unfold opensock. destruct host as [host|]; [|done]. destruct (port <=? 0); [done|].
  apply wp_bind, ends_sys. pose proof (getaddrinfo_some host (Some port) AF_UNSPEC (kern s)) as Hg.
  assert (kern_only s s) as Hs by (exists (kern s); by destruct s).
  destruct (sys_getaddrinfo host (Some port) AF_UNSPEC (kern s)) as [[[|a res]|] k]; simpl in *; [done| |].
  - by apply (connect_loop_inv s bind_to (a :: res)), kern_only_set.
  - by apply wp_ret, kern_only_set.
Qed.

(** *** The handlers of a client *)
Definition same_lists (s s' : state K) : Prop :=
  client_list s' = client_list s ∧ pollfds s' = pollfds s ∧ listenfd s' = listenfd s ∧ should_exit s' = should_exit s.

Lemma recv_store_ok bytes (b : arr) s :
  (length bytes ≤ length b)%nat → ∃ b', store bytes b s = Ok (b', s) ∧ length b' = length b ∧ b' = bytes ++ drop (length bytes) b.
Proof.
  intros Hl. exists (bytes ++ drop (length bytes) b). unfold store. rewrite bool_decide_true by done.
  split; [done|]. split; [|done]. rewrite length_app, length_drop. lia.
Qed.

(** Storing in a buffer keeps the NUL at its end. *)
Lemma last_insert_nul (b : arr) i : last b = Some 0 → last (<[i := 0]> b) = Some 0.
Proof.
  rewrite !last_lookup, length_insert. intros E. destruct (decide (i = pred (length b))) as [->|Hi]; [|by rewrite list_lookup_insert_ne].
  by rewrite list_lookup_insert_eq by (by eapply lookup_lt_Some).
Qed.

Lemma last_store (bytes b : arr) : (length bytes < length b)%nat → last b = Some 0 → last (bytes ++ drop (length bytes) b) = Some 0.
Proof.
  intros Hl Hb. apply last_Some in Hb as [b' ->]. rewrite length_app in Hl. simpl in Hl.
  rewrite drop_app_le by lia. by rewrite app_assoc, last_snoc.
Qed.

Lemma parse_header_inv b s :
  (T → last b = Some 0) →
  ends (parse_header_line b) (λ h s', s' = s ∧ length h.2 = length b ∧ (T → last h.2 = Some 0)) s.
Proof.
  intros Hb. unfold parse_header_line. apply wp_bind, ends_string; [done|]. intros x Hx. case_bool_decide; [done|].
  destruct (strstr x _); [|done]. destruct (strstr _ CRLF); [|done]. apply wp_ret. split; [done|].
  simpl. rewrite length_insert. split; [done|]. intros HT'. by apply last_insert_nul, Hb.
Qed.

(** What is received leaves room for the NUL. *)
Lemma recv_nul fd' k (b : arr) :
  T → Z.of_nat (length b) = CMD_BUF_SIZE → last b = Some 0 →
  last ((sys_recv fd' CMD_BUF_SIZE k).1.2 ++ drop (length (sys_recv fd' CMD_BUF_SIZE k).1.2) b) = Some 0.
Proof. intros HT' Hb Hn. apply last_store; [|done]. pose proof (proj2 (HT HT') fd' k). lia. Qed.

Lemma nul_set_ib c b : nul_client c → last b = Some 0 → nul_client (set_ib (Some b) c).
Proof. intros Hc Hb x [E|[= <-]]; [apply Hc; by left|done]. Qed.

Lemma nul_set_ob c b n : nul_client c → last b = Some 0 → nul_client (set_ob (Some b) n c).
Proof. intros Hc Hb x [[= <-]|E]; [done|apply Hc; by right]. Qed.

Lemma recv_fits fd' len k (b : arr) :
  0 ≤ len → Z.of_nat (length b) = len → (length (sys_recv fd' len k).1.2 ≤ length b)%nat.
Proof. intros Hl Hb. pose proof (recv_length fd' len k Hl). lia. Qed.

Lemma wf_set_ib c b : wf_client c → Z.of_nat (length b) = CMD_BUF_SIZE → wf_client (set_ib (Some b) c).
Proof. intros [? ? ? ?] ?. split; simpl; eauto. Qed.

Lemma wf_set_ob c b : wf_client c → Z.of_nat (length b) = REPLY_BUF_SIZE → wf_client (set_ob (Some b) (ob_size c) c).
Proof. intros [? ? ? ?] ?. split; simpl; eauto. Qed.

Lemma wf_set_server c f : wf_client c → wf_client (set_server_fd f c).
Proof. by intros [? ? ? ?]. Qed.

Lemma wf_set_events c e : wf_client c → wf_client (set_events e c).
Proof. by intros [? ? ? ?]. Qed.

(** [put_client] inside a triple. *)
Lemma ends_put p c c' (Q : unit → state K → Prop) s :
  heap s !! p = Some c → Q () (set_heap (<[p := c']> (heap s)) s) → ends (put_client p c') Q s.
Proof. intros E. by apply wp_ok, (put_client_ok s p c). Qed.

Lemma heap_put s p (c : mux_client) : heap (set_heap (<[p := c]> (heap s)) s) !! p = Some c.
Proof. apply lookup_insert_eq. Qed.

Lemma process_recv_inv p c s :
  Inv s → heap s !! p = Some c → ends (process_recv p) (λ _ s', Inv s' ∧ same_lists s s') s.
Proof.
  intros HI Hp. pose proof (p_clients s (proj1 HI) p c Hp) as Hc. pose proof Hc as [Hs _ _ (ib & Eib & Hib)].
  assert (T → nul_client c) as HN by (intros HT'; by apply (proj2 HI HT' p)).
  unfold process_recv, client_read. apply wp_bind, wp_bind, (ends_client p c); [done|].
  rewrite decide_True by done. apply ends_sys. set (k := (sys_recv _ _ _).2).
  apply wp_bind, (ends_client p c); [done|]. rewrite Eib. apply wp_bind, wp_ret. cbn -[store CMD_BUF_SIZE].
  destruct (recv_store_ok (sys_recv (fd c) CMD_BUF_SIZE (kern s)).1.2 ib (set_kern k s)) as (b & Eb & Hb & Eq).
  { apply recv_fits; [unfold CMD_BUF_SIZE; lia|done]. }
  assert (T → last b = Some 0) as Hn.
  { intros HT'. rewrite Eq. apply recv_nul; [done..|]. apply (HN HT'). by right. }
  apply wp_bind. apply (wp_ok _ _ _ _ _ Eb). apply wp_bind, (ends_put p c); [done|].
  apply wp_bind, ends_string; [done|]. intros x _.
  eapply wp_seq; [by apply parse_header_inv|]. intros h s1 (-> & Hh & Hn2).
  apply wp_bind. eapply ends_put; [apply heap_put|].
  set (s1 := set_heap _ _). eapply wp_seq; [apply (opensock_inv _ _ _ s1)|]. intros sfd s2 [k2 ->].
  apply wp_bind. eapply ends_put; [apply heap_put|]. set (s3 := set_heap _ _).
  assert (Inv s3 ∧ same_lists s s3) as H3.
  { split; [|done]. eapply Inv_put; [|apply heap_put| |].
    - apply Inv_kern. eapply Inv_put; [|apply heap_put|apply wf_set_ib; [done|lia]|auto using nul_set_ib].
      eapply Inv_put; [by apply Inv_kern|done|apply wf_set_ib; [done|lia]|auto using nul_set_ib].
    - apply wf_set_server, wf_set_ib; [done|lia].
    - intros HT'. apply (nul_set_ib c h.2); auto. }
  destruct (sfd =? 0); [done|]. apply wp_bind, ends_string; [done|]. intros y _. apply wp_bind, ends_sys, wp_ret.
  split; [apply Inv_kern|]; apply H3.
Qed.

Lemma recv_server_inv p c s :
  Inv s → heap s !! p = Some c → ends (recv_server p) (λ _ s', Inv s' ∧ same_lists s s') s.
Proof.
  intros HI Hp. pose proof (p_clients s (proj1 HI) p c Hp) as Hc. pose proof Hc as [_ _ (ob & Eob & Hob) _].
  assert (T → nul_client c) as HN by (intros HT'; by apply (proj2 HI HT' p)).
  unfold recv_server. apply wp_bind, (ends_client p c); [done|]. rewrite Eob. apply wp_bind, wp_ret.
  apply wp_bind, ends_sys. set (k := (sys_recv _ _ _).2).
  destruct (recv_store_ok (sys_recv (server_fd c) CMD_BUF_SIZE (kern s)).1.2 ob (set_kern k s)) as (b & Eb & Hb & Eq).
  { apply recv_fits; [unfold CMD_BUF_SIZE; lia|done]. }
  assert (T → last b = Some 0) as Hn.
  { intros HT'. rewrite Eq. apply recv_nul; [done..|]. apply (HN HT'). by left. }
  apply wp_bind. apply (wp_ok _ _ _ _ _ Eb). apply wp_bind, (ends_put p c); [done|].
  set (s1 := set_heap _ _). assert (Inv s1 ∧ same_lists s s1) as H1.
  { split; [|done]. eapply Inv_put; [by apply Inv_kern|done|apply wf_set_ob; [done|lia]|auto using nul_set_ob]. }
  apply wp_bind, ends_string; [done|]. intros x _. destruct (0 <? _); [|by apply wp_ret].
  apply wp_bind, ends_string; [done|]. intros y _. apply wp_bind, ends_sys, wp_ret.
  split; [apply Inv_kern|]; apply H1.
Qed.

Lemma process_send_inv p c s :
  Inv s → heap s !! p = Some c → ends (process_send p) (λ _ s', Inv s' ∧ same_lists s s') s.
Proof.
  intros HI Hp. pose proof (p_clients s (proj1 HI) p c Hp) as Hc. unfold process_send.
  apply wp_bind, (ends_client p c); [done|]. rewrite (wf_ob_size c Hc). simpl.
  apply (ends_put p c); [done|]. split; [|done]. apply (Inv_put s p c); [done|done|by apply wf_set_events|].
  intros HT'. exact (proj2 HI HT' p c Hp).
Qed.

(** The first client in the list with the descriptor. *)
Definition fd_of (s : state K) (p : Z) : option Z := fd <$> heap s !! p.

Lemma find_client_ok f s n i :
  PInv s → (i + n = length (clist (client_list s)))%nat →
  ∃ r, find_client n (Z.of_nat i) f s = Ok (r, s) ∧
    match r with
    | Some p => p ∈ elements (client_list s) ∧ fd_of s p = Some f
    | None => ∀ p, p ≠ NULL → p ∈ drop i (clist (client_list s)) → fd_of s p ≠ Some f
    end.
Proof.
  intros HI. revert i. induction n as [|n IH]; intros i Hi; cbn [find_client].
  { exists None. split; [done|]. intros p _. rewrite drop_ge by lia. by intros ?%elem_of_nil. }
  destruct (lookup_lt_is_Some_2 (clist (client_list s)) i) as [p Hp]; [lia|].
  rewrite (bind_ok _ _ _ _ _ (cget_ok s _ i p Hp)), (drop_S _ _ _ Hp).
  replace (Z.of_nat i + 1) with (Z.of_nat (S i)) by lia. destruct (IH (S i) ltac:(lia)) as (r & Er & Hr).
  destruct (Z.eqb_spec p NULL) as [->|Hne].
  - exists r. split; [done|]. destruct r as [q|]; [done|]. intros q Hq [?|?]%elem_of_cons; [done|by apply Hr].
  - assert (p ∈ elements (client_list s)) as Hin.
    { apply elements_spec. split; [done|]. by eapply list_elem_of_lookup_2. }
    destruct (proj1 (p_heap s HI p) Hin) as [c Hc]. rewrite (bind_ok _ _ _ _ _ (client_ok s p c Hc)).
    destruct (Z.eqb_spec (fd c) f) as [<-|Hf].
    + exists (Some p). split; [done|]. split; [done|]. unfold fd_of. by rewrite Hc.
    + exists r. split; [done|]. destruct r as [q|]; [done|]. intros q Hq [->|?]%elem_of_cons; [|by apply Hr].
      unfold fd_of. rewrite Hc. simpl. congruence.
Qed.

Lemma client_process_inv f ev o s :
  Inv s → ends (client_process f ev o) (λ _ s', Inv s' ∧ same_lists s s') s.
Proof.
  intros HI. unfold client_process. apply wp_bind, wp_gets. rewrite (p_wf s (proj1 HI)), Nat2Z.id.
  destruct (find_client_ok f s (length (clist (client_list s))) 0 (proj1 HI) ltac:(lia)) as (r & Er & Hr).
  apply wp_bind. apply (wp_ok _ _ _ _ _ Er). destruct r as [p|]; [|done].
  destruct Hr as [Hin _]. destruct (proj1 (p_heap s (proj1 HI) p) Hin) as [c Hc].
  destruct o; [done| |].
  - destruct (negb _); [by apply (process_recv_inv p c)|]. destruct (negb _); [by apply (process_send_inv p c)|done].
  - destruct (negb _); [by apply (recv_server_inv p c)|done].
Qed.

(** *** The poll list *)
Definition clients_of (s : state K) : list mux_client := omap (λ p, heap s !! p) (elements (client_list s)).

Definition client_entry (c : mux_client) : list (fdowner * (Z * Z)) := [(FD_CLIENT, (fd c, events c))].
Definition server_entry (c : mux_client) : list (fdowner * (Z * Z)) :=
  if server_fd c =? 0 then [] else [(FD_SERVER, (server_fd c, events c))].

(** [g]: the entries the body of a loop adds for a client. *)
Definition adds (g : mux_client → list (fdowner * (Z * Z))) (body : Z → M (state K) bool) : Prop :=
  ∀ p c s, heap s !! p = Some c → body p s = (on_fds (fdlist_adds (g c));; mret false) s.

Lemma adds_stays g body s0 :
  PInv s0 → adds g body → stays_behind client_list (λ s, heap s = heap s0 ∧ client_list s = client_list s0) body.
Proof.
  intros HI Hg k p s b s' [Eh El] Hk Hne E.
  assert (p ∈ elements (client_list s0)) as Hin.
  { apply elements_spec. split; [done|]. rewrite <- El. by eapply list_elem_of_lookup_2. }
  destruct (proj1 (p_heap s0 HI p) Hin) as [c Hc]. rewrite <- Eh in Hc. rewrite (Hg p c s Hc) in E.
  unfold mbind, M_bind, on_fds in E. destruct (fdlist_adds _ _) as [[? l]|]; [|done]. injection E as <- <-. done.
Qed.

Lemma each_fds g body l s :
  adds g body → Forall (λ p, is_Some (heap s !! p)) l → fdlist_wf (pollfds s) →
  ∃ L, each l body s = Ok ((), set_pollfds L s) ∧ fdlist_wf L ∧
    entries L = entries (pollfds s) ++ (as_entry <$> mjoin (g <$> omap (λ p, heap s !! p) l)) ∧
    (capacity L = capacity (pollfds s) ∨ capacity L < 2 * count L).
Proof.
  intros Hg Hl. revert s Hl. induction l as [|p l IH]; intros s Hl Hw; cbn [each].
  { exists (pollfds s). simpl. rewrite app_nil_r. repeat split; auto; try apply Hw. by destruct s. }
  apply Forall_cons in Hl as [[c Hc] Hl].
  destruct (fdlist_adds_ok (g c) (pollfds s) Hw) as (L1 & E1 & Hw1 & He1 & Hn1 & Hc1).
  destruct (IH (set_pollfds L1 s) Hl Hw1) as (L2 & E2 & Hw2 & He2 & Hc2).
  exists L2. unfold mbind, M_bind. rewrite (Hg p c s Hc). unfold mbind, M_bind, on_fds. rewrite E1. simpl.
  change (set_pollfds L2 s) with (set_pollfds L2 (set_pollfds L1 s)). rewrite E2. split; [done|]. split; [done|].
  split.
  - rewrite He2. simpl. rewrite He1, Hc. simpl. by rewrite fmap_app, <- app_assoc.
  - assert (count L1 ≤ count L2); [|simpl in Hc2; lia].
    assert (Z.of_nat (length (entries L1)) ≤ Z.of_nat (length (entries L2))) as Hle
      by (rewrite He2, length_app; simpl; lia).
    destruct Hw1, Hw2. unfold entries in Hle. rewrite !length_take, !length_zip_with in Hle. lia.
Qed.

Lemma get_fds_ok g body s :
  PInv s → adds g body → fdlist_wf (pollfds s) →
  ∃ L, foreach_client body s = Ok ((), set_pollfds L s) ∧ fdlist_wf L ∧
    entries L = entries (pollfds s) ++ (as_entry <$> mjoin (g <$> clients_of s)) ∧
    (capacity L = capacity (pollfds s) ∨ capacity L < 2 * count L).
Proof.
  intros HI Hg Hw. destruct (each_fds g body (elements (client_list s)) s Hg) as (L & E & HL); [|done|].
  { apply Forall_forall. intros p. apply (p_heap s HI). }
  exists L. split; [|done]. unfold foreach_client. rewrite <- E.
  apply (FOREACH_each client_list _ _ _ 0 s (adds_stays g body s HI Hg)); [done|apply HI|lia].
Qed.

Lemma client_get_fds_adds :
  adds client_entry (λ p, c ← client p; on_fds (fdlist_add FD_CLIENT (fd c) (events c));; mret false).
Proof.
  intros p c s Hc. unfold mbind, M_bind, on_fds. rewrite (client_ok s p c Hc). simpl.
  unfold mbind, M_bind. by destruct (fdlist_add _ _ _ _) as [[[] l]|].
Qed.

Lemma server_get_fds_adds :
  adds server_entry (λ p, c ← client p;
    (if server_fd c =? 0 then mret () else on_fds (fdlist_add FD_SERVER (server_fd c) (events c)));; mret false).
Proof.
  intros p c s Hc. unfold mbind, M_bind, on_fds, server_entry. rewrite (client_ok s p c Hc). simpl.
  destruct (server_fd c =? 0); simpl; [by destruct s|].
  unfold mbind, M_bind. by destruct (fdlist_add _ _ _ _) as [[[] l]|].
Qed.

Lemma build_fds_ok s :
  PInv s → fdlist_wf (pollfds s) →
  ∃ L, build_fds s = Ok ((), set_pollfds L s) ∧ fdlist_wf L ∧
    entries L = as_entry <$> (FD_LISTEN, (listenfd s, POLLIN)) ::
      mjoin (server_entry <$> clients_of s) ++ mjoin (client_entry <$> clients_of s) ∧
    (capacity L = capacity (pollfds s) ∨ capacity L < 2 * count L).
Proof.
  intros HI Hw. destruct (fdlist_reset_ok (pollfds s) Hw) as (L0 & E0 & Hw0 & He0 & Hc0).
  destruct (fdlist_add_ok FD_LISTEN (listenfd s) POLLIN L0 Hw0) as (L1 & E1 & Hw1 & He1 & Hn1 & Hc1).
  destruct (get_fds_ok _ _ (set_pollfds L1 s) (PInv_fds s L1 HI) server_get_fds_adds Hw1) as (L2 & E2 & Hw2 & He2 & Hc2).
  destruct (get_fds_ok _ _ (set_pollfds L2 s) (PInv_fds s L2 HI) client_get_fds_adds Hw2) as (L3 & E3 & Hw3 & He3 & Hc3).
  exists L3. split; [|split; [done|split]].
  - unfold build_fds. assert (on_fds fdlist_reset s = Ok ((), set_pollfds L0 s)) as F0 by (unfold on_fds; by rewrite E0).
    rewrite (bind_ok _ _ _ _ _ F0). rewrite (bind_ok _ _ _ (listenfd s) (set_pollfds L0 s)) by done.
    assert (on_fds (fdlist_add FD_LISTEN (listenfd s) POLLIN) (set_pollfds L0 s) = Ok ((), set_pollfds L1 s)) as F1
      by (unfold on_fds; simpl; by rewrite E1).
    by rewrite (bind_ok _ _ _ _ _ F1), (bind_ok _ _ _ _ _ E2).
  - rewrite He3. simpl. rewrite He2. simpl. rewrite He1, He0. simpl. by rewrite fmap_app.
  - simpl in *. assert (count L2 ≤ count L3) as Hle.
    { apply (f_equal length) in He3. rewrite length_app in He3. destruct Hw2, Hw3. unfold entries in He3.
      rewrite !length_take, !length_zip_with in He3. lia. }
    assert (count L1 ≤ count L2) as Hle'.
    { apply (f_equal length) in He2. rewrite length_app in He2. destruct Hw1, Hw2. unfold entries in He2.
      rewrite !length_take, !length_zip_with in He2. lia. }
    destruct Hw0. destruct (Z.eqb_spec (count L0) (capacity L0)); lia.
Qed.

Lemma set_revents_wf rs L :
  fdlist_wf L → length rs = Z.to_nat (count L) → fdlist_wf (set_revents rs L).
Proof.
  intros [? ? ? ?] Hr. split; simpl; try lia. rewrite length_app, length_zip_with, length_take, length_drop. lia.
Qed.

Lemma poll_step_inv s :
  Inv s → fdlist_wf (pollfds s) →
  ends poll_step (λ _ s', Inv s' ∧ fdlist_wf (pollfds s') ∧ should_exit s' = should_exit s) s.
Proof.
  intros HI Hw. unfold poll_step. apply wp_bind, wp_gets, wp_bind, ends_sys, wp_bind, wp_modify, wp_ret.
  split; [by apply Inv_fds, Inv_kern|]. split; [|done]. simpl. apply set_revents_wf; [done|].
  rewrite poll_length, length_take. destruct Hw. lia.
Qed.

(** *** The loop *)
Lemma serve_inv n i s :
  Inv s → fdlist_wf (pollfds s) → (i + n ≤ Z.to_nat (count (pollfds s)))%nat →
  ends (serve n i) (λ r s', Inv s' ∧ should_exit s' = should_exit s ∧ (r = None → fdlist_wf (pollfds s'))) s.
Proof.
  revert i s. induction n as [|n IH]; intros i s HI Hw Hi; cbn [serve]; [done|].
  unfold wp. cbn [serve]. pose proof Hw as [Hc _ Ho Hf].
  destruct (lookup_lt_is_Some_2 (owners (pollfds s)) i) as [o Eo]; [lia|]. rewrite Eo.
  destruct (lookup_lt_is_Some_2 (fds (pollfds s)) i) as [f Ef]; [lia|]. rewrite Ef.
  match goal with |- match ?m s with _ => _ end => change (ends m (λ r s', Inv s' ∧ should_exit s' = should_exit s ∧ (r = None → fdlist_wf (pollfds s'))) s) end.
  assert (∀ s1, Inv s1 → pollfds s1 = pollfds s → should_exit s1 = should_exit s →
    ends (serve n (S i)) (λ r s', Inv s' ∧ should_exit s' = should_exit s ∧ (r = None → fdlist_wf (pollfds s'))) s1) as Hgo.
  { intros s1 HI1 E1 Ex. rewrite <- Ex. apply IH; [done|by rewrite E1|rewrite E1; lia]. }
  destruct (revents f =? 0); [by apply Hgo|].
  assert (ends (client_process (pfd f) (revents f) o;; serve n (S i))
    (λ r s', Inv s' ∧ should_exit s' = should_exit s ∧ (r = None → fdlist_wf (pollfds s'))) s) as Hcp.
  { eapply wp_seq; [by apply client_process_inv|]. intros _ s1 (HI1 & _ & E1 & _ & Ex). by apply Hgo. }
  destruct o; [|exact Hcp|exact Hcp].
  apply wp_bind, wp_gets. eapply wp_seq; [by apply accept_inv|]. intros r s1 (HI1 & E1 & Ex & _).
  destruct (r <? 0); [|by apply Hgo]. apply wp_bind. eapply wp_ok; [done|]. apply wp_ret.
  split; [by apply Inv_fds|]. by split.
Qed.

Lemma loop_body_inv s :
  Inv s → fdlist_wf (pollfds s) →
  ends loop_body (λ r s', Inv s' ∧ should_exit s' = should_exit s ∧ (r = None → fdlist_wf (pollfds s'))) s.
Proof.
  intros HI Hw. destruct (build_fds_ok s (proj1 HI) Hw) as (L & E & HL & _).
  apply wp_bind. apply (wp_ok _ _ _ _ _ E).
  eapply wp_seq; [apply poll_step_inv; [by apply Inv_fds|done]|]. intros cnt s1 (HI1 & Hw1 & Ex1). simpl in Ex1.
  destruct (cnt =? -1); [by apply wp_bind, wp_gets, wp_ret|]. destruct (cnt =? 0); [done|].
  apply wp_bind, wp_gets. rewrite <- Ex1. apply serve_inv; [done|done|lia].
Qed.

Lemma main_loop_inv n s :
  Inv s → fdlist_wf (pollfds s) → ends (main_loop n) (λ r s', Inv s') s.
Proof.
  revert s. induction n as [|n IH]; intros s HI Hw; unfold wp; cbn [main_loop]; destruct (negb _); try done.
  change (ends (r ← loop_body; match r with Some v => mret (Some v) | None => main_loop n end) (λ r s', Inv s') s).
  eapply wp_seq; [by apply loop_body_inv|]. intros [v|] s1 (HI1 & _ & Hw1); [done|]. apply IH; auto.
Qed.

Lemma create_socket_inv s : Inv s → ends create_socket (λ _ s', Inv s') s.
Proof.
  intros [[H1 H2 H3 H4] H5]. unfold create_socket. apply wp_bind, ends_sys, wp_bind, wp_modify.
  destruct (_ <? 0); [by apply wp_ret|]. apply wp_bind, ends_sys. destruct (_ =? -1); [by apply wp_ret|].
  apply wp_bind, wp_modify, wp_bind, ends_sys. destruct (_ <? 0); [by apply wp_ret|].
  apply wp_bind, ends_sys. destruct (_ <? 0); by apply wp_ret.
Qed.

Lemma process_inv (k : K) : Inv (process k).
Proof.
  split; [split; simpl; [done|apply NoDup_nil_2| |]|]; intros p.
  - rewrite lookup_empty. unfold elements. simpl. rewrite elem_of_nil. by split; [|intros [? ?]].
  - by rewrite lookup_empty.
  - intros q c. simpl. by rewrite lookup_empty.
Qed.

(** *** Shutdown *)
Lemma filter_NoDup_lookup (l : arr) i j x :
  NoDup (filter (λ p, p ≠ NULL) l) → x ≠ NULL → l !! i = Some x → l !! j = Some x → i = j.
Proof.
  intros Hn Hx. revert i j Hn. induction l as [|y l IH]; intros i j Hn Hi Hj; [done|]. rewrite filter_cons in Hn.
  assert (∀ k, y = x → l !! k = Some x → False) as Hno.
  { intros k -> Hk. rewrite decide_True in Hn by done. apply NoDup_cons in Hn as [Hn _]. apply Hn.
    rewrite list_elem_of_filter. split; [done|]. by eapply list_elem_of_lookup_2. }
  destruct i as [|i], j as [|j]; simpl in *; [done| | |]; try (exfalso; naive_solver).
  f_equal. apply IH; try done. case_decide; [by apply NoDup_cons in Hn as [_ ?]|done].
Qed.

Lemma remove_slot col k p :
  collection_wf col → NoDup (elements col) → p ≠ NULL → clist col !! k = Some p →
  collection_remove p col = Ok ((), mk_collection (<[k := NULL]> (clist col)) (ccapacity col)).
Proof.
  intros Hw Hn Hp Hk. unfold collection_remove.
  destruct (find_slot_ok p col (Z.to_nat (ccapacity col)) 0) as [(j & E & _ & Hj & _)|(E & Hno)]; [unfold collection_wf in Hw; lia| |].
  - change (Z.of_nat 0) with 0 in E. rewrite E. assert (j = k) as -> by (by eapply filter_NoDup_lookup).
    unfold cset. by rewrite aset_ok by (by eapply lookup_lt_Some).
  - exfalso. apply (Hno k); [lia|done].
Qed.

Lemma close_stays : stays_behind client_list (λ s : state K, PInv s) (λ p, client_close p;; mret false).
Proof.
  intros k p s b s' HI Hk Hp E.
  assert (p ∈ elements (client_list s)) as Hin by (apply elements_spec; split; [done|]; by eapply list_elem_of_lookup_2).
  destruct (proj1 (p_heap s HI p) Hin) as [c Hc]. destruct (close_ok s p c HI Hc) as (col & E1 & HI1 & Er).
  rewrite (bind_ok _ _ _ _ _ E1) in E. injection E as _ <-. split; [done|]. simpl.
  rewrite (remove_slot _ k p (p_wf s HI) (p_nodup s HI) Hp Hk) in Er. injection Er as <-. simpl.
  rewrite length_insert. split; [|done]. by rewrite drop_insert_lt by lia.
Qed.

Lemma close_all l s :
  PInv s → elements (client_list s) = l →
  ∃ s', each l (λ p, client_close p;; mret false) s = Ok ((), s') ∧ heap s' = ∅ ∧
    kern s' = foldl (λ k c, sys_close (fd c) k) (kern s) (omap (λ p, heap s !! p) l).
Proof.
  revert s. induction l as [|p l IH]; intros s HI El; cbn [each].
  { exists s. split; [done|]. split; [|done]. apply map_empty. intros p. apply eq_None_not_Some.
    rewrite <- (p_heap s HI p), El. apply not_elem_of_nil. }
  assert (p ∈ elements (client_list s)) as Hin by (rewrite El; by left).
  destruct (proj1 (p_heap s HI p) Hin) as [c Hc]. destruct (close_ok s p c HI Hc) as (col & E1 & HI1 & Er).
  pose proof (proj1 (proj1 (elements_spec _ _) Hin)) as Hp.
  destruct (collection_remove_ok p (client_list s) (p_wf s HI) Hp) as (col' & Er' & _ & [[? _]|(l1 & l2 & E2 & Hl1 & E3)]); [done|].
  rewrite Er in Er'. injection Er' as <-.
  assert (l1 = [] ∧ l2 = l) as [-> ->].
  { rewrite El in E2. destruct l1 as [|x l1]; [by injection E2|]. injection E2 as -> _. by destruct Hl1; left. }
  destruct (IH _ HI1 E3) as (s' & E4 & Hh & Hk). exists s'.
  rewrite bind_assoc, (bind_ok _ _ _ _ _ E1). rewrite (bind_ok _ _ _ false _ eq_refl). split; [done|]. split; [done|].
  rewrite Hk. simpl. rewrite Hc. simpl. f_equal. apply list_omap_ext, Forall2_same_length_lookup. split; [done|].
  intros i x y Hx Hy. assert (x = y) as -> by congruence. rewrite lookup_delete_ne; [done|]. intros <-.
  pose proof (p_nodup s HI) as Hn. rewrite El in Hn. apply NoDup_cons in Hn as [Hn _]. apply Hn.
  by eapply list_elem_of_lookup_2.
Qed.

Lemma shutdown_ok s :
  PInv s →
  ∃ s', client_shutdown s = Ok ((), s') ∧ heap s' = ∅ ∧ client_list s' = mk_collection [] 0 ∧
    kern s' = foldl (λ k c, sys_close (fd c) k) (kern s) (clients_of s).
Proof.
  intros HI. destruct (close_all _ s HI eq_refl) as (s' & E & Hh & Hk).
  exists (set_list (mk_collection [] 0) s'). split; [|done]. unfold client_shutdown.
  assert (foreach_client (λ p, client_close p;; mret false) s = Ok ((), s')) as F.
  { rewrite <- E. apply (FOREACH_each client_list (λ s : state K, PInv s) _ _ 0 s close_stays); [done|apply HI|lia]. }
  by rewrite (bind_ok _ _ _ _ _ F).
Qed.

(** *** What a request does *)
Definition received (c : mux_client) (s : state K) : option arr :=
  (λ b, let bytes := (sys_recv (fd c) CMD_BUF_SIZE (kern s)).1.2 in bytes ++ drop (length bytes) b) <$> ib_buf c.

(** The state in front of [opensock]. *)
Definition read_state (p : Z) (c : mux_client) (b b' : arr) (s : state K) : state K :=
  let s := set_kern (sys_recv (fd c) CMD_BUF_SIZE (kern s)).2 s in
  let s := set_heap (<[p := set_ib (Some b) c]> (heap s)) s in
  set_heap (<[p := set_ib (Some b') c]> (heap s)) s.

Lemma process_recv_run p c b r s :
  PInv s → heap s !! p = Some c → received c s = Some b → cstr b = Some r →
  ∀ h b', parse_header_line b (set_heap (<[p := set_ib (Some b) c]> (heap s)) (set_kern (sys_recv (fd c) CMD_BUF_SIZE (kern s)).2 s)) =
      Ok ((h, b'), set_heap (<[p := set_ib (Some b) c]> (heap s)) (set_kern (sys_recv (fd c) CMD_BUF_SIZE (kern s)).2 s)) →
  process_recv p s =
    (sfd ← opensock h 80 (chars "192.168.151.251");
     put_client p (set_server_fd sfd (set_ib (Some b') c));;
     (if sfd =? 0 then mret () else s ← string_in b'; _ ← sys (sys_send sfd s); mret ())) (read_state p c b b' s).
Proof.
  intros HI Hp Hr Hs h b' Hparse. pose proof (p_clients s HI p c Hp) as [Hst _ _ (ib & Eib & Hib)].
  unfold received in Hr. rewrite Eib in Hr. injection Hr as <-.
  assert (client_read p CMD_BUF_SIZE s = Ok ((sys_recv (fd c) CMD_BUF_SIZE (kern s)).1, set_kern (sys_recv (fd c) CMD_BUF_SIZE (kern s)).2 s)) as E1.
  { unfold client_read. rewrite (bind_ok _ _ _ _ _ (client_ok s p c Hp)), decide_True by done.
    unfold sys. by destruct (sys_recv _ _ _). }
  unfold process_recv. rewrite (bind_ok _ _ _ _ _ E1).
  rewrite (bind_ok _ _ _ c (set_kern (sys_recv (fd c) CMD_BUF_SIZE (kern s)).2 s)) by (by apply client_ok).
  rewrite Eib. rewrite (bind_ok _ _ _ ib (set_kern (sys_recv (fd c) CMD_BUF_SIZE (kern s)).2 s)) by done.
  destruct (recv_store_ok (sys_recv (fd c) CMD_BUF_SIZE (kern s)).1.2 ib (set_kern (sys_recv (fd c) CMD_BUF_SIZE (kern s)).2 s)) as (b & Eb & _ & ->).
  { apply recv_fits; [unfold CMD_BUF_SIZE; lia|done]. }
  rewrite (bind_ok _ _ _ _ _ Eb).
  match goal with |- (put_client p ?c' ≫= _) ?s1 = _ => rewrite (bind_ok _ _ _ _ _ (put_client_ok s1 p c c' Hp)) end.
  match goal with |- (string_in ?x ≫= _) ?s1 = _ => rewrite (bind_ok _ _ _ r s1) by (unfold string_in; by rewrite Hs) end.
  rewrite (bind_ok _ _ _ _ _ Hparse).
  match goal with |- (put_client p ?c' ≫= _) ?s1 = _ => rewrite (bind_ok _ _ _ _ _ (put_client_ok s1 p _ c' (heap_put _ _ _))) end.
  done.
Qed.

Lemma parse_no_host b r s :
  cstr b = Some r → strstr r (chars "Host: ") = None → parse_header_line b s = Ok ((None, b), s).
Proof.
  intros Hr Hn. unfold parse_header_line. rewrite (bind_ok _ _ _ r s) by (unfold string_in; by rewrite Hr).
  case_bool_decide; [done|]. by rewrite Hn.
Qed.

Lemma parse_host b pre h rest s :
  let r := pre ++ chars "Host: " ++ h ++ CRLF ++ rest in
  cstr b = Some r → strstr r (chars "Host: ") = Some (length pre) → strstr (h ++ CRLF ++ rest) CRLF = Some (length h) →
  ∃ b', parse_header_line b s = Ok ((Some h, b'), s) ∧ cstr b' = Some (pre ++ chars "Host: " ++ h).
Proof.
  intros r Hr Hn He. exists (<[(length pre + 6 + length h)%nat := 0]> b). unfold parse_header_line.
  rewrite (bind_ok _ _ _ r s) by (unfold string_in; by rewrite Hr).
  rewrite bool_decide_false by (unfold r; rewrite !length_app; simpl; lia). rewrite Hn.
  assert (drop (length pre + 6) r = h ++ CRLF ++ rest) as Ed.
  { unfold r. rewrite app_assoc. rewrite drop_app_length'; [done|]. by rewrite length_app. }
  rewrite Ed, He, take_app_length. split; [done|].
  apply cstr_Some in Hr as (Hnn & tl & ->). unfold r in *.
  assert (∀ z : Z, (pre ++ chars "Host: " ++ h ++ CRLF ++ rest) ++ z :: tl =
    (pre ++ chars "Host: " ++ h) ++ 13 :: (10 :: rest) ++ z :: tl) as Eq by (intros z; by rewrite <- !app_assoc).
  rewrite Eq, insert_app_r_alt by (rewrite !length_app; simpl; lia).
  replace (_ - _)%nat with 0%nat by (rewrite !length_app; simpl; lia). apply cstr_app.
  unfold no_nul in *. rewrite !Forall_app in Hnn. rewrite !Forall_app. naive_solver.
Qed.
End proxy.

(** ** A concrete operating system

    Every client sends the same request, every call succeeds, and the state is
    the log of what was sent. *)
Definition demo_request : arr :=
  chars "GET / HTTP/1.1" ++ CRLF ++ chars "Host: a.b" ++ CRLF ++ chars "Accept: */*" ++ CRLF ++ CRLF.

#[export] Instance demo_kernel : Kernel (list (Z * arr)) unit := {
  sys_accept _ k := (5, k);
  sys_nonblock _ k := k;
  sys_recv _ len k := ((Z.of_nat (length demo_request), take (Z.to_nat len) demo_request), k);
  sys_send f b k := (Z.of_nat (length b), k ++ [(f, b)]);
  sys_close _ k := k;
  sys_getaddrinfo _ _ _ k := (Some [()], k);
  ai_family _ := 2;
  sys_socket _ k := (7, k);
  sys_bind _ _ k := (0, k);
  sys_connect _ _ k := (0, k);
  sys_listen_socket k := (3, k);
  sys_setsockopt _ k := (0, k);
  sys_bind_port _ _ k := (0, k);
  sys_listen _ _ k := (0, k);
  sys_poll l k := ((Z.of_nat (length l), (λ _, POLLIN) <$> l), k);
  sys_eintr _ := false;
  sys_malloc used _ := fresh (used ∪ {[0]});
  sys_memory n _ := replicate (Z.to_nat n) 0 }.

#[export] Instance demo_laws : KernelLaws (list (Z * arr)) unit.
Proof.
  split.
  - intros. simpl. rewrite length_take. lia.
  - intros. simpl. apply length_fmap.
  - done.
  - intros used k. pose proof (is_fresh (used ∪ {[0]})) as H. simpl. set_solver.
  - intros. simpl. apply length_replicate.
Qed.

#[export] Instance demo_junk : Junk := {| junk_owner := FD_LISTEN; junk_pollfd := mk_pollfd 0 0 0 |}.

Definition demo_client : mux_client := set_server_fd 7 (new_client 5 ([] : list (Z * arr))).

Definition demo_state : state (list (Z * arr)) :=
  mk_state [] {[16 := demo_client]} (mk_collection (16 :: replicate 7 0) 8) fdlist_create 3 0.

Lemma demo_inv : PInv demo_state.
Proof.
  split.
  - done.
  - apply NoDup_singleton.
  - intros p. change (p ∈ [16] ↔ is_Some (({[16 := demo_client]} : gmap Z mux_client) !! p)).
    rewrite lookup_singleton_is_Some, list_elem_of_singleton. naive_solver.
  - intros p c Hc. change (({[16 := demo_client]} : gmap Z mux_client) !! p = Some c) in Hc.
    apply lookup_singleton_Some in Hc as [_ <-]. apply wf_set_server, wf_new_client.
Qed.

Definition demo_buffer : arr :=
  demo_request ++ drop (length demo_request) (sys_memory CMD_BUF_SIZE ([] : list (Z * arr))).

Lemma demo_fits : (length demo_request < Z.to_nat CMD_BUF_SIZE)%nat.
Proof. change (length demo_request) with 42%nat. unfold CMD_BUF_SIZE. lia. Qed.

Lemma demo_received : received demo_client demo_state = Some demo_buffer.
Proof.
  unfold received, demo_buffer. cbn [sys_recv demo_kernel fst snd]. pose proof demo_fits.
  by rewrite take_ge by lia.
Qed.

Lemma demo_string : cstr demo_buffer = Some demo_request.
Proof.
  unfold demo_buffer. cbn [sys_memory demo_kernel]. rewrite drop_replicate. pose proof demo_fits.
  destruct (Z.to_nat CMD_BUF_SIZE - length demo_request)%nat eqn:E; [lia|]. simpl replicate.
  apply cstr_app. apply (bool_decide_unpack _). vm_compute. done.
Qed.

(** ** The properties *)

(** C5: Whatever the operating system answers, [main] runs for any number of
    turns with exactly two ways to stop early: a failed assertion, and a string
    function that reads behind a buffer because what was received, and the
    memory behind it, has no NUL.  The second is excluded when fresh memory ends
    in a NUL and recv never fills its buffer.  There is no other access to
    memory the proxy does not own, and the client list always holds exactly the
    allocated clients, each once, with both buffers of full size. *)
Theorem proxy_safe {K A} `{!Kernel K A} `{!KernelLaws K A} `{!Junk} n (k : K) :
  wp (λ e, e = Abort ∨ e = Overread ∧ ¬ terminated K A) (main n) (λ _ s, PInv s) (process k).
Proof.
  assert (wp (halts (terminated K A)) (main n) (λ _ s, Inv (terminated K A) s) (process k)) as Hm.
  { unfold main. eapply wp_seq; [apply create_socket_inv, process_inv|]. intros r s HI.
    apply wp_bind, wp_modify. apply main_loop_inv; [done|by apply Inv_fds|]. apply fdlist_create_ok. }
  unfold wp in *. destruct (main n (process k)) as [[r s]|[]]; try done; [apply Hm|by left|by right].
Qed.

(** The demonstration system terminates its strings, so that only the assertion
    is left. *)
Lemma proxy_safe_witness : wp (λ e, e = Abort) (main 3) (λ _ s, PInv s) (process ([] : list (Z * arr))).
Proof.
  pose proof (proxy_safe (A := unit) 3 ([] : list (Z * arr))) as Hm. revert Hm. unfold wp.
  destruct (main 3 (process [])) as [[r s]|e]; [done|]. intros [->|[_ Hn]]; [done|]. destruct Hn. split.
  - intros m k Hm. simpl. destruct (Z.to_nat m) as [|j] eqn:Ej; [lia|]. rewrite replicate_S_end. apply last_snoc.
  - intros f k. cbn [sys_recv demo_kernel fst snd]. rewrite length_take. pose proof demo_fits. lia.
Defined.

(** The descriptors handed to poll are the listening socket, then the
    server sockets and then the sockets of all clients in the order of the
    list.  The array never overflows, and it is either kept or less than
    twice as long as needed. *)
Theorem proxy_poll_list {K} `{!Junk} (s : state K) :
  PInv s → fdlist_wf (pollfds s) →
  ∃ L, build_fds s = Ok ((), set_pollfds L s) ∧
    entries L = as_entry <$> (FD_LISTEN, (listenfd s, POLLIN)) ::
      mjoin (server_entry <$> clients_of s) ++ mjoin (client_entry <$> clients_of s) ∧
    0 ≤ count L ≤ capacity L ∧ Z.of_nat (length (fds L)) = capacity L ∧ Z.of_nat (length (owners L)) = capacity L ∧
    (capacity L = capacity (pollfds s) ∨ capacity L < 2 * count L).
Proof.
  intros HI Hw. destruct (build_fds_ok s HI Hw) as (L & E & [? ? ? ?] & He & Hc). by exists L.
Qed.

Lemma proxy_poll_list_witness :
  ∃ L, build_fds demo_state = Ok ((), set_pollfds L demo_state) ∧
    entries L = as_entry <$> (FD_LISTEN, (listenfd demo_state, POLLIN)) ::
      mjoin (server_entry <$> clients_of demo_state) ++ mjoin (client_entry <$> clients_of demo_state) ∧
    0 ≤ count L ≤ capacity L ∧ Z.of_nat (length (fds L)) = capacity L ∧ Z.of_nat (length (owners L)) = capacity L ∧
    (capacity L = capacity (pollfds demo_state) ∨ capacity L < 2 * count L).
Proof. apply (proxy_poll_list demo_state); [apply demo_inv|apply fdlist_create_ok]. Defined.

(** C26: What a request does.  Without a [Host: ] line the assertion in
    [opensock] stops the whole proxy.  With one, the request is sent to that
    host cut off behind the host name: the line end there has been overwritten
    with NUL, so neither the rest of the header nor the empty line that ends
    it is sent. *)
Theorem process_recv_correct {K A} `{!Kernel K A} `{!KernelLaws K A} p c b r (s : state K) :
  PInv s → heap s !! p = Some c → received c s = Some b → cstr b = Some r →
  (strstr r (chars "Host: ") = None → process_recv p s = Err Abort) ∧
  (∀ pre h rest, r = pre ++ chars "Host: " ++ h ++ CRLF ++ rest →
     strstr r (chars "Host: ") = Some (length pre) → strstr (h ++ CRLF ++ rest) CRLF = Some (length h) →
     ∃ b', ∀ sfd s1, opensock (Some h) 80 (chars "192.168.151.251") (read_state p c b b' s) = Ok (sfd, s1) → sfd ≠ 0 →
     ∃ s', process_recv p s = Ok ((), s') ∧
       kern s' = (sys_send sfd (pre ++ chars "Host: " ++ h) (kern s1)).2).
Proof.
  intros HI Hp Hb Hr. split.
  - intros Hn. rewrite (process_recv_run p c b r s HI Hp Hb Hr None b); [done|]. by apply (parse_no_host b r).
  - intros pre h rest -> Hn He.
    destruct (parse_host b pre h rest (set_heap (<[p := set_ib (Some b) c]> (heap s))
      (set_kern (sys_recv (fd c) CMD_BUF_SIZE (kern s)).2 s)) Hr Hn He) as (b' & Hparse & Hb').
    exists b'. intros sfd s1 Ho Hs.
    assert (kern_only (read_state p c b b' s) s1) as [k1 ->].
    { pose proof (opensock_inv True (Some h) 80 (chars "192.168.151.251") (read_state p c b b' s)) as H.
      unfold wp in H. by rewrite Ho in H. }
    rewrite (process_recv_run p c b _ s HI Hp Hb Hr (Some h) b' Hparse), (bind_ok _ _ _ _ _ Ho).
    match goal with |- context [(put_client p ?c' ≫= _) ?s1] =>
      rewrite (bind_ok _ _ _ _ _ (put_client_ok s1 p _ c' (heap_put _ _ _))) end.
    rewrite (proj2 (Z.eqb_neq _ _) Hs). match goal with |- context [(string_in b' ≫= _) ?s1] =>
      rewrite (bind_ok _ _ _ _ s1 (ltac:(unfold string_in; by rewrite Hb') : string_in b' s1 = Ok (_, s1))) end.
    unfold mbind, M_bind, sys. rewrite (surjective_pairing (sys_send _ _ _)). by eexists.
Qed.

Lemma process_recv_correct_witness :
  ∃ b', ∀ sfd s1, opensock (Some (chars "a.b")) 80 (chars "192.168.151.251")
      (read_state 16 demo_client demo_buffer b' demo_state) = Ok (sfd, s1) →
    sfd ≠ 0 → ∃ s', process_recv 16 demo_state = Ok ((), s') ∧
      kern s' = (sys_send sfd ((chars "GET / HTTP/1.1" ++ CRLF) ++ chars "Host: " ++ chars "a.b") (kern s1)).2.
Proof.
  apply (proj2 (process_recv_correct 16 demo_client demo_buffer
    demo_request demo_state demo_inv eq_refl demo_received demo_string)
    (chars "GET / HTTP/1.1" ++ CRLF) (chars "a.b") (chars "Accept: */*" ++ CRLF ++ CRLF)); vm_compute; reflexivity.
Defined.

(** A reply of the server is never read: the descriptor poll reports for
    it is looked up among the descriptors of the clients, so nothing happens
    unless a client happens to have the same one. *)
Theorem proxy_reply_dropped {K A} `{!Kernel K A} f ev (s : state K) :
  PInv s → (∃ p c, heap s !! p = Some c ∧ server_fd c = f) → (∀ p c, heap s !! p = Some c → fd c ≠ f) →
  client_process f ev FD_SERVER s = Ok ((), s).
Proof.
  intros HI _ Hf. unfold client_process.
  rewrite (bind_ok _ _ _ (length (clist (client_list s))) s) by (unfold gets; by rewrite (p_wf s HI), Nat2Z.id).
  destruct (find_client_ok f s (length (clist (client_list s))) 0 HI ltac:(lia)) as (r & Er & Hr).
  rewrite (bind_ok _ _ _ _ _ Er). destruct r as [p|]; [|done]. destruct Hr as [_ Hr]. unfold fd_of in Hr.
  destruct (heap s !! p) as [c|] eqn:E; [|done]. injection Hr as Hr. by destruct (Hf p c E).
Qed.

Lemma proxy_reply_dropped_witness : client_process 7 POLLIN FD_SERVER demo_state = Ok ((), demo_state).
Proof.
  apply (proxy_reply_dropped 7 POLLIN demo_state demo_inv).
  - exists 16, demo_client. split; reflexivity.
  - intros p c Hc. change (({[16 := demo_client]} : gmap Z mux_client) !! p = Some c) in Hc.
    apply lookup_singleton_Some in Hc as [_ <-]. discriminate.
Defined.

(** [client_shutdown] closes the descriptors of all clients in the order
    of the list, frees every client and the list. *)
Theorem client_shutdown_correct {K A} `{!Kernel K A} `{!KernelLaws K A} (s : state K) :
  PInv s →
  ∃ s', client_shutdown s = Ok ((), s') ∧ heap s' = ∅ ∧ client_list s' = mk_collection [] 0 ∧
    kern s' = foldl (λ k c, sys_close (fd c) k) (kern s) (clients_of s).
Proof. by apply (shutdown_ok False). Qed.

Lemma client_shutdown_correct_witness :
  ∃ s', client_shutdown demo_state = Ok ((), s') ∧ heap s' = ∅ ∧ client_list s' = mk_collection [] 0 ∧
    kern s' = foldl (λ k c, sys_close (fd c) k) (kern demo_state) (clients_of demo_state).
Proof. apply (client_shutdown_correct demo_state demo_inv). Defined.
