(* ===== verification/Cksum.v ===== *)
(** * The Internet checksum (socket/icmp.c [cksum], socket/ping.c [inet_cksum])

    Both functions add the 16-bit words of a buffer in a 32-bit accumulator
    and fold the carries at the end; the machine is little-endian.  They are
    compared with the definition of RFC 1071, which adds the words with an
    end-around carry at every step, and a packet that carries its checksum is
    shown to verify. *)
From S2P Require Import Prelude CInt CArr.

(** The loop: [buf] is the rest of the buffer.  Reading behind it faults. *)
Fixpoint add_words (fuel : nat) (buf : arr) (nbytes sum : Z) : res (arr * Z * Z) :=
  if 1 <? nbytes then
    match fuel, buf with
    | S fuel, a :: b :: buf => add_words fuel buf (nbytes - 2) (u32 (sum + (a + 2 ^ 8 * b)))
    | S _, _ => Err Segv
    | O, _ => Err Fuel
    end
  else Ok (buf, nbytes, sum).

(** The carries of the upper half. *)
Definition fold_carries (sum : Z) : Z :=
  let sum := u32 (Z.shiftr sum 16 + Z.land sum 0xffff) in
  u32 (sum + Z.shiftr sum 16).

Definition cksum (buf : arr) (nbytes : Z) : res Z :=
  match add_words (Z.to_nat nbytes) buf nbytes 0 with
  | Err e => Err e
  | Ok (buf, nbytes, sum) =>
      if nbytes =? 1 then
        match buf with
        | a :: _ => Ok (u16 (Z.lnot (fold_carries (u32 (sum + a)))))
        | [] => Err Segv
        end
      else Ok (u16 (Z.lnot (fold_carries sum)))
  end.

(** On a little-endian machine the odd byte is added as it is. *)
Definition BB_LITTLE_ENDIAN : bool := true.

Definition inet_cksum (addr : arr) (nleft : Z) : res Z :=
  match add_words (Z.to_nat nleft) addr nleft 0 with
  | Err e => Err e
  | Ok (addr, nleft, sum) =>
      if nleft =? 1 then
        match addr with
        | a :: _ => Ok (u16 (Z.lnot (fold_carries (u32 (sum + (if BB_LITTLE_ENDIAN then a else Z.shiftl a 8))))))
        | [] => Err Segv
        end
      else Ok (u16 (Z.lnot (fold_carries sum)))
  end.

(** ** The definition of RFC 1071 *)

(** The 16-bit words, an odd byte padded with zero. *)
Fixpoint words (l : arr) : list Z :=
  match l with
  | a :: b :: l => (a + 2 ^ 8 * b) :: words l
  | [a] => [a]
  | [] => []
  end.

(** Addition with end-around carry. *)
Definition oc_add (x y : Z) : Z := (x + y) mod 2 ^ 16 + (x + y) / 2 ^ 16.

Definition rfc_checksum (l : arr) : Z := 0xffff - foldl oc_add 0 (words l).

Fixpoint zsum (l : list Z) : Z := match l with [] => 0 | x :: l => x + zsum l end.

(** ** The equivalence *)

(** A number between 0 and 0xffff is determined by its remainder modulo 0xffff
    and whether it is zero. *)
Record folds (s x : Z) : Prop := {
  folds_range : 0 ≤ x ≤ 0xffff;
  folds_mod : x mod 0xffff = s mod 0xffff;
  folds_zero : x = 0 ↔ s = 0 }.

Lemma folds_unique s x y : folds s x → folds s y → x = y.
Proof.
  intros [Hx Ex Zx] [Hy Ey Zy]. destruct (decide (s = 0)) as [Hs|Hs]; [apply Zx in Hs as Hx0; apply Zy in Hs; lia|].
  assert (x ≠ 0 ∧ y ≠ 0) as [? ?] by naive_solver.
  rewrite <- Ey in Ex. Z.div_mod_to_equations. lia.
Qed.

Lemma fold_step s : 0 ≤ s → let x := s mod 2 ^ 16 + s / 2 ^ 16 in x mod 0xffff = s mod 0xffff ∧ 0 ≤ x ∧ (x = 0 ↔ s = 0).
Proof.
  intros Hs x. subst x. pose proof (Z.div_mod s (2 ^ 16)). pose proof (Z.mod_pos_bound s (2 ^ 16)).
  assert (0 ≤ s / 2 ^ 16) by (apply Z.div_pos; lia).
  split; [|lia]. replace s with (s mod 2 ^ 16 + s / 2 ^ 16 + s / 2 ^ 16 * 0xffff) at 3 by lia.
  by rewrite Z.mod_add by lia.
Qed.

Lemma oc_add_folds s x w : 0 ≤ s → folds s x → is_u16 w → folds (s + w) (oc_add x w).
Proof.
  intros Hs [Hx Ex Zx] [Hw Hw']. unfold oc_add. destruct (fold_step (x + w)) as (E & H0 & Hz); [lia|]. split.
  - split; [lia|]. Z.div_mod_to_equations. lia.
  - rewrite E, <- (Z.add_mod_idemp_l s), <- Ex, Z.add_mod_idemp_l by lia. done.
  - rewrite Hz. lia.
Qed.

Lemma foldl_folds l s x : 0 ≤ s → folds s x → Forall is_u16 l → folds (s + zsum l) (foldl oc_add x l).
Proof.
  intros Hs Hx Hl. revert s x Hs Hx. induction Hl as [|w l Hw Hl IH]; intros s x Hs Hx; simpl.
  - by rewrite Z.add_0_r.
  - rewrite Z.add_assoc. apply IH; [destruct Hw; lia|]. by apply oc_add_folds.
Qed.

(** Induction two elements at a time. *)
Lemma pairs_ind {A} (P : list A → Prop) :
  P [] → (∀ a, P [a]) → (∀ a b l, P l → P (a :: b :: l)) → ∀ l, P l.
Proof.
  intros H0 H1 H2 l. enough (P l ∧ ∀ a, P (a :: l)) as [? _] by done.
  induction l as [|b l [IH1 IH2]]; [auto|]. split; [apply IH2|]. intros a. by apply H2.
Qed.

Lemma words_u16 l : Forall is_u8 l → Forall is_u16 (words l).
Proof.
  induction l as [|a|a b l IH] using pairs_ind; simpl; [done| |].
  - intros [[? ?] _]%Forall_cons. repeat constructor; lia.
  - intros [[? ?] [[? ?] Hl]%Forall_cons]%Forall_cons. constructor; [unfold is_u16; lia|]. by apply IH.
Qed.

Lemma words_sum l : Forall is_u8 l → 0 ≤ zsum (words l) ≤ 0xffff * Z.of_nat ((length l + 1) / 2).
Proof.
  induction l as [|a|a b l IH] using pairs_ind; cbn [words zsum length]; [done| |].
  - intros [[? ?] _]%Forall_cons. change ((1 + 1) / 2)%nat with 1%nat. lia.
  - intros [[? ?] [[? ?] Hl]%Forall_cons]%Forall_cons. specialize (IH Hl).
    replace (S (S (length l)) + 1)%nat with (length l + 1 + 1 * 2)%nat by lia. rewrite Nat.div_add by lia. lia.
Qed.

(** The loop adds all words. *)
Lemma add_words_ok fuel l n sum :
  Forall is_u8 l → n = Z.of_nat (length l) → (length l ≤ fuel)%nat → 0 ≤ sum → sum + zsum (words l) < 2 ^ 32 →
  ∃ r k s, add_words fuel l n sum = Ok (r, k, s) ∧ k ≠ 1 ∧ s = sum + zsum (words l) ∨
    ∃ a, add_words fuel l n sum = Ok ([a], 1, s) ∧ is_u8 a ∧ s + a = sum + zsum (words l) ∧ 0 ≤ s.
Proof.
  intros Hl. revert fuel n sum. induction l as [|a|a b l IH] using pairs_ind; intros fuel n sum -> Hf Hs Hlt.
  - exists [], 0, sum. left. split; [by destruct fuel|]. simpl. lia.
  - exists [], 0, sum. right. exists a. apply Forall_cons in Hl as [Ha _]. split; [by destruct fuel|].
    split; [done|]. simpl. lia.
  - apply Forall_cons in Hl as [[? ?] Hl]. apply Forall_cons in Hl as [[? ?] Hl].
    destruct fuel as [|fuel]; [simpl in Hf; lia|]. cbn [add_words length words zsum] in *.
    rewrite (proj2 (Z.ltb_lt _ _)) by lia. pose proof (words_sum l Hl).
    rewrite u32_id by (unfold is_u32; lia).
    destruct (IH Hl fuel (Z.of_nat (S (S (length l))) - 2) (sum + (a + 2 ^ 8 * b))) as (r & k & s & H'); [lia..|].
    exists r, k, s. destruct H' as [(E & Hk & Es)|(c & E & Hc & Es & Hpos)]; [left|right; exists c]; rewrite E.
    + split; [done|]. split; [done|lia].
    + split; [done|]. split; [done|lia].
Qed.

Lemma fold_carries_folds s : 0 ≤ s < 2 ^ 32 → folds s (u16 (fold_carries s)).
Proof.
  intros Hs. unfold fold_carries. change 0xffff with (Z.ones 16). rewrite land_mask by lia.
  change (Z.ones 16) with 0xffff.
  rewrite !Z.shiftr_div_pow2 by lia. destruct (fold_step s) as (E & H0 & Hz); [lia|].
  set (x := s mod 2 ^ 16 + s / 2 ^ 16) in *.
  assert (x ≤ 131070) as Hx by (subst x; Z.div_mod_to_equations; lia).
  rewrite (Z.add_comm (s / 2 ^ 16)). fold x. rewrite (u32_id x) by (unfold is_u32; lia).
  assert (is_u32 (x + x / 2 ^ 16)) as Hu by (unfold is_u32; Z.div_mod_to_equations; lia).
  rewrite (u32_id _ Hu). unfold u16. split.
  - pose proof (Z.mod_pos_bound (x + x / 2 ^ 16) (2 ^ 16)). lia.
  - rewrite <- E. Z.div_mod_to_equations. lia.
  - rewrite <- Hz. Z.div_mod_to_equations. lia.
Qed.

Lemma u16_lnot x : u16 (Z.lnot x) = 0xffff - u16 x.
Proof. unfold u16, Z.lnot. Z.div_mod_to_equations. lia. Qed.

(** The sum of a buffer up to this size fits into 32 bits. *)
Definition MAX_BUF : Z := 2 ^ 17.

Lemma buf_sum l : Forall is_u8 l → Z.of_nat (length l) ≤ MAX_BUF → 0 ≤ zsum (words l) < 2 ^ 32.
Proof.
  intros Hl Hn. pose proof (words_sum l Hl). unfold MAX_BUF in Hn.
  assert (Z.of_nat ((length l + 1) / 2) ≤ 65536); [|lia].
  rewrite Nat2Z.inj_div. Z.div_mod_to_equations. lia.
Qed.

Lemma rfc_folds l : Forall is_u8 l → folds (zsum (words l)) (0xffff - rfc_checksum l).
Proof.
  intros Hl. unfold rfc_checksum. replace (0xffff - (0xffff - foldl oc_add 0 (words l))) with (foldl oc_add 0 (words l)) by lia.
  apply (foldl_folds (words l) 0 0); [lia| |by apply words_u16]. by split.
Qed.

Lemma cksum_ok l :
  Forall is_u8 l → Z.of_nat (length l) ≤ MAX_BUF → cksum l (Z.of_nat (length l)) = Ok (rfc_checksum l).
Proof.
  intros Hl Hn. pose proof (buf_sum l Hl Hn) as Hs. unfold cksum.
  assert (∀ s, s = zsum (words l) → u16 (Z.lnot (fold_carries s)) = rfc_checksum l) as Hend.
  { intros s ->. rewrite u16_lnot.
    rewrite (folds_unique _ _ _ (fold_carries_folds _ Hs) (rfc_folds l Hl)). lia. }
  destruct (add_words_ok (Z.to_nat (Z.of_nat (length l))) l (Z.of_nat (length l)) 0 Hl eq_refl) as (r & k & s & H'); [lia..|].
  destruct H' as [(-> & Hk & Es)|(a & -> & Ha & Es & Hpos)].
  - rewrite (proj2 (Z.eqb_neq _ _) Hk), Hend; [done|lia].
  - simpl. rewrite Hend; [done|]. rewrite u32_id; [lia|]. destruct Ha. unfold is_u32. lia.
Qed.

Lemma cksum_len l n :
  Forall is_u8 l → n = Z.of_nat (length l) → n ≤ MAX_BUF → cksum l n = Ok (rfc_checksum l).
Proof. intros Hl -> Hn. by apply cksum_ok. Qed.

(** ** Packets that carry their checksum *)
Lemma words16_app a b : Nat.Even (length a) → words (a ++ b) = words a ++ words b.
Proof.
  induction a as [|x|x y a IH] using pairs_ind; intros He; simpl in *; [done| |].
  - destruct He. lia.
  - rewrite IH; [done|]. destruct He as [k Hk]. exists (k - 1)%nat. lia.
Qed.

Lemma zsum_app a b : zsum (a ++ b) = zsum a + zsum b.
Proof. induction a; simpl; lia. Qed.

Lemma checksum_range l : Forall is_u8 l → is_u16 (rfc_checksum l).
Proof. intros Hl. destruct (rfc_folds l Hl) as [? _ _]. unfold is_u16. lia. Qed.

(** The checksum is computed over the packet with zero in its place; stored
    there it makes the checksum of the packet zero, which is what a receiver
    tests. *)
Lemma checksum_verifies a b :
  Nat.Even (length a) → Forall is_u8 a → Forall is_u8 b →
  rfc_checksum (a ++ le16 (rfc_checksum (a ++ 0 :: 0 :: b)) ++ b) = 0.
Proof.
  intros He Ha Hb.
  assert (Forall is_u8 (a ++ 0 :: 0 :: b)) as Hl.
  { apply Forall_app. split; [done|]. repeat constructor; auto; lia. }
  set (c := rfc_checksum (a ++ 0 :: 0 :: b)). pose proof (checksum_range _ Hl) as Hc. fold c in Hc.
  pose proof (rfc_folds _ Hl) as [Hx Ex Zx]. fold c in Hx, Ex, Zx.
  assert (Forall is_u8 (a ++ le16 c ++ b)) as Hl' by (rewrite !Forall_app; auto using le16_u8).
  assert (zsum (words (a ++ le16 c ++ b)) = zsum (words (a ++ 0 :: 0 :: b)) + c) as Es.
  { rewrite (words16_app a (le16 c ++ b)), (words16_app a (0 :: 0 :: b)), !zsum_app by done. cbn [le16 app words zsum]. rewrite (le16_value c Hc). lia. }
  pose proof (rfc_folds _ Hl') as Hf. rewrite Es in Hf.
  assert (folds (zsum (words (a ++ 0 :: 0 :: b)) + c) 0xffff) as Hg.
  { split; [lia| |].
    - rewrite <- Z.add_mod_idemp_l, <- Ex, Z.add_mod_idemp_l by lia. by replace (0xffff - c + c) with 0xffff by lia.
    - split; [done|]. intros E. destruct Hc. assert (0 ≤ zsum (words (a ++ 0 :: 0 :: b))) by (pose proof (words_sum _ Hl); lia). lia. }
  pose proof (folds_unique _ _ _ Hf Hg). lia.
Qed.

(** Zeros behind the data do not count. *)
Lemma words_zeros n : zsum (words (replicate n 0)) = 0.
Proof.
  enough (zsum (words (replicate n 0)) = 0 ∧ zsum (words (replicate (S n) 0)) = 0) by tauto.
  induction n as [|n [IH1 IH2]]; [done|]. split; [done|]. cbn [replicate words zsum] in *. lia.
Qed.

Lemma checksum_zeros l n :
  Nat.Even (length l) → Forall is_u8 l → rfc_checksum (l ++ replicate n 0) = rfc_checksum l.
Proof.
  intros He Hl. assert (Forall is_u8 (l ++ replicate n 0)) as Hz.
  { apply Forall_app. split; [done|]. apply Forall_replicate. unfold is_u8. lia. }
  pose proof (rfc_folds _ Hz) as Hf. rewrite words16_app, zsum_app, words_zeros, Z.add_0_r in Hf by done.
  pose proof (folds_unique _ _ _ Hf (rfc_folds l Hl)). lia.
Qed.

(** C11: Both checksum functions compute the checksum of RFC 1071, the
    complement of the sum of the 16-bit words with end-around carry, on every
    buffer of at most [MAX_BUF] bytes, although they fold the carries of a
    32-bit accumulator only at the end; and where the buffer has a field of two
    zero bytes at an even offset, the checksum stored there makes the checksum
    of the packet zero. *)
Theorem cksum_rfc1071 l : Forall is_u8 l → Z.of_nat (length l) ≤ MAX_BUF →
  ∃ c, cksum l (Z.of_nat (length l)) = Ok c ∧ inet_cksum l (Z.of_nat (length l)) = Ok c ∧
    c = rfc_checksum l ∧ is_u16 c ∧
    ∀ a b, l = a ++ 0 :: 0 :: b → Nat.Even (length a) →
      cksum (a ++ le16 c ++ b) (Z.of_nat (length l)) = Ok 0 ∧ inet_cksum (a ++ le16 c ++ b) (Z.of_nat (length l)) = Ok 0.
Proof.
  intros Hl Hn. exists (rfc_checksum l).
  split; [by apply cksum_ok|]. split; [by apply cksum_ok|]. split; [done|]. split; [by apply checksum_range|]. intros a b -> He.
  apply Forall_app in Hl as [Ha Hb]. apply Forall_cons in Hb as [_ Hb]. apply Forall_cons in Hb as [_ Hb].
  assert (length (a ++ 0 :: 0 :: b) = length (a ++ le16 (rfc_checksum (a ++ 0 :: 0 :: b)) ++ b)) as El
    by (by rewrite !length_app).
  assert (cksum (a ++ le16 (rfc_checksum (a ++ 0 :: 0 :: b)) ++ b) (Z.of_nat (length (a ++ 0 :: 0 :: b))) = Ok 0) as E; [|by split].
  rewrite El in *. rewrite cksum_ok; [by rewrite checksum_verifies|rewrite !Forall_app; auto using le16_u8|done].
Qed.

Lemma cksum_rfc1071_witness :
  ∃ c, cksum [8; 0; 0; 0; 0x17; 0x02; 0x7b; 0; 5] 9 = Ok c ∧ inet_cksum [8; 0; 0; 0; 0x17; 0x02; 0x7b; 0; 5] 9 = Ok c ∧
    c = rfc_checksum [8; 0; 0; 0; 0x17; 0x02; 0x7b; 0; 5] ∧ is_u16 c ∧
    cksum ([8; 0] ++ le16 c ++ [0x17; 0x02; 0x7b; 0; 5]) 9 = Ok 0.
Proof.
  destruct (cksum_rfc1071 [8; 0; 0; 0; 0x17; 0x02; 0x7b; 0; 5]) as (c & E1 & E2 & E3 & Hc & Hv).
  - repeat constructor; vm_compute; discriminate.
  - vm_compute. discriminate.
  - exists c. repeat split; [exact E1|exact E2|exact E3|apply Hc|apply Hc|].
    apply (Hv [8; 0] [0x17; 0x02; 0x7b; 0; 5]); [reflexivity|]. exists 1%nat. reflexivity.
Defined.
