(* ===== verification/Icmp.v ===== *)
(** * The ICMP echo sender (socket/icmp.c)

    The program builds an ICMP echo request and an IP header in memory and
    sends both through a raw socket.  The global variables of the program are
    the state; the operating system is a parameter [RawNet].  Packets are
    lists of bytes laid out as on a little-endian machine, where the compiler
    puts the first bit field of a byte into its low bits. *)
From Stdlib Require Import String.
From S2P Require Import Prelude CInt CArr Cksum.

(** [errno == EINTR] is part of the answer of sendto. *)
Class RawNet (K : Type) := {
  rn_rand : K → Z * K;
  rn_getpid : Z;
  rn_malloc : Z → K → bool;
  rn_socket : K → Z * K;
  rn_sendto : Z → arr → K → (Z * bool) * K;
  rn_read : Z → K → arr * K;
  rn_close : Z → K → K;
  rn_inet_addr : arr → Z;
  rn_gethostbyname : arr → K → option arr * K;
  rn_getaddrinfo : arr → K → option (list Z) * K }.

Definition IPHDR_SIZE : Z := 20.
Definition ICMPHDR_SIZE : Z := 8.

(** [struct myiphdr]; the fields in the order of the source. *)
Record myiphdr := mk_iphdr {
  version : Z; ihl : Z; tos : Z; tot_len : Z; ip_id : Z; frag_off : Z;
  ttl : Z; protocol : Z; check : Z; saddr : Z; daddr : Z }.

(** The bytes of the header: [version] is declared first and takes the low
    half of the first byte. *)
Definition iphdr_bytes (h : myiphdr) : arr :=
  [version h mod 2 ^ 4 + 2 ^ 4 * (ihl h mod 2 ^ 4); u8 (tos h)] ++ le16 (tot_len h) ++ le16 (ip_id h) ++
  le16 (frag_off h) ++ [u8 (ttl h); u8 (protocol h)] ++ le16 (check h) ++ le32 (saddr h) ++ le32 (daddr h).

(** [struct myicmphdr] with the echo member of the union. *)
Record myicmphdr := mk_icmphdr { icmp_type : Z; icmp_code : Z; checksum : Z; echo_id : Z; echo_sequence : Z }.

Definition icmphdr_bytes (h : myicmphdr) : arr :=
  [u8 (icmp_type h); u8 (icmp_code h)] ++ le16 (checksum h) ++ le16 (echo_id h) ++ le16 (echo_sequence h).

(** The global variables.  Addresses are 32-bit numbers in network order. *)
Record globals (K : Type) := mk_globals {
  kern : K;
  _icmp_seq : Z; opt_icmptype : Z; opt_icmpcode : Z; icmp_cksum : Z;
  local : Z; remote : Z;
  src_ttl : Z; src_id : Z; opt_safe : Z; eof_reached : Z; opt_rand_dest : Z; opt_rand_source : Z;
  opt_rawipmode : Z; opt_icmpmode : Z;
  sockraw : Z; ip_tos : Z; opt_fragment : Z; ip_optlen : Z; ip_opt : arr }.
Arguments mk_globals {K}.
Arguments kern {K}.
Arguments _icmp_seq {K}.
Arguments opt_icmptype {K}.
Arguments opt_icmpcode {K}.
Arguments icmp_cksum {K}.
Arguments local {K}.
Arguments remote {K}.
Arguments src_ttl {K}.
Arguments src_id {K}.
Arguments opt_safe {K}.
Arguments eof_reached {K}.
Arguments opt_rand_dest {K}.
Arguments opt_rand_source {K}.
Arguments opt_rawipmode {K}.
Arguments opt_icmpmode {K}.
Arguments sockraw {K}.
Arguments ip_tos {K}.
Arguments opt_fragment {K}.
Arguments ip_optlen {K}.
Arguments ip_opt {K}.

(** The values of the initialisers. *)
Definition init_globals {K} (k : K) : globals K :=
  mk_globals k 0 8 0 (-1) 0 0 64 (-1) 0 0 0 0 0 1 0 0 0 0 (replicate 40 0).

Section icmp.
Context {K : Type} `{!RawNet K}.

Definition set_kern (k : K) (g : globals K) : globals K :=
  mk_globals k (_icmp_seq g) (opt_icmptype g) (opt_icmpcode g) (icmp_cksum g) (local g) (remote g) (src_ttl g)
    (src_id g) (opt_safe g) (eof_reached g) (opt_rand_dest g) (opt_rand_source g) (opt_rawipmode g)
    (opt_icmpmode g) (sockraw g) (ip_tos g) (opt_fragment g) (ip_optlen g) (ip_opt g).
Definition set_seq (n : Z) (g : globals K) : globals K :=
  mk_globals (kern g) n (opt_icmptype g) (opt_icmpcode g) (icmp_cksum g) (local g) (remote g) (src_ttl g)
    (src_id g) (opt_safe g) (eof_reached g) (opt_rand_dest g) (opt_rand_source g) (opt_rawipmode g)
    (opt_icmpmode g) (sockraw g) (ip_tos g) (opt_fragment g) (ip_optlen g) (ip_opt g).
Definition set_src_id (n : Z) (g : globals K) : globals K :=
  mk_globals (kern g) (_icmp_seq g) (opt_icmptype g) (opt_icmpcode g) (icmp_cksum g) (local g) (remote g) (src_ttl g)
    n (opt_safe g) (eof_reached g) (opt_rand_dest g) (opt_rand_source g) (opt_rawipmode g)
    (opt_icmpmode g) (sockraw g) (ip_tos g) (opt_fragment g) (ip_optlen g) (ip_opt g).
Definition set_addrs (l r : Z) (g : globals K) : globals K :=
  mk_globals (kern g) (_icmp_seq g) (opt_icmptype g) (opt_icmpcode g) (icmp_cksum g) l r (src_ttl g)
    (src_id g) (opt_safe g) (eof_reached g) (opt_rand_dest g) (opt_rand_source g) (opt_rawipmode g)
    (opt_icmpmode g) (sockraw g) (ip_tos g) (opt_fragment g) (ip_optlen g) (ip_opt g).
Definition set_sockraw (s : Z) (g : globals K) : globals K :=
  mk_globals (kern g) (_icmp_seq g) (opt_icmptype g) (opt_icmpcode g) (icmp_cksum g) (local g) (remote g) (src_ttl g)
    (src_id g) (opt_safe g) (eof_reached g) (opt_rand_dest g) (opt_rand_source g) (opt_rawipmode g)
    (opt_icmpmode g) s (ip_tos g) (opt_fragment g) (ip_optlen g) (ip_opt g).

Definition sys {R} (f : K → R * K) : M (globals K) R := λ g,
  let '(r, k) := f (kern g) in Ok (r, set_kern k g).

(** memcpy of [n] bytes. *)
Definition memcpy (src : arr) (n : Z) : M (globals K) arr :=
  if bool_decide (0 ≤ n ≤ Z.of_nat (length src)) then mret (take (Z.to_nat n) src) else fail Segv.

(** *** Name resolution *)

(** The address of the first entry; [None] when the name is unknown. *)
Definition wd_gethostbyname (name : arr) : M (globals K) (option Z) :=
  r ← sys (rn_getaddrinfo name);
  mret (match r with Some (a :: _) => Some a | Some [] => Some 0 | None => None end).

(** The address as a number; a failed inet_addr is [INADDR_NONE]. *)
Definition INADDR_NONE : Z := 2 ^ 32 - 1.

Definition le_value (b : arr) : Z := foldr (λ x v, x + 2 ^ 8 * v) 0 b.

Definition resolve_addr (hostname : arr) : M (globals K) (Z * Z) :=
  if rn_inet_addr hostname =? INADDR_NONE then
    r ← sys (rn_gethostbyname hostname);
    match r with
    | Some h_addr => mret (0, u32 (le_value h_addr))
    | None => mret (-1, INADDR_NONE)
    end
  else mret (0, rn_inet_addr hostname).

Definition resolve (hostname : arr) : M (globals K) Z :=
  r ← resolve_addr hostname;
  if r.1 =? -1 then fail Exit else mret r.2.

(** *** Sending *)

(** The identification field. *)
Definition choose_id : M (globals K) Z :=
  g ← gets id;
  if opt_fragment g =? 0 then
    if src_id g =? -1 then r ← sys rn_rand; mret (htons (u16 r)) else mret (htons (u16 (src_id g)))
  else
    if src_id g =? -1 then mret (htons (Z.land rn_getpid 255)) else mret (htons (u16 (src_id g))).

Definition send_ip (data : arr) (datalen more_fragments fragoff : Z) (options : option arr) (optlen : Z) : M (globals K) unit :=
  let packetsize := s32 (IPHDR_SIZE + optlen + datalen) in
  ok ← gets (λ g, rn_malloc packetsize (kern g));
  if negb ok then mret ()
  else
    ident ← choose_id;
    g ← gets id;
    let ip := mk_iphdr 4 (Z.shiftr (IPHDR_SIZE + optlen + 3) 2) (ip_tos g) (htons (u16 packetsize)) ident
      (Z.lor (htons (u16 more_fragments)) (htons (Z.shiftr fragoff 3))) (src_ttl g)
      (if opt_rawipmode g =? 0 then if opt_icmpmode g =? 0 then 6 else 1 else 6) 0 (local g) (remote g) in
    opts ← match options with Some o => memcpy o optlen | None => mret (replicate (Z.to_nat optlen) 0) end;
    body ← memcpy data datalen;
    let packet := iphdr_bytes ip ++ opts ++ body in
    r ← sys (rn_sendto (sockraw g) packet);
    if (r.1 =? -1) && negb r.2 && (opt_rand_dest g =? 0) && (opt_rand_source g =? 0) then
      modify (λ g, set_kern (rn_close (sockraw g) (kern g)) g);; fail Exit
    else
      (if negb (opt_safe g =? 0) && (eof_reached g =? 0) then modify (λ g, set_src_id (src_id g + 1) g) else mret ()).

Definition send_ip_handler (packet : arr) (size : Z) : M (globals K) unit :=
  g ← gets id;
  if opt_fragment g =? 0 then send_ip packet size 0 0 (Some (ip_opt g)) (ip_optlen g) else mret ().

(** The checksum of the header bytes, where it cannot fault. *)
Definition run_cksum (buf : arr) (n : Z) : M (globals K) Z :=
  match cksum buf n with Ok c => mret c | Err e => fail e end.

Definition send_icmp_echo : M (globals K) unit :=
  ok ← gets (λ g, rn_malloc ICMPHDR_SIZE (kern g));
  if negb ok then mret ()
  else
    g ← gets id;
    let icmp := mk_icmphdr (opt_icmptype g) (opt_icmpcode g) 0 (Z.land rn_getpid 0xffff) (_icmp_seq g) in
    c ← (if icmp_cksum g =? -1 then run_cksum (icmphdr_bytes icmp) ICMPHDR_SIZE else mret (u16 (icmp_cksum g)));
    let icmp := mk_icmphdr (icmp_type icmp) (icmp_code icmp) c (echo_id icmp) (echo_sequence icmp) in
    send_ip_handler (icmphdr_bytes icmp) ICMPHDR_SIZE;;
    modify (λ g, set_seq (_icmp_seq g + 1) g).

Definition open_sockraw : M (globals K) Z :=
  s ← sys rn_socket;
  if s =? -1 then mret (-1) else mret s.

(** [n] turns of the loop of [main]. *)
Fixpoint echo_loop (n : nat) : M (globals K) unit :=
  match n with
  | O => mret ()
  | S n => send_icmp_echo;; g ← gets id; _ ← sys (rn_read (sockraw g)); echo_loop n
  end.

Definition main (n : nat) : M (globals K) unit :=
  r ← resolve (chars "112.74.112.103");
  modify (λ g, set_addrs (local g) r g);;
  l ← resolve (chars "192.168.0.189");
  modify (λ g, set_addrs l (remote g) g);;
  s ← open_sockraw;
  modify (set_sockraw s);;
  if s =? -1 then fail Exit else echo_loop n.
End icmp.

(** ** Properties *)
Section props.
Context {K : Type} `{!RawNet K}.
Implicit Type g : globals K.

Lemma icmphdr_u8 h : Forall is_u8 (icmphdr_bytes h).
Proof.
  unfold icmphdr_bytes. rewrite !Forall_app. split; [repeat constructor; apply Z.mod_pos_bound; lia|].
  auto using le16_u8.
Qed.

Lemma icmphdr_split t c k i s :
  icmphdr_bytes (mk_icmphdr t c k i s) = [u8 t; u8 c] ++ le16 k ++ (le16 i ++ le16 s).
Proof. done. Qed.

Lemma icmphdr_cksum t c k i s :
  cksum (icmphdr_bytes (mk_icmphdr t c k i s)) ICMPHDR_SIZE = Ok (rfc_checksum (icmphdr_bytes (mk_icmphdr t c k i s))).
Proof. apply cksum_len; [apply icmphdr_u8|done|done]. Qed.

(** The header with its checksum verifies. *)
Lemma icmp_verifies t c i s :
  ∃ k, cksum (icmphdr_bytes (mk_icmphdr t c 0 i s)) ICMPHDR_SIZE = Ok k ∧
    cksum (icmphdr_bytes (mk_icmphdr t c k i s)) ICMPHDR_SIZE = Ok 0.
Proof.
  exists (rfc_checksum (icmphdr_bytes (mk_icmphdr t c 0 i s))). rewrite !icmphdr_cksum. split; [done|].
  rewrite !icmphdr_split. change (le16 0 ++ (le16 i ++ le16 s)) with (0 :: 0 :: (le16 i ++ le16 s)).
  rewrite (checksum_verifies [u8 t; u8 c] (le16 i ++ le16 s)); [done|by exists 1%nat| |].
  - repeat constructor; apply Z.mod_pos_bound; lia.
  - rewrite Forall_app. auto using le16_u8.
Qed.

Lemma sys_run {R} (f : K → R * K) g r k : f (kern g) = (r, k) → sys f g = Ok (r, set_kern k g).
Proof. unfold sys. by intros ->. Qed.

Lemma choose_id_ok g : ∃ i k, choose_id g = Ok (i, set_kern k g) ∧ is_u16 i.
Proof.
  unfold choose_id. rewrite (bind_ok _ _ _ g g) by done.
  assert (∀ x, ∃ i k, (mret (htons x) : M (globals K) Z) g = Ok (i, set_kern k g) ∧ is_u16 i) as Hret.
  { intros x. exists (htons x), (kern g). split; [by destruct g|apply htons_range]. }
  destruct (opt_fragment g =? 0), (src_id g =? -1); try apply Hret.
  destruct (rn_rand (kern g)) as [r k] eqn:E. rewrite (bind_ok _ _ _ _ _ (sys_run _ _ _ _ E)).
  exists (htons (u16 r)), k. split; [done|apply htons_range].
Qed.

Lemma copy_bytes_ok src n g :
  0 ≤ n ≤ Z.of_nat (length src) → memcpy src n g = Ok (take (Z.to_nat n) src, g).
Proof. intros Hn. unfold memcpy. by rewrite bool_decide_true. Qed.

(** The IP header of a packet of [size] bytes. *)
Definition echo_iphdr (g : globals K) (i size : Z) : myiphdr :=
  mk_iphdr 4 (Z.shiftr (IPHDR_SIZE + ip_optlen g + 3) 2) (ip_tos g) (htons (u16 size)) i
    (Z.lor (htons (u16 0)) (htons (Z.shiftr 0 3))) (src_ttl g) 1 0 (local g) (remote g).

Lemma echo_iphdr_ok g i size :
  0 ≤ ip_optlen g ≤ 40 → 0 ≤ size < 2 ^ 16 →
  let hdr := iphdr_bytes (echo_iphdr g i size) in
  length hdr = 20%nat ∧ hdr !! 0%nat = Some (4 + 16 * ((IPHDR_SIZE + ip_optlen g + 3) / 4)) ∧
  take 2 (drop 2 hdr) = [size / 2 ^ 8; size mod 2 ^ 8] ∧ hdr !! 9%nat = Some 1.
Proof.
  intros Ho Hs hdr. subst hdr. split; [done|]. split; [|split; [|done]].
  - unfold echo_iphdr, iphdr_bytes. cbn [version ihl app lookup list_lookup]. f_equal.
    rewrite Z.shiftr_div_pow2 by lia. change (2 ^ 2) with 4.
    rewrite (Z.mod_small (_ / 4)); [change (4 mod 2 ^ 4) with 4; lia|]. unfold IPHDR_SIZE. Z.div_mod_to_equations. lia.
  - change (take 2 (drop 2 (iphdr_bytes (echo_iphdr g i size)))) with (le16 (htons (u16 size))).
    rewrite le16_htons, u16_id by (unfold is_u16; lia).
    rewrite (Z.mod_small (_ / _)); [done|]. Z.div_mod_to_equations. lia.
Qed.

(** The globals under which the program sends. *)
Record sending (g : globals K) : Prop := {
  snd_cksum : icmp_cksum g = -1;
  snd_fragment : opt_fragment g = 0;
  snd_optlen : 0 ≤ ip_optlen g ≤ 40;
  snd_opt : Z.of_nat (length (ip_opt g)) = 40;
  snd_raw : opt_rawipmode g = 0;
  snd_icmp : opt_icmpmode g ≠ 0;
  snd_safe : opt_safe g = 0 }.

Lemma send_ip_ok g data i k r e k' :
  let size := IPHDR_SIZE + ip_optlen g + Z.of_nat (length data) in
  sending g → (length data ≤ 1000)%nat → rn_malloc size (kern g) = true → choose_id g = Ok (i, set_kern k g) →
  rn_sendto (sockraw g) (iphdr_bytes (echo_iphdr g i size) ++ take (Z.to_nat (ip_optlen g)) (ip_opt g) ++ data) k = ((r, e), k') →
  r ≠ -1 → send_ip data (Z.of_nat (length data)) 0 0 (Some (ip_opt g)) (ip_optlen g) g = Ok ((), set_kern k' g).
Proof.
  intros size [_ Hfr Hol Hop Hraw Hicmp Hsafe] Hd Hm Hid Hsend Hr. unfold send_ip.
  rewrite s32_id by (unfold IPHDR_SIZE; lia). fold size.
  rewrite (bind_ok _ _ _ true g) by (unfold gets; by rewrite Hm). cbn [negb].
  rewrite (bind_ok _ _ _ _ _ Hid), (bind_ok _ _ _ (set_kern k g) (set_kern k g)) by done.
  cbn [ip_tos src_ttl opt_rawipmode opt_icmpmode local remote sockraw opt_safe opt_rand_dest opt_rand_source eof_reached set_kern].
  rewrite Hraw, (proj2 (Z.eqb_neq _ _) Hicmp). cbn [Z.eqb].
  rewrite (bind_ok _ _ _ _ _ (copy_bytes_ok (ip_opt g) (ip_optlen g) (set_kern k g) ltac:(lia))).
  rewrite (bind_ok _ _ _ _ _ (copy_bytes_ok data (Z.of_nat (length data)) (set_kern k g) ltac:(lia))).
  rewrite Nat2Z.id, firstn_all. fold (echo_iphdr g i size).
  rewrite (bind_ok _ _ _ _ _ (sys_run _ (set_kern k g) _ _ Hsend)). cbn [fst snd].
  by rewrite (proj2 (Z.eqb_neq _ _) Hr), Hsafe.
Qed.

(** While its options have their
    initial values, [send_icmp_echo] hands sendto one packet: a 20-byte IP header, the IP
    options and an 8-byte ICMP header with the type, code, process id and
    sequence number of the program and a checksum that verifies; then it
    counts the sequence number up.  The IP header has the total length in
    network order, and its first byte has the version in the low and the
    header length in the high half, which is the wrong way round: read as RFC
    791 says, the version is the header length and the header length 4. *)
Theorem send_icmp_echo_correct g :
  sending g → rn_malloc ICMPHDR_SIZE (kern g) = true → rn_malloc (IPHDR_SIZE + ip_optlen g + ICMPHDR_SIZE) (kern g) = true →
  ∃ hdr icmp k, let ihl := (IPHDR_SIZE + ip_optlen g + 3) / 4 in
    let packet := hdr ++ take (Z.to_nat (ip_optlen g)) (ip_opt g) ++ icmp in
    length hdr = 20%nat ∧ length icmp = 8%nat ∧ cksum icmp 8 = Ok 0 ∧
    take 2 icmp = [u8 (opt_icmptype g); u8 (opt_icmpcode g)] ∧
    drop 4 icmp = le16 (Z.land rn_getpid 0xffff) ++ le16 (_icmp_seq g) ∧
    hdr !! 0%nat = Some (4 + 16 * ihl) ∧
    take 2 (drop 2 hdr) = [Z.of_nat (length packet) / 2 ^ 8; Z.of_nat (length packet) mod 2 ^ 8] ∧
    hdr !! 9%nat = Some 1 ∧
    (∀ r e k', rn_sendto (sockraw g) packet k = ((r, e), k') → r ≠ -1 →
       send_icmp_echo g = Ok ((), set_seq (_icmp_seq g + 1) (set_kern k' g))).
Proof.
  intros Hg Hm1 Hm2. pose proof Hg as [Hck Hfr Hol Hop _ _ _]. destruct (choose_id_ok g) as (i & k & Hid & Hi).
  destruct (icmp_verifies (opt_icmptype g) (opt_icmpcode g) (Z.land rn_getpid 0xffff) (_icmp_seq g)) as (c & Hc & Hv).
  set (icmp := icmphdr_bytes (mk_icmphdr (opt_icmptype g) (opt_icmpcode g) c (Z.land rn_getpid 0xffff) (_icmp_seq g))) in *.
  set (size := IPHDR_SIZE + ip_optlen g + ICMPHDR_SIZE) in *.
  destruct (echo_iphdr_ok g i size Hol) as (H1 & H2 & H3 & H4); [unfold size, IPHDR_SIZE, ICMPHDR_SIZE; lia|].
  assert (Z.of_nat (length (iphdr_bytes (echo_iphdr g i size) ++ take (Z.to_nat (ip_optlen g)) (ip_opt g) ++ icmp)) = size) as Elen.
  { rewrite !length_app, length_take, H1. change (length icmp) with 8%nat. unfold size, IPHDR_SIZE, ICMPHDR_SIZE. lia. }
  exists (iphdr_bytes (echo_iphdr g i size)), icmp, k. cbv zeta. rewrite Elen. repeat (split; [done|]).
  intros r e k' Hsend Hr. unfold send_icmp_echo. rewrite (bind_ok _ _ _ true g) by (unfold gets; by rewrite Hm1).
  cbn [negb]. rewrite (bind_ok _ _ _ g g) by done. cbv zeta. rewrite Hck. cbn [Z.eqb Pos.eqb].
  rewrite (bind_ok _ _ _ c g) by (unfold run_cksum; by rewrite Hc). cbn [icmp_type icmp_code echo_id echo_sequence].
  fold icmp. unfold send_ip_handler. rewrite bind_assoc, (bind_ok _ _ _ g g) by done. rewrite Hfr. cbn [Z.eqb].
  change ICMPHDR_SIZE with (Z.of_nat (length icmp)).
  by rewrite (bind_ok _ _ _ _ _ (send_ip_ok g icmp i k r e k' Hg ltac:(change (length icmp) with 8%nat; lia) Hm2 Hid Hsend Hr)).
Qed.
End props.

(** A network that logs the packets. *)
#[export] Instance log_net : RawNet (list arr) := {
  rn_rand k := (4711, k);
  rn_getpid := 535;
  rn_malloc _ _ := true;
  rn_socket k := (3, k);
  rn_sendto _ p k := ((Z.of_nat (length p), false), k ++ [p]);
  rn_read _ k := ([], k);
  rn_close _ k := k;
  rn_inet_addr _ := 0x01020304;
  rn_gethostbyname _ k := (None, k);
  rn_getaddrinfo _ k := (None, k) }.

Lemma init_sending {K} (k : K) : sending (init_globals k).
Proof. by split. Qed.

Lemma send_icmp_echo_correct_witness :
  let g := init_globals ([] : list arr) in
  ∃ hdr icmp k, let ihl := (IPHDR_SIZE + ip_optlen g + 3) / 4 in
    let packet := hdr ++ take (Z.to_nat (ip_optlen g)) (ip_opt g) ++ icmp in
    length hdr = 20%nat ∧ length icmp = 8%nat ∧ cksum icmp 8 = Ok 0 ∧
    take 2 icmp = [u8 (opt_icmptype g); u8 (opt_icmpcode g)] ∧
    drop 4 icmp = le16 (Z.land rn_getpid 0xffff) ++ le16 (_icmp_seq g) ∧
    hdr !! 0%nat = Some (4 + 16 * ihl) ∧
    take 2 (drop 2 hdr) = [Z.of_nat (length packet) / 2 ^ 8; Z.of_nat (length packet) mod 2 ^ 8] ∧
    hdr !! 9%nat = Some 1 ∧
    (∀ r e k', rn_sendto (sockraw g) packet k = ((r, e), k') → r ≠ -1 →
       send_icmp_echo g = Ok ((), set_seq (_icmp_seq g + 1) (set_kern k' g))).
Proof. intros g. apply (send_icmp_echo_correct g (init_sending _)); reflexivity. Defined.
