(* ===== verification/CDouble.v ===== *)
(** * The C type double

    IEEE 754 binary64 arithmetic with rounding to nearest, as defined by the
    Standard Library's specification of floating-point numbers. *)
From Stdlib Require Import SpecFloat.
From S2P Require Import Prelude.

Definition double := spec_float.
Definition dprec : Z := 53.
Definition demax : Z := 1024.

Definition dadd : double → double → double := SFadd dprec demax.
Definition dsub : double → double → double := SFsub dprec demax.
Definition dmul : double → double → double := SFmul dprec demax.
Definition ddiv : double → double → double := SFdiv dprec demax.

(** Conversion of an integer. *)
Definition dZ (z : Z) : double := binary_normalize dprec demax z 0 false.
