(* ===== verification/Ping.v ===== *)
(** * The delay measurement (socket/ping.c)

    [sendping] sends one echo request with the time in its data and reads one
    packet; [network_delay] averages ten of them.  The clock and the sockets
    are a parameter [PingNet].  Times are 64-bit, memory is little-endian. *)
From S2P Require Import Prelude CInt CArr CDouble Cksum.

Class PingNet (K : Type) := {
  pn_gettimeofday : K → (Z * Z) * K;
  pn_socket : K → Z * K;
  pn_close : Z → K → K;
  pn_inet_addr : arr → Z;
  pn_sendto : Z → Z → arr → K → Z * K;
  pn_select : Z → K → (Z * bool) * K;
  pn_recv : Z → Z → K → (Z * arr) * K }.

(** recv stores at most the given number of bytes, and returns their number
    or -1. *)
Class PingLaws (K : Type) `{PingNet K} : Prop := {
  pn_recv_length : ∀ s n k, 0 ≤ n → (length (pn_recv s n k).1.2 ≤ Z.to_nat n)%nat ∧
    ((pn_recv s n k).1.1 = -1 ∨ (pn_recv s n k).1.1 = Z.of_nat (length (pn_recv s n k).1.2)) }.

Definition DEFDATALEN : Z := 56.
Definition ICMP_MINLEN : Z := 8.
Definition ICMP_ID : Z := 535.
Definition ICMP_SEQ : Z := 123.
Definition ICMP_ECHO : Z := 8.
Definition ICMP_ECHOREPLY : Z := 0.
Definition TEST_NUM : nat := 10.
Definition BUF : Z := 512.

(** A field of [n] bytes at an offset. *)
Definition field (buf : arr) (off n : nat) : arr := take n (drop off buf).
Definition le_int (b : arr) : Z := foldr (λ x v, x + 2 ^ 8 * v) 0 b.

(** Storing bytes at an offset of a buffer. *)
Definition poke (off : nat) (bytes buf : arr) : arr :=
  take off buf ++ bytes ++ drop (off + length bytes) buf.

Section ping.
Context {K : Type} `{!PingNet K}.

Definition sys {R} (f : K → R * K) : M K R := λ k, Ok (f k).

Definition create_icmp_socket : M K Z :=
  s ← sys pn_socket; if s <? 0 then mret (-1) else mret s.

Definition init_dest (ipaddr : arr) : Z := pn_inet_addr ipaddr.

(** The request: the time is stored first, then the header, and the checksum
    is computed over the whole buffer. *)
Definition ping_packet (sec usec : Z) : res arr :=
  let buf := replicate (Z.to_nat BUF) 0 in
  let buf := poke 8 (le64 sec ++ le64 usec) buf in
  let buf := poke 4 (le16 ICMP_ID) buf in
  let buf := poke 6 (le16 ICMP_SEQ) buf in
  let buf := poke 0 [ICMP_ECHO] buf in
  match inet_cksum buf BUF with
  | Ok c => Ok (poke 2 (le16 c) buf)
  | Err e => Err e
  end.

(** The reply: [None] when it is not the answer to the request. *)
Definition reply_time (buf : arr) : res (option (Z * Z)) :=
  match buf !! 0%nat with
  | None => Err Segv
  | Some b0 =>
      let off := Z.to_nat (Z.shiftl (Z.land b0 0xf) 2) in
      if bool_decide (off + 24 ≤ length buf)%nat then
        if (le_int (field buf off 1) =? ICMP_ECHOREPLY) && (le_int (field buf (off + 4) 2) =? ICMP_ID) &&
           (le_int (field buf (off + 6) 2) =? ICMP_SEQ)
        then Ok (Some (s64 (le_int (field buf (off + 8) 8)), s64 (le_int (field buf (off + 16) 8))))
        else Ok None
      else Err Segv
  end.

(** In [long]; the time of sending comes from the packet. *)
Definition rtt_of (recvtime sendtime : Z * Z) : double :=
  dadd (dZ (s64 (s64 (recvtime.1 - sendtime.1) * 1000))) (ddiv (dZ (s64 (recvtime.2 - sendtime.2))) (dZ 1000)).

Definition lift {R} (r : res R) : M K R := match r with Ok a => mret a | Err e => fail e end.

(** FD_SET of a descriptor that does not fit is an access outside of the set. *)
Definition select_one (sock : Z) : M K (Z * bool) :=
  if (0 <=? sock) && (sock <? 1024) then sys (pn_select sock) else fail Segv.

(** One request with [optlen] bytes more than the usual 64. *)
Definition ping_once (optlen sock dest : Z) : M K double :=
  let rtt := dZ (-1) in
  t ← sys pn_gettimeofday;
  pkt ← lift (ping_packet t.1 t.2);
  _ ← sys (pn_sendto sock dest (take (Z.to_nat (DEFDATALEN + ICMP_MINLEN + optlen)) pkt));
  r ← select_one sock;
  if r.1 <? 0 then mret rtt
  else if r.1 =? 0 then mret rtt
  else if negb r.2 then mret rtt
  else
    c ← sys (pn_recv sock BUF);
    let buf := poke 0 c.2 (replicate (Z.to_nat BUF) 0) in
    if c.1 <? 76 then mret rtt
    else
      now ← sys pn_gettimeofday;
      s ← lift (reply_time buf);
      match s with Some sent => mret (rtt_of now sent) | None => mret rtt end.

Definition sendping (sock dest : Z) : M K double := ping_once 64 sock dest.

Fixpoint delay_loop (n : nat) (sock dest : Z) (sum : double) : M K double :=
  match n with
  | O => mret sum
  | S n => r ← sendping sock dest; delay_loop n sock dest (dadd sum r)
  end.

Definition network_delay (host : arr) : M K double :=
  sock ← create_icmp_socket;
  sum ← delay_loop TEST_NUM sock (init_dest host) (dZ 0);
  modify (pn_close sock);;
  mret (ddiv sum (dZ (Z.of_nat TEST_NUM))).
End ping.

(** ** Properties *)
Lemma poke_length off bytes buf : (off + length bytes ≤ length buf)%nat → length (poke off bytes buf) = length buf.
Proof. intros H. unfold poke. rewrite !length_app, length_take, length_drop. lia. Qed.

(** The request buffer in front of the checksum. *)
Definition request (sec usec : Z) : arr :=
  [ICMP_ECHO; 0] ++ 0 :: 0 :: (le16 ICMP_ID ++ le16 ICMP_SEQ ++ le64 sec ++ le64 usec).

Lemma le64_u8 x : Forall is_u8 (le64 x).
Proof. unfold le64, le32. rewrite !Forall_app. auto using le16_u8. Qed.

Lemma request_u8 sec usec : Forall is_u8 (request sec usec).
Proof.
  unfold request. rewrite !Forall_app, !Forall_cons, !Forall_app.
  repeat match goal with |- _ ∧ _ => split end; try apply le16_u8; try apply le64_u8; repeat constructor; by vm_compute.
Qed.

Lemma poke_app off bytes a r :
  (off + length bytes ≤ length a)%nat → poke off bytes (a ++ r) = poke off bytes a ++ r.
Proof.
  intros H. unfold poke. rewrite take_app_le, drop_app_le by lia. by rewrite <- !app_assoc.
Qed.

Definition zeros (n : Z) : arr := replicate (Z.to_nat n) 0.

(** The packet: the request with its checksum, and zeros. *)
Definition checked (sec usec : Z) : arr :=
  [ICMP_ECHO; 0] ++ le16 (rfc_checksum (request sec usec)) ++ (le16 ICMP_ID ++ le16 ICMP_SEQ ++ le64 sec ++ le64 usec).

Lemma request_bytes sec usec :
  poke 0 [ICMP_ECHO] (poke 6 (le16 ICMP_SEQ) (poke 4 (le16 ICMP_ID) (poke 8 (le64 sec ++ le64 usec) (replicate 24 0)))) =
  request sec usec.
Proof. done. Qed.

Lemma checked_bytes sec usec c :
  poke 2 (le16 c) (request sec usec) = [ICMP_ECHO; 0] ++ le16 c ++ (le16 ICMP_ID ++ le16 ICMP_SEQ ++ le64 sec ++ le64 usec).
Proof. done. Qed.

Lemma request_checksum sec usec n : rfc_checksum (request sec usec ++ replicate n 0) = rfc_checksum (request sec usec).
Proof. apply checksum_zeros; [by exists 12%nat|apply request_u8]. Qed.

Lemma zeros_u8 n : Forall is_u8 (replicate n 0).
Proof. apply Forall_replicate. unfold is_u8. lia. Qed.

Lemma ping_packet_ok sec usec : ping_packet sec usec = Ok (checked sec usec ++ zeros 488).
Proof.
  unfold ping_packet.
  assert (replicate (Z.to_nat BUF) 0 = replicate 24 0 ++ zeros 488) as E.
  { unfold zeros. rewrite <- replicate_add. f_equal. }
  rewrite E. cbv zeta. rewrite poke_app by (cbn; lia). rewrite poke_app by (cbn; lia). rewrite poke_app by (cbn; lia).
  rewrite poke_app by (cbn; lia). rewrite request_bytes.
  assert (inet_cksum (request sec usec ++ zeros 488) BUF = Ok (rfc_checksum (request sec usec))) as Ec.
  { change (inet_cksum (request sec usec ++ zeros 488) BUF) with (cksum (request sec usec ++ zeros 488) BUF).
    rewrite cksum_len; [by unfold zeros; rewrite request_checksum| | |done].
    - rewrite Forall_app. split; [apply request_u8|apply zeros_u8].
    - unfold zeros. rewrite length_app, length_replicate. change (length (request sec usec)) with 24%nat. unfold BUF. lia. }
  rewrite Ec. rewrite poke_app by (cbn; lia). by rewrite checked_bytes.
Qed.

(** The part that is sent verifies, although the checksum was computed over
    the whole buffer. *)
Lemma sent_verifies sec usec optlen : 0 ≤ optlen ≤ 448 →
  let sent := take (Z.to_nat (DEFDATALEN + ICMP_MINLEN + optlen)) (checked sec usec ++ zeros 488) in
  sent = checked sec usec ++ zeros (40 + optlen) ∧ inet_cksum sent (DEFDATALEN + ICMP_MINLEN + optlen) = Ok 0.
Proof.
  intros Ho sent. assert (sent = checked sec usec ++ zeros (40 + optlen)) as E.
  { unfold sent, zeros. rewrite take_app_ge by (change (length (checked sec usec)) with 24%nat; unfold DEFDATALEN, ICMP_MINLEN; lia).
    f_equal. rewrite take_replicate. f_equal. change (length (checked sec usec)) with 24%nat. unfold DEFDATALEN, ICMP_MINLEN. lia. }
  split; [done|]. rewrite E. clear sent E.
  change (cksum (checked sec usec ++ zeros (40 + optlen)) (DEFDATALEN + ICMP_MINLEN + optlen) = Ok 0).
  pose proof (request_u8 sec usec) as Hr. unfold request in Hr.
  apply Forall_app in Hr as [Ha Hb]. apply Forall_cons in Hb as [_ Hb]. apply Forall_cons in Hb as [_ Hb].
  assert (Forall is_u8 (checked sec usec)) as Hc.
  { unfold checked. rewrite Forall_app, Forall_app. split; [done|]. split; [apply le16_u8|done]. }
  rewrite cksum_len; [| | |trans 512; [unfold DEFDATALEN, ICMP_MINLEN; lia|by vm_compute]].
  - unfold zeros. rewrite checksum_zeros; [|by exists 12%nat|done].
    unfold checked, request. rewrite (checksum_verifies [ICMP_ECHO; 0]); [done|by exists 1%nat|done|done].
  - rewrite Forall_app. split; [done|apply zeros_u8].
  - unfold zeros. rewrite length_app, length_replicate. change (length (checked sec usec)) with 24%nat. unfold DEFDATALEN, ICMP_MINLEN. lia.
Qed.

(** The fields of a reply lie in the buffer whatever its first byte says. *)
Lemma reply_time_ok buf :
  Forall is_u8 buf → length buf = Z.to_nat BUF → ∃ r, reply_time buf = Ok r.
Proof.
  intros Hb Hl. unfold reply_time. destruct (buf !! 0%nat) as [b0|] eqn:E.
  - rewrite bool_decide_true; [destruct (_ && _); eauto|]. rewrite Hl.
    assert (0 ≤ Z.land b0 0xf < 16) as H.
    { change 0xf with (Z.ones 4). rewrite land_mask by lia. apply Z.mod_pos_bound. lia. }
    rewrite Z.shiftl_mul_pow2 by lia. unfold BUF. lia.
  - apply lookup_ge_None_1 in E. unfold BUF in Hl. lia.
Qed.

(** What [sendping] returns: the time between the two timestamps for a reply to
    this request, and -1 otherwise. *)
Definition ping_result (sel : Z * bool) (c : Z * arr) (now : Z * Z) : double :=
  if bool_decide (0 < sel.1 ∧ sel.2 = true ∧ 76 ≤ c.1) then
    match reply_time (poke 0 c.2 (zeros BUF)) with Ok (Some sent) => rtt_of now sent | _ => dZ (-1) end
  else dZ (-1).

(** One request and its answer, for a socket that select can watch. *)
Lemma ping_once_ok {K} `{!PingNet K} `{!PingLaws K} optlen sock dest (k : K) :
  (∀ s n k, Forall is_u8 (pn_recv s n k).1.2) → 0 ≤ optlen ≤ 448 → 0 ≤ sock < 1024 →
  let '(t, k1) := pn_gettimeofday k in
  let sent := checked t.1 t.2 ++ zeros (40 + optlen) in
  let k2 := (pn_sendto sock dest sent k1).2 in
  let '(sel, k3) := pn_select sock k2 in
  let '(c, k4) := pn_recv sock BUF k3 in
  let '(now, _) := pn_gettimeofday k4 in
  Z.of_nat (length sent) = 64 + optlen ∧ inet_cksum sent (64 + optlen) = Ok 0 ∧
  ∃ k', ping_once optlen sock dest k = Ok (ping_result sel c now, k').
Proof.
  intros Hu Ho Hs. destruct (pn_gettimeofday k) as [t k1] eqn:E1. cbv zeta. set (sent := checked t.1 t.2 ++ zeros (40 + optlen)).
  destruct (pn_sendto sock dest sent k1) as [n k2] eqn:E2. cbn [snd]. destruct (pn_select sock k2) as [sel k3] eqn:E3.
  pose proof (pn_recv_length sock BUF k3 ltac:(done)) as [Hl _]. pose proof (Hu sock BUF k3) as Hc.
  destruct (pn_recv sock BUF k3) as [c k4] eqn:E4. destruct (pn_gettimeofday k4) as [now k5] eqn:E5. cbn [fst snd] in *.
  destruct (sent_verifies t.1 t.2 optlen Ho) as [Es Hv]. fold sent in Es. rewrite Es in Hv.
  split; [unfold sent, zeros; rewrite length_app, length_replicate; change (length (checked t.1 t.2)) with 24%nat; lia|]. split; [done|].
  unfold ping_once, select_one. cbv zeta. rewrite (proj2 (Z.leb_le _ _)), (proj2 (Z.ltb_lt sock _)) by lia. cbn [andb].
  rewrite (bind_ok _ _ _ t k1) by (unfold sys; by rewrite E1).
  rewrite (bind_ok _ _ _ (checked t.1 t.2 ++ zeros 488) k1) by (unfold lift; by rewrite ping_packet_ok).
  rewrite Es, (bind_ok _ _ _ n k2) by (unfold sys; by rewrite E2).
  rewrite (bind_ok _ _ _ sel k3) by (unfold sys; by rewrite E3). unfold ping_result.
  destruct (Z.ltb_spec sel.1 0); [rewrite bool_decide_false by lia; eauto|].
  destruct (Z.eqb_spec sel.1 0); [rewrite bool_decide_false by lia; eauto|].
  destruct sel.2; cbn [negb]; [|rewrite bool_decide_false by naive_solver; eauto].
  rewrite (bind_ok _ _ _ c k4) by (unfold sys; by rewrite E4).
  destruct (Z.ltb_spec c.1 76); [rewrite bool_decide_false by lia; eauto|].
  rewrite bool_decide_true by (split; [lia|done]).
  rewrite (bind_ok _ _ _ now k5) by (unfold sys; by rewrite E5). fold (zeros BUF).
  assert (Forall is_u8 (poke 0 c.2 (zeros BUF)) ∧ length (poke 0 c.2 (zeros BUF)) = Z.to_nat BUF) as [Hp Hpl].
  { split; [|rewrite poke_length; unfold zeros; rewrite length_replicate; simpl; lia].
    unfold poke, zeros. rewrite !Forall_app, drop_replicate, take_replicate. auto using zeros_u8. }
  destruct (reply_time_ok _ Hp Hpl) as [r Hr]. rewrite Hr, (bind_ok _ _ _ r k5) by done. destruct r; eauto.
Qed.

(** ** The format of a reply *)
Definition is_s64 (x : Z) : Prop := - 2 ^ 63 ≤ x < 2 ^ 63.

(** Behind an IP header, whose length in words is in its first byte, a packet of
    type 0 with the identifier and the sequence number of the request, and with
    the time [sent] as data. *)
Definition echo_reply (buf : arr) (sent : Z * Z) : Prop :=
  ∃ hdr code ck rest, buf = hdr ++ 0 :: code :: ck ++ le16 ICMP_ID ++ le16 ICMP_SEQ ++ le64 sent.1 ++ le64 sent.2 ++ rest ∧
    length ck = 2%nat ∧ Z.of_nat (length hdr) = 4 * (default 0 (head buf) mod 16) ∧ is_s64 sent.1 ∧ is_s64 sent.2.

(** The delay in milliseconds, and when it can be computed in [long]. *)
Definition delay_ms (now sent : Z * Z) : double := dadd (dZ (1000 * (now.1 - sent.1))) (ddiv (dZ (now.2 - sent.2)) (dZ 1000)).
Definition delay_fits (now sent : Z * Z) : Prop :=
  is_s64 (now.1 - sent.1) ∧ is_s64 (1000 * (now.1 - sent.1)) ∧ is_s64 (now.2 - sent.2).

Lemma s64_id x : is_s64 x → s64 x = x.
Proof. unfold is_s64, s64. intros Hx. rewrite Z.mod_small; lia. Qed.

Lemma rtt_of_delay now sent : delay_fits now sent → rtt_of now sent = delay_ms now sent.
Proof. intros (H1 & H2 & H3). unfold rtt_of, delay_ms. by rewrite (s64_id _ H1), (s64_id _ H3), Z.mul_comm, (s64_id _ H2). Qed.

(** *** Integers in memory *)
Lemma le_int_app a b : le_int (a ++ b) = le_int a + 2 ^ (8 * Z.of_nat (length a)) * le_int b.
Proof.
  induction a as [|x a IH]; [unfold le_int; cbn; lia|]. change (x + 2 ^ 8 * le_int (a ++ b) = x + 2 ^ 8 * le_int a + 2 ^ (8 * Z.of_nat (length (x :: a))) * le_int b).
  rewrite IH. cbn [length]. replace (8 * Z.of_nat (S (length a))) with (8 + 8 * Z.of_nat (length a)) by lia. rewrite Z.pow_add_r by lia. lia.
Qed.

Lemma le_int_range b : Forall is_u8 b → 0 ≤ le_int b < 2 ^ (8 * Z.of_nat (length b)).
Proof.
  induction 1 as [|x b Hx _ IH]; [done|]. change (0 ≤ x + 2 ^ 8 * le_int b < 2 ^ (8 * Z.of_nat (length (x :: b)))). destruct Hx. cbn [length].
  replace (8 * Z.of_nat (S (length b))) with (8 + 8 * Z.of_nat (length b)) by lia. rewrite Z.pow_add_r by lia. lia.
Qed.

Lemma le_int_inj a b : Forall is_u8 a → Forall is_u8 b → length a = length b → le_int a = le_int b → a = b.
Proof.
  intros Ha. revert b. induction Ha as [|x a Hx _ IH]; intros [|y b] Hb El E; try done. apply Forall_cons in Hb as [Hy Hb].
  change (x + 2 ^ 8 * le_int a = y + 2 ^ 8 * le_int b) in E. destruct Hx, Hy. assert (x = y ∧ le_int a = le_int b) as [-> Eab] by lia.
  f_equal. apply IH; [done|cbn in El; lia|done].
Qed.

Lemma le_int_le16 x : le_int (le16 x) = x mod 2 ^ 16.
Proof. unfold le_int, le16. cbn [foldr]. Z.div_mod_to_equations. lia. Qed.

Lemma le_int_le32 x : le_int (le32 x) = x mod 2 ^ 32.
Proof. unfold le32. rewrite le_int_app, !le_int_le16. cbn [length le16]. change (2 ^ (8 * Z.of_nat 2)) with (2 ^ 16). Z.div_mod_to_equations. lia. Qed.

Lemma le_int_le64 x : le_int (le64 x) = x mod 2 ^ 64.
Proof.
  unfold le64. rewrite le_int_app, !le_int_le32. change (2 ^ (8 * Z.of_nat (length (le32 x)))) with (2 ^ 32). Z.div_mod_to_equations. lia.
Qed.

Lemma s64_le64 x : is_s64 x → s64 (le_int (le64 x)) = x.
Proof. intros Hx. rewrite le_int_le64. unfold s64. rewrite Zplus_mod_idemp_l. by apply s64_id. Qed.

Lemma s64_range x : is_s64 (s64 x).
Proof. unfold is_s64, s64. pose proof (Z.mod_pos_bound (x + 2 ^ 63) (2 ^ 64)). lia. Qed.

Lemma le64_s64 b : Forall is_u8 b → length b = 8%nat → le64 (s64 (le_int b)) = b.
Proof.
  intros Hb Hl. apply le_int_inj; [apply le64_u8|done|by rewrite Hl|]. pose proof (le_int_range b Hb) as Hr. rewrite Hl in Hr.
  rewrite le_int_le64. unfold s64. set (v := le_int b) in *. change (2 ^ (8 * Z.of_nat 8)) with (2 ^ 64) in Hr. Z.div_mod_to_equations. lia.
Qed.

(** The fields of a packet with the parts [a], [b] and [c]. *)
Lemma field_split (buf : arr) off n : (off + n ≤ length buf)%nat → drop off buf = field buf off n ++ drop (off + n) buf.
Proof. intros Hl. unfold field. by rewrite <-drop_drop, take_drop. Qed.

Lemma field_u8 buf off n : Forall is_u8 buf → Forall is_u8 (field buf off n).
Proof. intros Hb. unfold field. auto using Forall_take, Forall_drop. Qed.

Lemma field_length (buf : arr) off n : (off + n ≤ length buf)%nat → length (field buf off n) = n.
Proof. intros Hl. unfold field. rewrite length_take, length_drop. lia. Qed.

Lemma head_lookup (l : arr) : head l = l !! 0%nat.
Proof. by destruct l. Qed.

Definition offset (buf : arr) : nat := Z.to_nat (4 * (default 0 (head buf) mod 16)).

(** The code in terms of the format: it computes this offset, and the fields
    behind it are those of a reply. *)
Lemma reply_time_offset buf : buf ≠ [] → reply_time buf =
  let off := offset buf in
  if bool_decide (off + 24 ≤ length buf)%nat then
    if (le_int (field buf off 1) =? ICMP_ECHOREPLY) && (le_int (field buf (off + 4) 2) =? ICMP_ID) && (le_int (field buf (off + 6) 2) =? ICMP_SEQ)
    then Ok (Some (s64 (le_int (field buf (off + 8) 8)), s64 (le_int (field buf (off + 16) 8)))) else Ok None
  else Err Segv.
Proof.
  intros Hn. unfold reply_time, offset. rewrite <-head_lookup. destruct buf as [|b0 buf]; [done|]. cbn [head default from_option id].
  change 0xf with (Z.ones 4). rewrite land_mask, Z.shiftl_mul_pow2 by lia. by rewrite (Z.mul_comm _ (2 ^ 2)).
Qed.

Lemma echo_reply_time buf sent : echo_reply buf sent → reply_time buf = Ok (Some sent).
Proof.
  intros (hdr & code & ck & rest & E & Lc & Lh & H1 & H2). rewrite reply_time_offset by (intros ->; by destruct hdr).
  assert (offset buf = length hdr) as -> by (unfold offset; lia). cbv zeta. subst buf. destruct ck as [|c1 [|c2 [|]]]; try done.
  assert (∀ body k n, field (hdr ++ body) (length hdr + k) n = field body k n) as F by (intros; unfold field; by rewrite drop_app_add).
  rewrite bool_decide_true by (rewrite length_app; cbn; lia). rewrite !F. rewrite <-(Nat.add_0_r (length hdr)), F.
  change (field _ 0 1) with [0]. change (field _ 4 2) with (le16 ICMP_ID). change (field _ 6 2) with (le16 ICMP_SEQ).
  change (field _ 8 8) with (le64 sent.1). change (field _ 16 8) with (le64 sent.2).
  rewrite !s64_le64 by done. by destruct sent.
Qed.

Lemma reply_time_echo buf sent : Forall is_u8 buf → buf ≠ [] → reply_time buf = Ok (Some sent) → echo_reply buf sent.
Proof.
  intros Hu Hn. rewrite reply_time_offset by done. cbv zeta. case_bool_decide as Hl; [|done].
  destruct (_ && _ && _) eqn:E; [|done]. intros [= <-]. apply andb_true_iff in E as [[E1%Z.eqb_eq E2%Z.eqb_eq]%andb_true_iff E3%Z.eqb_eq].
  set (off := offset buf) in *. pose proof (λ o n, field_u8 buf o n Hu) as Fu.
  assert (field buf off 1 = [0]) as F1 by (apply le_int_inj; [done|by repeat constructor|by rewrite field_length by lia|done]).
  assert (field buf (off + 4) 2 = le16 ICMP_ID) as F2 by (apply le_int_inj; [done|apply le16_u8|by rewrite field_length by lia|done]).
  assert (field buf (off + 6) 2 = le16 ICMP_SEQ) as F3 by (apply le_int_inj; [done|apply le16_u8|by rewrite field_length by lia|done]).
  assert (∃ code, field buf (off + 1) 1 = [code]) as [code F4].
  { pose proof (field_length buf (off + 1) 1 ltac:(lia)) as L. destruct (field buf (off + 1) 1) as [|code [|]]; try done. by exists code. }
  exists (take off buf), code, (field buf (off + 2) 2), (drop (off + 24) buf). cbn [fst snd]. split_and!.
  - rewrite !le64_s64 by (done || (rewrite field_length; lia)). rewrite <-(take_drop off buf) at 1. f_equal.
    rewrite (field_split buf off 1), F1, (field_split buf (off + 1) 1), F4 by lia. cbn [app]. do 2 f_equal. rewrite <-F2, <-F3.
    assert (∀ k n m, (k + n = m)%nat → (m ≤ 24)%nat → drop (off + k) buf = field buf (off + k) n ++ drop (off + m) buf) as D.
    { intros k n m <- Hm. rewrite Nat.add_assoc. apply field_split. lia. }
    rewrite <-Nat.add_assoc. change (1 + 1)%nat with 2%nat.
    rewrite (D 2 2 4)%nat, (D 4 2 6)%nat, (D 6 2 8)%nat, (D 8 8 16)%nat, (D 16 8 24)%nat by lia. done.
  - apply field_length. lia.
  - rewrite length_take. unfold off, offset in *. pose proof (Z.mod_pos_bound (default 0 (head buf)) 16). lia.
  - apply s64_range.
  - apply s64_range.
Qed.

(** What a ping returns, in terms of the format. *)
Definition ping_returns (sel : Z * bool) (c : Z * arr) (now : Z * Z) (r : double) : Prop :=
  let buf := c.2 ++ zeros (BUF - Z.of_nat (length c.2)) in
  (∀ sent, 0 < sel.1 ∧ sel.2 = true ∧ 76 ≤ c.1 → echo_reply buf sent → delay_fits now sent → r = delay_ms now sent) ∧
  (¬ (0 < sel.1 ∧ sel.2 = true ∧ 76 ≤ c.1 ∧ ∃ sent, echo_reply buf sent) → r = dZ (-1)).

Lemma ping_result_returns sel c now : Forall is_u8 c.2 → (length c.2 ≤ Z.to_nat BUF)%nat → ping_returns sel c now (ping_result sel c now).
Proof.
  intros Hu Hl. unfold ping_returns, ping_result. cbv zeta.
  assert (poke 0 c.2 (zeros BUF) = c.2 ++ zeros (BUF - Z.of_nat (length c.2))) as ->.
  { unfold poke, zeros. rewrite take_0, drop_replicate. cbn [app]. do 2 f_equal. lia. }
  set (buf := c.2 ++ _). assert (Forall is_u8 buf) as Hb by (apply Forall_app; split; [done|apply zeros_u8]).
  assert (buf ≠ []) as Hn.
  { intros E. apply (f_equal length) in E. unfold buf, zeros in E. rewrite length_app, length_replicate in E. unfold BUF in *. cbn in E. lia. }
  split.
  - intros sent Ha Hr Hf. rewrite bool_decide_true by done. rewrite (echo_reply_time _ _ Hr). by apply rtt_of_delay.
  - intros Ha. case_bool_decide as Hd; [|done]. destruct (reply_time buf) as [[sent|]|] eqn:E; [|done..].
    destruct Ha. destruct Hd as (? & ? & ?). split_and!; [done..|]. exists sent. by apply reply_time_echo.
Qed.

(** C37: [sendping] never reads or writes outside its buffer, for a socket that
    select can watch.  The packet it sends has 128 bytes, an echo request with
    the fixed identifier and sequence number and the time as data, and its
    checksum verifies.  When a packet of at least 76 bytes arrives in time that
    is an echo reply with these numbers, it returns the difference between now
    and the time in the reply in milliseconds, provided that this can be
    computed in a long; for any other packet and without one it returns -1. *)
Theorem sendping_correct {K} `{!PingNet K} `{!PingLaws K} sock dest (k : K) :
  (∀ s n k, Forall is_u8 (pn_recv s n k).1.2) → 0 ≤ sock < 1024 →
  let '(t, k1) := pn_gettimeofday k in
  let sent := checked t.1 t.2 ++ zeros 104 in
  let k2 := (pn_sendto sock dest sent k1).2 in
  let '(sel, k3) := pn_select sock k2 in
  let '(c, k4) := pn_recv sock BUF k3 in
  let '(now, _) := pn_gettimeofday k4 in
  Z.of_nat (length sent) = 128 ∧ inet_cksum sent 128 = Ok 0 ∧
  ∃ r k', sendping sock dest k = Ok (r, k') ∧ ping_returns sel c now r.
Proof.
  intros Hu Hs. pose proof (ping_once_ok 64 sock dest k Hu ltac:(lia) Hs) as Hp. change (40 + 64) with 104 in Hp.
  destruct (pn_gettimeofday k) as [t k1]. cbv zeta in *. destruct (pn_select sock _) as [sel k3].
  pose proof (proj1 (pn_recv_length sock BUF k3 ltac:(done))) as Hl. pose proof (Hu sock BUF k3) as Hc.
  destruct (pn_recv sock BUF k3) as [c k4]. destruct (pn_gettimeofday k4) as [now k5]. destruct Hp as (H1 & H2 & k' & E).
  split; [done|]. split; [done|]. exists (ping_result sel c now), k'. split; [done|]. by apply ping_result_returns.
Qed.

(** A network on which a reply arrives that was sent one second and 5
    milliseconds ago. *)
Definition reply_packet : arr :=
  (0x45 :: zeros 19) ++ 0 :: 0 :: [0x12; 0x34] ++ le16 ICMP_ID ++ le16 ICMP_SEQ ++ le64 99 ++ le64 5000 ++ zeros 40.

#[export] Instance echo_net : PingNet unit := {
  pn_gettimeofday k := ((100, 10000), k);
  pn_socket k := (3, k);
  pn_close _ k := k;
  pn_inet_addr _ := 0;
  pn_sendto _ _ b k := (Z.of_nat (length b), k);
  pn_select _ k := ((1, true), k);
  pn_recv _ n k := ((Z.of_nat (length (take (Z.to_nat n) reply_packet)), take (Z.to_nat n) reply_packet), k) }.

#[export] Instance echo_laws : PingLaws unit.
Proof. split. intros s n k Hn. split; [|by right]. cbn [pn_recv echo_net fst snd]. rewrite length_take. lia. Qed.

Lemma sendping_correct_witness : ∃ k', sendping 3 0 () = Ok (dZ 1005, k').
Proof.
  destruct (sendping_correct 3 0 ()) as (_ & _ & r & k' & E & Hr & _).
  - intros s n k. cbn [pn_recv echo_net fst snd]. apply Forall_take. repeat constructor; by vm_compute.
  - lia.
  - exists k'. rewrite E. do 2 f_equal. transitivity (delay_ms (100, 10000) (99, 5000)); [|reflexivity]. apply Hr.
    + by vm_compute.
    + exists (0x45 :: zeros 19), 0, [0x12; 0x34], (zeros 40 ++ zeros 428). repeat split; by vm_compute.
    + repeat split; by vm_compute.
Defined.
