(* ===== verification/Dns.v ===== *)
(** * The DNS query (socket/dnspacket.c)

    [dns_query] builds a query for the address of a domain name in a buffer on
    the stack, sends it and prints the last four bytes of the answer as an
    address.  The buffer is an array with checked accesses, the network a
    parameter [DnsNet].  The packet is compared with the message format of
    RFC 1035. *)
From S2P Require Import Prelude CInt CArr CBuf.

Class DnsNet (K : Type) := {
  dn_socket : K → Z * K;
  dn_setsockopt : Z → K → K;
  dn_sendto : Z → arr → arr → K → Z * K;
  dn_recvfrom : Z → Z → K → (Z * arr) * K;
  dn_close : Z → K → K }.

(** recvfrom stores as many bytes as it returns, and no more than asked for. *)
Class DnsLaws (K : Type) `{DnsNet K} : Prop := {
  dn_recv_length : ∀ s n k, 0 ≤ n →
    Z.of_nat (length (dn_recvfrom s n k).1.2) ≤ n ∧
    ((dn_recvfrom s n k).1.1 < 0 ∧ (dn_recvfrom s n k).1.2 = [] ∨
     (dn_recvfrom s n k).1.1 = Z.of_nat (length (dn_recvfrom s n k).1.2)) }.

Definition BUF_SIZE : Z := 1024.

(** [DNS_HDR] and [DNS_QER]; numbers in the order they have in memory. *)
Record DNS_HDR := mk_hdr { id : Z; tag : Z; numq : Z; numa : Z; numa1 : Z; numa2 : Z }.
Record DNS_QER := mk_qer { type : Z; classes : Z }.

Definition hdr_bytes (h : DNS_HDR) : arr :=
  le16 (id h) ++ le16 (tag h) ++ le16 (numq h) ++ le16 (numa h) ++ le16 (numa1 h) ++ le16 (numa2 h).
Definition qer_bytes (q : DNS_QER) : arr := le16 (type q) ++ le16 (classes q).

Definition HDR_LEN : Z := 12.
Definition QER_LEN : Z := 4.
Definition DOT : Z := 46.

(** Storing several bytes. *)
Fixpoint put (i : Z) (bytes : arr) : M arr unit :=
  match bytes with
  | [] => mret ()
  | b :: bytes => aset i b;; put (i + 1) bytes
  end.

(** The while loop: [p] is the index of the character, [i] the length of the
    current label so far. *)
Fixpoint encode_loop (n : nat) (p i : Z) : M arr (Z * Z) :=
  match n with
  | O => mret (p, i)
  | S n =>
      c ← aget p;
      if c =? DOT then aset (p - i - 1) (u8 i);; encode_loop n (p + 1) 0
      else encode_loop n (p + 1) (i + 1)
  end.

(** The whole packet; [domain] is a string without its NUL. *)
Definition build_query (domain : arr) : M arr unit :=
  put 0 (hdr_bytes (mk_hdr 1 (htons 0x0100) (htons 1) 0 0 0));;
  put (HDR_LEN + 1) (domain ++ [0]);;
  r ← encode_loop (length domain) (HDR_LEN + 1) 0;
  aset (r.1 - r.2 - 1) (u8 r.2);;
  put (HDR_LEN + 2 + Z.of_nat (length domain)) (qer_bytes (mk_qer (htons 1) (htons 1))).

Section query.
Context {K : Type} `{!DnsNet K}.

Definition sys {R} (f : K → R * K) : M K R := λ k, Ok (f k).

(** Work on a local array. *)
Definition on_buf {R} (m : M arr R) (buf : arr) : M K arr :=
  match m buf with Ok (_, b) => mret b | Err e => fail e end.

Definition byte (buf : arr) (i : Z) : M K Z := cget buf i.

(** The printed address. *)
Definition dotted (a b c d : Z) : arr := dec a ++ [DOT] ++ dec b ++ [DOT] ++ dec c ++ [DOT] ++ dec d.

(** Returns the result and the string stored in [ip], which has room for 16
    bytes. *)
Definition dns_query (server domain : arr) : M K (Z * option arr) :=
  clifd ← sys dn_socket;
  if clifd <? 0 then mret (-1, None)
  else
    modify (dn_setsockopt clifd);;
    modify (dn_setsockopt clifd);;
    buf ← on_buf (build_query domain) (replicate (Z.to_nat BUF_SIZE) 0);
    let n := Z.to_nat (HDR_LEN + QER_LEN + Z.of_nat (length domain) + 2) in
    _ ← sys (dn_sendto clifd server (take n buf));
    r ← sys (dn_recvfrom clifd BUF_SIZE);
    let len := r.1 in
    if len <? 0 then mret (-1, None)
    else
      buf ← on_buf (put 0 r.2) buf;
      x ← byte buf 6; y ← byte buf 7;
      if x + 2 ^ 8 * y =? 0 then mret (-1, None)
      else
        a ← byte buf (len - 4); b ← byte buf (len - 3); c ← byte buf (len - 2); d ← byte buf (len - 1);
        let s := dotted a b c d in
        if bool_decide (length s < 16)%nat then
          modify (dn_close clifd);; mret (0, Some s)
        else fail Segv.

(** [main]: the options are the pairs getopt returns; [server] has 32 bytes and
    [domain] 256. *)
Definition srv_ip : arr := [49; 49; 52; 46; 49; 49; 52; 46; 49; 49; 53; 46; 49; 49; 53].

Fixpoint options (opts : list (Z * arr)) (server domain : arr) : res (option (arr * arr)) :=
  match opts with
  | [] => Ok (Some (server, domain))
  | (ch, optarg) :: opts =>
      if ch =? 115 then
        if bool_decide (length optarg < 32)%nat then options opts optarg domain else Err Segv
      else if ch =? 100 then
        if bool_decide (length optarg < 256)%nat then options opts server optarg else Err Segv
      else if ch =? 63 then Ok None
      else options opts server domain
  end.

Definition main (opts : list (Z * arr)) : M K Z :=
  match options opts [] [] with
  | Err e => fail e
  | Ok None => mret 0
  | Ok (Some (server, domain)) =>
      _ ← dns_query (if bool_decide (0 < length server)%nat then server else srv_ip) domain; mret 0
  end.
End query.

(** ** The format of RFC 1035 *)

(** The labels of a name. *)
Fixpoint split_labels (cur s : arr) : list arr :=
  match s with
  | [] => [cur]
  | c :: s => if c =? DOT then cur :: split_labels [] s else split_labels (cur ++ [c]) s
  end.
Definition labels (s : arr) : list arr := split_labels [] s.

Fixpoint join (ls : list arr) : arr :=
  match ls with [] => [] | [l] => l | l :: ls => l ++ DOT :: join ls end.

(** Each label with its length in front. *)
Definition encode_labels (ls : list arr) : arr := mjoin ((λ l, u8 (Z.of_nat (length l)) :: l) <$> ls).

(** Reading a name: length bytes up to 63, ended by zero. *)
Fixpoint decode_name (fuel : nat) (b : arr) : option (list arr * arr) :=
  match fuel, b with
  | S fuel, n :: b =>
      if n =? 0 then Some ([], b)
      else if (n <=? 63) && bool_decide (Z.to_nat n ≤ length b)%nat then
        '(ls, r) ← decode_name fuel (drop (Z.to_nat n) b); Some (take (Z.to_nat n) b :: ls, r)
      else None
  | _, _ => None
  end.

Lemma split_labels_nonempty cur s : split_labels cur s ≠ [].
Proof. revert cur. induction s as [|c s IH]; intros cur; simpl; [done|]. by destruct (c =? DOT). Qed.

Lemma join_split cur s : join (split_labels cur s) = cur ++ s.
Proof.
  revert cur. induction s as [|c s IH]; intros cur; simpl; [by rewrite app_nil_r|].
  destruct (Z.eqb_spec c DOT) as [->|Hc].
  - pose proof (split_labels_nonempty [] s) as Hn. specialize (IH []). simpl in *.
    destruct (split_labels [] s); [done|]. by rewrite IH.
  - rewrite IH, <- app_assoc. done.
Qed.

(** ** The loop *)
Lemma put_ok i bytes l1 l2 l3 :
  i = Z.of_nat (length l1) → length l2 = length bytes → put i bytes (l1 ++ l2 ++ l3) = Ok ((), l1 ++ bytes ++ l3).
Proof.
  revert i l1 l2. induction bytes as [|b bytes IH]; intros i l1 [|x l2] Hi Hl; simplify_eq/=; [done|].
  rewrite (bind_ok _ _ _ _ _ (aset_app l1 (l2 ++ l3) x b _ eq_refl)).
  replace (l1 ++ b :: l2 ++ l3) with ((l1 ++ [b]) ++ l2 ++ l3) by (by rewrite <- app_assoc).
  rewrite IH; [by rewrite <- app_assoc|rewrite length_app; simpl; lia|done].
Qed.

Lemma aget_app (l1 l2 : arr) x k : k = Z.of_nat (length l1) → aget k (l1 ++ x :: l2) = Ok (x, l1 ++ x :: l2).
Proof.
  intros ->. rewrite aget_ok by (rewrite length_app; simpl; lia). f_equal. f_equal.
  by rewrite lookup_total_app_r, Nat.sub_diag by lia.
Qed.

(** The loop and the assignment behind it: [a] is done, [x] is the place for
    the length of the label [cur]. *)
Lemma qname_loop_ok rest a x cur t :
  (r ← encode_loop (length rest) (Z.of_nat (length a + 1 + length cur)) (Z.of_nat (length cur));
   aset (r.1 - r.2 - 1) (u8 r.2)) (a ++ x :: cur ++ rest ++ t) =
  Ok ((), a ++ encode_labels (split_labels cur rest) ++ t).
Proof.
  revert a x cur. induction rest as [|c rest IH]; intros a x cur; cbn [length encode_loop split_labels].
  - rewrite (bind_ok _ _ _ _ _ (ret_ok _ _)). cbn [fst snd].
    rewrite (aset_app a (cur ++ [] ++ t) x) by lia. unfold encode_labels. simpl. by rewrite app_nil_r.
  - assert (a ++ x :: cur ++ (c :: rest) ++ t = (a ++ x :: cur) ++ c :: rest ++ t) as E by (by rewrite <- app_assoc).
    rewrite E, bind_assoc, (bind_ok _ _ _ _ _ (aget_app (a ++ x :: cur) (rest ++ t) c
      (Z.of_nat (length a + 1 + length cur)) ltac:(rewrite length_app; simpl; lia))).
    destruct (Z.eqb_spec c DOT) as [->|Hc].
    + rewrite <- E, bind_assoc. rewrite (bind_ok _ _ _ _ _ (aset_app a (cur ++ (DOT :: rest) ++ t) x (u8 (Z.of_nat (length cur)))
        (Z.of_nat (length a + 1 + length cur) - Z.of_nat (length cur) - 1) ltac:(lia))).
      specialize (IH (a ++ u8 (Z.of_nat (length cur)) :: cur) DOT []).
      replace (Z.of_nat (length (a ++ u8 (Z.of_nat (length cur)) :: cur) + 1 + length [])) with
        (Z.of_nat (length a + 1 + length cur) + 1) in IH by (rewrite length_app; simpl; lia).
      rewrite <- !app_assoc in IH. simpl in IH. change (Z.of_nat 0) with 0 in IH.
      simpl. rewrite IH. unfold encode_labels. simpl. by rewrite <- !app_assoc.
    + specialize (IH a x (cur ++ [c])).
      replace (Z.of_nat (length a + 1 + length (cur ++ [c]))) with (Z.of_nat (length a + 1 + length cur) + 1) in IH
        by (rewrite length_app; simpl; lia).
      replace (Z.of_nat (length (cur ++ [c]))) with (Z.of_nat (length cur) + 1) in IH by (rewrite length_app; simpl; lia).
      rewrite <- !app_assoc in IH. simpl in IH. rewrite <- app_assoc. simpl. exact IH.
Qed.

(** ** The packet *)
Definition query_header : arr := [1; 0; 1; 0; 0; 1; 0; 0; 0; 0; 0; 0].
Definition query_tail : arr := [0; 1; 0; 1].

Lemma encode_cons l ls : encode_labels (l :: ls) = u8 (Z.of_nat (length l)) :: l ++ encode_labels ls.
Proof. done. Qed.

Lemma encode_length cur s : length (encode_labels (split_labels cur s)) = (1 + length cur + length s)%nat.
Proof.
  revert cur. induction s as [|c s IH]; intros cur; cbn [split_labels].
  - unfold encode_labels. simpl. rewrite app_nil_r. lia.
  - destruct (c =? DOT).
    + rewrite encode_cons. cbn [length]. rewrite length_app, IH. simpl. lia.
    + rewrite IH, length_app. simpl. lia.
Qed.

Lemma build_query_ok domain :
  Z.of_nat (length domain) ≤ BUF_SIZE - HDR_LEN - QER_LEN - 2 →
  build_query domain (replicate (Z.to_nat BUF_SIZE) 0) =
    Ok ((), query_header ++ encode_labels (labels domain) ++ 0 :: query_tail ++
            replicate (Z.to_nat (BUF_SIZE - HDR_LEN - QER_LEN - 2) - length domain) 0).
Proof.
  intros Hd. unfold build_query. set (m := (Z.to_nat (BUF_SIZE - HDR_LEN - QER_LEN - 2) - length domain)%nat).
  assert (replicate (Z.to_nat BUF_SIZE) 0 = [] ++ replicate 12 0 ++ 0 :: replicate (length domain + 1) 0 ++ replicate 4 0 ++ replicate m 0) as E.
  { assert (Z.to_nat BUF_SIZE = 12 + (S (length domain + 1) + (4 + m)))%nat as ->.
    { unfold m, BUF_SIZE, HDR_LEN, QER_LEN in *. lia. }
    by rewrite (replicate_add 12), (replicate_add (S (length domain + 1))), (replicate_add 4). }
  rewrite E, (bind_ok _ _ _ _ _ (put_ok 0 query_header [] (replicate 12 0) _ eq_refl eq_refl)). clear E. cbn [app].
  assert (query_header ++ 0 :: replicate (length domain + 1) 0 ++ replicate 4 0 ++ replicate m 0 =
    (query_header ++ [0]) ++ replicate (length domain + 1) 0 ++ replicate 4 0 ++ replicate m 0) as E by (by rewrite <- app_assoc).
  rewrite E, (bind_ok _ _ _ _ _ (put_ok (HDR_LEN + 1) (domain ++ [0]) (query_header ++ [0]) (replicate (length domain + 1) 0) _
    eq_refl ltac:(by rewrite length_replicate, length_app))). clear E.
  pose proof (qname_loop_ok domain query_header 0 [] ([0] ++ replicate 4 0 ++ replicate m 0)) as H.
  assert ((query_header ++ [0]) ++ (domain ++ [0]) ++ replicate 4 0 ++ replicate m 0 =
    query_header ++ 0 :: [] ++ domain ++ [0] ++ replicate 4 0 ++ replicate m 0) as E by (by rewrite <- !app_assoc).
  rewrite E, <- bind_assoc. change (HDR_LEN + 1) with (Z.of_nat (length query_header + 1 + length ([] : arr))).
  change 0 with (Z.of_nat (length ([] : arr))) at 1. rewrite (bind_ok _ _ _ _ _ H).
  set (q := encode_labels (split_labels [] domain)).
  replace (query_header ++ q ++ [0] ++ replicate 4 0 ++ replicate m 0) with
    ((query_header ++ q ++ [0]) ++ replicate 4 0 ++ replicate m 0) by (by rewrite <- !app_assoc).
  rewrite (put_ok _ query_tail (query_header ++ q ++ [0]) (replicate 4 0) (replicate m 0)); [by rewrite <- !app_assoc| |done].
  unfold q. rewrite !length_app, encode_length. unfold HDR_LEN. simpl. lia.
Qed.

(** ** Reading the name back *)
Definition good_label (l : arr) : Prop := (1 ≤ length l ≤ 63)%nat.

Lemma decode_encode ls r fuel :
  Forall good_label ls → (length ls < fuel)%nat → decode_name fuel (encode_labels ls ++ 0 :: r) = Some (ls, r).
Proof.
  intros Hl. revert fuel. induction Hl as [|l ls [H1 H2] Hl IH]; intros [|fuel] Hf; cbn [length] in *; try lia; [done|].
  rewrite encode_cons. cbn [decode_name app].
  unfold u8. rewrite Z.mod_small by lia. rewrite (proj2 (Z.eqb_neq _ _)) by lia. rewrite (proj2 (Z.leb_le _ _)) by lia.
  rewrite Nat2Z.id, <- app_assoc. rewrite bool_decide_true by (rewrite length_app; lia). cbn [andb].
  rewrite drop_app_length, take_app_length. by rewrite IH by lia.
Qed.

(** ** The answer *)
Lemma dec_u8 n : is_u8 n → (length (dec n) ≤ 3)%nat.
Proof.
  intros [H1 H2]. assert (Forall (λ n, length (dec n) ≤ 3)%nat (seqZ 0 256)) as H.
  { apply (bool_decide_unpack _). vm_compute. done. }
  rewrite Forall_forall in H. apply H. apply elem_of_seqZ. lia.
Qed.

Lemma dotted_length a b c d : is_u8 a → is_u8 b → is_u8 c → is_u8 d → (length (dotted a b c d) < 16)%nat.
Proof.
  intros Ha Hb Hc Hd. unfold dotted. rewrite !length_app. simpl.
  pose proof (dec_u8 a Ha). pose proof (dec_u8 b Hb). pose proof (dec_u8 c Hc). pose proof (dec_u8 d Hd). lia.
Qed.

(** The buffer with the answer in front, and what [dns_query] makes of it. *)
Definition answered (buf bytes : arr) : arr := bytes ++ drop (length bytes) buf.

Definition dns_result (buf : arr) (len : Z) (bytes : arr) : Z * option arr :=
  let b := answered buf bytes in
  let at_ i := b !!! Z.to_nat i in
  if len <? 0 then (-1, None)
  else if at_ 6 + 2 ^ 8 * at_ 7 =? 0 then (-1, None)
  else (0, Some (dotted (at_ (len - 4)) (at_ (len - 3)) (at_ (len - 2)) (at_ (len - 1)))).

Definition query_buffer (domain : arr) : arr :=
  query_header ++ encode_labels (labels domain) ++ 0 :: query_tail ++
  replicate (Z.to_nat (BUF_SIZE - HDR_LEN - QER_LEN - 2) - length domain) 0.

Section answer.
Context {K : Type} `{!DnsNet K}.
Implicit Type k : K.

Lemma byte_ok buf i k : 0 ≤ i < Z.of_nat (length buf) → byte buf i k = Ok (buf !!! Z.to_nat i, k).
Proof.
  intros Hi. unfold byte. rewrite <- (Z2Nat.id i) at 1 by lia. apply cget_ok.
  by rewrite list_lookup_lookup_total_lt by lia.
Qed.

Lemma query_length domain :
  Z.of_nat (length domain) ≤ BUF_SIZE - HDR_LEN - QER_LEN - 2 → length (query_buffer domain) = Z.to_nat BUF_SIZE.
Proof.
  intros Hd. unfold query_buffer, labels. rewrite !length_app. cbn [length]. rewrite length_app, length_replicate, encode_length. simpl.
  unfold BUF_SIZE, HDR_LEN, QER_LEN in *. lia.
Qed.

Lemma store_answer bytes buf k :
  (length bytes ≤ length buf)%nat → on_buf (put 0 bytes) buf k = Ok (answered buf bytes, k).
Proof.
  intros Hl. pose proof (put_ok 0 bytes [] (take (length bytes) buf) (drop (length bytes) buf) eq_refl) as E.
  simpl in E. rewrite take_drop, length_take in E. unfold on_buf. by rewrite E by lia.
Qed.

(** Without the byte at offset 6 the count of answers is that of the query. *)
Lemma answer_count domain bytes :
  (length bytes ≤ 6)%nat →
  answered (query_buffer domain) bytes !!! 6%nat = 0 ∧ answered (query_buffer domain) bytes !!! 7%nat = 0.
Proof.
  intros Hl. unfold answered. rewrite !lookup_total_app_r by lia. rewrite !lookup_total_drop.
  replace (length bytes + (6 - length bytes))%nat with 6%nat by lia.
  by replace (length bytes + (7 - length bytes))%nat with 7%nat by lia.
Qed.

Lemma answer_bytes domain len bytes k clifd :
  Z.of_nat (length domain) ≤ BUF_SIZE - HDR_LEN - QER_LEN - 2 → Z.of_nat (length bytes) ≤ BUF_SIZE →
  Forall is_u8 bytes → len = Z.of_nat (length bytes) →
  let buf := query_buffer domain in
  ∃ k', (buf ← on_buf (put 0 bytes) buf;
     x ← byte buf 6; y ← byte buf 7;
     if x + 2 ^ 8 * y =? 0 then mret (-1, None)
     else
       a ← byte buf (len - 4); b ← byte buf (len - 3); c ← byte buf (len - 2); d ← byte buf (len - 1);
       let s := dotted a b c d in
       if bool_decide (length s < 16)%nat then modify (dn_close clifd);; mret (0, Some s) else fail Segv) k =
    Ok (dns_result buf len bytes, k').
Proof.
  intros Hd Hb Hu -> buf. pose proof (query_length domain Hd) as Hq. fold buf in Hq.
  assert (length bytes ≤ length buf)%nat as Hle by (rewrite Hq; lia).
  rewrite (bind_ok _ _ _ _ _ (store_answer bytes buf k Hle)).
  assert (length (answered buf bytes) = Z.to_nat BUF_SIZE) as Ha.
  { unfold answered. rewrite length_app, length_drop. lia. }
  assert (∀ i, 0 ≤ i < BUF_SIZE → byte (answered buf bytes) i k = Ok (answered buf bytes !!! Z.to_nat i, k)) as Hbyte.
  { intros i Hi. apply byte_ok. lia. }
  rewrite (bind_ok _ _ _ _ _ (Hbyte 6 ltac:(done))), (bind_ok _ _ _ _ _ (Hbyte 7 ltac:(done))).
  unfold dns_result. rewrite (proj2 (Z.ltb_ge _ _)) by lia.
  destruct (Z.eqb_spec (answered buf bytes !!! Z.to_nat 6 + 2 ^ 8 * answered buf bytes !!! Z.to_nat 7) 0) as [E|E]; [eauto|].
  assert (7 ≤ length bytes)%nat as H7.
  { destruct (decide (7 ≤ length bytes)%nat); [done|]. exfalso. apply E.
    destruct (answer_count domain bytes ltac:(lia)) as [E6 E7]. fold buf in E6, E7.
    change (Z.to_nat 6) with 6%nat. change (Z.to_nat 7) with 7%nat. rewrite E6, E7. done. }
  assert (∀ j, 1 ≤ j ≤ 4 → is_u8 (answered buf bytes !!! Z.to_nat (Z.of_nat (length bytes) - j))) as Hj.
  { intros j Hj. unfold answered. rewrite lookup_total_app_l by lia. eapply Forall_lookup_total_1; [done|lia]. }
  assert (∀ j, 1 ≤ j ≤ 4 → 0 ≤ Z.of_nat (length bytes) - j < BUF_SIZE) as Hr by (intros; unfold BUF_SIZE in *; lia).
  rewrite (bind_ok _ _ _ _ _ (Hbyte _ (Hr 4 ltac:(lia)))), (bind_ok _ _ _ _ _ (Hbyte _ (Hr 3 ltac:(lia)))).
  rewrite (bind_ok _ _ _ _ _ (Hbyte _ (Hr 2 ltac:(lia)))), (bind_ok _ _ _ _ _ (Hbyte _ (Hr 1 ltac:(lia)))).
  rewrite bool_decide_true; [by eexists|]. apply dotted_length; apply Hj; lia.
Qed.
End answer.

(** C12: For every name that fits into the buffer [dns_query] stays within it,
    whatever the network answers.  The packet it sends is a query header with
    one question, the labels of the name each with its length in front, the
    end mark, and type A and class IN; if no label is empty or longer than 63
    bytes a reader gets the name back from it.  It returns 0 and the last four
    bytes of an answer as an address, and -1 if there is none. *)
Theorem dns_query_correct {K} `{!DnsNet K} `{!DnsLaws K} server domain (k : K) :
  (∀ s n k, Forall is_u8 (dn_recvfrom s n k).1.2) →
  Z.of_nat (length domain) ≤ BUF_SIZE - HDR_LEN - QER_LEN - 2 →
  let '(fd, k1) := dn_socket k in
  let sent := query_header ++ encode_labels (labels domain) ++ 0 :: query_tail in
  let '(r, _) := dn_recvfrom fd BUF_SIZE (dn_sendto fd server sent (dn_setsockopt fd (dn_setsockopt fd k1))).2 in
  0 ≤ fd →
  (Forall good_label (labels domain) →
     decode_name (S (length (labels domain))) (drop 12 sent) = Some (labels domain, query_tail)) ∧
  join (labels domain) = domain ∧
  ∃ k', dns_query server domain k = Ok (dns_result (query_buffer domain) r.1 r.2, k').
Proof.
  intros Hu Hd. destruct (dn_socket k) as [fd k1] eqn:E1. cbv zeta. set (k2 := dn_setsockopt fd (dn_setsockopt fd k1)).
  set (sent := query_header ++ encode_labels (labels domain) ++ 0 :: query_tail).
  destruct (dn_sendto fd server sent k2) as [n k3] eqn:E2. cbn [snd].
  destruct (dn_recv_length fd BUF_SIZE k3 ltac:(done)) as [Hl Hr]. pose proof (Hu fd BUF_SIZE k3) as Hb.
  destruct (dn_recvfrom fd BUF_SIZE k3) as [r k4] eqn:E3. cbn [fst] in Hl, Hr, Hb. intros Hfd.
  split; [intros Hg; apply (decode_encode (labels domain) query_tail); [done|lia]|].
  split; [apply (join_split [] domain)|].
  unfold dns_query. rewrite (bind_ok _ _ _ fd k1) by (unfold sys; by rewrite E1).
  rewrite (proj2 (Z.ltb_ge _ _) Hfd). rewrite (bind_ok _ _ _ () (dn_setsockopt fd k1)) by done.
  rewrite (bind_ok _ _ _ () k2) by done.
  rewrite (bind_ok _ _ _ (query_buffer domain) k2) by (unfold on_buf; by rewrite build_query_ok).
  cbv zeta. assert (take (Z.to_nat (HDR_LEN + QER_LEN + Z.of_nat (length domain) + 2)) (query_buffer domain) = sent) as ->.
  { replace (query_buffer domain) with (sent ++ replicate (Z.to_nat (BUF_SIZE - HDR_LEN - QER_LEN - 2) - length domain) 0)
      by (unfold sent, query_buffer; by rewrite <- !app_assoc).
    rewrite take_app_length'; [done|]. unfold sent, labels. rewrite !length_app. cbn [length]. rewrite encode_length.
    unfold HDR_LEN, QER_LEN. simpl. lia. }
  rewrite (bind_ok _ _ _ n k3) by (unfold sys; by rewrite E2). rewrite (bind_ok _ _ _ r k4) by (unfold sys; by rewrite E3).
  destruct (Z.ltb_spec r.1 0) as [H0|H0].
  - exists k4. unfold dns_result. by rewrite (proj2 (Z.ltb_lt _ _) H0).
  - destruct Hr as [[? _]|Hr]; [lia|]. by apply answer_bytes.
Qed.

(** A network that answers every query. *)
#[export] Instance answer_net : DnsNet unit := {
  dn_socket k := (3, k);
  dn_setsockopt _ k := k;
  dn_sendto _ _ b k := (Z.of_nat (length b), k);
  dn_recvfrom _ n k :=
    let b := take (Z.to_nat n) [1; 0; 129; 128; 0; 1; 0; 1; 10; 0; 0; 7] in ((Z.of_nat (length b), b), k);
  dn_close _ k := k }.

#[export] Instance answer_laws : DnsLaws unit.
Proof. split. intros s n k Hn. cbn [dn_recvfrom answer_net fst snd]. rewrite length_take. split; [lia|by right]. Qed.

Lemma dns_query_correct_witness :
  let domain := [97; DOT; 98; 99] in
  let '(fd, k1) := dn_socket () in
  let sent := query_header ++ encode_labels (labels domain) ++ 0 :: query_tail in
  let '(r, _) := dn_recvfrom fd BUF_SIZE (dn_sendto fd srv_ip sent (dn_setsockopt fd (dn_setsockopt fd k1))).2 in
  0 ≤ fd →
  (Forall good_label (labels domain) →
     decode_name (S (length (labels domain))) (drop 12 sent) = Some (labels domain, query_tail)) ∧
  join (labels domain) = domain ∧
  ∃ k', dns_query srv_ip domain () = Ok (dns_result (query_buffer domain) r.1 r.2, k').
Proof.
  apply (dns_query_correct srv_ip [97; DOT; 98; 99] ()).
  - intros s n k. apply Forall_take. repeat constructor; vm_compute; congruence.
  - vm_compute. discriminate.
Defined.
