(* ===== verification/Hosts.v ===== *)
(** * Hosts files (file/readhosts.c, json/parseidc.c)

    [read_hostsfile] counts the entries of a hosts file with the tokenizer
    [gettok]; [modify_hostsfile] exists twice and replaces or appends entries.
    A stream is the list of bytes that are still to be read.  The files are
    arguments and results; a file that cannot be opened is [None]. *)
From S2P Require Import Prelude CArr CBuf CInt.

(** ** Characters *)
Definition NL : Z := 10.
Definition HASH : Z := 35.
Definition SPACE : Z := 32.
Definition EOF : Z := -1.

Definition isspace (c : Z) : bool := (c =? 32) || ((9 <=? c) && (c <=? 13)).

(** [getc]; [ungetc] puts the byte back in front. *)
Definition getc (f : arr) : Z * arr := match f with [] => (EOF, []) | c :: f => (c, f) end.

(** ** The tokenizer of readhosts.c *)

(** The inner loop: up to the end of the line. *)
Fixpoint skip_comment (fuel : nat) (c : Z) (f : arr) : Z * arr :=
  match fuel with
  | O => (EOF, [])
  | S fuel => if (c =? NL) || (c =? EOF) then (c, f) else let '(c, f) := getc f in skip_comment fuel c f
  end.

(** Returns whether a line end was passed, and the rest. *)
Fixpoint eatspace_loop (fuel : nat) (nl : Z) (f : arr) : res (Z * arr) :=
  match fuel with
  | O => Err Fuel
  | S fuel =>
      let '(c, f) := getc f in
      let '(c, f) := if c =? HASH then skip_comment (S (S (length f))) c f else (c, f) in
      if c =? EOF then Ok (1, f)
      else if negb (isspace c) then Ok (nl, c :: f)
      else eatspace_loop fuel (if c =? NL then 1 else nl) f
  end.

Definition eatspace (f : arr) : res (Z * arr) := eatspace_loop (S (length f)) 0 f.

Definition MAXDNAME : Z := 1025.

(** The result, the token and the rest; the token is a string in a buffer of
    [MAXDNAME] bytes, longer ones are cut off. *)
Fixpoint gettok_loop (fuel : nat) (count : Z) (token f : arr) : res (Z * arr * arr) :=
  match fuel with
  | O => Err Fuel
  | S fuel =>
      let '(c, f) := getc f in
      if c =? EOF then Ok (if count =? 0 then EOF else 1, token, f)
      else if isspace c || (c =? HASH) then
        match eatspace (c :: f) with Ok (nl, f) => Ok (nl, token, f) | Err e => Err e end
      else if count <? MAXDNAME - 1 then gettok_loop fuel (count + 1) (take (Z.to_nat count) token ++ [c]) f
      else gettok_loop fuel count token f
  end.

Definition gettok (token f : arr) : res (Z * arr * arr) := gettok_loop (S (length f)) 0 token f.

(** The rest of an entry: the loop over its names. *)
Fixpoint names_loop (fuel : nat) (atnl : Z) (token f : arr) : res (arr * arr) :=
  match fuel with
  | O => Err Fuel
  | S fuel =>
      if atnl =? 0 then
        match gettok token f with
        | Ok (atnl, token, f) => if atnl =? EOF then Ok (token, f) else names_loop fuel atnl token f
        | Err e => Err e
        end
      else Ok (token, f)
  end.

Fixpoint hosts_loop (fuel : nat) (addr_count : Z) (token f : arr) : res Z :=
  match fuel with
  | O => Err Fuel
  | S fuel =>
      match gettok token f with
      | Ok (atnl, token, f) =>
          if atnl =? EOF then Ok addr_count
          else
            match names_loop (S (length f)) atnl token f with
            | Ok (token, f) => hosts_loop fuel (addr_count + 1) token f
            | Err e => Err e
            end
      | Err e => Err e
      end
  end.

(** The number of addresses the function prints; it returns 0 in any case. *)
Definition read_hostsfile (file : option arr) : res (option Z) :=
  match file with
  | None => Ok None
  | Some f =>
      match eatspace f with
      | Ok (_, f) =>
          match hosts_loop (S (length f)) 0 [] f with Ok n => Ok (Some n) | Err e => Err e end
      | Err e => Err e
      end
  end.

(** ** Rewriting a hosts file *)

(** [fgets]: at most [n - 1] bytes, up to and with the line end. *)
Fixpoint fgets (n : nat) (f : arr) : arr * arr :=
  match n, f with
  | S n, c :: f => if c =? NL then ([c], f) else let '(l, f) := fgets n f in (c :: l, f)
  | _, _ => ([], f)
  end.

(** The string in a buffer that received these bytes. *)
Fixpoint until_nul (l : arr) : arr :=
  match l with [] => [] | c :: l => if c =? 0 then [] else c :: until_nul l end.

(** The test of both functions: the name after a space, followed by a space,
    a line end, a comment or the byte that equals [EOF] as a signed char.  [line] is a string of less than 1024 bytes. *)
Definition has_domain (line domain : arr) : bool :=
  let desired_domain := SPACE :: domain in
  match strstr line desired_domain with
  | None => false
  | Some p =>
      let c := match drop (p + length desired_domain) line with [] => 0 | c :: _ => c end in
      (c =? SPACE) || (c =? NL) || (c =? 13) || (c =? HASH) || (c =? 255)
  end.

Definition entry (ip domain : arr) : arr := ip ++ SPACE :: domain ++ [NL].

(** [sprintf] into a buffer of [n] bytes. *)
Definition fits (n : Z) (s : arr) : bool := Z.of_nat (length s) <? n.

(** The buffer of the new contents: [memcpy] at its end. *)
Definition append (buff_len : Z) (buff line : arr) : res arr :=
  if Z.of_nat (length buff + length line) <=? buff_len then Ok (buff ++ line) else Err Segv.

Definition LINE_LEN : Z := 1024.

(** *** readhosts.c *)

(** The loop over the lines: [feof] is seen only after a read hit the end. *)
Fixpoint rewrite_loop (fuel : nat) (buff_len : Z) (ip domain : arr) (f buff : arr) (found : bool) : res (arr * bool) :=
  match fuel with
  | O => Err Fuel
  | S fuel =>
      match f with
      | [] => Ok (buff, found)
      | _ =>
          let '(l, f) := fgets (Z.to_nat (LINE_LEN - 2)) f in
          let line := until_nul l in
          let hit := has_domain line domain in
          if hit && negb (fits LINE_LEN (entry ip domain)) then Err Segv
          else
            match append buff_len buff (if hit then entry ip domain else line) with
            | Ok buff => rewrite_loop fuel buff_len ip domain f buff (found || hit)
            | Err e => Err e
            end
      end
  end.

(** The file is overwritten from its start and keeps its old length if the
    new contents are shorter. *)
Definition overwrite (old new : arr) : arr := new ++ drop (length new) old.

(** The size is returned as an int.  [st_size] is what the uninitialised buffer
    of a failed [stat] holds. *)
Definition get_file_size (file : option arr) (st_size : Z) : Z :=
  s32 (match file with Some f => Z.of_nat (length f) | None => st_size end).

(** A negative [buff_len] is a size for which malloc returns a null pointer, to
    which memset then writes. *)
Definition modify_hostsfile (file : option arr) (st_size : Z) (ip domain : arr) : res arr :=
  let buff_len := s32 (get_file_size file st_size + 16 + MAXDNAME) in
  if buff_len <? 0 then Err Segv
  else if negb (fits LINE_LEN (SPACE :: domain)) then Err Segv
  else
    match file with
    | None => Err Segv
    | Some f =>
        match rewrite_loop (S (length f)) buff_len ip domain f [] false with
        | Err e => Err e
        | Ok (buff, found) =>
            if found then Ok (overwrite f buff)
            else if negb (fits LINE_LEN (entry ip domain)) then Err Segv
            else
              match append buff_len buff (entry ip domain) with
              | Ok buff => Ok (overwrite f buff)
              | Err e => Err e
              end
        end
    end.

(** *** parseidc.c *)
Record Service := mk_service { domain : arr; ip : arr }.

Definition MAXDNAME_IDC : Z := 1024.
Definition DESIRED_LEN : Z := 2014.

(** The loop over the pairs for one line: the line and the pairs found so far.
    A replaced line is compared with the pairs that follow. *)
Fixpoint replace_loop (pairs : list Service) (line : arr) (found : list bool) : res (arr * list bool) :=
  match pairs, found with
  | p :: pairs, b :: found =>
      if negb (fits DESIRED_LEN (SPACE :: domain p)) then Err Segv
      else
        let hit := has_domain line (domain p) in
        if hit && negb (fits LINE_LEN (entry (ip p) (domain p))) then Err Segv
        else
          match replace_loop pairs (if hit then entry (ip p) (domain p) else line) found with
          | Ok (line, found) => Ok (line, (b || hit) :: found)
          | Err e => Err e
          end
  | _, _ => Ok (line, found)
  end.

Fixpoint rewrite_loop_idc (fuel : nat) (buff_len : Z) (pairs : list Service) (f buff : arr) (found : list bool) :
    res (arr * list bool) :=
  match fuel with
  | O => Err Fuel
  | S fuel =>
      match f with
      | [] => Ok (buff, found)
      | _ =>
          let '(l, f) := fgets (Z.to_nat (LINE_LEN - 2)) f in
          match replace_loop pairs (until_nul l) found with
          | Err e => Err e
          | Ok (line, found) =>
              match append buff_len buff line with
              | Ok buff => rewrite_loop_idc fuel buff_len pairs f buff found
              | Err e => Err e
              end
          end
      end
  end.

(** The entries that were not found go to the end. *)
Fixpoint append_missing (buff_len : Z) (pairs : list Service) (found : list bool) (buff : arr) : res arr :=
  match pairs, found with
  | p :: pairs, b :: found =>
      if b : bool then append_missing buff_len pairs found buff
      else if negb (fits LINE_LEN (entry (ip p) (domain p))) then Err Segv
      else
        match append buff_len buff (entry (ip p) (domain p)) with
        | Ok buff => append_missing buff_len pairs found buff
        | Err e => Err e
        end
  | _, _ => Ok buff
  end.

(** Returns the result and the new contents of the file. *)
Definition modify_hostsfile_idc (file : option arr) (st_size : Z) (pairs : list Service) : res (Z * option arr) :=
  let file_size := get_file_size file st_size in
  let size := Z.of_nat (length pairs) in
  let buff_len := s32 (file_size + 16 + MAXDNAME_IDC * size) in
  if file_size <=? 0 then Ok (0, file)
  else if buff_len <? 0 then Err Segv
  else
    match file with
    | None => Ok (-1, None)
    | Some f =>
        match rewrite_loop_idc (S (length f)) buff_len pairs f [] (replicate (length pairs) false) with
        | Err e => Err e
        | Ok (buff, found) =>
            match append_missing buff_len pairs found buff with
            | Ok buff => Ok (0, Some (overwrite f buff))
            | Err e => Err e
            end
        end
    end.

(** ** Counting entries *)

(** The lines of a file and the test for an entry: something that is neither
    white space nor in a comment. *)
Fixpoint lines_from (cur f : arr) : list arr :=
  match f with
  | [] => [cur]
  | c :: f => if c =? NL then cur :: lines_from [] f else lines_from (cur ++ [c]) f
  end.

Fixpoint has_entry (l : arr) : bool :=
  match l with
  | [] => false
  | c :: l => if c =? HASH then false else if isspace c then has_entry l else true
  end.

Definition count_entries (f : arr) : Z := Z.of_nat (length (filter (λ l, has_entry l = true) (lines_from [] f))).

(** The same count as a scan: [seen], whether the current line was counted,
    and [comment], whether the rest of it is a comment. *)
Fixpoint scan (seen comment : bool) (f : arr) : Z :=
  match f with
  | [] => 0
  | c :: f =>
      if c =? NL then scan false false f
      else if comment || (c =? HASH) then scan seen true f
      else if isspace c then scan seen false f
      else (if seen then 0 else 1) + scan true false f
  end.

Lemma has_entry_app l c :
  has_entry (l ++ [c]) = has_entry l || (negb (existsb (λ x, x =? HASH) l) && negb (c =? HASH) && negb (isspace c)).
Proof.
  induction l as [|x l IH]; cbn [app has_entry existsb].
  - by destruct (c =? HASH), (isspace c).
  - destruct (x =? HASH); [done|]. cbn [orb]. by destruct (isspace x).
Qed.

Lemma scan_lines f cur :
  Z.of_nat (length (filter (λ l, has_entry l = true) (lines_from cur f))) =
  (if has_entry cur then 1 else 0) + scan (has_entry cur) (existsb (λ x, x =? HASH) cur) f.
Proof.
  revert cur. induction f as [|c f IH]; intros cur; cbn [lines_from scan].
  - rewrite filter_cons. destruct (has_entry cur) eqn:E; [by rewrite decide_True|by rewrite decide_False].
  - destruct (c =? NL).
    + rewrite filter_cons. specialize (IH []). simpl in IH. destruct (has_entry cur) eqn:E.
      * rewrite decide_True by done. cbn [length]. lia.
      * rewrite decide_False by done. lia.
    + rewrite IH, has_entry_app, existsb_app. cbn [existsb]. rewrite orb_false_r.
      destruct (has_entry cur), (existsb (λ x, x =? HASH) cur), (c =? HASH), (isspace c); simpl; lia.
Qed.

(** ** The tokenizer scans *)
Definition bytes (f : arr) : Prop := Forall (λ c, 0 ≤ c) f.

(** At the start of a token or at the end of the file. *)
Definition at_token (f : arr) : Prop := match f with [] => True | c :: _ => isspace c = false ∧ c ≠ HASH end.

Lemma not_eof c : 0 ≤ c → (c =? EOF) = false.
Proof. intros. apply Z.eqb_neq. unfold EOF. lia. Qed.

Lemma skip_comment_ok fuel c f seen :
  bytes f → c ≠ NL → c ≠ EOF → (S (length f) < fuel)%nat →
  ∃ c' f', skip_comment fuel c f = (c', f') ∧ bytes f' ∧ (length f' ≤ length f)%nat ∧
    ((c' = NL ∧ (length f' < length f)%nat ∧ scan seen true f = scan false false f') ∨
     (c' = EOF ∧ f' = [] ∧ scan seen true f = 0)).
Proof.
  intros Hf. revert fuel c. induction Hf as [|x f Hx Hf IH]; intros [|fuel] c Hc He Hl; simpl in Hl; try lia; cbn [skip_comment].
  - rewrite (proj2 (Z.eqb_neq _ _) Hc), (proj2 (Z.eqb_neq _ _) He). cbn [orb getc].
    destruct fuel as [|fuel]; [lia|]. exists EOF, []. split; [done|]. split; [constructor|]. split; [simpl; lia|]. by right.
  - rewrite (proj2 (Z.eqb_neq _ _) Hc), (proj2 (Z.eqb_neq _ _) He). cbn [orb getc scan].
    destruct (Z.eqb_spec x NL) as [->|Hn].
    + destruct fuel as [|fuel]; [lia|]. exists NL, f. split; [done|]. split; [done|]. split; [simpl; lia|]. left. simpl. eauto with lia.
    + destruct (IH fuel x Hn ltac:(unfold EOF; lia) ltac:(lia)) as (c' & f' & -> & Hb & Hlen & HS).
      exists c', f'. split; [done|]. split; [done|]. split; [simpl; lia|]. simpl length. destruct HS as [(? & ? & ?)|?]; [left|right]; eauto with lia.
Qed.

(** What one run of [eatspace] or [gettok] leaves: the flag says whether the
    line of the token has ended. *)
Record ate (seen : bool) (f : arr) (nl : Z) (f' : arr) : Prop := {
  ate_flag : nl = 0 ∨ nl = 1;
  ate_scan : scan seen false f = scan (if nl =? 0 then seen else false) false f';
  ate_bytes : bytes f';
  ate_length : (length f' ≤ length f)%nat;
  ate_token : at_token f';
  ate_end : f' = [] → nl = 1 }.

Lemma eatspace_loop_ok fuel nl f seen :
  bytes f → (length f < fuel)%nat → nl = 0 ∨ nl = 1 →
  ∃ nl' f', eatspace_loop fuel nl f = Ok (nl', f') ∧ (nl = 1 → nl' = 1) ∧
    ate (if nl =? 0 then seen else false) f nl' f'.
Proof.
  revert nl f seen. induction fuel as [|fuel IH]; intros nl f seen Hf Hl Hnl; [lia|]. cbn [eatspace_loop].
  destruct f as [|c f].
  { exists 1, []. split; [done|]. split; [done|]. split; simpl; auto. }
  apply Forall_cons in Hf as [Hc Hf]. cbn [getc]. simpl in Hl.
  set (s := if nl =? 0 then seen else false).
  assert (∀ nl1 f1, bytes f1 → (length f1 ≤ length f)%nat → (nl1 = 0 ∨ nl1 = 1) → (nl = 1 → nl1 = 1) →
    scan s false (c :: f) = scan (if nl1 =? 0 then s else false) false f1 →
    ∃ nl' f', eatspace_loop fuel nl1 f1 = Ok (nl', f') ∧ (nl = 1 → nl' = 1) ∧ ate s (c :: f) nl' f') as Hgo.
  { intros nl1 f1 Hb1 Hl1 Hn1 Himp Hs. destruct (IH nl1 f1 s Hb1 ltac:(lia) Hn1) as (nl' & f' & E & Hi & [A B C D F G]).
    exists nl', f'. split; [done|]. split; [auto|]. split; auto; [|simpl; lia]. rewrite Hs, B.
    destruct Hn1 as [-> | ->]; [done|]. rewrite (Hi eq_refl). done. }
  destruct (Z.eqb_spec c HASH) as [->|Hh].
  - destruct (skip_comment_ok (S (S (length f))) HASH f s Hf) as (c' & f' & -> & Hb & Hlen & HS); [done|done|lia|].
    destruct HS as [(-> & Hlt & HS)|(-> & -> & HS)].
    + cbn [Z.eqb]. apply Hgo; [done|lia|by right|done|]. simpl. destruct Hnl as [-> | ->]; exact HS.
    + exists 1, []. split; [done|]. split; [done|]. split; simpl; auto with lia.
  - rewrite (not_eof c Hc). destruct (isspace c) eqn:Es; cbn [negb].
    + apply Hgo; [done|lia|destruct (c =? NL); auto|destruct (c =? NL); auto|].
      cbn [scan]. rewrite (proj2 (Z.eqb_neq _ _) Hh), Es. cbn [orb]. destruct (c =? NL); [done|].
      unfold s. by destruct Hnl as [-> | ->].
    + exists nl, (c :: f). split; [done|]. split; [done|]. split; auto; [|by constructor|by split|done].
      unfold s. by destruct Hnl as [-> | ->].
Qed.

Lemma eatspace_ok f seen : bytes f → ∃ nl f', eatspace f = Ok (nl, f') ∧ ate seen f nl f'.
Proof.
  intros Hf. destruct (eatspace_loop_ok (S (length f)) 0 f seen Hf ltac:(lia) ltac:(by left)) as (nl & f' & E & _ & H). eauto.
Qed.

Lemma gettok_loop_ok fuel count token f :
  bytes f → (length f < fuel)%nat → 0 ≤ count →
  ∃ r t f', gettok_loop fuel count token f = Ok (r, t, f') ∧
    ((r = EOF ∧ f = [] ∧ count = 0) ∨
     (ate true f r f' ∧ (at_token f → f ≠ [] → (length f' < length f)%nat))).
Proof.
  revert count token f. induction fuel as [|fuel IH]; intros count token f Hf Hl Hc; [lia|]. cbn [gettok_loop].
  destruct f as [|c f].
  { cbn [getc]. rewrite Z.eqb_refl. destruct (Z.eqb_spec count 0) as [->|Hn].
    - exists EOF, token, []. split; [done|]. by left.
    - exists 1, token, []. split; [done|]. right. split; [|done]. split; simpl; auto. }
  pose proof Hf as Hcf. apply Forall_cons in Hf as [Hc0 Hf]. cbn [getc]. rewrite (not_eof c Hc0). simpl in Hl.
  destruct (isspace c || (c =? HASH)) eqn:Es.
  - destruct (eatspace_ok (c :: f) true Hcf) as (nl & f' & -> & Ha). exists nl, token, f'. split; [done|]. right.
    split; [done|]. intros [Ht Hh] _. rewrite Ht, (proj2 (Z.eqb_neq _ _) Hh) in Es. done.
  - apply orb_false_iff in Es as [Es Eh].
    assert (∀ count' token', 0 < count' → ∃ r t f', gettok_loop fuel count' token' f = Ok (r, t, f') ∧
      ((r = EOF ∧ c :: f = [] ∧ count = 0) ∨
       (ate true (c :: f) r f' ∧ (at_token (c :: f) → c :: f ≠ [] → (length f' < length (c :: f))%nat)))) as Hgo.
    { intros count' token' Hp. destruct (IH count' token' f Hf ltac:(lia) ltac:(lia)) as (r & t & f' & -> & [(_ & _ & ?)|[[A B C D F G] _]]); [lia|].
      exists r, t, f'. split; [done|]. right. split; [|simpl; lia]. split; auto; [|simpl; lia]. rewrite <- B. cbn [scan].
      rewrite Es, Eh. cbn [orb]. destruct (Z.eqb_spec c NL) as [->|]; [done|lia]. }
    destruct (count <? MAXDNAME - 1) eqn:Em; [apply Hgo; lia|]. apply Z.ltb_ge in Em. apply Hgo. unfold MAXDNAME in Em. lia.
Qed.

Lemma names_loop_ok fuel atnl token f :
  bytes f → (length f < fuel)%nat → at_token f → (atnl = 0 ∧ f ≠ [] ∨ atnl = 1) →
  ∃ t f', names_loop fuel atnl token f = Ok (t, f') ∧ bytes f' ∧ at_token f' ∧ (length f' ≤ length f)%nat ∧
    scan (if atnl =? 0 then true else false) false f = scan false false f'.
Proof.
  revert atnl token f. induction fuel as [|fuel IH]; intros atnl token f Hf Hl Ht Hn; [lia|]. cbn [names_loop].
  destruct Hn as [[-> Hne]| ->]; [|exists token, f; eauto].
  cbn [Z.eqb]. destruct (gettok_loop_ok (S (length f)) 0 token f Hf ltac:(lia) ltac:(lia)) as (r & t & f1 & E & [(_ & ? & _)|[[A B C D F G] Hlt]]); [done|].
  unfold gettok. rewrite E. rewrite not_eof by lia. specialize (Hlt Ht Hne).
  destruct (IH r t f1 C ltac:(lia) F) as (t' & f' & -> & H1 & H2 & H3 & H4).
  { destruct A as [-> | ->]; [left; split; [done|intros ->; by specialize (G eq_refl)]|by right]. }
  exists t', f'. split; [done|]. split; [done|]. split; [done|]. split; [lia|]. rewrite B. by destruct A as [-> | ->].
Qed.

Lemma hosts_loop_ok fuel n token f :
  bytes f → (length f < fuel)%nat → at_token f → hosts_loop fuel n token f = Ok (n + scan false false f).
Proof.
  revert n token f. induction fuel as [|fuel IH]; intros n token f Hf Hl Ht; [lia|]. cbn [hosts_loop].
  destruct (gettok_loop_ok (S (length f)) 0 token f Hf ltac:(lia) ltac:(lia)) as (r & t & f1 & E & HE).
  unfold gettok. rewrite E. destruct HE as [(-> & -> & _)|[[A B C D F G] Hlt]].
  { rewrite Z.eqb_refl. simpl. f_equal. lia. }
  rewrite not_eof by lia. assert (f ≠ []) as Hne.
  { intros ->. simpl in *. unfold gettok_loop in E. simpl in E. injection E as <- _ _. by destruct A. }
  specialize (Hlt Ht Hne).
  destruct (names_loop_ok (S (length f1)) r t f1 C ltac:(lia) F) as (t' & f' & -> & H1 & H2 & H3 & H4).
  { destruct A as [-> | ->]; [left; split; [done|intros ->; by specialize (G eq_refl)]|by right]. }
  rewrite IH by (done || lia). f_equal. destruct f as [|c f]; [done|]. destruct Ht as [Es Eh]. cbn [scan] in B |- *.
  assert (c ≠ NL) as Hnl by (intros ->; done).
  rewrite (proj2 (Z.eqb_neq _ _) Hnl), (proj2 (Z.eqb_neq _ _) Eh), Es in *. cbn [orb] in *.
  assert (scan (if r =? 0 then true else false) false f1 = scan false false f') by done. lia.
Qed.

(** [read_hostsfile] reads every file to its end and counts the lines on
    which something stands that is neither white space nor a comment. *)
Theorem read_hostsfile_correct f :
  bytes f → read_hostsfile (Some f) = Ok (Some (count_entries f)).
Proof.
  intros Hf. unfold read_hostsfile. destruct (eatspace_ok f false Hf) as (nl & f' & -> & [A B C D F G]).
  rewrite (hosts_loop_ok (S (length f')) 0 [] f' C ltac:(lia) F). f_equal. f_equal. unfold count_entries.
  rewrite scan_lines. cbn [has_entry existsb]. rewrite B. by destruct A as [-> | ->].
Qed.

Lemma read_hostsfile_correct_witness :
  read_hostsfile (Some [49; 32; 97; 10; 35; 120; 10; 10; 50; 9; 98; 35; 99]) = Ok (Some 2).
Proof. apply (read_hostsfile_correct [49; 32; 97; 10; 35; 120; 10; 10; 50; 9; 98; 35; 99]). repeat constructor; lia. Defined.

(** ** Rewriting *)
Lemma fgets_app n f : (fgets n f).1 ++ (fgets n f).2 = f.
Proof.
  revert f. induction n as [|n IH]; intros [|c f]; simpl; auto. destruct (c =? NL); [done|].
  specialize (IH f). destruct (fgets n f). simpl in *. by rewrite IH.
Qed.

Lemma fgets_progress n c f : (length (fgets (S n) (c :: f)).2 < length (c :: f))%nat.
Proof.
  pose proof (fgets_app (S n) (c :: f)) as E. apply (f_equal length) in E. rewrite length_app in E.
  assert (0 < length (fgets (S n) (c :: f)).1)%nat; [|lia].
  simpl. destruct (c =? NL); [simpl; lia|]. destruct (fgets n f). simpl. lia.
Qed.

(** The pieces in which the file is read. *)
Fixpoint pieces (fuel : nat) (f : arr) : list arr :=
  match fuel, f with
  | S fuel, _ :: _ => let '(l, f) := fgets (Z.to_nat (LINE_LEN - 2)) f in l :: pieces fuel f
  | _, _ => []
  end.

Definition file_pieces (f : arr) : list arr := pieces (S (length f)) f.

Lemma line_step f : f ≠ [] → ∃ l f', fgets (Z.to_nat (LINE_LEN - 2)) f = (l, f') ∧ (length f' < length f)%nat ∧ l ++ f' = f.
Proof.
  intros Hf. destruct f as [|c f]; [done|]. replace (Z.to_nat (LINE_LEN - 2)) with (S (Z.to_nat (LINE_LEN - 3))) by (unfold LINE_LEN; lia).
  pose proof (fgets_app (S (Z.to_nat (LINE_LEN - 3))) (c :: f)). pose proof (fgets_progress (Z.to_nat (LINE_LEN - 3)) c f).
  destruct (fgets _ _) as [l f']. simpl in *. eauto.
Qed.

Lemma pieces_concat fuel f : (length f < fuel)%nat → mjoin (pieces fuel f) = f.
Proof.
  revert f. induction fuel as [|fuel IH]; intros f Hl; [lia|]. destruct f as [|c f]; [done|]. cbn [pieces].
  destruct (line_step (c :: f) ltac:(done)) as (l & f' & -> & Hlt & E). simpl. rewrite IH by (simpl in *; lia). done.
Qed.

Lemma until_nul_id l : no_nul l → until_nul l = l.
Proof. induction 1 as [|c l Hc Hl IH]; simpl; [done|]. by rewrite (proj2 (Z.eqb_neq c 0) Hc), IH. Qed.

(** What becomes of a piece, and of the file. *)
Definition hits (domain l : arr) : bool := has_domain (until_nul l) domain.
Definition rewritten (ip domain l : arr) : arr := if hits domain l then entry ip domain else until_nul l.
Definition new_contents (ip domain f : arr) : arr :=
  mjoin (rewritten ip domain <$> file_pieces f) ++
  (if existsb (hits domain) (file_pieces f) then [] else entry ip domain).

Lemma append_cases n b l :
  append n b l = if Z.of_nat (length (b ++ l)) <=? n then Ok (b ++ l) else Err Segv.
Proof. unfold append. by rewrite length_app. Qed.

Lemma rewrite_loop_ok fuel n ip domain f b found :
  fits LINE_LEN (entry ip domain) = true → (length f < fuel)%nat → Z.of_nat (length b) ≤ n →
  let new := b ++ mjoin (rewritten ip domain <$> pieces fuel f) in
  rewrite_loop fuel n ip domain f b found =
    if Z.of_nat (length new) <=? n then Ok (new, found || existsb (hits domain) (pieces fuel f)) else Err Segv.
Proof.
  intros Hfit. revert f b found. induction fuel as [|fuel IH]; intros f b found Hl Hb new; [lia|]. subst new.
  destruct f as [|c f].
  { cbn [rewrite_loop pieces fmap list_fmap mjoin list_join existsb]. rewrite app_nil_r, orb_false_r.
    by rewrite (proj2 (Z.leb_le _ _) Hb). }
  cbn [rewrite_loop pieces]. destruct (line_step (c :: f) ltac:(done)) as (l & f' & -> & Hlt & _).
  rewrite Hfit. cbn [negb]. rewrite andb_false_r. fold (hits domain l). fold (rewritten ip domain l).
  cbn [fmap list_fmap existsb]. rewrite append_cases.
  change (mjoin (rewritten ip domain l :: (rewritten ip domain <$> pieces fuel f'))) with
    (rewritten ip domain l ++ mjoin (rewritten ip domain <$> pieces fuel f')).
  destruct (Z.leb_spec (Z.of_nat (length (b ++ rewritten ip domain l))) n) as [Hn|Hn].
  - rewrite IH by (simpl in *; lia). by rewrite <- app_assoc, orb_assoc.
  - rewrite (proj2 (Z.leb_gt _ _)); [done|]. rewrite !length_app in *. lia.
Qed.

(** An entry that does not fit into a line is never stored. *)
Lemma rewrite_loop_unfit fuel n ip domain f b : fits LINE_LEN (entry ip domain) = false → (length f < fuel)%nat →
  rewrite_loop fuel n ip domain f b false = Err Segv ∨ ∃ b', rewrite_loop fuel n ip domain f b false = Ok (b', false).
Proof.
  intros Hfit. revert f b. induction fuel as [|fuel IH]; intros f b Hl; [lia|]. destruct f as [|c f]; [right; by exists b|].
  cbn [rewrite_loop]. destruct (line_step (c :: f) ltac:(done)) as (l & f' & -> & Hlt & _). rewrite Hfit. cbn [negb]. rewrite andb_true_r.
  destruct (has_domain (until_nul l) domain); [by left|]. unfold append. destruct (_ <=? n); [|by left]. apply IH. simpl in *. lia.
Qed.

(** The size of the buffer. *)
Definition room (f : arr) : Z := s32 (s32 (Z.of_nat (length f)) + 16 + MAXDNAME).

Lemma modify_ok f st_size ip domain :
  let new := new_contents ip domain f in
  modify_hostsfile (Some f) st_size ip domain =
    if fits LINE_LEN (SPACE :: domain) && fits LINE_LEN (entry ip domain) && (Z.of_nat (length new) <=? room f)
    then Ok (overwrite f new) else Err Segv.
Proof.
  intros new. unfold modify_hostsfile, get_file_size. fold (room f). set (n := room f). cbv zeta.
  destruct (Z.ltb_spec n 0) as [Hneg|Hpos]; [by rewrite (proj2 (Z.leb_gt _ n)), !andb_false_r by lia|].
  destruct (fits LINE_LEN (SPACE :: domain)); cbn [negb andb]; [|done]. destruct (fits LINE_LEN (entry ip domain)) eqn:H2; cbn [andb].
  2: { destruct (rewrite_loop_unfit (S (length f)) n ip domain f [] H2) as [->|[b ->]]; [lia|done|done]. }
  rewrite rewrite_loop_ok by (done || (simpl; lia)). cbn [app]. cbv zeta.
  fold (file_pieces f). unfold new, new_contents. set (m := mjoin (rewritten ip domain <$> file_pieces f)). cbn [orb].
  destruct (Z.leb_spec (Z.of_nat (length m)) n) as [Hm|Hm].
  - destruct (existsb (hits domain) (file_pieces f)).
    + by rewrite app_nil_r, (proj2 (Z.leb_le _ _) Hm).
    + cbn [negb]. rewrite append_cases. by destruct (_ <=? n).
  - rewrite (proj2 (Z.leb_gt _ _)); [done|]. rewrite length_app. lia.
Qed.

Lemma mjoin_elem {A B} (g : A → list B) ls l :
  l ∈ ls → ∃ a b, mjoin (g <$> ls) = a ++ g l ++ b.
Proof.
  induction 1 as [l ls|l x ls _ (a & b & E)]; [by exists [], (mjoin (g <$> ls))|].
  exists (g x ++ a), b. change (mjoin (g <$> x :: ls)) with (g x ++ mjoin (g <$> ls)). by rewrite E, <- app_assoc.
Qed.

(** The new contents have the entry, and the rest of the file is as before
    where no line is replaced. *)
Lemma new_contents_entry ip domain f : ∃ a b, new_contents ip domain f = a ++ entry ip domain ++ b.
Proof.
  unfold new_contents. destruct (existsb (hits domain) (file_pieces f)) eqn:E.
  - apply existsb_exists in E as (l & Hl & Hh). apply list_elem_of_In in Hl.
    destruct (mjoin_elem (rewritten ip domain) (file_pieces f) l Hl) as (a & b & ->).
    exists a, b. rewrite app_nil_r. unfold rewritten. by rewrite Hh.
  - exists (mjoin (rewritten ip domain <$> file_pieces f)), []. by rewrite app_nil_r.
Qed.

Lemma new_contents_absent ip domain f :
  no_nul f → existsb (hits domain) (file_pieces f) = false → new_contents ip domain f = f ++ entry ip domain.
Proof.
  intros Hn E. unfold new_contents. rewrite E. f_equal.
  assert (mjoin (rewritten ip domain <$> file_pieces f) = mjoin (file_pieces f)) as ->.
  { f_equal. rewrite <- (list_fmap_id (file_pieces f)) at 2. apply list_fmap_ext. intros i l Hl.
    assert (l ∈ file_pieces f) as Hin by (by eapply list_elem_of_lookup_2).
    assert (hits domain l = false) as Hh.
    { destruct (hits domain l) eqn:Hh; [|done]. rewrite <- E. symmetry. apply existsb_exists. exists l.
      split; [by apply list_elem_of_In|done]. }
    unfold rewritten. rewrite Hh. apply until_nul_id.
    destruct (mjoin_elem id (file_pieces f) l Hin) as (a & b & Ej). rewrite list_fmap_id in Ej.
    unfold file_pieces in Ej. rewrite pieces_concat in Ej by lia. rewrite Ej in Hn. unfold no_nul in *.
    rewrite !Forall_app in Hn. apply Hn. }
  apply pieces_concat. lia.
Qed.

(** ** Rewriting with several pairs: the version in parseidc.c *)
Definition pair_entry (p : Service) : arr := entry (ip p) (domain p).
Definition pair_fits (p : Service) : Prop :=
  fits LINE_LEN (pair_entry p) = true ∧ fits DESIRED_LEN (SPACE :: domain p) = true.

(** A line after the pairs were compared with it one after the other, and
    which of them matched. *)
Fixpoint line_after (pairs : list Service) (line : arr) : arr :=
  match pairs with
  | [] => line
  | p :: pairs => line_after pairs (if has_domain line (domain p) then pair_entry p else line)
  end.
Fixpoint line_found (pairs : list Service) (line : arr) : list bool :=
  match pairs with
  | [] => []
  | p :: pairs =>
      has_domain line (domain p) ::
      line_found pairs (if has_domain line (domain p) then pair_entry p else line)
  end.

Definition orl : list bool → list bool → list bool := zip_with orb.

Definition found_in (pairs : list Service) (ls : list arr) (found : list bool) : list bool :=
  foldl (λ fs l, orl fs (line_found pairs (until_nul l))) found ls.

Definition missing (pairs : list Service) (found : list bool) : arr :=
  mjoin (zip_with (λ p (b : bool), if b then [] else pair_entry p) pairs found).

Definition rewritten_lines (pairs : list Service) (ls : list arr) : arr :=
  mjoin ((λ l, line_after pairs (until_nul l)) <$> ls).

Definition new_contents_idc (pairs : list Service) (f : arr) : arr :=
  rewritten_lines pairs (file_pieces f) ++
  missing pairs (found_in pairs (file_pieces f) (replicate (length pairs) false)).

Lemma line_found_length pairs line : length (line_found pairs line) = length pairs.
Proof. revert line. induction pairs as [|p pairs IH]; intros line; simpl; [done|]. by rewrite IH. Qed.

Lemma replace_loop_ok pairs line found : Forall pair_fits pairs → length found = length pairs →
  replace_loop pairs line found = Ok (line_after pairs line, orl found (line_found pairs line)).
Proof.
  intros Hf. revert line found. induction Hf as [|p pairs [H1 H2] Hf IH]; intros line [|b found] Hl; try done.
  cbn [replace_loop line_after line_found orl zip_with]. rewrite H2. unfold pair_entry in *. rewrite H1. cbn [negb].
  rewrite andb_false_r, IH by (simpl in *; lia). done.
Qed.

Lemma found_in_length pairs ls found : length found = length pairs → length (found_in pairs ls found) = length pairs.
Proof.
  revert found. induction ls as [|l ls IH]; intros found Hl; [done|]. apply IH. unfold orl.
  rewrite length_zip_with, line_found_length. lia.
Qed.

Lemma rewrite_loop_idc_ok fuel n pairs f b found :
  Forall pair_fits pairs → length found = length pairs → (length f < fuel)%nat → Z.of_nat (length b) ≤ n →
  let new := b ++ rewritten_lines pairs (pieces fuel f) in
  rewrite_loop_idc fuel n pairs f b found =
    if Z.of_nat (length new) <=? n then Ok (new, found_in pairs (pieces fuel f) found) else Err Segv.
Proof.
  intros Hp. revert f b found. induction fuel as [|fuel IH]; intros f b found Hd Hl Hb new; [lia|]. subst new.
  destruct f as [|c f].
  { cbn [rewrite_loop_idc pieces]. unfold rewritten_lines. cbn [fmap list_fmap mjoin list_join]. rewrite app_nil_r.
    by rewrite (proj2 (Z.leb_le _ _) Hb). }
  cbn [rewrite_loop_idc pieces]. destruct (line_step (c :: f) ltac:(done)) as (l & f' & -> & Hlt & _).
  rewrite replace_loop_ok, append_cases by done.
  change (rewritten_lines pairs (l :: pieces fuel f')) with
    (line_after pairs (until_nul l) ++ rewritten_lines pairs (pieces fuel f')).
  destruct (Z.leb_spec (Z.of_nat (length (b ++ line_after pairs (until_nul l)))) n) as [Hn|Hn].
  - rewrite IH; [by rewrite <- app_assoc| |simpl in *; lia|lia]. unfold orl. rewrite length_zip_with, line_found_length. lia.
  - rewrite (proj2 (Z.leb_gt _ _)); [done|]. rewrite !length_app in *. lia.
Qed.

Lemma append_missing_ok n pairs found b : Forall pair_fits pairs → length found = length pairs → Z.of_nat (length b) ≤ n →
  append_missing n pairs found b =
    if Z.of_nat (length (b ++ missing pairs found)) <=? n then Ok (b ++ missing pairs found) else Err Segv.
Proof.
  intros Hp. revert found b. induction Hp as [|p pairs [H1 H2] Hp IH]; intros [|x found] b Hl Hb; try done.
  { unfold missing. simpl. by rewrite app_nil_r, (proj2 (Z.leb_le _ _) Hb). }
  cbn [append_missing].
  change (missing (p :: pairs) (x :: found)) with ((if x then [] else pair_entry p) ++ missing pairs found).
  destruct x; [apply IH; simpl in *; [lia|done]|]. unfold pair_entry in *. rewrite H1. cbn [negb]. rewrite append_cases.
  destruct (Z.leb_spec (Z.of_nat (length (b ++ entry (ip p) (domain p)))) n) as [Hn|Hn].
  - rewrite IH by (simpl in *; lia). by rewrite <- app_assoc.
  - rewrite (proj2 (Z.leb_gt _ _)); [done|]. rewrite !length_app in *. lia.
Qed.

(** The size of the buffer. *)
Definition room_idc (f : arr) (pairs : list Service) : Z :=
  s32 (s32 (Z.of_nat (length f)) + 16 + MAXDNAME_IDC * Z.of_nat (length pairs)).

Lemma modify_idc_ok f st_size pairs : Forall pair_fits pairs →
  let new := new_contents_idc pairs f in
  modify_hostsfile_idc (Some f) st_size pairs =
    if s32 (Z.of_nat (length f)) <=? 0 then Ok (0, Some f)
    else if Z.of_nat (length new) <=? room_idc f pairs then Ok (0, Some (overwrite f new)) else Err Segv.
Proof.
  intros Hp new. unfold modify_hostsfile_idc, get_file_size. fold (room_idc f pairs). set (n := room_idc f pairs). cbv zeta.
  destruct (_ <=? 0); [done|]. destruct (Z.ltb_spec n 0) as [Hneg|Hpos]; [by rewrite (proj2 (Z.leb_gt _ n)) by lia|].
  rewrite rewrite_loop_idc_ok; [|done|apply length_replicate|lia|simpl; lia]. cbn [app]. cbv zeta.
  fold (file_pieces f). unfold new, new_contents_idc. set (m := rewritten_lines pairs (file_pieces f)).
  destruct (Z.leb_spec (Z.of_nat (length m)) n) as [Hm|Hm].
  - rewrite append_missing_ok; [by destruct (_ <=? n)|done|apply found_in_length, length_replicate|done].
  - rewrite (proj2 (Z.leb_gt _ _)); [done|]. rewrite length_app. lia.
Qed.

(** Characters that do not end a name. *)
Definition name_char (c : Z) : Prop := c ≠ SPACE ∧ c ≠ NL ∧ c ≠ 13 ∧ c ≠ HASH ∧ c ≠ 255.
Definition word (s : arr) : Prop := Forall name_char s.
Definition words_pair (p : Service) : Prop := word (ip p) ∧ word (domain p).

Lemma word_split s1 s2 t1 t2 x y : word s1 → word t1 → ¬ name_char x → ¬ name_char y →
  s1 ++ x :: s2 = t1 ++ y :: t2 → s1 = t1.
Proof.
  intros H1 H2 Hx Hy. revert t1 H2. induction H1 as [|a s1 Ha H1 IH]; intros [|b t1] H2 E; [done| | |].
  - injection E as -> _. by apply Forall_cons in H2 as [? _].
  - by injection E as -> _.
  - injection E as <- E. apply Forall_cons in H2 as [_ H2]. f_equal. by apply IH.
Qed.

Lemma not_name_char c :
  ¬ name_char c ↔ (c =? SPACE) || (c =? NL) || (c =? 13) || (c =? HASH) || (c =? 255) = true.
Proof. rewrite !orb_true_iff, !Z.eqb_eq. unfold name_char. lia. Qed.

Lemma word_lookup s k : word s → s !! k ≠ Some SPACE.
Proof. intros Hw E. by destruct (Forall_lookup_1 _ _ _ _ Hw E). Qed.

(** An entry has no name but its own. *)
Lemma entry_no_hit p q : words_pair p → words_pair q → domain p ≠ domain q →
  has_domain (pair_entry p) (domain q) = false.
Proof.
  intros [W1 W2] [_ W3] Hd. unfold has_domain. destruct (strstr _ _) as [k|] eqn:E; [|done].
  apply strstr_Some in E as ((r & Er) & _). cbn [app] in Er.
  assert (k = length (ip p)) as ->.
  { assert (pair_entry p !! k = Some SPACE) as Hk by (rewrite <- (Nat.add_0_r k), <- lookup_drop, Er; done).
    unfold pair_entry, entry in Hk. apply lookup_app_Some in Hk as [Hk|[Hl Hk]]; [by apply word_lookup in Hk|].
    destruct (k - length (ip p))%nat as [|j] eqn:Ej; [lia|]. cbn [lookup list_lookup] in Hk.
    apply lookup_app_Some in Hk as [Hk|[_ Hk]]; [by apply word_lookup in Hk|].
    by apply list_lookup_singleton_Some in Hk as [_ ?]. }
  rewrite <- drop_drop, Er. unfold pair_entry, entry in Er. rewrite drop_app_length in Er. injection Er as Er.
  replace (drop _ _) with r by (cbn [length drop]; by rewrite drop_app_length).
  destruct r as [|c r]; [done|]. apply not_true_iff_false. intros Hc. apply not_name_char in Hc.
  apply Hd. apply (word_split (domain p) [] (domain q) r NL c W2 W3); [|done|done]. intros (_ & ? & _). done.
Qed.

Lemma line_after_keeps p pairs : words_pair p → Forall words_pair pairs → domain p ∉ domain <$> pairs →
  line_after pairs (pair_entry p) = pair_entry p.
Proof.
  intros Hp Hw Hd. induction Hw as [|q pairs Hq Hw IH]; [done|]. cbn [line_after].
  rewrite fmap_cons, not_elem_of_cons in Hd. destruct Hd as [Hd1 Hd2].
  rewrite entry_no_hit by done. by apply IH.
Qed.

(** A pair that matched a line has its entry in place of it. *)
Lemma line_after_hit pairs j p line : Forall words_pair pairs → NoDup (domain <$> pairs) →
  pairs !! j = Some p → line_found pairs line !! j = Some true → line_after pairs line = pair_entry p.
Proof.
  intros Hw. revert j line. induction Hw as [|q pairs Hq Hw IH]; intros j line Hn Hj Hf; [done|].
  rewrite fmap_cons in Hn. apply NoDup_cons in Hn as [Hn1 Hn2]. destruct j as [|j]; cbn [line_after].
  - injection Hj as ->. injection Hf as ->. by apply line_after_keeps.
  - by apply (IH j).
Qed.

Lemma found_in_true pairs ls found j : length found = length pairs →
  found_in pairs ls found !! j = Some true →
  found !! j = Some true ∨ ∃ l, l ∈ ls ∧ line_found pairs (until_nul l) !! j = Some true.
Proof.
  revert found. induction ls as [|l ls IH]; intros found Hl Hj; [by left|].
  destruct (IH (orl found (line_found pairs (until_nul l)))) as [H|(l' & Hl' & H)].
  - unfold orl. rewrite length_zip_with, line_found_length. lia.
  - done.
  - unfold orl in H. rewrite lookup_zip_with_Some in H. destruct H as (x & y & E & Hx & Hy).
    symmetry in E. apply orb_true_iff in E as [->| ->]; [by left|right]. exists l. split; [by left|done].
  - right. exists l'. split; [by right|done].
Qed.

Lemma missing_entry pairs found j p : pairs !! j = Some p → found !! j = Some false →
  ∃ a b, missing pairs found = a ++ pair_entry p ++ b.
Proof.
  revert found j. induction pairs as [|q pairs IH]; intros [|x found] j Hp Hf; try done.
  change (missing (q :: pairs) (x :: found)) with ((if x then [] else pair_entry q) ++ missing pairs found).
  destruct j as [|j].
  - injection Hp as ->. injection Hf as ->. by exists [], (missing pairs found).
  - destruct (IH found j Hp Hf) as (a & b & ->). eexists (_ ++ a), b. by rewrite <- app_assoc.
Qed.

(** The new contents have the entry of every pair. *)
Lemma new_contents_idc_entry pairs f p : Forall words_pair pairs → NoDup (domain <$> pairs) → p ∈ pairs →
  ∃ a b, new_contents_idc pairs f = a ++ pair_entry p ++ b.
Proof.
  intros Hw Hn [j Hj]%list_elem_of_lookup_1. unfold new_contents_idc.
  set (fs := found_in pairs (file_pieces f) (replicate (length pairs) false)).
  assert (length fs = length pairs) as Hl by apply found_in_length, length_replicate.
  destruct (lookup_lt_is_Some_2 fs j) as [[] Hb]; [rewrite Hl; by eapply lookup_lt_Some| |].
  - apply found_in_true in Hb as [Hb|(l & Hin & Hb)]; [by apply lookup_replicate in Hb as [? _]| |apply length_replicate].
    destruct (mjoin_elem (λ l, line_after pairs (until_nul l)) (file_pieces f) l Hin) as (a & b & E).
    exists a, (b ++ missing pairs fs). unfold rewritten_lines. rewrite E, (line_after_hit pairs j p) by done.
    by rewrite <- !app_assoc.
  - destruct (missing_entry pairs fs j p Hj Hb) as (a & b & ->). eexists (_ ++ a), b. by rewrite <- app_assoc.
Qed.


