(* ===== verification/CDec.v ===== *)
(** * Decimal numbers: [atoi], and that it reads back what [%d] prints *)
From S2P Require Import Prelude CArr CBuf Hosts.

(** [atoi] of a string. *)
Fixpoint digits_value (acc : Z) (s : arr) : Z :=
  match s with
  | c :: s => if (48 <=? c) && (c <=? 57) then digits_value (10 * acc + (c - 48)) s else acc
  | [] => acc
  end.

Fixpoint skip_blanks (s : arr) : arr :=
  match s with c :: s' => if isspace c then skip_blanks s' else s | [] => [] end.

Definition atoi (s : arr) : Z :=
  match skip_blanks s with
  | c :: s => if c =? 45 then - digits_value 0 s else if c =? 43 then digits_value 0 s else digits_value 0 (c :: s)
  | [] => 0
  end.

Definition is_digit (c : Z) : Prop := 48 ≤ c ≤ 57.

Lemma digits_value_snoc acc l d : Forall is_digit l → 0 ≤ d ≤ 9 →
  digits_value acc (l ++ [48 + d]) = 10 * digits_value acc l + d.
Proof.
  intros Hl Hd. revert acc. induction Hl as [|c l Hc Hl IH]; intros acc; cbn [digits_value app].
  - rewrite (proj2 (Z.leb_le _ _)), (proj2 (Z.leb_le _ _)) by lia. cbn [andb]. lia.
  - unfold is_digit in Hc. rewrite (proj2 (Z.leb_le 48 c)), (proj2 (Z.leb_le c 57)) by lia. cbn [andb]. apply IH.
Qed.

Lemma dec_digits_ok fuel n : 0 ≤ n → (Z.to_nat n < fuel)%nat →
  Forall is_digit (dec_digits fuel n) ∧ digits_value 0 (dec_digits fuel n) = n ∧
  ∃ c r, dec_digits fuel n = c :: r.
Proof.
  revert n. induction fuel as [|fuel IH]; intros n Hn Hf; [lia|]. cbn [dec_digits]. destruct (Z.ltb_spec n 10) as [Hs|Hs].
  - split; [constructor; [unfold is_digit; lia|constructor]|]. split; [|by eexists _, _].
    cbn [digits_value]. rewrite (proj2 (Z.leb_le _ _)), (proj2 (Z.leb_le _ _)) by lia. cbn [andb]. lia.
  - pose proof (Z.div_lt n 10). pose proof (Z.div_pos n 10). pose proof (Z.mod_pos_bound n 10).
    destruct (IH (n / 10)) as (D & V & c & r & E); [lia..|]. split; [apply Forall_app; split; [done|]|split].
    + constructor; [unfold is_digit; lia|constructor].
    + rewrite digits_value_snoc by (done || lia). rewrite V. pose proof (Z.div_mod n 10). lia.
    + rewrite E. by eexists _, _.
Qed.

Lemma atoi_dec n : 0 ≤ n → Forall is_digit (dec n) ∧ atoi (dec n) = n.
Proof.
  intros Hn. unfold dec. rewrite (proj2 (Z.ltb_ge _ _) Hn).
  destruct (dec_digits_ok (S (Z.to_nat n)) n) as (D & V & c & r & E); [lia..|]. split; [done|].
  rewrite E in *. apply Forall_cons in D as [Hc _]. unfold is_digit in Hc. unfold atoi. cbn [skip_blanks].
  replace (isspace c) with false by (symmetry; unfold isspace; rewrite orb_false_iff, andb_false_iff, !Z.leb_gt, Z.eqb_neq; lia).
  rewrite (proj2 (Z.eqb_neq c 45)), (proj2 (Z.eqb_neq c 43)) by lia. done.
Qed.

Lemma dec_inj m n : 0 ≤ m → 0 ≤ n → dec m = dec n → m = n.
Proof. intros Hm Hn E. rewrite <- (proj2 (atoi_dec m Hm)), <- (proj2 (atoi_dec n Hn)). by rewrite E. Qed.

Lemma dec_digits_length fuel n : (length (dec_digits fuel n) ≤ fuel)%nat.
Proof.
  revert n. induction fuel as [|fuel IH]; intros n; cbn [dec_digits]; [done|].
  destruct (n <? 10); cbn [length]; [lia|]. rewrite length_app. specialize (IH (n / 10)). cbn [length]. lia.
Qed.

Lemma dec_length n : 0 ≤ n → Z.of_nat (length (dec n)) ≤ n + 1.
Proof.
  intros Hn. unfold dec. rewrite (proj2 (Z.ltb_ge _ _) Hn). pose proof (dec_digits_length (S (Z.to_nat n)) n). lia.
Qed.

Lemma digits_no c s : Forall is_digit s → ¬ is_digit c → c ∉ s.
Proof. intros Hs Hc Hin. rewrite Forall_forall in Hs. by apply Hc, Hs. Qed.

(** A number below [10 ^ k] has at most [k] digits. *)
Lemma dec_digits_pow fuel n k : (0 < k)%nat → 0 ≤ n < 10 ^ Z.of_nat k → (length (dec_digits fuel n) ≤ k)%nat.
Proof.
  revert n k. induction fuel as [|fuel IH]; intros n k Hk Hn; cbn [dec_digits length]; [lia|].
  destruct (Z.ltb_spec n 10); [cbn; lia|]. destruct k as [|[|k]]; [lia|change (10 ^ Z.of_nat 1) with 10 in Hn; lia|].
  rewrite length_app. cbn [length]. specialize (IH (n / 10) (S k) ltac:(lia)).
  rewrite Nat2Z.inj_succ, Z.pow_succ_r in Hn by lia. assert (0 ≤ n / 10 < 10 ^ Z.of_nat (S k)); [|specialize (IH ltac:(lia)); lia].
  split; [apply Z.div_pos; lia|apply Z.div_lt_upper_bound; lia].
Qed.

Lemma dec_length_pow n k : (0 < k)%nat → 0 ≤ n < 10 ^ Z.of_nat k → (length (dec n) ≤ k)%nat.
Proof. intros Hk Hn. unfold dec. rewrite (proj2 (Z.ltb_ge _ _)) by lia. by apply dec_digits_pow. Qed.
