(* ===== verification/Json.v ===== *)
(** * The library json-c, and loops over arrays

    The library is a parameter of the programs that use it: its calls are the
    operations of the class [JsonC], what its documentation says of them is
    the class [JsonCLaws] (with [JsonBuild] and [JsonBuildLaws] for the calls
    that build values), in terms of the JSON value [view o] that a pointer
    stands for.  A pointer is an [option], since json-c stands for the value
    null by a null pointer.  The rest of the file has the counting loops and
    array accesses of these programs. *)
From Stdlib Require Import String.
From S2P Require Import Prelude CArr CBuf CInt.

(** ** The library *)
Inductive json_type :=
  json_type_null | json_type_boolean | json_type_double | json_type_int
  | json_type_object | json_type_array | json_type_string.

#[export] Instance json_type_eq_dec : EqDecision json_type.
Proof. solve_decision. Defined.

Class JsonC (J : Type) := {
  json_tokener_parse : arr → option J;
  (** [None] if there is no such member. *)
  json_object_object_get_ex : option J → arr → option (option J);
  json_object_get_string : option J → option arr;
  json_object_get_string_len : option J → Z;
  json_object_get_int : option J → Z;
  json_object_get_type : option J → json_type;
  json_object_array_length : option J → Z;
  (** Not every version checks that the value is an array. *)
  json_object_array_get_idx : option J → Z → res (option J);
  json_object_to_json_string : option J → arr }.

(** The calls that build values. *)
Class JsonBuild (J : Type) := {
  json_object_new_object : J;
  json_object_new_array : J;
  json_object_new_string : arr → J;
  json_object_object_add : J → arr → J → J;
  json_object_array_add : J → J → J }.

(** ** Loops and accesses to arrays *)

(** [for (i = 0; i < n; i++)]. *)
Fixpoint for_ {St} (n : nat) (i : Z) (body : Z → M St unit) : M St unit :=
  match n with O => mret () | S n => body i;; for_ n (i + 1) body end.

Definition lift {St A} (r : res A) : M St A := λ s, match r with Ok a => Ok (a, s) | Err e => Err e end.

Definition slot {A} (l : list A) (i : Z) : res A :=
  if i <? 0 then Err Segv else match l !! Z.to_nat i with Some a => Ok a | None => Err Segv end.

Lemma slot_Ok {A} (l : list A) i a : slot l i = Ok a → l !! Z.to_nat i = Some a.
Proof. unfold slot. destruct (i <? 0); [done|]. destruct (l !! Z.to_nat i); congruence. Qed.

(** A member of an object. *)
Definition member {J} `{JsonC J} {St} (o : option J) (k : string) (f : option J → M St unit) : M St unit :=
  match json_object_object_get_ex o (chars k) with Some v => f v | None => mret () end.

(** Whatever [m] returns, it keeps [P]. *)
Definition keeps {St A} (P : St → Prop) (m : M St A) : Prop :=
  ∀ s, P s → match m s with Ok (_, s') => P s' | Err _ => True end.

Create HintDb keeps.

Section keeps.
Context {St : Type} (P : St → Prop).

Lemma keeps_ret {A} (a : A) : keeps P (mret a).
Proof. by intros s. Qed.

Lemma keeps_lift {A} (r : res A) : keeps P (lift r).
Proof. intros s Hs. unfold lift. by destruct r. Qed.

Lemma keeps_bind {A B} (m : M St A) (f : A → M St B) : keeps P m → (∀ a, keeps P (f a)) → keeps P (m ≫= f).
Proof.
  intros Hm Hf s Hs. specialize (Hm s Hs). unfold mbind, M_bind. destruct (m s) as [[a s']|e]; [|done]. by apply Hf.
Qed.

Lemma keeps_for n i body : (∀ i, keeps P (body i)) → keeps P (for_ n i body).
Proof.
  intros Hb. revert i. induction n as [|n IH]; intros i; cbn [for_]; [apply keeps_ret|].
  apply keeps_bind; [apply Hb|intros _; apply IH].
Qed.

Lemma keeps_member {J} `{JsonC J} (o : option J) k f : (∀ v, keeps P (f v)) → keeps P (member o k f).
Proof. intros Hf. unfold member. destruct json_object_object_get_ex; [apply Hf|apply keeps_ret]. Qed.
End keeps.

#[export] Hint Resolve keeps_ret keeps_lift keeps_bind keeps_for keeps_member : keeps.

(** ** Documents *)
Inductive json :=
  | JNull | JBool (b : bool) | JInt (z : Z) | JString (s : arr)
  | JArray (l : list json) | JObject (ms : list (arr * json)).

Fixpoint assoc (k : arr) (ms : list (arr * json)) : option json :=
  match ms with [] => None | (k', v) :: ms => if decide (k = k') then Some v else assoc k ms end.

Definition type_of (j : json) : json_type :=
  match j with
  | JNull => json_type_null | JBool _ => json_type_boolean | JInt _ => json_type_int
  | JString _ => json_type_string | JArray _ => json_type_array | JObject _ => json_type_object
  end.

Definition QUOTE : Z := 34.
Definition quote (s : arr) : arr := QUOTE :: s ++ [QUOTE].

(** The characters json-c prints as they are. *)
Definition plain (s : arr) : Prop := Forall (λ c, 32 ≤ c < 127 ∧ c ≠ QUOTE ∧ c ≠ 92 ∧ c ≠ 47) s.

(** What the documentation of json-c says of the calls, for the value [view o]
    a pointer stands for. *)
Class JsonCLaws (J : Type) `{JsonC J} := {
  view : option J → json;
  get_ex_law o k ms : view o = JObject ms → view <$> json_object_object_get_ex o k = assoc k ms;
  get_string_law o s : view o = JString s → no_nul s → json_object_get_string o = Some s;
  get_string_len_law o s : view o = JString s → json_object_get_string_len o = Z.of_nat (length s);
  get_int_law o z : view o = JInt z → - 2 ^ 31 ≤ z < 2 ^ 31 → json_object_get_int o = z;
  get_type_law o : json_object_get_type o = type_of (view o);
  array_length_law o l : view o = JArray l → json_object_array_length o = Z.of_nat (length l);
  array_get_law o l i j : view o = JArray l → l !! i = Some j →
    ∃ o', json_object_array_get_idx o (Z.of_nat i) = Ok o' ∧ view o' = j;
  to_json_law o s : view o = JString s → plain s → json_object_to_json_string o = quote s }.

(** ** What json-c says of values that are built

    [printable]: strings of ASCII characters without control characters, and
    objects with every key once; such a value is printed as a text that parses
    to it again. *)
Definition ascii (s : arr) : bool := forallb (λ c, (32 <=? c) && (c <? 127)) s.

Fixpoint printable (j : json) : bool :=
  match j with
  | JNull | JBool _ => true
  | JInt z => (- 2 ^ 31 <=? z) && (z <? 2 ^ 31)
  | JString s => ascii s
  | JArray l => forallb printable l
  | JObject ms => forallb (λ m, ascii m.1 && printable m.2) ms && bool_decide (NoDup (fst <$> ms))
  end.

Class JsonBuildLaws (J : Type) `{JsonCLaws J} `{JsonBuild J} := {
  new_object_law : view (Some json_object_new_object) = JObject [];
  new_array_law : view (Some json_object_new_array) = JArray [];
  new_string_law s : no_nul s → view (Some (json_object_new_string s)) = JString s;
  object_add_law o k v ms : view (Some o) = JObject ms → assoc k ms = None →
    view (Some (json_object_object_add o k v)) = JObject (ms ++ [(k, view (Some v))]);
  array_add_law o v l : view (Some o) = JArray l →
    view (Some (json_object_array_add o v)) = JArray (l ++ [view (Some v)]);
  print_law o : let t := json_object_to_json_string o in t ≠ [] ∧ no_nul t;
  parse_print_law o : printable (view (Some o)) →
    ∃ o', json_tokener_parse (json_object_to_json_string (Some o)) = Some o' ∧ view (Some o') = view (Some o) }.

(** A list stored into the first elements of an array. *)
Definition fill {A B} (g : A → B → B) (xs : list A) (old : list B) : list B :=
  zip_with g xs old ++ drop (length xs) old.

(** ** Loops that fill an array *)

(** [put l] is the state in which the array is [l]; the body stores [g x] over
    the element at its index, unless [x] does not fit or there is no such
    element. *)
Section fill_loop.
Context {St A B : Type} (put : list B → St) (g : A → B → B) (ck : A → bool) (good : B → Prop).
Context (body : Z → M St unit) (xs0 : list A).
Hypothesis body_ok : ∀ i x l, xs0 !! i = Some x → Forall good l →
  body (Z.of_nat i) (put l) =
    match l !! i with
    | Some b => if ck x then Ok ((), put (<[i := g x b]> l)) else Err Segv
    | None => Err Segv
    end.
Hypothesis g_good : ∀ x b, x ∈ xs0 → ck x → good b → good (g x b).

Lemma for_fill xs ds pre rest : xs0 = ds ++ xs → length pre = length ds → Forall good (pre ++ rest) →
  for_ (length xs) (Z.of_nat (length ds)) body (put (pre ++ rest)) =
    if forallb ck xs && (length xs <=? length rest)%nat then Ok ((), put (pre ++ fill g xs rest)) else Err Segv.
Proof.
  revert ds pre rest. induction xs as [|x xs IH]; intros ds pre rest E Hl Hg; [done|].
  cbn [for_ length]. assert (xs0 !! length ds = Some x) as Hx by (rewrite E; by apply list_lookup_middle).
  unfold mbind, M_bind. rewrite (body_ok _ x) by done.
  destruct rest as [|b rest].
  { rewrite (lookup_ge_None_2 _ (length ds)) by (rewrite app_nil_r; lia). cbn [length Nat.leb]. by rewrite andb_false_r. }
  rewrite (list_lookup_middle pre rest b) by done. cbn [forallb length Nat.leb].
  destruct (ck x) eqn:Ex; [|done].
  replace (<[length ds := g x b]> (pre ++ b :: rest)) with ((pre ++ [g x b]) ++ rest).
  2:{ rewrite insert_app_r_alt by lia. rewrite Hl, Nat.sub_diag. cbn [insert list_insert]. by rewrite <- app_assoc. }
  replace (Z.of_nat (length ds) + 1) with (Z.of_nat (length (ds ++ [x]))) by (rewrite length_app; simpl; lia).
  rewrite IH.
  - cbn [andb]. destruct (_ && _); [|done]. unfold fill. cbn [zip_with drop length app]. by rewrite <- app_assoc.
  - by rewrite <- app_assoc.
  - rewrite !length_app. simpl. lia.
  - apply Forall_app in Hg as [H1 [H2 H3]%Forall_cons]. rewrite !Forall_app. split; [split; [done|]|done].
    constructor; [|done]. apply g_good; [|by rewrite Ex|done]. rewrite E. set_solver.
Qed.

Lemma for_fill_all rest : Forall good rest →
  for_ (length xs0) 0 body (put rest) =
    if forallb ck xs0 && (length xs0 <=? length rest)%nat then Ok ((), put (fill g xs0 rest)) else Err Segv.
Proof. intros Hg. apply (for_fill xs0 [] [] rest); [done..|exact Hg]. Qed.
End fill_loop.

Section view.
Context {J : Type} `{JsonCLaws J}.

Lemma member_view {St} (o : option J) k ms j (f : option J → M St unit) :
  view o = JObject ms → assoc (chars k) ms = Some j → ∃ v, view v = j ∧ member o k f = f v.
Proof.
  intros Ho Hj. pose proof (get_ex_law o (chars k) ms Ho) as E. rewrite Hj in E. unfold member.
  destruct (json_object_object_get_ex o (chars k)) as [v|]; [|done]. injection E as E. by exists v.
Qed.

Lemma s32_length {A} (l : list A) : Z.of_nat (length l) < 2 ^ 31 → s32 (Z.of_nat (length l)) = Z.of_nat (length l).
Proof. intros Hl. apply s32_id. lia. Qed.

End view.

(** The elements a loop up to [n] reads. *)
Definition read_first {A} (l : list A) (n : Z) : res (list A) :=
  if n <=? Z.of_nat (length l) then Ok (take (Z.to_nat n) l) else Err Segv.

Lemma slot_at {A} (l : list A) k : slot l (Z.of_nat k) = match l !! k with Some a => Ok a | None => Err Segv end.
Proof. unfold slot. rewrite (proj2 (Z.ltb_ge _ _)) by lia. by rewrite Nat2Z.id. Qed.

Lemma fill_length {A B} (g : A → B → B) xs old : (length xs ≤ length old)%nat → length (fill g xs old) = length old.
Proof. intros Hl. unfold fill. rewrite length_app, length_zip_with, length_drop. lia. Qed.

Lemma fill_forall {A B} (g : A → B → B) xs old (Q : B → Prop) :
  Forall Q old → (∀ x b, x ∈ xs → Q b → Q (g x b)) → Forall Q (fill g xs old).
Proof.
  intros Ho Hg. unfold fill. apply Forall_app. split; [|by apply Forall_drop].
  revert old Ho. induction xs as [|x xs IH]; intros [|b old] Ho; [constructor..|].
  apply Forall_cons in Ho as [Hb Ho]. cbn [zip_with]. constructor; [apply Hg; [by left|done]|].
  apply IH; [|done]. intros y c Hy. apply Hg. by right.
Qed.

Lemma zip_with_const {A B C} (f : A → C) (xs : list A) (old : list B) : (length xs ≤ length old)%nat →
  zip_with (λ x _, f x) xs old = f <$> xs.
Proof. revert old. induction xs as [|x xs IH]; intros [|b old] Hl; simpl in *; [done..|lia|]. by rewrite IH by lia. Qed.

Lemma read_first_fill {A B} (f : A → B) xs old : (length xs ≤ length old)%nat →
  read_first (fill (λ x _, f x) xs old) (Z.of_nat (length xs)) = Ok (f <$> xs).
Proof.
  intros Hl. unfold read_first. rewrite fill_length, (proj2 (Z.leb_le _ _)), Nat2Z.id by lia.
  unfold fill. rewrite zip_with_const by done. by rewrite take_app_length' by (by rewrite length_fmap).
Qed.

#[export] Instance plain_dec s : Decision (plain s).
Proof. apply Forall_dec. intros c. apply _. Defined.

Ltac by_chars := apply (bool_decide_unpack _); vm_compute; exact I.

