(* ===== verification/JsonLib.v ===== *)
(** * An implementation of the interface to json-c

    A pointer is the JSON value itself.  A value is printed as a sequence of
    numbers that can be read back, a string of plain characters at the top as
    JSON prints it.  The instance shows that the laws can hold together and
    serves the examples. *)
From Stdlib Require Import String.
From S2P Require Import Prelude CArr CBuf CInt Json.

(** ** A code without the number zero *)
Definition nz (z : Z) : Z := if 0 <=? z then z + 1 else z.
Definition unz (z : Z) : Z := if 0 <? z then z - 1 else z.

Lemma unz_nz z : unz (nz z) = z.
Proof.
  unfold unz, nz. destruct (Z.leb_spec 0 z).
  - rewrite (proj2 (Z.ltb_lt _ _)) by lia. lia.
  - by rewrite (proj2 (Z.ltb_ge _ _)) by lia.
Qed.

Lemma nz_nonzero z : nz z ≠ 0.
Proof. unfold nz. destruct (Z.leb_spec 0 z); lia. Qed.

Definition encode_string (s : arr) : arr := nz (Z.of_nat (length s)) :: (nz <$> s).

Fixpoint encode (j : json) : arr :=
  match j with
  | JNull => [1]
  | JBool b => [2; if b then 2 else 1]
  | JInt z => [3; nz z]
  | JString s => 4 :: encode_string s
  | JArray l => 5 :: nz (Z.of_nat (length l)) :: mjoin (encode <$> l)
  | JObject ms => 6 :: nz (Z.of_nat (length ms)) :: mjoin ((λ m, encode_string m.1 ++ encode m.2) <$> ms)
  end.

Definition decode_string (t : arr) : option (arr * arr) :=
  match t with
  | n :: t => let k := Z.to_nat (unz n) in Some (unz <$> take k t, drop k t)
  | [] => None
  end.

(** [k] values read by [d], one after the other. *)
Fixpoint decode_list {A} (d : arr → option (A * arr)) (k : nat) (t : arr) : option (list A * arr) :=
  match k with
  | O => Some ([], t)
  | S k =>
      '(a, t) ← d t;
      '(l, t) ← decode_list d k t;
      Some (a :: l, t)
  end.

Fixpoint decode (fuel : nat) (t : arr) : option (json * arr) :=
  match fuel, t with
  | S fuel, tag :: t =>
      if tag =? 1 then Some (JNull, t)
      else if tag =? 2 then match t with b :: t => Some (JBool (b =? 2), t) | [] => None end
      else if tag =? 3 then match t with z :: t => Some (JInt (unz z), t) | [] => None end
      else if tag =? 4 then '(s, t) ← decode_string t; Some (JString s, t)
      else if tag =? 5 then
        match t with
        | n :: t => '(l, t) ← decode_list (decode fuel) (Z.to_nat (unz n)) t; Some (JArray l, t)
        | [] => None
        end
      else if tag =? 6 then
        match t with
        | n :: t =>
            '(ms, t) ← decode_list (λ t, '(k, t) ← decode_string t; '(v, t) ← decode fuel t; Some ((k, v), t))
                                   (Z.to_nat (unz n)) t;
            Some (JObject ms, t)
        | [] => None
        end
      else None
  | _, _ => None
  end.

Fixpoint depth (j : json) : nat :=
  match j with
  | JArray l => S (max_list (depth <$> l))
  | JObject ms => S (max_list ((λ m, depth m.2) <$> ms))
  | _ => 1%nat
  end.

Lemma decode_encode_string s r : decode_string (encode_string s ++ r) = Some (s, r).
Proof.
  unfold encode_string, decode_string. cbn [app]. rewrite unz_nz, Nat2Z.id.
  rewrite take_app_length' by (by rewrite length_fmap). rewrite drop_app_length' by (by rewrite length_fmap).
  do 2 f_equal. rewrite <- list_fmap_compose. rewrite <- (list_fmap_id s) at 2. apply list_fmap_ext. intros i z _. apply unz_nz.
Qed.

Lemma decode_list_ok {A} (d : arr → option (A * arr)) (e : A → arr) l r :
  (∀ a r, a ∈ l → d (e a ++ r) = Some (a, r)) → decode_list d (length l) (mjoin (e <$> l) ++ r) = Some (l, r).
Proof.
  induction l as [|a l IH]; intros Hd; [done|]. cbn [decode_list length].
  change (mjoin (e <$> a :: l)) with (e a ++ mjoin (e <$> l)). rewrite <- app_assoc, Hd by (by left). cbn.
  rewrite IH; [done|]. intros b r' Hb. apply Hd. by right.
Qed.

Lemma max_list_le {A} (f : A → nat) l a : a ∈ l → (f a ≤ max_list (f <$> l))%nat.
Proof. induction 1 as [a l|a b l _ IH]; cbn; lia. Qed.

Lemma json_decode_encode n j r : (depth j ≤ n)%nat → decode n (encode j ++ r) = Some (j, r).
Proof.
  revert j r. induction n as [|n IH]; intros j r Hn; [by destruct j; cbn in Hn; lia|].
  destruct j as [|[]|z|s|l|ms]; cbn [encode decode app Z.eqb Pos.eqb].
  - done.
  - done.
  - done.
  - by rewrite unz_nz.
  - by rewrite decode_encode_string.
  - rewrite unz_nz, Nat2Z.id, decode_list_ok; [done|]. intros a r' Ha. apply IH.
    pose proof (max_list_le depth l a Ha). cbn in Hn. lia.
  - rewrite unz_nz, Nat2Z.id, (decode_list_ok _ (λ m, encode_string m.1 ++ encode m.2)); [done|].
    intros [k v] r' Ha. cbn [fst snd]. rewrite <- app_assoc, decode_encode_string. cbn. rewrite IH; [done|].
    pose proof (max_list_le (λ m : arr * json, depth m.2) ms (k, v) Ha). cbn in *. lia.
Qed.

Lemma mjoin_length_le {A} (f : A → nat) (e : A → arr) l : (∀ a, a ∈ l → (f a ≤ length (e a))%nat) →
  (max_list (f <$> l) ≤ length (mjoin (e <$> l)))%nat.
Proof.
  induction l as [|a l IH]; intros Hf; [done|]. change (mjoin (e <$> a :: l)) with (e a ++ mjoin (e <$> l)).
  rewrite length_app. cbn. assert (f a ≤ length (e a))%nat by (apply Hf; by left).
  assert (max_list (f <$> l) ≤ length (mjoin (e <$> l)))%nat; [|cbn in *; lia]. apply IH. intros b Hb. apply Hf. by right.
Qed.

Lemma depth_length n j : (depth j ≤ n)%nat → (depth j ≤ length (encode j))%nat.
Proof.
  revert j. induction n as [|n IH]; intros j Hn; [lia|]. destruct j as [|[]|z|s|l|ms]; cbn [encode depth length] in *; try lia.
  - assert (max_list (depth <$> l) ≤ length (mjoin (encode <$> l)))%nat; [|lia]. apply mjoin_length_le.
    intros a Ha. apply IH. pose proof (max_list_le depth l a Ha). lia.
  - assert (max_list ((λ m : arr * json, depth m.2) <$> ms) ≤ length (mjoin ((λ m, encode_string m.1 ++ encode m.2) <$> ms)))%nat; [|lia].
    apply mjoin_length_le. intros m Hm. pose proof (max_list_le (λ m : arr * json, depth m.2) ms m Hm). rewrite length_app.
    assert (depth m.2 ≤ length (encode m.2))%nat; [|lia]. apply IH. cbn in *. lia.
Qed.

Lemma encode_no_nul n j : (depth j ≤ n)%nat → no_nul (encode j).
Proof.
  assert (∀ s, no_nul (encode_string s)) as Hs.
  { intros s. constructor; [apply nz_nonzero|]. apply Forall_fmap, Forall_true. intros z. apply nz_nonzero. }
  revert j. induction n as [|n IH]; intros j Hn; [by destruct j; cbn in Hn; lia|].
  destruct j as [|[]|z|s|l|ms]; cbn [encode depth] in *; unfold no_nul.
  - by repeat constructor.
  - by repeat constructor.
  - by repeat constructor.
  - constructor; [done|]. constructor; [apply nz_nonzero|constructor].
  - constructor; [done|apply Hs].
  - constructor; [done|]. constructor; [apply nz_nonzero|]. apply Forall_join, Forall_fmap, Forall_forall. intros a Ha.
    apply IH. pose proof (max_list_le depth l a Ha). lia.
  - constructor; [done|]. constructor; [apply nz_nonzero|]. apply Forall_join, Forall_fmap, Forall_forall. intros m Hm.
    apply Forall_app. split; [apply Hs|]. apply IH. pose proof (max_list_le (λ m : arr * json, depth m.2) ms m Hm). cbn in *. lia.
Qed.

(** ** The instance *)
Definition ptr_of (j : json) : option json := match j with JNull => None | _ => Some j end.
Definition val_of (o : option json) : json := match o with Some j => j | None => JNull end.

Lemma val_ptr j : val_of (ptr_of j) = j.
Proof. by destruct j. Qed.

Definition print (j : json) : arr :=
  match j with JString s => if bool_decide (plain s) then quote s else encode j | _ => encode j end.

Definition parse (t : arr) : option json :=
  match t with
  | c :: r => if c =? QUOTE then Some (JString (take (length r - 1) r)) else fst <$> decode (length t) t
  | [] => None
  end.

Lemma parse_encode j : parse (encode j) = Some j.
Proof.
  assert (fst <$> decode (length (encode j)) (encode j) = Some j) as E.
  { rewrite <- (app_nil_r (encode j)) at 2. by rewrite json_decode_encode by (by apply (depth_length (depth j))). }
  unfold parse. by destruct j as [|[]|z|s|l|ms].
Qed.

Lemma parse_print j : parse (print j) = Some j.
Proof.
  destruct j as [| | |s| |]; cbn [print]; try apply parse_encode. case_bool_decide; [|apply parse_encode].
  unfold parse, quote. cbn [Z.eqb QUOTE Pos.eqb]. rewrite length_app, Nat.add_sub. by rewrite take_app_length.
Qed.

Lemma print_no_nul j : no_nul (print j).
Proof.
  destruct j as [| | |s| |]; cbn [print]; try (by eapply encode_no_nul). case_bool_decide as Hs; [|by eapply encode_no_nul].
  constructor; [done|]. apply Forall_app. split; [|by constructor]. eapply Forall_impl; [exact Hs|]. intros c (Hc & _). lia.
Qed.

#[export] Instance json_lib : JsonC json := {|
  json_tokener_parse := parse;
  json_object_object_get_ex o k := match o with Some (JObject ms) => ptr_of <$> assoc k ms | _ => None end;
  json_object_get_string o := match o with Some (JString s) => Some s | _ => None end;
  json_object_get_string_len o := match o with Some (JString s) => Z.of_nat (length s) | _ => 0 end;
  json_object_get_int o := match o with Some (JInt z) => z | _ => 0 end;
  json_object_get_type o := type_of (val_of o);
  json_object_array_length o := match o with Some (JArray l) => Z.of_nat (length l) | _ => 0 end;
  json_object_array_get_idx o i :=
    match o with Some (JArray l) => Ok (l !! Z.to_nat i ≫= ptr_of) | _ => Err Abort end;
  json_object_to_json_string o := print (val_of o) |}.

#[export] Instance json_lib_build : JsonBuild json := {|
  json_object_new_object := JObject [];
  json_object_new_array := JArray [];
  json_object_new_string := JString;
  json_object_object_add o k v := match o with JObject ms => JObject (ms ++ [(k, v)]) | _ => o end;
  json_object_array_add o v := match o with JArray l => JArray (l ++ [v]) | _ => o end |}.

#[export, refine] Instance json_lib_laws : JsonCLaws json := {| view := val_of |}.
Proof.
  - intros [[| | | | |l]|] k ms E; try discriminate E. injection E as ->. cbn. rewrite <- option_fmap_compose.
    destruct (assoc k ms); [|done]. cbn. by rewrite val_ptr.
  - intros [[| | |s'| |]|] s E _; try discriminate E. by injection E as ->.
  - intros [[| | |s'| |]|] s E; try discriminate E. by injection E as ->.
  - intros [[| |z'| | |]|] z E _; try discriminate E. by injection E as ->.
  - done.
  - intros [[| | | |l'|]|] l E; try discriminate E. by injection E as ->.
  - intros [[| | | |l'|]|] l i j E Hj; try discriminate E. injection E as ->. exists (ptr_of j). split; [|apply val_ptr].
    cbn. by rewrite Nat2Z.id, Hj.
  - intros o s E Hp. cbn. rewrite E. cbn. by rewrite bool_decide_true.
Defined.

#[export] Instance json_lib_build_laws : JsonBuildLaws json.
Proof.
  split; try done.
  - intros o k v ms E _. cbn in *. by rewrite E.
  - intros o v l E. cbn in *. by rewrite E.
  - intros o. cbn. split; [|apply print_no_nul]. intros E. pose proof (parse_print (val_of o)) as P. by rewrite E in P.
  - intros o _. exists o. cbn. split; [apply parse_print|done].
Qed.
