(* ===== verification/Idc.v ===== *)
(** * The list of data centres (json/parseidc.c)

    [parse_idc_json] fills a structure of fixed arrays from a JSON text, and
    [main] writes the services of the first node to the hosts file.  The
    library json-c is a parameter: its calls are the operations of the class
    [JsonC], what its documentation says of them is the class [JsonCLaws].  A
    pointer to a JSON value is an [option], since json-c stands for the value
    null by a null pointer.  A store behind the end of an array of the
    structure is [Segv], also where it would hit the next member.  Messages
    are not modelled, but a null pointer printed with [%s] faults. *)
From Stdlib Require Import String.
From S2P Require Import Prelude CArr CBuf CInt Hosts Json JsonLib.

(** ** The structures *)
Record IPs := mk_ips { ips_ip : arr }.

Record Node := mk_node {
  weight : Z; ips_num : Z; service_num : Z; ips : list IPs; services : list Service }.

(** [node] has as many elements as were allocated. *)
Record IDC := mk_idc { code : arr; msg : arr; node : list Node }.

Definition IP_SIZE : Z := 16.
Definition DOMAIN_SIZE : Z := 256.
Definition IPS_SIZE : nat := 4.
Definition SERVICES_SIZE : nat := 32.
Definition CODE_SIZE : Z := 8.
Definition MSG_SIZE : Z := 16.

Definition SUCCESS : Z := 0.
Definition ERROR_EMPTY_BUFFER : Z := -1.
Definition ERROR_PARSER_JSON : Z := -2.

Definition set_weight w n := mk_node w (ips_num n) (service_num n) (ips n) (services n).
Definition set_ips_num k n := mk_node (weight n) k (service_num n) (ips n) (services n).
Definition set_service_num k n := mk_node (weight n) (ips_num n) k (ips n) (services n).
Definition set_ips l n := mk_node (weight n) (ips_num n) (service_num n) l (services n).
Definition set_services l n := mk_node (weight n) (ips_num n) (service_num n) (ips n) l.
Definition set_nodes l s := mk_idc (code s) (msg s) l.

(** ** The parser *)

(** [sprintf(dst, "%s", s)] into an array of [n] characters. *)
Definition sprintf_s (n : Z) (s : option arr) : res arr :=
  match s with Some s => if fits n s then Ok s else Err Segv | None => Err Segv end.

(** An assignment to a member of [idc->node[i]]. *)
Definition on_node (i : Z) (f : Node → res Node) : M IDC unit := λ s,
  match slot (node s) i with
  | Err e => Err e
  | Ok n => match f n with Ok n => Ok ((), set_nodes (<[Z.to_nat i := n]> (node s)) s) | Err e => Err e end
  end.

Definition put_ip (j : Z) (s : option arr) (n : Node) : res Node :=
  match slot (ips n) j, sprintf_s IP_SIZE s with
  | Ok _, Ok t => Ok (set_ips (<[Z.to_nat j := mk_ips t]> (ips n)) n)
  | _, _ => Err Segv
  end.

Definition put_service (k : Z) (f : Service → res Service) (n : Node) : res Node :=
  match slot (services n) k with
  | Ok v => match f v with Ok v => Ok (set_services (<[Z.to_nat k := v]> (services n)) n) | Err e => Err e end
  | Err e => Err e
  end.

Definition put_domain (s : option arr) (v : Service) : res Service :=
  match sprintf_s DOMAIN_SIZE s with Ok t => Ok (mk_service t (Hosts.ip v)) | Err e => Err e end.
Definition put_service_ip (s : option arr) (v : Service) : res Service :=
  match sprintf_s IP_SIZE s with Ok t => Ok (mk_service (Hosts.domain v) t) | Err e => Err e end.

Section parser.
Context {J : Type} `{JsonC J}.

Definition parse_ips (i : Z) (json_ips : option J) : M IDC unit :=
  let type := json_object_get_type json_ips in
  if decide (type = json_type_array) then
    let len := s32 (json_object_array_length json_ips) in
    for_ (Z.to_nat len) 0 (λ j,
      obj ← lift (json_object_array_get_idx json_ips j);
      on_node i (put_ip j (Some (json_object_to_json_string obj))));;
    on_node i (λ n, Ok (set_ips_num len n))
  else if decide (type = json_type_object) then
    on_node i (put_ip 0 (json_object_get_string json_ips));;
    on_node i (λ n, Ok (set_ips_num 1 n))
  else mret ().

(** The number of elements the code takes a value to have. *)
Definition elements (o : option J) : Z :=
  let type := json_object_get_type o in
  if decide (type = json_type_array) then s32 (json_object_array_length o)
  else if decide (type = json_type_object) then 1
  else 0.

Definition parse_service (i k : Z) (obj : option J) : M IDC unit :=
  member obj "domain" (λ v, on_node i (put_service k (put_domain (json_object_get_string v))));;
  member obj "ip" (λ v, on_node i (put_service k (put_service_ip (json_object_get_string v)))).

Definition parse_services (i : Z) (json_service : option J) : M IDC unit :=
  let len := elements json_service in
  on_node i (λ n, Ok (set_service_num len n));;
  for_ (Z.to_nat len) 0 (λ k,
    obj ← lift (json_object_array_get_idx json_service k);
    parse_service i k obj).

Definition parse_node (i : Z) (obj : option J) : M IDC unit :=
  member obj "weight" (λ v, on_node i (λ n, Ok (set_weight (json_object_get_int v) n)));;
  member obj "ips" (parse_ips i);;
  member obj "services" (parse_services i).

Definition parse_nodes (json_nodes : option J) : M IDC unit :=
  for_ (Z.to_nat (elements json_nodes)) 0 (λ i,
    obj ← lift (json_object_array_get_idx json_nodes i);
    parse_node i obj).

Definition parse_idc_json (jsonstr : option arr) : M IDC Z :=
  match jsonstr with
  | None => mret ERROR_EMPTY_BUFFER
  | Some text =>
      match json_tokener_parse text with
      | None => mret ERROR_PARSER_JSON
      | Some jso =>
          member (Some jso) "msg" (λ v,
            t ← lift (sprintf_s MSG_SIZE (json_object_get_string v));
            modify (λ s, mk_idc (code s) t (node s)));;
          member (Some jso) "code" (λ v,
            t ← lift (sprintf_s CODE_SIZE (json_object_get_string v));
            modify (λ s, mk_idc t (msg s) (node s)));;
          member (Some jso) "data" parse_nodes;;
          mret SUCCESS
      end
  end.
End parser.

(** ** The type of the structure *)

(** What the declarations say: the sizes of the arrays, with every string
    ended inside its array. *)
Definition wf_service (v : Service) : Prop := fits DOMAIN_SIZE (domain v) ∧ fits IP_SIZE (Hosts.ip v).
Definition wf_ip (p : IPs) : Prop := fits IP_SIZE (ips_ip p).

Record wf_node (n : Node) : Prop := {
  wf_ips_len : length (ips n) = IPS_SIZE;
  wf_ips : Forall wf_ip (ips n);
  wf_services_len : length (services n) = SERVICES_SIZE;
  wf_services : Forall wf_service (services n) }.

Record wf_idc (k : nat) (s : IDC) : Prop := {
  wf_code : fits CODE_SIZE (code s);
  wf_msg : fits MSG_SIZE (msg s);
  wf_len : length (node s) = k;
  wf_nodes : Forall wf_node (node s) }.

Lemma sprintf_s_fits n s t : sprintf_s n s = Ok t → fits n t.
Proof. destruct s as [s|]; simpl; [|done]. destruct (fits n s) eqn:E; [|done]. intros [= <-]. by rewrite E. Qed.

Section type.
Context {J : Type} `{JsonC J} (k : nat).

Lemma keeps_on_node i f : (∀ n n', wf_node n → f n = Ok n' → wf_node n') → keeps (wf_idc k) (on_node i f).
Proof.
  intros Hf s [Hc Hm Hl Hn]. unfold on_node. destruct (slot (node s) i) as [n|] eqn:E; [|done].
  destruct (f n) as [n'|] eqn:Ef; [|done]. apply slot_Ok in E. split; simpl; [done..|by rewrite length_insert|].
  apply Forall_insert; [done|]. apply (Hf n); [|done]. by apply (Forall_lookup_1 _ _ _ _ Hn E).
Qed.

Lemma put_ip_wf j s n n' : wf_node n → put_ip j s n = Ok n' → wf_node n'.
Proof.
  intros [H1 H2 H3 H4]. unfold put_ip. destruct (slot (ips n) j); [|done].
  destruct (sprintf_s IP_SIZE s) as [t|] eqn:E; [|done]. intros [= <-].
  split; simpl; [by rewrite length_insert| |done..]. apply Forall_insert; [done|]. exact (sprintf_s_fits _ _ _ E).
Qed.

Lemma put_service_wf j f n n' : (∀ v v', wf_service v → f v = Ok v' → wf_service v') →
  wf_node n → put_service j f n = Ok n' → wf_node n'.
Proof.
  intros Hf [H1 H2 H3 H4]. unfold put_service. destruct (slot (services n) j) as [v|] eqn:Ev; [|done].
  destruct (f v) as [v'|] eqn:E; [|done]. intros [= <-]. apply slot_Ok in Ev.
  split; simpl; [done..|by rewrite length_insert|]. apply Forall_insert; [done|].
  apply (Hf v); [|done]. by apply (Forall_lookup_1 _ _ _ _ H4 Ev).
Qed.

Lemma put_domain_wf s v v' : wf_service v → put_domain s v = Ok v' → wf_service v'.
Proof.
  intros [H1 H2]. unfold put_domain. destruct (sprintf_s DOMAIN_SIZE s) eqn:E; [|done]. intros [= <-].
  split; [|done]. exact (sprintf_s_fits _ _ _ E).
Qed.

Lemma put_service_ip_wf s v v' : wf_service v → put_service_ip s v = Ok v' → wf_service v'.
Proof.
  intros [H1 H2]. unfold put_service_ip. destruct (sprintf_s IP_SIZE s) eqn:E; [|done]. intros [= <-].
  split; [done|]. exact (sprintf_s_fits _ _ _ E).
Qed.

(** Assignments of numbers. *)
Lemma keeps_number i (f : Node → Node) : (∀ n, ips (f n) = ips n ∧ services (f n) = services n) →
  keeps (wf_idc k) (on_node i (λ n, Ok (f n))).
Proof.
  intros Hf. apply keeps_on_node. intros n n' [H1 H2 H3 H4] [= <-]. destruct (Hf n) as [E1 E2].
  split; rewrite ?E1, ?E2; done.
Qed.

Lemma keeps_put_ip i j s : keeps (wf_idc k) (on_node i (put_ip j s)).
Proof. apply keeps_on_node. intros. by eapply put_ip_wf. Qed.
Lemma keeps_put_domain i j s : keeps (wf_idc k) (on_node i (put_service j (put_domain s))).
Proof. apply keeps_on_node. intros ? ?. apply put_service_wf. apply put_domain_wf. Qed.
Lemma keeps_put_service_ip i j s : keeps (wf_idc k) (on_node i (put_service j (put_service_ip s))).
Proof. apply keeps_on_node. intros ? ?. apply put_service_wf. apply put_service_ip_wf. Qed.

Hint Resolve keeps_number keeps_put_ip keeps_put_domain keeps_put_service_ip : keeps.

Lemma keeps_parse_ips i o : keeps (wf_idc k) (parse_ips i o).
Proof. unfold parse_ips. repeat case_decide; eauto 8 with keeps. Qed.

Lemma keeps_parse_services i o : keeps (wf_idc k) (parse_services i o).
Proof. unfold parse_services, parse_service. eauto 12 with keeps. Qed.

Lemma keeps_parse_nodes o : keeps (wf_idc k) (parse_nodes o).
Proof.
  unfold parse_nodes, parse_node. eauto 12 using keeps_parse_ips, keeps_parse_services with keeps.
Qed.

(** A string member of the whole structure. *)
Lemma keeps_field n s (f : arr → IDC → IDC) : (∀ t x, fits n t → wf_idc k x → wf_idc k (f t x)) →
  keeps (wf_idc k) (t ← lift (sprintf_s n s); modify (f t)).
Proof.
  intros Hf x Hx. unfold lift, mbind, M_bind. destruct (sprintf_s n s) as [t|] eqn:E; [|done].
  simpl. apply Hf; [exact (sprintf_s_fits _ _ _ E)|done].
Qed.

Lemma keeps_parse_idc_json text : keeps (wf_idc k) (parse_idc_json text).
Proof.
  unfold parse_idc_json. destruct text as [text|]; [|apply keeps_ret].
  destruct (json_tokener_parse text) as [jso|]; [|apply keeps_ret].
  apply keeps_bind; [apply keeps_member; intros v; apply keeps_field; intros t x Ht []; by split|intros _].
  apply keeps_bind; [apply keeps_member; intros v; apply keeps_field; intros t x Ht []; by split|intros _].
  eauto using keeps_parse_nodes with keeps.
Qed.
End type.

(** The contents of a document for [parse_idc_json]: other members and the
    order of members do not matter. *)
Record node_doc := mk_ndoc { dweight : Z; dips : list arr; dservices : list Service }.
Record idc_doc := mk_doc { dcode : arr; dmsg : arr; dnodes : list node_doc }.

Definition is_service (j : json) (v : Service) : Prop := ∃ ms, j = JObject ms ∧
  assoc (chars "domain") ms = Some (JString (domain v)) ∧ no_nul (domain v) ∧
  assoc (chars "ip") ms = Some (JString (Hosts.ip v)) ∧ no_nul (Hosts.ip v).

Definition is_ip (j : json) (s : arr) : Prop := j = JString s ∧ plain s.

Definition is_node (j : json) (d : node_doc) : Prop := ∃ ms lips lserv, j = JObject ms ∧
  assoc (chars "weight") ms = Some (JInt (dweight d)) ∧ - 2 ^ 31 ≤ dweight d < 2 ^ 31 ∧
  assoc (chars "ips") ms = Some (JArray lips) ∧ Forall2 is_ip lips (dips d) ∧
  Z.of_nat (length (dips d)) < 2 ^ 31 ∧
  assoc (chars "services") ms = Some (JArray lserv) ∧ Forall2 is_service lserv (dservices d) ∧
  Z.of_nat (length (dservices d)) < 2 ^ 31.

Definition is_doc (j : json) (d : idc_doc) : Prop := ∃ ms l, j = JObject ms ∧
  assoc (chars "msg") ms = Some (JString (dmsg d)) ∧ no_nul (dmsg d) ∧
  assoc (chars "code") ms = Some (JString (dcode d)) ∧ no_nul (dcode d) ∧
  assoc (chars "data") ms = Some (JArray l) ∧ Forall2 is_node l (dnodes d) ∧
  Z.of_nat (length (dnodes d)) < 2 ^ 31.

(** The addresses are stored as JSON prints them, with their quotes. *)
Definition fill_node (d : node_doc) (old : Node) : Node :=
  mk_node (dweight d) (Z.of_nat (length (dips d))) (Z.of_nat (length (dservices d)))
    (fill (λ s _, mk_ips (quote s)) (dips d) (ips old)) (fill (λ v _, v) (dservices d) (services old)).

Definition fill_idc (d : idc_doc) (old : IDC) : IDC := mk_idc (dcode d) (dmsg d) (fill fill_node (dnodes d) (node old)).

(** ** What fits into the structure *)
Definition fits_node (d : node_doc) : bool :=
  forallb (λ s, fits IP_SIZE (quote s)) (dips d) && (length (dips d) <=? IPS_SIZE)%nat &&
  (forallb (λ v, fits DOMAIN_SIZE (domain v) && fits IP_SIZE (Hosts.ip v)) (dservices d) &&
   (length (dservices d) <=? SERVICES_SIZE)%nat).

Definition fits_doc (d : idc_doc) (k : nat) : bool :=
  fits MSG_SIZE (dmsg d) && fits CODE_SIZE (dcode d) &&
  (forallb fits_node (dnodes d) && (length (dnodes d) <=? k)%nat).

(** ** The parser on a document *)
Section correct.
Context {J : Type} `{JsonCLaws J}.

Lemma sprintf_fits n t : sprintf_s n (Some t) = if fits n t then Ok t else Err Segv.
Proof. done. Qed.

Definition at_node (s : IDC) (i : nat) (n : Node) : IDC := set_nodes (<[i := n]> (node s)) s.

Section one_node.
Context (s : IDC) (i : nat) (Hi : (i < length (node s))%nat).

Lemma on_node_at f n :
  on_node (Z.of_nat i) f (at_node s i n) = match f n with Ok n' => Ok ((), at_node s i n') | Err e => Err e end.
Proof.
  unfold on_node, slot, at_node. cbn [node set_nodes]. rewrite (proj2 (Z.ltb_ge _ _)) by lia.
  rewrite Nat2Z.id, list_lookup_insert_eq by done. destruct (f n); [|done].
  unfold set_nodes. cbn [node code msg]. by rewrite list_insert_insert_eq.
Qed.

Lemma parse_ips_at o lips ds n :
  view o = JArray lips → Forall2 is_ip lips ds → Z.of_nat (length ds) < 2 ^ 31 →
  parse_ips (Z.of_nat i) o (at_node s i n) =
    if forallb (λ s, fits IP_SIZE (quote s)) ds && (length ds <=? length (ips n))%nat
    then Ok ((), at_node s i (set_ips_num (Z.of_nat (length ds)) (set_ips (fill (λ s _, mk_ips (quote s)) ds (ips n)) n)))
    else Err Segv.
Proof.
  intros Ho Hd Hl. unfold parse_ips. rewrite get_type_law, Ho. cbn [type_of]. rewrite decide_True by done.
  rewrite (array_length_law o lips Ho), (Forall2_length _ _ _ Hd), s32_length, Nat2Z.id by done.
  unfold mbind at 1, M_bind at 1.
  replace (at_node s i n) with (at_node s i (set_ips (ips n) n)) at 1 by (by destruct n).
  rewrite (for_fill_all (λ l, at_node s i (set_ips l n)) (λ s _, mk_ips (quote s)) (λ s, fits IP_SIZE (quote s)) (λ _, True)).
  - destruct (_ && _); [|done]. by rewrite on_node_at.
  - intros j x l Hx _. destruct (Forall2_lookup_r _ _ _ _ _ Hd Hx) as (y & Hy & -> & Hp).
    destruct (array_get_law o lips j _ Ho Hy) as (v & Ev & Hv). rewrite Ev. unfold mbind, M_bind. cbn [lift].
    rewrite on_node_at, (to_json_law v x Hv Hp). unfold put_ip. rewrite slot_at, sprintf_fits. cbn [ips set_ips].
    destruct (l !! j); [|done]. destruct (fits IP_SIZE (quote x)); [|done]. by rewrite Nat2Z.id.
  - done.
  - by apply Forall_true.
Qed.

Lemma parse_service_at o v k n :
  is_service (view o) v →
  parse_service (Z.of_nat i) (Z.of_nat k) o (at_node s i n) =
    match services n !! k with
    | Some _ => if fits DOMAIN_SIZE (domain v) && fits IP_SIZE (Hosts.ip v)
                then Ok ((), at_node s i (set_services (<[k := v]> (services n)) n)) else Err Segv
    | None => Err Segv
    end.
Proof.
  intros (ms & Ho & Hd & Nd & Hp & Np). unfold parse_service.
  destruct (member_view o "domain" ms _ (λ w, on_node (Z.of_nat i) (put_service (Z.of_nat k) (put_domain (json_object_get_string w)))) Ho Hd) as (w & Ew & ->).
  destruct (member_view o "ip" ms _ (λ w, on_node (Z.of_nat i) (put_service (Z.of_nat k) (put_service_ip (json_object_get_string w)))) Ho Hp) as (u & Eu & ->).
  rewrite (get_string_law w _ Ew Nd), (get_string_law u _ Eu Np).
  unfold mbind, M_bind. rewrite on_node_at. unfold put_service at 1. rewrite slot_at.
  destruct (services n !! k) as [v0|] eqn:Ek; [|done]. unfold put_domain. rewrite sprintf_fits.
  destruct (fits DOMAIN_SIZE (domain v)); [|done]. rewrite on_node_at. unfold put_service. rewrite slot_at.
  cbn [services set_services]. rewrite Nat2Z.id, list_lookup_insert_eq by (by eapply lookup_lt_Some).
  unfold put_service_ip. rewrite sprintf_fits. cbn [domain]. destruct (fits IP_SIZE (Hosts.ip v)); [|done]. cbn [andb].
  unfold set_services. cbn [weight ips_num service_num ips]. rewrite list_insert_insert_eq. by destruct v.
Qed.

Lemma parse_services_at o lserv vs n :
  view o = JArray lserv → Forall2 is_service lserv vs → Z.of_nat (length vs) < 2 ^ 31 →
  parse_services (Z.of_nat i) o (at_node s i n) =
    if forallb (λ v, fits DOMAIN_SIZE (domain v) && fits IP_SIZE (Hosts.ip v)) vs && (length vs <=? length (services n))%nat
    then Ok ((), at_node s i (set_services (fill (λ v _, v) vs (services n)) (set_service_num (Z.of_nat (length vs)) n)))
    else Err Segv.
Proof.
  intros Ho Hd Hl. unfold parse_services, elements. rewrite get_type_law, Ho. cbn [type_of]. rewrite decide_True by done.
  rewrite (array_length_law o lserv Ho), (Forall2_length _ _ _ Hd), s32_length, Nat2Z.id by done.
  unfold mbind at 1, M_bind at 1. rewrite on_node_at.
  set (n1 := set_service_num _ n). replace n1 with (set_services (services n) n1) at 1 by (by destruct n).
  rewrite (for_fill_all (λ l, at_node s i (set_services l n1)) (λ v _, v)
    (λ v, fits DOMAIN_SIZE (domain v) && fits IP_SIZE (Hosts.ip v)) (λ _, True)); [done| |done|by apply Forall_true].
  intros k x l Hx _. destruct (Forall2_lookup_r _ _ _ _ _ Hd Hx) as (y & Hy & Hs).
  destruct (array_get_law o lserv k _ Ho Hy) as (v & Ev & Hv). rewrite Ev. unfold mbind, M_bind. cbn [lift].
  rewrite <- Hv in Hs. by rewrite (parse_service_at v x k _ Hs).
Qed.

Lemma parse_node_at o d n : is_node (view o) d → wf_node n →
  parse_node (Z.of_nat i) o (at_node s i n) =
    if fits_node d then Ok ((), at_node s i (fill_node d n)) else Err Segv.
Proof.
  intros (ms & lips & lserv & Ho & Hw & Rw & Hp & Fp & Lp & Hv & Fv & Lv) [W1 _ W3 _].
  unfold parse_node.
  destruct (member_view o "weight" ms _ (λ v, on_node (Z.of_nat i) (λ n, Ok (set_weight (json_object_get_int v) n))) Ho Hw) as (w & Ew & ->).
  destruct (member_view o "ips" ms _ (parse_ips (Z.of_nat i)) Ho Hp) as (p & Ep & ->).
  destruct (member_view o "services" ms _ (parse_services (Z.of_nat i)) Ho Hv) as (v & Ev & ->).
  rewrite (get_int_law w _ Ew Rw). unfold mbind, M_bind. rewrite on_node_at, (parse_ips_at p lips (dips d)) by done.
  cbn [ips set_weight]. rewrite W1. unfold fits_node. destruct (forallb _ (dips d) && _); [|done].
  rewrite (parse_services_at v lserv (dservices d)) by done. cbn [services set_ips_num set_ips set_weight]. rewrite W3.
  cbn [andb]. by destruct (_ && _).
Qed.
End one_node.

Lemma parse_node_out s i o d : is_node (view o) d → (length (node s) ≤ i)%nat →
  parse_node (Z.of_nat i) o s = Err Segv.
Proof.
  intros (ms & lips & lserv & Ho & Hw & Rw & _) Hi. unfold parse_node.
  destruct (member_view o "weight" ms _ (λ v, on_node (Z.of_nat i) (λ n, Ok (set_weight (json_object_get_int v) n))) Ho Hw) as (w & Ew & ->).
  unfold mbind, M_bind, on_node. by rewrite slot_at, lookup_ge_None_2.
Qed.

Lemma fill_node_wf d n : fits_node d → wf_node n → wf_node (fill_node d n).
Proof.
  unfold fits_node. intros [[H1 H2]%andb_true_iff [H3 H4]%andb_true_iff]%Is_true_true%andb_true_iff [W1 W2 W3 W4].
  apply Nat.leb_le in H2, H4. rewrite forallb_forall in H1, H3.
  split; cbn [fill_node ips services]; [rewrite fill_length; lia| |rewrite fill_length; lia|].
  - apply fill_forall; [done|]. intros x b Hx _. unfold wf_ip. simpl. apply Is_true_true, H1. by apply list_elem_of_In.
  - apply fill_forall; [done|]. intros x b Hx _. apply list_elem_of_In, H3, andb_true_iff in Hx as [E1 E2].
    split; by apply Is_true_true.
Qed.

Lemma parse_nodes_ok o l ds s :
  view o = JArray l → Forall2 is_node l ds → Z.of_nat (length ds) < 2 ^ 31 → Forall wf_node (node s) →
  parse_nodes o s =
    if forallb fits_node ds && (length ds <=? length (node s))%nat
    then Ok ((), set_nodes (fill fill_node ds (node s)) s) else Err Segv.
Proof.
  intros Ho Hd Hl Hw. unfold parse_nodes, elements. rewrite get_type_law, Ho. cbn [type_of]. rewrite decide_True by done.
  rewrite (array_length_law o l Ho), (Forall2_length _ _ _ Hd), s32_length, Nat2Z.id by done.
  replace s with (set_nodes (node s) s) at 1 by (by destruct s).
  apply (for_fill_all (λ x, set_nodes x s) fill_node fits_node wf_node); [| |done].
  - intros i x y Hx Hy. destruct (Forall2_lookup_r _ _ _ _ _ Hd Hx) as (j & Hj & Hs).
    destruct (array_get_law o l i _ Ho Hj) as (v & Ev & Hv). rewrite Ev. unfold mbind, M_bind. cbn [lift].
    rewrite <- Hv in Hs. destruct (y !! i) as [n|] eqn:En.
    + replace (set_nodes y s) with (at_node (set_nodes y s) i n) at 1
        by (unfold at_node, set_nodes; cbn [node code msg]; by rewrite list_insert_id).
      rewrite (parse_node_at _ i) with (d := x); [done| |done|by apply (Forall_lookup_1 _ _ _ _ Hy En)].
      cbn [node set_nodes]. by eapply lookup_lt_Some.
    + apply (parse_node_out _ i v x Hs). cbn [node set_nodes]. by apply lookup_ge_None_1.
  - intros x b _ Hx Hb. by apply fill_node_wf.
Qed.

Lemma parse_idc_json_ok text o d s k :
  json_tokener_parse text = Some o → is_doc (view (Some o)) d → wf_idc k s →
  parse_idc_json (Some text) s = if fits_doc d k then Ok (SUCCESS, fill_idc d s) else Err Segv.
Proof.
  intros Ht (ms & l & Ho & Hm & Nm & Hc & Nc & Hd & Fd & Ld) [W1 W2 W3 W4]. unfold parse_idc_json. rewrite Ht.
  destruct (member_view (Some o) "msg" ms _ (λ v, t ← lift (sprintf_s MSG_SIZE (json_object_get_string v));
            modify (λ s, mk_idc (code s) t (node s))) Ho Hm) as (vm & Em & ->).
  destruct (member_view (Some o) "code" ms _ (λ v, t ← lift (sprintf_s CODE_SIZE (json_object_get_string v));
            modify (λ s, mk_idc t (msg s) (node s))) Ho Hc) as (vc & Ec & ->).
  destruct (member_view (Some o) "data" ms _ parse_nodes Ho Hd) as (vd & Ed & ->).
  rewrite (get_string_law vm _ Em Nm), (get_string_law vc _ Ec Nc), !sprintf_fits. unfold fits_doc.
  unfold mbind, M_bind, lift. destruct (fits MSG_SIZE (dmsg d)); [|done].
  destruct (fits CODE_SIZE (dcode d)); [|done]. cbn [modify andb code msg node].
  rewrite (parse_nodes_ok vd l (dnodes d)) by done. cbn [node]. rewrite W3. by destruct (_ && _).
Qed.
End correct.

(** ** main *)
Definition zero_node : Node := mk_node 0 0 0 (replicate IPS_SIZE (mk_ips [])) (replicate SERVICES_SIZE (mk_service [] [])).
Definition NODES : nat := 16.
Definition zero_idc : IDC := mk_idc [] [] (replicate NODES zero_node).

(** The strings [main] prints for a node. *)
Definition print_node (n : Node) : res (list arr) :=
  if weight n =? 0 then Ok []
  else
    match read_first (ips n) (ips_num n), read_first (services n) (service_num n) with
    | Ok a, Ok b => Ok ((ips_ip <$> a) ++ mjoin ((λ v, [domain v; Hosts.ip v]) <$> b))
    | _, _ => Err Segv
    end.

Fixpoint print_loop (k : nat) (i : Z) (s : IDC) : res (list arr) :=
  match k with
  | O => Ok []
  | S k =>
      match slot (node s) i with
      | Err e => Err e
      | Ok n =>
          match print_node n with
          | Err e => Err e
          | Ok a => match print_loop k (i + 1) s with Ok b => Ok (a ++ b) | Err e => Err e end
          end
      end
  end.

(** The call of [modify_hostsfile]: it does not look at the pairs if the file
    is empty or cannot be opened. *)
Definition modify_services (file : option arr) (st_size : Z) (n : Node) : res (Z * option arr) :=
  match read_first (services n) (service_num n) with
  | Ok pairs => modify_hostsfile_idc file st_size pairs
  | Err e =>
      if get_file_size file st_size <=? 0 then Ok (0, file)
      else if s32 (get_file_size file st_size + 16 + MAXDNAME_IDC * service_num n) <? 0 then Err Segv
      else match file with Some _ => Err e | None => Ok (-1, None) end
  end.

(** What is printed, and the hosts file afterwards. *)
Definition main {J} `{JsonC J} (jsonstr : arr) (file : option arr) (st_size : Z) : res (list arr * option arr) :=
  match parse_idc_json (Some jsonstr) zero_idc with
  | Err e => Err e
  | Ok (_, idc) =>
      match print_loop NODES 0 idc, slot (node idc) 0 with
      | Ok out, Ok n => match modify_services file st_size n with Ok r => Ok (out, r.2) | Err e => Err e end
      | Err e, _ | _, Err e => Err e
      end
  end.

(** What a document makes [main] print. *)
Definition printed (d : node_doc) : list arr :=
  if dweight d =? 0 then []
  else (quote <$> dips d) ++ mjoin ((λ v, [domain v; Hosts.ip v]) <$> dservices d).

Lemma fits_node_lengths d : fits_node d → (length (dips d) ≤ IPS_SIZE)%nat ∧ (length (dservices d) ≤ SERVICES_SIZE)%nat.
Proof.
  intros [[_ H1]%andb_true_iff [_ H2]%andb_true_iff]%Is_true_true%andb_true_iff. by apply Nat.leb_le in H1, H2.
Qed.

Lemma print_fill d n : fits_node d → wf_node n → print_node (fill_node d n) = Ok (printed d).
Proof.
  intros [H1 H2]%fits_node_lengths [W1 _ W3 _]. unfold print_node, printed. cbn [fill_node weight ips_num service_num ips services].
  destruct (dweight d =? 0); [done|]. rewrite (read_first_fill (λ s, mk_ips (quote s))) by lia.
  rewrite (read_first_fill (λ v, v)) by lia. by rewrite list_fmap_id, <- list_fmap_compose.
Qed.

Lemma print_loop_ok pre (l : list Node) s out : node s = pre ++ l → Forall2 (λ n o, print_node n = Ok o) l out →
  print_loop (length l) (Z.of_nat (length pre)) s = Ok (mjoin out).
Proof.
  intros E Hl. revert pre E. induction Hl as [|n o l out Hn Hl IH]; intros pre E; [done|]. cbn [print_loop length].
  rewrite slot_at, E, list_lookup_middle, Hn by done.
  replace (Z.of_nat (length pre) + 1) with (Z.of_nat (length (pre ++ [n]))) by (rewrite length_app; simpl; lia).
  rewrite IH by (by rewrite <- app_assoc). done.
Qed.

Lemma mjoin_nils {A} n : mjoin (replicate n ([] : list A)) = [].
Proof. by induction n. Qed.

Lemma print_nodes_ok d s : Forall fits_node (dnodes d) → Forall wf_node (node s) → node s = replicate NODES zero_node →
  (length (dnodes d) ≤ NODES)%nat → print_loop NODES 0 (fill_idc d s) = Ok (mjoin (printed <$> dnodes d)).
Proof.
  intros Hf Hw Hs Hl. set (ds := dnodes d) in *.
  pose proof (print_loop_ok [] (fill fill_node ds (node s)) (fill_idc d s)
    ((printed <$> ds) ++ replicate (NODES - length ds) []) ltac:(done)) as E.
  rewrite fill_length, Hs, length_replicate, join_app, mjoin_nils, app_nil_r in E by (rewrite Hs, length_replicate; done).
  rewrite <- Hs in E. apply E. clear E. unfold fill. apply Forall2_app.
  - rewrite Hs in Hw |- *. clear Hs. revert Hw Hl. generalize NODES. induction Hf as [|x ds Hx Hf IH]; intros [|k] Hw Hl; simpl in *; [constructor..|lia|].
    apply Forall_cons in Hw as [W1 W2]. constructor; [by apply print_fill|]. apply IH; [done|lia].
  - rewrite Hs, drop_replicate. clear. induction (NODES - length ds)%nat; constructor; [done|done].
Qed.

Lemma service_pair_fits v : fits DOMAIN_SIZE (domain v) → fits IP_SIZE (Hosts.ip v) → pair_fits v.
Proof.
  unfold fits, DOMAIN_SIZE, IP_SIZE. intros H1%Is_true_true%Z.ltb_lt H2%Is_true_true%Z.ltb_lt. split; unfold fits.
  - apply Z.ltb_lt. unfold pair_entry, entry, LINE_LEN. rewrite length_app. cbn [length]. rewrite length_app. simpl. lia.
  - apply Z.ltb_lt. unfold DESIRED_LEN. cbn [length]. lia.
Qed.

Lemma fits_node_pairs d : fits_node d → Forall pair_fits (dservices d).
Proof.
  intros [_ [H _]%andb_true_iff]%Is_true_true%andb_true_iff. apply Forall_forall. intros v Hv%list_elem_of_In.
  rewrite forallb_forall in H. apply H, andb_true_iff in Hv as [H1 H2]. apply service_pair_fits; by apply Is_true_true.
Qed.

Lemma zero_wf : wf_idc NODES zero_idc.
Proof.
  split; [done..|]. apply Forall_replicate. split; [done|by apply Forall_replicate|done|by apply Forall_replicate].
Qed.

Section main.
Context {J : Type} `{JsonCLaws J}.

Lemma fits_doc_nodes d k : fits_doc d k → Forall fits_node (dnodes d) ∧ (length (dnodes d) ≤ k)%nat.
Proof.
  intros [_ [H1 H2%Nat.leb_le]%andb_true_iff]%Is_true_true%andb_true_iff. split; [|done].
  apply Forall_forall. intros x Hx%list_elem_of_In. rewrite forallb_forall in H1. by apply Is_true_true, H1.
Qed.

Lemma main_ok text o d d0 ds f st_size :
  json_tokener_parse text = Some o → is_doc (view (Some o)) d → dnodes d = d0 :: ds →
  let new := new_contents_idc (dservices d0) f in
  main text (Some f) st_size =
    if fits_doc d NODES then
      if s32 (Z.of_nat (length f)) <=? 0 then Ok (mjoin (printed <$> dnodes d), Some f)
      else if Z.of_nat (length new) <=? room_idc f (dservices d0)
      then Ok (mjoin (printed <$> dnodes d), Some (overwrite f new)) else Err Segv
    else Err Segv.
Proof.
  intros Ht Hd En new. unfold main. rewrite (parse_idc_json_ok text o d zero_idc NODES Ht Hd zero_wf).
  destruct (fits_doc d NODES) eqn:Hb; [|done]. apply Is_true_true in Hb as Hfit. destruct (fits_doc_nodes d _ Hfit) as [Hn Hl].
  rewrite print_nodes_ok by (done || apply zero_wf).
  rewrite En in Hn. apply Forall_cons in Hn as [Hd0 _].
  replace (slot (node (fill_idc d zero_idc)) 0) with (Ok (fill_node d0 zero_node)).
  2:{ unfold fill_idc, fill. rewrite En. reflexivity. }
  unfold modify_services. cbn [fill_node services service_num].
  rewrite (read_first_fill (λ v, v)), list_fmap_id by (by apply fits_node_lengths in Hd0 as [_ ?]).
  rewrite modify_idc_ok by (by apply fits_node_pairs). fold new. destruct (_ <=? 0); [done|]. by destruct (_ <=? _).
Qed.
End main.

(** ** The document in the program

    The value of the text [jsonstr]. *)
Definition doc_service (d ip : string) : json :=
  JObject [(chars "domain", JString (chars d)); (chars "ip", JString (chars ip))].

Definition doc_node (name ip : string) : json :=
  JObject [(chars "name", JString (chars name)); (chars "weight", JInt 1);
    (chars "ips", JArray [JString (chars ip)]);
    (chars "services", JArray [doc_service "magicwifi.com.cn" ip; doc_service "r.magicwifi.com.cn" ip;
                               doc_service "www.magicwifi.com.cn" ip])].

Definition jsonstr : json :=
  JObject [(chars "code", JString (chars "200")); (chars "msg", JString (chars "success"));
    (chars "data", JArray [doc_node "zhongshan_bgp" "121.201.55.180"; doc_node "zhongshan_mobile" "183.232.2.4";
                           doc_node "zhengjiang_bgp" "112.73.85.203"; doc_node "beijing_bgp" "123.59.251.252"])].

Definition node_contents (ip : string) : node_doc :=
  mk_ndoc 1 [chars ip] ((λ d, mk_service (chars d) (chars ip)) <$>
    ["magicwifi.com.cn"; "r.magicwifi.com.cn"; "www.magicwifi.com.cn"]%string).

Definition jsonstr_contents : idc_doc :=
  mk_doc (chars "200") (chars "success")
    (node_contents <$> ["121.201.55.180"; "183.232.2.4"; "112.73.85.203"; "123.59.251.252"]%string).

Lemma doc_service_ok d ip : no_nul (chars d) → no_nul (chars ip) → is_service (doc_service d ip) (mk_service (chars d) (chars ip)).
Proof. intros H1 H2. eexists. split; [reflexivity|]. by repeat split. Qed.

Lemma doc_node_ok name ip : plain (chars ip) → is_node (doc_node name ip) (node_contents ip).
Proof.
  intros Hp. assert (no_nul (chars ip)) as Hn.
  { eapply Forall_impl; [exact Hp|]. intros c (Hc & _). lia. }
  eexists _, [_], [_; _; _]. split; [reflexivity|]. split; [reflexivity|]. split; [simpl; lia|]. split; [reflexivity|].
  split; [by repeat constructor|]. split; [simpl; lia|]. split; [reflexivity|].
  split; [|simpl; lia]. repeat apply List.Forall2_cons; [apply doc_service_ok; first [exact Hn|by_chars]..|constructor].
Qed.

Lemma jsonstr_ok : is_doc jsonstr jsonstr_contents.
Proof.
  eexists _, [_; _; _; _]. split; [reflexivity|]. split; [reflexivity|]. split; [by_chars|].
  split; [reflexivity|]. split; [by_chars|]. split; [reflexivity|]. split; [|simpl; lia].
  repeat apply List.Forall2_cons; [apply doc_node_ok; by_chars..|constructor].
Qed.

(** ** Properties *)

(** [parse_idc_json] reports a missing and an invalid text.  From a
    document with the members it looks for, in any order and among others, it
    takes the code, the message and for every node the weight, the services
    and the addresses, each address with quotes around it; the rest of the
    structure stays as it was.  It faults exactly if something does not fit,
    and an address with its quotes fits up to 13 characters. *)
Theorem parse_idc_json_correct {J} `{JsonCLaws J} text d k s :
  wf_idc k s →
  parse_idc_json None s = Ok (ERROR_EMPTY_BUFFER, s) ∧
  (json_tokener_parse text = None → parse_idc_json (Some text) s = Ok (ERROR_PARSER_JSON, s)) ∧
  (∀ o, json_tokener_parse text = Some o → is_doc (view (Some o)) d →
     parse_idc_json (Some text) s = if fits_doc d k then Ok (SUCCESS, fill_idc d s) else Err Segv).
Proof.
  intros Hs. split; [done|]. split; [by unfold parse_idc_json; intros ->|].
  intros o Ho Hd. by apply (parse_idc_json_ok text o).
Qed.


(** the document in the program itself does not fit: its first address
    has 14 characters, so that with its quotes and the NUL it is one byte too
    long, and [main] writes behind the end of the array. *)
Theorem idc_main_overflows {J} `{JsonCLaws J} text o file st_size :
  json_tokener_parse text = Some o → view (Some o) = jsonstr → main text file st_size = Err Segv.
Proof.
  intros Ht Ho. unfold main. rewrite (parse_idc_json_ok text o jsonstr_contents zero_idc NODES Ht); [|rewrite Ho; apply jsonstr_ok|apply zero_wf].
  replace (fits_doc jsonstr_contents NODES) with false by (by vm_compute). done.
Qed.

(** *** A document that fits *)
Definition small : json :=
  JObject [(chars "code", JString (chars "200")); (chars "msg", JString (chars "ok"));
    (chars "data", JArray [doc_node "a" "10.0.0.1"])].
Definition small_contents : idc_doc := mk_doc (chars "200") (chars "ok") [node_contents "10.0.0.1"].

Lemma small_ok : is_doc small small_contents.
Proof.
  eexists _, [_]. split; [reflexivity|]. split; [reflexivity|]. split; [by_chars|].
  split; [reflexivity|]. split; [by_chars|]. split; [reflexivity|]. split; [|simpl; lia].
  repeat apply List.Forall2_cons; [apply doc_node_ok; by_chars..|constructor].
Qed.

Lemma parse_idc_json_correct_witness :
  parse_idc_json (Some (print small)) zero_idc = Ok (SUCCESS, fill_idc small_contents zero_idc).
Proof.
  destruct (parse_idc_json_correct (print small) small_contents NODES zero_idc zero_wf) as (_ & _ & E).
  rewrite (E small); [reflexivity|apply parse_print|exact small_ok].
Defined.


Lemma idc_main_overflows_witness : main (print jsonstr) None 0 = Err Segv.
Proof. apply (idc_main_overflows (print jsonstr) jsonstr None 0); [apply parse_print|reflexivity]. Defined.
