(* ===== verification/Copy.v ===== *)
(** * Copying a file (file/copywrite.c)

    [bb_full_fd_action] copies from one descriptor to another, with [sendfile]
    as long as that works and with [read] and [write] otherwise; [copy_file]
    opens the two files around it and [remove_file] unlinks one.  The system
    calls are a parameter [Files]; [CopyLaws] is what POSIX says of them for a
    source and a destination that are different files.  The loops take a
    number of rounds, which the theorems bound.  Messages are not modelled. *)
From Stdlib Require Import String.
From S2P Require Import Prelude CArr.

(** ** The operating system *)
Record stat := mk_stat { st_dev : Z; st_ino : Z; st_mode : Z; st_uid : Z; st_gid : Z; st_mtime : Z }.

Definition EINTR : Z := 4.
Definition ENOENT : Z := 2.

(** Results of calls come with [errno] where the program looks at it. *)
Class Files (K : Type) := {
  sys_write : Z → arr → K → Z * Z * K;
  sys_read : Z → Z → K → Z * arr * Z * K;
  sys_sendfile : Z → Z → Z → K → Z * K;
  sys_lstat : arr → K → (Z + stat) * K;
  sys_open : arr → Z → Z → K → Z * K;
  sys_close : Z → K → Z * K;
  sys_unlink : arr → K → Z * K;
  sys_utimes : arr → Z → K → Z * K;
  sys_chown : arr → Z → Z → K → Z * K;
  sys_chmod : arr → Z → K → Z * K;
  sys_access : arr → Z → K → Z * K;
  sys_isatty : Z → K → Z * K }.

(** Bits of the mode of a file and of [open]. *)
Definition S_IFMT : Z := 0xF000.
Definition S_ISREG (m : Z) : bool := Z.land m S_IFMT =? 0x8000.
Definition S_ISDIR (m : Z) : bool := Z.land m S_IFMT =? 0x4000.
Definition S_ISLNK (m : Z) : bool := Z.land m S_IFMT =? 0xA000.
Definition S_ISUID : Z := 0x800.
Definition S_ISGID : Z := 0x400.
Definition O_RDONLY : Z := 0.
Definition O_WRONLY : Z := 1.
Definition O_CREAT : Z := 0x40.
Definition O_EXCL : Z := 0x80.
Definition O_TRUNC : Z := 0x200.
Definition W_OK : Z := 2.

Definition SENDFILE_BIGBUF : Z := 16 * 1024 * 1024.
Definition CONFIG_FEATURE_COPYBUF_KB : Z := 4.
Definition buffer_size : Z := CONFIG_FEATURE_COPYBUF_KB * 1024.

Section program.
Context {K : Type} `{Files K}.

Definition call {A} (f : K → A * K) : M K A := λ s, Ok (f s).

Fixpoint safe_write (fuel : nat) (fd : Z) (buf : arr) : M K Z :=
  match fuel with
  | O => fail Fuel
  | S fuel =>
      r ← call (sys_write fd buf);
      let '(n, errno) := r in
      if (n <? 0) && (errno =? EINTR) then safe_write fuel fd buf else mret n
  end.

(** [buf] is what is left to write. *)
Fixpoint full_write_loop (fuel n : nat) (fd : Z) (buf : arr) (total : Z) : M K Z :=
  match buf with
  | [] => mret total
  | _ =>
      match n with
      | O => fail Fuel
      | S n =>
          cc ← safe_write fuel fd buf;
          if cc <? 0 then mret (if total =? 0 then cc else total)
          else full_write_loop fuel n fd (drop (Z.to_nat cc) buf) (total + cc)
      end
  end.

Definition full_write (fuel : nat) (fd : Z) (buf : arr) : M K Z := full_write_loop fuel fuel fd buf 0.

Fixpoint safe_read (fuel : nat) (fd count : Z) : M K (Z * arr) :=
  match fuel with
  | O => fail Fuel
  | S fuel =>
      r ← call (sys_read fd count);
      let '(n, bytes, errno) := r in
      if (n <? 0) && (errno =? EINTR) then safe_read fuel fd count else mret (n, bytes)
  end.

(** The buffer on the stack receives what is read. *)
Definition into_buffer (bytes : arr) : M K arr :=
  if Z.of_nat (length bytes) <=? buffer_size then mret bytes else fail Segv.

(** The start of a round: the result of [sendfile] or of the read, the bytes in
    the buffer and the new value of [sendfile_sz]. *)
Definition fetch (fuel : nat) (src_fd dst_fd size sendfile_sz : Z) : M K (Z * arr * Z) :=
  rd ← (if sendfile_sz =? 0 then mret (-1)
        else call (sys_sendfile dst_fd src_fd (if sendfile_sz <? size then sendfile_sz else size)));
  if 0 <=? rd then mret (rd, [], sendfile_sz)
  else
    r ← safe_read fuel src_fd (if buffer_size <? size then buffer_size else size);
    b ← into_buffer r.2;
    mret (r.1, b, 0).

(** The loop returns [status] and [total]. *)
Fixpoint action_loop (fuel n : nat) (cont : bool) (src_fd dst_fd size status total sendfile_sz : Z) : M K (Z * Z) :=
  match n with
  | O => fail Fuel
  | S n =>
      r ← fetch fuel src_fd dst_fd size sendfile_sz;
      let '(rd, buffer, sendfile_sz) := r in
      if rd <? 0 then mret (status, total)
      else if rd =? 0 then mret (0, total)
      else
        wr ← (if (0 <=? dst_fd) && (sendfile_sz =? 0) then full_write fuel dst_fd buffer else mret rd);
        if (wr <? rd) && negb cont then mret (status, total)
        else
          let dst_fd := if wr <? rd then -1 else dst_fd in
          let total := total + rd in
          let size := if status <? 0 then size - rd else size in
          if (status <? 0) && (size =? 0) then mret (0, total)
          else action_loop fuel n cont src_fd dst_fd size status total sendfile_sz
  end.

(** The smallest [off_t], whose negation is not one, is not distinguished. *)
Definition bb_full_fd_action (fuel : nat) (src_fd dst_fd size : Z) : M K Z :=
  let cont := size <? 0 in
  let size := Z.abs size in
  r ← (if src_fd <? 0 then mret (-1, 0)
       else if size =? 0 then action_loop fuel fuel cont src_fd dst_fd SENDFILE_BIGBUF 1 0 SENDFILE_BIGBUF
       else action_loop fuel fuel cont src_fd dst_fd size (-1) 0 SENDFILE_BIGBUF);
  let '(status, total) := r in
  mret (if status =? 0 then total else -1).

Definition bb_copyfd_eof (fuel : nat) (fd1 fd2 : Z) : M K Z := bb_full_fd_action fuel fd1 fd2 0.

(** The part of [copy_file] behind the label. *)
Definition preserve_mode_ugid_time (dest : arr) (source_stat : stat) : M K unit :=
  _ ← call (sys_utimes dest (st_mtime source_stat));
  r ← call (sys_chown dest (st_uid source_stat) (st_gid source_stat));
  let mode := if r <? 0 then Z.ldiff (st_mode source_stat) (Z.lor S_ISUID S_ISGID) else st_mode source_stat in
  _ ← call (sys_chmod dest mode);
  mret ().

(** The destination is opened, or unlinked and created. *)
Definition open_dest (dest : arr) (new_mode : Z) : M K (Z + Z) :=
  dst_fd ← call (sys_open dest (Z.lor O_WRONLY (Z.lor O_CREAT O_TRUNC)) new_mode);
  if dst_fd =? -1 then
    ovr ← call (sys_unlink dest);
    if ovr <=? 0 then mret (inl ovr)
    else
      dst_fd ← call (sys_open dest (Z.lor O_WRONLY (Z.lor O_CREAT O_EXCL)) new_mode);
      if dst_fd <? 0 then mret (inl (-1)) else mret (inr dst_fd)
  else mret (inr dst_fd).

Definition copy_regular (fuel : nat) (source dest : arr) (source_stat : stat) : M K Z :=
  src_fd ← call (sys_open source O_RDONLY 0x1B6);
  if src_fd <? 0 then mret (-1)
  else
    r ← open_dest dest (st_mode source_stat);
    match r with
    | inl err => _ ← call (sys_close src_fd); mret err
    | inr dst_fd =>
        n ← bb_copyfd_eof fuel src_fd dst_fd;
        c ← call (sys_close dst_fd);
        let retval := if (n =? -1) || (c <? 0) then -1 else 0 in
        _ ← call (sys_close src_fd);
        preserve_mode_ugid_time dest source_stat;;
        mret retval
    end.

Definition same_file (a b : stat) : bool := (st_dev a =? st_dev b) && (st_ino a =? st_ino b).

Definition copy_file (fuel : nat) (source dest : arr) (flags : Z) : M K Z :=
  s ← call (sys_lstat source);
  match s with
  | inl _ => mret (-1)
  | inr source_stat =>
      d ← call (sys_lstat dest);
      let stop := match d with inl e => negb (e =? ENOENT) | inr dest_stat => same_file source_stat dest_stat end in
      if stop then mret (-1)
      else if S_ISREG (st_mode source_stat) then copy_regular fuel source dest source_stat
      else preserve_mode_ugid_time dest source_stat;; mret 0
  end.

Definition remove_file (path : arr) : M K Z :=
  s ← call (sys_lstat path);
  match s with
  | inl e => mret (if e =? ENOENT then 0 else -1)
  | inr path_stat =>
      if S_ISDIR (st_mode path_stat) then mret 0
      else
        a ← call (sys_access path W_OK);
        if (a <? 0) && negb (S_ISLNK (st_mode path_stat)) then
          t ← call (sys_isatty 0);
          if t =? 0 then mret 0
          else u ← call (sys_unlink path); mret (if u <? 0 then -1 else 0)
        else mret 0
  end.

Definition main (fuel : nat) : M K Z :=
  copy_file fuel (chars "/home/weeds/magicwifi/test/datastructure/file/a.out") (chars "/tmp/a.out") 0x1B6.
End program.

(** ** What POSIX says of the calls

    [rest] is what the source has still to give, [out] what was written to the
    destination.  A call that was interrupted by a signal has done nothing;
    only finitely many calls are ([interrupts] is their number).  [errors]
    counts the reads and writes that failed for another reason. *)
Class CopyLaws (K : Type) `{Files K} (src dst : Z) := {
  rest : K → arr;
  out : K → arr;
  interrupts : K → nat;
  errors : K → nat;
  write_law buf k n e k' : sys_write dst buf k = (n, e, k') → buf ≠ [] →
    if n <? 0 then
      rest k' = rest k ∧ out k' = out k ∧
      if e =? EINTR then (interrupts k' < interrupts k)%nat ∧ errors k' = errors k
      else (interrupts k' ≤ interrupts k)%nat ∧ errors k' = S (errors k)
    else
      0 < n ≤ Z.of_nat (length buf) ∧ out k' = out k ++ take (Z.to_nat n) buf ∧ rest k' = rest k ∧
      (interrupts k' ≤ interrupts k)%nat ∧ errors k' = errors k;
  read_law count k n b e k' : sys_read src count k = (n, b, e, k') → 0 < count →
    if n <? 0 then
      b = [] ∧ rest k' = rest k ∧ out k' = out k ∧
      if e =? EINTR then (interrupts k' < interrupts k)%nat ∧ errors k' = errors k
      else (interrupts k' ≤ interrupts k)%nat ∧ errors k' = S (errors k)
    else
      n = Z.of_nat (length b) ∧ n ≤ count ∧ rest k = b ++ rest k' ∧ (b = [] → rest k = []) ∧ out k' = out k ∧
      (interrupts k' ≤ interrupts k)%nat ∧ errors k' = errors k;
  sendfile_law count k n k' : sys_sendfile dst src count k = (n, k') → 0 < count →
    (interrupts k' ≤ interrupts k)%nat ∧ errors k' = errors k ∧
    if n <? 0 then rest k' = rest k ∧ out k' = out k
    else ∃ b, n = Z.of_nat (length b) ∧ n ≤ count ∧ rest k = b ++ rest k' ∧ (b = [] → rest k = []) ∧
           out k' = out k ++ b }.

Section copy.
Context {K : Type} (src dst : Z) `{CopyLaws K src dst}.

(** What the calls never do. *)
Definition later (k k' : K) : Prop := (interrupts k' ≤ interrupts k)%nat ∧ (errors k ≤ errors k')%nat.

Lemma safe_write_ok fuel buf k : buf ≠ [] → (interrupts k < fuel)%nat →
  ∃ n k', safe_write fuel dst buf k = Ok (n, k') ∧ rest k' = rest k ∧ later k k' ∧
    if n <? 0 then out k' = out k ∧ (errors k < errors k')%nat
    else 0 < n ≤ Z.of_nat (length buf) ∧ out k' = out k ++ take (Z.to_nat n) buf.
Proof.
  intros Hb. revert k. induction fuel as [|fuel IH]; intros k Hf; [lia|].
  destruct (sys_write dst buf k) as [[n e] k'] eqn:E. pose proof (write_law buf k n e k' E Hb) as L.
  cbn [safe_write]. unfold call, mbind, M_bind. rewrite E.
  destruct (n <? 0) eqn:En; cbn [andb].
  - destruct L as (L1 & L2 & L3). destruct (e =? EINTR).
    + destruct (IH k') as (m & k2 & E2 & R2 & [J1 J2] & Q2); [lia|]. exists m, k2.
      split; [done|]. split; [congruence|]. split; [split; lia|].
      destruct (m <? 0); [destruct Q2; split; [congruence|lia]|]. destruct Q2 as [? Q2]. split; [done|]. by rewrite Q2, L2.
    + exists n, k'. rewrite En. split; [done|]. split; [done|]. split; [split; lia|]. split; [done|lia].
  - destruct L as (L1 & L2 & L3 & L4 & L5). exists n, k'. rewrite En. split; [done|]. split; [done|]. split; [split; lia|]. done.
Qed.

Lemma full_write_loop_ok fuel n buf total k : (interrupts k < fuel)%nat → (length buf ≤ n)%nat → 0 ≤ total →
  ∃ r p k', full_write_loop fuel n dst buf total k = Ok (r, k') ∧ rest k' = rest k ∧ later k k' ∧
    out k' = out k ++ p ∧ p `prefix_of` buf ∧
    (r = total + Z.of_nat (length p) ∧ p = buf ∨
     r < total + Z.of_nat (length buf) ∧ (errors k < errors k')%nat).
Proof.
  revert buf total k. induction n as [|n IH]; intros buf total k Hi Hl Ht.
  - destruct buf; [|simpl in Hl; lia]. exists total, [], k. cbn [full_write_loop]. rewrite app_nil_r.
    split; [done|]. split; [done|]. split; [split; lia|]. split; [done|]. split; [done|]. left. simpl. split; [lia|done].
  - destruct (decide (buf = [])) as [->|Hb].
    { exists total, [], k. cbn [full_write_loop]. rewrite app_nil_r.
      split; [done|]. split; [done|]. split; [split; lia|]. split; [done|]. split; [done|]. left. simpl. split; [lia|done]. }
    destruct (safe_write_ok fuel buf k Hb Hi) as (cc & k1 & E1 & R1 & [I1 J1] & Q1).
    assert (full_write_loop fuel (S n) dst buf total k =
      (if cc <? 0 then mret (if total =? 0 then cc else total)
       else full_write_loop fuel n dst (drop (Z.to_nat cc) buf) (total + cc)) k1) as ->.
    { destruct buf; [done|]. cbn [full_write_loop]. by rewrite (bind_ok _ _ _ _ _ E1). }
    assert (0 < length buf)%nat by (destruct buf; [done|simpl; lia]).
    destruct (Z.ltb_spec cc 0) as [Hc|Hc].
    + destruct Q1 as [O1 L1]. eexists _, [], k1. split; [done|]. rewrite app_nil_r. split; [done|]. split; [split; lia|].
      split; [done|]. split; [apply prefix_nil|]. right. split; [|done]. destruct (Z.eqb_spec total 0); lia.
    + destruct Q1 as [B1 O1].
      destruct (IH (drop (Z.to_nat cc) buf) (total + cc) k1) as (r & p & k2 & E2 & R2 & [I2 J2] & O2 & P2 & Q2).
      { lia. } { rewrite length_drop. lia. } { lia. }
      exists r, (take (Z.to_nat cc) buf ++ p), k2. split; [done|]. split; [congruence|]. split; [split; lia|].
      split; [by rewrite O2, O1, app_assoc|]. rewrite length_app, length_take, length_drop in *.
      split; [destruct P2 as [q Hq]; exists q; by rewrite <- app_assoc, <- Hq, take_drop|].
      destruct Q2 as [[Q2 ->]|[Q2 Q3]]; [left|right].
      * split; [lia|apply take_drop].
      * split; lia.
Qed.

Lemma full_write_ok fuel buf k : (interrupts k < fuel)%nat → (length buf ≤ fuel)%nat →
  ∃ r p k', full_write fuel dst buf k = Ok (r, k') ∧ rest k' = rest k ∧ later k k' ∧
    out k' = out k ++ p ∧ p `prefix_of` buf ∧
    (r = Z.of_nat (length buf) ∧ p = buf ∨ r < Z.of_nat (length buf) ∧ (errors k < errors k')%nat).
Proof.
  intros Hi Hl. destruct (full_write_loop_ok fuel fuel buf 0 k Hi Hl) as (r & p & k' & E & R & L & O & P & Q); [lia|].
  exists r, p, k'. split; [done|]. do 4 (split; [done|]). destruct Q as [[Q ->]|[Q ?]]; [left|right]; split; done || lia.
Qed.

Lemma safe_read_ok fuel count k : 0 < count → (interrupts k < fuel)%nat →
  ∃ n b k', safe_read fuel src count k = Ok (n, b, k') ∧ out k' = out k ∧ later k k' ∧
    rest k = b ++ rest k' ∧ Z.of_nat (length b) ≤ count ∧
    if n <? 0 then b = [] ∧ (errors k < errors k')%nat
    else n = Z.of_nat (length b) ∧ (b = [] → rest k = []).
Proof.
  intros Hc. revert k. induction fuel as [|fuel IH]; intros k Hf; [lia|].
  destruct (sys_read src count k) as [[[n b] e] k'] eqn:E. pose proof (read_law count k n b e k' E Hc) as L.
  cbn [safe_read]. unfold call, mbind, M_bind. rewrite E.
  destruct (n <? 0) eqn:En; cbn [andb].
  - destruct L as (-> & L1 & L2 & L3). destruct (e =? EINTR).
    + destruct (IH k') as (m & b & k2 & E2 & O2 & [J1 J2] & R2 & B2 & Q2); [lia|]. exists m, b, k2.
      split; [done|]. split; [congruence|]. split; [split; lia|]. split; [congruence|]. split; [done|].
      destruct (m <? 0); [destruct Q2; split; [done|lia]|]. destruct Q2 as [? Q2]. split; [done|]. by rewrite <- L1.
    + exists n, [], k'. rewrite En. split; [done|]. split; [done|]. split; [split; lia|]. split; [by rewrite L1|].
      split; [simpl; lia|]. split; [done|lia].
  - destruct L as (L1 & L2 & L3 & L4 & L5 & L6 & L7). exists n, b, k'. rewrite En. split; [done|]. split; [done|].
    split; [split; lia|]. split; [done|]. split; [lia|]. done.
Qed.

(** *** A round *)
Lemma fetch_ok fuel d size sf k : (sf = 0 ∨ sf = SENDFILE_BIGBUF ∧ d = dst) → 0 < size → (interrupts k < fuel)%nat →
  ∃ rd buf sf' b k', fetch fuel src d size sf k = Ok (rd, buf, sf', k') ∧ later k k' ∧
    rest k = b ++ rest k' ∧ Z.of_nat (length b) ≤ size ∧
    if rd <? 0 then b = [] ∧ out k' = out k ∧ (errors k < errors k')%nat
    else rd = Z.of_nat (length b) ∧ (b = [] → rest k = []) ∧
      (sf' = 0 ∧ buf = b ∧ out k' = out k ∨ sf' = SENDFILE_BIGBUF ∧ d = dst ∧ out k' = out k ++ b).
Proof.
  intros Hsf Hs Hi.
  assert (∀ k1, later k k1 → rest k1 = rest k → out k1 = out k → ∃ rd b k',
    (r ← safe_read fuel src (if buffer_size <? size then buffer_size else size);
     b ← into_buffer r.2; mret (r.1, b, 0)) k1 = Ok (rd, b, 0, k') ∧ later k k' ∧
    rest k = b ++ rest k' ∧ Z.of_nat (length b) ≤ size ∧
    if rd <? 0 then b = [] ∧ out k' = out k ∧ (errors k < errors k')%nat
    else rd = Z.of_nat (length b) ∧ (b = [] → rest k = []) ∧ out k' = out k) as Hread.
  { intros k1 [I1 J1] R1 O1. set (c := if buffer_size <? size then buffer_size else size).
    assert (0 < c ∧ c ≤ size ∧ c ≤ buffer_size) as Hc by (unfold c; destruct (Z.ltb_spec buffer_size size); unfold buffer_size, CONFIG_FEATURE_COPYBUF_KB in *; lia).
    destruct (safe_read_ok fuel c k1) as (n & b & k' & E & O & [I2 J2] & R & B & Q); [lia|lia|].
    exists n, b, k'. rewrite (bind_ok _ _ _ _ _ E). unfold into_buffer. cbn [fst snd].
    rewrite (proj2 (Z.leb_le _ _)) by lia. split; [done|]. split; [split; lia|]. split; [congruence|]. split; [lia|].
    destruct (n <? 0); [destruct Q; split; [done|]; split; [congruence|lia]|].
    destruct Q as [? Q]. split; [done|]. split; [|congruence]. by rewrite <- R1. }
  unfold fetch. destruct Hsf as [->|[-> ->]].
  - destruct (Hread k) as (rd & b & k' & E & L & R & B & Q); [split; lia|done|done|].
    exists rd, b, 0, b, k'. cbn [Z.eqb]. rewrite (bind_ok _ _ _ _ _ (ret_ok (-1) k)).
    split; [exact E|]. do 3 (split; [done|]). destruct (rd <? 0); [done|]. destruct Q as (? & ? & ?). by repeat split; auto.
  - cbn [Z.eqb]. replace (SENDFILE_BIGBUF =? 0) with false by done. set (c := if SENDFILE_BIGBUF <? size then SENDFILE_BIGBUF else size).
    assert (0 < c ∧ c ≤ size) as Hc by (unfold c; destruct (Z.ltb_spec SENDFILE_BIGBUF size); unfold SENDFILE_BIGBUF in *; lia).
    destruct (sys_sendfile dst src c k) as [n k1] eqn:E. destruct (sendfile_law c k n k1 E) as (I1 & J1 & Q1); [lia|].
    assert (call (sys_sendfile dst src c) k = Ok (n, k1)) as E' by (unfold call; by rewrite E).
    rewrite (bind_ok _ _ _ _ _ E'). destruct (Z.ltb_spec n 0) as [Hn|Hn].
    + rewrite (proj2 (Z.leb_gt _ _)) by lia. destruct Q1 as [R1 O1].
      destruct (Hread k1) as (rd & b & k' & E2 & L & R & B & Q); [split; lia|done|done|].
      exists rd, b, 0, b, k'. split; [exact E2|]. do 3 (split; [done|]). destruct (rd <? 0); [done|].
      destruct Q as (? & ? & ?). by repeat split; auto.
    + rewrite (proj2 (Z.leb_le _ _)) by lia. destruct Q1 as (b & Q1 & Q2 & Q3 & Q4 & Q5).
      exists n, [], SENDFILE_BIGBUF, b, k1. split; [done|]. split; [split; lia|]. split; [done|]. split; [lia|].
      rewrite (proj2 (Z.ltb_ge _ _)) by lia. split; [done|]. split; [done|]. right. done.
Qed.

Hypothesis dst_ok : 0 ≤ dst.

(** The descriptor is the destination, or -1 after a failed write that is
    ignored. *)
Definition live (d sf : Z) : Prop := d = dst ∨ d = -1 ∧ sf = 0.

(** Where the bytes of a round go. *)
Lemma deliver_ok fuel d sf buf b k k1 : live d sf →
  (sf = 0 ∧ buf = b ∧ out k1 = out k ∨ sf = SENDFILE_BIGBUF ∧ d = dst ∧ out k1 = out k ++ b) →
  (interrupts k1 < fuel)%nat → (length b ≤ fuel)%nat →
  ∃ wr k2, (if (0 <=? d) && (sf =? 0) then full_write fuel d buf else mret (Z.of_nat (length b))) k1 = Ok (wr, k2) ∧
    later k1 k2 ∧ rest k2 = rest k1 ∧
    (wr = Z.of_nat (length b) ∧ out k2 = out k ++ (if decide (d = dst) then b else []) ∨
     wr < Z.of_nat (length b) ∧ d = dst ∧ (errors k1 < errors k2)%nat ∧ ∃ p, p `prefix_of` b ∧ out k2 = out k ++ p).
Proof.
  intros Hd Hb Hi Hl. destruct Hb as [(-> & -> & O1)|(-> & -> & O1)].
  - rewrite andb_true_r. destruct Hd as [->|[-> _]].
    + rewrite (proj2 (Z.leb_le _ _) dst_ok). rewrite decide_True by done.
      destruct (full_write_ok fuel b k1 Hi Hl) as (wr & p & k2 & E & R & L & O & P & Q).
      exists wr, k2. split; [done|]. split; [done|]. split; [done|]. rewrite <- O1.
      destruct Q as [[-> ->]|[Q1 Q2]]; [by left|right]. split; [done|]. split; [done|]. split; [done|]. by exists p.
    + rewrite decide_False by lia. exists (Z.of_nat (length b)), k1. split; [done|]. split; [split; lia|]. split; [done|].
      left. by rewrite app_nil_r.
  - replace (SENDFILE_BIGBUF =? 0) with false by done. rewrite andb_false_r, decide_True by done.
    exists (Z.of_nat (length b)), k1. split; [done|]. split; [split; lia|]. split; [done|]. by left.
Qed.

(** *** The loop *)

(** What is still to be copied. *)
Definition want (status size : Z) (k : K) : arr := if status <? 0 then take (Z.to_nat size) (rest k) else rest k.

Lemma want_step status size b k k' : rest k = b ++ rest k' → Z.of_nat (length b) ≤ size →
  want status size k = b ++ want status (if status <? 0 then size - Z.of_nat (length b) else size) k'.
Proof.
  intros E Hb. unfold want. destruct (status <? 0); [|done]. rewrite E, take_app, take_ge by lia.
  by replace (Z.to_nat size - length b)%nat with (Z.to_nat (size - Z.of_nat (length b))) by lia.
Qed.

(** The bytes that reached the destination before an error. *)
Definition partly (w : arr) (k k' : K) : Prop :=
  (errors k < errors k')%nat ∧ ∃ p, p `prefix_of` w ∧ out k' = out k ++ p.

(** The result of the loop: all was copied, or all was read and a failed write
    ignored, or it stopped at an error. *)
Definition copied (cont : bool) (d status total : Z) (w : arr) (k : K) (st tot : Z) (k' : K) : Prop :=
  later k k' ∧ (d ≠ dst → out k' = out k) ∧
  (st = 0 ∧ tot = total + Z.of_nat (length w) ∧ rest k = w ++ rest k' ∧
     (d = dst → out k' = out k ++ w ∨ cont = true ∧ partly w k k') ∨
   st = status ∧ (errors k < errors k')%nat ∧ (d = dst → partly w k k')).

Definition round_ok (status size : Z) : Prop := status = -1 ∧ 0 < size ∨ status = 1 ∧ size = SENDFILE_BIGBUF.

Lemma partly_app b w k k2 k' : out k2 = out k ++ b → later k k2 → partly w k2 k' → partly (b ++ w) k k'.
Proof.
  intros E [_ J] [L (p & P & O)]. split; [lia|]. exists (b ++ p). split; [by apply prefix_app|]. by rewrite O, E, app_assoc.
Qed.

Lemma partly_stay b w k k2 k' : partly b k k2 → later k2 k' → out k' = out k2 → partly (b ++ w) k k'.
Proof.
  intros [L (p & P & O)] [_ J] E. split; [lia|]. exists p. split; [by apply prefix_app_r|]. by rewrite E.
Qed.

Lemma copied_step cont d d' status total b w k k2 st tot k' :
  later k k2 → rest k = b ++ rest k2 →
  (d' = d ∧ out k2 = out k ++ (if decide (d = dst) then b else []) ∨
   d = dst ∧ d' ≠ dst ∧ cont = true ∧ partly b k k2) →
  copied cont d' status (total + Z.of_nat (length b)) w k2 st tot k' →
  copied cont d status total (b ++ w) k st tot k'.
Proof.
  intros L R Hd (L' & Hdead & Q). pose proof L as [I1 J1]. pose proof L' as [I2 J2].
  split; [split; lia|]. rewrite length_app.
  destruct Hd as [[-> E]|(-> & Hd' & -> & Hp)].
  - split; [intros Hn; rewrite (Hdead Hn), E, decide_False by done; apply app_nil_r|].
    destruct Q as [(-> & -> & R2 & Q)|(-> & J & Q)]; [left|right].
    + split; [done|]. split; [lia|]. split; [by rewrite R, R2, app_assoc|]. intros Hx. rewrite decide_True in E by done.
      destruct (Q Hx) as [Q'|[? Q']]; [left; by rewrite Q', E, app_assoc|right; split; [done|]]. by apply (partly_app b w k k2).
    + split; [done|]. split; [lia|]. intros Hx. rewrite decide_True in E by done. apply (partly_app b w k k2 k' E L), Q, Hx.
  - split; [done|]. specialize (Hdead Hd'). pose proof (partly_stay b w k k2 k' Hp L' Hdead) as Hp'.
    destruct Q as [(-> & -> & R2 & _)|(-> & _ & _)]; [left|right].
    + split; [done|]. split; [lia|]. split; [by rewrite R, R2, app_assoc|]. by right.
    + split; [done|]. split; [apply Hp'|done].
Qed.

Definition loop_spec (fuel : nat) (cont : bool) (status : Z) (n : nat) : Prop := ∀ d size total sf k,
  round_ok status size → (sf = 0 ∨ sf = SENDFILE_BIGBUF ∧ d = dst) → live d sf →
  (interrupts k + length (rest k) < fuel)%nat → (length (want status size k) < n)%nat →
  ∃ st tot k', action_loop fuel n cont src d size status total sf k = Ok (st, tot, k') ∧
    copied cont d status total (want status size k) k st tot k'.

(** The end of a round that has copied [b]. *)
Lemma next_round fuel n cont status d d' size total sf b k k2 :
  loop_spec fuel cont status n → round_ok status size → later k k2 → rest k = b ++ rest k2 →
  (interrupts k + length (rest k) < fuel)%nat →
  let size' := if status <? 0 then size - Z.of_nat (length b) else size in
  Z.of_nat (length b) ≤ size → (length (want status size' k2) < n)%nat →
  (d' = d ∧ out k2 = out k ++ (if decide (d = dst) then b else []) ∨ d = dst ∧ d' ≠ dst ∧ cont = true ∧ partly b k k2) →
  (sf = 0 ∨ sf = SENDFILE_BIGBUF ∧ d' = dst) → live d' sf →
  ∃ st tot k',
    (if (status <? 0) && (size' =? 0) then mret (0, total + Z.of_nat (length b))
     else action_loop fuel n cont src d' size' status (total + Z.of_nat (length b)) sf) k2 = Ok (st, tot, k') ∧
    copied cont d status total (b ++ want status size' k2) k st tot k'.
Proof.
  intros IH Hr L R Hf size' Hb Hn Hd Hsf Hl. pose proof L as [I J].
  assert (length (rest k) = length b + length (rest k2))%nat as Hlen by (by rewrite R, length_app).
  destruct ((status <? 0) && (size' =? 0)) eqn:Ez.
  - apply andb_true_iff in Ez as [Ez1 Ez2%Z.eqb_eq]. eexists _, _, _. split; [done|].
    apply (copied_step cont d d' status total b _ k k2); [done..|].
    assert (want status size' k2 = []) as -> by (unfold want; by rewrite Ez1, Ez2).
    split; [split; lia|]. split; [done|]. left. simpl. split; [done|]. split; [lia|]. split; [done|]. left. by rewrite app_nil_r.
  - destruct (IH d' size' (total + Z.of_nat (length b)) sf k2) as (st & tot & k' & E3 & C3); [|done|done|lia|done|].
    + destruct Hr as [[-> ?]|[-> ->]]; [left|by right]. split; [done|]. subst size'. cbn [Z.ltb Z.compare andb] in *.
      apply Z.eqb_neq in Ez. lia.
    + exists st, tot, k'. split; [done|]. by apply (copied_step cont d d' status total b _ k k2).
Qed.

(** A read that failed, and the end of the source. *)
Lemma copied_error cont d status total w k k' : later k k' → out k' = out k → (errors k < errors k')%nat →
  copied cont d status total w k status total k'.
Proof.
  intros L O J. split; [done|]. split; [done|]. right. split; [done|]. split; [done|]. intros _. split; [done|].
  exists []. split; [apply prefix_nil|]. by rewrite app_nil_r.
Qed.

Lemma copied_eof cont d status total size k k' : later k k' → out k' = out k → rest k = [] → rest k' = [] →
  copied cont d status total (want status size k') k 0 total k'.
Proof.
  intros L O R R'. assert (want status size k' = []) as -> by (unfold want; rewrite R'; destruct (status <? 0); [apply take_nil|done]).
  split; [done|]. split; [done|]. left. rewrite app_nil_r, R, R'. simpl. split; [done|]. split; [lia|]. split; [done|]. by left.
Qed.

Lemma action_loop_ok fuel cont status n : loop_spec fuel cont status n.
Proof.
  induction n as [|n IH]; intros d size total sf k Hr Hsf Hd Hf Hn; [lia|].
  assert (0 < size) as Hs by (destruct Hr as [[_ ?]|[_ ->]]; [done|unfold SENDFILE_BIGBUF; lia]).
  destruct (fetch_ok fuel d size sf k Hsf Hs) as (rd & buf & sf' & b & k1 & E & L & R & B & Q); [lia|].
  cbn [action_loop]. rewrite (bind_ok _ _ _ _ _ E). destruct (rd <? 0) eqn:Erd.
  { destruct Q as (-> & O & J). eexists _, _, _. split; [done|]. by apply copied_error. }
  destruct Q as (-> & Hb & Q). rewrite (want_step status size b k k1 R B) in *.
  destruct (Z.eqb_spec (Z.of_nat (length b)) 0) as [Hz|Hz].
  { destruct b; [|simpl in Hz; lia]. specialize (Hb eq_refl). exists 0, total, k1. split; [done|].
    apply copied_eof; [done| |done|rewrite Hb in R; by destruct (rest k1)].
    destruct Q as [(_ & _ & ?)|(_ & _ & O)]; [done|by rewrite app_nil_r in O]. }
  pose proof L as [I1 J1]. assert (length (rest k) = length b + length (rest k1))%nat as Hlen by (by rewrite R, length_app).
  assert (live d sf') as Hd' by (destruct Q as [(-> & _)|(-> & -> & _)]; [destruct Hd as [?|[? _]]; [by left|by right]|by left]).
  destruct (deliver_ok fuel d sf' buf b k k1 Hd' Q) as (wr & k2 & E2 & [I2 J2] & R2 & Q2); [lia|lia|].
  rewrite (bind_ok _ _ _ _ _ E2). rewrite length_app in Hn.
  assert (∀ z, want status z k1 = want status z k2) as Hw by (intros z; unfold want; by rewrite R2). rewrite Hw in *.
  destruct Q2 as [[-> O2]|(Hlt & -> & J3 & Hp)].
  - rewrite Z.ltb_irrefl. cbn [andb]. apply next_round; [done|done|split; lia|by rewrite R, R2|done|done|lia|by left| |done].
    destruct Q as [(-> & _)|(-> & -> & _)]; [by left|by right].
  - rewrite (proj2 (Z.ltb_lt _ _) Hlt). cbn [andb]. assert (partly b k k2) as Hpart by (split; [lia|done]).
    assert (sf' = 0) as ->.
    { destruct Q as [(-> & _)|(-> & _ & _)]; [done|]. rewrite andb_false_r in E2. injection E2 as <- <-. lia. }
    destruct cont; cbn [negb].
    + apply next_round; [done|done|split; lia|by rewrite R, R2|done|done|lia|right; split; [done|split; [lia|done]]|by left|by right].
    + eexists _, _, _. split; [done|]. split; [split; lia|]. split; [done|]. right. split; [done|]. split; [lia|]. intros _.
      apply (partly_stay b _ k k2); [done|split; lia|done].
Qed.

(** ** The properties of the copy *)
Lemma full_fd_action_ok fuel size k : 0 ≤ src → (interrupts k + length (rest k) < fuel)%nat →
  let w := if size =? 0 then rest k else take (Z.to_nat (Z.abs size)) (rest k) in
  ∃ r k', bb_full_fd_action fuel src dst size k = Ok (r, k') ∧
    (r = Z.of_nat (length w) ∧ rest k = w ++ rest k' ∧ (out k' = out k ++ w ∨ size < 0 ∧ partly w k k') ∨
     r = -1 ∧ partly w k k').
Proof.
  intros Hs Hf w. unfold bb_full_fd_action. rewrite (proj2 (Z.ltb_ge _ _) Hs).
  assert (∀ status sz, round_ok status sz → want status sz k = w →
    ∃ r k', (r ← action_loop fuel fuel (size <? 0) src dst sz status 0 SENDFILE_BIGBUF;
      let '(status, total) := r in mret (if status =? 0 then total else -1)) k = Ok (r, k') ∧
    (r = Z.of_nat (length w) ∧ rest k = w ++ rest k' ∧ (out k' = out k ++ w ∨ size < 0 ∧ partly w k k') ∨
     r = -1 ∧ partly w k k')) as Hloop.
  { intros status sz Hr Hw.
    destruct (action_loop_ok fuel (size <? 0) status fuel dst sz 0 SENDFILE_BIGBUF k) as (st & tot & k' & E & _ & _ & Q); [done|by right|by left|done| |].
    { assert (length (want status sz k) ≤ length (rest k))%nat; [|lia]. unfold want. destruct (status <? 0); [rewrite length_take; lia|lia]. }
    rewrite (bind_ok _ _ _ _ _ E), Hw in *. eexists _, k'. split; [done|].
    destruct Q as [(-> & -> & R & O)|(-> & J & P)]; [left|right].
    - split; [done|]. split; [done|]. destruct (O eq_refl) as [?|[?%Z.ltb_lt ?]]; [by left|by right].
    - split; [|by apply P]. by destruct Hr as [[-> _]|[-> _]]. }
  unfold w in *. destruct (Z.eqb_spec size 0) as [->|Hz].
  - apply Hloop; [by right|done].
  - destruct (Z.eqb_spec (Z.abs size) 0) as [?|_]; [lia|]. apply Hloop; [left; lia|done].
Qed.
End copy.

(** C15: [bb_full_fd_action] ends, whatever calls are interrupted, cut short or
    refused, and returns the number of bytes it has copied, all that were
    asked for or were there (size 0 stands for all), or -1 after an error.
    Nothing is lost, repeated or reordered: after an error a part of these
    bytes from their start is in the destination, and with a negative size an
    error of the destination does not stop the reading. *)
Theorem bb_full_fd_action_correct {K} (src dst : Z) `{CopyLaws K src dst} fuel size k :
  0 ≤ src → 0 ≤ dst → (interrupts k + length (rest k) < fuel)%nat →
  let w := if size =? 0 then rest k else take (Z.to_nat (Z.abs size)) (rest k) in
  ∃ r k', bb_full_fd_action fuel src dst size k = Ok (r, k') ∧
    (r = Z.of_nat (length w) ∧ rest k = w ++ rest k' ∧ (out k' = out k ++ w ∨ size < 0 ∧ partly src dst w k k') ∨
     r = -1 ∧ partly src dst w k k').
Proof. intros Hs Hd Hf. by apply full_fd_action_ok. Qed.

(** ** copy_file *)
Section copy_file.
Context {K : Type} `{Files K}.

Lemma call_ok {A} (f : K → A * K) k a k' : f k = (a, k') → call f k = Ok (a, k').
Proof. unfold call. by intros ->. Qed.

Lemma preserve_ok dest st k : ∃ k', preserve_mode_ugid_time dest st k = Ok ((), k').
Proof.
  unfold preserve_mode_ugid_time, call, mbind, M_bind. destruct (sys_utimes _ _ _) as [? ?].
  destruct (sys_chown _ _ _ _) as [? ?]. destruct (sys_chmod _ _ _) as [? ?]. eauto.
Qed.

(** The two files can be copied: the source is a regular file, the destination
    is another file or does not exist. *)
Definition different (st : stat) (d : Z + stat) : Prop :=
  match d with inl e => e = ENOENT | inr t => same_file st t = false end.

Lemma copy_file_start fuel source dest flags st d k k1 k2 :
  sys_lstat source k = (inr st, k1) → sys_lstat dest k1 = (d, k2) → S_ISREG (st_mode st) → different st d →
  copy_file fuel source dest flags k = copy_regular fuel source dest st k2.
Proof.
  intros E1 E2 Hreg Hd. unfold copy_file.
  rewrite (bind_ok _ _ _ _ _ (call_ok _ _ _ _ E1)), (bind_ok _ _ _ _ _ (call_ok _ _ _ _ E2)).
  rewrite (proj1 (Is_true_true _) Hreg). destruct d as [e|t]; simpl in Hd; [by rewrite Hd|by rewrite Hd].
Qed.
End copy_file.

(** [copy_file] of a regular file to another one, both of which can be
    opened, returns 0 only if the destination received all bytes of the source
    and could be closed; otherwise it returns -1, and it does so only after
    an error of a read, a write or the closing. *)
Theorem copy_file_correct {K} (src dst : Z) `{CopyLaws K src dst} fuel source dest flags st d k k1 k2 k3 k4 :
  sys_lstat source k = (inr st, k1) → sys_lstat dest k1 = (d, k2) → S_ISREG (st_mode st) → different st d →
  sys_open source O_RDONLY 0x1B6 k2 = (src, k3) → 0 ≤ src →
  sys_open dest (Z.lor O_WRONLY (Z.lor O_CREAT O_TRUNC)) (st_mode st) k3 = (dst, k4) → 0 ≤ dst →
  (interrupts k4 + length (rest k4) < fuel)%nat →
  ∃ r k5 c k6 k', copy_file fuel source dest flags k = Ok (r, k') ∧ sys_close dst k5 = (c, k6) ∧
    (r = 0 ∧ 0 ≤ c ∧ out k5 = out k4 ++ rest k4 ∨
     r = -1 ∧ (c < 0 ∨ (errors k4 < errors k5)%nat) ∧ ∃ p, p `prefix_of` rest k4 ∧ out k5 = out k4 ++ p).
Proof.
  intros E1 E2 Hreg Hd E3 Hs E4 Hdst Hf. rewrite (copy_file_start fuel source dest flags st d k k1 k2) by done.
  destruct (full_fd_action_ok src dst Hdst fuel 0 k4 Hs Hf) as (n & k5 & E5 & Q).
  destruct (sys_close dst k5) as [c k6] eqn:E6. destruct (sys_close src k6) as [c' k7] eqn:E7.
  destruct (preserve_ok dest st k7) as [k8 E8].
  exists (if (n =? -1) || (c <? 0) then -1 else 0), k5, c, k6, k8. split; [|split; [done|]].
  - unfold copy_regular. rewrite (bind_ok _ _ _ _ _ (call_ok _ _ _ _ E3)), (proj2 (Z.ltb_ge _ _) Hs).
    assert (open_dest dest (st_mode st) k3 = Ok (inr dst, k4)) as Eo.
    { unfold open_dest. rewrite (bind_ok _ _ _ _ _ (call_ok _ _ _ _ E4)). by rewrite (proj2 (Z.eqb_neq _ _)) by lia. }
    rewrite (bind_ok _ _ _ _ _ Eo). unfold bb_copyfd_eof. rewrite (bind_ok _ _ _ _ _ E5).
    rewrite (bind_ok _ _ _ _ _ (call_ok _ _ _ _ E6)), (bind_ok _ _ _ _ _ (call_ok _ _ _ _ E7)).
    by rewrite (bind_ok _ _ _ _ _ E8).
  - cbn [Z.eqb] in Q. destruct Q as [(-> & _ & [O|[? _]])|(-> & J & p & P & O)]; [|lia|].
    + rewrite (proj2 (Z.eqb_neq _ _)) by lia. cbn [orb]. destruct (Z.ltb_spec c 0) as [Hc|Hc]; [right|left; done].
      split; [done|]. split; [by left|]. by exists (rest k4).
    + right. split; [done|]. split; [by right|]. by exists p.
Qed.

(** if the destination cannot be opened but can be unlinked, [copy_file]
    removes it, copies nothing and returns 0, which stands for success.  And
    [remove_file] does not remove a file that may be written: it returns 0
    with the file in place. *)
Theorem copy_file_lost {K} `{Files K} fuel source dest flags st d k k1 k2 src k3 k4 k5 c k6 :
  sys_lstat source k = (inr st, k1) → sys_lstat dest k1 = (d, k2) → S_ISREG (st_mode st) → different st d →
  sys_open source O_RDONLY 0x1B6 k2 = (src, k3) → 0 ≤ src →
  sys_open dest (Z.lor O_WRONLY (Z.lor O_CREAT O_TRUNC)) (st_mode st) k3 = (-1, k4) →
  sys_unlink dest k4 = (0, k5) → sys_close src k5 = (c, k6) →
  copy_file fuel source dest flags k = Ok (0, k6) ∧
  (∀ k7 k8, sys_lstat source k6 = (inr st, k7) → sys_access source W_OK k7 = (0, k8) →
     remove_file source k6 = Ok (0, k8)).
Proof.
  intros E1 E2 Hreg Hd E3 Hs E4 E5 E6. split.
  - rewrite (copy_file_start fuel source dest flags st d k k1 k2) by done.
    unfold copy_regular. rewrite (bind_ok _ _ _ _ _ (call_ok _ _ _ _ E3)), (proj2 (Z.ltb_ge _ _) Hs).
    assert (open_dest dest (st_mode st) k3 = Ok (inl 0, k5)) as Eo.
    { unfold open_dest. rewrite (bind_ok _ _ _ _ _ (call_ok _ _ _ _ E4)), Z.eqb_refl.
      by rewrite (bind_ok _ _ _ _ _ (call_ok _ _ _ _ E5)). }
    rewrite (bind_ok _ _ _ _ _ Eo). by rewrite (bind_ok _ _ _ _ _ (call_ok _ _ _ _ E6)).
  - intros k7 k8 E7 E8. unfold remove_file. rewrite (bind_ok _ _ _ _ _ (call_ok _ _ _ _ E7)).
    assert (S_ISDIR (st_mode st) = false) as -> by (apply Is_true_true in Hreg; unfold S_ISREG, S_ISDIR in *; apply Z.eqb_eq in Hreg; by rewrite Hreg).
    by rewrite (bind_ok _ _ _ _ _ (call_ok _ _ _ _ E8)).
Qed.

(** *** A file system with two files

    The state is what is left of the source, what the destination has and
    whether the next write is interrupted.  [sendfile] is not supported and a
    write takes one byte. *)
Definition demo_stat : stat := mk_stat 1 7 0x81B4 0 0 0.

Definition demo_write (b : arr) (k : arr * arr * bool) : Z * Z * (arr * arr * bool) :=
  if k.2 then (-1, EINTR, (k.1, false)) else (1, 0, (k.1.1, k.1.2 ++ take 1 b, false)).
Definition demo_read (n : Z) (k : arr * arr * bool) : Z * arr * Z * (arr * arr * bool) :=
  let b := take (Z.to_nat n) k.1.1 in (Z.of_nat (length b), b, 0, (drop (Z.to_nat n) k.1.1, k.1.2, k.2)).

(** The path [[1]] is the source, [[2]] a destination that cannot be opened,
    other paths do not exist and can be created. *)
#[export] Instance demo_files : Files (arr * arr * bool) := {|
  sys_write fd b k := demo_write b k;
  sys_read fd n k := demo_read n k;
  sys_sendfile d s n k := (-1, k);
  sys_lstat p k := (if decide (p = [1]) then inr demo_stat else inl ENOENT, k);
  sys_open p f m k := (if decide (p = [1]) then 3 else if decide (p = [2]) then -1 else 4, k);
  sys_close fd k := (0, k);
  sys_unlink p k := (0, k);
  sys_utimes p t k := (0, k);
  sys_chown p u g k := (0, k);
  sys_chmod p m k := (0, k);
  sys_access p w k := (0, k);
  sys_isatty fd k := (1, k) |}.

#[export, refine] Instance demo_copy_laws : CopyLaws (arr * arr * bool) 3 4 :=
  {| rest := λ k : arr * arr * bool, k.1.1; out := λ k, k.1.2;
     interrupts := λ k, if k.2 then 1%nat else 0%nat; errors := λ _, 0%nat |}.
Proof.
  - intros b [[x y] []] n e k' E Hb; cbn in E; injection E as <- <- <-; cbn; [repeat split; lia|].
    split; [|repeat split; lia]. destruct b; [done|]. simpl. lia.
  - intros c [[x y] i] n b e k' E Hc; cbn in E; injection E as <- <- <- <-; cbn [fst snd].
    rewrite (proj2 (Z.ltb_ge _ _)) by lia. split; [done|]. split; [rewrite length_take; lia|].
    split; [by rewrite take_drop|]. split; [|repeat split; lia].
    intros Ht. destruct x; [done|]. by destruct (Z.to_nat c) eqn:Ec; [lia|].
  - intros c k n k' E Hc. cbn in E. injection E as <- <-. cbn. repeat split; lia.
Defined.

Definition demo_k : arr * arr * bool := ([5; 6; 7], [], true).

Lemma demo_fuel : (interrupts (src := 3) (dst := 4) demo_k + length (rest (src := 3) (dst := 4) demo_k) < 10)%nat.
Proof. cbv. lia. Qed.

Lemma bb_full_fd_action_correct_witness :
  ∃ r k', bb_full_fd_action 10 3 4 (-2) demo_k = Ok (r, k') ∧
    (r = 2 ∧ [5; 6; 7] = [5; 6] ++ rest k' ∧ (out k' = [5; 6] ∨ -2 < 0 ∧ partly 3 4 [5; 6] demo_k k') ∨
     r = -1 ∧ partly 3 4 [5; 6] demo_k k').
Proof. exact (bb_full_fd_action_correct 3 4 10 (-2) demo_k ltac:(lia) ltac:(lia) demo_fuel). Defined.

Lemma copy_file_correct_witness :
  ∃ r k5 c k6 k', copy_file 10 [1] [3] 0 demo_k = Ok (r, k') ∧ sys_close 4 k5 = (c, k6) ∧
    (r = 0 ∧ 0 ≤ c ∧ out k5 = [5; 6; 7] ∨
     r = -1 ∧ (c < 0 ∨ (0 < errors k5)%nat) ∧ ∃ p, p `prefix_of` [5; 6; 7] ∧ out k5 = [] ++ p).
Proof.
  exact (copy_file_correct 3 4 10 [1] [3] 0 demo_stat (inl ENOENT) demo_k demo_k demo_k demo_k demo_k
    eq_refl eq_refl I eq_refl eq_refl ltac:(lia) eq_refl ltac:(lia) demo_fuel).
Defined.

Lemma copy_file_lost_witness : copy_file 10 [1] [2] 0 demo_k = Ok (0, demo_k).
Proof.
  apply (copy_file_lost 10 [1] [2] 0 demo_stat (inl ENOENT) demo_k demo_k
    demo_k 3 demo_k demo_k demo_k 0 demo_k); try reflexivity; lia.
Defined.
