(* ===== verification/Dhcp.v ===== *)
(** * Addresses of stations (socket/libevent/client/dhcpinfo.c, client.c and
    socket/libevent/server/lemongateway.c)

    A client sends the MAC addresses of its stations to a server as a JSON
    text; the server looks them up in the file of DHCP leases and answers with
    the IP addresses, which the client takes over.  The two sides share
    dhcpinfo.c.  The library json-c is a parameter as in Json.v.  Files and bodies of HTTP
    messages are lists of bytes.  malloc and strdup succeed. *)
From Stdlib Require Import String.
From S2P Require Import Prelude CArr CBuf CInt Hosts Json JsonLib.

(** ** dhcpinfo.h *)
Definition SUCCESS : Z := 0.
Definition ERROR_EMPTY_BUFFER : Z := -1.
Definition ERROR_PARSER_JSON : Z := -2.
Definition MAC_LENGTH : Z := 18.
Definition IP_LENGTH : Z := 16.
Definition CMD_LENGTH : Z := 32.
Definition MAX_USER : nat := 64.

Record dhcp := mk_dhcp { mac : arr; ip : arr }.
Record dhcp_pair := mk_pair { ap_mac : arr; cmd : arr; value : list dhcp; pair_length : Z }.

Definition zero_pair : dhcp_pair := mk_pair [] [] (replicate MAX_USER (mk_dhcp [] [])) 0.

Definition set_ap_mac s p := mk_pair s (cmd p) (value p) (pair_length p).
Definition set_cmd s p := mk_pair (ap_mac p) s (value p) (pair_length p).
Definition set_value l p := mk_pair (ap_mac p) (cmd p) l (pair_length p).
Definition set_length n p := mk_pair (ap_mac p) (cmd p) (value p) n.

(** ** Strings *)

(** [snprintf(dst, n, "%s", s)]: what does not fit is cut off. *)
Definition snprintf_s (n : Z) (s : option arr) : res arr :=
  match s with Some s => Ok (take (Z.to_nat (n - 1)) s) | None => Err Segv end.

(** [memcpy(dst, s, len); dst[len] = 0] for an array of [n] characters. *)
Definition copy_len (n : Z) (s : option arr) (len : Z) : res arr :=
  if negb ((0 <=? len) && (len <? n)) then Err Segv
  else
    match s with
    | Some s => if len <=? Z.of_nat (length s) then Ok (until_nul (take (Z.to_nat len) s)) else Err Segv
    | None => if len =? 0 then Ok [] else Err Segv
    end.

(** An assignment to [pair->value[i]]. *)
Definition on_value (i : Z) (f : dhcp → res dhcp) : M dhcp_pair unit := λ p,
  match slot (value p) i with
  | Err e => Err e
  | Ok d => match f d with Ok d => Ok ((), set_value (<[Z.to_nat i := d]> (value p)) p) | Err e => Err e end
  end.

Definition put_mac (s : option arr) (d : dhcp) : res dhcp :=
  match snprintf_s MAC_LENGTH s with Ok t => Ok (mk_dhcp t (ip d)) | Err e => Err e end.
Definition put_ip (s : option arr) (d : dhcp) : res dhcp :=
  match snprintf_s IP_LENGTH s with Ok t => Ok (mk_dhcp (mac d) t) | Err e => Err e end.

(** ** dhcpinfo.c: the JSON texts *)
Section json.
Context {J : Type} `{JsonC J} `{JsonBuild J}.

(** The members [cmd] and [ap_mac], which both kinds of text have. *)
Definition parse_head (jso : option J) : M dhcp_pair unit :=
  member jso "cmd" (λ v,
    t ← lift (copy_len CMD_LENGTH (json_object_get_string v) (json_object_get_string_len v));
    modify (set_cmd t));;
  member jso "ap_mac" (λ v,
    t ← lift (copy_len MAC_LENGTH (json_object_get_string v) (json_object_get_string_len v));
    modify (set_ap_mac t)).

Definition parse_length (json_mac : option J) : M dhcp_pair unit :=
  let type := json_object_get_type json_mac in
  if decide (type = json_type_array) then modify (set_length (s32 (json_object_array_length json_mac)))
  else if decide (type = json_type_object) then modify (set_length 1)
  else mret ().

(** The loop over the elements of the array. *)
Definition parse_each (json_mac : option J) (body : Z → option J → M dhcp_pair unit) : M dhcp_pair unit :=
  parse_length json_mac;;
  n ← gets pair_length;
  for_ (Z.to_nat n) 0 (λ i, obj ← lift (json_object_array_get_idx json_mac i); body i obj).

Definition parse_request_json (jsonstr : option arr) : M dhcp_pair Z :=
  match jsonstr with
  | None => mret ERROR_EMPTY_BUFFER
  | Some text =>
      match json_tokener_parse text with
      | None => mret ERROR_PARSER_JSON
      | Some jso =>
          parse_head (Some jso);;
          member (Some jso) "mac" (λ v, parse_each v (λ i obj, on_value i (put_mac (json_object_get_string obj))));;
          mret SUCCESS
      end
  end.

Definition parse_pair (i : Z) (obj : option J) : M dhcp_pair unit :=
  member obj "mac" (λ v, on_value i (put_mac (json_object_get_string v)));;
  member obj "ip" (λ v, on_value i (put_ip (json_object_get_string v))).

Definition parse_response_json (jsonstr : option arr) : M dhcp_pair Z :=
  match jsonstr with
  | None => mret ERROR_EMPTY_BUFFER
  | Some text =>
      match json_tokener_parse text with
      | None => mret ERROR_PARSER_JSON
      | Some jso =>
          parse_head (Some jso);;
          member (Some jso) "pair" (λ v, parse_each v parse_pair);;
          mret SUCCESS
      end
  end.

Definition form_head (p : dhcp_pair) : J :=
  json_object_object_add
    (json_object_object_add json_object_new_object (chars "ap_mac") (json_object_new_string (ap_mac p)))
    (chars "cmd") (json_object_new_string (cmd p)).

(** The loop that builds the array: [item] is what is added for an element. *)
Definition form_array (item : dhcp → J) (l : list dhcp) : J :=
  foldl (λ a d, json_object_array_add a (item d)) json_object_new_array l.

Definition form_pair (d : dhcp) : J :=
  json_object_object_add
    (json_object_object_add json_object_new_object (chars "mac") (json_object_new_string (mac d)))
    (chars "ip") (json_object_new_string (ip d)).

Definition form_json (key : string) (item : dhcp → J) (p : dhcp_pair) : res arr :=
  match read_first (value p) (pair_length p) with
  | Err e => Err e
  | Ok l =>
      let jso := form_head p in
      let jso := if 0 <? Z.of_nat (length l) then json_object_object_add jso (chars key) (form_array item l) else jso in
      Ok (json_object_to_json_string (Some jso))
  end.

Definition form_response_json : dhcp_pair → res arr := form_json "pair" form_pair.
Definition form_request_json : dhcp_pair → res arr := form_json "mac" (λ d, json_object_new_string (mac d)).

(** ** dhcpinfo.c: the leases *)

(** The directives of [fscanf]: white space, [%s], and a set of characters with
    a width. *)
Fixpoint skip_space (f : arr) : arr :=
  match f with c :: f' => if isspace c then skip_space f' else f | [] => [] end.

Fixpoint span (n : nat) (set : Z → bool) (f : arr) : arr * arr :=
  match n, f with
  | S n, c :: f' => if set c then let '(l, r) := span n set f' in (c :: l, r) else ([], f)
  | _, _ => ([], f)
  end.

Definition scan_set (n : nat) (set : Z → bool) (f : arr) : option (arr * arr) :=
  match span n set f with ([], _) => None | r => Some r end.

Definition scan_word (f : arr) : option (arr * arr) :=
  let f := skip_space f in scan_set (length f) (λ c, negb (isspace c)) f.

Definition is_mac_char (c : Z) : bool :=
  ((65 <=? c) && (c <=? 70)) || ((97 <=? c) && (c <=? 102)) || ((48 <=? c) && (c <=? 57)) || (c =? 58).
Definition is_ip_char (c : Z) : bool := ((48 <=? c) && (c <=? 57)) || (c =? 46).
Definition NAME_SIZE : Z := 512.

(** The format of a lease: the addresses and the rest of the file if all
    three conversions were made. *)
Definition scan_lease (f : arr) : res (option (arr * arr * arr)) :=
  match scan_word f with
  | None => Ok None
  | Some (_, f) =>
      match scan_set 17 is_mac_char (skip_space f) with
      | None => Ok None
      | Some (m, f) =>
          match scan_set 15 is_ip_char (skip_space f) with
          | None => Ok None
          | Some (i, f) =>
              match scan_word f with
              | None => Ok None
              | Some (name, f) =>
                  if fits NAME_SIZE name
                  then Ok (Some (m, i, match scan_word f with Some (_, f) => f | None => [] end))
                  else Err Segv
              end
          end
      end
  end.

(** The search for the MAC address of a lease. *)
Fixpoint set_lease (n : nat) (i : Z) (m a : arr) : M dhcp_pair unit := λ p,
  match n with
  | O => Ok ((), p)
  | S n =>
      match slot (value p) i with
      | Err e => Err e
      | Ok d => if decide (mac d = m) then on_value i (put_ip (Some a)) p else set_lease n (i + 1) m a p
      end
  end.

Fixpoint leases_loop (fuel : nat) (f : arr) : M dhcp_pair unit :=
  match fuel with
  | O => fail Fuel
  | S fuel =>
      r ← lift (scan_lease f);
      match r with
      | None => mret ()
      | Some (m, a, f) => n ← gets pair_length; set_lease (Z.to_nat n) 0 m a;; leases_loop fuel f
      end
  end.

Definition dhcp_leases_get (file : option arr) : M dhcp_pair unit :=
  match file with None => mret () | Some f => leases_loop (S (length f)) f end.

(** ** lemongateway.c *)

(** The reply to a request with this body, if there is one. *)
Definition httpserver_process_request (leases : option arr) (body : arr) : res (option arr) :=
  if Z.of_nat (length body) <=? 0 then Ok None
  else
    match (_ ← parse_request_json (Some (until_nul body)); dhcp_leases_get leases) zero_pair with
    | Err e => Err e
    | Ok (_, p) =>
        if pair_length p =? 0 then Ok None
        else match form_response_json p with Ok t => Ok (Some t) | Err e => Err e end
    end.

(** ** client.c *)
Definition BUFF_SIZE : nat := 256.

(** The string [sscanf] leaves in [m] for a line, whose result is never 0. *)
Definition scan_station (m line : arr) : res arr :=
  match scan_word line with
  | None => Ok m
  | Some (_, r) =>
      match scan_word r with
      | None => Ok m
      | Some (w, _) => if fits MAC_LENGTH w then Ok w else Err Segv
      end
  end.

Fixpoint stations_loop (fuel : nat) (i : Z) (m f : arr) : M dhcp_pair unit :=
  match fuel with
  | O => fail Fuel
  | S fuel =>
      match f with
      | [] => mret ()
      | _ =>
          let '(l, f) := fgets (BUFF_SIZE - 1) f in
          m ← lift (scan_station m (until_nul l));
          on_value i (put_mac (Some m));;
          modify (set_length (i + 1));;
          stations_loop fuel (i + 1) m f
      end
  end.

Definition read_wlan_client (file : option arr) : M dhcp_pair unit :=
  match file with None => mret () | Some f => stations_loop (S (length f)) 0 [] f end.

Definition CRLF2 : arr := [13; 10; 13; 10].

(** What [network_status] does with the response, a string. *)
Definition take_response (response : arr) : M dhcp_pair unit :=
  match strstr response CRLF2 with
  | Some n => _ ← parse_response_json (Some (drop (n + length CRLF2) response)); mret ()
  | None => mret ()
  end.
End json.

(** ** The structure *)
Definition text_fits (n : Z) (s : arr) : Prop := ascii s ∧ fits n s.

Record wf_pair (p : dhcp_pair) : Prop := {
  wf_ap_mac : text_fits MAC_LENGTH (ap_mac p);
  wf_cmd : text_fits CMD_LENGTH (cmd p);
  wf_value : length (value p) = MAX_USER;
  wf_each : Forall (λ d, text_fits MAC_LENGTH (mac d) ∧ text_fits IP_LENGTH (ip d)) (value p);
  wf_length : 0 ≤ pair_length p ≤ Z.of_nat MAX_USER }.

Definition used (p : dhcp_pair) : list dhcp := take (Z.to_nat (pair_length p)) (value p).
Definition unused (p : dhcp_pair) : list dhcp := drop (Z.to_nat (pair_length p)) (value p).

Lemma ascii_no_nul s : ascii s → no_nul s.
Proof.
  intros H%Is_true_true. apply Forall_forall. intros c Hc%list_elem_of_In. unfold ascii in H. rewrite forallb_forall in H.
  specialize (H c Hc). apply andb_true_iff in H as [H%Z.leb_le _]. lia.
Qed.

Lemma fits_take n s : fits n s → take (Z.to_nat (n - 1)) s = s.
Proof. unfold fits. intros H%Is_true_true%Z.ltb_lt. apply take_ge. lia. Qed.

Lemma snprintf_fits n s : fits n s → snprintf_s n (Some s) = Ok s.
Proof. intros H. unfold snprintf_s. by rewrite fits_take. Qed.

Lemma copy_len_fits n s : text_fits n s → copy_len n (Some s) (Z.of_nat (length s)) = Ok s.
Proof.
  intros [Ha Hf]. unfold copy_len. unfold fits in Hf. apply Is_true_true in Hf. rewrite Hf.
  rewrite (proj2 (Z.leb_le 0 _)) by lia. cbn [andb negb]. rewrite Z.leb_refl, Nat2Z.id, firstn_all.
  by rewrite until_nul_id by (by apply ascii_no_nul).
Qed.

Lemma used_length p : wf_pair p → Z.of_nat (length (used p)) = pair_length p.
Proof. intros [_ _ H1 _ H2]. unfold used. rewrite length_take. lia. Qed.

Lemma used_wf p : wf_pair p → Forall (λ d, text_fits MAC_LENGTH (mac d) ∧ text_fits IP_LENGTH (ip d)) (used p).
Proof. intros H. by apply Forall_take, wf_each. Qed.

Lemma read_used p : wf_pair p → read_first (value p) (pair_length p) = Ok (used p).
Proof. intros [_ _ H1 _ H2]. unfold read_first. by rewrite (proj2 (Z.leb_le _ _)) by lia. Qed.

Section correct.
Context {J : Type} `{JsonBuildLaws J}.

(** ** Texts that are formed *)
Definition head_value (p : dhcp_pair) : list (arr * json) :=
  [(chars "ap_mac", JString (ap_mac p)); (chars "cmd", JString (cmd p))].

Lemma form_head_view p : wf_pair p → view (Some (form_head p)) = JObject (head_value p).
Proof.
  intros Hp. destruct (wf_ap_mac _ Hp) as [A1 _]. destruct (wf_cmd _ Hp) as [A2 _]. apply ascii_no_nul in A1, A2.
  unfold form_head. erewrite object_add_law; [|erewrite object_add_law; [reflexivity|apply new_object_law|done]|reflexivity].
  by rewrite !new_string_law.
Qed.

Lemma form_pair_view d : no_nul (mac d) → no_nul (ip d) →
  view (Some (form_pair d)) = JObject [(chars "mac", JString (mac d)); (chars "ip", JString (ip d))].
Proof.
  intros H1' H2'. unfold form_pair. erewrite object_add_law; [|erewrite object_add_law; [reflexivity|apply new_object_law|done]|reflexivity].
  by rewrite !new_string_law.
Qed.

Lemma form_array_view (item : dhcp → J) (val : dhcp → json) l :
  Forall (λ d, view (Some (item d)) = val d) l → view (Some (form_array item l)) = JArray (val <$> l).
Proof.
  intros Hl. unfold form_array. change (val <$> l) with ([] ++ (val <$> l)).
  pose proof new_array_law as E. revert E. generalize json_object_new_array, (@nil json).
  induction Hl as [|d l Hd Hl IH]; intros a ys E; cbn [foldl]; [by rewrite app_nil_r|].
  rewrite (IH _ (ys ++ [val d])); [by rewrite <- app_assoc|]. by rewrite (array_add_law _ _ ys E), Hd.
Qed.

Lemma form_json_ok key item val p :
  wf_pair p → 0 < pair_length p → Forall (λ d, view (Some (item d)) = val d ∧ printable (val d)) (used p) →
  ascii (chars key) → chars key ∉ fst <$> head_value p →
  ∃ t o, form_json key item p = Ok t ∧ t ≠ [] ∧ no_nul t ∧ json_tokener_parse t = Some o ∧
    view (Some o) = JObject (head_value p ++ [(chars key, JArray (val <$> used p))]).
Proof.
  intros Hp Hl Hi Hk Hn. unfold form_json. rewrite read_used, used_length by done.
  rewrite (proj2 (Z.ltb_lt _ _) Hl). set (o := json_object_object_add _ _ _).
  assert (view (Some o) = JObject (head_value p ++ [(chars key, JArray (val <$> used p))])) as Ho.
  { unfold o. rewrite (object_add_law _ _ _ (head_value p)); [|by apply form_head_view|].
    - rewrite (form_array_view item val); [done|]. eapply Forall_impl; [exact Hi|]. by intros d [? _].
    - unfold head_value in *. cbn [assoc fmap list_fmap fst] in *. rewrite !not_elem_of_cons in Hn. destruct Hn as (N1 & N2 & _).
      by rewrite !decide_False by done. }
  destruct (parse_print_law o) as (o' & E & V).
  { rewrite Ho. destruct (wf_ap_mac _ Hp) as [A1 _]. destruct (wf_cmd _ Hp) as [A2 _].
    apply Is_true_true in A1, A2, Hk. apply Is_true_true. cbn [printable head_value app forallb fst snd]. rewrite A1, A2, Hk.
    change (ascii (chars "ap_mac")) with true. change (ascii (chars "cmd")) with true. cbn [andb].
    rewrite andb_true_r. apply andb_true_iff. split; [|apply bool_decide_eq_true].
    - apply forallb_forall. intros j Hj%list_elem_of_In. apply list_elem_of_fmap in Hj as (d & -> & Hd).
      rewrite Forall_forall in Hi. by apply Is_true_true, Hi.
    - unfold head_value in *. cbn [fmap list_fmap fst app] in *. rewrite !not_elem_of_cons in Hn. destruct Hn as (N1 & N2 & _).
      repeat apply NoDup_cons_2; [| | |constructor]; rewrite ?not_elem_of_cons; repeat split; try done; apply not_elem_of_nil. }
  destruct (print_law (Some o)) as [T1 T2]. exists (json_object_to_json_string (Some o)), o'. by rewrite V, Ho.
Qed.

(** ** Parsing them again *)
Lemma parse_head_ok o ms a c q :
  view o = JObject ms → assoc (chars "cmd") ms = Some (JString c) → text_fits CMD_LENGTH c →
  assoc (chars "ap_mac") ms = Some (JString a) → text_fits MAC_LENGTH a →
  parse_head o q = Ok ((), set_ap_mac a (set_cmd c q)).
Proof.
  intros Ho Hc Fc Ha Fa. unfold parse_head.
  destruct (member_view o "cmd" ms _ (λ v, t ← lift (copy_len CMD_LENGTH (json_object_get_string v) (json_object_get_string_len v));
    modify (set_cmd t)) Ho Hc) as (vc & Ec & ->).
  destruct (member_view o "ap_mac" ms _ (λ v, t ← lift (copy_len MAC_LENGTH (json_object_get_string v) (json_object_get_string_len v));
    modify (set_ap_mac t)) Ho Ha) as (va & Ea & ->).
  rewrite (get_string_law vc c Ec), (get_string_law va a Ea), (get_string_len_law vc c Ec), (get_string_len_law va a Ea)
    by (by apply ascii_no_nul, Fc || apply ascii_no_nul, Fa).
  by rewrite !copy_len_fits.
Qed.

Lemma on_value_at i f l q :
  on_value (Z.of_nat i) f (set_value l q) =
    match l !! i with
    | Some d => match f d with Ok d => Ok ((), set_value (<[i := d]> l) q) | Err e => Err e end
    | None => Err Segv
    end.
Proof. unfold on_value. cbn [value set_value]. rewrite slot_at, Nat2Z.id. by destruct (l !! i). Qed.

Lemma parse_each_ok {X} v (val : X → json) (xs : list X) (g : X → dhcp → dhcp) body q :
  view v = JArray (val <$> xs) → (length xs ≤ MAX_USER)%nat → length (value q) = MAX_USER →
  (∀ i x obj l q', xs !! i = Some x → view obj = val x →
     body (Z.of_nat i) obj (set_value l q') =
       match l !! i with Some b => Ok ((), set_value (<[i := g x b]> l) q') | None => Err Segv end) →
  parse_each v body q = Ok ((), set_value (fill g xs (value q)) (set_length (Z.of_nat (length xs)) q)).
Proof.
  intros Hv Hl Hq Hb. unfold parse_each, parse_length. rewrite get_type_law, Hv. cbn [type_of]. rewrite decide_True by done.
  rewrite (array_length_law v _ Hv), length_fmap, s32_length by (unfold MAX_USER in *; lia).
  set (q1 := set_length (Z.of_nat (length xs)) q).
  assert (modify (set_length (Z.of_nat (length xs))) q = Ok ((), q1)) as E1 by done.
  rewrite (bind_ok _ _ _ _ _ E1). assert (gets pair_length q1 = Ok (Z.of_nat (length xs), q1)) as E2 by done.
  rewrite (bind_ok _ _ _ _ _ E2), Nat2Z.id.
  replace q1 with (set_value (value q) q1) at 1 by (by destruct q).
  rewrite (for_fill_all (λ l, set_value l q1) g (λ _, true) (λ _, True)).
  - rewrite (proj2 (Nat.leb_le _ _)) by lia. rewrite andb_true_r. by replace (forallb _ xs) with true by (symmetry; by apply forallb_forall).
  - intros i x l Hx _. assert ((val <$> xs) !! i = Some (val x)) as Hx' by (by rewrite list_lookup_fmap, Hx).
    destruct (array_get_law v _ i _ Hv Hx') as (o & Eo & Vo). rewrite Eo. unfold mbind, M_bind. cbn [lift].
    by rewrite (Hb i x o l q1 Hx Vo).
  - done.
  - by apply Forall_true.
Qed.

Lemma parse_pair_ok i d obj l q : no_nul (mac d) → no_nul (ip d) → fits MAC_LENGTH (mac d) → fits IP_LENGTH (ip d) →
  view obj = JObject [(chars "mac", JString (mac d)); (chars "ip", JString (ip d))] →
  parse_pair (Z.of_nat i) obj (set_value l q) =
    match l !! i with Some b => Ok ((), set_value (<[i := d]> l) q) | None => Err Segv end.
Proof.
  intros N1 N2 F1 F2 Ho. unfold parse_pair.
  destruct (member_view obj "mac" _ (JString (mac d)) (λ v, on_value (Z.of_nat i) (put_mac (json_object_get_string v))) Ho) as (vm & Em & ->); [done|].
  destruct (member_view obj "ip" _ (JString (ip d)) (λ v, on_value (Z.of_nat i) (put_ip (json_object_get_string v))) Ho) as (vi & Ei & ->); [done|].
  rewrite (get_string_law vm _ Em N1), (get_string_law vi _ Ei N2). unfold mbind, M_bind. rewrite on_value_at.
  destruct (l !! i) as [b|] eqn:Eb; [|done]. unfold put_mac at 1. rewrite snprintf_fits by done.
  rewrite on_value_at, list_lookup_insert_eq by (by eapply lookup_lt_Some). unfold put_ip. rewrite snprintf_fits by done.
  rewrite list_insert_insert_eq. by destruct d.
Qed.

Lemma key_new (k : string) p : bool_decide (chars k ∉ [chars "ap_mac"; chars "cmd"]) = true → chars k ∉ fst <$> head_value p.
Proof. intros E. exact (proj1 (bool_decide_eq_true _) E). Qed.

Lemma head_parsed p k v o q : wf_pair p → view o = JObject (head_value p ++ [(k, v)]) →
  parse_head o q = Ok ((), set_ap_mac (ap_mac p) (set_cmd (cmd p) q)).
Proof.
  intros Hp Ho. eapply parse_head_ok; [exact Ho|reflexivity|apply (wf_cmd _ Hp)|reflexivity|apply (wf_ap_mac _ Hp)].
Qed.

Lemma request_ok p q : wf_pair p → 0 < pair_length p → length (value q) = MAX_USER →
  ∃ t, form_request_json p = Ok t ∧ t ≠ [] ∧ no_nul t ∧
    parse_request_json (Some t) q =
      Ok (SUCCESS, mk_pair (ap_mac p) (cmd p) (fill (λ d b, mk_dhcp (mac d) (ip b)) (used p) (value q)) (pair_length p)).
Proof.
  intros Hp Hl Hq. pose proof (used_wf p Hp) as Hu.
  destruct (form_json_ok "mac" (λ d, json_object_new_string (mac d)) (λ d, JString (mac d)) p Hp Hl) as (t & o & E & T1 & T2 & T3 & V).
  { eapply Forall_impl; [exact Hu|]. intros d [[A _] _]. split; [by apply new_string_law, ascii_no_nul|exact A]. }
  { vm_compute. exact I. } { apply key_new. vm_compute. reflexivity. }
  exists t. split; [exact E|]. split; [done|]. split; [done|]. unfold parse_request_json. rewrite T3.
  rewrite (bind_ok _ _ _ _ _ (head_parsed p _ _ (Some o) q Hp V)).
  destruct (member_view (Some o) "mac" _ (JArray ((λ d, JString (mac d)) <$> used p))
    (λ v, parse_each v (λ i obj, on_value i (put_mac (json_object_get_string obj)))) V eq_refl) as (v & Ev & ->).
  erewrite bind_ok; [reflexivity|].
  rewrite (parse_each_ok v (λ d, JString (mac d)) (used p) (λ d b, mk_dhcp (mac d) (ip b))); [by rewrite used_length|done| |done|].
  { pose proof (used_length p Hp). pose proof (wf_length p Hp). lia. }
  intros i d obj l q' Hd Vo. rewrite on_value_at. destruct (proj1 (Forall_lookup_1 _ _ _ _ Hu Hd)) as [A F].
  rewrite (get_string_law obj _ Vo) by (by apply ascii_no_nul). destruct (l !! i); [|done]. unfold put_mac.
  by rewrite snprintf_fits.
Qed.

Lemma response_ok p q : wf_pair p → 0 < pair_length p → length (value q) = MAX_USER →
  ∃ t, form_response_json p = Ok t ∧ t ≠ [] ∧ no_nul t ∧
    parse_response_json (Some t) q =
      Ok (SUCCESS, mk_pair (ap_mac p) (cmd p) (fill (λ d _, d) (used p) (value q)) (pair_length p)).
Proof.
  intros Hp Hl Hq. pose proof (used_wf p Hp) as Hu.
  set (val := λ d : dhcp, JObject [(chars "mac", JString (mac d)); (chars "ip", JString (ip d))]).
  destruct (form_json_ok "pair" form_pair val p Hp Hl) as (t & o & E & T1 & T2 & T3 & V).
  { eapply Forall_impl; [exact Hu|]. intros d [[A1 _] [A2 _]].
    split; [apply form_pair_view; by apply ascii_no_nul|]. apply Is_true_true in A1, A2. apply Is_true_true.
    cbn [printable val forallb fst snd]. rewrite A1, A2. by vm_compute. }
  { vm_compute. exact I. } { apply key_new. vm_compute. reflexivity. }
  exists t. split; [exact E|]. split; [done|]. split; [done|]. unfold parse_response_json. rewrite T3.
  rewrite (bind_ok _ _ _ _ _ (head_parsed p _ _ (Some o) q Hp V)).
  destruct (member_view (Some o) "pair" _ (JArray (val <$> used p)) (λ v, parse_each v parse_pair) V eq_refl) as (v & Ev & ->).
  erewrite bind_ok; [reflexivity|].
  rewrite (parse_each_ok v val (used p) (λ d _, d)); [by rewrite used_length|done| |done|].
  { pose proof (used_length p Hp). pose proof (wf_length p Hp). lia. }
  intros i d obj l q' Hd Vo. destruct (Forall_lookup_1 _ _ _ _ Hu Hd) as [[A1 F1] [A2 F2]].
  by apply parse_pair_ok; [apply ascii_no_nul..| | |].
Qed.
End correct.

(** ** The file of leases *)
Record lease := mk_lease { l_time : arr; l_mac : arr; l_ip : arr; l_name : arr; l_id : arr }.

Definition is_word (s : arr) : Prop := s ≠ [] ∧ Forall (λ c, isspace c = false) s.

Record lease_ok (l : lease) : Prop := {
  lk_time : is_word (l_time l);
  lk_mac : l_mac l ≠ [] ∧ Forall (λ c, is_mac_char c = true) (l_mac l) ∧ fits MAC_LENGTH (l_mac l);
  lk_ip : l_ip l ≠ [] ∧ Forall (λ c, is_ip_char c = true) (l_ip l) ∧ fits IP_LENGTH (l_ip l);
  lk_name : is_word (l_name l) ∧ fits NAME_SIZE (l_name l);
  lk_id : is_word (l_id l) }.

Definition lease_line (l : lease) : arr :=
  l_time l ++ SPACE :: l_mac l ++ SPACE :: l_ip l ++ SPACE :: l_name l ++ SPACE :: l_id l ++ [NL].

(** What the leases say: the last one for an address counts. *)
Definition lease_ip (ls : list lease) (m old : arr) : arr :=
  foldl (λ a l, if decide (m = l_mac l) then l_ip l else a) old ls.

Lemma span_stop n set s r : Forall (λ c, set c = true) s → (length s ≤ n)%nat →
  match r with [] => True | c :: _ => set c = false end → span n set (s ++ r) = (s, r).
Proof.
  intros Hs. revert n. induction Hs as [|c s Hc Hs IH]; intros n Hl Hr.
  - destruct n, r as [|x r]; simpl; [done..|]. by rewrite Hr.
  - destruct n as [|n]; [simpl in Hl; lia|]. cbn [app span]. rewrite Hc, IH by (simpl in *; done || lia). done.
Qed.

Lemma scan_set_ok n set s r : s ≠ [] → Forall (λ c, set c = true) s → (length s ≤ n)%nat →
  match r with [] => True | c :: _ => set c = false end → scan_set n set (s ++ r) = Some (s, r).
Proof. intros Hn Hs Hl Hr. unfold scan_set. rewrite span_stop by done. by destruct s. Qed.

Lemma skip_word s r : is_word s → skip_space (s ++ r) = s ++ r.
Proof. intros [Hn Hs]. destruct s as [|c s]; [done|]. apply Forall_cons in Hs as [Hc _]. cbn [app skip_space]. by rewrite Hc. Qed.

Lemma scan_word_ok s r : is_word s → match r with [] => True | c :: _ => isspace c = true end → scan_word (s ++ r) = Some (s, r).
Proof.
  intros Hs Hr. unfold scan_word. rewrite skip_word by done. destruct Hs as [Hn Hs]. apply scan_set_ok; [done| |rewrite length_app; lia|].
  - eapply Forall_impl; [exact Hs|]. by intros c ->.
  - destruct r; [done|]. by rewrite Hr.
Qed.

Lemma scan_word_space c f : isspace c = true → scan_word (c :: f) = scan_word f.
Proof. intros Hc. unfold scan_word. cbn [skip_space]. by rewrite Hc. Qed.

Lemma mac_char_word c : is_mac_char c = true → isspace c = false.
Proof. unfold is_mac_char, isspace. rewrite !orb_true_iff, !andb_true_iff, !Z.leb_le, Z.eqb_eq, orb_false_iff, andb_false_iff, !Z.leb_gt, Z.eqb_neq. lia. Qed.
Lemma ip_char_word c : is_ip_char c = true → isspace c = false.
Proof. unfold is_ip_char, isspace. rewrite !orb_true_iff, !andb_true_iff, !Z.leb_le, Z.eqb_eq, orb_false_iff, andb_false_iff, !Z.leb_gt, Z.eqb_neq. lia. Qed.

Lemma chars_word (set : Z → bool) s : (∀ c, set c = true → isspace c = false) → s ≠ [] → Forall (λ c, set c = true) s → is_word s.
Proof. intros Hc Hn Hs. split; [done|]. eapply Forall_impl; [exact Hs|]. exact Hc. Qed.

Lemma scan_lease_ok l f : lease_ok l → scan_lease (lease_line l ++ f) = Ok (Some (l_mac l, l_ip l, NL :: f)).
Proof.
  intros [H1 (M1 & M2 & M3) (I1 & I2 & I3) [N1 N2] H5]. unfold lease_line. repeat (rewrite <- app_assoc; cbn [app]).
  unfold fits, MAC_LENGTH, IP_LENGTH in M3, I3. apply Is_true_true, Z.ltb_lt in M3, I3.
  unfold scan_lease. rewrite scan_word_ok by done. cbn [skip_space]. change (isspace SPACE) with true. cbv iota.
  rewrite skip_word by (by apply (chars_word is_mac_char); [apply mac_char_word|..]).
  rewrite scan_set_ok by (done || lia). cbn [skip_space]. change (isspace SPACE) with true. cbv iota.
  rewrite skip_word by (by apply (chars_word is_ip_char); [apply ip_char_word|..]).
  rewrite scan_set_ok by (done || lia). rewrite scan_word_space, scan_word_ok by done.
  apply Is_true_true in N2. rewrite N2. by rewrite scan_word_space, scan_word_ok by done.
Qed.

Lemma scan_lease_space c f : isspace c = true → scan_lease (c :: f) = scan_lease f.
Proof. intros Hc. unfold scan_lease. by rewrite scan_word_space. Qed.

(** The first entry with the address gets it. *)
Fixpoint give (m a : arr) (vs : list dhcp) : list dhcp :=
  match vs with
  | [] => []
  | d :: vs => if decide (mac d = m) then mk_dhcp (mac d) a :: vs else d :: give m a vs
  end.

Lemma give_mac m a vs : mac <$> give m a vs = mac <$> vs.
Proof. induction vs as [|d vs IH]; [done|]. cbn [give]. case_decide; [done|]. rewrite !fmap_cons. by rewrite IH. Qed.

Lemma give_length m a vs : length (give m a vs) = length vs.
Proof. by rewrite <- (length_fmap mac), give_mac, length_fmap. Qed.

Lemma set_lease_ok m a pre vs rest p : fits IP_LENGTH a →
  set_lease (length vs) (Z.of_nat (length pre)) m a (set_value (pre ++ vs ++ rest) p) =
    Ok ((), set_value (pre ++ give m a vs ++ rest) p).
Proof.
  intros Ha. revert pre. induction vs as [|d vs IH]; intros pre; [done|]. cbn [set_lease length give value set_value app].
  rewrite slot_at, list_lookup_middle by done. case_decide as Hd.
  - rewrite on_value_at, list_lookup_middle by done. unfold put_ip. rewrite snprintf_fits by done.
    rewrite insert_app_r_alt, Nat.sub_diag by lia. done.
  - replace (Z.of_nat (length pre) + 1) with (Z.of_nat (length (pre ++ [d]))) by (rewrite length_app; simpl; lia).
    replace (pre ++ d :: vs ++ rest) with ((pre ++ [d]) ++ vs ++ rest) by (by rewrite <- app_assoc).
    rewrite IH. by rewrite <- app_assoc.
Qed.

Definition give_all (ls : list lease) (vs : list dhcp) : list dhcp := foldl (λ vs l, give (l_mac l) (l_ip l) vs) vs ls.

Lemma lease_line_length l : (1 ≤ length (lease_line l))%nat.
Proof. unfold lease_line. rewrite length_app. cbn [length]. lia. Qed.

Lemma leases_loop_ok ls fuel f vs rest p : Forall lease_ok ls → f = mjoin (lease_line <$> ls) ∨ f = NL :: mjoin (lease_line <$> ls) →
  (length ls < fuel)%nat → pair_length p = Z.of_nat (length vs) →
  leases_loop fuel f (set_value (vs ++ rest) p) = Ok ((), set_value (give_all ls vs ++ rest) p).
Proof.
  intros Hl. revert fuel f vs. induction Hl as [|l ls Hl Hls IH]; intros fuel f vs Hf Hfu Hp; (destruct fuel as [|fuel]; [lia|]).
  - cbn [leases_loop]. replace (scan_lease f) with (Ok (@None (arr * arr * arr))) by (by destruct Hf as [->| ->]). done.
  - cbn [leases_loop]. assert (scan_lease f = Ok (Some (l_mac l, l_ip l, NL :: mjoin (lease_line <$> ls)))) as E.
    { rewrite <- scan_lease_ok by done. destruct Hf as [->| ->]; [done|]. by rewrite scan_lease_space. }
    rewrite E. assert (∀ q : dhcp_pair, lift (Ok (Some (l_mac l, l_ip l, NL :: mjoin (lease_line <$> ls)))) q = Ok (Some (l_mac l, l_ip l, NL :: mjoin (lease_line <$> ls)), q)) as E1 by done.
    rewrite (bind_ok _ _ _ _ _ (E1 _)). set (q := set_value (vs ++ rest) p).
    assert (gets pair_length q = Ok (Z.of_nat (length vs), q)) as E2 by (unfold gets; by rewrite <- Hp).
    rewrite (bind_ok _ _ _ _ _ E2), Nat2Z.id.
    rewrite (bind_ok _ _ _ _ _ (set_lease_ok (l_mac l) (l_ip l) [] vs rest p (proj2 (proj2 (lk_ip _ Hl))))). cbn [app].
    rewrite (IH fuel); [done|by right|simpl in Hfu; lia|by rewrite give_length].
Qed.

(** With different addresses every entry gets what the leases say. *)
Lemma give_fmap m a vs : NoDup (mac <$> vs) →
  give m a vs = (λ d, mk_dhcp (mac d) (if decide (mac d = m) then a else ip d)) <$> vs.
Proof.
  induction vs as [|d vs IH]; intros Hn; [done|]. rewrite fmap_cons in Hn. apply NoDup_cons in Hn as [Hd Hn].
  cbn [give]. rewrite fmap_cons. case_decide as E.
  - f_equal. rewrite <- (list_fmap_id vs) at 1. apply list_fmap_ext. intros i e Hi. cbn. rewrite decide_False; [by destruct e|].
    intros E2. apply Hd. rewrite E, <- E2. apply list_elem_of_fmap. exists e. split; [done|]. by eapply list_elem_of_lookup_2.
  - rewrite IH by done. f_equal. by destruct d.
Qed.

Lemma give_all_fmap ls vs : NoDup (mac <$> vs) →
  give_all ls vs = (λ d, mk_dhcp (mac d) (lease_ip ls (mac d) (ip d))) <$> vs.
Proof.
  revert vs. induction ls as [|l ls IH]; intros vs Hn.
  - cbn. rewrite <- (list_fmap_id vs) at 1. apply list_fmap_ext. intros i d _. by destruct d.
  - cbn [give_all foldl]. change (foldl _ ?v ls) with (give_all ls v). rewrite IH by (by rewrite give_mac).
    rewrite give_fmap, <- list_fmap_compose by done. apply list_fmap_ext. intros i d _. done.
Qed.

Lemma lease_ip_elem ls m old : lease_ip ls m old = old ∨ ∃ l, l ∈ ls ∧ lease_ip ls m old = l_ip l.
Proof.
  revert old. induction ls as [|l ls IH]; intros old; [by left|]. cbn [lease_ip foldl].
  change (foldl _ ?o ls) with (lease_ip ls m o). case_decide.
  - destruct (IH (l_ip l)) as [->|(x & Hx & ->)]; right; [exists l|exists x]; (split; [|done]); [by left|by right].
  - destruct (IH old) as [->|(x & Hx & ->)]; [by left|right]. exists x. split; [by right|done].
Qed.

Lemma ip_char_ascii s : Forall (λ c, is_ip_char c = true) s → ascii s.
Proof.
  intros Hs. apply Is_true_true, forallb_forall. intros c Hc%list_elem_of_In. rewrite Forall_forall in Hs. specialize (Hs c Hc).
  unfold is_ip_char in Hs. rewrite orb_true_iff, andb_true_iff, !Z.leb_le, Z.eqb_eq in Hs.
  apply andb_true_iff. rewrite Z.leb_le, Z.ltb_lt. lia.
Qed.

Lemma lease_ip_fits ls m : Forall lease_ok ls → text_fits IP_LENGTH (lease_ip ls m []).
Proof.
  intros Hl. destruct (lease_ip_elem ls m []) as [->|(l & Hin & ->)]; [done|].
  rewrite Forall_forall in Hl. destruct (lk_ip _ (Hl l Hin)) as (_ & H1 & H2). split; [by apply ip_char_ascii|done].
Qed.

(** ** The exchange *)
Lemma fill_replicate {A B} (g : A → B → B) xs n b : (length xs ≤ n)%nat →
  fill g xs (replicate n b) = ((λ x, g x b) <$> xs) ++ replicate (n - length xs) b.
Proof.
  intros Hl. unfold fill. rewrite drop_replicate. f_equal. revert n Hl.
  induction xs as [|x xs IH]; intros [|n] Hl; simpl in *; [done..|lia|]. by rewrite IH by lia.
Qed.

Lemma fill_const {A B} (f : A → B) xs old : (length xs ≤ length old)%nat →
  fill (λ x _, f x) xs old = (f <$> xs) ++ drop (length xs) old.
Proof. intros Hl. unfold fill. by rewrite zip_with_const. Qed.

(** The entries as the server knows them. *)
Definition answered (ls : list lease) (l : list dhcp) : list dhcp :=
  (λ d, mk_dhcp (mac d) (lease_ip ls (mac d) [])) <$> l.

Definition server_pair (ls : list lease) (p : dhcp_pair) : dhcp_pair :=
  mk_pair (ap_mac p) (cmd p)
    (answered ls (used p) ++ replicate (MAX_USER - length (used p)) (mk_dhcp [] [])) (pair_length p).

Lemma server_pair_used ls p : wf_pair p → used (server_pair ls p) = answered ls (used p).
Proof.
  intros Hp. unfold used at 1. cbn [pair_length value server_pair]. rewrite take_app_length'; [done|].
  unfold answered. rewrite length_fmap. pose proof (used_length p Hp). lia.
Qed.

Lemma server_pair_wf ls p : Forall lease_ok ls → wf_pair p → wf_pair (server_pair ls p).
Proof.
  intros Hl Hp. pose proof (used_length p Hp) as Hu. destruct Hp as [H1 H2 H3 H4 H5].
  split; cbn [server_pair ap_mac cmd value pair_length]; [done|done| | |done].
  - unfold answered. rewrite length_app, length_fmap, length_replicate. lia.
  - apply Forall_app. split; [|by apply Forall_replicate].
    apply Forall_fmap. apply (Forall_impl (λ d, text_fits MAC_LENGTH (mac d) ∧ text_fits IP_LENGTH (ip d))); [by apply Forall_take|].
    intros d [Hm _]. split; [exact Hm|]. by apply lease_ip_fits.
Qed.

Section exchange.
Context {J : Type} `{JsonBuildLaws J}.

Lemma server_ok ls p t : Forall lease_ok ls → wf_pair p → 0 < pair_length p → NoDup (mac <$> used p) →
  form_request_json p = Ok t →
  ∃ r, httpserver_process_request (Some (mjoin (lease_line <$> ls))) t = Ok (Some r) ∧
    form_response_json (server_pair ls p) = Ok r.
Proof.
  intros Hls Hp Hl Hn Et. destruct (request_ok p zero_pair Hp Hl) as (t' & E & T1 & T2 & E1); [done|].
  rewrite Et in E. injection E as <-.
  destruct (response_ok (server_pair ls p) zero_pair (server_pair_wf ls p Hls Hp) Hl) as (r & Er & _); [done|].
  exists r. split; [|done]. unfold httpserver_process_request.
  rewrite (proj2 (Z.leb_gt _ _)) by (destruct t; [done|simpl; lia]). rewrite until_nul_id by done.
  rewrite (bind_ok _ _ _ _ _ E1). cbn [zero_pair value]. unfold dhcp_leases_get.
  pose proof (used_length p Hp) as Hu. pose proof (wf_length p Hp) as Hw.
  rewrite fill_replicate by lia. cbn [ip].
  set (vs := (λ d : dhcp, mk_dhcp (mac d) []) <$> used p).
  set (q := mk_pair (ap_mac p) (cmd p) [] (pair_length p)).
  pose proof (leases_loop_ok ls (S (length (mjoin (lease_line <$> ls)))) _ vs
    (replicate (MAX_USER - length (used p)) (mk_dhcp [] [])) q Hls (or_introl eq_refl)) as EL.
  change (mk_pair _ _ ?v _) with (set_value v q). rewrite EL.
  - assert (set_value (give_all ls vs ++ replicate (MAX_USER - length (used p)) (mk_dhcp [] [])) q = server_pair ls p) as ->.
    { unfold server_pair, answered, set_value, q, vs. cbn [ap_mac cmd pair_length]. rewrite give_all_fmap.
      - by rewrite <- list_fmap_compose.
      - by rewrite <- list_fmap_compose. }
    cbn [server_pair pair_length]. rewrite (proj2 (Z.eqb_neq _ _)) by lia. by rewrite Er.
  - assert (length ls ≤ length (mjoin (lease_line <$> ls)))%nat; [|lia]. clear. induction ls as [|l ls IH]; [done|].
    change (mjoin (lease_line <$> l :: ls)) with (lease_line l ++ mjoin (lease_line <$> ls)). rewrite length_app.
    pose proof (lease_line_length l). simpl. lia.
  - unfold vs. rewrite length_fmap. cbn [q pair_length]. lia.
Qed.

Lemma exchange_client_ok ls p h r : Forall lease_ok ls → wf_pair p → 0 < pair_length p →
  form_response_json (server_pair ls p) = Ok r → strstr (h ++ CRLF2 ++ r) CRLF2 = Some (length h) →
  take_response (h ++ CRLF2 ++ r) p =
    Ok ((), mk_pair (ap_mac p) (cmd p) (answered ls (used p) ++ unused p) (pair_length p)).
Proof.
  intros Hls Hp Hl Er Hs. unfold take_response. rewrite Hs, app_assoc, <- length_app, drop_app_length.
  destruct (response_ok (server_pair ls p) p (server_pair_wf ls p Hls Hp) Hl (wf_value _ Hp)) as (r' & Er' & _ & _ & E).
  rewrite Er in Er'. injection Er' as <-. rewrite (bind_ok _ _ _ _ _ E). rewrite server_pair_used by done.
  pose proof (used_length p Hp) as Hu. pose proof (wf_length p Hp) as Hw. pose proof (wf_value p Hp) as Hv.
  assert (length (answered ls (used p)) = Z.to_nat (pair_length p)) as Ha by (unfold answered; rewrite length_fmap; lia).
  rewrite (fill_const (λ d, d)), list_fmap_id by lia. rewrite Ha. done.
Qed.
End exchange.

(** ** Properties *)

(** the texts of dhcpinfo.c survive their journey: what is formed from a
    structure with at least one station parses without error to the same
    command, access point and stations, a request to the MAC addresses and a
    response to the IP addresses as well; the other entries of the receiving
    structure stay as they were. *)
Theorem dhcp_json_roundtrip {J} `{JsonBuildLaws J} p q :
  wf_pair p → 0 < pair_length p → length (value q) = MAX_USER →
  (∃ t, form_request_json p = Ok t ∧
     parse_request_json (Some t) q =
       Ok (SUCCESS, mk_pair (ap_mac p) (cmd p) (fill (λ d b, mk_dhcp (mac d) (ip b)) (used p) (value q)) (pair_length p))) ∧
  (∃ t, form_response_json p = Ok t ∧
     parse_response_json (Some t) q =
       Ok (SUCCESS, mk_pair (ap_mac p) (cmd p) (fill (λ d _, d) (used p) (value q)) (pair_length p))).
Proof.
  intros Hp Hl Hq. destruct (request_ok p q Hp Hl Hq) as (t & E1 & _ & _ & E2).
  destruct (response_ok p q Hp Hl Hq) as (u & E3 & _ & _ & E4). split; [by exists t|by exists u].
Qed.

(** C13: client and server together.  For stations with different MAC
    addresses the client forms a request, the server answers it from its file
    of leases, and the client then has for each station the IP address of the
    last lease for it, or an empty string if there is none; nothing else in
    its structure changes.  The headers of the answer do not matter. *)
Theorem dhcp_exchange {J} `{JsonBuildLaws J} ls p :
  Forall lease_ok ls → wf_pair p → 0 < pair_length p → NoDup (mac <$> used p) →
  ∃ request reply,
    form_request_json p = Ok request ∧
    httpserver_process_request (Some (mjoin (lease_line <$> ls))) request = Ok (Some reply) ∧
    ∀ h, strstr (h ++ CRLF2 ++ reply) CRLF2 = Some (length h) →
      take_response (h ++ CRLF2 ++ reply) p =
        Ok ((), mk_pair (ap_mac p) (cmd p) (answered ls (used p) ++ unused p) (pair_length p)).
Proof.
  intros Hls Hp Hl Hn. destruct (request_ok p zero_pair Hp Hl) as (t & Et & _); [done|].
  destruct (server_ok ls p t Hls Hp Hl Hn Et) as (r & Er & Ef). exists t, r. split; [done|]. split; [done|].
  intros h Hh. by apply exchange_client_ok.
Qed.

(** A line of the list of stations without a second word adds the station of
    the line before once more, since [sscanf] returns -1 for it. *)
Lemma station_repeated m i d fuel p : fits MAC_LENGTH m → value p !! i = Some d →
  stations_loop (S (S fuel)) (Z.of_nat i) m [NL] p =
    Ok ((), set_length (Z.of_nat i + 1) (set_value (<[i := mk_dhcp m (ip d)]> (value p)) p)).
Proof.
  intros Hm Hi. cbn [stations_loop]. change (fgets (BUFF_SIZE - 1) [NL]) with ([NL], @nil Z).
  cbv beta iota. change (scan_station m (until_nul [NL])) with (@Ok arr m).
  assert (on_value (Z.of_nat i) (put_mac (Some m)) p =
    Ok ((), set_value (<[i := mk_dhcp m (ip d)]> (value p)) p)) as E.
  { pose proof (on_value_at i (put_mac (Some m)) (value p) p) as E. rewrite Hi in E.
    unfold put_mac in E at 2. rewrite snprintf_fits in E by done. by destruct p. }
  unfold mbind, M_bind, lift. cbv iota beta. by rewrite E.
Qed.

(** *** Two stations *)
Definition demo_pair : dhcp_pair :=
  mk_pair (chars "00:00:00:00:00:01") (chars "request_ip")
    (fill (λ m _, mk_dhcp (chars m) []) ["aa:bb:cc:dd:ee:01"; "aa:bb:cc:dd:ee:02"]%string (value zero_pair)) 2.

Definition demo_lease : lease :=
  mk_lease (chars "1500000000") (chars "aa:bb:cc:dd:ee:02") (chars "192.168.48.7") (chars "phone") (chars "*").

#[export] Instance text_fits_dec n s : Decision (text_fits n s).
Proof. unfold text_fits. apply _. Defined.

Lemma demo_pair_wf : wf_pair demo_pair.
Proof.
  split; [done..| |cbn; unfold MAX_USER; lia]. apply (bool_decide_unpack _). vm_compute. exact I.
Qed.

Lemma demo_lease_ok : lease_ok demo_lease.
Proof.
  split; repeat split; try discriminate;
    first [apply (bool_decide_unpack _); vm_compute; exact I|vm_compute; exact I].
Qed.

Lemma dhcp_json_roundtrip_witness :
  ∃ t, form_response_json demo_pair = Ok t ∧
    parse_response_json (Some t) zero_pair = Ok (SUCCESS, demo_pair).
Proof.
  destruct (dhcp_json_roundtrip demo_pair zero_pair demo_pair_wf) as [_ (t & E1 & E2)]; [cbn; lia|reflexivity|].
  exists t. split; [exact E1|]. rewrite E2. reflexivity.
Defined.

Lemma dhcp_exchange_witness :
  ∃ request reply,
    form_request_json demo_pair = Ok request ∧
    httpserver_process_request (Some (lease_line demo_lease ++ [])) request = Ok (Some reply) ∧
    ∀ h, strstr (h ++ CRLF2 ++ reply) CRLF2 = Some (length h) →
      take_response (h ++ CRLF2 ++ reply) demo_pair =
        Ok ((), mk_pair (ap_mac demo_pair) (cmd demo_pair) (answered [demo_lease] (used demo_pair) ++ unused demo_pair) 2).
Proof.
  apply (dhcp_exchange [demo_lease] demo_pair); [repeat constructor; apply demo_lease_ok|apply demo_pair_wf|cbn; lia|].
  apply (bool_decide_unpack _). vm_compute. exact I.
Defined.
