(* ===== verification/Download.v ===== *)
(** * The download in several threads (socket/libcurl/multithreaddownload.c)

    [download] asks for the length of a file, divides it into pieces and
    fetches each of them in a thread of its own; the write callback
    [downloadPackage] puts what arrives at its place in the file.  The library
    curl is not modelled: what happens is a sequence of events, a thread is
    started by [download], a piece of data arrives for a thread, or the transfer
    of a thread ends with a result.  The callbacks run under a mutex, so an
    event is one step; the steps of the threads may come in any order.
    [parse_url] takes the address apart and [replace_domain_with_ip] puts the
    address of the host in place of its name, which the resolver of the system
    gives.  The local file is a list of bytes;
    writing to it succeeds. *)
From Stdlib Require Import String.
From S2P Require Import Prelude CArr CBuf CInt Hosts CDec.

(** [fseek] and [fwrite]: what lies between the end of the file and the
    position is filled with zeros. *)
Definition pwrite (off : nat) (bytes f : arr) : arr :=
  take off (f ++ replicate (off - length f) 0) ++ bytes ++ drop (off + length bytes) f.

(** ** The pieces *)
Record tNode := mk_tnode { startidx : Z; maxidx : Z }.

(** The write callback, for [size * nmemb] bytes at [ptr]: its result, the node
    and the file. *)
Definition downloadPackage (ptr : arr) (size nmemb : Z) (node : tNode) (fp : arr) : res (Z * tNode * arr) :=
  let n := u64 (size * nmemb) in
  let node' := mk_tnode (u64 (startidx node + n)) (maxidx node) in
  let off := Z.to_nat (startidx node) in
  if u64 (startidx node + n) <=? maxidx node then
    if Z.of_nat (length ptr) <? n then Err Segv
    else Ok (nmemb, node', pwrite off (take (Z.to_nat n) ptr) fp)
  else
    let cnt := u64 (maxidx node - startidx node + 1) in
    if Z.of_nat (length ptr) <? cnt then Err Segv
    else Ok (cnt, node', pwrite off (take (Z.to_nat cnt) ptr) fp).

(** The piece of thread [i]; the last one is asked for to its end. *)
Definition piece (threadNum fileLength i : Z) : tNode :=
  let gap := s32 (Z.quot fileLength (threadNum + 1)) in
  if i <? threadNum then mk_tnode (u64 (s32 (i * gap))) (u64 (s32 ((i + 1) * gap - 1)))
  else mk_tnode (u64 (s32 (i * gap))) (u64 fileLength).

(** What is sent for a thread: the address, the header with the host, and the
    text passed to curl as [CURLOPT_RANGE], which is put in a buffer. *)
Record request := mk_request { r_url : arr; r_header : arr; r_range : arr }.

Definition SLEN : Z := 64.
Definition DASH : Z := 45.
Definition range_text (node : tNode) : arr := dec (s64 (startidx node)) ++ DASH :: dec (s64 (maxidx node)).

(** ** The threads *)

(** A thread whose transfer has ended has freed its node.  [ranges] are the
    ranges asked for, and [aborted] the threads whose write callback has returned
    another number than that of the bytes it was given. *)
Record dstate := mk_dstate { file : arr; nodes : list (option tNode); threadCnt : Z; ranges : list arr; aborted : list nat }.

Inductive event := Spawn | Chunk (i : nat) (data : arr) | Finish (i : nat) (res : Z).

(** The result [r] of the transfer is only printed. *)
Definition workThread (i : nat) (r : Z) (s : dstate) : res dstate :=
  match nodes s !! i with
  | Some (Some _) => Ok (mk_dstate (file s) (<[i := None]> (nodes s)) (threadCnt s - 1) (ranges s) (aborted s))
  | _ => Err Segv
  end.

(** [size] is always 1 in calls of a write callback of curl. *)
Definition step (threadNum fileLength : Z) (e : event) (s : dstate) : res dstate :=
  match e with
  | Spawn =>
      let node := piece threadNum fileLength (Z.of_nat (length (nodes s))) in
      if fits SLEN (range_text node)
      then Ok (mk_dstate (file s) (nodes s ++ [Some node]) (threadCnt s + 1) (ranges s ++ [range_text node]) (aborted s))
      else Err Segv
  | Chunk i data =>
      match nodes s !! i with
      | Some (Some node) =>
          match downloadPackage data 1 (Z.of_nat (length data)) node (file s) with
          | Ok (written, node, f) =>
              Ok (mk_dstate f (<[i := Some node]> (nodes s)) (threadCnt s) (ranges s)
                (if written =? Z.of_nat (length data) then aborted s else i :: aborted s))
          | Err e => Err e
          end
      | _ => Err Segv
      end
  | Finish i r => workThread i r s
  end.

Fixpoint run (threadNum fileLength : Z) (es : list event) (s : dstate) : res dstate :=
  match es with
  | [] => Ok s
  | e :: es => match step threadNum fileLength e s with Ok s => run threadNum fileLength es s | Err e => Err e end
  end.

Definition no_threads : dstate := mk_dstate [] [] 0 [] [].

(** From the division of the file to the end: the result, or [None] while
    [download] has not started all threads or waits for one; the file; and the
    requests made.  [bError] is never set. *)
Definition transfer (threadNum fileLength : Z) (url header : arr) (es : list event) : res (option Z * arr * list request) :=
  if threadNum + 1 =? 0 then Err Abort
  else
    match run threadNum fileLength es no_threads with
    | Err e => Err e
    | Ok s =>
        let requests := mk_request url header <$> ranges s in
        if (threadNum + 1 <=? Z.of_nat (length (nodes s))) && (threadCnt s <=? 0)
        then Ok (Some 1, file s, requests) else Ok (None, file s, requests)
    end.

(** ** The address *)

(** [memcpy] to the start of a buffer. *)
Definition copy_to (buf bytes : arr) : res arr :=
  if (length bytes <=? length buf)%nat then Ok (bytes ++ drop (length bytes) buf) else Err Segv.

(** A buffer printed with [%s]. *)
Definition printed (b : arr) : res unit := match cstr b with Some _ => Ok () | None => Err Overread end.

Definition URL_SIZE : Z := 256.
Definition PORT_SIZE : nat := 10.
Definition COLON : Z := 58.
Definition SLASH : Z := 47.
Definition HTTP : arr := chars "http://".

Notation "x ←r m ; k" := (match m with Ok x => k | Err e => Err e end) (at level 100, m at next level, right associativity).

(** The bytes before a slash: there is no check that there is one. *)
Definition before_slash (s : arr) : res (arr * arr) :=
  match strchr s SLASH with Some n => Ok (take n s, drop n s) | None => Err Segv end.

(** The result, the buffers [domain] and [url], and the port if it was set. *)
Definition parse_url (portalurl : option arr) (domain url : arr) : res (Z * arr * option Z * arr) :=
  match portalurl with
  | None => Ok (-1, domain, None, url)
  | Some s =>
      if negb (fits URL_SIZE s) then Err Segv
      else
        match strstr s HTTP with
        | None => Ok (-1, domain, None, url)
        | Some _ =>
            let start := drop (length HTTP) s in
            match strchr start COLON with
            | Some n =>
                domain ←r copy_to domain (take n start);
                _ ←r printed domain;
                r ←r before_slash (drop (S n) start);
                portstr ←r copy_to (replicate PORT_SIZE 0) r.1;
                p ←r (match cstr portstr with Some p => Ok p | None => Err Overread end);
                url ←r copy_to url r.2;
                _ ←r printed url;
                Ok (0, domain, Some (atoi p), url)
            | None =>
                r ←r before_slash start;
                domain ←r copy_to domain r.1;
                _ ←r printed domain;
                url ←r copy_to url (r.2 ++ [0]);
                Ok (0, domain, Some 80, url)
            end
        end
  end.

(** [resolved] is the list of addresses of the host, as [getnameinfo] prints
    them, or [None] if it has none; each overwrites the one before, in a
    buffer of the caller that is shorter than the length passed on. *)
Fixpoint names_to (ip_addr : arr) (names : list (option arr)) : res arr :=
  match names with
  | [] => Ok ip_addr
  | None :: names => names_to ip_addr names
  | Some n :: names => b ←r copy_to ip_addr (n ++ [0]); names_to b names
  end.

Definition dnsquery (resolved : option (list (option arr))) (ip_addr : arr) : res arr :=
  match resolved with
  | None => Ok ip_addr
  | Some names => b ←r names_to ip_addr names; _ ←r printed b; Ok b
  end.

Definition string_of (b : arr) : res arr := match cstr b with Some s => Ok s | None => Err Overread end.

Definition IP_SIZE : nat := 16.
Definition URI_SIZE : nat := 256.
Definition RETURN_SIZE : Z := 512.

(** The buffers [uri] and [ip] are not initialised.  The result is [domain] and
    the new address. *)
Definition replace_domain_with_ip (url : arr) (resolved : option (list (option arr))) (uri ip domain : arr) : res (arr * arr) :=
  r ←r parse_url (Some url) domain uri;
  let '(_, domain, port, uri) := r in
  ip ←r dnsquery resolved ip;
  a ←r string_of ip;
  u ←r string_of uri;
  let returnUrl := HTTP ++ a ++ COLON :: dec (default 0 port) ++ u in
  if fits RETURN_SIZE returnUrl then Ok (domain, returnUrl) else Err Segv.

Definition HOST_SIZE : Z := 256.
Definition OUT_SIZE : Z := 128.

(** [fileLength] is what [getDownloadFileLength] has found and [opened] tells
    whether the local file could be opened. *)
Definition download (threadNum : Z) (packageUrl storagePath fileName : arr) (fileLength : Z)
    (resolved : option (list (option arr))) (uri ip : arr) (opened : bool) (es : list event) : res (option Z * arr * list request) :=
  if fileLength <=? 0 then Ok (Some 0, [], [])
  else
    r ←r replace_domain_with_ip packageUrl resolved uri ip (replicate 256 0);
    domain ←r string_of r.1;
    if negb (fits HOST_SIZE (chars "Host: " ++ domain)) then Err Segv
    else if negb (fits OUT_SIZE (storagePath ++ fileName)) then Err Segv
    else if negb opened then Ok (Some 0, [], [])
    else transfer threadNum fileLength r.2 (chars "Host: " ++ domain) es.

(** ** The address: proofs *)
(** A buffer of [n] bytes with a string in it. *)
Definition buf (n : nat) (s : arr) : arr := s ++ replicate (n - length s) 0.

Lemma copy_to_zeros n s : (length s ≤ n)%nat → copy_to (replicate n 0) s = Ok (buf n s).
Proof. intros Hl. unfold copy_to. rewrite length_replicate, (proj2 (Nat.leb_le _ _) Hl). by rewrite drop_replicate. Qed.

Lemma cstr_buf n s : no_nul s → (length s < n)%nat → cstr (buf n s) = Some s.
Proof.
  intros Hn Hl. unfold buf. replace (n - length s)%nat with (S (n - length s - 1)) by lia. cbn [replicate]. by apply cstr_app.
Qed.

Lemma printed_buf n s : no_nul s → (length s < n)%nat → printed (buf n s) = Ok ().
Proof. intros Hn Hl. unfold printed. by rewrite cstr_buf. Qed.

Lemma before_slash_ok s r : SLASH ∉ s → before_slash (s ++ SLASH :: r) = Ok (s, SLASH :: r).
Proof.
  intros Hs. unfold before_slash. rewrite strchr_app by done. by rewrite take_app_length, drop_app_length.
Qed.

Definition host_name (d : arr) : Prop := no_nul d ∧ COLON ∉ d ∧ SLASH ∉ d.

Lemma copy_to_app b s : (length s ≤ length b)%nat → copy_to b s = Ok (s ++ drop (length s) b).
Proof. intros Hl. unfold copy_to. by rewrite (proj2 (Nat.leb_le _ _) Hl). Qed.

Section url.
Context (d path uri : arr).
Hypothesis (Hd : host_name d) (Hp : no_nul (SLASH :: path)) (Hu : length uri = URI_SIZE).

(** The address up to the path. *)
Lemma parse_url_port port : 0 ≤ port → (length (dec port) < PORT_SIZE)%nat →
  (length HTTP + length d + 1 + length (dec port) + S (length path) < URI_SIZE)%nat →
  parse_url (Some (HTTP ++ d ++ COLON :: dec port ++ SLASH :: path)) (replicate 256 0) uri =
    let u := (SLASH :: path) ++ drop (S (length path)) uri in
    _ ←r printed u; Ok (0, buf 256 d, Some port, u).
Proof.
  intros H0 Hl Hf. destruct Hd as (D1 & D2 & D3). destruct (atoi_dec port H0) as [P1 P2]. unfold URI_SIZE in *.
  assert (no_nul (dec port)) as P3 by (eapply Forall_impl; [exact P1|]; intros c Hc; unfold is_digit in Hc; lia).
  unfold parse_url.
  replace (fits URL_SIZE _) with true.
  2:{ symmetry. apply Z.ltb_lt. unfold URL_SIZE. rewrite !length_app. cbn [length]. rewrite length_app. cbn [length]. lia. }
  cbn [negb]. replace (strstr _ HTTP) with (Some 0%nat) by done. rewrite drop_app_length, strchr_app by done.
  rewrite take_app_length, copy_to_zeros by lia. rewrite printed_buf by (done || lia).
  replace (drop (S (length d)) _) with (dec port ++ SLASH :: path).
  2:{ replace (d ++ COLON :: dec port ++ SLASH :: path) with ((d ++ [COLON]) ++ dec port ++ SLASH :: path) by (by rewrite <- app_assoc).
      rewrite drop_app_length'; [done|]. rewrite length_app. simpl. lia. }
  rewrite before_slash_ok by (apply (digits_no SLASH _ P1); unfold is_digit, SLASH; lia). cbn [fst snd].
  rewrite copy_to_zeros by lia. rewrite cstr_buf by (done || lia). rewrite copy_to_app by (cbn [length]; lia). by rewrite P2.
Qed.

Lemma parse_url_plain : COLON ∉ path → (length HTTP + length d + S (length path) < URI_SIZE)%nat →
  parse_url (Some (HTTP ++ d ++ SLASH :: path)) (replicate 256 0) uri =
    Ok (0, buf 256 d, Some 80, (SLASH :: path) ++ 0 :: drop (S (S (length path))) uri).
Proof.
  intros Hc Hf. destruct Hd as (D1 & D2 & D3). unfold parse_url, URI_SIZE in *.
  replace (fits URL_SIZE _) with true by (symmetry; apply Z.ltb_lt; unfold URL_SIZE; rewrite !length_app; cbn [length]; lia).
  cbn [negb]. replace (strstr _ HTTP) with (Some 0%nat) by done. rewrite drop_app_length.
  replace (strchr (d ++ SLASH :: path) COLON) with (@None nat).
  2:{ symmetry. apply strchr_None. rewrite not_elem_of_app, not_elem_of_cons. split; [done|]. by split. }
  rewrite before_slash_ok by done. cbn [fst snd]. rewrite copy_to_zeros by lia.
  rewrite printed_buf by (done || lia). rewrite copy_to_app by (rewrite length_app; cbn [length]; lia).
  rewrite length_app. cbn [length]. rewrite Nat.add_1_r, <- app_assoc. done.
Qed.
End url.

(** The name gives the last of its addresses. *)
Lemma names_to_last names a ip : Forall (λ n, match n with Some s => (length s < IP_SIZE)%nat | None => True end) names →
  (length a < IP_SIZE)%nat → length ip = IP_SIZE →
  ∃ r, names_to ip (names ++ [Some a]) = Ok (a ++ 0 :: r).
Proof.
  intros Hn Ha. revert ip. induction Hn as [|n names Hn Hns IH]; intros ip Hip; cbn [names_to app].
  - rewrite copy_to_app by (rewrite length_app; cbn [length]; lia). rewrite <- app_assoc. by eexists.
  - destruct n as [n|]; [|by apply IH]. rewrite copy_to_app by (rewrite length_app; cbn [length]; lia).
    apply IH. rewrite !length_app, length_drop, ?length_app. cbn [length]. lia.
Qed.

(** ** The threads: proofs *)
Lemma pwrite_length off bytes f : length (pwrite off bytes f) = Nat.max (length f) (off + length bytes).
Proof. unfold pwrite. rewrite !length_app, length_take, length_app, length_replicate, length_drop. lia. Qed.

Lemma pwrite_in off bytes f k : (off ≤ k < off + length bytes)%nat → pwrite off bytes f !! k = bytes !! (k - off)%nat.
Proof.
  intros Hk. unfold pwrite. rewrite lookup_app_r by (rewrite length_take, length_app, length_replicate; lia).
  rewrite length_take, length_app, length_replicate, Nat.min_l by lia. by rewrite lookup_app_l by lia.
Qed.

Lemma pwrite_out off bytes f k : (k < length f)%nat → ¬ (off ≤ k < off + length bytes)%nat → pwrite off bytes f !! k = f !! k.
Proof.
  intros Hf Hk. unfold pwrite. destruct (decide (k < off)%nat).
  - rewrite lookup_app_l by (rewrite length_take, length_app, length_replicate; lia).
    by rewrite lookup_take_lt, lookup_app_l by lia.
  - rewrite lookup_app_r by (rewrite length_take, length_app, length_replicate; lia).
    rewrite length_take, length_app, length_replicate, Nat.min_l by lia. rewrite lookup_app_r by lia.
    rewrite lookup_drop. f_equal. lia.
Qed.

(** What an event sequence has done for thread [i]. *)
Fixpoint delivered (i : nat) (es : list event) : arr :=
  match es with
  | [] => []
  | Chunk j d :: es => (if decide (j = i) then d else []) ++ delivered i es
  | _ :: es => delivered i es
  end.

Fixpoint spawned (es : list event) : nat :=
  match es with [] => 0 | Spawn :: es => S (spawned es) | _ :: es => spawned es end.

Fixpoint finished (i : nat) (es : list event) : bool :=
  match es with [] => false | Finish j _ :: es => bool_decide (j = i) || finished i es | _ :: es => finished i es end.

Fixpoint finishes (es : list event) : nat :=
  match es with [] => 0 | Finish _ _ :: es => S (finishes es) | _ :: es => finishes es end.

Lemma delivered_snoc i es e : delivered i (es ++ [e]) = delivered i es ++ delivered i [e].
Proof. induction es as [|[| |] es IH]; cbn [app delivered] in *; rewrite ?IH; [done..|by rewrite <- app_assoc|done]. Qed.
Lemma spawned_snoc es e : spawned (es ++ [e]) = (spawned es + spawned [e])%nat.
Proof. induction es as [|[| |] es IH]; cbn [app spawned] in *; rewrite ?IH; lia. Qed.
Lemma finished_snoc i es e : finished i (es ++ [e]) = finished i es || finished i [e].
Proof. induction es as [|[| |] es IH]; cbn [app finished] in *; rewrite ?IH; [done..|by rewrite orb_assoc]. Qed.
Lemma finishes_snoc es e : finishes (es ++ [e]) = (finishes es + finishes [e])%nat.
Proof. induction es as [|[| |] es IH]; cbn [app finishes] in *; rewrite ?IH; lia. Qed.

(** The part of a file that a range of bytes asks for; a range that ends behind
    the file is answered up to its end. *)
Definition honoured (content range : arr) : arr :=
  match strchr range DASH with
  | Some n =>
      let a := Z.to_nat (atoi (take n range)) in
      let b := Z.to_nat (atoi (drop (S n) range)) in
      take (S b - a) (drop a content)
  | None => content
  end.

(** The most bytes that curl passes to a write callback. *)
Definition CURL_MAX_WRITE_SIZE : Z := 16384.

Section threads.
Context (content : arr) (tn : nat).
Let len : Z := Z.of_nat (length content).
Hypothesis (Hpieces : (tn < length content)%nat) (Hlen : len < 2 ^ 31).

Definition gap : nat := length content / S tn.

(** The bytes of thread [i]. *)
Definition first (i : nat) : nat := i * gap.
Definition stop (i : nat) : nat := if (i <? tn)%nat then (i + 1) * gap else length content.

Lemma gap_bounds : (1 ≤ gap)%nat ∧ (S tn * gap ≤ length content)%nat.
Proof.
  unfold gap. split; [apply Nat.div_le_lower_bound; lia|]. apply Nat.Div0.mul_div_le.
Qed.

Lemma first_stop i : (i ≤ tn)%nat → (first i < stop i ≤ length content)%nat.
Proof.
  intros Hi. destruct gap_bounds as [G1 G2]. unfold first, stop. destruct (Nat.ltb_spec i tn); [nia|].
  assert (i = tn) as -> by lia. nia.
Qed.

(** Every byte belongs to a thread. *)
Lemma pieces_cover k : (k < length content)%nat → ∃ i, (i ≤ tn)%nat ∧ (first i ≤ k < stop i)%nat.
Proof.
  intros Hk. destruct gap_bounds as [G1 G2]. exists (Nat.min (k / gap) tn). split; [lia|]. unfold first, stop.
  pose proof (Nat.div_mod_eq k gap). pose proof (Nat.mod_upper_bound k gap ltac:(lia)).
  destruct (Nat.ltb_spec (Nat.min (k / gap) tn) tn).
  - rewrite Nat.min_l by lia. nia.
  - rewrite Nat.min_r by lia. nia.
Qed.

(** What the request of a thread asks for. *)
Definition last_asked (i : nat) : Z := if (i <? tn)%nat then Z.of_nat (stop i) - 1 else len.

Lemma piece_ok i : (i ≤ tn)%nat → piece (Z.of_nat tn) len (Z.of_nat i) = mk_tnode (Z.of_nat (first i)) (last_asked i).
Proof.
  intros Hi. destruct gap_bounds as [G1 G2]. unfold piece, last_asked, first, stop.
  assert (s32 (Z.quot len (Z.of_nat tn + 1)) = Z.of_nat gap) as ->.
  { rewrite Z.quot_div_nonneg by (unfold len; lia). unfold gap. rewrite Nat2Z.inj_div. unfold len.
    replace (Z.of_nat (S tn)) with (Z.of_nat tn + 1) by lia. apply s32_id.
    pose proof (Z.div_pos (Z.of_nat (length content)) (Z.of_nat tn + 1)).
    pose proof (Z.div_le_upper_bound (Z.of_nat (length content)) (Z.of_nat tn + 1) (Z.of_nat (length content))). unfold len in Hlen. nia. }
  unfold len in *. rewrite (s32_id (Z.of_nat i * Z.of_nat gap)) by nia.
  assert (∀ x, 0 ≤ x < 2 ^ 31 → u64 x = x) as U by (intros x Hx; unfold u64; apply Z.mod_small; lia).
  rewrite (U (Z.of_nat i * Z.of_nat gap)) by nia.
  destruct (Z.ltb_spec (Z.of_nat i) (Z.of_nat tn)), (Nat.ltb_spec i tn); try lia.
  - rewrite s32_id by nia. rewrite U by nia. f_equal; nia.
  - rewrite U by lia. f_equal. nia.
Qed.

(** The end of what the write callback stores for a thread: the last one may
    store a byte behind the end of the file. *)
Definition limit (i : nat) : nat := if (i <? tn)%nat then stop i else S (length content).

Lemma limit_ok i : (i ≤ tn)%nat → Z.of_nat (limit i) = last_asked i + 1 ∧ (first i < limit i ≤ S (length content))%nat ∧
  (first i < stop i ≤ limit i)%nat.
Proof.
  intros Hi. pose proof (first_stop i Hi) as Hs. unfold limit, last_asked. destruct (Nat.ltb_spec i tn); [lia|]. unfold len. lia.
Qed.

Lemma range_text_ok i : (i ≤ tn)%nat →
  range_text (mk_tnode (Z.of_nat (first i)) (last_asked i)) = dec (Z.of_nat (first i)) ++ DASH :: dec (last_asked i) ∧
  fits SLEN (range_text (mk_tnode (Z.of_nat (first i)) (last_asked i))) = true.
Proof.
  intros Hi. destruct (limit_ok i Hi) as (H1 & H2 & H3). unfold len in *.
  assert (range_text (mk_tnode (Z.of_nat (first i)) (last_asked i)) = dec (Z.of_nat (first i)) ++ DASH :: dec (last_asked i)) as E.
  { unfold range_text. cbn [startidx maxidx]. unfold s64. by rewrite !Z.mod_small, !Z.add_simpl_r by lia. }
  split; [exact E|]. rewrite E. apply Z.ltb_lt. unfold SLEN. rewrite length_app. cbn [length].
  pose proof (dec_length_pow (Z.of_nat (first i)) 10 ltac:(lia) ltac:(change (10 ^ Z.of_nat 10) with 10000000000; lia)).
  pose proof (dec_length_pow (last_asked i) 10 ltac:(lia) ltac:(change (10 ^ Z.of_nat 10) with 10000000000; lia)). lia.
Qed.

(** Data for a thread that has received [n] bytes. *)
Lemma package_ok i n d f : (i ≤ tn)%nat → (first i + n ≤ limit i)%nat → Z.of_nat (length d) ≤ CURL_MAX_WRITE_SIZE →
  downloadPackage d 1 (Z.of_nat (length d)) (mk_tnode (Z.of_nat (first i + n)) (last_asked i)) f =
    Ok (Z.of_nat (Nat.min (length d) (limit i - (first i + n))), mk_tnode (Z.of_nat (first i + n + length d)) (last_asked i),
      pwrite (first i + n) (take (limit i - (first i + n)) d) f).
Proof.
  intros Hi Hn Hd. destruct (limit_ok i Hi) as (H1 & H2 & H3). unfold downloadPackage. cbn [startidx maxidx]. unfold len, CURL_MAX_WRITE_SIZE in *.
  assert (∀ x, 0 ≤ x < 2 ^ 32 → u64 x = x) as U by (intros x Hx; unfold u64; apply Z.mod_small; lia).
  rewrite Z.mul_1_l, (U (Z.of_nat (length d))), U by lia. rewrite <- Nat2Z.inj_add, Nat2Z.id.
  destruct (Z.leb_spec (Z.of_nat (first i + n + length d)) (last_asked i)) as [Hm|Hm].
  - rewrite Z.ltb_irrefl, Nat2Z.id, firstn_all. rewrite Nat.min_l, (take_ge d) by lia. done.
  - replace (last_asked i - Z.of_nat (first i + n) + 1) with (Z.of_nat (limit i - (first i + n))) by lia.
    rewrite U, Nat2Z.id, Nat.min_r by lia. rewrite (proj2 (Z.ltb_ge _ _)) by lia. done.
Qed.

(** *** What the library does

    The write callback is called with any data, in blocks that are not larger
    than [CURL_MAX_WRITE_SIZE]: a reply need not be what was asked for.  As
    documented, a transfer is given up when the callback has returned another
    number than that of the bytes it was given, so there is no call after that.
    [download] starts [tn + 1] threads. *)
Inductive trace : list event → Prop :=
  | trace_nil : trace []
  | trace_spawn es : trace es → (spawned es ≤ tn)%nat → trace (es ++ [Spawn])
  | trace_chunk es i d s : trace es → (i < spawned es)%nat → finished i es = false → Z.of_nat (length d) ≤ CURL_MAX_WRITE_SIZE →
      run (Z.of_nat tn) len es no_threads = Ok s → i ∉ aborted s → trace (es ++ [Chunk i d])
  | trace_finish es i r : trace es → (i < spawned es)%nat → finished i es = false → trace (es ++ [Finish i r]).

(** What the callbacks of a thread have stored. *)
Definition kept (es : list event) (i : nat) : arr := take (limit i - first i) (delivered i es).

Definition node_of (es : list event) (i : nat) : option tNode :=
  if finished i es then None
  else Some (mk_tnode (Z.of_nat (first i + length (delivered i es))) (last_asked i)).

Definition range_of (i : nat) : arr := range_text (mk_tnode (Z.of_nat (first i)) (last_asked i)).

Record inv (es : list event) (s : dstate) : Prop := {
  inv_count : (spawned es ≤ S tn)%nat;
  inv_nodes : nodes s = node_of es <$> seq 0 (spawned es);
  inv_ranges : ranges s = range_of <$> seq 0 (spawned es);
  inv_threads : threadCnt s = Z.of_nat (spawned es) - Z.of_nat (finishes es);
  inv_aborted : ∀ i, (i < spawned es)%nat → i ∉ aborted s → (first i + length (delivered i es) ≤ limit i)%nat;
  inv_length : (length (file s) ≤ Nat.max (length content) (first tn + length (kept es tn)))%nat;
  inv_future : ∀ i, (spawned es ≤ i)%nat → delivered i es = [] ∧ finished i es = false;
  inv_file : ∀ i k x, (i < spawned es)%nat → kept es i !! k = Some x → file s !! (first i + k)%nat = Some x }.

Lemma pieces_disjoint i j : (i < j ≤ tn)%nat → (limit i ≤ first j)%nat.
Proof. intros Hij. unfold limit, stop, first. rewrite (proj2 (Nat.ltb_lt i tn)) by lia. nia. Qed.

Lemma run_snoc es e s :
  run (Z.of_nat tn) len (es ++ [e]) s =
    match run (Z.of_nat tn) len es s with Ok s => step (Z.of_nat tn) len e s | Err e => Err e end.
Proof.
  revert s. induction es as [|e' es IH]; intros s; cbn [run app]; [by destruct (step _ _ e s)|].
  destruct (step _ _ e' s); [apply IH|done].
Qed.

Lemma fmap_seq_insert {A} (f g : nat → A) n i x : (i < n)%nat → g i = x → (∀ j, j ≠ i → g j = f j) →
  <[i := x]> (f <$> seq 0 n) = g <$> seq 0 n.
Proof.
  intros Hi Hg Hj. apply list_eq. intros j. rewrite list_lookup_fmap. destruct (decide (j = i)) as [->|Hne].
  - rewrite list_lookup_insert_eq by (by rewrite length_fmap, length_seq). rewrite lookup_seq_lt by done. by rewrite <- Hg.
  - rewrite list_lookup_insert_ne, list_lookup_fmap by done. destruct (seq 0 n !! j) as [y|] eqn:E; [|done].
    apply lookup_seq in E as [-> _]. cbn. by rewrite Hj.
Qed.

Lemma inv_node es s i : inv es s → (i < spawned es)%nat → nodes s !! i = Some (node_of es i).
Proof. intros H Hi. rewrite (inv_nodes _ _ H), list_lookup_fmap, lookup_seq_lt by done. done. Qed.

Lemma inv_spawn es s : inv es s → (spawned es ≤ tn)%nat →
  ∃ s', step (Z.of_nat tn) len Spawn s = Ok s' ∧ inv (es ++ [Spawn]) s'.
Proof.
  intros [H1 H2 Hr H3 Ha H4 H6 H7] Hs.
  assert (length (nodes s) = spawned es) as Hl by (by rewrite H2, length_fmap, length_seq).
  cbn [step]. rewrite Hl, piece_ok by done. destruct (range_text_ok (spawned es) Hs) as [_ ->]. eexists. split; [done|].
  assert (∀ i, delivered i (es ++ [Spawn]) = delivered i es ∧ finished i (es ++ [Spawn]) = finished i es) as Hsame
    by (intros i; rewrite delivered_snoc, finished_snoc; cbn; by rewrite app_nil_r, orb_false_r).
  assert (∀ i, kept (es ++ [Spawn]) i = kept es i) as Hk by (intros i; unfold kept; by destruct (Hsame i) as [-> _]).
  destruct (H6 (spawned es)) as [F1 F2]; [lia|].
  assert (∀ i, (i < spawned (es ++ [Spawn]))%nat → (i < spawned es)%nat ∨ i = spawned es) as Hi by (intros i; rewrite spawned_snoc; cbn; lia).
  split; cbn [file nodes threadCnt ranges aborted]; rewrite ?Hk.
  - rewrite spawned_snoc. cbn. lia.
  - rewrite spawned_snoc. cbn [spawned]. rewrite Nat.add_1_r, seq_S, fmap_app, H2, Nat.add_0_l. f_equal.
    + apply list_fmap_ext. intros j i _. unfold node_of. destruct (Hsame i) as [-> ->]. done.
    + cbn. unfold node_of. destruct (Hsame (spawned es)) as [-> ->]. rewrite F1, F2. cbn [length]. by rewrite Nat.add_0_r.
  - rewrite Hr, spawned_snoc. cbn [spawned]. by rewrite Nat.add_1_r, seq_S, fmap_app, Nat.add_0_l.
  - rewrite H3, spawned_snoc, finishes_snoc. cbn. lia.
  - intros i [Hlt| ->]%Hi Hin; destruct (Hsame i) as [-> _] || destruct (Hsame (spawned es)) as [-> _]; [by apply Ha|].
    rewrite F1. cbn [length]. pose proof (limit_ok _ Hs). lia.
  - done.
  - intros i Hge. destruct (Hsame i) as [-> ->]. apply H6. rewrite spawned_snoc in Hge. cbn in Hge. lia.
  - intros i k x [Hlt| ->]%Hi; rewrite Hk; [by apply H7|]. unfold kept. by rewrite F1, take_nil.
Qed.

Lemma inv_finish es s i r : inv es s → (i < spawned es)%nat → finished i es = false →
  ∃ s', step (Z.of_nat tn) len (Finish i r) s = Ok s' ∧ inv (es ++ [Finish i r]) s'.
Proof.
  intros H Hi Hf. cbn [step]. unfold workThread. rewrite (inv_node es s i H Hi). unfold node_of at 1. rewrite Hf.
  eexists. split; [done|]. destruct H as [H1 H2 Hr H3 Ha H4 H6 H7].
  assert (∀ j, delivered j (es ++ [Finish i r]) = delivered j es) as Hd by (intros j; rewrite delivered_snoc; cbn; apply app_nil_r).
  assert (∀ j, kept (es ++ [Finish i r]) j = kept es j) as Hk by (intros j; unfold kept; by rewrite Hd).
  assert (spawned (es ++ [Finish i r]) = spawned es) as Hs by (rewrite spawned_snoc; cbn; lia).
  split; cbn [file nodes threadCnt ranges aborted]; rewrite ?Hs, ?Hk; [done| |done| | |done| |].
  - rewrite H2. apply fmap_seq_insert; [done| |].
    + unfold node_of. rewrite finished_snoc. cbn. rewrite bool_decide_true by done. by rewrite orb_true_r.
    + intros j Hj. unfold node_of. rewrite finished_snoc, Hd. cbn. rewrite bool_decide_false by done. by rewrite !orb_false_r.
  - rewrite H3, finishes_snoc. cbn. lia.
  - intros j Hj. rewrite Hd. by apply Ha.
  - intros j Hj. rewrite Hd, finished_snoc. destruct (H6 j Hj) as [-> ->]. split; [done|]. cbn. rewrite bool_decide_false by lia. done.
  - intros j k x Hj. rewrite Hk. by apply H7.
Qed.

Lemma kept_chunk es i d : (first i + length (delivered i es) ≤ limit i)%nat → ∀ j,
  kept (es ++ [Chunk i d]) j = kept es j ++ (if decide (i = j) then take (limit i - (first i + length (delivered i es))) d else []).
Proof.
  intros Hn j. unfold kept. rewrite delivered_snoc. cbn [delivered]. rewrite app_nil_r, take_app. f_equal. case_decide as E; [|apply take_nil].
  subst j. f_equal. lia.
Qed.

Lemma kept_all es i : (first i + length (delivered i es) ≤ limit i)%nat → kept es i = delivered i es.
Proof. intros Hn. unfold kept. apply take_ge. lia. Qed.

Lemma kept_lookup es j k x : kept es j !! k = Some x → (first j + k < limit j)%nat.
Proof. intros Hk%lookup_lt_Some. unfold kept in Hk. rewrite length_take in Hk. lia. Qed.

(** What is stored for a thread does not touch the pieces of the others. *)
Lemma file_chunk es s i d : inv es s → (i < spawned es)%nat → (first i + length (delivered i es) ≤ limit i)%nat →
  let y := take (limit i - (first i + length (delivered i es))) d in
  ∀ j k x, (j < spawned es)%nat → kept (es ++ [Chunk i d]) j !! k = Some x →
    pwrite (first i + length (delivered i es)) y (file s) !! (first j + k)%nat = Some x.
Proof.
  intros I Hi Hn y j k x Hj. rewrite kept_chunk by done. intros E. pose proof (inv_count _ _ I) as Hc.
  assert (length y ≤ limit i - (first i + length (delivered i es)))%nat as Hy by (unfold y; rewrite length_take; lia).
  apply lookup_app_Some in E as [E|[Hk E]].
  - pose proof (inv_file _ _ I j k x Hj E) as Ef. rewrite pwrite_out; [done|by eapply lookup_lt_Some|].
    pose proof (kept_lookup es j k x E). destruct (decide (i = j)) as [<-|Hij].
    + apply lookup_lt_Some in E. rewrite kept_all in E by done. lia.
    + destruct (decide (i < j)%nat); [pose proof (pieces_disjoint i j); lia|pose proof (pieces_disjoint j i); lia].
  - destruct (decide (i = j)) as [<-|]; [|done]. rewrite kept_all in Hk, E by done. apply lookup_lt_Some in E as Hl. fold y in E, Hl.
    rewrite pwrite_in by lia. rewrite <- E. f_equal. lia.
Qed.

Lemma inv_chunk es s i d : inv es s → (i < spawned es)%nat → finished i es = false → Z.of_nat (length d) ≤ CURL_MAX_WRITE_SIZE →
  i ∉ aborted s → ∃ s', step (Z.of_nat tn) len (Chunk i d) s = Ok s' ∧ inv (es ++ [Chunk i d]) s'.
Proof.
  intros H Hi Hf Hd Hna. pose proof (inv_aborted _ _ H i Hi Hna) as Hn. assert (i ≤ tn)%nat as Hit by (pose proof (inv_count _ _ H); lia).
  cbn [step]. rewrite (inv_node es s i H Hi). unfold node_of at 1. rewrite Hf. rewrite package_ok by done.
  pose proof (file_chunk es s i d H Hi Hn) as Hfile. cbv zeta in Hfile. pose proof (kept_chunk es i d Hn) as Hk.
  eexists. split; [done|]. destruct H as [H1 H2 Hr H3 Ha H4 H6 H7].
  assert (∀ j, delivered j (es ++ [Chunk i d]) = delivered j es ++ (if decide (i = j) then d else [])) as Hdel
    by (intros j; rewrite delivered_snoc; cbn; by rewrite app_nil_r).
  assert (spawned (es ++ [Chunk i d]) = spawned es) as Hs by (rewrite spawned_snoc; cbn; lia).
  assert (∀ j, finished j (es ++ [Chunk i d]) = finished j es) as Hfin by (intros j; rewrite finished_snoc; cbn; apply orb_false_r).
  split; cbn [file nodes threadCnt ranges aborted]; rewrite ?Hs; [done| |done| | | | |exact Hfile].
  - rewrite H2. apply fmap_seq_insert; [done| |].
    + unfold node_of. rewrite Hfin, Hf, Hdel, decide_True, length_app by done. do 3 f_equal. lia.
    + intros j Hj. unfold node_of. rewrite Hfin, Hdel, decide_False by congruence. by rewrite app_nil_r.
  - rewrite H3, finishes_snoc. cbn. lia.
  - intros j Hj. rewrite Hdel, length_app. case_decide as E; [subst j|cbn [length]; rewrite Nat.add_0_r; intros Hin; apply Ha; [done|]].
    + destruct (Z.eqb_spec (Z.of_nat (Nat.min (length d) (limit i - (first i + length (delivered i es))))) (Z.of_nat (length d))); [lia|].
      intros []. constructor.
    + destruct (_ =? _); [done|]. by apply not_elem_of_cons in Hin as [_ ?].
  - rewrite pwrite_length, Hk, length_app. case_decide as E.
    + subst i. rewrite kept_all in H4 |- * by done. lia.
    + pose proof (limit_ok i Hit). rewrite length_take. unfold limit in *. destruct (Nat.ltb_spec i tn); [|lia]. pose proof (first_stop i Hit). cbn [length]. lia.
  - intros j Hj. rewrite Hfin, Hdel, decide_False by lia. destruct (H6 j Hj) as [-> ->]. done.
Qed.

Lemma trace_inv es : trace es → ∃ s, run (Z.of_nat tn) len es no_threads = Ok s ∧ inv es s.
Proof.
  induction 1 as [|es _ (s & E & I) Hs|es i d s' _ (s & E & I) Hi Hf Hd E' Ha|es i r _ (s & E & I) Hi Hf].
  - eexists. split; [done|]. split; cbn; [lia|done|done|done|lia|lia|done|lia].
  - destruct (inv_spawn es s I Hs) as (s' & E' & I'). exists s'. by rewrite run_snoc, E.
  - rewrite E in E'. injection E' as <-. destruct (inv_chunk es s i d I Hi Hf Hd Ha) as (s' & E' & I'). exists s'. by rewrite run_snoc, E.
  - destruct (inv_finish es s i r I Hi Hf) as (s' & E' & I'). exists s'. by rewrite run_snoc, E.
Qed.

(** When the pieces have arrived that were asked for, the file is complete. *)
Lemma honoured_ok i : (i ≤ tn)%nat → honoured content (range_of i) = take (limit i - first i) (drop (first i) content).
Proof.
  intros Hi. destruct (limit_ok i Hi) as (H1 & H2 & H3). unfold range_of. rewrite (proj1 (range_text_ok i Hi)).
  destruct (atoi_dec (Z.of_nat (first i))) as [D1 V1]; [lia|]. destruct (atoi_dec (last_asked i)) as [_ V2]; [lia|].
  unfold honoured. rewrite strchr_app by (apply (digits_no DASH _ D1); unfold is_digit, DASH; lia).
  rewrite take_app_length, V1, Nat2Z.id.
  replace (drop (S (length (dec (Z.of_nat (first i))))) _) with (dec (last_asked i)).
  2:{ rewrite (cons_middle DASH), app_assoc, drop_app_length' by (rewrite length_app; cbn; lia). done. }
  rewrite V2. f_equal. lia.
Qed.

Lemma complete es s : inv es s → spawned es = S tn → (∀ i, (i ≤ tn)%nat → delivered i es = honoured content (range_of i)) → file s = content.
Proof.
  intros I Hs Hall.
  assert (∀ i, (i ≤ tn)%nat → kept es i = take (limit i - first i) (drop (first i) content)) as Hk.
  { intros i Hi. unfold kept. rewrite Hall, honoured_ok, take_take by done. f_equal. lia. }
  assert (∀ k, (k < length content)%nat → file s !! k = content !! k) as Hf.
  { intros k Hlt. destruct (pieces_cover k Hlt) as (i & Hi & Hr). destruct (limit_ok i Hi) as (_ & _ & Hlim).
    destruct (lookup_lt_is_Some_2 _ _ Hlt) as [x Hx]. rewrite Hx. replace k with (first i + (k - first i))%nat by lia.
    apply (inv_file _ _ I); [lia|]. rewrite Hk, lookup_take_lt, lookup_drop by (done || lia). rewrite <- Hx. f_equal. lia. }
  apply list_eq. intros k. destruct (decide (k < length content)%nat); [by apply Hf|].
  pose proof (inv_length _ _ I) as Hl. rewrite Hk, length_take, length_drop in Hl by lia. pose proof (first_stop tn).
  rewrite !lookup_ge_None_2 by lia. done.
Qed.

(** *** The number of running threads *)
Fixpoint cnt (f : nat → bool) (n : nat) : nat :=
  match n with O => 0 | S n => (if f n then 1 else 0) + cnt f n end.

Lemma cnt_ext f g n : (∀ i, (i < n)%nat → f i = g i) → cnt f n = cnt g n.
Proof. induction n as [|n IH]; intros E; [done|]. cbn [cnt]. rewrite E, IH by (intros; apply E; lia) || lia. done. Qed.

Lemma cnt_upd f n i : (i < n)%nat → f i = false → cnt (λ j, f j || bool_decide (i = j)) n = S (cnt f n).
Proof.
  induction n as [|n IH]; intros Hi Hf; [lia|]. cbn [cnt]. destruct (decide (i = n)) as [->|Hn].
  - rewrite Hf, bool_decide_true by done. cbn. f_equal. apply cnt_ext. intros j Hj. rewrite bool_decide_false by lia. apply orb_false_r.
  - rewrite bool_decide_false, orb_false_r, IH by (done || lia). lia.
Qed.

Lemma cnt_le f n : (cnt f n ≤ n)%nat.
Proof. induction n as [|n IH]; cbn [cnt]; [lia|]. destruct (f n); lia. Qed.

Lemma cnt_full f n : cnt f n = n ↔ ∀ i, (i < n)%nat → f i = true.
Proof.
  induction n as [|n IH]; cbn [cnt]; [split; [lia|done]|]. pose proof (cnt_le f n). split.
  - intros E i Hi. destruct (f n) eqn:En; [|lia]. destruct (decide (i = n)) as [->|]; [done|]. apply IH; lia.
  - intros Hf. rewrite Hf by lia. rewrite (proj2 IH); [lia|]. intros i Hi. apply Hf. lia.
Qed.

Lemma finishes_cnt es : trace es → finishes es = cnt (λ i, finished i es) (spawned es).
Proof.
  induction 1 as [|es Ht IH Hs|es i d s' Ht IH Hi Hf Hd Es Ha|es i r Ht IH Hi Hf]; [done|..]; rewrite finishes_snoc, spawned_snoc, IH; cbn [finishes spawned].
  - rewrite Nat.add_0_r, Nat.add_1_r. cbn [cnt]. destruct (trace_inv es Ht) as (s & _ & I).
    rewrite finished_snoc, (proj2 (inv_future _ _ I (spawned es) ltac:(lia))). cbn. apply cnt_ext. intros j _. rewrite finished_snoc. cbn. by rewrite orb_false_r.
  - rewrite !Nat.add_0_r. apply cnt_ext. intros j _. rewrite finished_snoc. cbn. by rewrite orb_false_r.
  - rewrite Nat.add_0_r, Nat.add_1_r, <- (cnt_upd _ _ i) by done. apply cnt_ext. intros j _. rewrite finished_snoc. cbn. by rewrite orb_false_r.
Qed.

(** All threads were started and have ended. *)
Definition all_done (es : list event) : bool :=
  (spawned es =? S tn)%nat && forallb (λ i, finished i es) (seq 0 (S tn)).

Lemma all_done_cnt es : spawned es = S tn → all_done es = (cnt (λ i, finished i es) (S tn) =? S tn)%nat.
Proof.
  intros Hs. unfold all_done. rewrite Hs, Nat.eqb_refl. cbn [andb]. apply eq_bool_prop_intro.
  rewrite !Is_true_true, forallb_forall, Nat.eqb_eq, cnt_full. split.
  - intros Hf i Hi. apply Hf, in_seq. lia.
  - intros Hf i Hi%in_seq. apply Hf. lia.
Qed.

Lemma transfer_ok url header es : trace es →
  ∃ f rqs, transfer (Z.of_nat tn) len url header es = Ok (if all_done es then Some 1 else None, f, rqs) ∧
    rqs = (λ i, mk_request url header (range_of i)) <$> seq 0 (spawned es) ∧
    (length f ≤ S (length content))%nat ∧
    (∀ i k x, (i < spawned es)%nat → kept es i !! k = Some x → f !! (first i + k)%nat = Some x) ∧
    (spawned es = S tn → (∀ i, (i ≤ tn)%nat → delivered i es = honoured content (range_of i)) → f = content).
Proof.
  intros Ht. destruct (trace_inv es Ht) as (s & E & I). exists (file s), (mk_request url header <$> ranges s). split; [|split; [|split; [|split]]].
  - unfold transfer. unfold len in *. rewrite (proj2 (Z.eqb_neq _ _)) by lia.
    rewrite E, (inv_nodes _ _ I), length_fmap, length_seq, (inv_threads _ _ I), (finishes_cnt es Ht).
    pose proof (cnt_le (λ i, finished i es) (spawned es)) as Hle.
    pose proof (inv_count _ _ I) as Hc. destruct (Z.leb_spec (Z.of_nat tn + 1) (Z.of_nat (spawned es))) as [Hs|Hs].
    + assert (spawned es = S tn) as Hs' by lia. rewrite all_done_cnt, Hs' in * by done. cbn [andb].
      destruct (Nat.eqb_spec (cnt (λ i, finished i es) (S tn)) (S tn)), (Z.leb_spec (Z.of_nat (S tn) - Z.of_nat (cnt (λ i, finished i es) (S tn))) 0); done || lia.
    + unfold all_done. rewrite (proj2 (Nat.eqb_neq _ _)) by lia. done.
  - rewrite (inv_ranges _ _ I), <- list_fmap_compose. done.
  - pose proof (inv_length _ _ I) as Hl. unfold kept in Hl. rewrite length_take in Hl. pose proof (limit_ok tn). lia.
  - apply (inv_file _ _ I).
  - apply (complete es s I).
Qed.

Lemma ranges_ok url header es : trace es →
  (λ i, mk_request url header (range_of i)) <$> seq 0 (spawned es) =
  (λ i, mk_request url header (dec (Z.of_nat (first i)) ++ DASH :: dec (last_asked i))) <$> seq 0 (spawned es).
Proof.
  intros Ht. destruct (trace_inv es Ht) as (s & _ & I). pose proof (inv_count _ _ I) as Hc.
  apply list_fmap_ext. intros j i [-> Hi]%lookup_seq. unfold range_of. by rewrite (proj1 (range_text_ok (0 + j) ltac:(lia))).
Qed.
End threads.

(** ** The address and the transfer together *)
Definition short_names (names : list (option arr)) : Prop :=
  Forall (λ n, match n with Some s => (length s < IP_SIZE)%nat | None => True end) names.

Section package.
Context (d path uri ip a : arr) (names : list (option arr)).
Hypothesis (Hd : host_name d) (Hp : no_nul (SLASH :: path)) (Hu : length uri = URI_SIZE) (Hi : length ip = IP_SIZE).
Hypothesis (Hn : short_names names) (Na : no_nul a) (La : (length a < IP_SIZE)%nat).

Lemma replace_plain_ok : COLON ∉ path → (length HTTP + length d + S (length path) < URI_SIZE)%nat →
  replace_domain_with_ip (HTTP ++ d ++ SLASH :: path) (Some (names ++ [Some a])) uri ip (replicate 256 0) =
    Ok (buf 256 d, HTTP ++ a ++ chars ":80" ++ SLASH :: path).
Proof.
  intros Hc Hf. unfold replace_domain_with_ip. rewrite parse_url_plain by done.
  destruct (names_to_last names a ip Hn La Hi) as [r Er]. unfold dnsquery. rewrite Er. unfold printed, string_of.
  rewrite !cstr_app by done. unfold URI_SIZE, IP_SIZE in *.
  replace (fits RETURN_SIZE _) with true; [done|]. symmetry. apply Z.ltb_lt. unfold RETURN_SIZE.
  rewrite !length_app. cbn [length default from_option]. rewrite length_app. change (length (dec (id 80))) with 2%nat. cbn [length]. lia.
Qed.

Lemma replace_port_ok port : 0 ≤ port → (length (dec port) < PORT_SIZE)%nat →
  (length HTTP + length d + 1 + length (dec port) + S (length path) < URI_SIZE)%nat → no_nul uri →
  replace_domain_with_ip (HTTP ++ d ++ COLON :: dec port ++ SLASH :: path) (Some (names ++ [Some a])) uri ip (replicate 256 0) =
    Err Overread.
Proof.
  intros H0 Hl Hf Hz. unfold replace_domain_with_ip. rewrite parse_url_port by done. cbv zeta. unfold printed.
  replace (cstr _) with (@None arr); [done|]. symmetry. apply cstr_None. apply Forall_app. split; [done|]. by apply Forall_drop.
Qed.

Lemma download_plain tn dir name n es : 0 < n → COLON ∉ path → (length HTTP + length d + S (length path) < URI_SIZE)%nat →
  fits OUT_SIZE (dir ++ name) = true →
  download tn (HTTP ++ d ++ SLASH :: path) dir name n (Some (names ++ [Some a])) uri ip true es =
    transfer tn n (HTTP ++ a ++ chars ":80" ++ SLASH :: path) (chars "Host: " ++ d) es.
Proof.
  intros Hpos Hc Hf Ho. unfold download. rewrite (proj2 (Z.leb_gt _ _)) by done. rewrite replace_plain_ok by done. cbn [fst snd].
  destruct Hd as (Nd & _ & _). unfold string_of, URI_SIZE in *. change (length HTTP) with 7%nat in *. rewrite cstr_buf by (done || lia).
  replace (fits HOST_SIZE _) with true; [by rewrite Ho|]. symmetry. apply Z.ltb_lt. unfold HOST_SIZE.
  rewrite length_app. change (length (chars "Host: ")) with 6%nat. lia.
Qed.
End package.

(** ** Properties *)


(** for an address without port [replace_domain_with_ip] gives the name of
    the host and the address with the last IP address the name resolves to and
    port 80.  With a port the path is copied without its NUL into a buffer
    that is not initialised, and printing it reads behind the buffer if there
    happens to be no zero in it. *)
Theorem replace_domain_correct d path uri ip names a :
  host_name d → no_nul (SLASH :: path) → length uri = URI_SIZE → length ip = IP_SIZE →
  short_names names → no_nul a → (length a < IP_SIZE)%nat →
  (COLON ∉ path → (length HTTP + length d + S (length path) < URI_SIZE)%nat →
   replace_domain_with_ip (HTTP ++ d ++ SLASH :: path) (Some (names ++ [Some a])) uri ip (replicate 256 0) =
     Ok (buf 256 d, HTTP ++ a ++ chars ":80" ++ SLASH :: path)) ∧
  (∀ port, 0 ≤ port → (length (dec port) < PORT_SIZE)%nat →
   (length HTTP + length d + 1 + length (dec port) + S (length path) < URI_SIZE)%nat → no_nul uri →
   replace_domain_with_ip (HTTP ++ d ++ COLON :: dec port ++ SLASH :: path) (Some (names ++ [Some a])) uri ip (replicate 256 0) =
     Err Overread).
Proof. intros Hd Hp Hu Hi Hn Na La. split; [by apply replace_plain_ok|intros port; by apply replace_port_ok]. Qed.

(** *** Five bytes in two threads

    The server sends the ranges, or the whole file to both threads. *)
Definition demo_events : list event :=
  [Spawn; Spawn; Chunk 1 [8]; Chunk 0 [6; 7]; Chunk 1 [9; 10]; Finish 1 0; Finish 0 0].
Definition demo_ignored : list event :=
  [Spawn; Spawn; Chunk 1 [6; 7; 8; 9]; Chunk 0 [6; 7; 8]; Chunk 1 [10]; Finish 0 23; Finish 1 23].

Ltac trace_demo :=
  repeat match goal with
    | |- trace _ _ [] => apply trace_nil
    | |- trace ?c ?n ?l =>
        let m := eval vm_compute in (take (length l - 1) l) in
        let e := eval vm_compute in (drop (length l - 1) l) in
        change (trace c n (m ++ e));
        match e with
        | [Spawn] => apply trace_spawn; [|cbn; lia]
        | [Chunk _ _] => eapply trace_chunk; [|cbn; lia|reflexivity|cbn; unfold CURL_MAX_WRITE_SIZE; lia|vm_compute; reflexivity|
            apply (bool_decide_unpack _); vm_compute; exact I]
        | [Finish _ _] => apply trace_finish; [|cbn; lia|reflexivity]
        end
    end.

Lemma demo_trace : trace [6; 7; 8; 9; 10] 1 demo_events.
Proof. unfold demo_events. trace_demo. Qed.

Lemma demo_ignored_trace : trace [6; 7; 8; 9; 10] 1 demo_ignored.
Proof. unfold demo_ignored. trace_demo. Qed.

Definition demo_download (es : list event) : res (option Z * arr * list request) :=
  download 1 (chars "http://a.b/c") (chars "./") (chars "c") 5 (Some [Some (chars "::1"); Some (chars "10.0.0.1")])
    (replicate 256 1) (replicate 16 1) true es.

Definition demo_request (range : string) : request :=
  mk_request (chars "http://10.0.0.1:80/c") (chars "Host: a.b") (chars range).


Lemma replace_domain_correct_witness :
  replace_domain_with_ip (chars "http://a.b/c") (Some [Some (chars "::1"); Some (chars "10.0.0.1")])
    (replicate 256 1) (replicate 16 1) (replicate 256 0) = Ok (buf 256 (chars "a.b"), chars "http://10.0.0.1:80/c").
Proof.
  destruct (replace_domain_correct (chars "a.b") (chars "c") (replicate 256 1) (replicate 16 1) [Some (chars "::1")] (chars "10.0.0.1")) as [E _].
  - repeat split; [apply (bool_decide_unpack _); vm_compute; exact I..].
  - apply (bool_decide_unpack _); vm_compute; exact I.
  - reflexivity.
  - reflexivity.
  - repeat constructor; cbn; unfold IP_SIZE; lia.
  - apply (bool_decide_unpack _); vm_compute; exact I.
  - cbn. unfold IP_SIZE. lia.
  - apply E; [apply (bool_decide_unpack _); vm_compute; exact I|cbn; unfold URI_SIZE; lia].
Defined.
