(* ===== verification/Log.v ===== *)
(** * Log files with rotation (log/log.c, socket/libevent/server/log.c,
    socket/libevent/client/log.c)

    The three files have the same code; they differ in the size at which a
    file is put away and in what happens to it then: log/log.c removes it, the
    others rename it to one of a fixed number of names, in turn.  The file
    system is a map from names to contents, on which only this program works;
    the time, the text of the message and whether a file can be opened are
    arguments. *)
From Stdlib Require Import String.
From stdpp Require Import gmap.
From S2P Require Import Prelude CArr CBuf CInt Hosts CDec.

(** ** The configurations *)
Record config := mk_config { FILE_MAX_SIZE : Z; LOG_NUMBER : option Z }.

Definition log_config : config := mk_config 100 None.
Definition server_config : config := mk_config (1024 * 1024 * 5) (Some 10).
Definition client_config : config := mk_config (1024 * 1024 * 1) (Some 3).

Definition MAX_LOG_BUF : Z := 2046.
Definition FILENAME_SIZE : Z := 128.
Definition NEW_NAME_SIZE : Z := 256.

(** ** State: the file system, the globals and what was written to stderr *)
Record log := mk_log {
  files : gmap arr arr;
  fp : option arr;
  g_filename : arr;
  g_rotate : bool;
  g_file_number : Z;
  err : arr }.

Definition set_files (f : gmap arr arr → gmap arr arr) (l : log) : log :=
  mk_log (f (files l)) (fp l) (g_filename l) (g_rotate l) (g_file_number l) (err l).
Definition set_fp (p : option arr) (l : log) : log :=
  mk_log (files l) p (g_filename l) (g_rotate l) (g_file_number l) (err l).
Definition set_filename (n : arr) (l : log) : log :=
  mk_log (files l) (fp l) n (g_rotate l) (g_file_number l) (err l).
Definition set_rotate (l : log) : log :=
  mk_log (files l) (fp l) (g_filename l) true (g_file_number l) (err l).
Definition set_number (k : Z) (l : log) : log :=
  mk_log (files l) (fp l) (g_filename l) (g_rotate l) k (err l).
Definition add_err (s : arr) (l : log) : log :=
  mk_log (files l) (fp l) (g_filename l) (g_rotate l) (g_file_number l) (err l ++ s).

(** ** The file system *)
Definition fopen_append (can : bool) (name : arr) : M log bool :=
  if can then
    modify (set_files (λ fs, <[name := default [] (fs !! name)]> fs));;
    modify (set_fp (Some name));; mret true
  else modify (set_fp None);; mret false.

Definition fwrite (bytes : arr) : M log unit :=
  p ← gets fp;
  match p with
  | None => fail Segv
  | Some name => modify (set_files (λ fs, <[name := default [] (fs !! name) ++ bytes]> fs))
  end.

Definition rename (old new : arr) : M log unit :=
  modify (set_files (λ fs,
    match fs !! old with
    | Some c => <[new := c]> (if decide (old = new) then fs else delete old fs)
    | None => fs
    end)).

Definition unlink (name : arr) : M log unit := modify (set_files (delete name)).

Definition get_file_size (filename : arr) : M log Z :=
  fs ← gets files; mret (Z.of_nat (length (default [] (fs !! filename)))).

(** ** The code *)
Definition log_init (can : bool) (name : option arr) : M log Z :=
  match name with
  | None => mret (-1)
  | Some name =>
      rotate ← gets g_rotate;
      (if (rotate : bool) then mret ()
       else if fits FILENAME_SIZE name then modify (set_filename name) else fail Segv);;
      ok ← fopen_append can name;
      mret (if (ok : bool) then 0 else -1)
  end.

Definition log_close : M log Z :=
  p ← gets fp;
  match p with None => mret (-1) | Some _ => modify (set_fp None);; mret 0 end.

(** [%02d] and [%03ld] of a number that is not negative. *)
Definition two (n : Z) : arr := if n <? 10 then 48 :: dec n else dec n.
Definition three (n : Z) : arr := if n <? 10 then 48 :: 48 :: dec n else if n <? 100 then 48 :: dec n else dec n.

Record tm := mk_tm { tm_mon : Z; tm_mday : Z; tm_hour : Z; tm_min : Z; tm_sec : Z; tv_nsec : Z }.

Definition premakerstr_time (t : tm) : arr :=
  chars "[" ++ two (tm_mon t + 1) ++ chars "-" ++ two (tm_mday t) ++ chars " " ++ two (tm_hour t) ++ chars ":" ++
  two (tm_min t) ++ chars ":" ++ two (tm_sec t) ++ chars "." ++ three (Z.quot (tv_nsec t) 1000000) ++ chars "] ".

(** The name for the file that is put away. *)
Definition numbered (g : arr) (k : Z) : arr := g ++ 46 :: dec k.

Definition new_name (cfg : config) : M log arr :=
  g ← gets g_filename;
  match LOG_NUMBER cfg with
  | Some n =>
      k ← gets g_file_number;
      modify (set_number (if n <=? k + 1 then 0 else k + 1));;
      let new := numbered g k in
      if fits NEW_NAME_SIZE new then unlink new;; mret new else fail Segv
  | None => if fits NEW_NAME_SIZE g then unlink g;; mret g else fail Segv
  end.

Definition rotate (cfg : config) (can : bool) : M log unit :=
  new ← new_name cfg;
  g ← gets g_filename;
  modify (set_fp None);;
  rename g new;;
  modify set_rotate;;
  log_init can (Some g);;
  mret ().

(** [msg] is the formatted message: [vsnprintf] returns its full length, also
    if it writes only a part of it. *)
Definition logw (cfg : config) (can : bool) (t : tm) (msg : arr) : M log Z :=
  let pre := premakerstr_time t in
  let prestrlen := Z.of_nat (length pre) in
  let size := Z.of_nat (length msg) in
  let written := take (Z.to_nat (MAX_LOG_BUF - prestrlen - 1)) msg in
  let g_buffer := pre ++ written ++ [0] in
  p ← gets fp;
  match p with
  | None => modify (add_err (pre ++ written));; mret 0
  | Some _ =>
      g ← gets g_filename;
      length ← get_file_size g;
      (if FILE_MAX_SIZE cfg <? length then rotate cfg can else mret ());;
      (if MAX_LOG_BUF <? size + prestrlen then fail Overread
       else fwrite (take (Z.to_nat (size + prestrlen)) g_buffer));;
      mret 0
  end.

(** The program of log/log.c; [t] is the time of each message. *)
Definition messages : list arr := (λ m, chars m ++ [NL]) <$>
  ["hello worldeeee"; "hello worldrrrrfg"; "hello worldddddddt"; "hello worldccaaa"; "hello worldaa"; "hello worldddt";
   "hello worldxxxx, hello, 123, t"]%string.
Fixpoint log_messages (can : bool) (t : nat → tm) (i : nat) (ms : list arr) : M log unit :=
  match ms with [] => mret () | m :: ms => logw log_config can (t i) m;; log_messages can t (S i) ms end.
Definition main (can : bool) (t : nat → tm) : M log Z :=
  log_init can (Some (chars "test.log"));; log_messages can t 0 messages;; log_close;; mret 0.

(** Runs the straight-line parts of the code. *)
Ltac log_run :=
  repeat (unfold mbind, M_bind, mret, M_ret, gets, modify, log_init, fopen_append, fwrite, rename, unlink, get_file_size,
    set_files, set_fp, set_filename, set_rotate, set_number, add_err;
    cbn [files fp g_filename g_rotate g_file_number err negb default from_option id]).

(** ** One message *)
Section log_file.
Context (cfg : config) (name : arr).
Notation entry t msg := (premakerstr_time t ++ msg).
Definition short (e : arr) : Prop := Z.of_nat (length e) < MAX_LOG_BUF.
Definition config_ok : Prop := match LOG_NUMBER cfg with Some n => 1 ≤ n ≤ 100 | None => True end.

(** The state when the log is open. *)
Record opened (l : log) (cur : arr) : Prop := {
  op_fp : fp l = Some name;
  op_name : g_filename l = name;
  op_cur : files l !! name = Some cur;
  op_number : match LOG_NUMBER cfg with Some n => 0 ≤ g_file_number l < n | None => True end }.

(** What logging the text [e] does to it. *)
Definition logged (e cur : arr) (l : log) : log :=
  if FILE_MAX_SIZE cfg <? Z.of_nat (length cur) then
    let k := g_file_number l in
    match LOG_NUMBER cfg with
    | Some n => mk_log (<[name := e]> (<[numbered name k := cur]> (files l))) (Some name) name true (if n <=? k + 1 then 0 else k + 1) (err l)
    | None => mk_log (<[name := e]> (files l)) (Some name) name true k (err l)
    end
  else mk_log (<[name := cur ++ e]> (files l)) (Some name) name (g_rotate l) (g_file_number l) (err l).

Hypothesis (Hcfg : config_ok) (Hname : fits FILENAME_SIZE name = true).

Lemma numbered_ne k : numbered name k ≠ name.
Proof. unfold numbered. intros E. apply (f_equal length) in E. rewrite length_app in E. cbn [length] in E. lia. Qed.

Lemma numbered_fits k : 0 ≤ k < 100 → fits NEW_NAME_SIZE (numbered name k) = true.
Proof.
  intros Hk. apply Z.ltb_lt in Hname. apply Z.ltb_lt. unfold numbered, FILENAME_SIZE, NEW_NAME_SIZE in *.
  pose proof (dec_length k). rewrite length_app. cbn [length]. lia.
Qed.

Lemma numbered_inj j k : 0 ≤ j → 0 ≤ k → numbered name j = numbered name k → j = k.
Proof. intros Hj Hk E. apply dec_inj; [done..|]. unfold numbered in E. apply app_inv_head in E. by injection E. Qed.

(** The state between the closing of the full file and the first write to the
    new one. *)
Definition rotated (cur : arr) (l : log) : log :=
  let k := g_file_number l in
  match LOG_NUMBER cfg with
  | Some n => mk_log (<[name := []]> (<[numbered name k := cur]> (files l))) (Some name) name true (if n <=? k + 1 then 0 else k + 1) (err l)
  | None => mk_log (<[name := []]> (files l)) (Some name) name true k (err l)
  end.

Lemma rotate_ok l cur : opened l cur → rotate cfg true l = Ok ((), rotated cur l).
Proof.
  intros [F N C K]. unfold rotate, new_name, rotated. unfold config_ok in Hcfg.
  destruct l as [fs p g r k er]. cbn in F, N, C, K. subst g p.
  destruct (LOG_NUMBER cfg) as [n|]; log_run.
  - rewrite numbered_fits by lia. log_run. rewrite lookup_delete_ne by apply numbered_ne. rewrite C.
    rewrite decide_False by (apply not_eq_sym, numbered_ne). do 3 f_equal. pose proof (numbered_ne k).
    apply map_eq. intros i. destruct (decide (i = name)) as [->|]; simplify_map_eq; [done|].
    destruct (decide (i = numbered name k)) as [->|]; by simplify_map_eq.
  - assert (fits NEW_NAME_SIZE name = true) as ->.
    { apply Z.ltb_lt. apply Z.ltb_lt in Hname. unfold FILENAME_SIZE, NEW_NAME_SIZE in *. lia. }
    log_run. rewrite lookup_delete_eq, lookup_delete_eq. do 3 f_equal. apply insert_delete_eq.
Qed.

Lemma entry_written t msg : short (entry t msg) →
  take (Z.to_nat (Z.of_nat (length msg) + Z.of_nat (length (premakerstr_time t))))
    (premakerstr_time t ++ take (Z.to_nat (MAX_LOG_BUF - Z.of_nat (length (premakerstr_time t)) - 1)) msg ++ [0]) = entry t msg.
Proof.
  unfold short. rewrite length_app. intros Hs. rewrite (take_ge msg) by lia. rewrite app_assoc.
  rewrite take_app_le by (rewrite length_app; lia). apply take_ge. rewrite length_app. lia.
Qed.

Lemma logw_ok l cur t msg : opened l cur → short (entry t msg) →
  logw cfg true t msg l = Ok (0, logged (entry t msg) cur l).
Proof.
  intros O Hs. unfold logw, logged. pose proof (entry_written t msg Hs) as Hw.
  assert (MAX_LOG_BUF <? Z.of_nat (length msg) + Z.of_nat (length (premakerstr_time t)) = false) as Hb.
  { apply Z.ltb_ge. unfold short in Hs. rewrite length_app in Hs. lia. }
  pose proof (rotate_ok l cur O) as Er. destruct O as [F N C K].
  log_run. rewrite F, N, C. log_run. rewrite Hb, Hw. destruct (FILE_MAX_SIZE cfg <? Z.of_nat (length cur)).
  - rewrite Er. unfold rotated. destruct (LOG_NUMBER cfg) as [n|]; log_run; by rewrite lookup_insert_eq, insert_insert_eq.
  - log_run. rewrite F. log_run. by rewrite C, F, N.
Qed.

Lemma logged_opened l cur e : opened l cur →
  opened (logged e cur l) (if FILE_MAX_SIZE cfg <? Z.of_nat (length cur) then e else cur ++ e).
Proof.
  intros [F N C K]. unfold logged. destruct (FILE_MAX_SIZE cfg <? _).
  - unfold config_ok in Hcfg. destruct (LOG_NUMBER cfg) as [n|] eqn:En; (split; cbn; [done|done|by rewrite lookup_insert_eq|]); rewrite En; [|done].
    destruct (Z.leb_spec n (g_file_number l + 1)); lia.
  - split; cbn; try done. by rewrite lookup_insert_eq.
Qed.
End log_file.

(** ** Many messages *)
Fixpoint log_all (cfg : config) (ms : list (tm * arr)) : M log unit :=
  match ms with [] => mret () | (t, msg) :: ms => logw cfg true t msg;; log_all cfg ms end.

Definition entries (ms : list (tm * arr)) : list arr := (λ m, premakerstr_time m.1 ++ m.2) <$> ms.

(** The log as the list of its files with the newest first, were none ever
    overwritten. *)
Definition put (cfg : config) (cs : list arr) (e : arr) : list arr :=
  match cs with
  | [] => [e]
  | c :: cs => if FILE_MAX_SIZE cfg <? Z.of_nat (length c) then e :: c :: cs else (c ++ e) :: cs
  end.
Definition chunks (cfg : config) (cs : list arr) (es : list arr) : list arr := foldl (put cfg) cs es.

(** No entry is lost or out of order in it. *)
Lemma chunks_concat cfg cs es : mjoin (rev (chunks cfg cs es)) = mjoin (rev cs) ++ mjoin es.
Proof.
  revert cs. induction es as [|e es IH]; intros cs; cbn [chunks foldl]; [by rewrite app_nil_r|].
  unfold chunks in IH. rewrite IH. unfold put. destruct cs as [|c cs]; [cbn; by rewrite app_nil_r|].
  destruct (FILE_MAX_SIZE cfg <? _); cbn [rev mjoin list_join]; rewrite !join_app; cbn; by rewrite ?app_nil_r, <- ?app_assoc.
Qed.

Definition small (cfg : config) (c : arr) : Prop := Z.of_nat (length c) < FILE_MAX_SIZE cfg + MAX_LOG_BUF.

Section history.
Context (cfg : config) (name : arr) (n : Z) (fs : gmap arr arr).
Hypothesis (Hcfg : LOG_NUMBER cfg = Some n) (Hmax : 0 ≤ FILE_MAX_SIZE cfg) (Hn : 1 ≤ n ≤ 100) (Hname : fits FILENAME_SIZE name = true).

(** The files in the directory are the newest ones of [cur :: full]. *)
Record history (cur : arr) (full : list arr) (l : log) : Prop := {
  hi_open : opened cfg name l cur;
  hi_number : g_file_number l = Z.of_nat (length full) mod n;
  hi_files : ∀ j c, Z.of_nat j < n → full !! j = Some c →
    files l !! numbered name ((Z.of_nat (length full) - 1 - Z.of_nat j) mod n) = Some c;
  hi_small : Forall (small cfg) (cur :: full);
  hi_only : ∀ f c, files l !! f = Some c → fs !! f = Some c ∨ small cfg c ∧ (f = name ∨ ∃ k, 0 ≤ k < n ∧ f = numbered name k) }.

Lemma numbers_ok : config_ok cfg.
Proof. unfold config_ok. by rewrite Hcfg. Qed.

Lemma next_number m : 0 ≤ m → (if n <=? m mod n + 1 then 0 else m mod n + 1) = (m + 1) mod n.
Proof.
  intros Hm. pose proof (Z.mod_pos_bound m n ltac:(lia)). rewrite <- Z.add_mod_idemp_l by lia.
  destruct (Z.leb_spec n (m mod n + 1)); [|by rewrite (Z.mod_small (m mod n + 1)) by lia].
  replace (m mod n + 1) with n by lia. by rewrite Z.mod_same by lia.
Qed.

Lemma mod_apart m j : 0 < j < n → (m - j) mod n ≠ m mod n.
Proof.
  intros Hj E. pose proof (Z.div_mod m n ltac:(lia)) as E1. pose proof (Z.div_mod (m - j) n ltac:(lia)) as E2.
  rewrite E in E2. generalize dependent (m mod n). intros r _ E1 E2.
  generalize dependent (m / n). generalize dependent ((m - j) / n). intros a E2 b E1. assert (n * (b - a) = j) by lia. destruct (Z.le_gt_cases (b - a) 0); nia.
Qed.

Lemma logged_files l cur e f c : opened cfg name l cur → files (logged cfg name e cur l) !! f = Some c →
  files l !! f = Some c ∨ f = name ∧ c = (if FILE_MAX_SIZE cfg <? Z.of_nat (length cur) then e else cur ++ e) ∨
  f = numbered name (g_file_number l) ∧ c = cur.
Proof.
  intros O. unfold logged. rewrite Hcfg. destruct (FILE_MAX_SIZE cfg <? _); cbn; rewrite !lookup_insert;
    repeat case_decide; naive_solver.
Qed.

Lemma history_step cur full l e : short e → history cur full l →
  ∃ cur' full', put cfg (cur :: full) e = cur' :: full' ∧ history cur' full' (logged cfg name e cur l).
Proof.
  intros Hs [O K F S A]. pose proof (logged_opened cfg name numbers_ok l cur e O) as O'.
  assert (0 ≤ g_file_number l < n) as Hk by (destruct O as [_ _ _ HK]; by rewrite Hcfg in HK).
  apply Forall_cons in S as [Sc Sf]. unfold put.
  assert (small cfg (if FILE_MAX_SIZE cfg <? Z.of_nat (length cur) then e else cur ++ e)) as Se.
  { unfold short, small in *. destruct (Z.ltb_spec (FILE_MAX_SIZE cfg) (Z.of_nat (length cur))); rewrite ?length_app; lia. }
  assert (∀ f c, files (logged cfg name e cur l) !! f = Some c → fs !! f = Some c ∨ small cfg c ∧ (f = name ∨ ∃ k, 0 ≤ k < n ∧ f = numbered name k)) as A'.
  { intros f c Hf. destruct (logged_files l cur e f c O Hf) as [Hf'|[[-> ->]|[-> ->]]]; [by apply A|eauto|]. right. split; [done|]. right. eauto. }
  revert O' Se A'. unfold logged. rewrite Hcfg. destruct (FILE_MAX_SIZE cfg <? _); intros O' Se A'; (eexists _, _; split; [done|]); split; try done; cbn in *.
  - rewrite K, next_number by lia. f_equal. lia.
  - intros [|j] c Hj; cbn [lookup list_lookup]; rewrite lookup_insert_ne by (apply not_eq_sym, numbered_ne).
    + intros [= <-]. replace (Z.of_nat (S (length full)) - 1 - Z.of_nat 0) with (Z.of_nat (length full)) by lia.
      by rewrite K, lookup_insert_eq.
    + intros Hc. replace (Z.of_nat (S (length full)) - 1 - Z.of_nat (S j)) with (Z.of_nat (length full) - 1 - Z.of_nat j) by lia.
      rewrite lookup_insert_ne; [apply F; [lia|done]|]. rewrite K. intros E. apply numbered_inj in E; [|apply Z.mod_pos_bound; lia..].
      apply (mod_apart (Z.of_nat (length full)) (Z.of_nat (S j))); [lia|]. rewrite E. f_equal. lia.
  - by repeat constructor.
  - intros j c Hj Hc. rewrite lookup_insert_ne by (apply not_eq_sym, numbered_ne). by apply F.
  - by constructor.
Qed.

Lemma log_all_ok ms cur full l : Forall short (entries ms) → history cur full l →
  ∃ l' cur' full', log_all cfg ms l = Ok ((), l') ∧ chunks cfg (cur :: full) (entries ms) = cur' :: full' ∧ history cur' full' l'.
Proof.
  revert cur full l. induction ms as [|[t msg] ms IH]; intros cur full l Hs H; [by eexists _, _, _|].
  apply Forall_cons in Hs as [Hs Hms]. destruct (history_step cur full l _ Hs H) as (cur1 & full1 & E1 & H1).
  destruct (IH cur1 full1 _ Hms H1) as (l' & cur' & full' & E & Ec & H'). exists l', cur', full'.
  split; [|split; [|done]].
  - cbn [log_all]. erewrite bind_ok; [exact E|]. apply logw_ok; [apply numbers_ok|done|apply H|done].
  - unfold chunks in *. unfold entries in *. cbn [fmap list_fmap foldl]. rewrite E1. exact Ec.
Qed.

(** A log that has been opened for the first time. *)
Definition closed : log := mk_log fs None [] false 0 [].

Lemma log_init_ok : fs !! name = None →
  ∃ l, log_init true (Some name) closed = Ok (0, l) ∧ history [] [] l.
Proof.
  intros Hf. eexists. unfold closed. log_run. rewrite Hname. log_run. split; [done|]. rewrite Hf. split; cbn.
  - split; cbn; try done; [by rewrite lookup_insert_eq|]. rewrite Hcfg. lia.
  - by rewrite Z.mod_0_l by lia.
  - done.
  - constructor; [|constructor]. unfold small, MAX_LOG_BUF. cbn. lia.
  - intros f c. rewrite lookup_insert. case_decide as Hd; [|by left]. intros [= <-]. right.
    split; [unfold small, MAX_LOG_BUF; cbn; lia|by left].
Qed.
End history.

(** ** Properties *)

(** C18: a log with numbered files loses nothing but its oldest files.  After any
    messages that fit into the buffer, the files cut the sequence of all entries
    into pieces: the current one is in the log file, and the [n] before it are in
    the numbered files, in turn.  No file is longer than the limit and one entry
    together, and no other file of the directory changes. *)
Theorem log_history cfg name n fs ms :
  LOG_NUMBER cfg = Some n → 0 ≤ FILE_MAX_SIZE cfg → 1 ≤ n ≤ 100 → fits FILENAME_SIZE name = true →
  fs !! name = None → Forall short (entries ms) →
  ∃ l cur full, (log_init true (Some name);; log_all cfg ms) (closed fs) = Ok ((), l) ∧
    mjoin (rev (cur :: full)) = mjoin (entries ms) ∧
    files l !! name = Some cur ∧
    (∀ j c, Z.of_nat j < n → full !! j = Some c →
      files l !! numbered name ((Z.of_nat (length full) - 1 - Z.of_nat j) mod n) = Some c) ∧
    (∀ f c, files l !! f = Some c → fs !! f = Some c ∨
      Z.of_nat (length c) < FILE_MAX_SIZE cfg + MAX_LOG_BUF ∧ (f = name ∨ ∃ k, 0 ≤ k < n ∧ f = numbered name k)).
Proof.
  intros Hc Hm Hn Hf Hfs Hs. destruct (log_init_ok cfg name n fs Hc Hm Hn Hf Hfs) as (l0 & E0 & H0).
  destruct (log_all_ok cfg name n fs Hc Hm Hn Hf ms [] [] l0 Hs H0) as (l & cur & full & E & Ec & H).
  exists l, cur, full. split; [by run E0|]. split; [rewrite <- Ec; apply chunks_concat|].
  split; [apply H|]. split; [apply H|apply (hi_only _ _ _ _ _ _ _ H)].
Qed.

(** [logw] takes the length of the whole message, not of what fits, so that a
    long one makes it write what lies behind the buffer to the file; and if the
    log file cannot be opened again after it was put away, the write that
    follows uses a null pointer. *)
Theorem logw_faults cfg name l cur t msg :
  config_ok cfg → fits FILENAME_SIZE name = true → opened cfg name l cur →
  (MAX_LOG_BUF < Z.of_nat (length (premakerstr_time t ++ msg)) → logw cfg true t msg l = Err Overread) ∧
  (short (premakerstr_time t ++ msg) → FILE_MAX_SIZE cfg < Z.of_nat (length cur) → logw cfg false t msg l = Err Segv).
Proof.
  intros Hc Hf O. rewrite length_app. split.
  - intros Hl. pose proof (rotate_ok cfg name Hc Hf l cur O) as Er. destruct O as [F N C K]. unfold logw. log_run.
    rewrite F, N, C. log_run. rewrite (proj2 (Z.ltb_lt MAX_LOG_BUF _)) by lia. destruct (FILE_MAX_SIZE cfg <? _); [by rewrite Er|done].
  - unfold short. rewrite length_app. intros Hl Hm. pose proof (numbered_fits name Hf) as Hk. destruct O as [F N C K].
    unfold logw, rotate, new_name. log_run. rewrite F, N, C. log_run. rewrite (proj2 (Z.ltb_lt _ _) Hm).
    rewrite (proj2 (Z.ltb_ge MAX_LOG_BUF _)) by lia. unfold config_ok in Hc. destruct (LOG_NUMBER cfg) as [n|]; log_run; rewrite N.
    + rewrite Hk by lia. by log_run.
    + assert (fits NEW_NAME_SIZE name = true) as ->; [|by log_run]. apply Z.ltb_lt in Hf. apply Z.ltb_lt.
      unfold FILENAME_SIZE, NEW_NAME_SIZE in *. lia.
Qed.

Definition demo_time : tm := mk_tm 0 2 3 4 5 6000000.
Definition demo_log : M log unit :=
  log_init true (Some (chars "l"));; log_all (mk_config 10 (Some 2)) ((λ m, (demo_time, chars m)) <$> ["a"; "b"; "c"; "d"]%string).

Lemma log_history_witness :
  premakerstr_time demo_time = chars "[01-02 03:04:05.006] " ∧
  ∃ l, demo_log (closed ∅) = Ok ((), l) ∧ files l !! chars "l" = Some (chars "[01-02 03:04:05.006] d").
Proof.
  split; [reflexivity|].
  destruct (log_history (mk_config 10 (Some 2)) (chars "l") 2 ∅ ((λ m, (demo_time, chars m)) <$> ["a"; "b"; "c"; "d"]%string))
    as (l & cur & full & E & _ & Hc & _); [reflexivity|cbn; lia|lia|reflexivity|reflexivity| |].
  { repeat constructor. }
  exists l. split; [exact E|]. revert E. vm_compute. intros [= <-]. reflexivity.
Defined.

Lemma logw_faults_witness :
  logw log_config false demo_time (chars "x")
    (mk_log {[ chars "l" := replicate 101 65 ]} (Some (chars "l")) (chars "l") false 0 []) = Err Segv.
Proof.
  apply (logw_faults log_config (chars "l") _ (replicate 101 65)); [exact I|reflexivity| |reflexivity|reflexivity].
  split; reflexivity || exact I.
Defined.
