(* ===== verification/ObjCache.v ===== *)
(** * A cache of reference-counted objects (kernel/lock/)

    The modules of kernel/lock keep at most ten objects in a list and find them
    by a number.  sample_refcnt.c counts the references to an object under the
    lock of the cache, sample_refcnt_atomic.c with atomic operations, and
    mutex_sample_usercontext.c and spin_sample_interrupt.c have no counter: they
    copy the name of an object while they hold the lock.

    The lists and the allocator of the kernel are not part of the sources: the
    list is the sequence of the addresses of its entries, and the address that
    kmalloc gives is an argument.  Each function takes the lock once and holds
    it to its end, and the atomic operations are single steps, so that what
    several threads do is a sequence of the operations below. *)
From Stdlib Require Import String.
From stdpp Require Import gmap.
From S2P Require Import Prelude CArr CBuf CInt.

(** ** State *)
Record object := mk_object { refcnt : Z; id : Z; name : arr; popularity : Z }.
Record cstate := mk_cstate { heap : gmap Z object; cache : list Z; cache_num : Z }.

Definition MAX_CACHE_SIZE : Z := 10.
Definition NAME_SIZE : nat := 32.
Definition ENOMEM : Z := 12.
Definition ENOENT : Z := 2.

Definition set_heap (f : gmap Z object → gmap Z object) (s : cstate) : cstate := mk_cstate (f (heap s)) (cache s) (cache_num s).
Definition set_cache (f : list Z → list Z) (s : cstate) : cstate := mk_cstate (heap s) (f (cache s)) (cache_num s).
Definition set_num (n : Z) (s : cstate) : cstate := mk_cstate (heap s) (cache s) n.
Definition set_refcnt (r : Z) (o : object) : object := mk_object r (id o) (name o) (popularity o).
Definition liked (o : object) : object := mk_object (refcnt o) (id o) (name o) (s32 (popularity o + 1)).

Definition deref (p : Z) : M cstate object :=
  h ← gets heap; match h !! p with Some o => mret o | None => fail Segv end.
Definition store (p : Z) (o : object) : M cstate unit := modify (set_heap <[p := o]>).
Definition kfree (p : Z) : M cstate unit := modify (set_heap (delete p)).
Definition list_add (p : Z) : M cstate unit := modify (set_cache (p ::.)).
Definition list_del (p : Z) : M cstate unit :=
  c ← gets cache; if decide (p ∈ c) then modify (set_cache (filter (λ q, q ≠ p))) else fail Segv.

(** ** References *)
Definition __object_put (obj : Z) : M cstate unit :=
  o ← deref obj;
  let r := u32 (refcnt o - 1) in
  store obj (set_refcnt r o);;
  if r =? 0 then kfree obj else mret ().

Definition __object_get (obj : Z) : M cstate unit :=
  o ← deref obj; store obj (set_refcnt (u32 (refcnt o + 1)) o).

(** With the lock around them. *)
Definition object_put (obj : Z) : M cstate unit := __object_put obj.
Definition object_get (obj : Z) : M cstate unit := __object_get obj.

(** sample_refcnt_atomic.c: [atomic_dec_and_test] and [atomic_inc] of an
    [atomic_t], which is an int. *)
Definition atomic_dec_and_test (obj : Z) : M cstate bool :=
  o ← deref obj;
  let r := s32 (refcnt o - 1) in
  store obj (set_refcnt r o);; mret (r =? 0).
Definition object_put_atomic (obj : Z) : M cstate unit :=
  b ← atomic_dec_and_test obj; if (b : bool) then kfree obj else mret ().
Definition object_get_atomic (obj : Z) : M cstate unit :=
  o ← deref obj; store obj (set_refcnt (s32 (refcnt o + 1)) o).

(** ** The cache *)
Fixpoint find_loop (x : Z) (l : list Z) : M cstate Z :=
  match l with
  | [] => mret NULL
  | i :: l => o ← deref i; if id o =? x then store i (liked o);; mret i else find_loop x l
  end.
Definition __cache_find (x : Z) : M cstate Z := c ← gets cache; find_loop x c.

Fixpoint outcast_loop (outcast : Z) (l : list Z) : M cstate Z :=
  match l with
  | [] => mret outcast
  | i :: l =>
      o ← deref i;
      if outcast =? NULL then outcast_loop i l
      else oc ← deref outcast; outcast_loop (if popularity o <? popularity oc then i else outcast) l
  end.

Section cache.
(** What gives up the reference of the cache: [kfree], [__object_put] or
    [object_put_atomic]. *)
Context (put : Z → M cstate unit).

Definition __cache_delete (obj : Z) : M cstate unit :=
  if obj =? NULL then fail Abort
  else
    list_del obj;;
    put obj;;
    n ← gets cache_num; modify (set_num (u32 (n - 1))).

Definition __cache_add (obj : Z) : M cstate unit :=
  list_add obj;;
  n ← gets cache_num;
  modify (set_num (u32 (n + 1)));;
  if MAX_CACHE_SIZE <? u32 (n + 1) then
    c ← gets cache;
    outcast ← outcast_loop NULL c;
    __cache_delete outcast
  else mret ().

Definition cache_add (obj x : Z) (nm : arr) : M cstate Z :=
  if obj =? NULL then mret (- ENOMEM)
  else
    store obj (mk_object 1 x (take (NAME_SIZE - 1) nm) 0);;
    __cache_add obj;;
    mret 0.

Definition cache_delete (x : Z) : M cstate unit :=
  obj ← __cache_find x; __cache_delete obj.
End cache.

(** The result is a reference to the object, or NULL. *)
Definition cache_find (get : Z → M cstate unit) (x : Z) : M cstate Z :=
  obj ← __cache_find x;
  (if obj =? NULL then mret () else get obj);;
  mret obj.

(** The versions without counter copy the name: the result and the name. *)
Definition cache_find_name (x : Z) : M cstate (Z * option arr) :=
  obj ← __cache_find x;
  if obj =? NULL then mret (- ENOENT, None)
  else o ← deref obj; mret (0, Some (name o)).

Definition init_mutex (get put : Z → M cstate unit) (p1 p2 p3 : Z) : M cstate Z :=
  cache_add put p1 1 (chars "Richard");;
  cache_add put p2 2 (chars "Bob");;
  cache_add put p3 3 (chars "Alice");;
  obj ← cache_find get 2;
  deref obj;;
  mret 0.

Definition exit_mutex (put : Z → M cstate unit) : M cstate unit :=
  cache_delete put 1;; cache_delete put 2;; cache_delete put 3.

(** ** What the cache needs of the counters *)
Definition drop_ref (p : Z) (o : object) : gmap Z object → gmap Z object :=
  if refcnt o =? 1 then delete p else <[p := set_refcnt (refcnt o - 1) o]>.

Class Counting (get put : Z → M cstate unit) : Prop := {
  get_ok s p o : heap s !! p = Some o → 1 ≤ refcnt o < 2 ^ 31 - 1 →
    get p s = Ok ((), set_heap <[p := set_refcnt (refcnt o + 1) o]> s);
  put_ok s p o : heap s !! p = Some o → 1 ≤ refcnt o < 2 ^ 31 →
    put p s = Ok ((), set_heap (drop_ref p o) s) }.

Lemma deref_ok p o s : heap s !! p = Some o → deref p s = Ok (o, s).
Proof. intros H. unfold deref, gets, mbind, M_bind. by rewrite H. Qed.

Lemma dec_and_free p o s r : r = refcnt o - 1 →
  (if r =? 0 then kfree p else mret ()) (set_heap <[p := set_refcnt r o]> s) = Ok ((), set_heap (drop_ref p o) s).
Proof.
  intros ->. unfold drop_ref. destruct (Z.eqb_spec (refcnt o) 1) as [E|E].
  - rewrite E. change (1 - 1 =? 0) with true. unfold kfree, modify, set_heap. cbn [heap cache cache_num]. by rewrite delete_insert_eq.
  - by rewrite (proj2 (Z.eqb_neq _ _)) by lia.
Qed.

#[export] Instance locked_counting : Counting object_get object_put.
Proof.
  split; intros s p o H Hr.
  - unfold object_get, __object_get. run (deref_ok p o s H). unfold u32. by rewrite Z.mod_small by lia.
  - unfold object_put, __object_put. run (deref_ok p o s H). unfold u32. rewrite Z.mod_small by lia.
    unfold store. run (eq_refl (modify (set_heap <[p := set_refcnt (refcnt o - 1) o]>) s)). by apply dec_and_free.
Qed.

#[export] Instance atomic_counting : Counting object_get_atomic object_put_atomic.
Proof.
  split; intros s p o H Hr.
  - unfold object_get_atomic. run (deref_ok p o s H). by rewrite s32_id by lia.
  - unfold object_put_atomic, atomic_dec_and_test. run (deref_ok p o s H). rewrite s32_id by lia.
    unfold store. run (eq_refl (modify (set_heap <[p := set_refcnt (refcnt o - 1) o]>) s)). run (ret_ok (refcnt o - 1 =? 0) (set_heap <[p := set_refcnt (refcnt o - 1) o]> s)). by apply dec_and_free.
Qed.

(** ** Counters and references

    [f p] is the number of references to [p]; [n] bounds the popularity. *)
Record heap_ok (h : gmap Z object) (f : Z → Z) (n : Z) : Prop := {
  ho_count p o : h !! p = Some o → p ≠ NULL ∧ refcnt o = f p ∧ 1 ≤ f p ∧ 0 ≤ popularity o ≤ n;
  ho_live p : 1 ≤ f p → is_Some (h !! p) }.

Lemma heap_ok_set h f f' n n' p o' : heap_ok h f n → n ≤ n' → p ≠ NULL → 1 ≤ f' p →
  (∀ q, q ≠ p → f' q = f q) → refcnt o' = f' p → 0 ≤ popularity o' ≤ n' → heap_ok (<[p := o']> h) f' n'.
Proof.
  intros [C L] Hn Hp Hf Hq Hr Hl. split.
  - intros q o. rewrite lookup_insert. case_decide as D; [subst q; intros [= <-]; auto|].
    intros E. rewrite Hq by done. destruct (C q o E) as (? & ? & ? & ?). repeat split; try done; lia.
  - intros q Hf'. rewrite lookup_insert. case_decide as D; [eauto|]. apply L. by rewrite <- Hq.
Qed.

Lemma heap_ok_drop h f f' n p o : heap_ok h f n → h !! p = Some o → f' p = f p - 1 → (∀ q, q ≠ p → f' q = f q) →
  heap_ok (drop_ref p o h) f' n.
Proof.
  intros Hh Hp Hf Hq. destruct (ho_count _ _ _ Hh p o Hp) as (Np & Ep & Lp & Pp). unfold drop_ref.
  destruct (Z.eqb_spec (refcnt o) 1) as [E1|E1].
  - destruct Hh as [C L]. split.
    + intros q oq. rewrite lookup_delete. case_decide as D; [done|]. intros E. rewrite Hq by done. eauto.
    + intros q Hf'. rewrite lookup_delete. case_decide as D; [subst q; lia|]. apply L. by rewrite <- Hq.
  - eapply heap_ok_set; [done|done|done|lia|done| |done]. cbn. lia.
Qed.

Lemma heap_ok_ext h f f' n n' : heap_ok h f n → n ≤ n' → (∀ q, f' q = f q) → heap_ok h f' n'.
Proof.
  intros [C L] Hn Hq. split; [intros p o E|intros p]; rewrite Hq; [|apply L].
  destruct (C p o E) as (? & ? & ? & ?). repeat split; try done; lia.
Qed.

(** ** The invariant

    [held] are the references in the hands of clients. *)
Definition refs (c held : list Z) (p : Z) : Z := (if decide (p ∈ c) then 1 else 0) + Z.of_nat (occ p held).

Record inv (s : cstate) (held : list Z) (n : Z) : Prop := {
  i_nodup : NoDup (cache s);
  i_num : cache_num s = Z.of_nat (length (cache s));
  i_max : Z.of_nat (length (cache s)) ≤ MAX_CACHE_SIZE;
  i_held : Z.of_nat (length held) ≤ n;
  i_heap : heap_ok (heap s) (refs (cache s) held) n }.

(** What a client sees of the cache. *)
Definition info (h : gmap Z object) (p : Z) : Z * arr := match h !! p with Some o => (id o, name o) | None => (0, []) end.
Definition contents (s : cstate) : list (Z * arr) := info (heap s) <$> cache s.

Lemma occ_le_length x l : (occ x l ≤ length l)%nat.
Proof. induction l as [|y l IH]; cbn [occ length]; [done|]. case_decide; lia. Qed.

Lemma inv_in s held n p : inv s held n → p ∈ cache s ∨ p ∈ held → n < 2 ^ 31 - 2 →
  ∃ o, heap s !! p = Some o ∧ p ≠ NULL ∧ refcnt o = refs (cache s) held p ∧ 1 ≤ refcnt o < 2 ^ 31 - 1 ∧ 0 ≤ popularity o ≤ n.
Proof.
  intros [_ _ _ Hh [C L]] Hp Hn. assert (1 ≤ refs (cache s) held p) as Hr.
  { unfold refs. destruct Hp as [Hp|Hp]; [rewrite decide_True by done; lia|]. apply elem_of_occ in Hp. case_decide; lia. }
  destruct (L p Hr) as [o E]. destruct (C p o E) as (N & R & G & P). exists o. split; [done|]. split; [done|].
  split; [done|]. split; [|done]. rewrite R. unfold refs in *. pose proof (occ_le_length p held). case_decide; lia.
Qed.

Fixpoint remove1 (p : Z) (l : list Z) : list Z :=
  match l with [] => [] | q :: l => if decide (p = q) then l else q :: remove1 p l end.

Lemma occ_remove1 p q l : p ∈ l → occ q (remove1 p l) = (occ q l - (if decide (q = p) then 1 else 0))%nat.
Proof.
  induction l as [|x l IH]; intros Hp; [by apply elem_of_nil in Hp|]. cbn [remove1 occ]. destruct (decide (p = x)) as [->|D].
  - case_decide; lia.
  - apply elem_of_cons in Hp as [->|Hp]; [done|]. cbn [occ]. rewrite IH by done. apply elem_of_occ in Hp.
    repeat case_decide; subst; lia.
Qed.

Lemma length_remove1 p l : (length (remove1 p l) ≤ length l)%nat.
Proof. induction l as [|x l IH]; cbn [remove1 length]; [done|]. case_decide; cbn [length]; lia. Qed.

Lemma info_insert h p o o' q : h !! p = Some o → id o' = id o → name o' = name o → info (<[p := o']> h) q = info h q.
Proof. intros E Ei En. unfold info. rewrite lookup_insert. case_decide as D; [subst; by rewrite E, Ei, En|done]. Qed.

(** *** Looking an object up *)
Fixpoint lookup_id (x : Z) (h : gmap Z object) (l : list Z) : option Z :=
  match l with [] => None | p :: l => if (info h p).1 =? x then Some p else lookup_id x h l end.

Lemma lookup_id_elem x h l p : lookup_id x h l = Some p → p ∈ l ∧ (info h p).1 = x.
Proof.
  induction l as [|q l IH]; cbn [lookup_id]; [done|]. destruct (Z.eqb_spec (info h q).1 x) as [E|E].
  - intros [= <-]. split; [constructor|done].
  - intros H. destruct (IH H). split; [by constructor|done].
Qed.

Definition found (x : Z) (s : cstate) : cstate :=
  match lookup_id x (heap s) (cache s) with
  | Some p => set_heap (λ h, match h !! p with Some o => <[p := liked o]> h | None => h end) s
  | None => s
  end.

Lemma find_loop_ok x l s : (∀ p, p ∈ l → is_Some (heap s !! p)) →
  find_loop x l s =
    Ok (default NULL (lookup_id x (heap s) l),
        match lookup_id x (heap s) l with
        | Some p => set_heap (λ h, match h !! p with Some o => <[p := liked o]> h | None => h end) s
        | None => s
        end).
Proof.
  induction l as [|p l IH]; intros Hl; [done|]. cbn [find_loop lookup_id]. destruct (Hl p) as [o E]; [constructor|].
  run (deref_ok p o s E). unfold info. rewrite E. cbn [fst]. destruct (id o =? x).
  - unfold store, modify, set_heap, mbind, M_bind, mret, M_ret. by rewrite E.
  - apply IH. intros q Hq. apply Hl. by constructor.
Qed.

Lemma cache_find_inner x s held n : inv s held n → n < 2 ^ 31 - 2 →
  __cache_find x s = Ok (default NULL (lookup_id x (heap s) (cache s)), found x s).
Proof.
  intros I Hn. unfold __cache_find. run (eq_refl (gets cache s)). apply find_loop_ok.
  intros p Hp. destruct (inv_in s held n p I) as (o & E & _); eauto.
Qed.

Lemma found_inv x s held n : inv s held n → n < 2 ^ 31 - 2 → inv (found x s) held (n + 1).
Proof.
  intros I Hn. unfold found. destruct (lookup_id x (heap s) (cache s)) as [p|] eqn:El.
  - apply lookup_id_elem in El as [Hp _]. destruct (inv_in s held n p I) as (o & E & Np & R & Rb & P); [by left|done|].
    destruct I as [N M L H Hh]. split; cbn; try done; [lia|]. rewrite E.
    eapply heap_ok_set; [done|lia|done| |done|done|cbn; rewrite s32_id; lia]. lia.
  - destruct I as [N M L H Hh]. split; try done; [lia|]. eapply heap_ok_ext; [done|lia|done].
Qed.

Lemma found_contents x s : contents (found x s) = contents s ∧ cache (found x s) = cache s ∧ cache_num (found x s) = cache_num s ∧
  ∀ q, info (heap (found x s)) q = info (heap s) q.
Proof.
  assert (∀ q, info (heap (found x s)) q = info (heap s) q) as Hi.
  { intros q. unfold found. destruct (lookup_id _ _ _) as [p|]; [|done]. cbn. destruct (heap s !! p) as [o|] eqn:E; [|done].
    by apply (info_insert _ _ o). }
  assert (cache (found x s) = cache s ∧ cache_num (found x s) = cache_num s) as [Hc Hm] by (unfold found; by destruct (lookup_id _ _ _)).
  split; [|done]. unfold contents. rewrite Hc. apply list_fmap_ext. intros i q _. apply Hi.
Qed.

(** *** Adding and removing *)
Section operations.
Context (get put : Z → M cstate unit) `{!Counting get put}.

Lemma delete_ok s p o : p ≠ NULL → p ∈ cache s → heap s !! p = Some o → 1 ≤ refcnt o < 2 ^ 31 → 1 ≤ cache_num s < 2 ^ 32 →
  __cache_delete put p s = Ok ((), mk_cstate (drop_ref p o (heap s)) (filter (λ q, q ≠ p) (cache s)) (cache_num s - 1)).
Proof.
  intros Np Hc E R N. unfold __cache_delete. rewrite (proj2 (Z.eqb_neq _ _) Np).
  assert (list_del p s = Ok ((), set_cache (filter (λ q, q ≠ p)) s)) as El.
  { unfold list_del, gets, mbind, M_bind. by rewrite decide_True. }
  run El. run (put_ok (set_cache (filter (λ q, q ≠ p)) s) p o E R).
  unfold gets, modify, mbind, M_bind, u32. cbn. by rewrite Z.mod_small by lia.
Qed.

Lemma outcast_first p o l s : p ≠ NULL → heap s !! p = Some o →
  (∀ q, q ∈ l → ∃ oq, heap s !! q = Some oq ∧ popularity o ≤ popularity oq) → outcast_loop p l s = Ok (p, s).
Proof.
  intros Np E. induction l as [|q l IH]; intros Hl; [done|]. cbn [outcast_loop].
  destruct (Hl q) as (oq & Eq & Hq); [constructor|]. run (deref_ok q oq s Eq). rewrite (proj2 (Z.eqb_neq _ _) Np).
  run (deref_ok p o s E). rewrite (proj2 (Z.ltb_ge _ _)) by done. apply IH. intros r Hr. apply Hl. by constructor.
Qed.

Lemma filter_fresh (p : Z) (l : list Z) : p ∉ l → filter (λ q, q ≠ p) l = l.
Proof.
  induction l as [|q l IH]; intros H; [done|]. apply not_elem_of_cons in H as [H1 H2].
  rewrite filter_cons_True by congruence. by rewrite IH.
Qed.

Definition added (p x : Z) (nm : arr) (s : cstate) : cstate :=
  mk_cstate (<[p := mk_object 1 x (take (NAME_SIZE - 1) nm) 0]> (heap s)) (p :: cache s) (cache_num s + 1).

Lemma fresh_in s held n p : inv s held n → n < 2 ^ 31 - 2 → heap s !! p = None → p ∉ cache s ∧ occ p held = 0%nat.
Proof.
  intros I Hn Hp. split; [|apply not_elem_of_occ]; intros Hi; destruct (inv_in s held n p I) as (o & E & _); eauto; congruence.
Qed.

(** In a full cache the new object is the first of those with the least
    popularity. *)
Lemma add_full_inner h c m p o : p ≠ NULL → h !! p = None → p ∉ c → refcnt o = 1 → 10 ≤ m < 100 →
  (∀ q, q ∈ c → ∃ oq, h !! q = Some oq ∧ popularity o ≤ popularity oq) →
  __cache_add put p (mk_cstate (<[p := o]> h) c m) = Ok ((), mk_cstate h c m).
Proof.
  intros Np Hp Fc R Hm Hq. unfold __cache_add, list_add. do 3 erewrite bind_ok by reflexivity.
  unfold set_cache, set_num, u32, MAX_CACHE_SIZE. cbn [heap cache cache_num]. rewrite Z.mod_small, (proj2 (Z.ltb_lt _ _)) by lia.
  erewrite bind_ok by reflexivity. cbn [cache].
  erewrite bind_ok. 2:{ cbn [outcast_loop]. erewrite bind_ok by (apply deref_ok, lookup_insert_eq). cbn.
    apply (outcast_first p o); [done|apply lookup_insert_eq|]. intros q Hc. destruct (Hq q Hc) as (oq & Eq & L).
    exists oq. cbn. split; [|done]. by rewrite lookup_insert_ne by (intros ->; congruence). }
  rewrite (delete_ok _ p o); cbn [heap cache cache_num]; [|done|constructor|apply lookup_insert_eq|lia|lia].
  unfold drop_ref. rewrite R. change (1 =? 1) with true. cbn match. rewrite delete_insert_id by done.
  rewrite filter_cons_False by naive_solver. rewrite filter_fresh by done. do 3 f_equal. lia.
Qed.

Lemma add_ok s held n p x nm : inv s held n → n < 2 ^ 31 - 2 → p ≠ NULL → heap s !! p = None →
  cache_add put p x nm s = Ok (0, if Z.of_nat (length (cache s)) <? MAX_CACHE_SIZE then added p x nm s else s).
Proof.
  intros I Hn Np Hp. destruct (fresh_in s held n p I Hn Hp) as [Fc _]. unfold cache_add.
  rewrite (proj2 (Z.eqb_neq _ _) Np). set (o := mk_object 1 x _ 0).
  pose proof (i_num _ _ _ I) as Em. pose proof (i_max _ _ _ I) as Hm. unfold MAX_CACHE_SIZE in *. unfold store.
  erewrite bind_ok by reflexivity. destruct (Z.ltb_spec (Z.of_nat (length (cache s))) 10).
  - unfold __cache_add, list_add, MAX_CACHE_SIZE. rewrite bind_assoc. do 3 (rewrite ?bind_assoc; erewrite bind_ok by reflexivity).
    unfold set_heap, set_cache, set_num, u32. cbn [heap cache cache_num]. rewrite Z.mod_small, (proj2 (Z.ltb_ge _ _)) by lia. done.
  - erewrite bind_ok. 2:{ apply add_full_inner; try done; [lia|]. intros q Hq.
      destruct (inv_in s held n q I) as (oq & Eq & _ & _ & _ & P); [by left|done|]. exists oq. split; [done|cbn; lia]. }
    by destruct s.
Qed.

End operations.

Lemma filter_split (p : Z) (l1 l2 : list Z) : NoDup (l1 ++ p :: l2) → filter (λ q, q ≠ p) (l1 ++ p :: l2) = l1 ++ l2.
Proof.
  intros N. rewrite NoDup_app, NoDup_cons in N. destruct N as (_ & N1 & N2 & _).
  rewrite filter_app, filter_cons_False by naive_solver. rewrite !filter_fresh; [done|done|].
  intros H. apply (N1 p H). constructor.
Qed.

Definition dropped (p : Z) (o : object) (s : cstate) : cstate :=
  mk_cstate (drop_ref p o (heap s)) (filter (λ q, q ≠ p) (cache s)) (cache_num s - 1).

Lemma dropped_inv s held n p o : inv s held n → p ∈ cache s → heap s !! p = Some o → inv (dropped p o s) held n.
Proof.
  intros [N M L H Hh] Hp E. unfold dropped. apply list_elem_of_split in Hp as (l1 & l2 & Ec). rewrite Ec in *.
  rewrite filter_split by done. split; cbn; try done.
  - rewrite NoDup_app, NoDup_cons in N. rewrite NoDup_app. destruct N as (? & N1 & ? & ?). repeat split; try done.
    intros q Hq Hq'. apply (N1 q Hq). by constructor.
  - rewrite M, !length_app. cbn [length]. lia.
  - rewrite !length_app in *. cbn [length] in *. lia.
  - rewrite NoDup_app, NoDup_cons in N. destruct N as (_ & N1 & N2 & _).
    assert (p ∉ l1) as N0 by (intros ?; apply (N1 p); [done|constructor]).
    eapply heap_ok_drop; [done|done|..]; intros; unfold refs; rewrite !elem_of_app, elem_of_cons || idtac.
    + rewrite !decide_False, decide_True by set_solver. lia.
    + f_equal. apply decide_ext. set_solver.
Qed.

Lemma lookup_id_split x h l p : lookup_id x h l = Some p →
  ∃ l1 l2, l = l1 ++ p :: l2 ∧ Forall (λ q, (info h q).1 ≠ x) l1 ∧ (info h p).1 = x.
Proof.
  induction l as [|q l IH]; cbn [lookup_id]; [done|]. destruct (Z.eqb_spec (info h q).1 x) as [E|E].
  - intros [= <-]. by exists [], l.
  - intros H. destruct (IH H) as (l1 & l2 & -> & F & Ex). exists (q :: l1), l2. repeat split; [by constructor|done].
Qed.

Lemma lookup_id_None x h l : lookup_id x h l = None ↔ x ∉ (info h <$> l).*1.
Proof.
  induction l as [|q l IH]; cbn [lookup_id fmap list_fmap]; [split; [intros _; apply not_elem_of_nil|done]|].
  rewrite not_elem_of_cons. destruct (Z.eqb_spec (info h q).1 x) as [E|E]; [naive_solver|]. rewrite IH. naive_solver.
Qed.

(** ** Sequences of operations *)
Inductive op := Add (obj x : Z) (nm : arr) | Find (x : Z) | Get (obj : Z) | Put (obj : Z) | Delete (x : Z).

(** A client passes to [object_get] and [object_put] only objects it has a
    reference to, and kmalloc gives it memory that is not in use, or none. *)
Definition allowed (o : op) (s : cstate) (held : list Z) : Prop :=
  match o with
  | Add p _ _ => p = NULL ∨ heap s !! p = None
  | Find _ | Delete _ => True
  | Get p | Put p => p ∈ held
  end.

(** The number of an object to be deleted is not in the cache. *)
Definition absent (o : op) (s : cstate) : bool :=
  match o with Delete x => bool_decide (x ∉ (contents s).*1) | _ => false end.

Definition exec (get put : Z → M cstate unit) (o : op) : M cstate Z :=
  match o with
  | Add p x nm => cache_add put p x nm
  | Find x => cache_find get x
  | Get p => get p;; mret 0
  | Put p => put p;; mret 0
  | Delete x => cache_delete put x;; mret 0
  end.

(** The references after it, and the contents of the cache it should lead to. *)
Definition held_after (o : op) (r : Z) (held : list Z) : list Z :=
  match o with
  | Find _ => if r =? NULL then held else r :: held
  | Get p => p :: held
  | Put p => remove1 p held
  | _ => held
  end.

Fixpoint del_key (x : Z) (c : list (Z * arr)) : list (Z * arr) :=
  match c with [] => [] | e :: c => if e.1 =? x then c else e :: del_key x c end.

Definition spec (o : op) (c : list (Z * arr)) : list (Z * arr) :=
  match o with
  | Add p x nm => if (p =? NULL) || (MAX_CACHE_SIZE <=? Z.of_nat (length c)) then c else (x, take (NAME_SIZE - 1) nm) :: c
  | Delete x => del_key x c
  | _ => c
  end.

Section steps.
Context (get put : Z → M cstate unit) `{!Counting get put}.

Lemma del_key_split x (h : gmap Z object) l1 p l2 : Forall (λ q, (info h q).1 ≠ x) l1 → (info h p).1 = x →
  del_key x (info h <$> (l1 ++ p :: l2)) = info h <$> (l1 ++ l2).
Proof.
  intros F E. induction F as [|q l1 Hq F IH]; cbn [fmap list_fmap app del_key].
  - by rewrite E, Z.eqb_refl.
  - rewrite (proj2 (Z.eqb_neq _ _) Hq). f_equal. exact IH.
Qed.

Lemma info_drop p o h (l : list Z) : p ∉ l → info (drop_ref p o h) <$> l = info h <$> l.
Proof.
  intros Hp. apply list_fmap_ext. intros i q Hq. apply list_elem_of_lookup_2 in Hq. unfold info, drop_ref.
  destruct (refcnt o =? 1); [rewrite lookup_delete_ne|rewrite lookup_insert_ne]; congruence.
Qed.

Lemma inv_later s held n n' : inv s held n → n ≤ n' → inv s held n'.
Proof. intros [N M L H Hh] Hn. split; try done; [lia|]. eapply heap_ok_ext; [done|lia|done]. Qed.

(** The outcome of an operation. *)
Definition step_to (o : op) (s : cstate) (held : list Z) (n : Z) : Prop :=
  ∃ r s', exec get put o s = Ok (r, s') ∧ inv s' (held_after o r held) (n + 2) ∧ contents s' = spec o (contents s).

Lemma step_add p x nm s held n : inv s held n → n < 2 ^ 31 - 2 → allowed (Add p x nm) s held → step_to (Add p x nm) s held n.
Proof.
  intros I Hn A. unfold step_to. cbn [exec held_after spec allowed] in *. destruct (decide (p = NULL)) as [->|Np].
  - exists (- ENOMEM), s. split; [done|]. split; [apply (inv_later s held n); [done|lia]|done].
  - destruct A as [A|A]; [done|]. destruct (fresh_in s held n p I Hn A) as [Fc Fo].
    eexists _, _. split; [by apply (add_ok get put s held n)|]. rewrite (proj2 (Z.eqb_neq _ _) Np). unfold contents. rewrite length_fmap. cbn [orb].
    destruct (Z.ltb_spec (Z.of_nat (length (cache s))) MAX_CACHE_SIZE).
    + rewrite (proj2 (Z.leb_gt _ _)) by lia. destruct I as [N M L H' Hh]. split.
      * split; cbn; try done; [by constructor|lia|lia|lia|]. eapply heap_ok_set; [done|lia|done|..].
        -- unfold refs. rewrite decide_True by constructor. lia.
        -- intros q Hq. unfold refs. f_equal. apply decide_ext. rewrite elem_of_cons. naive_solver.
        -- cbn. unfold refs. rewrite decide_True by constructor. lia.
        -- cbn. lia.
      * cbn [added cache heap fmap list_fmap]. f_equal; [unfold info; by rewrite lookup_insert_eq|].
        apply list_fmap_ext. intros i q Hq. apply list_elem_of_lookup_2 in Hq. unfold info. by rewrite lookup_insert_ne by congruence.
    + rewrite (proj2 (Z.leb_le _ _)) by lia. split; [apply (inv_later s held n); [done|lia]|done].
Qed.

Lemma step_get p s held n : inv s held n → n < 2 ^ 31 - 2 → p ∈ cache s ∨ p ∈ held →
  ∃ s', get p s = Ok ((), s') ∧ inv s' (p :: held) (n + 1) ∧ contents s' = contents s.
Proof.
  intros I Hn Hp. destruct (inv_in s held n p I Hp Hn) as (o & E & Np & R & B & P).
  eexists. split; [by apply (get_ok (put := put))|]. destruct I as [N M L H Hh]. split.
  - split; cbn; try done; [lia|]. eapply heap_ok_set; [done|lia|done|..].
    + unfold refs. rewrite occ_cons, (decide_True (P := p = p)) by done. case_decide; lia.
    + intros q Hq. unfold refs. by rewrite occ_cons, (decide_False (P := q = p)) by done.
    + cbn. rewrite R. unfold refs. rewrite occ_cons, (decide_True (P := p = p)) by done. lia.
    + cbn. lia.
  - unfold contents. cbn. apply list_fmap_ext. intros i q _. by apply (info_insert _ _ o).
Qed.

Lemma step_find x s held n : inv s held n → n < 2 ^ 31 - 3 → step_to (Find x) s held n.
Proof.
  intros I Hn. unfold step_to. cbn [exec spec held_after]. unfold cache_find.
  pose proof (cache_find_inner x s held n I ltac:(lia)) as E.
  pose proof (found_inv x s held n I ltac:(lia)) as I'. destruct (found_contents x s) as (Ec & Ek & Em & _).
  destruct (lookup_id x (heap s) (cache s)) as [p|] eqn:El; cbn [default from_option Datatypes.id] in E.
  - apply lookup_id_elem in El as [Hp _]. destruct (inv_in s held n p I) as (o & _ & Np & _); [by left|lia|].
    destruct (step_get p (found x s) held (n + 1) I') as (s' & Eg & Ig & Cg); [lia|left; by rewrite Ek|].
    exists p, s'. run E. rewrite (proj2 (Z.eqb_neq _ _) Np). cbn match.
    run Eg. split; [done|]. split; [|congruence].
    apply (inv_later _ _ _ _ Ig). lia.
  - exists NULL, (found x s). run E. split; [done|]. split; [|done]. apply (inv_later _ _ _ _ I'). lia.
Qed.

Lemma step_put p s held n : inv s held n → n < 2 ^ 31 - 2 → p ∈ held → step_to (Put p) s held n.
Proof.
  intros I Hn Hp. destruct (inv_in s held n p I) as (o & E & Np & R & B & P); [by right|done|].
  unfold step_to. cbn [exec spec held_after]. eexists _, _. run (put_ok (get := get) s p o E ltac:(lia)). split; [done|].
  apply elem_of_occ in Hp as Ho. destruct I as [N M L H Hh]. split.
  - split; cbn; try done; [pose proof (length_remove1 p held); lia|].
    apply (heap_ok_ext _ (refs (cache s) (remove1 p held)) _ n); [|lia|done].
    eapply heap_ok_drop; [done|done|..]; intros; unfold refs; rewrite occ_remove1 by done.
    + rewrite (decide_True (P := p = p)) by done. lia.
    + rewrite (decide_False (P := q = p)) by done. lia.
  - unfold contents. cbn. apply list_fmap_ext. intros i q Hq. apply list_elem_of_lookup_2 in Hq. unfold drop_ref.
    destruct (Z.eqb_spec (refcnt o) 1) as [R1|R1]; [|by apply (info_insert _ _ o)].
    unfold info. rewrite lookup_delete_ne; [done|]. intros <-. rewrite R1 in R. unfold refs in R. rewrite decide_True in R by done. lia.
Qed.

Lemma step_delete x s held n : inv s held n → n < 2 ^ 31 - 3 → x ∈ (contents s).*1 → step_to (Delete x) s held n.
Proof.
  intros I Hn Hx. unfold step_to. cbn [exec spec held_after]. unfold cache_delete.
  pose proof (cache_find_inner x s held n I ltac:(lia)) as E. pose proof (found_inv x s held n I ltac:(lia)) as I'.
  destruct (found_contents x s) as (Ec & Ek & Em & Ei).
  destruct (lookup_id x (heap s) (cache s)) as [p|] eqn:El; cbn [default from_option Datatypes.id] in E; [|by apply lookup_id_None in El].
  apply lookup_id_split in El as (l1 & l2 & Es & F & Ex).
  assert (p ∈ cache (found x s)) as Hp by (rewrite Ek, Es; set_solver).
  destruct (inv_in (found x s) held (n + 1) p I') as (o & Eo & Np & _ & B & _); [by left|lia|].
  pose proof (dropped_inv (found x s) held (n + 1) p o I' Hp Eo) as Id.
  exists 0, (dropped p o (found x s)). split.
  - rewrite bind_assoc. run E. erewrite bind_ok; [done|]. apply (delete_ok get put); try done; [lia|].
    rewrite (i_num _ _ _ I'). pose proof (i_max _ _ _ I'). unfold MAX_CACHE_SIZE in *. rewrite Ek, Es, length_app in *. cbn [length] in *. lia.
  - split; [apply (inv_later _ _ _ _ Id); lia|]. pose proof (i_nodup _ _ _ I) as Nd. unfold contents, dropped. cbn [heap cache].
    rewrite Ek, Es in *. rewrite filter_split by done. rewrite del_key_split by done. rewrite info_drop.
    + apply list_fmap_ext. intros i q _. apply Ei.
    + rewrite NoDup_app, NoDup_cons in Nd. destruct Nd as (_ & N1 & N2 & _). rewrite elem_of_app. intros [?|?]; [|done].
      apply (N1 p); [done|constructor].
Qed.

(** [BUG_ON] in [__cache_delete]. *)
Lemma step_absent o s held n : inv s held n → n < 2 ^ 31 - 3 → absent o s = true → exec get put o s = Err Abort.
Proof.
  intros I Hn A. destruct o as [| | | |x]; try done. cbn in A. apply bool_decide_eq_true in A.
  pose proof (cache_find_inner x s held n I ltac:(lia)) as E. rewrite (proj2 (lookup_id_None _ _ _) A) in E.
  cbn [exec]. unfold cache_delete. rewrite bind_assoc. by run E.
Qed.

Lemma step_ok o s held n : inv s held n → n < 2 ^ 31 - 3 → allowed o s held → absent o s = false → step_to o s held n.
Proof.
  intros I Hn A Ab. destruct o; [apply step_add|apply step_find|..]; try done; [lia|..].
  - destruct (step_get obj s held n I) as (s' & Eg & Ig & Cg); [lia|by right|]. exists 0, s'. cbn [exec]. run Eg.
    split; [done|]. split; [|done]. apply (inv_later _ _ _ _ Ig). lia.
  - apply step_put; [done|lia|done].
  - apply step_delete; [done|done|]. cbn in Ab. apply bool_decide_eq_false in Ab. by apply dec_stable.
Qed.

(** What clients can do, one operation after the other. *)
Inductive trace : list op → cstate → list Z → Prop :=
  | trace_nil : trace [] (mk_cstate ∅ [] 0) []
  | trace_step ops s held o r s' : trace ops s held → allowed o s held → exec get put o s = Ok (r, s') →
      trace (ops ++ [o]) s' (held_after o r held).

Lemma trace_ok ops s held : trace ops s held → Z.of_nat (length ops) < 2 ^ 30 - 2 →
  inv s held (2 * Z.of_nat (length ops)) ∧ contents s = foldl (flip spec) [] ops.
Proof.
  induction 1 as [|ops s held o r s' Ht IH A E]; intros Hl.
  - split; [|done]. split; cbn; [constructor|done|done|done|]. split; [done|]. intros p. cbn. intros H. exfalso. by apply H.
  - rewrite length_app in *. cbn [length] in *. destruct IH as [I C]; [lia|].
    destruct (absent o s) eqn:Ab; [by rewrite (step_absent o s held _ I ltac:(lia) Ab) in E|].
    destruct (step_ok o s held _ I ltac:(lia) A Ab) as (r1 & s1 & E1 & I1 & C1). rewrite E in E1. simplify_eq. split.
    + apply (inv_later _ _ _ _ I1). lia.
    + rewrite foldl_app. cbn. by rewrite C1, C.
Qed.
End steps.

(** ** Properties *)

(** C10: whatever clients do, as long as they give back only references they
    have, an object is allocated exactly as long as the cache or a client
    refers to it and its counter is the number of references; there are never
    more than ten objects in the cache and its contents are those of a list with
    the operations [spec].  The next operation succeeds, unless it deletes a
    number that is not in the cache: that stops the kernel with BUG_ON.  This
    holds for counters under the lock and for atomic ones. *)
Theorem cache_safe get put `{!Counting get put} ops s held :
  trace get put ops s held → Z.of_nat (length ops) < 2 ^ 30 - 2 →
  (∀ p, is_Some (heap s !! p) ↔ p ∈ cache s ∨ p ∈ held) ∧
  (∀ p o, heap s !! p = Some o → refcnt o = refs (cache s) held p) ∧
  (length (cache s) ≤ 10)%nat ∧
  contents s = foldl (flip spec) [] ops ∧
  (∀ o, allowed o s held → if absent o s then exec get put o s = Err Abort else ∃ r s', exec get put o s = Ok (r, s')).
Proof.
  intros Ht Hl. destruct (trace_ok get put ops s held Ht Hl) as [I C]. split; [|split; [|split; [|split; [done|]]]].
  - intros p. split; [|intros Hp; destruct (inv_in s held _ p I Hp) as (o & E & _); [lia|eauto]].
    intros [o E]. destruct (ho_count _ _ _ (i_heap _ _ _ I) p o E) as (_ & _ & R & _). unfold refs in R.
    case_decide; [by left|]. right. apply elem_of_occ. lia.
  - intros p o E. apply (ho_count _ _ _ (i_heap _ _ _ I) p o E).
  - pose proof (i_max _ _ _ I) as Hm. unfold MAX_CACHE_SIZE in Hm. lia.
  - intros o A. destruct (absent o s) eqn:Ab; [by apply (step_absent get put o s held _ I); [lia|]|].
    destruct (step_ok get put o s held _ I ltac:(lia) A Ab) as (r & s' & E & _). eauto.
Qed.

(** the cache never replaces anything.  Adding an object to a full cache is
    reported as a success, but the object is thrown out and freed at once: it is
    the first in the list and no other is less popular. *)
Theorem cache_add_full get put `{!Counting get put} ops s held p x nm :
  trace get put ops s held → Z.of_nat (length ops) < 2 ^ 30 - 2 → length (cache s) = 10%nat →
  p ≠ NULL → heap s !! p = None → cache_add put p x nm s = Ok (0, s).
Proof.
  intros Ht Hl Hc Np Hp. destruct (trace_ok get put ops s held Ht Hl) as [I _].
  rewrite (add_ok get put s held _ p x nm I) by (done || lia). by rewrite Hc.
Qed.

(** The module takes a reference when it is loaded and never gives it back:
    when it is unloaded, the second object stays. *)
Lemma module_leaks : ∃ s,
  (init_mutex object_get object_put 8 16 24;; exit_mutex object_put) (mk_cstate ∅ [] 0) = Ok ((), s) ∧
  cache s = [] ∧ dom (heap s) = {[ 16 ]}.
Proof. eexists. vm_compute. done. Qed.

(** *** Concrete runs *)
Definition demo_ops : list op := [Add 8 1 (chars "a"); Find 1; Delete 1].

Lemma cache_safe_witness :
  ∃ s, trace object_get object_put demo_ops s [8] ∧ cache s = [] ∧ is_Some (heap s !! 8) ∧ exec object_get object_put (Delete 1) s = Err Abort.
Proof.
  assert (∃ s, trace object_get object_put demo_ops s [8] ∧ cache s = []) as (s & Ht & Hc).
  { eexists. split; [|shelve].
    refine (trace_step _ _ [Add 8 1 (chars "a"); Find 1] _ [8] (Delete 1) 0 _ _ I _).
    - refine (trace_step _ _ [Add 8 1 (chars "a")] _ [] (Find 1) 8 _ _ I _).
      + refine (trace_step _ _ [] _ [] (Add 8 1 (chars "a")) 0 _ (trace_nil _ _) (or_intror eq_refl) eq_refl).
      + reflexivity.
    - reflexivity.
    Unshelve. reflexivity. }
  destruct (cache_safe object_get object_put demo_ops s [8] Ht) as (Hh & _ & _ & _ & Ho); [cbn; lia|].
  exists s. split; [exact Ht|]. split; [exact Hc|]. split; [apply Hh; right; constructor|].
  specialize (Ho (Delete 1) I). cbn in Ho. unfold contents in Ho. rewrite Hc in Ho. cbn in Ho.
  rewrite bool_decide_true in Ho by apply not_elem_of_nil. exact Ho.
Defined.

Definition ten : list op := (λ k, Add k k []) <$> [1; 2; 3; 4; 5; 6; 7; 8; 9; 10].

(** The last operation of a trace that leaves no references. *)
Ltac last_step :=
  match goal with
  | |- trace ?g ?p ?l _ _ =>
      let l' := eval cbv in (take (length l - 1) l) in
      let x := eval cbv in (drop (length l - 1) l) in
      match x with [?o] => refine (trace_step g p l' _ [] o 0 _ _ _ _) end
  end.

Ltac all_steps := first [apply trace_nil | last_step; [all_steps | right; reflexivity | reflexivity]].

Lemma cache_add_full_witness :
  ∃ s, trace object_get_atomic object_put_atomic ten s [] ∧ cache_add object_put_atomic 11 11 [] s = Ok (0, s).
Proof.
  assert (∃ s, trace object_get_atomic object_put_atomic ten s [] ∧ length (cache s) = 10%nat ∧ heap s !! 11 = None) as (s & Ht & Hc & Hf).
  { eexists. split; [|shelve].
    all_steps.
    Unshelve. split; reflexivity. }
  exists s. split; [exact Ht|]. apply (cache_add_full object_get_atomic object_put_atomic ten s []); [exact Ht|cbn; lia|exact Hc|done|exact Hf].
Defined.
