(* ===== verification/TextTools.v ===== *)
(** * Searching and hexadecimal digits (test/memcasestr.c, test/bitcheck.c,
    test/str2dec.c)

    [mem_casestr] is compared with a search that tries every position,
    [bin2hex] is inverted by [str2dec]. *)
From Stdlib Require Import String.
From S2P Require Import Prelude CArr CBuf CInt.

(** ** mem_casestr *)
Definition isupper (c : Z) : bool := (65 <=? c) && (c <=? 90).
Definition islower (c : Z) : bool := (97 <=? c) && (c <=? 122).
Definition tolower (c : Z) : Z := if isupper c then c + 32 else c.
Definition toupper (c : Z) : Z := if islower c then c - 32 else c.

Definition __ul_cha (c : Z) : Z := if isupper c then tolower c else if islower c then toupper c else c.

(** A read of a byte at an address in [b]. *)
Definition at_ (b : arr) (i : nat) : res Z := match b !! i with Some c => Ok c | None => Err Segv end.

(** The positions [ss], [tmp] and [d] of the pointers; [n] is [end].  The
    message after each matching character reads the next one. *)
Fixpoint search_loop (fuel : nat) (s str : arr) (n ss tmp d : nat) : res (option nat) :=
  match fuel with
  | O => Err Fuel
  | S fuel =>
      if (ss =? n)%nat then Ok None
      else if (d =? length str)%nat then Ok (Some (ss - length str)%nat)
      else
        match at_ s ss, at_ str d with
        | Ok c, Ok x =>
            if negb (x =? c) && negb (x =? __ul_cha c) then search_loop fuel s str n (S tmp) (S tmp) 0
            else
              match at_ s (S ss) with
              | Err e => Err e
              | Ok _ =>
                  if (S d =? length str)%nat then Ok (Some (S ss - length str)%nat)
                  else search_loop fuel s str n (S ss) tmp (S d)
              end
        | _, _ => Err Segv
        end
  end.

Definition mem_casestr (s str : arr) (n : nat) : res (option nat) :=
  search_loop (S n * S (S n)) s str n 0 0 0.

(** *** The reference *)
Definition same_letter (x c : Z) : bool := (x =? c) || (x =? __ul_cha c).
Fixpoint ci_prefix (p s : arr) : bool :=
  match p, s with
  | [], _ => true
  | x :: p, c :: s => same_letter x c && ci_prefix p s
  | _ :: _, [] => false
  end.
Fixpoint ci_find (s p : arr) : option nat :=
  if ci_prefix p s then Some 0%nat else match s with [] => None | _ :: s => S <$> ci_find s p end.

Lemma ci_prefix_app p q s : ci_prefix (p ++ q) s = ci_prefix p s && ci_prefix q (drop (length p) s).
Proof.
  revert s. induction p as [|x p IH]; intros s; cbn [ci_prefix app length]; [done|].
  destruct s as [|c s]; [done|]. cbn [drop]. by rewrite IH, andb_assoc.
Qed.

Lemma ci_prefix_short p s : (length s < length p)%nat → ci_prefix p s = false.
Proof.
  revert s. induction p as [|x p IH]; intros s; cbn [length ci_prefix]; [lia|].
  destruct s as [|c s]; [done|]. cbn [length]. intros H. rewrite IH by lia. apply andb_false_r.
Qed.

Lemma ci_find_short s p : (length s < length p)%nat → ci_find s p = None.
Proof.
  induction s as [|c s IH]; intros H; cbn [ci_find]; rewrite ci_prefix_short by done; [done|].
  cbn [length] in H. by rewrite IH by lia.
Qed.

Lemma ci_find_here s p : ci_prefix p s = true → ci_find s p = Some 0%nat.
Proof. intros H. destruct s; cbn [ci_find]; by rewrite H. Qed.

Lemma ci_find_next c s p : ci_prefix p (c :: s) = false → ci_find (c :: s) p = S <$> ci_find s p.
Proof. intros H. cbn [ci_find]. by rewrite H. Qed.

Section search.
Context (s str : arr) (n : nat).
Hypothesis (Hn : (n < length s)%nat) (Hstr : str ≠ []).

(** The loop has found the first [d] characters at [tmp]. *)
Lemma casestr_loop_ok fuel ss tmp d : ss = (tmp + d)%nat → (ss ≤ n)%nat → (d < length str)%nat →
  ci_prefix (take d str) (drop tmp (take n s)) = true →
  ((n - tmp) * S n + (n - ss) < fuel)%nat →
  search_loop fuel s str n ss tmp d = Ok (Nat.add tmp <$> ci_find (drop tmp (take n s)) str).
Proof.
  revert ss tmp d. induction fuel as [|fuel IH]; intros ss tmp d Hss Hle Hd Hp Hf; [by apply Nat.nlt_0_r in Hf|]. cbn [search_loop].
  assert (length (take n s) = n) as Ln by (rewrite length_take; lia).
  destruct (Nat.eqb_spec ss n) as [E|E].
  { rewrite ci_find_short; [done|]. rewrite length_drop. lia. }
  rewrite (proj2 (Nat.eqb_neq d (length str))) by lia.
  destruct (lookup_lt_is_Some_2 s ss ltac:(lia)) as [c Ec]. destruct (lookup_lt_is_Some_2 str d Hd) as [x Ex].
  unfold at_. rewrite Ec, Ex.
  assert (take (S d) str = take d str ++ [x]) as Et by (by apply take_S_r).
  assert (drop tmp (take n s) !! d = Some c) as Ecd by (rewrite lookup_drop, lookup_take_lt by lia; by rewrite <- Hss).
  assert (ci_prefix (take (S d) str) (drop tmp (take n s)) = same_letter x c) as Ep.
  { rewrite Et, ci_prefix_app, Hp, length_take_le by lia. cbn [andb].
    rewrite (drop_S _ c d Ecd). cbn [ci_prefix]. apply andb_true_r. }
  replace (negb (x =? c) && negb (x =? __ul_cha c)) with (negb (same_letter x c)) by apply negb_orb.
  destruct (same_letter x c); cbn [negb].
  - destruct (lookup_lt_is_Some_2 s (S ss) ltac:(lia)) as [c' ->]. destruct (Nat.eqb_spec (S d) (length str)) as [El|El].
    + rewrite El, firstn_all in Ep. rewrite ci_find_here by done. cbn. do 2 f_equal. lia.
    + apply IH; try done; nia || lia.
  - assert (ci_prefix str (drop tmp (take n s)) = false) as Ef.
    { rewrite <- (take_drop (S d) str), ci_prefix_app, Ep. done. }
    destruct (lookup_lt_is_Some_2 (take n s) tmp ltac:(lia)) as [c0 E0]. rewrite (drop_S _ c0 tmp E0) in Ef |- *.
    rewrite ci_find_next by done. rewrite IH; [|lia|lia|destruct str; [done|cbn; lia]|done|nia].
    f_equal. rewrite <- option_fmap_compose. apply option_fmap_ext. intros k. cbn. lia.
Qed.
End search.

Lemma mem_casestr_ok s str n : (n < length s)%nat → str ≠ [] → mem_casestr s str n = Ok (ci_find (take n s) str).
Proof.
  intros Hn Hs. unfold mem_casestr. rewrite (casestr_loop_ok s str n Hn Hs _ 0 0 0); [|done|lia| |done|lia].
  - rewrite drop_0. f_equal. rewrite <- (option_fmap_id (ci_find _ _)) at 2. by apply option_fmap_ext.
  - destruct str; [done|cbn; lia].
Qed.

(** The reference finds the first position at which all characters agree up to
    case. *)
Lemma ci_find_Some s p k : ci_find s p = Some k ↔
  ci_prefix p (drop k s) = true ∧ (k ≤ length s)%nat ∧ ∀ j, (j < k)%nat → ci_prefix p (drop j s) = false.
Proof.
  revert k. induction s as [|c s IH]; intros k.
  - cbn [ci_find]. destruct (ci_prefix p []) eqn:E.
    + split; [intros [= <-]; split; [done|split; intros; cbn; lia]|]. intros (_ & Hk & _). cbn in Hk. by replace k with 0%nat by lia.
    + split; [done|]. rewrite drop_nil. intros (Hp & _). congruence.
  - destruct (ci_prefix p (c :: s)) eqn:E.
    + rewrite ci_find_here by done. split; [intros [= <-]; split; [done|split; intros; cbn; lia]|].
      intros (_ & _ & Hj). destruct k as [|k]; [done|]. specialize (Hj 0%nat ltac:(lia)). cbn [drop] in Hj. congruence.
    + rewrite ci_find_next by done. rewrite fmap_Some. split.
      * intros (k' & Hk & ->). apply IH in Hk as (Hp & Hl & Hj). cbn [drop length]. split; [done|split; [lia|]].
        intros [|j] Hjk; [done|]. apply Hj. lia.
      * intros (Hp & Hl & Hj). destruct k as [|k]; [cbn [drop] in Hp; congruence|]. exists k. split; [|done]. apply IH.
        cbn [drop length] in *. split; [done|split; [lia|]]. intros j Hjk. apply (Hj (S j)). lia.
Qed.

(** ** bin2hex and str2dec *)
Definition bb_hexdigits_upcase : arr := chars "0123456789ABCDEF".

(** The buffer at [p] printed with [%s]. *)
Definition print_from (p : nat) : M arr unit := λ b, match cstr (drop p b) with Some _ => Ok ((), b) | None => Err Overread end.

Definition put_digit (p : nat) (k : Z) : M arr unit :=
  h ← cget bb_hexdigits_upcase k;
  aset (Z.of_nat p) (Z.lor 0x20 h);;
  print_from p.

Fixpoint bin2hex (p : nat) (cp : arr) (count : nat) : M arr nat :=
  match count with
  | O => mret p
  | S count =>
      match cp with
      | [] => fail Segv
      | x :: cp =>
          let c := u8 x in
          put_digit p (Z.shiftr c 4);;
          put_digit (S p) (Z.land c 0xf);;
          bin2hex (S (S p)) cp count
      end
  end.

Definition hex2dec : list (Z * Z) := zip bb_hexdigits_upcase [0; 1; 2; 3; 4; 5; 6; 7; 8; 9; 10; 11; 12; 13; 14; 15].

Fixpoint table_loop (t : list (Z * Z)) (x y a b : Z) : Z * Z :=
  match t with
  | [] => (a, b)
  | e :: t => table_loop t x y (if e.1 =? toupper x then e.2 else a) (if e.1 =? toupper y then e.2 else b)
  end.

Definition str2dec (str : option arr) : res Z :=
  match str with
  | None => Ok (-1)
  | Some p =>
      match p !! 0%nat, p !! 1%nat with
      | Some x, Some y => let ab := table_loop hex2dec x y 0 0 in Ok (ab.1 * 16 + ab.2)
      | _, _ => Err Segv
      end
  end.

(** *** Their meaning *)
Definition digit (k : Z) : Z := Z.lor 0x20 (bb_hexdigits_upcase !!! Z.to_nat k).
Definition hex (x : Z) : arr := [digit (Z.shiftr (u8 x) 4); digit (Z.land (u8 x) 0xf)].

Lemma u8_nibbles x : 0 ≤ Z.shiftr (u8 x) 4 < 16 ∧ 0 ≤ Z.land (u8 x) 0xf < 16.
Proof.
  assert (0 ≤ u8 x < 256) as H by (apply Z.mod_pos_bound; lia). rewrite Z.shiftr_div_pow2 by lia.
  change 0xf with (Z.ones 4). rewrite Z.land_ones by lia. split; [|apply Z.mod_pos_bound; lia].
  split; [apply Z.div_pos; lia|apply Z.div_lt_upper_bound; lia].
Qed.

Lemma digits_nonzero : forallb (λ k, negb (digit k =? 0)) (Z.of_nat <$> seq 0 16) = true.
Proof. vm_compute. reflexivity. Qed.

Lemma digit_nonzero k : 0 ≤ k < 16 → digit k ≠ 0.
Proof.
  intros Hk. pose proof digits_nonzero as H. rewrite forallb_forall in H. specialize (H k).
  apply Z.eqb_neq, negb_true_iff, H. apply list_elem_of_In, list_elem_of_fmap. exists (Z.to_nat k). split; [lia|apply elem_of_seq; lia].
Qed.

(** All bytes. *)
Lemma str2dec_bytes : forallb (λ c, match str2dec (Some (hex c)) with Ok v => v =? c | Err _ => false end) (Z.of_nat <$> seq 0 256) = true.
Proof. vm_compute. reflexivity. Qed.

Lemma str2dec_hex x r : str2dec (Some (hex x ++ r)) = Ok (u8 x).
Proof.
  assert (0 ≤ u8 x < 256) as H by (apply Z.mod_pos_bound; lia). pose proof str2dec_bytes as Hb. rewrite forallb_forall in Hb.
  specialize (Hb (u8 x)). assert (u8 (u8 x) = u8 x) as Eu by (unfold u8; by rewrite Z.mod_mod by lia).
  unfold hex in *. rewrite Eu in Hb. unfold str2dec in *. cbn [lookup list_lookup app] in *.
  apply Z.eqb_eq in Hb; [by rewrite Hb|]. apply list_elem_of_In, list_elem_of_fmap.
  exists (Z.to_nat (u8 x)). split; [lia|apply elem_of_seq; lia].
Qed.

Lemma put_digit_ok out k m : 0 ≤ k < 16 → (0 < m)%nat →
  put_digit (length out) k (out ++ replicate (S m) 0) = Ok ((), (out ++ [digit k]) ++ replicate m 0).
Proof.
  intros Hk Hm. unfold put_digit. assert (length bb_hexdigits_upcase = 16%nat) as Lb by reflexivity.
  replace k with (Z.of_nat (Z.to_nat k)) at 1 by lia.
  run (cget_ok (out ++ replicate (S m) 0) bb_hexdigits_upcase (Z.to_nat k) (bb_hexdigits_upcase !!! Z.to_nat k) ltac:(apply list_lookup_lookup_total_lt; lia)).
  cbn [replicate]. rewrite (bind_ok _ _ _ _ _ (aset_app out (replicate m 0) 0 (digit k) _ eq_refl)).
  unfold print_from. rewrite drop_app_length. destruct m as [|m]; [lia|]. cbn [replicate].
  change (digit k :: 0 :: replicate m 0) with ([digit k] ++ 0 :: replicate m 0). rewrite cstr_app.
  - by rewrite <- app_assoc.
  - constructor; [by apply digit_nonzero|constructor].
Qed.

Lemma hex_length (l : arr) : length (mjoin (hex <$> l)) = (2 * length l)%nat.
Proof.
  induction l as [|x l IH]; [done|]. rewrite fmap_cons.
  change (mjoin (hex x :: (hex <$> l))) with (hex x ++ mjoin (hex <$> l)). rewrite length_app, IH. cbn [hex length]. lia.
Qed.

Lemma bin2hex_ok cp out m : (2 * length cp < m)%nat →
  bin2hex (length out) cp (length cp) (out ++ replicate m 0) =
    Ok ((length out + 2 * length cp)%nat, out ++ mjoin (hex <$> cp) ++ replicate (m - 2 * length cp) 0).
Proof.
  revert out m. induction cp as [|x cp IH]; intros out m Hm.
  - cbn [bin2hex length fmap list_fmap mjoin list_join app]. rewrite Nat.mul_0_r, Nat.sub_0_r, Nat.add_0_r. done.
  - cbn [length bin2hex] in *. destruct m as [|[|m]]; [lia|lia|]. destruct (u8_nibbles x) as [H1 H2].
    run (put_digit_ok out (Z.shiftr (u8 x) 4) (S m) H1 ltac:(lia)).
    replace (S (length out)) with (length (out ++ [digit (Z.shiftr (u8 x) 4)])) by (rewrite length_app; cbn; lia).
    run (put_digit_ok (out ++ [digit (Z.shiftr (u8 x) 4)]) (Z.land (u8 x) 0xf) m H2 ltac:(lia)).
    set (o2 := (out ++ _) ++ _). replace (S (length (out ++ _))) with (length o2) by (unfold o2; rewrite !length_app; cbn; lia).
    rewrite IH by lia. unfold o2. rewrite !length_app. cbn [length fmap list_fmap mjoin list_join hex app].
    rewrite <- !app_assoc. cbn [app]. do 2 f_equal; [lia|]. do 4 f_equal. f_equal. lia.
Qed.

(** ** Properties *)

(** C32: if the buffer has a byte behind the part that is searched, [mem_casestr]
    returns the same as a search at every position: the first place where all
    characters agree up to case, or nothing if there is none. *)
Theorem mem_casestr_correct s str n : (n < length s)%nat → str ≠ [] →
  mem_casestr s str n = Ok (ci_find (take n s) str) ∧
  ∀ k, ci_find (take n s) str = Some k ↔
    ci_prefix str (drop k (take n s)) = true ∧ (k ≤ length (take n s))%nat ∧
    ∀ j, (j < k)%nat → ci_prefix str (drop j (take n s)) = false.
Proof. intros Hn Hs. split; [by apply mem_casestr_ok|]. intros k. apply ci_find_Some. Qed.

(** Without that byte the message that is printed for each character reads
    behind the buffer. *)
Lemma mem_casestr_overread : mem_casestr (chars "ab") (chars "b") 2 = Err Segv.
Proof. reflexivity. Qed.

(** [bin2hex] writes two digits for each byte into a buffer of zeros that has
    room for them and a NUL, and [str2dec] reads each pair of digits back. *)
Theorem hex_roundtrip cp m : (2 * length cp < m)%nat →
  ∃ b, bin2hex 0 cp (length cp) (replicate m 0) = Ok ((2 * length cp)%nat, b) ∧ length b = m ∧
    ∀ i x, cp !! i = Some x → str2dec (Some (drop (2 * i) b)) = Ok (u8 x).
Proof.
  intros Hm. eexists. split; [apply (bin2hex_ok cp [] m Hm)|]. cbn [app].
  split; [rewrite length_app, length_replicate, hex_length; lia|]. intros i x Hi.
  rewrite <- (take_drop_middle cp i x Hi). rewrite fmap_app, join_app. cbn [fmap list_fmap].
  rewrite <- app_assoc. pose proof (lookup_lt_Some _ _ _ Hi).
  rewrite drop_app_length' by (rewrite hex_length, length_take; lia). cbn [mjoin list_join]. rewrite <- app_assoc. apply str2dec_hex.
Qed.

Lemma mem_casestr_correct_witness : mem_casestr (chars "www.Vivo.com.cn" ++ [0]) (chars "vivo.COM") 15 = Ok (Some 4%nat).
Proof.
  destruct (mem_casestr_correct (chars "www.Vivo.com.cn" ++ [0]) (chars "vivo.COM") 15) as [E _]; [cbn; lia|done|]. exact E.
Defined.

Lemma hex_roundtrip_witness : ∃ b, bin2hex 0 [171; -1] 2 (replicate 6 0) = Ok (4%nat, b) ∧ str2dec (Some (drop 2 b)) = Ok 255.
Proof.
  destruct (hex_roundtrip [171; -1] 6) as (b & E & _ & H); [cbn; lia|]. exists b. split; [exact E|]. apply (H 1%nat (-1)). reflexivity.
Defined.
