(* ===== verification/CountSort.v ===== *)
(** * Sorting by counting (problem/sort-On.c, problem/sort.c)

    Both programs count how often each character occurs, in an array of chars
    that is indexed by a char, and write the characters back in order. *)
From Stdlib Require Import String.
From S2P Require Import Prelude CArr CBuf CInt.

(** A char is signed, as index and as counter. *)
Fixpoint count_loop (str : arr) : M arr unit :=
  match str with
  | [] => mret ()
  | key :: str => v ← aget key; aset key (s8 (v + 1));; count_loop str
  end.

Fixpoint emit_char (n : nat) (i index : Z) : M arr Z :=
  match n with
  | O => mret index
  | S n => aset index (s8 i);; emit_char n i (index + 1)
  end.

Fixpoint emit_loop (b : arr) (i index : Z) : M arr Z :=
  match b with
  | [] => mret index
  | c :: b => index ← emit_char (Z.to_nat c) i index; emit_loop b (i + 1) index
  end.

(** [N] is the size of the table and [index] the position to start at. *)
Definition counting_sort (N : nat) (index : Z) (str : option arr) : res (option arr) :=
  match str with
  | None => Ok None
  | Some buf =>
      match cstr buf with
      | None => Err Overread
      | Some s =>
          match count_loop s (replicate N 0) with
          | Err e => Err e
          | Ok (_, b) => match emit_loop b 0 index buf with Ok (_, buf) => Ok (Some buf) | Err e => Err e end
          end
      end
  end.

Definition sortbyN (str : option arr) : res (option arr) := counting_sort 256 0 str.

(** [index] is not initialised. *)
Definition sort (index : Z) (str : option arr) : res (option arr) := counting_sort 257 index str.

(** ** What is written *)
Fixpoint emitted (b : arr) (i : Z) : arr :=
  match b with [] => [] | c :: b => replicate (Z.to_nat c) (s8 i) ++ emitted b (i + 1) end.

Lemma emit_char_ok n i out rest : (n ≤ length rest)%nat →
  emit_char n i (Z.of_nat (length out)) (out ++ rest) =
    Ok (Z.of_nat (length out + n), (out ++ replicate n (s8 i)) ++ drop n rest).
Proof.
  revert out rest. induction n as [|n IH]; intros out rest Hn; cbn [emit_char replicate].
  - by rewrite app_nil_r, drop_0, Nat.add_0_r.
  - destruct rest as [|x rest]; cbn [length] in Hn; [lia|].
    rewrite (bind_ok _ _ _ _ _ (aset_app out rest x (s8 i) _ eq_refl)).
    replace (out ++ s8 i :: rest) with ((out ++ [s8 i]) ++ rest) by (by rewrite <- app_assoc).
    replace (Z.of_nat (length out) + 1) with (Z.of_nat (length (out ++ [s8 i]))) by (rewrite length_app; cbn [length]; lia).
    rewrite IH by lia. rewrite length_app. cbn [length drop]. rewrite <- !app_assoc. do 2 f_equal. lia.
Qed.

Lemma emit_loop_ok b i out rest : (length (emitted b i) ≤ length rest)%nat →
  emit_loop b i (Z.of_nat (length out)) (out ++ rest) =
    Ok (Z.of_nat (length out + length (emitted b i)), (out ++ emitted b i) ++ drop (length (emitted b i)) rest).
Proof.
  revert i out rest. induction b as [|c b IH]; intros i out rest Hl; cbn [emit_loop emitted].
  - by rewrite app_nil_r, drop_0, Nat.add_0_r.
  - cbn [emitted] in Hl. rewrite length_app, length_replicate in Hl.
    rewrite (bind_ok _ _ _ _ _ (emit_char_ok (Z.to_nat c) i out rest ltac:(lia))).
    replace (length out + Z.to_nat c)%nat with (length (out ++ replicate (Z.to_nat c) (s8 i))) by (rewrite length_app, length_replicate; lia).
    rewrite IH by (rewrite length_drop; lia). rewrite !length_app, length_replicate, drop_drop, <- !app_assoc.
    do 2 f_equal. f_equal. lia.
Qed.

Lemma emitted_incr b k c i : b !! k = Some c → 0 ≤ c → emitted (<[k := c + 1]> b) i ≡ₚ s8 (i + Z.of_nat k) :: emitted b i.
Proof.
  revert k i. induction b as [|x b IH]; intros k i Hk Hc; [done|]. destruct k as [|k]; cbn in Hk |- *.
  - injection Hk as ->. replace (Z.to_nat (c + 1)) with (S (Z.to_nat c)) by lia. rewrite Z.add_0_r. done.
  - rewrite (IH k (i + 1) Hk Hc). replace (i + 1 + Z.of_nat k) with (i + Z.of_nat (S k)) by lia.
    by rewrite Permutation_middle.
Qed.

Lemma emitted_sorted b i : 0 ≤ i → (∀ k v, b !! k = Some v → 0 < v → i + Z.of_nat k ≤ 127) →
  StronglySorted Z.le (emitted b i) ∧ Forall (λ x, i ≤ x) (emitted b i).
Proof.
  revert i. induction b as [|c b IH]; intros i Hi Hb; cbn [emitted]; [split; constructor|].
  destruct (IH (i + 1)) as [S F]; [lia| |].
  { intros k v Hk Hv. specialize (Hb (S k) v Hk Hv). lia. }
  assert (Forall (λ x, i ≤ x) (emitted b (i + 1))) as F' by (eapply Forall_impl; [exact F|]; cbn; lia).
  destruct (decide (0 < c)) as [Hc|Hc]; [|by replace (Z.to_nat c) with 0%nat by lia].
  specialize (Hb 0%nat c eq_refl Hc). assert (s8 i = i) as -> by (unfold s8; rewrite Z.mod_small; lia).
  generalize (Z.to_nat c). intros n. induction n as [|n [IHs IHf]]; [done|]. cbn [replicate app].
  split; [by constructor|constructor; [lia|done]].
Qed.

(** ** Counting *)
Definition counts_ok (b s : arr) : Prop := ∀ k v, b !! k = Some v →
  0 ≤ v ∧ v + Z.of_nat (occ (Z.of_nat k) s) ≤ 127 ∧ (0 < v → Z.of_nat k ≤ 127).

Lemma count_step b s k v : counts_ok b (Z.of_nat k :: s) → Z.of_nat k ≤ 127 → b !! k = Some v →
  s8 (v + 1) = v + 1 ∧ counts_ok (<[k := v + 1]> b) s.
Proof.
  intros Hb Hk Ek. destruct (Hb k v Ek) as (H0 & H1 & _). rewrite occ_cons, decide_True in H1 by done.
  split; [unfold s8; rewrite Z.mod_small; lia|].
  intros j w. rewrite list_lookup_insert. case_decide as D.
  - destruct D as [<- _]. intros [= <-]. lia.
  - intros Ew. destruct (Hb j w Ew) as (? & H2 & ?). rewrite occ_cons in H2. case_decide; lia.
Qed.

Lemma count_loop_ok s b : Forall (λ c, 1 ≤ c ≤ 127) s → (127 < length b)%nat → counts_ok b s →
  ∃ b', count_loop s b = Ok ((), b') ∧ emitted b' 0 ≡ₚ s ++ emitted b 0 ∧ counts_ok b' [].
Proof.
  revert b. induction s as [|c s IH]; intros b Hs Hl Hb; [by exists b|].
  apply Forall_cons in Hs as [Hc Hs]. destruct (lookup_lt_is_Some_2 b (Z.to_nat c) ltac:(lia)) as [v Ev].
  replace c with (Z.of_nat (Z.to_nat c)) in Hb |- * by lia.
  destruct (count_step b s (Z.to_nat c) v Hb ltac:(lia) Ev) as [E8 Hb'].
  destruct (IH (<[Z.to_nat c := v + 1]> b) Hs) as (b' & E & Pm & Hb''); [by rewrite length_insert|done|].
  exists b'. split; [|split; [|done]].
  - cbn [count_loop]. run (aget_ok (Z.to_nat c) b ltac:(lia)). rewrite (list_lookup_total_correct _ _ _ Ev), E8.
    rewrite (bind_ok _ _ _ _ _ (aset_ok (Z.to_nat c) (v + 1) b ltac:(lia))). exact E.
  - rewrite Pm, (emitted_incr b (Z.to_nat c) v 0 Ev) by apply (Hb _ _ Ev). cbn [app].
    assert (s8 (0 + Z.of_nat (Z.to_nat c)) = Z.of_nat (Z.to_nat c)) as -> by (unfold s8; rewrite Z.mod_small; lia).
    symmetry. apply Permutation_middle.
Qed.

Lemma emitted_zeros n i : emitted (replicate n 0) i = [].
Proof. revert i. induction n as [|n IH]; intros i; cbn; [done|apply IH]. Qed.

(** What both programs sort. *)
Definition sortable (s : arr) : Prop := Forall (λ c, 1 ≤ c ≤ 127) s ∧ ∀ c, (occ c s ≤ 127)%nat.

(** *** Writing at any index *)
Lemma emit_char_out n i index buf : index < 0 ∨ Z.of_nat (length buf) < index + Z.of_nat n → n ≠ 0%nat → emit_char n i index buf = Err Segv.
Proof.
  revert index buf. induction n as [|n IH]; intros index buf Ho Hn; [done|]. cbn [emit_char].
  destruct (decide (0 ≤ index < Z.of_nat (length buf))) as [Hi|Hi].
  - replace index with (Z.of_nat (Z.to_nat index)) by lia. rewrite (bind_ok _ _ _ _ _ (aset_ok (Z.to_nat index) (s8 i) buf ltac:(lia))).
    apply IH; [|intros ->]; rewrite ?length_insert; lia.
  - apply bind_err. unfold aset. destruct (Z.ltb_spec index 0); [done|]. by rewrite bool_decide_false by lia.
Qed.

Lemma emit_char_length n i index buf index' buf' : emit_char n i index buf = Ok (index', buf') → index' = index + Z.of_nat n ∧ length buf' = length buf.
Proof.
  revert index buf. induction n as [|n IH]; intros index buf; cbn [emit_char]; [intros [= <- <-]; lia|].
  unfold mbind, M_bind. destruct (aset index (s8 i) buf) as [[u b]|] eqn:E; [|done]. intros H. destruct (IH _ _ H) as [-> ->].
  unfold aset in E. destruct (index <? 0); [done|]. case_bool_decide; [|done]. injection E as <- <-. rewrite length_insert. lia.
Qed.

Lemma emit_loop_out b i index buf : index < 0 ∨ Z.of_nat (length buf) < index + Z.of_nat (length (emitted b i)) → emitted b i ≠ [] →
  emit_loop b i index buf = Err Segv.
Proof.
  revert i index buf. induction b as [|c b IH]; intros i index buf Ho Hn; [done|]. cbn [emit_loop emitted] in *.
  rewrite length_app, length_replicate in Ho. unfold mbind, M_bind. destruct (emit_char (Z.to_nat c) i index buf) as [[index' buf']|e] eqn:E.
  - destruct (emit_char_length _ _ _ _ _ _ E) as [-> El]. apply IH.
    + destruct (decide (Z.to_nat c = 0%nat)) as [Hz|Hz]; [lia|]. right. rewrite El.
      destruct (decide (index < 0)); [|lia]. by rewrite (emit_char_out _ _ _ _ (or_introl l) Hz) in E.
    + intros Hb. rewrite Hb, app_nil_r in Hn. rewrite Hb in Ho. cbn in Ho.
      rewrite emit_char_out in E; [done|lia|]. intros Hz. by rewrite Hz in Hn.
  - destruct (decide (Z.to_nat c = 0%nat)) as [Hz|Hz]; [by rewrite Hz in E|].
    destruct (decide (index < 0 ∨ Z.of_nat (length buf) < index + Z.of_nat (Z.to_nat c))) as [Hc|Hc]; [by rewrite (emit_char_out _ _ _ _ Hc Hz) in E|].
    pose proof (emit_char_ok (Z.to_nat c) i (take (Z.to_nat index) buf) (drop (Z.to_nat index) buf)) as Ek.
    rewrite take_drop, length_take, length_drop in Ek. replace (Z.of_nat (Z.to_nat index `min` length buf)) with index in Ek by lia.
    rewrite Ek in E; [done|lia].
Qed.

(** [t] written over a buffer. *)
Definition written (index : Z) (t buf : arr) : res (option arr) :=
  if bool_decide (t = []) then Ok (Some buf)
  else if bool_decide (0 ≤ index ∧ index + Z.of_nat (length t) ≤ Z.of_nat (length buf)) then
    Ok (Some (take (Z.to_nat index) buf ++ t ++ drop (Z.to_nat index + length t) buf))
  else Err Segv.

Lemma emit_loop_written b index buf :
  match emit_loop b 0 index buf with Ok (_, buf') => Ok (Some buf') | Err e => Err e end = written index (emitted b 0) buf.
Proof.
  unfold written. case_bool_decide as Hn.
  - assert (∀ i index, emitted b i = [] → emit_loop b i index buf = Ok (index, buf)) as He.
    { clear. induction b as [|c b IH]; intros i index Hb; [done|]. cbn [emit_loop emitted] in *. apply app_eq_nil in Hb as [Hc Hb].
      destruct (Z.to_nat c); [|done]. by rewrite (bind_ok _ _ _ _ _ (eq_refl : emit_char 0 i index buf = Ok (index, buf))), IH. }
    by rewrite He.
  - case_bool_decide as Hr; [|by rewrite emit_loop_out by (lia || done)].
    pose proof (emit_loop_ok b 0 (take (Z.to_nat index) buf) (drop (Z.to_nat index) buf)) as Ek.
    rewrite take_drop, length_take, length_drop in Ek. replace (Z.of_nat (Z.to_nat index `min` length buf)) with index in Ek by lia.
    rewrite Ek by lia. by rewrite drop_drop, <-app_assoc.
Qed.

Lemma counting_sort_ok N s r : (127 < N)%nat → sortable s →
  ∃ t, (∀ index, counting_sort N index (Some (s ++ 0 :: r)) = written index t (s ++ 0 :: r)) ∧ t ≡ₚ s ∧ StronglySorted Z.le t.
Proof.
  intros HN [Hs Ho]. destruct (count_loop_ok s (replicate N 0)) as (b & E & Pm & Hb); [done|by rewrite length_replicate| |].
  { intros k v Hk. apply lookup_replicate in Hk as [-> _]. specialize (Ho (Z.of_nat k)). lia. }
  rewrite emitted_zeros, app_nil_r in Pm. exists (emitted b 0). split; [|split; [done|]].
  - intros index. unfold counting_sort. rewrite cstr_app by (eapply Forall_impl; [exact Hs|]; cbn; lia). rewrite E. apply emit_loop_written.
  - apply emitted_sorted; [done|]. intros k v Hk Hv. apply (Hb k v Hk). done.
Qed.

Lemma written_start t s r : length t = length s → written 0 t (s ++ 0 :: r) = Ok (Some (t ++ 0 :: r)).
Proof.
  intros El. unfold written. case_bool_decide as Ht; [subst t; by destruct s|]. rewrite bool_decide_true by (rewrite length_app; lia).
  change (Z.to_nat 0) with 0%nat. by rewrite take_0, Nat.add_0_l, El, drop_app_length.
Qed.

(** A negative character is used as an index. *)
Lemma count_loop_negative s1 c s2 b : Forall (λ c, 1 ≤ c ≤ 127) s1 → c < 0 → (127 < length b)%nat →
  count_loop (s1 ++ c :: s2) b = Err Segv.
Proof.
  intros Hs Hc. revert b. induction Hs as [|x s1 Hx Hs IH]; intros b Hl; cbn [count_loop app].
  - apply bind_err. unfold aget. by rewrite (proj2 (Z.ltb_lt _ _) Hc).
  - replace x with (Z.of_nat (Z.to_nat x)) by lia. run (aget_ok (Z.to_nat x) b ltac:(lia)).
    rewrite (bind_ok _ _ _ _ _ (aset_ok (Z.to_nat x) _ b ltac:(lia))). apply IH. by rewrite length_insert.
Qed.

(** ** Properties *)

(** C31: for a string of ASCII characters, none of which occurs more than 127
    times, [sortbyN] leaves a sorted permutation of it and nothing else in the
    buffer changes.  [sort] does not initialise its index: it writes the sorted
    permutation over the buffer from wherever the index starts, which sorts the
    string if that is 0, and accesses memory outside of the buffer if it does not
    fit.  A character that is negative as a char makes both of them access memory
    in front of the table. *)
Theorem counting_sort_correct s r :
  (sortable s → ∃ t, t ≡ₚ s ∧ StronglySorted Z.le t ∧
    sortbyN (Some (s ++ 0 :: r)) = Ok (Some (t ++ 0 :: r)) ∧ sort 0 (Some (s ++ 0 :: r)) = Ok (Some (t ++ 0 :: r)) ∧
    ∀ index, sort index (Some (s ++ 0 :: r)) = written index t (s ++ 0 :: r)) ∧
  (∀ s1 c s2 index, s = s1 ++ c :: s2 → Forall (λ c, 1 ≤ c ≤ 127) s1 → c < 0 → no_nul s2 →
    sortbyN (Some (s ++ 0 :: r)) = Err Segv ∧ sort index (Some (s ++ 0 :: r)) = Err Segv).
Proof.
  split.
  - intros Hs. destruct (counting_sort_ok 256 s r ltac:(lia) Hs) as (t & E & Pm & St).
    destruct (counting_sort_ok 257 s r ltac:(lia) Hs) as (t' & E' & Pm' & St').
    replace t' with t in * by (apply (StronglySorted_unique Z.le); [done|done|by rewrite Pm']).
    assert (length t = length s) by (by rewrite Pm). exists t. unfold sortbyN, sort.
    split; [done|]. split; [done|]. rewrite E, E', written_start by done. done.
  - intros s1 c s2 index -> Hs Hc H2. assert (no_nul (s1 ++ c :: s2)) as Hz.
    { apply Forall_app. split; [eapply Forall_impl; [exact Hs|]; cbn; lia|]. constructor; [lia|done]. }
    unfold sortbyN, sort, counting_sort. rewrite cstr_app by done.
    by rewrite !count_loop_negative by (done || (rewrite length_replicate; lia)).
Qed.

(** More than 127 equal characters overflow their counter and are lost. *)
Lemma counter_overflow : sortbyN (Some (replicate 128 98 ++ [97; 0])) = Ok (Some (97 :: replicate 127 98 ++ [97; 0])).
Proof. vm_compute. reflexivity. Qed.

Lemma counting_sort_correct_witness :
  ∃ t, t ≡ₚ chars "bbaaccddoo" ∧ sortbyN (Some (chars "bbaaccddoo" ++ [0])) = Ok (Some (t ++ [0])).
Proof.
  destruct (counting_sort_correct (chars "bbaaccddoo") []) as [H _]. destruct H as (t & Pm & _ & E & _).
  - split; [repeat constructor; cbn; lia|]. intros c.
    assert (∀ x l, (occ x l ≤ length l)%nat) as Ho by (intros x l; induction l; cbn [occ length]; [|case_decide]; lia).
    specialize (Ho c (chars "bbaaccddoo")). cbn [length chars fmap list_fmap] in Ho. change (length (chars "bbaaccddoo")) with 10%nat in Ho. lia.
  - exists t. split; [exact Pm|exact E].
Defined.
