(* ===== verification/Exercises.v ===== *)
(** * Small programs (polipo/ffs.c, test/delteinarr.c, test/walkips.c,
    problem/revert.c)

    The lowest bit of a bitmap, the removal of the elements with a given value
    from an array, the addresses in a range, and a reversed string. *)
From Stdlib Require Import String.
From S2P Require Import Prelude CArr CBuf CInt Hosts CDec TextTools.

(** ** The lowest bit (polipo/ffs.c) *)
Fixpoint ffs_loop (fuel : nat) (i n : Z) : res Z :=
  match fuel with
  | O => Err Fuel
  | S fuel => if Z.land i 1 =? 0 then ffs_loop fuel (Z.shiftr i 1) (n + 1) else Ok n
  end.

Definition ffs (i : Z) : res Z := if i =? 0 then Ok 0 else ffs_loop 32 i 1.

Definition BITMAP_BIT (i : Z) : Z := u32 (Z.shiftl 1 i).

(** The value of [x] that is printed at the end, [None] if the shift is
    undefined. *)
Definition get_chunk (x : Z) : res (option Z) :=
  match ffs (s32 x) with
  | Err e => Err e
  | Ok n =>
      let i := u32 (n - 1) in
      if 32 <=? i then Ok None else Ok (Some (Z.land x (u32 (Z.lnot (BITMAP_BIT i)))))
  end.

Definition lowest_bit (x k : Z) : Prop := 0 ≤ k ∧ Z.testbit x k = true ∧ ∀ j, 0 ≤ j < k → Z.testbit x j = false.

Lemma ffs_loop_ok fuel i n k : lowest_bit i k → k < Z.of_nat fuel → ffs_loop fuel i n = Ok (n + k).
Proof.
  revert i n k. induction fuel as [|fuel IH]; intros i n k (K0 & K1 & Kj) Hf; [lia|]. cbn [ffs_loop].
  assert (Z.land i 1 = if Z.testbit i 0 then 1 else 0) as E1.
  { change 1 with (Z.ones 1) at 1. rewrite Z.land_ones by lia. change (2 ^ 1) with 2. rewrite <- Z.bit0_mod. by destruct (Z.testbit i 0). }
  rewrite E1. destruct (decide (k = 0)) as [->|Nk].
  - rewrite K1. cbn. f_equal. lia.
  - rewrite (Kj 0) by lia. cbn [Z.eqb]. rewrite (IH _ _ (k - 1)); [f_equal; lia| |lia].
    split; [lia|]. split; [|intros j Hj]; rewrite Z.shiftr_spec by lia; [by replace (k - 1 + 1) with k by lia|apply Kj; lia].
Qed.

Lemma exists_lowest x n : 0 < x < 2 ^ Z.of_nat n → ∃ k, lowest_bit x k ∧ k < Z.of_nat n.
Proof.
  revert x. induction n as [|n IH]; intros x Hx; [cbn in Hx; lia|]. destruct (Z.testbit x 0) eqn:E0.
  - exists 0. split; [|lia]. split; [lia|]. split; [done|]. intros j Hj. lia.
  - pose proof (Z.bit0_mod x) as Hm. rewrite E0 in Hm. cbn in Hm. pose proof (Z.div_mod x 2 ltac:(lia)) as Hd.
    rewrite Nat2Z.inj_succ, Z.pow_succ_r in Hx by lia. destruct (IH (x / 2)) as (k & (K0 & K1 & Kj) & Hk); [lia|].
    exists (k + 1). split; [|lia]. split; [lia|]. rewrite Hd. rewrite <- Hm, Z.add_0_r, Z.mul_comm.
    split; [|intros j Hj; destruct (decide (j = 0)) as [->|Nj]; [apply Z.testbit_even_0 || (rewrite Z.mul_comm; apply Z.testbit_even_0)|]].
    + rewrite <- (Z.shiftl_mul_pow2 _ 1), Z.shiftl_spec by lia. by replace (k + 1 - 1) with k by lia.
    + rewrite <- (Z.shiftl_mul_pow2 _ 1), Z.shiftl_spec by lia. apply Kj. lia.
Qed.

Lemma s32_testbit x j : 0 ≤ j < 32 → Z.testbit (s32 x) j = Z.testbit x j.
Proof.
  intros Hj. unfold s32. assert ((x + 2 ^ 31) mod 2 ^ 32 - 2 ^ 31 = x + (- ((x + 2 ^ 31) / 2 ^ 32)) * 2 ^ 32) as ->.
  { rewrite Z.mod_eq by lia. lia. }
  rewrite <- (Z.mod_pow2_bits_low _ 32 j) by lia. rewrite Z.mod_add by lia. by rewrite Z.mod_pow2_bits_low by lia.
Qed.

Lemma get_chunk_ok x k : 0 < x < 2 ^ 32 → lowest_bit x k → k < 32 → get_chunk x = Ok (Some (x - 2 ^ k)).
Proof.
  intros Hx (K0 & K1 & Kj) Hk. assert (lowest_bit (s32 x) k) as Ls.
  { split; [done|]. split; [|intros j Hj]; rewrite s32_testbit by lia; [done|by apply Kj]. }
  unfold get_chunk, ffs. rewrite (proj2 (Z.eqb_neq (s32 x) 0)).
  2:{ intros E. destruct Ls as (_ & L1 & _). rewrite E, Z.bits_0 in L1. done. }
  rewrite (ffs_loop_ok 32 (s32 x) 1 k Ls) by (cbn; lia). replace (u32 (1 + k - 1)) with k by (unfold u32; rewrite Z.mod_small; lia).
  rewrite (proj2 (Z.leb_gt _ _)) by lia. do 2 f_equal. unfold BITMAP_BIT. rewrite Z.shiftl_1_l.
  assert (0 < 2 ^ k < 2 ^ 32) as Hp by (split; [apply Z.pow_pos_nonneg; lia|apply Z.pow_lt_mono_r; lia]).
  replace (u32 (2 ^ k)) with (2 ^ k) by (unfold u32; rewrite Z.mod_small; lia).
  assert (Z.land x (u32 (Z.lnot (2 ^ k))) = Z.ldiff x (2 ^ k)) as ->.
  { apply Z.bits_inj'. intros j Hj. rewrite Z.land_spec, Z.ldiff_spec. unfold u32. destruct (decide (j < 32)).
    - by rewrite Z.mod_pow2_bits_low, Z.lnot_spec by lia.
    - rewrite <- (Z.mod_small x (2 ^ 32)) by lia. by rewrite Z.mod_pow2_bits_high by lia. }
  symmetry. apply Z.sub_nocarry_ldiff. apply Z.bits_inj'. intros j Hj. rewrite Z.ldiff_spec, Z.pow2_bits_eqb, Z.bits_0 by lia.
  destruct (Z.eqb_spec k j) as [->|]; [by rewrite K1|done].
Qed.

(** ** Removal from an array (test/delteinarr.c) *)

(** [for (; (j+1) < last; j++) arr[j] = arr[j+1]], in [n] rounds. *)
Fixpoint shift_down (n : nat) (j : Z) : M arr unit :=
  match n with
  | O => mret ()
  | S n => v ← aget (j + 1); aset j v;; shift_down n (j + 1)
  end.

(** [size] is the length of the array; the result is the number [k] of removed
    elements.  Each round prints [arr[i]]. *)
Fixpoint remove_loop (fuel : nat) (size i k : Z) : M arr Z :=
  match fuel with
  | O => fail Fuel
  | S fuel =>
      if i <? size - k then
        v ← aget i;
        (if v =? 3 then shift_down (Z.to_nat (size - k - (i + 1))) i else mret ());;
        let i' := if v =? 3 then i - 1 else i in
        let k' := if v =? 3 then k + 1 else k in
        aget i';;
        remove_loop fuel size (i' + 1) k'
      else mret k
  end.

Definition remove_threes : M arr Z := λ l, remove_loop (S (length l)) (Z.of_nat (length l)) 0 0 l.

Lemma shift_down_ok out x rest junk : ∃ y,
  shift_down (length rest) (Z.of_nat (length out)) (out ++ x :: rest ++ junk) = Ok ((), out ++ rest ++ y :: junk).
Proof.
  revert out x. induction rest as [|z rest IH]; intros out x; [by exists x|]. cbn [length shift_down app].
  assert (aget (Z.of_nat (length out) + 1) (out ++ x :: z :: rest ++ junk) = Ok (z, out ++ x :: z :: rest ++ junk)) as Eg.
  { replace (Z.of_nat (length out) + 1) with (Z.of_nat (S (length out))) by lia.
    rewrite aget_ok by (rewrite length_app; cbn [length]; lia). do 2 f_equal. apply list_lookup_total_correct.
    rewrite lookup_app_r by lia. by replace (S (length out) - length out)%nat with 1%nat by lia. }
  run Eg. rewrite (bind_ok _ _ _ _ _ (aset_app out (z :: rest ++ junk) x z _ eq_refl)).
  destruct (IH (out ++ [z]) z) as [y Ey]. exists y. rewrite length_app, <- !app_assoc in Ey. cbn [length app] in Ey.
  replace (Z.of_nat (length out) + 1) with (Z.of_nat (length out + 1)) by lia. exact Ey.
Qed.

Lemma aget_last (out rest : arr) : out ≠ [] → ∃ v, aget (Z.of_nat (length out) - 1) (out ++ rest) = Ok (v, out ++ rest).
Proof.
  intros Ho. destruct out as [|x out]; [done|]. cbn [length].
  replace (Z.of_nat (S (length out)) - 1) with (Z.of_nat (length out)) by lia. rewrite aget_ok; [by eexists|].
  rewrite length_app. cbn [length]. lia.
Qed.

Definition others (l : arr) : arr := filter (λ x, x ≠ 3) l.
Lemma others_drop l : others (3 :: l) = others l.
Proof. unfold others. by rewrite filter_cons_False by naive_solver. Qed.
Lemma others_keep x l : x ≠ 3 → others (x :: l) = x :: others l.
Proof. intros H. unfold others. by rewrite filter_cons_True. Qed.

Lemma remove_loop_ok rest fuel out junk size : size = Z.of_nat (length out + length rest + length junk) → (length rest < fuel)%nat →
  (out ≠ [] ∨ ∀ x r, rest = x :: r → x ≠ 3) →
  ∃ junk', remove_loop fuel size (Z.of_nat (length out)) (Z.of_nat (length junk)) (out ++ rest ++ junk) =
      Ok (Z.of_nat (length junk'), out ++ others rest ++ junk') ∧
    (length (others rest) + length junk' = length rest + length junk)%nat.
Proof.
  revert fuel out junk. induction rest as [|x rest IH]; intros fuel out junk Hs Hf Ho; (destruct fuel as [|fuel]; [cbn [length] in Hf; lia|]); cbn [remove_loop length] in *.
  - rewrite (proj2 (Z.ltb_ge _ _)) by lia. exists junk. split; [done|cbn; lia].
  - rewrite (proj2 (Z.ltb_lt _ _)) by lia.
    assert (aget (Z.of_nat (length out)) (out ++ (x :: rest) ++ junk) = Ok (x, out ++ (x :: rest) ++ junk)) as Eg.
    { rewrite aget_ok by (rewrite !length_app; cbn [length]; lia). do 2 f_equal. apply list_lookup_total_correct. by apply list_lookup_middle. }
    run Eg. destruct (Z.eqb_spec x 3) as [->|Nx].
    + destruct Ho as [Ho|Ho]; [|by destruct (Ho 3 rest)]. rewrite others_drop.
      destruct (shift_down_ok out 3 rest junk) as [y Ey].
      replace (Z.to_nat (size - Z.of_nat (length junk) - (Z.of_nat (length out) + 1))) with (length rest) by lia. cbn [app]. run Ey.
      destruct (aget_last out (rest ++ y :: junk) Ho) as [v Ev]. run Ev.
      destruct (IH fuel out (y :: junk)) as (junk' & E & Hl); [cbn [length]; lia|lia|by left|]. exists junk'.
      cbn [length] in *. replace (Z.of_nat (length out) - 1 + 1) with (Z.of_nat (length out)) by lia.
      replace (Z.of_nat (length junk) + 1) with (Z.of_nat (S (length junk))) by lia. split; [exact E|lia].
    + rewrite others_keep by done. erewrite bind_ok by reflexivity. run Eg.
      destruct (IH fuel (out ++ [x]) junk) as (junk' & E & Hl); [rewrite length_app; cbn [length]; lia|lia|left; by destruct out|].
      exists junk'. rewrite length_app, <- !app_assoc in E. cbn [length app] in *.
      replace (Z.of_nat (length out) + 1) with (Z.of_nat (length out + 1)) by lia. split; [exact E|cbn [length]; lia].
Qed.

(** ** A reversed string (problem/revert.c) *)

(** [for (i = n - 1; i >= 0; i--) output[j++] = str[i]], in the output. *)
Fixpoint reverse_loop (str : arr) (i : nat) (j : Z) : M arr unit :=
  match i with
  | O => mret ()
  | S i => v ← cget str (Z.of_nat i); aset j v;; reverse_loop str i (j + 1)
  end.

Definition revese (str : arr) : res arr :=
  match reverse_loop str (length str) 0 (replicate (S (length str)) 0) with Ok (_, output) => Ok output | Err e => Err e end.

Lemma reverse_loop_ok str i out : (i ≤ length str)%nat →
  reverse_loop str i (Z.of_nat (length out)) (out ++ replicate (S i) 0) = Ok ((), out ++ reverse (take i str) ++ [0]).
Proof.
  revert out. induction i as [|i IH]; intros out Hi; [done|]. cbn [reverse_loop].
  destruct (lookup_lt_is_Some_2 str i ltac:(lia)) as [v Ev]. run (cget_ok (out ++ replicate (S (S i)) 0) str i v Ev).
  change (replicate (S (S i)) 0) with (0 :: replicate (S i) 0). rewrite (bind_ok _ _ _ _ _ (aset_app out _ 0 v _ eq_refl)).
  replace (out ++ v :: replicate (S i) 0) with ((out ++ [v]) ++ replicate (S i) 0) by (by rewrite <- app_assoc).
  replace (Z.of_nat (length out) + 1) with (Z.of_nat (length (out ++ [v]))) by (rewrite length_app; cbn [length]; lia).
  rewrite IH by lia. rewrite (take_S_r _ _ v Ev), reverse_app, <- !app_assoc. done.
Qed.

(** ** The addresses in a range (test/walkips.c) *)
Fixpoint strrchr (s : arr) (c : Z) : option nat :=
  match s with
  | [] => None
  | x :: s => match strrchr s c with Some n => Some (S n) | None => if x =? c then Some 0%nat else None end
  end.

Definition strcasecmp_eq (a b : arr) : bool := bool_decide (tolower <$> a = tolower <$> b).

Definition ADDR_SIZE : Z := 16.
Definition DASH : Z := 45.
Definition DOT : Z := 46.

(** [for (i = from; i < to; i++)] in [n] rounds: the addresses printed. *)
Fixpoint ips_loop (n : nat) (start : arr) (i : Z) : res (list arr) :=
  match n with
  | O => Ok []
  | S n =>
      let ip := start ++ DOT :: dec i in
      if fits ADDR_SIZE ip then match ips_loop n start (i + 1) with Ok l => Ok (ip :: l) | Err e => Err e end else Err Segv
  end.

(** The result, and the addresses that are printed. *)
Definition walkips (ips : option arr) : res (Z * list arr) :=
  match ips with
  | None => Ok (-1, [])
  | Some ips =>
      match strstr ips [DASH] with
      | None => Ok (0, [])
      | Some n =>
          let start := take n ips in
          let end_ := drop (S n) ips in
          if strcasecmp_eq start end_ then Ok (0, [start])
          else
            match strrchr start DOT, strrchr end_ DOT with
            | Some start_last, Some end_last =>
                let a := atoi (drop (S start_last) start) in
                let b := atoi (drop (S end_last) end_) in
                let start_num := if b <? a then b else a in
                let end_num := if b <? a then a else b in
                match ips_loop (Z.to_nat (end_num - start_num)) (take start_last start) start_num with
                | Ok l => Ok (0, l)
                | Err e => Err e
                end
            | _, _ => Ok (-2, [])
            end
      end
  end.

Lemma strrchr_app s c r : c ∉ r → strrchr (s ++ c :: r) c = Some (length s).
Proof.
  intros Hr. assert (strrchr r c = None) as En.
  { induction r as [|x r IH]; [done|]. apply not_elem_of_cons in Hr as [Hx Hr]. cbn [strrchr]. rewrite IH by done.
    by rewrite (proj2 (Z.eqb_neq x c)) by congruence. }
  induction s as [|x s IH]; cbn [strrchr app length]; [by rewrite En, Z.eqb_refl|by rewrite IH].
Qed.

Lemma strstr_char s c r : c ∉ s → strstr (s ++ c :: r) [c] = Some (length s).
Proof.
  intros Hs. apply strstr_Some. split; [by exists r; rewrite drop_app_length|]. split; [rewrite length_app; lia|].
  intros k Hk [r' E]. apply Hs. apply (list_elem_of_lookup_2 _ k). rewrite <- (lookup_app_l s (c :: r)) by done.
  rewrite <- (Nat.add_0_r k), <- lookup_drop. by rewrite E.
Qed.

Lemma dec_no c n : 0 ≤ n → ¬ is_digit c → c ∉ dec n.
Proof. intros Hn Hc. apply digits_no; [by apply atoi_dec|done]. Qed.

Lemma dec_bytes : forallb (λ k, (length (dec k) <=? 3)%nat) (Z.of_nat <$> seq 0 256) = true.
Proof. vm_compute. reflexivity. Qed.

Lemma dec_byte k : 0 ≤ k ≤ 255 → (length (dec k) ≤ 3)%nat.
Proof.
  intros Hk. pose proof dec_bytes as H. rewrite forallb_forall in H. apply Nat.leb_le, H, list_elem_of_In, list_elem_of_fmap.
  exists (Z.to_nat k). split; [lia|apply elem_of_seq; lia].
Qed.

Lemma ips_loop_ok n p i : 0 ≤ i → (∀ k, i ≤ k < i + Z.of_nat n → fits ADDR_SIZE (p ++ DOT :: dec k) = true) →
  ips_loop n p i = Ok ((λ k, p ++ DOT :: dec k) <$> seqZ i (Z.of_nat n)).
Proof.
  revert i. induction n as [|n IH]; intros i Hi Hf; [done|]. cbn [ips_loop]. rewrite Hf by lia.
  rewrite IH by (lia || (intros; apply Hf; lia)). rewrite (seqZ_cons i) by lia. cbn [fmap list_fmap].
  replace (Z.pred (Z.of_nat (S n))) with (Z.of_nat n) by lia. by replace (Z.succ i) with (i + 1) by lia.
Qed.

(** ** Properties *)

(** for a bitmap that is not empty [get_chunk] prints it without its lowest
    bit; for the empty one it shifts by more than the width of the type. *)
Theorem get_chunk_correct x : 0 ≤ x < 2 ^ 32 →
  (x = 0 ∧ get_chunk x = Ok None) ∨
  ∃ k, Z.testbit x k = true ∧ (∀ j, 0 ≤ j < k → Z.testbit x j = false) ∧ get_chunk x = Ok (Some (x - 2 ^ k)).
Proof.
  intros Hx. destruct (decide (x = 0)) as [->|Nx]; [by left|]. right.
  destruct (exists_lowest x 32) as (k & L & Hk); [cbn; lia|]. exists k. destruct L as (L0 & L1 & L2).
  repeat split; [done|done|]. apply get_chunk_ok; [lia|by repeat split|exact Hk].
Qed.

(** the loop that removes the threes ends; if the array does not start with a
    three it leaves all other elements in order at the front and returns how
    many were removed, and if it does it reads in front of the array. *)
Theorem remove_threes_correct x l :
  if x =? 3 then remove_threes (x :: l) = Err Segv
  else ∃ junk, remove_threes (x :: l) = Ok (Z.of_nat (length junk), others (x :: l) ++ junk) ∧
    (length (others (x :: l)) + length junk)%nat = length (x :: l).
Proof.
  destruct (Z.eqb_spec x 3) as [->|Nx].
  - unfold remove_threes. cbn [remove_loop length]. rewrite (proj2 (Z.ltb_lt _ _)) by lia.
    run (aget_ok 0 (3 :: l) ltac:(cbn; lia)). change ((3 :: l) !!! 0%nat) with 3. cbn match.
    change ((3 =? 3)) with true. cbn match. destruct (shift_down_ok [] 3 l []) as [y Ey]. rewrite app_nil_r in Ey. cbn [length app] in Ey.
    change (Z.of_nat 0) with 0 in *.
    replace (Z.to_nat (Z.of_nat (S (length l)) - 0 - (0 + 1))) with (length l) by lia. by run Ey.
  - destruct (remove_loop_ok (x :: l) (S (length (x :: l))) [] [] (Z.of_nat (length (x :: l)))) as (junk & E & Hl); [cbn [length]; lia|lia|right; naive_solver|].
    cbn [app] in E. rewrite app_nil_r in E. exists junk. split; [exact E|cbn [length] in *; lia].
Qed.

(** for a range of two different addresses with the same first part
    [walkips] prints the addresses from the smaller one up to, but without, the
    larger one. *)
Theorem walkips_correct p q a b :
  DASH ∉ p → 0 ≤ a ≤ 255 → 0 ≤ b ≤ 255 → (length p < 12)%nat →
  strcasecmp_eq (p ++ DOT :: dec a) (q ++ DOT :: dec b) = false →
  walkips (Some ((p ++ DOT :: dec a) ++ DASH :: q ++ DOT :: dec b)) =
    Ok (0, (λ k, p ++ DOT :: dec k) <$> seqZ (Z.min a b) (Z.abs (a - b))).
Proof.
  intros Hp Ha Hb Hl Hne. assert (DOT ∉ dec a ∧ DOT ∉ dec b ∧ DASH ∉ dec a) as (Da & Db & Ma).
  { split; [|split]; apply dec_no; try lia; unfold is_digit, DOT, DASH; lia. }
  unfold walkips. rewrite strstr_char; [|by rewrite not_elem_of_app, not_elem_of_cons].
  rewrite take_app_length. set (s := p ++ DOT :: dec a) in *.
  replace (drop (S (length s)) (s ++ DASH :: q ++ DOT :: dec b)) with (q ++ DOT :: dec b).
  2:{ change (DASH :: q ++ DOT :: dec b) with ([DASH] ++ q ++ DOT :: dec b). rewrite app_assoc.
      rewrite drop_app_length'; [done|]. rewrite length_app. cbn [length]. lia. }
  rewrite Hne. unfold s. rewrite !strrchr_app by done. rewrite take_app_length.
  assert (∀ u v : arr, drop (S (length u)) (u ++ DOT :: v) = v) as Hd.
  { intros u v. change (u ++ DOT :: v) with (u ++ [DOT] ++ v). rewrite app_assoc, drop_app_length'; [done|]. rewrite length_app. cbn [length]. lia. }
  rewrite !Hd, (proj2 (atoi_dec a ltac:(lia))), (proj2 (atoi_dec b ltac:(lia))).
  assert (∀ k, 0 ≤ k ≤ 255 → fits ADDR_SIZE (p ++ DOT :: dec k) = true) as Hfit.
  { intros k Hk. apply Z.ltb_lt. rewrite length_app. cbn [length]. pose proof (dec_byte k Hk). unfold ADDR_SIZE. lia. }
  destruct (Z.ltb_spec b a); rewrite ips_loop_ok by (lia || (intros; apply Hfit; lia)); rewrite Z2Nat.id by lia; do 4 f_equal; lia.
Qed.

Lemma get_chunk_correct_witness : ∃ k, Z.testbit 12 k = true ∧ get_chunk 12 = Ok (Some (12 - 2 ^ k)).
Proof. destruct (get_chunk_correct 12) as [[E _]|(k & T & _ & E)]; [lia|discriminate E|]. exists k. split; [exact T|exact E]. Defined.

Lemma walkips_correct_witness :
  walkips (Some (chars "183.239.175.1-183.239.175.4")) =
    Ok (0, [chars "183.239.175.1"; chars "183.239.175.2"; chars "183.239.175.3"]).
Proof.
  pose proof (walkips_correct (chars "183.239.175") (chars "183.239.175") 1 4) as H.
  assert (∀ s : arr, bool_decide (DASH ∉ s) = true → DASH ∉ s) as Hb by (intros s; apply bool_decide_eq_true).
  exact (H (Hb (chars "183.239.175") eq_refl) ltac:(lia) ltac:(lia) ltac:(cbn; lia) eq_refl).
Defined.
