(* ===== verification/EvServer.v ===== *)
(** * The server on libev (libev/server.c, libev/buffer.c; libev/http has the
    same files)

    For each connection the server allocates a [server_t] with two contexts and
    a buffer, and frees them together.  [server_recv_cb] is called when data
    can be read.  The event loop calls it for the servers whose watcher is
    active; what the system calls return, the contents of memory that is not
    initialised and the addresses of malloc are arguments. *)
From stdpp Require Import gmap.
From S2P Require Import Prelude CArr CBuf CInt.

Definition BUF_SIZE : Z := 2048.

(** ** Buffers *)
Record buffer_t := mk_buffer { idx : Z; len : Z; capacity : Z; array : arr }.

(** [junk] is what malloc returns; a null pointer ends the program. *)
Definition balloc (cap : Z) (junk : option arr) : res buffer_t :=
  match junk with None => Err Exit | Some a => Ok (mk_buffer 0 0 cap (take (Z.to_nat cap) a)) end.

Definition brealloc (ptr : option buffer_t) (l cap : Z) (junk : option arr) : res (Z * option buffer_t) :=
  match ptr with
  | None => Ok (-1, None)
  | Some b =>
      let real_capacity := if l >? cap then l else cap in
      if capacity b <? real_capacity then
        match junk with
        | None => Err Exit
        | Some a => Ok (real_capacity, Some (mk_buffer (idx b) (len b) real_capacity
            (take (Z.to_nat real_capacity) (array b ++ a))))
        end
      else Ok (real_capacity, Some b)
  end.

(** ** Servers *)
Record server_t := mk_server { fd : Z; buf : buffer_t }.

(** The allocated servers, the watchers for reading that are active, and the
    descriptors that were closed. *)
Record world := mk_world { servers : gmap Z server_t; watching : list Z; closed_fds : list Z }.

Definition new_server (p f : Z) (junk : option arr) : M world Z := λ w,
  match balloc BUF_SIZE junk with
  | Err e => Err e
  | Ok b => Ok (p, mk_world (<[p := mk_server f b]> (servers w)) (watching w) (closed_fds w))
  end.

Definition get_server (p : Z) : M world server_t := λ w,
  match servers w !! p with Some s => Ok (s, w) | None => Err Segv end.
Definition set_server (p : Z) (s : server_t) : M world unit :=
  modify (λ w, mk_world (<[p := s]> (servers w)) (watching w) (closed_fds w)).

Definition free_server (p : Z) : M world unit :=
  if p =? NULL then mret ()
  else get_server p;; modify (λ w, mk_world (delete p (servers w)) (watching w) (closed_fds w)).

Definition ev_io_stop (p : Z) : M world unit :=
  modify (λ w, mk_world (servers w) (filter (λ q, q ≠ p) (watching w)) (closed_fds w)).

Definition close_and_free_server (p : Z) : M world unit :=
  if p =? NULL then mret ()
  else
    s ← get_server p;
    ev_io_stop p;;
    modify (λ w, mk_world (servers w) (watching w) (fd s :: closed_fds w));;
    free_server p.

Definition accept_cb (serverfd p : Z) (junk : option arr) : M world unit :=
  if serverfd =? -1 then mret ()
  else
    server ← new_server p serverfd junk;
    modify (λ w, mk_world (servers w) (server :: watching w) (closed_fds w)).

(** What [recv] and [send] return; [again] stands for EAGAIN. *)
Inductive received := Data (bytes : arr) | Failed (again : bool).
Inductive sent := Sent (n : Z) | Refused (again : bool).

(** [recv] into the array at [len]. *)
Definition recv_into (b : buffer_t) (bytes : arr) : res arr :=
  let n := Z.to_nat (len b) in
  if len b + Z.of_nat (length bytes) <=? Z.of_nat (length (array b))
  then Ok (take n (array b) ++ bytes ++ drop (n + length bytes) (array b)) else Err Segv.

(** [printf("%s", server->buf->array)]. *)
Definition print_array (p : Z) : M world unit :=
  s ← get_server p;
  match cstr (array (buf s)) with Some _ => mret () | None => fail Overread end.

(** [test] is an array of the function that is not initialised. *)
Definition server_recv_cb (p : Z) (r : received) (s : sent) (test : arr) (junk : option arr) : M world unit :=
  srv ← get_server p;
  match r with
  | Failed true => mret ()
  | _ =>
      (match r with
       | Data [] => close_and_free_server p
       | Data bytes =>
           match recv_into (buf srv) bytes with
           | Err e => fail e
           | Ok a => set_server p (mk_server (fd srv) (mk_buffer (idx (buf srv)) (len (buf srv)) (capacity (buf srv)) a))
           end
       | Failed _ => close_and_free_server p
       end);;
      print_array p;;
      srv ← get_server p;
      let n := match r with Data bytes => Z.of_nat (length bytes) | Failed _ => -1 end in
      let b := mk_buffer (idx (buf srv)) (len (buf srv) + n) (capacity (buf srv)) (array (buf srv)) in
      set_server p (mk_server (fd srv) b);;
      if BUF_SIZE <=? n then
        match brealloc (Some b) (len b) (len b + BUF_SIZE) junk with
        | Ok (_, Some b) => set_server p (mk_server (fd srv) b)
        | Ok (_, None) => mret ()
        | Err e => fail e
        end
      else
        match cstr test with
        | None => fail Overread
        | Some t =>
            match s with
            | Refused true => mret ()
            | Refused false => close_and_free_server p
            | Sent k => if k <? Z.of_nat (length t) then mret () else close_and_free_server p
            end
        end
  end.

(** ** Buffers with room for another read *)
Record roomy (b : buffer_t) : Prop := {
  rm_len : 0 ≤ len b;
  rm_array : Z.of_nat (length (array b)) = capacity b;
  rm_room : len b + BUF_SIZE ≤ capacity b }.

(** The buffer after a read. *)
Definition filled (b : buffer_t) (bytes : arr) : buffer_t :=
  mk_buffer (idx b) (len b + Z.of_nat (length bytes)) (capacity b)
    (take (Z.to_nat (len b)) (array b) ++ bytes ++ drop (Z.to_nat (len b) + length bytes) (array b)).

Definition payload (b : buffer_t) : arr := take (Z.to_nat (len b)) (array b).

Lemma balloc_roomy a : BUF_SIZE ≤ Z.of_nat (length a) → ∃ b, balloc BUF_SIZE (Some a) = Ok b ∧ roomy b ∧ payload b = [].
Proof.
  intros Ha. eexists. split; [done|]. split; [|done]. split; cbn [len array capacity]; rewrite ?length_take; unfold BUF_SIZE in *; lia.
Qed.

Lemma filled_payload b bytes : roomy b → Z.of_nat (length bytes) ≤ BUF_SIZE →
  payload (filled b bytes) = payload b ++ bytes ∧ Z.of_nat (length (array (filled b bytes))) = capacity b.
Proof.
  intros [L A R] Hb. unfold payload, filled. cbn [len array capacity]. split.
  - rewrite Z2Nat.inj_add, Nat2Z.id by lia. rewrite app_assoc. apply take_app_length'.
    rewrite length_app, length_take. lia.
  - rewrite !length_app, length_take, length_drop. lia.
Qed.

Lemma brealloc_roomy b bytes a : roomy b → Z.of_nat (length bytes) = BUF_SIZE → BUF_SIZE ≤ Z.of_nat (length a) →
  ∃ n b', brealloc (Some (filled b bytes)) (len (filled b bytes)) (len (filled b bytes) + BUF_SIZE) (Some a) = Ok (n, Some b') ∧
    roomy b' ∧ len b' = len b + BUF_SIZE ∧ payload b' = payload b ++ bytes.
Proof.
  intros Hr Hb Ha. destruct (filled_payload b bytes Hr ltac:(lia)) as [Hp Hl]. destruct Hr as [L A R]. unfold BUF_SIZE in *.
  assert (len (filled b bytes) = len b + 2048) as El by (cbn [filled len]; lia).
  unfold brealloc. rewrite El. destruct (Z.gtb_spec (len b + 2048) (len b + 2048 + 2048)); [lia|].
  change (capacity (filled b bytes)) with (capacity b). destruct (Z.ltb_spec (capacity b) (len b + 2048 + 2048)) as [Hc|Hc].
  - eexists _, _. split; [done|]. change (idx (filled b bytes)) with (idx b). split; [|split; [done|]].
    + split; cbn [len array capacity]; rewrite ?length_take, ?length_app; unfold BUF_SIZE; lia.
    + rewrite <- Hp. unfold payload. cbn [len array]. rewrite El, take_take, Nat.min_l by lia. rewrite take_app_le by lia. done.
  - eexists _, _. split; [done|]. split; [|by rewrite Hp]. split; rewrite ?El; unfold BUF_SIZE; [lia|exact Hl|exact Hc].
Qed.

(** ** The callback *)
Section callback.
Context (p : Z) (w : world) (f : Z) (b : buffer_t).
Hypothesis (Hp : p ≠ NULL) (Hw : servers w !! p = Some (mk_server f b)).

Definition with_server (s : server_t) (w : world) : world := mk_world (<[p := s]> (servers w)) (watching w) (closed_fds w).
Definition without_server (w : world) : world :=
  mk_world (delete p (servers w)) (filter (λ q, q ≠ p) (watching w)) (f :: closed_fds w).

Lemma get_server_ok s w' : servers w' !! p = Some s → get_server p w' = Ok (s, w').
Proof. intros E. unfold get_server. by rewrite E. Qed.

Lemma close_server_ok b' w' : servers w' !! p = Some (mk_server f b') → close_and_free_server p w' = Ok ((), without_server w').
Proof.
  intros E. unfold close_and_free_server, free_server. rewrite (proj2 (Z.eqb_neq _ _) Hp). run (get_server_ok _ w' E).
  unfold ev_io_stop. do 2 erewrite bind_ok by reflexivity. cbn [servers watching closed_fds].
  erewrite bind_ok by (apply get_server_ok; exact E). done.
Qed.

Lemma close_twice b' w' (k : M world unit) : servers w' !! p = Some (mk_server f b') → (close_and_free_server p;; print_array p;; k) w' = Err Segv.
Proof.
  intros E. run (close_server_ok b' w' E). apply bind_err. unfold print_array. apply bind_err. unfold get_server, without_server. cbn.
  by rewrite lookup_delete_eq.
Qed.

Lemma recv_cb_gone r s test junk : r = Data [] ∨ r = Failed false → server_recv_cb p r s test junk w = Err Segv.
Proof.
  intros Hr. unfold server_recv_cb. run (get_server_ok _ w Hw). destruct Hr as [-> | ->]; rewrite ?bind_assoc; by apply (close_twice b).
Qed.

Lemma recv_cb_overflow bytes s test junk : bytes ≠ [] → Z.of_nat (length (array b)) < len b + Z.of_nat (length bytes) →
  server_recv_cb p (Data bytes) s test junk w = Err Segv.
Proof.
  intros Hb Hl. unfold server_recv_cb. run (get_server_ok _ w Hw). destruct bytes as [|x bytes]; [done|].
  apply bind_err. unfold recv_into. cbn [buf]. by rewrite (proj2 (Z.leb_gt _ _)).
Qed.

(** The data is in the buffer and was printed. *)
Lemma recv_cb_printed bytes s test junk : bytes ≠ [] → len b + Z.of_nat (length bytes) ≤ Z.of_nat (length (array b)) →
  server_recv_cb p (Data bytes) s test junk w =
    match cstr (array (filled b bytes)) with
    | None => Err Overread
    | Some _ =>
        (if BUF_SIZE <=? Z.of_nat (length bytes) then
           match brealloc (Some (filled b bytes)) (len (filled b bytes)) (len (filled b bytes) + BUF_SIZE) junk with
           | Ok (_, Some b) => set_server p (mk_server f b)
           | Ok (_, None) => mret ()
           | Err e => fail e
           end
         else
           match cstr test with
           | None => fail Overread
           | Some t =>
               match s with
               | Refused true => mret ()
               | Refused false => close_and_free_server p
               | Sent k => if k <? Z.of_nat (length t) then mret () else close_and_free_server p
               end
           end) (with_server (mk_server f (filled b bytes)) w)
    end.
Proof.
  intros Hb Hl. unfold server_recv_cb. run (get_server_ok _ w Hw). destruct bytes as [|x bytes]; [done|].
  assert (recv_into b (x :: bytes) = Ok (array (filled b (x :: bytes)))) as Er.
  { unfold recv_into. by rewrite (proj2 (Z.leb_le _ _)) by lia. }
  cbn [buf fd]. rewrite Er. set (y := x :: bytes) in *. erewrite bind_ok by reflexivity. rewrite ?bind_assoc.
  destruct (cstr (array (filled b y))) as [t|] eqn:Et.
  - erewrite bind_ok. 2:{ unfold print_array. erewrite bind_ok by (apply get_server_ok, lookup_insert_eq). cbn [buf array]. by rewrite Et. }
    erewrite bind_ok by (apply get_server_ok, lookup_insert_eq). cbn [buf fd idx len capacity array].
    unfold set_server. erewrite bind_ok by reflexivity. cbn [servers watching closed_fds]. rewrite insert_insert_eq. done.
  - apply bind_err. unfold print_array. erewrite bind_ok by (apply get_server_ok, lookup_insert_eq). cbn [buf array]. by rewrite Et.
Qed.

Lemma close_filled b' : close_and_free_server p (with_server (mk_server f b') w) = Ok ((), without_server w).
Proof.
  rewrite (close_server_ok b') by apply lookup_insert_eq. unfold without_server, with_server. cbn [servers watching closed_fds].
  by rewrite delete_insert_eq.
Qed.

(** Without memory, the buffer keeps its size if it is large enough. *)
Lemma full_read_none b' :
  let r := match brealloc (Some b') (len b') (len b' + BUF_SIZE) None with
    | Ok (_, Some b) => set_server p (mk_server f b)
    | Ok (_, None) => mret ()
    | Err e => fail e
    end (with_server (mk_server f b') w) in
  0 ≤ len b' → Z.of_nat (length (array b')) = capacity b' →
  if capacity b' <? len b' + BUF_SIZE then r = Err Exit else r = Ok ((), with_server (mk_server f b') w) ∧ roomy b'.
Proof.
  intros r L A. unfold r, brealloc. destruct (Z.gtb_spec (len b') (len b' + BUF_SIZE)); [unfold BUF_SIZE in *; lia|].
  destruct (Z.ltb_spec (capacity b') (len b' + BUF_SIZE)); [done|]. split; [|split; lia].
  unfold set_server, modify, with_server. cbn [servers watching closed_fds]. by rewrite insert_insert_eq.
Qed.
End callback.

(** ** Properties *)

(** C33: what [server_recv_cb] does, whatever [recv] and [send] return and
    whatever is in the memory that is not initialised.  If there is nothing to
    read, nothing happens; if the client has closed the connection or the read
    fails, the server is freed and then used.  Data that does not fit is written
    behind the buffer.  Data that fits is stored behind what is there; then the
    array is printed as a string, which reads behind it if there is no NUL in it.
    After a full read the buffer grows, so that it has room for another one and
    holds all data received so far.  After a shorter one the array [test] is sent
    up to its first NUL, which is searched behind its end if it has none, and the
    server is freed and its descriptor closed, unless the send has to be repeated
    or was a part only. *)
Theorem server_recv_correct p w f b r s test junk :
  p ≠ NULL → servers w !! p = Some (mk_server f b) → 0 ≤ len b → Z.of_nat (length (array b)) = capacity b →
  (∀ bytes, r = Data bytes → Z.of_nat (length bytes) ≤ BUF_SIZE) → (∀ a, junk = Some a → BUF_SIZE ≤ Z.of_nat (length a)) →
  match r with
  | Failed true => server_recv_cb p r s test junk w = Ok ((), w)
  | Failed false | Data [] => server_recv_cb p r s test junk w = Err Segv
  | Data bytes =>
      if capacity b <? len b + Z.of_nat (length bytes) then server_recv_cb p r s test junk w = Err Segv
      else
        match cstr (array (filled b bytes)) with
        | None => server_recv_cb p r s test junk w = Err Overread
        | Some _ =>
            if BUF_SIZE <=? Z.of_nat (length bytes) then
              match junk with
              | None =>
                  if capacity b <? len (filled b bytes) + BUF_SIZE then server_recv_cb p r s test junk w = Err Exit
                  else server_recv_cb p r s test junk w = Ok ((), with_server p (mk_server f (filled b bytes)) w) ∧ roomy (filled b bytes)
              | Some _ => ∃ b', server_recv_cb p r s test junk w = Ok ((), with_server p (mk_server f b') w) ∧
                  roomy b' ∧ payload b' = payload b ++ bytes
              end
            else
              match cstr test with
              | None => server_recv_cb p r s test junk w = Err Overread
              | Some t =>
                  server_recv_cb p r s test junk w =
                    Ok ((), match s with
                            | Refused true => with_server p (mk_server f (filled b bytes)) w
                            | Refused false => without_server p f w
                            | Sent k => if k <? Z.of_nat (length t) then with_server p (mk_server f (filled b bytes)) w else without_server p f w
                            end)
              end
        end
  end.
Proof.
  intros Hp Hw L A Hr Hj. destruct r as [[|x bytes]|[]].
  - apply (recv_cb_gone p w f b Hp Hw). by left.
  - specialize (Hr _ eq_refl). set (y := x :: bytes) in *. assert (y ≠ []) as Hy by done.
    destruct (Z.ltb_spec (capacity b) (len b + Z.of_nat (length y))) as [Hc|Hc]; [apply (recv_cb_overflow p w f b Hw); [done|lia]|].
    rewrite (recv_cb_printed p w f b Hw y s test junk Hy) by lia. destruct (cstr (array (filled b y))); [|done].
    destruct (Z.leb_spec BUF_SIZE (Z.of_nat (length y))) as [Hf|Hf].
    + assert (roomy b) as Hb by (split; lia). destruct junk as [a|]; [|
        apply (full_read_none p w f (filled b y)); [cbn [len filled]; lia|exact (proj2 (filled_payload b y Hb Hr))]].
      destruct (brealloc_roomy b y a Hb ltac:(lia) (Hj _ eq_refl)) as (n & b' & E & Hr' & _ & Hp'). exists b'. rewrite E.
      split; [|done]. unfold set_server, modify, with_server. cbn [servers watching closed_fds]. by rewrite insert_insert_eq.
    + destruct (cstr test) as [t|]; [|done]. pose proof (close_filled p w f Hp (filled b y)) as Ec.
      destruct s as [k|[]]; [|done|exact Ec]. by destruct (k <? Z.of_nat (length t)).
  - unfold server_recv_cb. by run (get_server_ok p _ w Hw).
  - apply (recv_cb_gone p w f b Hp Hw). by right.
Qed.

(** when the client closes the connection, or the read fails, the server is
    freed and then used; and if there is no room for what is read, which is so
    after an answer that could not be sent in full, it is written behind the
    buffer. *)
Theorem server_recv_faults p w f b s test junk :
  p ≠ NULL → servers w !! p = Some (mk_server f b) →
  server_recv_cb p (Data []) s test junk w = Err Segv ∧
  server_recv_cb p (Failed false) s test junk w = Err Segv ∧
  (∀ bytes, bytes ≠ [] → Z.of_nat (length (array b)) < len b + Z.of_nat (length bytes) →
    server_recv_cb p (Data bytes) s test junk w = Err Segv).
Proof.
  intros Hp Hw. split; [|split]; [apply (recv_cb_gone p w f b Hp Hw); auto..|].
  intros bytes. by apply (recv_cb_overflow p w f b Hw).
Qed.

Definition demo_world : world := mk_world {[ 8 := mk_server 5 (mk_buffer 0 0 2048 (replicate 2048 0)) ]} [8] [].

(** A full read into a buffer that had one, then a short one after which the
    answer is sent; and a full read into a fresh buffer, in which no NUL is left. *)
Definition demo_wide : world := mk_world {[ 8 := mk_server 5 (mk_buffer 0 3 4096 (replicate 4096 0)) ]} [8] [].

Lemma server_recv_correct_witness :
  (∃ b', server_recv_cb 8 (Data (replicate 2048 65)) (Sent 0) [] (Some (replicate 2048 0)) demo_wide =
      Ok ((), with_server 8 (mk_server 5 b') demo_wide) ∧ roomy b' ∧ payload b' = [0; 0; 0] ++ replicate 2048 65) ∧
  server_recv_cb 8 (Data (replicate 100 65)) (Sent 3) [1; 2; 3; 0] None demo_world = Ok ((), without_server 8 5 demo_world) ∧
  server_recv_cb 8 (Data (replicate 2048 65)) (Sent 3) [1; 2; 3; 0] None demo_world = Err Overread.
Proof.
  split; [|split].
  - exact (server_recv_correct 8 demo_wide 5 (mk_buffer 0 3 4096 (replicate 4096 0)) (Data (replicate 2048 65)) (Sent 0) [] (Some (replicate 2048 0))
      ltac:(done) eq_refl ltac:(done) eq_refl ltac:(by intros ? [= <-]) ltac:(by intros ? [= <-])).
  - exact (server_recv_correct 8 demo_world 5 (mk_buffer 0 0 2048 (replicate 2048 0)) (Data (replicate 100 65)) (Sent 3) [1; 2; 3; 0] None
      ltac:(done) eq_refl ltac:(done) eq_refl ltac:(by intros ? [= <-]) ltac:(done)).
  - exact (server_recv_correct 8 demo_world 5 (mk_buffer 0 0 2048 (replicate 2048 0)) (Data (replicate 2048 65)) (Sent 3) [1; 2; 3; 0] None
      ltac:(done) eq_refl ltac:(done) eq_refl ltac:(by intros ? [= <-]) ltac:(done)).
Defined.

Lemma server_recv_faults_witness : server_recv_cb 8 (Data []) (Sent 0) [] None demo_world = Err Segv.
Proof.
  destruct (server_recv_faults 8 demo_world 5 (mk_buffer 0 0 2048 (replicate 2048 0)) (Sent 0) [] None) as [E _]; [discriminate|reflexivity|exact E].
Defined.
