(* ===== verification/SelectServer.v ===== *)
(** * A server with select (socket/select_asyn_webserver.c)

    The server waits with select for its listening socket and its connections,
    accepts all that are pending and answers each request; it closes a
    connection on the end of its input and on errors.  The kernel is a
    parameter, a state with one operation per system call; [KernelLaws] is what
    is documented of them.  The limit on descriptors may be larger than the size
    of a set, and the server does not look at it.  The loops over descriptors take a number of rounds that suffices for all
    descriptors, the server is run for any number of rounds. *)
From stdpp Require Import gmap.
From S2P Require Import Prelude CInt Hoare.

Definition FD_SETSIZE : Z := 1024.

(** ** The kernel *)
Class Kernel (K : Type) := {
  nofile : Z;
  open_fds : K → gset Z;
  sys_select : gset Z → K → Z * gset Z * K;
  sys_accept : K → Z * bool * K;
  sys_recv : Z → K → Z * bool * K;
  sys_send : Z → K → Z * K;
  sys_close : Z → K → K }.

(** Descriptors are below the limit RLIMIT_NOFILE, a new one is none of those in
    use, and only accept and close change which are. *)
Class KernelLaws (K : Type) `{Kernel K} : Prop := {
  select_law A k rc W k' : sys_select A k = (rc, W, k') → W ⊆ A ∧ open_fds k' = open_fds k;
  accept_law k fd wb k' : sys_accept k = (fd, wb, k') →
    (fd = -1 ∧ open_fds k' = open_fds k) ∨ (0 ≤ fd < nofile ∧ fd ∉ open_fds k ∧ open_fds k' = {[fd]} ∪ open_fds k);
  recv_law fd k rc wb k' : sys_recv fd k = (rc, wb, k') → open_fds k' = open_fds k;
  send_law fd k rc k' : sys_send fd k = (rc, k') → open_fds k' = open_fds k;
  close_law fd k : open_fds (sys_close fd k) = open_fds k ∖ {[fd]} }.

Section server.
Context {K : Type} `{Kernel K}.

Record state := mk_state { master_set : gset Z; max_sd : Z; end_server : bool; kern : K }.

Definition set_master (f : gset Z → gset Z) (s : state) : state := mk_state (f (master_set s)) (max_sd s) (end_server s) (kern s).
Definition set_max (m : Z) (s : state) : state := mk_state (master_set s) m (end_server s) (kern s).
Definition set_end (s : state) : state := mk_state (master_set s) (max_sd s) true (kern s).
Definition set_kern (k : K) (s : state) : state := mk_state (master_set s) (max_sd s) (end_server s) k.

Definition call {A} (f : K → A * K) : M state A := λ s, let r := f (kern s) in Ok (r.1, set_kern r.2 s).
Definition close (fd : Z) : M state unit := modify (λ s, set_kern (sys_close fd (kern s)) s).

(** *** Sets of descriptors: an access outside of the set is an error *)
Definition in_set (fd : Z) : bool := (0 <=? fd) && (fd <? FD_SETSIZE).
Definition FD_SET (fd : Z) : M state unit := if in_set fd then modify (set_master (λ m, {[fd]} ∪ m)) else fail Segv.
Definition FD_CLR (fd : Z) : M state unit := if in_set fd then modify (set_master (λ m, m ∖ {[fd]})) else fail Segv.
Definition FD_ISSET (fd : Z) (A : gset Z) : M state bool := if in_set fd then mret (bool_decide (fd ∈ A)) else fail Segv.

(** ** The code *)
Fixpoint accept_loop (fuel : nat) : M state unit :=
  match fuel with
  | O => fail Fuel
  | S fuel =>
      r ← call sys_accept;
      let new_fd := r.1 in
      if new_fd <? 0 then
        (if negb r.2 then modify set_end else mret ());;
        if new_fd =? -1 then mret () else accept_loop fuel
      else
        FD_SET new_fd;;
        m ← gets max_sd;
        (if new_fd >? m then modify (set_max new_fd) else mret ());;
        accept_loop fuel
  end.

Fixpoint shrink_loop (fuel : nat) : M state unit :=
  match fuel with
  | O => fail Fuel
  | S fuel =>
      m ← gets max_sd;
      A ← gets master_set;
      b ← FD_ISSET m A;
      if (b : bool) then mret () else modify (set_max (m - 1));; shrink_loop fuel
  end.

(** Whether the connection is to be closed: the inner loop is left in its first
    round on every path. *)
Definition connection (i : Z) : M state bool :=
  r ← call (sys_recv i);
  if r.1 <? 0 then mret (negb r.2)
  else if r.1 =? 0 then mret true
  else rc ← call (sys_send i); mret (rc <? 0).

Definition handle (listen_fd i : Z) : M state unit :=
  if i =? listen_fd then accept_loop (S (Z.to_nat FD_SETSIZE))
  else
    close_conn ← connection i;
    if (close_conn : bool) then
      close i;;
      FD_CLR i;;
      m ← gets max_sd;
      if i =? m then shrink_loop (S (Z.to_nat FD_SETSIZE)) else mret ()
    else mret ().

Fixpoint scan_loop (fuel : nat) (listen_fd : Z) (working_set : gset Z) (i desc_ready : Z) : M state unit :=
  match fuel with
  | O => fail Fuel
  | S fuel =>
      m ← gets max_sd;
      if (i <=? m) && (desc_ready >? 0) then
        b ← FD_ISSET i working_set;
        if (b : bool) then handle listen_fd i;; scan_loop fuel listen_fd working_set (i + 1) (desc_ready - 1)
        else scan_loop fuel listen_fd working_set (i + 1) desc_ready
      else mret ()
  end.

(** One round; the result tells whether the loop is left. *)
Definition round (listen_fd : Z) : M state bool :=
  A ← gets master_set;
  r ← call (sys_select A);
  if r.1 <=? 0 then mret true
  else
    scan_loop (S (Z.to_nat FD_SETSIZE)) listen_fd r.2 0 r.1;;
    gets end_server.

Fixpoint serve (n : nat) (listen_fd : Z) : M state bool :=
  match n with
  | O => mret false
  | S n => b ← round listen_fd; if (b : bool) then mret true else serve n listen_fd
  end.

(** [for (i = 0; i < max_sd; i++)], in [n] rounds. *)
Fixpoint close_loop (n : nat) (i : Z) : M state unit :=
  match n with
  | O => mret ()
  | S n =>
      A ← gets master_set;
      b ← FD_ISSET i A;
      (if (b : bool) then close i else mret ());;
      close_loop n (i + 1)
  end.

Definition shutdown : M state unit := m ← gets max_sd; close_loop (Z.to_nat m) 0.

Definition init (listen_fd : Z) (k : K) : state := mk_state {[listen_fd]} listen_fd false k.

(** ** The invariant *)
Context `{!KernelLaws K}.

(** The open descriptors are those the server watches, and [max_sd] is the
    largest of them. *)
Record inv (listen_fd : Z) (s : state) : Prop := {
  i_open : open_fds (kern s) = master_set s;
  i_listen : listen_fd ∈ master_set s;
  i_max : max_sd s ∈ master_set s;
  i_range fd : fd ∈ master_set s → 0 ≤ fd ≤ max_sd s;
  i_size : max_sd s < FD_SETSIZE }.

(** The only way to stop is to enter a descriptor that is too large into a set. *)
Definition too_large (e : fault) : Prop := e = Segv ∧ FD_SETSIZE < nofile.

Definition runs {A} (I : state → Prop) (m : M state A) : Prop := ∀ s, I s → wp too_large m (λ _, I) s.

Lemma runs_bind {A B} I (m : M state A) (f : A → M state B) : runs I m → (∀ a, runs I (f a)) → runs I (m ≫= f).
Proof. intros Hm Hf s Hs. eapply wp_seq; [by apply Hm|]. intros a s' Hs'. by apply Hf. Qed.

Lemma runs_ret {A} I (a : A) : runs I (mret a).
Proof. by intros s Hs. Qed.

Lemma inv_kern l s k : open_fds k = open_fds (kern s) → inv l s → inv l (set_kern k s).
Proof. intros E [O L M R Z]. split; cbn; try done. congruence. Qed.

Lemma in_set_true fd : 0 ≤ fd < FD_SETSIZE → in_set fd = true.
Proof. intros Hf. unfold in_set. by rewrite (proj2 (Z.leb_le _ _)), (proj2 (Z.ltb_lt _ _)) by lia. Qed.

(** *** Accepting *)
Definition all_fds : gset Z := list_to_set (seqZ 0 FD_SETSIZE).

Lemma elem_of_all fd : fd ∈ all_fds ↔ 0 ≤ fd < FD_SETSIZE.
Proof. unfold all_fds. rewrite elem_of_list_to_set, elem_of_seqZ. lia. Qed.

Lemma free_fds A fd : fd ∉ A → 0 ≤ fd < FD_SETSIZE → (size (all_fds ∖ ({[fd]} ∪ A)) < size (all_fds ∖ A))%nat.
Proof.
  intros Hf Hr. apply elem_of_all in Hr. generalize dependent all_fds. intros U Hr.
  apply subset_size. split; [set_solver|]. intros Hs. specialize (Hs fd). set_solver.
Qed.

Lemma free_le A : (size (all_fds ∖ A) ≤ size all_fds)%nat.
Proof. generalize all_fds. intros U. apply subseteq_size. set_solver. Qed.

Lemma size_all : size all_fds = Z.to_nat FD_SETSIZE.
Proof. unfold all_fds. rewrite size_list_to_set by apply NoDup_seqZ. apply length_seqZ. Qed.

Lemma inv_new l s fd k : inv l s → 0 ≤ fd < FD_SETSIZE → open_fds k = {[fd]} ∪ open_fds (kern s) →
  inv l (mk_state ({[fd]} ∪ master_set s) (if fd >? max_sd s then fd else max_sd s) (end_server s) k).
Proof.
  intros [O L M R Z] Hf Hk. destruct (Z.gtb_spec fd (max_sd s)); (split; cbn; [congruence|set_solver|set_solver| |lia]);
    intros g; rewrite elem_of_union, elem_of_singleton; (intros [->|Hg]; [|specialize (R g Hg)]); try lia.
  all: specialize (R (max_sd s) M); lia.
Qed.

Lemma accept_loop_ok l fuel s : inv l s → (size (all_fds ∖ master_set s) < fuel)%nat →
  wp too_large (accept_loop fuel) (λ _, inv l) s.
Proof.
  revert s. induction fuel as [|fuel IH]; intros s I Hf; [lia|]. cbn [accept_loop].
  destruct (sys_accept (kern s)) as [[fd wb] k] eqn:Ea. apply wp_bind.
  eapply wp_ok; [unfold call; rewrite Ea; reflexivity|]. cbn [fst snd].
  destruct (accept_law _ _ _ _ Ea) as [[-> Ek]|(Hr & Hn & Ek)].
  - change (-1 <? 0) with true. cbn match. rewrite Z.eqb_refl. pose proof (inv_kern l s k Ek I) as I'.
    destruct wb; cbn [negb]; apply wp_bind; [by apply wp_ret|apply wp_modify, wp_ret; by destruct I'].
  - rewrite (proj2 (Z.ltb_ge _ _)) by lia. unfold FD_SET. destruct (decide (fd < FD_SETSIZE)) as [Hs|Hs].
    2: { unfold in_set. rewrite (proj2 (Z.ltb_ge fd _)), andb_false_r by lia. apply wp_bind, wp_fail. split; [done|lia]. }
    rewrite in_set_true by lia. apply wp_bind, wp_modify, wp_bind, wp_gets. cbn [max_sd set_master set_kern].
    pose proof (inv_new l s fd k I ltac:(lia) Ek) as I'. rewrite (i_open _ _ I) in Hn. pose proof (free_fds _ fd Hn ltac:(lia)).
    apply wp_bind. destruct (fd >? max_sd s); [apply wp_modify|apply wp_ret]; (apply IH; [exact I'|cbn; lia]).
Qed.

(** *** Closing *)
Lemma shrink_loop_ok l fuel s : open_fds (kern s) = master_set s → l ∈ master_set s →
  (∀ fd, fd ∈ master_set s → 0 ≤ fd ≤ max_sd s) → max_sd s < FD_SETSIZE → (Z.to_nat (max_sd s - l) < fuel)%nat →
  ∃ s', shrink_loop fuel s = Ok ((), s') ∧ inv l s'.
Proof.
  revert s. induction fuel as [|fuel IH]; intros s O L R Z Hf; [lia|]. cbn [shrink_loop]. pose proof (R l L) as Rl.
  do 2 erewrite bind_ok by reflexivity. unfold FD_ISSET. rewrite in_set_true by lia. erewrite bind_ok by reflexivity.
  case_bool_decide as Hm; [by exists s|]. erewrite bind_ok by reflexivity.
  assert (max_sd s ≠ l) by congruence. apply IH; cbn; try done; try lia.
  intros fd Hfd. pose proof (R fd Hfd). assert (fd ≠ max_sd s) by congruence. lia.
Qed.

Lemma connection_ok l i : runs (inv l) (connection i).
Proof.
  intros s I. unfold connection. destruct (sys_recv i (kern s)) as [[rc wb] k] eqn:Er. apply wp_bind.
  eapply wp_ok; [unfold call; rewrite Er; reflexivity|]. cbn [fst snd].
  pose proof (inv_kern l s k (recv_law _ _ _ _ _ Er) I) as I'. destruct (rc <? 0); [by apply wp_ret|]. destruct (rc =? 0); [by apply wp_ret|].
  destruct (sys_send i k) as [rc' k'] eqn:Es. apply wp_bind. eapply wp_ok; [unfold call; cbn [kern set_kern]; rewrite Es; reflexivity|].
  apply wp_ret. apply (inv_kern l _ k'); [|exact I']. exact (send_law _ _ _ _ Es).
Qed.

Lemma handle_ok l i : 0 ≤ i < FD_SETSIZE → runs (inv l) (handle l i).
Proof.
  intros Hi s I. unfold handle. destruct (Z.eqb_spec i l) as [->|Ni].
  - apply accept_loop_ok; [done|]. pose proof size_all. pose proof (free_le (master_set s)). lia.
  - eapply wp_seq; [by apply connection_ok|]. intros [|] s1 I1; [|by apply wp_ret].
    unfold close, FD_CLR. rewrite in_set_true by done. apply wp_bind, wp_modify, wp_bind, wp_modify, wp_bind, wp_gets. cbn [max_sd set_master set_kern].
    destruct I1 as [O L M R Z].
    assert (open_fds (sys_close i (kern s1)) = master_set s1 ∖ {[i]}) as O' by (rewrite close_law; congruence).
    destruct (Z.eqb_spec i (max_sd s1)) as [Em|Em].
    + destruct (shrink_loop_ok l (S (Z.to_nat FD_SETSIZE)) (set_master (λ m, m ∖ {[i]}) (set_kern (sys_close i (kern s1)) s1))) as (s' & E' & I'); cbn; try done; [set_solver| | |by apply (wp_ok _ _ _ _ _ E')].
      * intros fd Hfd. apply R. set_solver.
      * pose proof (R l L). unfold FD_SETSIZE in *. lia.
    + apply wp_ret. split; cbn; try done; [set_solver|set_solver|]. intros fd Hfd. apply R. set_solver.
Qed.

Lemma scan_loop_ok l W fuel i d : 0 ≤ i ≤ FD_SETSIZE → FD_SETSIZE - i < Z.of_nat fuel → runs (inv l) (scan_loop fuel l W i d).
Proof.
  revert i d. induction fuel as [|fuel IH]; intros i d Hi Hf s I.
  { unfold FD_SETSIZE in *. cbn in Hf. lia. }
  cbn [scan_loop]. apply wp_bind, wp_gets.
  destruct ((i <=? max_sd s) && (d >? 0)) eqn:Eg; [|by apply wp_ret].
  apply andb_true_iff in Eg as [Eg%Z.leb_le _]. pose proof (i_size _ _ I) as Hz.
  unfold FD_ISSET. rewrite in_set_true by lia. apply wp_bind, wp_ret.
  case_bool_decide; [|apply IH; [lia|lia|done]].
  eapply wp_seq; [apply (handle_ok l i); [lia|done]|]. intros ? s1 I1. apply IH; [lia|lia|done].
Qed.

Lemma round_ok l : runs (inv l) (round l).
Proof.
  intros s I. unfold round. apply wp_bind, wp_gets.
  destruct (sys_select (master_set s) (kern s)) as [[rc W] k] eqn:Es. apply wp_bind.
  eapply wp_ok; [unfold call; rewrite Es; reflexivity|]. cbn [fst snd].
  pose proof (inv_kern l s k (proj2 (select_law _ _ _ _ _ Es)) I) as I1. destruct (rc <=? 0); [by apply wp_ret|].
  eapply wp_seq; [apply (scan_loop_ok l W (S (Z.to_nat FD_SETSIZE)) 0 rc); [unfold FD_SETSIZE; lia|lia|done]|].
  intros ? s2 I2. by apply wp_gets.
Qed.

Lemma serve_ok l n : runs (inv l) (serve n l).
Proof.
  induction n as [|n IH]; cbn [serve]; [apply runs_ret|]. apply runs_bind; [apply round_ok|].
  intros [|]; [apply runs_ret|apply IH].
Qed.

Lemma init_inv l k : 0 ≤ l < FD_SETSIZE → open_fds k = {[l]} → inv l (init l k).
Proof. intros Hl Ho. split; cbn; [done|set_solver|set_solver|intros fd; rewrite elem_of_singleton; lia|lia]. Qed.

Lemma close_loop_ok n i s : 0 ≤ i → i + Z.of_nat n ≤ FD_SETSIZE →
  ∃ s', close_loop n i s = Ok ((), s') ∧ max_sd s' = max_sd s ∧
    ∀ fd, fd ∈ open_fds (kern s') ↔ fd ∈ open_fds (kern s) ∧ ¬ (fd ∈ master_set s ∧ i ≤ fd < i + Z.of_nat n).
Proof.
  revert i s. induction n as [|n IH]; intros i s Hi Hn.
  - exists s. repeat split; [done|lia|naive_solver].
  - cbn [close_loop]. erewrite bind_ok by reflexivity. unfold FD_ISSET. rewrite in_set_true by lia. erewrite bind_ok by reflexivity.
    case_bool_decide as Hm; unfold close; erewrite bind_ok by reflexivity.
    + destruct (IH (i + 1) (set_kern (sys_close i (kern s)) s)) as (s' & E & Em & Ho); [lia|lia|]. exists s'. split; [done|]. split; [done|].
      intros fd. rewrite Ho. cbn. rewrite close_law, elem_of_difference, elem_of_singleton.
      destruct (decide (fd = i)) as [->|]; [|intuition lia]. split; [tauto|]. intros [_ Hx]. destruct Hx. split; [done|lia].
    + destruct (IH (i + 1) s) as (s' & E & Em & Ho); [lia|lia|]. exists s'. split; [done|]. split; [done|].
      intros fd. rewrite Ho. destruct (decide (fd = i)) as [->|]; [tauto|intuition lia].
Qed.
End server.

Arguments state : clear implicits.

(** ** Properties *)

(** C16: the server runs for any number of rounds, whatever the kernel reports.
    After each of them the descriptors it has open are exactly those it watches,
    the listening socket among them, and [max_sd] is the largest: no connection
    is lost and none is closed twice.  There is one way in which it accesses
    memory outside of its sets: it enters a descriptor of 1024 or more, which is
    possible only if the limit of the process on descriptors is larger. *)
Theorem select_server_safe {K} `{Kernel K} `{!KernelLaws K} n l (k : K) : 0 ≤ l < FD_SETSIZE → open_fds k = {[l]} →
  match serve n l (init l k) with
  | Ok (_, s) => open_fds (kern s) = master_set s ∧ l ∈ master_set s ∧ max_sd s ∈ master_set s ∧ max_sd s < FD_SETSIZE ∧
      ∀ fd, fd ∈ master_set s → 0 ≤ fd ≤ max_sd s
  | Err e => e = Segv ∧ FD_SETSIZE < nofile
  end.
Proof.
  intros Hl Ho. pose proof (serve_ok l n (init l k) (init_inv l k Hl Ho)) as Hs. unfold wp in Hs.
  destruct (serve n l (init l k)) as [[b s]|]; [|done]. by destruct Hs.
Qed.

(** when the server ends it closes all its descriptors but the largest one,
    which stays open. *)
Theorem select_shutdown_leak {K} `{Kernel K} `{!KernelLaws K} n l b s (k : K) : 0 ≤ l < FD_SETSIZE → open_fds k = {[l]} →
  serve n l (init l k) = Ok (b, s) → ∃ s', shutdown s = Ok ((), s') ∧ open_fds (kern s') = {[ max_sd s' ]}.
Proof.
  intros Hl Ho E. pose proof (serve_ok l n (init l k) (init_inv l k Hl Ho)) as Hs. unfold wp in Hs. rewrite E in Hs. destruct Hs as [O L M R Z].
  unfold shutdown. erewrite bind_ok by reflexivity. pose proof (R _ M).
  destruct (close_loop_ok (Z.to_nat (max_sd s)) 0 s) as (s' & E' & Em & Hf); [lia|lia|]. exists s'. split; [done|].
  apply set_eq. intros fd. rewrite Hf, Em, O, elem_of_singleton. split.
  - intros [Hm Hx]. specialize (R fd Hm). destruct (decide (fd = max_sd s)); [done|]. exfalso. apply Hx. split; [done|lia].
  - intros ->. split; [done|]. lia.
Qed.

(** *** A kernel with a list of clients that connect and leave *)
Record demo := mk_demo { d_open : gset Z; d_pending : list Z }.

#[export] Instance demo_kernel : Kernel demo := {
  nofile := 2048;
  open_fds := d_open;
  sys_select A k := match d_pending k with
    | [] => let W := A ∖ {[3]} in (Z.of_nat (size W), W, k)
    | _ => (1, A ∩ {[3]}, k)
    end;
  sys_accept k := match d_pending k with
    | fd :: r => if (0 <=? fd) && (fd <? 2048) && bool_decide (fd ∉ d_open k)
                 then (fd, false, mk_demo ({[fd]} ∪ d_open k) r) else (-1, true, mk_demo (d_open k) r)
    | [] => (-1, true, k)
    end;
  sys_recv _ k := (0, false, k);
  sys_send _ k := (0, k);
  sys_close fd k := mk_demo (d_open k ∖ {[fd]}) (d_pending k) }.

#[export] Instance demo_laws : KernelLaws demo.
Proof.
  split.
  - intros A [o p] rc W k'. cbn. destruct p; intros [= <- <- <-]; set_solver.
  - intros [o [|fd r]] fd' wb k'; cbn; [intros [= <- <- <-]; by left|].
    destruct ((0 <=? fd) && (fd <? 2048) && bool_decide (fd ∉ o)) eqn:E; intros [= <- <- <-]; [|by left]. right.
    apply andb_true_iff in E as [[E1%Z.leb_le E2%Z.ltb_lt]%andb_true_iff E3%bool_decide_eq_true]. done.
  - intros fd k rc wb k'. by intros [= <- <- <-].
  - intros fd k rc k'. by intros [= <- <-].
  - done.
Qed.

(** The limit of this kernel is larger than a set: a run that ends well, and one
    that does not. *)
Lemma select_server_safe_witness :
  (∃ b s, serve 3 3 (init 3 (mk_demo {[3]} [4; 5])) = Ok (b, s) ∧ open_fds (kern s) = master_set s) ∧
  serve 3 3 (init 3 (mk_demo {[3]} [4; 1500])) = Err Segv.
Proof.
  split; [|vm_compute; reflexivity]. pose proof (select_server_safe 3 3 (mk_demo {[3]} [4; 5])) as Hs.
  destruct (serve 3 3 (init 3 (mk_demo {[3]} [4; 5]))) as [[b s]|e] eqn:E; [|vm_compute in E; discriminate E].
  exists b, s. split; [reflexivity|]. apply Hs; [unfold FD_SETSIZE; lia|reflexivity].
Defined.

Lemma select_shutdown_leak_witness :
  ∃ b s s', serve 1 3 (init 3 (mk_demo {[3]} [4; 5])) = Ok (b, s) ∧ shutdown s = Ok ((), s') ∧ open_fds (kern s') = {[ max_sd s' ]}.
Proof.
  pose proof (λ b s, select_shutdown_leak 1 3 b s (mk_demo {[3]} [4; 5])) as Hs.
  destruct (serve 1 3 (init 3 (mk_demo {[3]} [4; 5]))) as [[b s]|e] eqn:E; [|vm_compute in E; discriminate E].
  destruct (Hs b s) as (s' & E' & Ho); [unfold FD_SETSIZE; lia|reflexivity|reflexivity|]. exists b, s, s'. repeat split; assumption.
Defined.
