(* ===== verification/HttpClient.v ===== *)
(** * Two HTTP clients (specific/upgrade.c, socket/network_check.c)

    [send_request] of upgrade.c sends a request and reads the reply piece by
    piece until its end; that of network_check.c reads once and looks for a
    status.  The calls to the system are a parameter; [PeerLaws] is what POSIX
    says of read.  The JSON text that upgrade.c sends comes from the cJSON
    library and is an argument. *)
From Stdlib Require Import String.
From S2P Require Import Prelude CArr CBuf CInt Hosts.

(** ** The system *)
Class Peer (K : Type) := {
  sys_socket : K → Z * K;
  sys_connect : Z → K → Z * K;
  sys_send : Z → arr → K → K;
  sys_select : Z → K → Z * K;
  sys_read : Z → Z → K → Z * arr * K;
  sys_close : Z → K → K }.

Class PeerLaws (K : Type) `{Peer K} : Prop := {
  read_law fd n k r bytes k' : sys_read fd n k = (r, bytes, k') → (r < 0 ∧ bytes = []) ∨ (r = Z.of_nat (length bytes) ∧ (0 ≤ n → r ≤ n)) }.

Definition MAX_BUF : Z := 4096.

(** A descriptor that [FD_SET] stores within an [fd_set]. *)
Definition fd_settable (fd : Z) : bool := (0 <=? fd) && (fd <? 1024).

(** [bytes] written to a buffer at [off]. *)
Definition write_at (off : Z) (bytes b : arr) : res arr :=
  if (0 <=? off) && (off + Z.of_nat (length bytes) <=? Z.of_nat (length b))
  then Ok (take (Z.to_nat off) b ++ bytes ++ drop (Z.to_nat off + length bytes) b) else Err Segv.

(** ** upgrade.c *)
Section upgrade.
Context {K : Type} `{Peer K}.

(** Ends with a negative result or with the number of bytes. *)
Fixpoint read_loop (fuel : nat) (sockfd totalbytes : Z) (response : arr) (k : K) : res (Z * arr * K) :=
  match fuel with
  | O => Err Fuel
  | S fuel =>
      if negb (fd_settable sockfd) then Err Segv else
      let '(nfds, k) := sys_select sockfd k in
      if nfds >? 0 then
        let '(numbytes, bytes, k) := sys_read sockfd (MAX_BUF - (totalbytes + 1)) k in
        if numbytes <? 0 then Ok (-1, response, sys_close sockfd k)
        else if numbytes =? 0 then Ok (totalbytes, response, sys_close sockfd k)
        else
          match write_at totalbytes bytes response with
          | Err e => Err e
          | Ok response => read_loop fuel sockfd (totalbytes + numbytes) response k
          end
      else if nfds =? 0 then Ok (-2, response, sys_close sockfd k)
      else Ok (-3, response, sys_close sockfd k)
  end.

(** Request and reply may be in the same buffer. *)
Definition send_request (request response : arr) (k : K) : res (Z * arr * K) :=
  let '(sockfd, k) := sys_socket k in
  if sockfd =? -1 then Ok (-1, response, k)
  else
    let '(c, k) := sys_connect sockfd k in
    if c =? -1 then Ok (-5, response, k)
    else
      match cstr request with
      | None => Err Overread
      | Some r =>
          match read_loop (S (Z.to_nat MAX_BUF)) sockfd 0 response (sys_send sockfd r k) with
          | Err e => Err e
          | Ok (total, response, k) =>
              if total <? 0 then Ok (total, response, k)
              else
                let total := if total >=? MAX_BUF then MAX_BUF else total in
                match write_at total [0] response with
                | Err e => Err e
                | Ok response => match cstr response with Some _ => Ok (total, response, k) | None => Err Overread end
                end
          end
      end.

Definition CRLF : arr := [13; 10].

(** [json] is what cJSON_Print returns. *)
Definition post (json : arr) : arr :=
  chars "POST /dqdata/upgrade HTTP/1.1" ++ CRLF ++ chars "Host: 127.0.0.1" ++ CRLF ++
  chars "ContentLength: " ++ dec (Z.of_nat (length json)) ++ CRLF ++ chars "ContentType: text/json" ++ CRLF ++ CRLF ++ json.

(** Up to the write behind the buffer. *)
Definition upgrade (json : arr) (k : K) : res (arr * K) :=
  let text := take (Z.to_nat (MAX_BUF - 2)) (post json) in
  match write_at 0 text (replicate (Z.to_nat MAX_BUF) 0) with
  | Err e => Err e
  | Ok request =>
      match send_request request request k with
      | Err e => Err e
      | Ok (_, request, k) =>
          match cstr request with
          | None => Err Overread
          | Some _ => match write_at MAX_BUF [0] request with Ok b => Ok (b, k) | Err e => Err e end
          end
      end
  end.

(** The bytes of the reply, without a buffer: at most [MAX_BUF - 1]. *)
Fixpoint reply (fuel : nat) (sockfd : Z) (data : arr) (k : K) : option (Z * arr * K) :=
  match fuel with
  | O => None
  | S fuel =>
      let '(nfds, k) := sys_select sockfd k in
      if nfds >? 0 then
        let '(numbytes, bytes, k) := sys_read sockfd (MAX_BUF - 1 - Z.of_nat (length data)) k in
        if numbytes <? 0 then Some (-1, data, sys_close sockfd k)
        else if numbytes =? 0 then Some (Z.of_nat (length data), data, sys_close sockfd k)
        else reply fuel sockfd (data ++ bytes) k
      else Some ((if nfds =? 0 then -2 else -3), data, sys_close sockfd k)
  end.

Context `{!PeerLaws K}.

Lemma write_at_app out rest bytes : (length bytes ≤ length rest)%nat →
  write_at (Z.of_nat (length out)) bytes (out ++ rest) = Ok ((out ++ bytes) ++ drop (length bytes) rest).
Proof.
  intros Hl. unfold write_at. rewrite (proj2 (Z.leb_le _ _)), (proj2 (Z.leb_le _ _)) by (rewrite ?length_app; lia). cbn [andb].
  rewrite Nat2Z.id, take_app_length, drop_app_ge by lia. rewrite <- app_assoc. do 4 f_equal. lia.
Qed.

Lemma read_loop_unset fuel fd n b k : fd_settable fd = false → read_loop (S fuel) fd n b k = Err Segv.
Proof. intros Hs. cbn [read_loop]. by rewrite Hs. Qed.

Lemma read_reply_ok fuel fd data rest k : fd_settable fd = true → Z.of_nat (length data + length rest) = MAX_BUF → (1 ≤ length rest)%nat →
  MAX_BUF - Z.of_nat (length data) < Z.of_nat fuel →
  ∃ r data' k', reply fuel fd data k = Some (r, data', k') ∧ (length data ≤ length data')%nat ∧ Z.of_nat (length data') < MAX_BUF ∧
    (0 ≤ r → r = Z.of_nat (length data')) ∧
    read_loop fuel fd (Z.of_nat (length data)) (data ++ rest) k = Ok (r, data' ++ drop (length data' - length data) rest, k').
Proof.
  intros Hs. revert data rest k. induction fuel as [|fuel IH]; intros data rest k Hl Hr Hf; [unfold MAX_BUF in *; lia|]. cbn [read_loop reply].
  rewrite Hs. cbn [negb].
  assert (Z.of_nat (length data) < MAX_BUF) as Hd by lia.
  destruct (sys_select fd k) as [nfds k1]. destruct (nfds >? 0).
  - replace (MAX_BUF - (Z.of_nat (length data) + 1)) with (MAX_BUF - 1 - Z.of_nat (length data)) by lia.
    destruct (sys_read fd (MAX_BUF - 1 - Z.of_nat (length data)) k1) as [[n bytes] k2] eqn:Er.
    apply read_law in Er as Hn. destruct (Z.ltb_spec n 0).
    { eexists _, _, _. split; [done|]. rewrite Nat.sub_diag, drop_0. split; [lia|split; [done|split; [lia|done]]]. }
    destruct (Z.eqb_spec n 0) as [->|Nn].
    { eexists _, _, _. split; [done|]. rewrite Nat.sub_diag, drop_0. split; [lia|split; [done|split; [done|done]]]. }
    destruct Hn as [[? _]|[-> Hn]]; [lia|]. rewrite write_at_app by lia. rewrite <- Nat2Z.inj_add.
    destruct (IH (data ++ bytes) (drop (length bytes) rest) k2) as (r & d & k' & E1 & E2 & E3 & E4 & E5); [rewrite ?length_app, ?length_drop; lia..|].
    rewrite length_app, drop_drop in E5. rewrite length_app in E2.
    exists r, d, k'. split; [done|]. split; [lia|]. split; [done|]. split; [done|]. rewrite E5.
    by replace (length bytes + (length d - (length data + length bytes)))%nat with (length d - length data)%nat by lia.
  - destruct (nfds =? 0); (eexists _, _, _; split; [done|]; rewrite Nat.sub_diag, drop_0; split; [lia|split; [done|split; [lia|done]]]).
Qed.

Lemma has_zero b : 0 ∈ b → is_Some (cstr b).
Proof.
  intros Hz. destruct (cstr b) eqn:E; [eauto|]. apply cstr_None in E. unfold no_nul in E. rewrite Forall_forall in E. by destruct (E 0).
Qed.

(** What [send_request] does once connected, with the request [r] sent. *)
Lemma exchange_ok request response r fd c k k1 k2 : length response = Z.to_nat MAX_BUF →
  sys_socket k = (fd, k1) → fd ≠ -1 → sys_connect fd k1 = (c, k2) → c ≠ -1 → cstr request = Some r → fd_settable fd = true →
  ∃ n data k', reply (S (Z.to_nat MAX_BUF)) fd [] (sys_send fd r k2) = Some (n, data, k') ∧
    Z.of_nat (length data) < MAX_BUF ∧ (0 ≤ n → n = Z.of_nat (length data)) ∧
    send_request request response k =
      Ok (n, data ++ (if n <? 0 then drop (length data) response else 0 :: drop (S (length data)) response), k').
Proof.
  intros Hl Es Ns Ec Nc Hr Hs. unfold send_request. rewrite Es, (proj2 (Z.eqb_neq _ _) Ns), Ec, (proj2 (Z.eqb_neq _ _) Nc), Hr.
  destruct (read_reply_ok (S (Z.to_nat MAX_BUF)) fd [] response (sys_send fd r k2) Hs) as (n & d & k' & E1 & _ & E3 & E4 & E5);
    [unfold MAX_BUF in *; cbn [length]; lia..|].
  cbn [length app] in E5. change (Z.of_nat 0) with 0 in E5. rewrite E5, Nat.sub_0_r.
  exists n, d, k'. split; [done|]. split; [done|]. split; [done|]. destruct (Z.ltb_spec n 0) as [Hn|Hn]; [done|].
  rewrite (E4 Hn) in *. destruct (Z.geb_spec (Z.of_nat (length d)) MAX_BUF); [lia|].
  rewrite write_at_app by (cbn [length]; rewrite length_drop; unfold MAX_BUF in *; lia). rewrite <- app_assoc, drop_drop, Nat.add_1_r. cbn [app length].
  destruct (has_zero (d ++ 0 :: drop (S (length d)) response)) as [t ->]; [apply elem_of_app; right; constructor|]. done.
Qed.

(** The length of the response and a NUL at its end are kept. *)
Lemma send_request_buffer request x k : is_Some (cstr request) → length (x ++ [0]) = Z.to_nat MAX_BUF →
  match send_request request (x ++ [0]) k with
  | Ok (_, b, _) => length b = Z.to_nat MAX_BUF ∧ 0 ∈ b
  | Err e => e = Segv
  end.
Proof.
  intros [r Hr] Hl. assert (0 ∈ x ++ [0]) as H0 by (apply elem_of_app; right; constructor).
  destruct (sys_socket k) as [fd k1] eqn:Es. destruct (Z.eqb_spec fd (-1)) as [->|Ns]; [by unfold send_request; rewrite Es|].
  destruct (sys_connect fd k1) as [c k2] eqn:Ec. destruct (Z.eqb_spec c (-1)) as [->|Nc].
  { unfold send_request. rewrite Es, (proj2 (Z.eqb_neq _ _) Ns), Ec. done. }
  destruct (fd_settable fd) eqn:Hs.
  - destruct (exchange_ok request (x ++ [0]) r fd c k k1 k2) as (n & d & k' & _ & Hd & _ & ->); [done..|].
    assert (drop (length d) (x ++ [0]) = drop (length d) x ++ [0]) as Ed.
    { apply drop_app_le. rewrite length_app in Hl. cbn [length] in Hl. unfold MAX_BUF in *. lia. }
    destruct (n <? 0); (split; [rewrite length_app; cbn [length]; rewrite length_drop; unfold MAX_BUF in *; lia|]); rewrite elem_of_app; right.
    + rewrite Ed, elem_of_app. right. constructor.
    + constructor.
  - unfold send_request. rewrite Es, (proj2 (Z.eqb_neq _ _) Ns), Ec, (proj2 (Z.eqb_neq _ _) Nc), Hr. by rewrite read_loop_unset.
Qed.
End upgrade.

(** ** network_check.c *)
Definition HEADER_SIZE : Z := 512.
Definition RESPONSE_SIZE : Z := 4096.

Definition form_http_header (ua host url : arr) : res arr :=
  let header := chars "GET " ++ url ++ chars " HTTP/1.1" ++ CRLF ++ chars "User-Agent: " ++ ua ++ CRLF ++
    chars "Host: " ++ host ++ CRLF ++ chars "Pragma: no-cache" ++ CRLF ++ CRLF in
  if fits HEADER_SIZE header then Ok header else Err Segv.

Definition has (r p : arr) : bool := match strstr r p with Some _ => true | None => false end.

Section check.
Context {K : Type} `{Peer K}.

(** The address the name resolves to is used by [sys_connect] only. *)
Definition check_request (domain url : arr) (k : K) : res (Z * K) :=
  let '(sock, k) := sys_socket k in
  if sock =? -1 then Ok (-1, k)
  else
    let '(c, k) := sys_connect sock k in
    if negb (c =? 0) then Ok (1, sys_close sock k)
    else
      match form_http_header (chars "MagicWiFi") domain url with
      | Err e => Err e
      | Ok request =>
          let k := sys_send sock request k in
          let '(_, bytes, k) := sys_read sock RESPONSE_SIZE k in
          match write_at 0 bytes (replicate (Z.to_nat RESPONSE_SIZE) 0) with
          | Err e => Err e
          | Ok response =>
              let k := sys_close sock k in
              match cstr response with
              | None => Err Overread
              | Some r =>
                  Ok ((if has r (chars "200 OK") || has r (chars "302 Found") || has r (chars "302 FOUND") then 0 else -1), k)
              end
          end
      end.

Definition time_consume (s_sec s_nsec e_sec e_nsec : Z) : Z := s32 ((e_sec - s_sec) * 1000 + Z.quot (e_nsec - s_nsec) 1000000).
End check.

(** ** Properties *)

(** C22: what [send_request] of upgrade.c does, whatever the server does and
    whatever is in the buffer for the response.  Without a socket or a connection
    it returns -1 or -5.  The request is sent up to its NUL, which is searched
    behind the buffer if there is none.  A descriptor that does not fit in an
    [fd_set] is written behind it by [FD_SET].  Otherwise, after at most 4097
    calls of select, the buffer begins with the bytes that were read from this
    socket after the request was sent, at most 4095; nothing else in it changes,
    but for the NUL behind them if the reply has ended.  The result is then their
    number, and negative after an error or a timeout. *)
Theorem send_request_correct {K} `{Peer K} `{!PeerLaws K} request response (k : K) :
  length response = Z.to_nat MAX_BUF →
  let '(fd, k1) := sys_socket k in
  if fd =? -1 then send_request request response k = Ok (-1, response, k1)
  else
    let '(c, k2) := sys_connect fd k1 in
    if c =? -1 then send_request request response k = Ok (-5, response, k2)
    else
      match cstr request with
      | None => send_request request response k = Err Overread
      | Some r =>
          if fd_settable fd then
            ∃ n data k', reply (S (Z.to_nat MAX_BUF)) fd [] (sys_send fd r k2) = Some (n, data, k') ∧
              Z.of_nat (length data) < MAX_BUF ∧ (0 ≤ n → n = Z.of_nat (length data)) ∧
              send_request request response k =
                Ok (n, data ++ (if n <? 0 then drop (length data) response else 0 :: drop (S (length data)) response), k')
          else send_request request response k = Err Segv
      end.
Proof.
  intros Hl. destruct (sys_socket k) as [fd k1] eqn:Es. destruct (Z.eqb_spec fd (-1)) as [->|Ns]; [by unfold send_request; rewrite Es|].
  destruct (sys_connect fd k1) as [c k2] eqn:Ec. destruct (Z.eqb_spec c (-1)) as [->|Nc].
  { unfold send_request. by rewrite Es, (proj2 (Z.eqb_neq _ _) Ns), Ec. }
  destruct (cstr request) as [r|] eqn:Er.
  - destruct (fd_settable fd) eqn:Hs; [by apply (exchange_ok request response r fd c k k1 k2)|].
    unfold send_request. rewrite Es, (proj2 (Z.eqb_neq _ _) Ns), Ec, (proj2 (Z.eqb_neq _ _) Nc), Er. by rewrite read_loop_unset.
  - unfold send_request. by rewrite Es, (proj2 (Z.eqb_neq _ _) Ns), Ec, (proj2 (Z.eqb_neq _ _) Nc), Er.
Qed.

(** [upgrade] always writes one byte behind its buffer. *)
Theorem upgrade_overflows {K} `{Peer K} `{!PeerLaws K} json (k : K) : upgrade json k = Err Segv.
Proof.
  unfold upgrade. set (text := take _ (post json)).
  assert (length text ≤ 4094)%nat as Ht by (unfold text; rewrite length_take; unfold MAX_BUF; lia).
  pose proof (write_at_app [] (replicate (Z.to_nat MAX_BUF) 0) text) as Ew. cbn [length app] in Ew. change (Z.of_nat 0) with 0 in Ew.
  rewrite Ew by (rewrite length_replicate; unfold MAX_BUF; lia). rewrite drop_replicate.
  set (m := (Z.to_nat MAX_BUF - length text)%nat). assert (∃ m', m = S m' ∧ (length text + m' = 4095)%nat) as (m' & -> & Hm).
  { exists (4095 - length text)%nat. unfold m, MAX_BUF. lia. }
  rewrite replicate_S_end, app_assoc.
  pose proof (send_request_buffer ((text ++ replicate m' 0) ++ [0]) (text ++ replicate m' 0) k) as Hb.
  destruct (send_request _ _ k) as [[[n b] k']|e].
  - destruct Hb as [Hl H0]; [apply has_zero, elem_of_app; right; constructor|rewrite !length_app, length_replicate; cbn [length]; unfold MAX_BUF; lia|].
    destruct (has_zero b H0) as [t ->]. unfold write_at. rewrite Hl. done.
  - rewrite Hb; [done|apply has_zero, elem_of_app; right; constructor|rewrite !length_app, length_replicate; cbn [length]; unfold MAX_BUF; lia].
Qed.

(** The reply has one of the accepted states. *)
Definition accepted (r : arr) : Prop :=
  ∃ p a b, p ∈ [chars "200 OK"; chars "302 Found"; chars "302 FOUND"] ∧ r = a ++ p ++ b.

Lemma strstr_found r p : has r p = true ↔ ∃ a b, r = a ++ p ++ b.
Proof.
  unfold has. destruct (strstr r p) as [n|] eqn:E.
  - apply strstr_Some in E as ([b Hb] & _). split; [|done]. intros _. exists (take n r), b. by rewrite <- Hb, take_drop.
  - split; [done|]. intros (a & b & ->). rewrite strstr_None in E. destruct (E (length a)). exists b. by rewrite drop_app_length.
Qed.

Lemma any_of r p1 p2 p3 : has r p1 || has r p2 || has r p3 = true ↔ ∃ p a b, p ∈ [p1; p2; p3] ∧ r = a ++ p ++ b.
Proof.
  rewrite !orb_true_iff, !strstr_found. split.
  - intros [[(a & b & E)|(a & b & E)]|(a & b & E)]; eexists _, a, b; (split; [|exact E]); [by left|by right; left|by right; right; left].
  - intros (p & a & b & Hp & E). rewrite !elem_of_cons, elem_of_nil in Hp. destruct Hp as [->|[->|[->|[]]]]; eauto.
Qed.

(** [send_request] of network_check.c, once connected, sends the request and
    returns 0 if the part of the reply it has read before a NUL contains one of
    the states it accepts, and -1 if not; it closes its socket.  If the reply
    fills the whole buffer and has no NUL, the search reads behind it. *)
Theorem check_request_correct {K} `{Peer K} `{!PeerLaws K} domain url (k k1 k2 k3 : K) sock n bytes header :
  sys_socket k = (sock, k1) → sock ≠ -1 → sys_connect sock k1 = (0, k2) →
  form_http_header (chars "MagicWiFi") domain url = Ok header →
  sys_read sock RESPONSE_SIZE (sys_send sock header k2) = (n, bytes, k3) →
  match cstr (bytes ++ replicate (Z.to_nat RESPONSE_SIZE - length bytes) 0) with
  | None => check_request domain url k = Err Overread
  | Some r => ∃ v, check_request domain url k = Ok (v, sys_close sock k3) ∧ (v = 0 ∨ v = -1) ∧ (v = 0 ↔ accepted r)
  end.
Proof.
  intros Es Ns Ec Eh Er. unfold check_request. rewrite Es, (proj2 (Z.eqb_neq _ _) Ns), Ec, Z.eqb_refl, Eh, Er. cbn [negb].
  apply read_law in Er as Hn. pose proof (write_at_app [] (replicate (Z.to_nat RESPONSE_SIZE) 0) bytes) as Ew.
  cbn [length app] in Ew. change (Z.of_nat 0) with 0 in Ew. rewrite Ew.
  2:{ rewrite length_replicate. unfold RESPONSE_SIZE in *. destruct Hn as [[_ ->]|[-> Hn]]; [cbn; lia|]. specialize (Hn ltac:(lia)). lia. }
  rewrite drop_replicate. destruct (cstr _) as [r|]; [|done]. eexists. split; [done|].
  pose proof (any_of r (chars "200 OK") (chars "302 Found") (chars "302 FOUND")) as Ha. unfold accepted.
  rewrite <- Ha. destruct (_ || _); [by split; [left|]|by split; [right|]].
Qed.

(** *** A server that sends some pieces and closes the connection *)
#[export] Instance pieces_peer : Peer (list arr) := {
  sys_socket k := (3, k);
  sys_connect _ k := (0, k);
  sys_send _ _ k := k;
  sys_select _ k := (1, k);
  sys_read _ n k := match k with
    | [] => (0, [], [])
    | c :: k => (Z.of_nat (length (take (Z.to_nat n) c)), take (Z.to_nat n) c, k)
    end;
  sys_close _ k := k }.

#[export] Instance pieces_laws : PeerLaws (list arr).
Proof.
  split. intros fd n [|c k] r bytes k'; intros [= <- <- <-]; right; (split; [done|]); intros Hn; [done|]. rewrite length_take. lia.
Qed.

Definition demo_reply : list arr := [chars "HTTP/1.1 2"; chars "00 OK"].

Lemma send_request_correct_witness :
  send_request [71; 0] (replicate 4096 7) demo_reply = Ok (15, chars "HTTP/1.1 200 OK" ++ 0 :: replicate 4080 7, []).
Proof.
  destruct (send_request_correct [71; 0] (replicate 4096 7) demo_reply eq_refl) as (n & data & k' & Er & _ & _ & E).
  rewrite E. vm_compute in Er. injection Er as <- <- <-. vm_compute. reflexivity.
Defined.

Lemma upgrade_overflows_witness : upgrade (chars "{}") demo_reply = Err Segv.
Proof. apply (upgrade_overflows (chars "{}") demo_reply). Defined.

Lemma check_request_correct_witness : ∃ v, check_request (chars "a") (chars "/") [chars "HTTP/1.1 200 OK"] = Ok (v, []) ∧ v = 0.
Proof.
  pose proof (check_request_correct (chars "a") (chars "/") [chars "HTTP/1.1 200 OK"] _ _ [] 3 15 (chars "HTTP/1.1 200 OK") _
    eq_refl ltac:(discriminate) eq_refl eq_refl eq_refl) as H.
  replace (cstr _) with (Some (chars "HTTP/1.1 200 OK")) in H by (vm_compute; reflexivity).
  destruct H as (v & E & _ & Hv). exists v. split; [exact E|]. apply Hv. exists (chars "200 OK"), (chars "HTTP/1.1 "), [].
  split; [left; reflexivity|reflexivity].
Defined.
