(* ===== verification/EpollServer.v ===== *)
(** * A server with edge-triggered epoll (socket/epoll_test2.c)

    The server accepts connections and writes what it receives to its standard
    output.  It is told once that something has arrived on a descriptor, so
    that it has to take all there is before it waits again.  The kernel is a
    parameter; [KernelLaws] is what is documented of its calls.  Each call has
    its own effect, and then the peers may have sent more.  What they send
    altogether is finite, [traffic], which bounds the rounds of the loops. *)
From stdpp Require Import gmap.
From S2P Require Import Prelude CInt Hoare.

(** ** The kernel *)

(** What arrives: bytes and the end of the input on a connection, connections
    on the listening socket. *)
Inductive item := Byte (b : Z) | Fin | Conn.

Record sock := mk_sock { fl : Z; received : list item; unread : list item }.
Record view := mk_view { socks : gmap Z sock; watched : gset Z; ready : gset Z }.

Definition O_NONBLOCK : Z := 2048.
Definition EPOLLIN : Z := 1.
Definition EPOLLERR : Z := 8.
Definition EPOLLRDHUP : Z := 8192.
Definition MAXEVENTS : Z := 64.
Definition BUF_SIZE : Z := 512.

Definition has (flags bits : Z) : bool := negb (Z.land flags bits =? 0).

(** What happens outside: something more arrives, and each descriptor that is
    watched and on which it does becomes ready. *)
Record later (v v' : view) : Prop := {
  l_watched : watched v' = watched v;
  l_ready : ready v ⊆ ready v';
  l_none fd : socks v !! fd = None → socks v' !! fd = None;
  l_some fd sk : socks v !! fd = Some sk → ∃ d,
    socks v' !! fd = Some (mk_sock (fl sk) (received sk ++ d) (unread sk ++ d)) ∧
    (d ≠ [] → fd ∈ watched v → fd ∈ ready v') }.

(** The effects of the calls. *)
Definition set_sock (fd : Z) (sk : sock) (v : view) : view := mk_view (<[fd := sk]> (socks v)) (watched v) (ready v).
Definition take_items (fd : Z) (u : list item) (sk : sock) (v : view) : view := set_sock fd (mk_sock (fl sk) (received sk) u) v.
Definition watch (fd : Z) (sk : sock) (v : view) : view :=
  mk_view (socks v) ({[fd]} ∪ watched v) (if unread sk then ready v else {[fd]} ∪ ready v).
Definition forget (fd : Z) (v : view) : view := mk_view (delete fd (socks v)) (watched v ∖ {[fd]}) (ready v ∖ {[fd]}).
Definition report (fds : list Z) (v : view) : view := mk_view (socks v) (watched v) (ready v ∖ list_to_set fds).

Class Kernel (K : Type) := {
  see : K → view;
  traffic : K → nat;
  sys_socket : Z → K → Z * K;
  sys_bind : Z → Z → K → Z * K;
  sys_listen : Z → K → Z * K;
  sys_epoll_create : K → Z * K;
  sys_epoll_add : Z → K → Z * K;
  sys_epoll_wait : K → Z * list (Z * Z) * K;
  sys_accept : Z → K → Z * bool * K;
  sys_getnameinfo : Z → K → Z * K;
  sys_getfl : Z → K → Z * K;
  sys_setfl : Z → Z → K → Z * K;
  sys_read : Z → K → Z * bool * list Z * K;
  sys_write : list Z → K → Z * K;
  sys_close : Z → K → Z * K }.

(** The kernel goes from [k] to [k'] by a call with the effect [v], and what
    happens outside; [n] items are taken. *)
Definition goes {K} `{Kernel K} (k : K) (v : view) (n : nat) (k' : K) : Prop :=
  later v (see k') ∧ (traffic k' + n ≤ traffic k)%nat.

Class KernelLaws (K : Type) `{Kernel K} : Prop := {
  socket_law a k fd k' : sys_socket a k = (fd, k') →
    (fd = -1 ∧ goes k (see k) 0 k') ∨
    (fd ≠ -1 ∧ socks (see k) !! fd = None ∧ ∃ f, goes k (set_sock fd (mk_sock f [] []) (see k)) 0 k');
  bind_law fd a k : goes k (see k) 0 (sys_bind fd a k).2;
  listen_law fd k : goes k (see k) 0 (sys_listen fd k).2;
  create_law k : goes k (see k) 0 (sys_epoll_create k).2;
  name_law fd k : goes k (see k) 0 (sys_getnameinfo fd k).2;
  write_law d k : goes k (see k) 0 (sys_write d k).2;
  close_law fd k : goes k (forget fd (see k)) 0 (sys_close fd k).2;
  getfl_law fd sk k f k' : socks (see k) !! fd = Some sk → sys_getfl fd k = (f, k') → (f = -1 ∨ f = fl sk) ∧ goes k (see k) 0 k';
  setfl_law fd sk f k r k' : socks (see k) !! fd = Some sk → sys_setfl fd f k = (r, k') →
    (r = -1 ∧ goes k (see k) 0 k') ∨ (r ≠ -1 ∧ ∃ f', has f' O_NONBLOCK = has f O_NONBLOCK ∧ goes k (set_sock fd (mk_sock f' (received sk) (unread sk)) (see k)) 0 k');
  add_law fd sk k r k' : socks (see k) !! fd = Some sk → sys_epoll_add fd k = (r, k') →
    (r = -1 ∧ goes k (see k) 0 k') ∨ (r ≠ -1 ∧ goes k (watch fd sk (see k)) 0 k');
  wait_law k n evs k' : sys_epoll_wait k = (n, evs, k') →
    (n = -1 ∧ goes k (see k) 0 k') ∨
    (n = Z.of_nat (length evs) ∧ n ≤ MAXEVENTS ∧ NoDup evs.*1 ∧ list_to_set evs.*1 ⊆ watched (see k) ∧
     goes k (report evs.*1 (see k)) 0 k');
  accept_law l sk k fd again k' : socks (see k) !! l = Some sk → sys_accept l k = (fd, again, k') →
    (fd = -1 ∧ (again = true → unread sk = []) ∧ goes k (see k) 0 k') ∨
    (fd ≠ -1 ∧ socks (see k) !! fd = None ∧ ∃ f u, unread sk = Conn :: u ∧
     goes k (set_sock fd (mk_sock f [] []) (take_items l u sk (see k))) 1 k');
  read_law fd sk k n again d k' : socks (see k) !! fd = Some sk → sys_read fd k = (n, again, d, k') →
    (n = -1 ∧ (again = true → unread sk = []) ∧ goes k (see k) 0 k') ∨
    (n = 0 ∧ (∃ u, unread sk = Fin :: u) ∧ goes k (see k) 0 k') ∨
    (0 < n ≤ BUF_SIZE ∧ n = Z.of_nat (length d) ∧ ∃ u, unread sk = (Byte <$> d) ++ u ∧
     goes k (take_items fd u sk (see k)) (length d) k') }.

(** ** The code *)

(** What the server prints, on its standard output and as error messages.
    [Data fd d n]: it has handed [d] to write, which has written [n] bytes. *)
Inductive output := Accepted (fd : Z) | Data (fd : Z) (d : list Z) (n : Z) | Closed (fd : Z) | EpollError (fd : Z) | AcceptError | ReadError (fd : Z).

Section server.
Context {K : Type} `{Kernel K}.

Record state := mk_state { kern : K; out : list output }.

Definition call {A} (f : K → A * K) : M state A := λ s, let r := f (kern s) in Ok (r.1, mk_state r.2 (out s)).
Definition print (o : output) : M state unit := modify (λ s, mk_state (kern s) (out s ++ [o])).

Fixpoint bind_loop (rp : list Z) : M state (option Z) :=
  match rp with
  | [] => mret None
  | a :: rp =>
      sfd ← call (sys_socket a);
      if sfd =? -1 then bind_loop rp
      else
        s ← call (sys_bind sfd a);
        if s =? 0 then mret (Some sfd) else call (sys_close sfd);; bind_loop rp
  end.

(** [result]: the answer of getaddrinfo, [None] on an error. *)
Definition create_and_bind (result : option (list Z)) : M state Z :=
  match result with
  | None => mret (-1)
  | Some rp => r ← bind_loop rp; mret (default (-1) r)
  end.

Definition make_socket_non_blocking (sfd : Z) : M state Z :=
  flags ← call (sys_getfl sfd);
  if flags =? -1 then mret (-1)
  else
    s ← call (sys_setfl sfd (Z.lor flags O_NONBLOCK));
    mret (if s =? -1 then -1 else 0).

Fixpoint accept_loop (fuel : nat) (sfd : Z) : M state unit :=
  match fuel with
  | O => fail Fuel
  | S fuel =>
      r ← call (sys_accept sfd);
      let infd := r.1 in
      if infd =? -1 then (if (r.2 : bool) then mret () else print AcceptError)
      else
        s ← call (sys_getnameinfo infd);
        (if s =? 0 then print (Accepted infd) else mret ());;
        s ← make_socket_non_blocking infd;
        if s =? -1 then fail Abort
        else
          s ← call (sys_epoll_add infd);
          if s =? -1 then fail Abort else accept_loop fuel sfd
  end.

(** Whether the connection is done. *)
Fixpoint read_loop (fuel : nat) (fd : Z) : M state bool :=
  match fuel with
  | O => fail Fuel
  | S fuel =>
      r ← call (sys_read fd);
      let '(count, again, buf) := r in
      if count =? -1 then (if (again : bool) then mret false else print (ReadError fd);; mret true)
      else if count =? 0 then mret true
      else
        s ← call (sys_write buf);
        if s =? -1 then fail Abort else print (Data fd buf s);; read_loop fuel fd
  end.

Definition handle (fuel : nat) (sfd : Z) (ev : Z * Z) : M state unit :=
  let '(fd, events) := ev in
  if has events EPOLLERR || has events EPOLLRDHUP || negb (has events EPOLLIN) then
    print (EpollError fd);; call (sys_close fd);; mret ()
  else if sfd =? fd then accept_loop fuel sfd
  else
    done ← read_loop fuel fd;
    if (done : bool) then print (Closed fd);; call (sys_close fd);; mret () else mret ().

Fixpoint event_loop (fuel : nat) (sfd : Z) (evs : list (Z * Z)) : M state unit :=
  match evs with
  | [] => mret ()
  | ev :: evs => handle fuel sfd ev;; event_loop fuel sfd evs
  end.

(** [rounds] returns of epoll_wait. *)
Fixpoint serve (fuel rounds : nat) (sfd : Z) : M state unit :=
  match rounds with
  | O => mret ()
  | S rounds =>
      r ← call sys_epoll_wait;
      event_loop fuel sfd (take (Z.to_nat r.1) r.2);;
      serve fuel rounds sfd
  end.

(** The result is the listening socket of the server, when it gets that far. *)
Definition main (fuel rounds : nat) (argc : Z) (result : option (list Z)) : M state (option Z) :=
  if negb (argc =? 2) then mret None
  else
    sfd ← create_and_bind result;
    if sfd =? -1 then fail Abort
    else
      s ← make_socket_non_blocking sfd;
      if s =? -1 then fail Abort
      else
        s ← call (sys_listen sfd);
        if s =? -1 then fail Abort
        else
          efd ← call sys_epoll_create;
          if efd =? -1 then fail Abort
          else
            s ← call (sys_epoll_add sfd);
            if s =? -1 then fail Abort else serve fuel rounds sfd;; mret (Some sfd).
End server.

Arguments state : clear implicits.

(** ** The invariant *)

(** What the server has handed to write of the connection that [fd] now stands
    for, and what has been written of it. *)
Definition show1 (fd : Z) (acc : list Z) (o : output) : list Z :=
  match o with
  | Data g d _ => if bool_decide (g = fd) then acc ++ d else acc
  | Closed g | EpollError g => if bool_decide (g = fd) then [] else acc
  | _ => acc
  end.
Definition shown (fd : Z) (o : list output) : list Z := foldl (show1 fd) [] o.
Definition cut (o : output) : output := match o with Data g d n => Data g (take (Z.to_nat n) d) n | _ => o end.
Definition printed (fd : Z) (o : list output) : list Z := shown fd (cut <$> o).

(** No write was short. *)
Definition full (o : output) : Prop := match o with Data _ d n => n = Z.of_nat (length d) | _ => True end.

Lemma printed_shown fd o : Forall full o → printed fd o = shown fd o.
Proof.
  intros Ho. unfold printed. f_equal. induction Ho as [|x o Hx _ IH]; [done|]. cbn. f_equal; [|done].
  destruct x as [|g d n| | | |]; try done. cbn in *. by rewrite Hx, Nat2Z.id, take_ge.
Qed.

Lemma shown_snoc fd o x : shown fd (o ++ [x]) = show1 fd (shown fd o) x.
Proof. unfold shown. by rewrite foldl_app. Qed.

(** [l] is the listening socket, if there is one.  The descriptors in [P] have
    been reported and are still to be handled, those in [N] are not watched
    yet, and those in [B] may still block. *)
Record inv (l : option Z) (P N B : gset Z) (v : view) (o : list output) : Prop := {
  i_dom fd : is_Some (socks v !! fd) ↔ fd ∈ watched v ∨ fd ∈ N;
  i_pend : P ⊆ watched v;
  i_flags fd sk : socks v !! fd = Some sk → fd ∉ B → has (fl sk) O_NONBLOCK = true;
  i_data fd sk : socks v !! fd = Some sk → Some fd ≠ l → received sk = (Byte <$> shown fd o) ++ unread sk;
  i_wake fd sk : fd ∈ watched v → socks v !! fd = Some sk → unread sk ≠ [] →
    fd ∈ ready v ∨ fd ∈ P ∨ Some fd = l ∧ AcceptError ∈ o;
  i_fresh fd : socks v !! fd = None → shown fd o = [] }.

Lemma later_back v v' fd sk' : later v v' → socks v' !! fd = Some sk' → ∃ sk d, socks v !! fd = Some sk ∧
  sk' = mk_sock (fl sk) (received sk ++ d) (unread sk ++ d) ∧ (d ≠ [] → fd ∈ watched v → fd ∈ ready v').
Proof.
  intros L Hs. destruct (socks v !! fd) as [sk|] eqn:E; [|by rewrite (l_none _ _ L) in Hs].
  destruct (l_some _ _ L _ _ E) as (d & Hd & Hr). exists sk, d. by simplify_eq.
Qed.

Lemma later_dom v v' fd : later v v' → socks v' !! fd = None → socks v !! fd = None.
Proof. intros L Hn. destruct (socks v !! fd) as [sk|] eqn:E; [|done]. destruct (l_some _ _ L _ _ E) as (d & Hd & _). congruence. Qed.

Lemma epoll_inv_later l P N B v v' o : inv l P N B v o → later v v' → inv l P N B v' o.
Proof.
  intros [D Pe F Da W Fr] L. split.
  - intros fd. rewrite (l_watched _ _ L), <-D. rewrite <-!not_eq_None_Some. split; intros Hn He; apply Hn; [by eapply l_none|by eapply later_dom].
  - by rewrite (l_watched _ _ L).
  - intros fd sk Hs. destruct (later_back _ _ _ _ L Hs) as (a & d & Ha & -> & _). exact (F fd a Ha).
  - intros fd sk Hs Hl. destruct (later_back _ _ _ _ L Hs) as (a & d & Ha & -> & _). cbn. by rewrite (Da _ _ Ha Hl), <-app_assoc.
  - intros fd sk. rewrite (l_watched _ _ L). intros Hw Hs Hu. destruct (later_back _ _ _ _ L Hs) as (a & d & Ha & -> & Hd). cbn in Hu.
    destruct d as [|i d]; [|left; by apply Hd]. rewrite app_nil_r in Hu. destruct (W fd a Hw Ha Hu) as [Hr|]; [left; by apply (l_ready _ _ L)|tauto].
  - intros fd Hn. by apply Fr, (later_dom _ _ _ L).
Qed.

(** A message that says nothing about the data. *)
Lemma inv_print l P N B v o x : (∀ fd acc, show1 fd acc x = acc) → inv l P N B v o → inv l P N B v (o ++ [x]).
Proof.
  intros Hx [D Pe F Da W Fr]. split; try done.
  - intros fd sk Hs Hl. rewrite shown_snoc, Hx. by apply Da.
  - intros fd sk Hw Hs Hu. rewrite elem_of_app. destruct (W fd sk Hw Hs Hu) as [|[|[]]]; tauto.
  - intros fd Hn. rewrite shown_snoc, Hx. by apply Fr.
Qed.

(** Data are taken from a connection and printed. *)
Lemma inv_take l P N B v o fd sk d u n : inv l P N B v o → socks v !! fd = Some sk → Some fd ≠ l → unread sk = (Byte <$> d) ++ u →
  inv l P N B (take_items fd u sk v) (o ++ [Data fd d n]).
Proof.
  intros [D Pe F Da W Fr] Hs Hl Hu. split; cbn; try done.
  - intros g. rewrite <-D, lookup_insert_is_Some. destruct (decide (fd = g)) as [<-|]; [rewrite Hs; naive_solver|naive_solver].
  - intros g k. rewrite lookup_insert_Some. intros [[<- <-]|[_ Hg]]; [exact (F fd sk Hs)|exact (F g k Hg)].
  - intros g k. rewrite lookup_insert_Some, shown_snoc. cbn. intros [[<- <-]|[Ng Hg]] Hgl.
    + rewrite bool_decide_true by done. cbn. by rewrite (Da _ _ Hs Hl), Hu, fmap_app, app_assoc.
    + rewrite bool_decide_false by done. by apply Da.
  - intros g k Hw. rewrite lookup_insert_Some, elem_of_app. intros [[<- <-]|[Ng Hg]] Hgu.
    + destruct (W fd sk Hw Hs) as [|[|[]]]; try tauto. rewrite Hu. intros [_ ?]%app_eq_nil. by cbn in Hgu.
    + destruct (W g k Hw Hg Hgu) as [|[|[]]]; tauto.
  - intros g. rewrite lookup_insert_None, shown_snoc. cbn. intros [Hg Ng]. rewrite bool_decide_false by done. by apply Fr.
Qed.

(** A connection is taken from the listening socket. *)
Lemma inv_pop P N B v o l sk i u : inv (Some l) P N B v o → socks v !! l = Some sk → unread sk = i :: u →
  inv (Some l) P N B (take_items l u sk v) o.
Proof.
  intros [D Pe F Da W Fr] Hs Hu. split; cbn; try done.
  - intros g. rewrite <-D, lookup_insert_is_Some. destruct (decide (l = g)) as [<-|]; [rewrite Hs; naive_solver|naive_solver].
  - intros g k. rewrite lookup_insert_Some. intros [[<- <-]|[_ Hg]]; [exact (F l sk Hs)|exact (F g k Hg)].
  - intros g k. rewrite lookup_insert_Some. intros [[<- <-]|[Ng Hg]] Hgl; [done|by apply Da].
  - intros g k Hw. rewrite lookup_insert_Some. intros [[<- <-]|[Ng Hg]] Hgu; [|by eapply W].
    apply (W l sk Hw Hs). by rewrite Hu.
  - intros g. rewrite lookup_insert_None. intros [Hg Ng]. by apply Fr.
Qed.

Lemma inv_open l P N B v o fd f : inv l P N B v o → socks v !! fd = None →
  inv l P ({[fd]} ∪ N) ({[fd]} ∪ B) (set_sock fd (mk_sock f [] []) v) o.
Proof.
  intros [D Pe F Da W Fr] Hs. split; cbn; try done.
  - intros g. rewrite lookup_insert_is_Some, elem_of_union, elem_of_singleton. specialize (D g). destruct (decide (fd = g)); naive_solver.
  - intros g k. rewrite lookup_insert_Some, elem_of_union, elem_of_singleton. intros [[<- <-]|[_ Hg]] Hb; [tauto|]. apply (F g k Hg). tauto.
  - intros g k. rewrite lookup_insert_Some. intros [[<- <-]|[Ng Hg]] Hgl; [by rewrite (Fr _ Hs)|by apply Da].
  - intros g k Hw. rewrite lookup_insert_Some. intros [[<- <-]|[Ng Hg]] Hgu; [done|by eapply W].
  - intros g. rewrite lookup_insert_None. intros [Hg Ng]. by apply Fr.
Qed.

Lemma inv_setfl l P N B v o fd sk f : inv l P N B v o → socks v !! fd = Some sk → has f O_NONBLOCK = true →
  inv l P N (B ∖ {[fd]}) (set_sock fd (mk_sock f (received sk) (unread sk)) v) o.
Proof.
  intros [D Pe F Da W Fr] Hs Hf. split; cbn; try done.
  - intros g. rewrite <-D, lookup_insert_is_Some. destruct (decide (fd = g)) as [<-|]; [rewrite Hs; naive_solver|naive_solver].
  - intros g k. rewrite lookup_insert_Some, elem_of_difference, elem_of_singleton. intros [[<- <-]|[Ng Hg]] Hb; [done|]. apply (F g k Hg). naive_solver.
  - intros g k. rewrite lookup_insert_Some. intros [[<- <-]|[Ng Hg]] Hgl; [exact (Da _ _ Hs Hgl)|by apply Da].
  - intros g k Hw. rewrite lookup_insert_Some. intros [[<- <-]|[Ng Hg]] Hgu; [exact (W _ _ Hw Hs Hgu)|by eapply W].
  - intros g. rewrite lookup_insert_None. intros [Hg Ng]. by apply Fr.
Qed.

Lemma inv_watch l P N B v o fd sk : inv l P N B v o → socks v !! fd = Some sk → inv l P (N ∖ {[fd]}) B (watch fd sk v) o.
Proof.
  intros [D Pe F Da W Fr] Hs. split; cbn; try done.
  - intros g. rewrite D, elem_of_union, elem_of_difference, elem_of_singleton. destruct (decide (g = fd)) as [->|]; [|tauto].
    split; [tauto|]. intros _. apply D. by eexists.
  - intros g Hg. apply elem_of_union. right. by apply Pe.
  - intros g k Hw Hg Hu. destruct (decide (g = fd)) as [->|Ng].
    + simplify_eq. left. destruct (unread sk); [done|]. apply elem_of_union. left. by apply elem_of_singleton.
    + apply elem_of_union in Hw as [Hw%elem_of_singleton|Hw]; [done|]. destruct (W g k Hw Hg Hu) as [Hr|]; [left|tauto].
      destruct (unread sk); [done|]. apply elem_of_union. by right.
Qed.

(** A descriptor is closed, after a message that says so or when nothing of it
    was shown. *)
Lemma inv_forget l P N B v o o' fd : inv l P N B v o → shown fd o' = [] → (∀ g, g ≠ fd → shown g o' = shown g o) →
  (AcceptError ∈ o → AcceptError ∈ o') → inv l (P ∖ {[fd]}) (N ∖ {[fd]}) (B ∖ {[fd]}) (forget fd v) o'.
Proof.
  intros [D Pe F Da W Fr] Hf Ho Ha. split; cbn.
  - intros g. rewrite lookup_delete_is_Some, D, !elem_of_difference, elem_of_singleton. naive_solver.
  - intros g. rewrite !elem_of_difference. intros [Hg Ng]. split; [by apply Pe|done].
  - intros g k. rewrite lookup_delete_Some, elem_of_difference, elem_of_singleton. intros [Ng Hg] Hb. apply (F g k Hg). naive_solver.
  - intros g k. rewrite lookup_delete_Some. intros [Ng Hg]. rewrite Ho by done. by apply Da.
  - intros g k. rewrite lookup_delete_Some, !elem_of_difference, elem_of_singleton. intros [Hw _] [Ng Hg] Hu.
    destruct (W g k Hw Hg Hu) as [|[|[]]]; naive_solver.
  - intros g Hg. destruct (decide (g = fd)) as [->|Ng]; [done|]. rewrite Ho by done. apply Fr.
    rewrite lookup_delete_None in Hg. naive_solver.
Qed.

Lemma inv_report l N B v o fds : inv l ∅ N B v o → list_to_set fds ⊆ watched v → inv l (list_to_set fds) N B (report fds v) o.
Proof.
  intros [D Pe F Da W Fr] Hf. split; cbn; try done. intros g k Hw Hg Hu. rewrite elem_of_difference.
  destruct (decide (g ∈ (list_to_set fds : gset Z))) as [|Ng]; [tauto|]. destruct (W g k Hw Hg Hu) as [|[?%elem_of_empty|]]; tauto.
Qed.

(** A descriptor has been handled: nothing is left on it, or it is the
    listening socket and accept has failed. *)
Lemma inv_handled l P N B v o fd : inv l P N B v o →
  (∀ sk, socks v !! fd = Some sk → unread sk = [] ∨ Some fd = l ∧ AcceptError ∈ o) → inv l (P ∖ {[fd]}) N B v o.
Proof.
  intros [D Pe F Da W Fr] Hf. split; try done.
  - intros g [Hg _]%elem_of_difference. by apply Pe.
  - intros g k Hw Hg Hu. rewrite elem_of_difference, elem_of_singleton. destruct (decide (g = fd)) as [->|Ng].
    + destruct (Hf k Hg) as [|]; [done|tauto].
    + destruct (W g k Hw Hg Hu) as [|[|]]; tauto.
Qed.

Lemma inv_listen l P N B v o : inv None P N B v o → inv (Some l) P N B v o.
Proof.
  intros [D Pe F Da W Fr]. split; try done.
  - intros fd sk Hs _. by apply Da.
  - intros fd sk Hw Hs Hu. destruct (W fd sk Hw Hs Hu) as [|[|[]]]; [tauto..|done].
Qed.

(** ** The code keeps the invariant *)

(** All calls but accept and read succeed. *)
Record calls_succeed (K : Type) `{Kernel K} : Prop := {
  ok_socket a k : (sys_socket a k).1 ≠ -1;
  ok_bind fd a k : (sys_bind fd a k).1 = 0;
  ok_listen fd k : (sys_listen fd k).1 ≠ -1;
  ok_create k : (sys_epoll_create k).1 ≠ -1;
  ok_add fd k : (sys_epoll_add fd k).1 ≠ -1;
  ok_getfl fd k : (sys_getfl fd k).1 ≠ -1;
  ok_setfl fd f k : (sys_setfl fd f k).1 ≠ -1;
  ok_write d k : (sys_write d k).1 ≠ -1 }.

Section proofs.
Context {K : Type} `{Kernel K} `{!KernelLaws K}.
(** The answer of getaddrinfo. *)
Variable result : option (list Z).

Definition aborts (e : fault) : Prop := e = Abort ∧ ¬ (calls_succeed K ∧ ∃ a rp, result = Some (a :: rp)).

Lemma abort_if (P : Prop) : P → (calls_succeed K → ¬ P) → aborts Abort.
Proof. intros HP Hn. split; [done|]. intros [Hc _]. by apply Hn. Qed.

(** The invariant of a state, when [x] is still to be printed; the peers send
    at most [T] items more. *)
Definition Inv l P N B (T : nat) (x : list output) (s : state K) : Prop :=
  inv l P N B (see (kern s)) (out s ++ x) ∧ (traffic (kern s) ≤ T)%nat.

Lemma Inv_goes l P N B T x (k : K) v n k' o : inv l P N B v (o ++ x) → goes k v n k' → (traffic k ≤ T)%nat →
  Inv l P N B (T - n) x (mk_state k' o).
Proof. intros I [L Ht] HT. split; cbn; [by eapply epoll_inv_later|lia]. Qed.

Lemma Inv_goes0 l P N B T x (k : K) v k' o : inv l P N B v (o ++ x) → goes k v 0 k' → (traffic k ≤ T)%nat → Inv l P N B T x (mk_state k' o).
Proof. intros I G HT. rewrite <-(Nat.sub_0_r T). by eapply Inv_goes. Qed.

Lemma wp_call {A} (f : K → A * K) (Q : A → state K → Prop) s :
  (∀ a k', f (kern s) = (a, k') → Q a (mk_state k' (out s))) → wp aborts (call f) Q s.
Proof. intros HQ. apply HQ. by destruct (f (kern s)). Qed.

Lemma wp_quiet {A} (f : K → A * K) (Q : A → state K → Prop) l P N B T x s : (∀ k, goes k (see k) 0 (f k).2) → Inv l P N B T x s →
  (∀ s', Inv l P N B T x s' → Q (f (kern s)).1 s') → wp aborts (call f) Q s.
Proof.
  intros Hf [I HT] HQ. apply wp_call. intros a k' E. specialize (Hf (kern s)). rewrite E in *.
  apply HQ. by eapply Inv_goes0.
Qed.

Lemma Inv_print l P N B T s x : Inv l P N B T [x] s → Inv l P N B T [] (mk_state (kern s) (out s ++ [x])).
Proof. unfold Inv. cbn. by rewrite app_nil_r. Qed.

Lemma Inv_say l P N B T s x : (∀ fd acc, show1 fd acc x = acc) → Inv l P N B T [] s → Inv l P N B T [x] s.
Proof. intros Hx [I HT]. rewrite app_nil_r in I. split; [by apply inv_print|done]. Qed.

Lemma Inv_lookup l P N B T x s fd : Inv l P N B T x s → fd ∈ watched (see (kern s)) ∨ fd ∈ N → ∃ sk, socks (see (kern s)) !! fd = Some sk.
Proof. intros [I _] Hf. apply (i_dom _ _ _ _ _ _ I fd) in Hf as [sk Hs]. by exists sk. Qed.

Lemma has_lor f b : b ≠ 0 → has (Z.lor f b) b = true.
Proof. intros Hb. unfold has. rewrite Z.land_comm, Z.lor_comm, Z.land_lor_distr_r, Z.land_diag. apply negb_true_iff, Z.eqb_neq. intros [E _]%Z.lor_eq_0_iff. done. Qed.

Lemma nonblocking_ok l P N B T s fd : Inv l P N B T [] s → fd ∈ N →
  wp aborts (make_socket_non_blocking fd) (λ r s', r = 0 ∧ Inv l P N (B ∖ {[fd]}) T [] s' ∨ r = -1 ∧ ¬ calls_succeed K) s.
Proof.
  intros HI HN. unfold make_socket_non_blocking. destruct (Inv_lookup _ _ _ _ _ _ _ fd HI ltac:(tauto)) as [sk Hs]. destruct HI as [I HT].
  apply wp_bind, wp_call. intros f k1 E. destruct (getfl_law _ _ _ _ _ Hs E) as [Hf G].
  destruct (Z.eqb_spec f (-1)) as [->|Nf].
  { right. split; [done|]. intros C. apply (ok_getfl _ C fd (kern s)). by rewrite E. }
  destruct Hf as [| ->]; [done|]. assert (Inv l P N B T [] (mk_state k1 (out s))) as HI1 by (by eapply Inv_goes0).
  destruct (Inv_lookup _ _ _ _ _ _ _ fd HI1 ltac:(tauto)) as [sk1 Hs1]. destruct HI1 as [I1 HT1].
  apply wp_bind, wp_call. intros r k2 E2. cbn [kern out] in *. apply wp_ret.
  destruct (setfl_law _ _ _ _ _ _ Hs1 E2) as [[-> G2]|(Nr & f' & Hf' & G2)].
  { right. split; [done|]. intros C. eapply (ok_setfl _ C fd _ k1). by rewrite E2. }
  left. rewrite (proj2 (Z.eqb_neq _ _)) by done. split; [done|]. eapply Inv_goes0; [|done..].
  apply inv_setfl; [done..|]. rewrite Hf'. by apply has_lor.
Qed.

Lemma epoll_add_ok l P N B T s fd : Inv l P N B T [] s → fd ∈ N →
  wp aborts (call (sys_epoll_add fd)) (λ r s', r ≠ -1 ∧ Inv l P (N ∖ {[fd]}) B T [] s' ∨ r = -1 ∧ ¬ calls_succeed K) s.
Proof.
  intros HI HN. destruct (Inv_lookup _ _ _ _ _ _ _ fd HI ltac:(tauto)) as [sk Hs]. destruct HI as [I HT].
  apply wp_call. intros r k1 E. destruct (add_law _ _ _ _ _ Hs E) as [[-> _]|[Nr G]].
  - right. split; [done|]. intros C. apply (ok_add _ C fd (kern s)). by rewrite E.
  - left. split; [done|]. eapply Inv_goes0; [|done..]. by apply inv_watch.
Qed.

Lemma Inv_weaken l P N B T T' x s : Inv l P N B T x s → (T ≤ T')%nat → Inv l P N B T' x s.
Proof. intros [I HT] Hle. split; [done|lia]. Qed.

(** A new socket is made nonblocking and watched. *)
Lemma register_ok l P T s fd (f : M (state K) unit) Q : Inv l P {[fd]} {[fd]} T [] s → (∀ s', Inv l P ∅ ∅ T [] s' → wp aborts f Q s') →
  wp aborts (r ← make_socket_non_blocking fd; if r =? -1 then fail Abort else
             r ← call (sys_epoll_add fd); if r =? -1 then fail Abort else f) Q s.
Proof.
  intros HI Hf. eapply wp_seq; [apply (nonblocking_ok _ _ _ _ _ _ _ HI); set_solver|].
  intros r s1 [[-> HI1]|[-> C]]; [cbn|by apply (abort_if (¬ calls_succeed K)); [|naive_solver]]. rewrite difference_diag_L in HI1.
  eapply wp_seq; [apply (epoll_add_ok _ _ _ _ _ _ _ HI1); set_solver|].
  intros r s2 [[Nr HI2]|[-> C]]; [cbn|by apply (abort_if (¬ calls_succeed K)); [|naive_solver]]. rewrite difference_diag_L in HI2.
  rewrite (proj2 (Z.eqb_neq _ _)) by done. by apply Hf.
Qed.

Lemma epoll_accept_loop_ok P fuel l T s : Inv (Some l) P ∅ ∅ T [] s → (T < fuel)%nat → l ∈ P →
  wp aborts (accept_loop fuel l) (λ _, Inv (Some l) (P ∖ {[l]}) ∅ ∅ T []) s.
Proof.
  revert T s. induction fuel as [|fuel IH]; intros T s HI Hf Hl; [lia|]. cbn [accept_loop].
  destruct HI as [I HT]. pose proof (i_pend _ _ _ _ _ _ I l Hl) as Hw.
  destruct (Inv_lookup _ _ _ _ _ _ _ l (conj I HT) ltac:(tauto)) as [sk Hs].
  apply wp_bind, wp_call. intros [fd again] k1 E. cbn [fst snd].
  destruct (accept_law _ _ _ _ _ _ Hs E) as [(-> & Ha & G)|(Nf & Hn & f & u & Hu & G)].
  - cbn. destruct again.
    + apply wp_ret. eapply Inv_goes0; [|done..]. apply inv_handled; [done|]. intros sk' Hs'. simplify_eq. left. by apply Ha.
    + apply wp_modify, Inv_print. eapply Inv_goes0; [|done..]. rewrite app_nil_r in I.
      apply inv_handled; [by apply inv_print|]. intros sk' _. right. split; [done|]. apply elem_of_app. right. by apply list_elem_of_singleton.
  - rewrite (proj2 (Z.eqb_neq _ _)) by done. assert (Hl' : l ≠ fd) by congruence.
    assert (Inv (Some l) P {[fd]} {[fd]} (T - 1) [] (mk_state k1 (out s))) as HI1.
    { eapply Inv_goes; [|exact G|done]. rewrite <-(union_empty_r_L {[fd]}). apply inv_open; [by eapply inv_pop|]. cbn. by rewrite lookup_insert_ne. }
    assert (0 < T)%nat by (destruct G as [_ G]; lia).
    apply wp_bind. eapply (wp_quiet _ _ _ _ _ _ _ _ _ (name_law fd) HI1). intros s2 HI2.
    apply wp_bind. set (c := _ =? 0). apply (wp_mono _ (λ _, Inv (Some l) P {[fd]} {[fd]} (T - 1) [])).
    { destruct c; [|done]. by apply wp_modify, Inv_print, Inv_say. }
    intros [] s3 HI3. apply (register_ok _ _ _ _ _ _ _ HI3). intros s4 HI4.
    eapply wp_mono; [apply (IH (T - 1)%nat); [done|lia|done]|]. intros u' s5 HI5. eapply Inv_weaken; [exact HI5|lia].
Qed.

Lemma epoll_read_loop_ok l P fuel fd T s : Inv l P ∅ ∅ T [] s → (T < fuel)%nat → fd ∈ P → Some fd ≠ l →
  wp aborts (read_loop fuel fd) (λ b, Inv l (if b then P else P ∖ {[fd]}) ∅ ∅ T []) s.
Proof.
  revert T s. induction fuel as [|fuel IH]; intros T s HI Hf HP Hl; [lia|]. cbn [read_loop].
  destruct HI as [I HT]. pose proof (i_pend _ _ _ _ _ _ I fd HP) as Hw.
  destruct (Inv_lookup _ _ _ _ _ _ _ fd (conj I HT) ltac:(tauto)) as [sk Hs].
  apply wp_bind, wp_call. intros [[n again] d] k1 E.
  destruct (read_law _ _ _ _ _ _ _ Hs E) as [(-> & Ha & G)|[(-> & _ & G)|(Hn & -> & u & Hu & G)]].
  - cbn. destruct again.
    + apply wp_ret. eapply Inv_goes0; [|done..]. apply inv_handled; [done|]. intros sk' Hs'. simplify_eq. left. by apply Ha.
    + apply wp_bind, wp_modify, wp_ret, Inv_print, Inv_say; [done|]. by eapply Inv_goes0.
  - by apply wp_ret; eapply Inv_goes0.
  - rewrite !(proj2 (Z.eqb_neq _ _)) by lia.
    assert (Inv l P ∅ ∅ (T - length d) [Data fd d (sys_write d k1).1] (mk_state k1 (out s))) as HI1.
    { eapply Inv_goes; [|exact G|done]. rewrite app_nil_r in I. by apply inv_take. }
    assert (T - length d < T)%nat by (destruct G as [_ G]; lia).
    apply wp_bind. eapply (wp_quiet _ _ _ _ _ _ _ _ _ (write_law d) HI1). intros s2 HI2.
    cbn [kern]. destruct (Z.eqb_spec (sys_write d k1).1 (-1)) as [Ew|_]; [apply (abort_if _ Ew); intros C; apply (ok_write _ C)|].
    apply wp_bind, wp_modify.
    eapply wp_mono; [apply (IH (T - length d)%nat); [by apply Inv_print|lia|done..]|].
    intros b s5 HI5. eapply Inv_weaken; [exact HI5|lia].
Qed.

(** Closing after a message that says so. *)
Lemma epoll_close_ok l P T s fd x : (∀ acc, show1 fd acc x = []) → (∀ g acc, g ≠ fd → show1 g acc x = acc) → Inv l P ∅ ∅ T [] s →
  wp aborts (print x;; call (sys_close fd);; mret ()) (λ _, Inv l (P ∖ {[fd]}) ∅ ∅ T []) s.
Proof.
  intros Hx Hg [I HT]. apply wp_bind, wp_modify, wp_bind, wp_call. intros r k1 E. apply wp_ret. cbn in E.
  pose proof (close_law fd (kern s)) as G. rewrite E in G. rewrite app_nil_r in I. eapply Inv_goes0; [|exact G|done]. rewrite app_nil_r. cbn [out].
  assert (∅ = ∅ ∖ {[fd]}) as -> by (clear; set_solver). eapply inv_forget; [done| | |].
  - by rewrite shown_snoc, Hx.
  - intros g Ng. by rewrite shown_snoc, Hg.
  - intros Ha. apply elem_of_app. by left.
Qed.

Lemma epoll_handle_ok l P fuel fd ev T s : Inv (Some l) P ∅ ∅ T [] s → (T < fuel)%nat → fd ∈ P →
  wp aborts (handle fuel l (fd, ev)) (λ _, Inv (Some l) (P ∖ {[fd]}) ∅ ∅ T []) s.
Proof.
  intros HI Hf HP. cbn [handle]. destruct (_ || _ || _).
  { apply epoll_close_ok; [|intros; cbn|done]; [by intros; cbn; rewrite bool_decide_true|by rewrite bool_decide_false]. }
  destruct (Z.eqb_spec l fd) as [<-|Nl]; [by apply epoll_accept_loop_ok|].
  eapply wp_seq; [apply (epoll_read_loop_ok _ _ _ _ _ _ HI Hf HP); congruence|]. intros [|] s1 HI1; [|by apply wp_ret].
  apply epoll_close_ok; [|intros; cbn|done]; [by intros; cbn; rewrite bool_decide_true|by rewrite bool_decide_false].
Qed.

Lemma event_loop_ok l fuel evs T s : Inv (Some l) (list_to_set evs.*1) ∅ ∅ T [] s → (T < fuel)%nat → NoDup evs.*1 →
  wp aborts (event_loop fuel l evs) (λ _, Inv (Some l) ∅ ∅ ∅ T []) s.
Proof.
  revert s. induction evs as [|[fd ev] evs IH]; intros s HI Hf Hn; [done|]. cbn [event_loop]. cbn in HI, Hn. apply NoDup_cons in Hn as [Hfd Hn].
  eapply wp_seq; [apply (epoll_handle_ok _ _ _ fd ev _ _ HI Hf); set_solver|]. intros [] s1 HI1. apply IH; [|done..].
  replace (list_to_set evs.*1 : gset Z) with (({[fd]} ∪ list_to_set evs.*1) ∖ {[fd]} : gset Z); [done|]. set_solver.
Qed.

Lemma epoll_serve_ok l fuel n T s : Inv (Some l) ∅ ∅ ∅ T [] s → (T < fuel)%nat → wp aborts (serve fuel n l) (λ _, Inv (Some l) ∅ ∅ ∅ T []) s.
Proof.
  revert s. induction n as [|n IH]; intros s HI Hf; [done|]. cbn [serve]. destruct HI as [I HT].
  apply wp_bind, wp_call. intros [m evs] k1 E. cbn [fst snd].
  destruct (wait_law _ _ _ _ E) as [[-> G]|(-> & _ & Hn & Hw & G)].
  - apply wp_bind, wp_ret, IH; [by eapply Inv_goes0|done].
  - rewrite Nat2Z.id, take_ge by done. eapply wp_seq; [apply (event_loop_ok l fuel evs T); [|done..]|].
    + eapply Inv_goes0; [|done..]. by apply inv_report.
    + intros [] s1 HI1. by apply IH.
Qed.

Lemma bind_loop_ok rp T s : Inv None ∅ ∅ ∅ T [] s → out s = [] →
  wp aborts (bind_loop rp) (λ r s', out s' = [] ∧ match r with
    | Some fd => fd ≠ -1 ∧ Inv None ∅ {[fd]} {[fd]} T [] s'
    | None => calls_succeed K → rp = [] end) s.
Proof.
  revert s. induction rp as [|a rp IH]; intros s [I HT] Ho; [done|]. cbn [bind_loop].
  apply wp_bind, wp_call. intros fd k1 E. destruct (socket_law _ _ _ _ E) as [[-> G]|(Nf & Hn & f & G)].
  - cbn. eapply wp_mono; [apply IH; [by eapply Inv_goes0|done]|]. intros [g|] s' [Ho' Hr]; [done|]. split; [done|].
    intros C. destruct (ok_socket _ C a (kern s)). by rewrite E.
  - rewrite (proj2 (Z.eqb_neq _ _)) by done.
    assert (Inv None ∅ {[fd]} {[fd]} T [] (mk_state k1 (out s))) as HI1.
    { eapply Inv_goes0; [|exact G|done]. rewrite <-(union_empty_r_L {[fd]}). by apply inv_open. }
    apply wp_bind, wp_call. intros b k2 E2. cbn [kern out] in *. pose proof (bind_law fd a k1) as G2. rewrite E2 in G2.
    assert (Inv None ∅ {[fd]} {[fd]} T [] (mk_state k2 (out s))) as [I2 HT2] by (destruct HI1; by eapply Inv_goes0).
    destruct (Z.eqb_spec b 0) as [->|Nb]; [by apply wp_ret|].
    apply wp_bind, wp_call. intros c k3 E3. cbn [kern out] in *. pose proof (close_law fd k2) as G3. rewrite E3 in G3.
    eapply wp_mono; [apply IH; [|done]|].
    + eapply Inv_goes0; [|exact G3|done]. rewrite Ho in *.
      assert ((∅ : gset Z) = ∅ ∖ {[fd]}) as EP by (clear; set_solver). rewrite EP at 1. rewrite <-(difference_diag_L {[fd]}).
      eapply inv_forget; [rewrite difference_diag_L; exact I2|done..].
    + intros [g|] s' [Ho' Hr]; [done|]. split; [done|]. intros C. pose proof (ok_bind _ C fd a k1) as X. by rewrite E2 in X.
Qed.

Lemma epoll_main_ok fuel n k : socks (see k) = ∅ → watched (see k) = ∅ → (traffic k < fuel)%nat →
  wp aborts (main fuel n 2 result) (λ r s', ∃ l, r = Some l ∧ Inv (Some l) ∅ ∅ ∅ (traffic k) [] s') (mk_state k []).
Proof.
  intros Hs Hw Hf. unfold main. cbn [Z.eqb Pos.eqb negb].
  assert (Inv None ∅ ∅ ∅ (traffic k) [] (mk_state k [])) as HI.
  { split; [|done]. split; cbn; rewrite ?Hs, ?Hw; try done; intros fd; rewrite lookup_empty; [|done..]. rewrite is_Some_alt. set_solver. }
  apply (wp_seq _ _ (λ fd s', if fd =? -1 then aborts Abort else Inv None ∅ {[fd]} {[fd]} (traffic k) [] s')).
  { unfold create_and_bind. destruct result as [rp|] eqn:Er; [|apply wp_ret; split; [done|]; rewrite Er; naive_solver].
    eapply wp_seq; [by apply bind_loop_ok|]. intros [fd|] s1 [_ Hr]; apply wp_ret; cbn.
    - destruct Hr as [Nf Hr]. by rewrite (proj2 (Z.eqb_neq _ _)).
    - split; [done|]. intros (C & a & rp' & Ea). rewrite Er in Ea. specialize (Hr C). by simplify_eq. }
  intros fd s1 HI1. destruct (_ =? _); [done|].
  eapply wp_seq; [apply (nonblocking_ok _ _ _ _ _ _ _ HI1); set_solver|].
  intros r s2 [[-> HI2]|[-> C]]; [cbn|by apply (abort_if (¬ calls_succeed K)); [|naive_solver]]. rewrite difference_diag_L in HI2.
  apply wp_bind. eapply (wp_quiet _ _ _ _ _ _ _ _ _ (listen_law fd) HI2). intros s3 HI3.
  destruct (Z.eqb_spec (sys_listen fd (kern s2)).1 (-1)) as [Ef|_]; [apply (abort_if _ Ef); intros C; apply (ok_listen _ C)|].
  apply wp_bind. eapply (wp_quiet _ _ _ _ _ _ _ _ _ create_law HI3). intros s4 HI4.
  destruct (Z.eqb_spec (sys_epoll_create (kern s3)).1 (-1)) as [Ef|_]; [apply (abort_if _ Ef); intros C; apply (ok_create _ C)|].
  eapply wp_seq; [apply (epoll_add_ok _ _ _ _ _ _ _ HI4); set_solver|].
  intros r s5 [[Nr HI5]|[-> C]]; [cbn|by apply (abort_if (¬ calls_succeed K)); [|naive_solver]]. rewrite difference_diag_L in HI5.
  rewrite (proj2 (Z.eqb_neq _ _)) by done.
  eapply wp_seq; [eapply epoll_serve_ok; [|exact Hf]|intros [] s6 HI6; by exists fd]. destruct HI5. split; [by apply inv_listen|done].
Qed.
End proofs.

(** ** Properties *)

(** C9: the server misses nothing although it is told only once that something
    has arrived, whatever the peers do and when.  After any number of returns
    of epoll_wait each socket it has open is watched and does not block, what
    arrived on a connection is what the server has read and handed to write
    followed by what it has not read yet, and there is such a rest only where
    the kernel is about to report the connection.  What it has handed to write
    is what is printed if no write was short; of a short write the rest is
    never written.  The same holds of the connections that wait to be accepted,
    unless accept has failed.  The server stops only when a call other than
    accept and read fails, or no address is found. *)
Theorem epoll_server_correct {K} `{Kernel K} `{!KernelLaws K} fuel rounds result (k : K) :
  socks (see k) = ∅ → watched (see k) = ∅ → (traffic k < fuel)%nat →
  match main fuel rounds 2 result (mk_state k []) with
  | Ok (r, s) => ∃ l, r = Some l ∧ let v := see (kern s) in
      (∀ fd, is_Some (socks v !! fd) ↔ fd ∈ watched v) ∧
      ∀ fd sk, socks v !! fd = Some sk → has (fl sk) O_NONBLOCK = true ∧
        (fd ≠ l → received sk = (Byte <$> shown fd (out s)) ++ unread sk ∧ (unread sk ≠ [] → fd ∈ ready v) ∧
           (Forall full (out s) → printed fd (out s) = shown fd (out s))) ∧
        (fd = l → AcceptError ∉ out s → unread sk ≠ [] → fd ∈ ready v)
  | Err e => e = Abort ∧ ¬ (calls_succeed K ∧ ∃ a rp, result = Some (a :: rp))
  end.
Proof.
  intros Hs Hw Hf. pose proof (epoll_main_ok result fuel rounds k Hs Hw Hf) as HM. unfold wp in HM.
  destruct (main _ _ _ _ _) as [[r s]|e]; [|done]. destruct HM as (l & -> & I & _). rewrite app_nil_r in I. destruct I as [D Pe F Da W Fr].
  exists l. split; [done|]. split; [intros fd; rewrite D; set_solver|]. intros fd sk Hsk. split; [by apply (F fd); [|set_solver]|].
  assert (fd ∈ watched (see (kern s))) as Hfw by (destruct (proj1 (D fd)) as [|]; [by eexists|done|set_solver]).
  split.
  - intros Nl. split; [apply Da; [done|congruence]|]. split; [|apply printed_shown]. intros Hu. destruct (W fd sk Hfw Hsk Hu) as [|[|[]]]; [done|set_solver|congruence].
  - intros -> Ha Hu. destruct (W l sk Hfw Hsk Hu) as [|[|[]]]; [done|set_solver|done].
Qed.

(** *** A kernel with a script of what arrives *)
Record demo := mk_demo { d_view : view; d_next : Z; d_left : nat; d_script : list (Z * list item) }.

Definition set_view (v : view) (n : nat) (k : demo) : demo := mk_demo v (d_next k) (d_left k - n) (d_script k).

Definition arrive (fd : Z) (d : list item) (v : view) : view :=
  match socks v !! fd with
  | Some sk => mk_view (<[fd := mk_sock (fl sk) (received sk ++ d) (unread sk ++ d)]> (socks v)) (watched v) ({[fd]} ∪ ready v)
  | None => v
  end.

Fixpoint leading (l : list item) : list Z * list item :=
  match l with
  | Byte b :: l => let r := leading l in (b :: r.1, r.2)
  | _ => ([], l)
  end.

Definition demo_open (a : Z) (k : demo) (v : view) (n : nat) : Z * demo :=
  let fd := d_next k in
  if bool_decide (fd ≠ -1 ∧ socks (d_view k) !! fd = None) then
    (fd, mk_demo (set_sock fd (mk_sock 2 [] []) v) (fd + 1) (d_left k - n) (d_script k))
  else (-1, k).

Definition demo_accept (l : Z) (k : demo) : Z * bool * demo :=
  match socks (d_view k) !! l with
  | Some sk => match unread sk with
      | Conn :: u => if bool_decide (0 < d_left k)%nat then let r := demo_open 0 k (take_items l u sk (d_view k)) 1 in (r.1, false, r.2) else (-1, false, k)
      | [] => (-1, true, k)
      | _ => (-1, false, k)
      end
  | None => (-1, false, k)
  end.

Definition demo_read (fd : Z) (k : demo) : Z * bool * list Z * demo :=
  match socks (d_view k) !! fd with
  | Some sk => match unread sk with
      | [] => (-1, true, [], k)
      | Fin :: _ => (0, false, [], k)
      | Conn :: _ => (-1, false, [], k)
      | Byte b :: u =>
          let '(d, u) := leading (unread sk) in
          if bool_decide (Z.of_nat (length d) ≤ BUF_SIZE ∧ (length d ≤ d_left k)%nat) then
            (Z.of_nat (length d), false, d, set_view (take_items fd u sk (d_view k)) (length d) k)
          else (-1, false, [], k)
      end
  | None => (-1, false, [], k)
  end.

Definition demo_wait (k : demo) : Z * list (Z * Z) * demo :=
  let v := d_view k in
  let fds := elements (ready v ∩ watched v) in
  if bool_decide (Z.of_nat (length fds) ≤ MAXEVENTS) then
    let v' := report fds v in
    (Z.of_nat (length fds), (λ fd, (fd, EPOLLIN)) <$> fds,
     match d_script k with
     | [] => set_view v' 0 k
     | (fd, d) :: rest => mk_demo (arrive fd d v') (d_next k) (d_left k) rest
     end)
  else (-1, [], k).

Definition on_sock (fd : Z) (f : sock → Z * demo) (k : demo) : Z * demo :=
  match socks (d_view k) !! fd with Some sk => f sk | None => (-1, k) end.

#[export] Instance demo_kernel : Kernel demo := {
  see := d_view;
  traffic := d_left;
  sys_socket a k := demo_open a k (d_view k) 0;
  sys_bind fd a k := (0, k);
  sys_listen fd k := (0, k);
  sys_epoll_create k := (100, k);
  sys_epoll_add fd k := on_sock fd (λ sk, (0, set_view (watch fd sk (d_view k)) 0 k)) k;
  sys_epoll_wait := demo_wait;
  sys_accept := demo_accept;
  sys_getnameinfo fd k := (0, k);
  sys_getfl fd k := on_sock fd (λ sk, (fl sk, k)) k;
  sys_setfl fd f k := on_sock fd (λ sk, (0, set_view (set_sock fd (mk_sock f (received sk) (unread sk)) (d_view k)) 0 k)) k;
  sys_read := demo_read;
  sys_write d k := (Z.of_nat (length d), k);
  sys_close fd k := (0, set_view (forget fd (d_view k)) 0 k) }.

Lemma later_refl v : later v v.
Proof. split; try done. intros fd [f r u] Hs. exists []. cbn. by rewrite !app_nil_r. Qed.

Lemma later_arrive fd d v : later v (arrive fd d v).
Proof.
  unfold arrive. destruct (socks v !! fd) as [sk|] eqn:E; [|apply later_refl]. split; cbn; [done|set_solver| |].
  - intros g Hg. rewrite lookup_insert_ne by congruence. done.
  - intros g [f r u] Hg. destruct (decide (fd = g)) as [<-|Ng].
    + exists d. rewrite lookup_insert_eq. simplify_eq. split; [done|]. set_solver.
    + exists []. cbn. rewrite lookup_insert_ne by done. by rewrite !app_nil_r.
Qed.

Lemma leading_spec l : l = (Byte <$> (leading l).1) ++ (leading l).2.
Proof. induction l as [|[b| |] l IH]; try done. cbn. by rewrite <-IH. Qed.

Lemma goes_view (k : demo) v n : (n ≤ d_left k)%nat → goes k v n (set_view v n k).
Proof. intros Hn. split; cbn; [apply later_refl|lia]. Qed.

Lemma goes_same (k : demo) : goes k (d_view k) 0 k.
Proof. split; cbn; [apply later_refl|lia]. Qed.

#[local] Hint Resolve goes_same later_refl : core.

Lemma demo_wait_law (k : demo) n evs k' : demo_wait k = (n, evs, k') →
  (n = -1 ∧ goes k (d_view k) 0 k') ∨
  (n = Z.of_nat (length evs) ∧ n ≤ MAXEVENTS ∧ NoDup evs.*1 ∧ list_to_set evs.*1 ⊆ watched (d_view k) ∧ goes k (report evs.*1 (d_view k)) 0 k').
Proof.
  unfold demo_wait. case_bool_decide as Hm; intros E; simplify_eq; [right|by left]. rewrite length_fmap.
  rewrite <-list_fmap_compose, list_fmap_id. split; [done|]. split; [done|]. split; [apply NoDup_elements|].
  split; [rewrite list_to_set_elements; set_solver|]. destruct (d_script k) as [|[fd d] rest]; [by apply goes_view; lia|].
  split; [apply later_arrive|]. cbn. lia.
Qed.

Lemma demo_read_law fd sk (k : demo) n again d k' : socks (d_view k) !! fd = Some sk → demo_read fd k = (n, again, d, k') →
  (n = -1 ∧ (again = true → unread sk = []) ∧ goes k (d_view k) 0 k') ∨
  (n = 0 ∧ (∃ u, unread sk = Fin :: u) ∧ goes k (d_view k) 0 k') ∨
  (0 < n ≤ BUF_SIZE ∧ n = Z.of_nat (length d) ∧ ∃ u, unread sk = (Byte <$> d) ++ u ∧ goes k (take_items fd u sk (d_view k)) (length d) k').
Proof.
  unfold demo_read. intros ->. destruct (unread sk) as [|[b| |] u] eqn:Eu; intros E; [simplify_eq; by left| | |simplify_eq; by left].
  - pose proof (leading_spec (Byte b :: u)) as Hl. cbn [leading] in E, Hl. cbn [fst snd] in Hl. case_bool_decide as Hb; simplify_eq; [|by left].
    right. right. cbn [length] in *. split; [lia|]. split; [done|]. exists (leading u).2. split; [done|]. apply goes_view. lia.
  - simplify_eq. right. left. split; [done|]. split; [by eexists|done].
Qed.

#[export] Instance demo_laws : KernelLaws demo.
Proof.
  split; cbn; try done.
  - intros a k fd k'. unfold demo_open. case_bool_decide as Hd; intros E; simplify_eq; [right|by left].
    destruct Hd as [Nf Hn]. split; [done|]. split; [done|]. exists 2. split; cbn; [done|lia].
  - intros fd k. by apply goes_view; lia.
  - intros fd sk k f k' Hs. unfold on_sock. rewrite Hs. intros E. simplify_eq. split; [by right|done].
  - intros fd sk f k r k' Hs. unfold on_sock. rewrite Hs. intros E. simplify_eq. right. split; [done|]. exists f. split; [done|]. by apply goes_view; lia.
  - intros fd sk k r k' Hs. unfold on_sock. rewrite Hs. intros E. simplify_eq. right. split; [done|]. by apply goes_view; lia.
  - apply demo_wait_law.
  - intros l sk k fd again k' Hs. unfold demo_accept, demo_open. rewrite Hs. destruct (unread sk) as [|[b| |] u] eqn:Eu; try (intros E; simplify_eq; by left).
    case_bool_decide as Hz; [case_bool_decide as Hd|]; cbn; intros E; simplify_eq; try (by left). right. destruct Hd as [Nf Hn]. split; [done|]. split; [done|].
    exists 2, u. split; [done|]. split; cbn; [done|lia].
  - apply demo_read_law.
Qed.

(** A client connects and sends ten bytes in two parts, and closes. *)
Definition demo_start : demo :=
  mk_demo (mk_view ∅ ∅ ∅) 3 20 [(3, [Conn]); (0, []); (4, Byte <$> [104; 101; 108; 108; 111]); (0, []); (4, (Byte <$> [119; 111; 114; 108; 100]) ++ [Fin])].

Lemma epoll_server_correct_witness :
  match main 21 6 2 (Some [0]) (mk_state demo_start []) with
  | Ok (r, s) => r = Some 3 ∧ out s = [Accepted 4; Data 4 [104; 101; 108; 108; 111] 5; Data 4 [119; 111; 114; 108; 100] 5; Closed 4] ∧
      ∃ l, r = Some l ∧ let v := see (kern s) in
      (∀ fd, is_Some (socks v !! fd) ↔ fd ∈ watched v) ∧
      ∀ fd sk, socks v !! fd = Some sk → has (fl sk) O_NONBLOCK = true ∧
        (fd ≠ l → received sk = (Byte <$> shown fd (out s)) ++ unread sk ∧ (unread sk ≠ [] → fd ∈ ready v) ∧
           (Forall full (out s) → printed fd (out s) = shown fd (out s))) ∧
        (fd = l → AcceptError ∉ out s → unread sk ≠ [] → fd ∈ ready v)
  | Err e => False
  end.
Proof.
  pose proof (epoll_server_correct 21 6 (Some [0]) demo_start eq_refl eq_refl ltac:(cbn; lia)) as HT.
  assert (match main 21 6 2 (Some [0]) (mk_state demo_start []) with Ok _ => true | _ => false end = true) as Hok by (vm_compute; reflexivity).
  destruct (main 21 6 2 (Some [0]) (mk_state demo_start [])) as [[r s]|e] eqn:E; [|done].
  split; [|split; [|exact HT]].
  - apply (f_equal (λ x, match x with Ok (r, _) => r | _ => None end)) in E. vm_compute in E. by symmetry.
  - apply (f_equal (λ x, match x with Ok (_, s) => out s | _ => [] end)) in E. vm_compute in E. by symmetry.
Defined.
