(* ===== verification/MsgServer.v ===== *)
(** * Servers for messages of ten bytes (socket/selecttest.c, socket/polltest.c)

    Both servers wait for their listening socket and a table of connections,
    one with select and one with poll, and take a message of ten bytes from
    each connection that is reported, in as many calls of recv as it takes.
    The kernel is a parameter with the laws that are documented of its calls.
    [out] holds the messages and what is printed of them: printing stops at the
    first NUL and reads behind the buffer when there is none. *)
From stdpp Require Import gmap.
From S2P Require Import Prelude CArr CInt CBuf Hoare.

Definition REVLEN : Z := 10.
Definition BACKLOG : nat := 5.
Definition OPEN_MAX : nat := 1024.
Definition FD_SETSIZE : Z := 1024.
Definition POLLIN : Z := 1.
Definition POLLERR : Z := 8.

(** ** The kernel *)

(** [total]: all that the peer of a connection sends; [stream]: what of it has
    not been received yet. *)
Class Net (K : Type) := {
  open_fds : K → gset Z;
  total : K → Z → arr;
  stream : K → Z → arr;
  sys_recv : Z → Z → K → Z * arr * K;
  sys_accept : Z → K → Z * K;
  sys_select : Z → gset Z → K → Z * gset Z * K;
  sys_poll : list (Z * Z) → K → Z * list Z * K }.

Definition same {K} `{Net K} (k k' : K) : Prop :=
  open_fds k' = open_fds k ∧ ∀ g, total k' g = total k g ∧ stream k' g = stream k g.

Class NetLaws (K : Type) `{Net K} : Prop := {
  recv_law fd n k r d k' : 0 < n → fd ∈ open_fds k → sys_recv fd n k = (r, d, k') →
    open_fds k' = open_fds k ∧ (∀ g, total k' g = total k g) ∧ (∀ g, g ≠ fd → stream k' g = stream k g) ∧
    (r < 0 ∧ d = [] ∨ r = 0 ∧ d = [] ∧ stream k fd = [] ∨ 0 < r ≤ n ∧ r = Z.of_nat (length d) ∧ stream k fd = d ++ stream k' fd);
  accept_law l k fd k' : sys_accept l k = (fd, k') →
    (fd = -1 ∧ same k k') ∨
    (0 ≤ fd < FD_SETSIZE ∧ fd ∉ open_fds k ∧ open_fds k' = {[fd]} ∪ open_fds k ∧ stream k' fd = total k' fd ∧
     ∀ g, g ≠ fd → total k' g = total k g ∧ stream k' g = stream k g);
  select_law n A k r W k' : sys_select n A k = (r, W, k') → W ⊆ A ∧ same k k';
  poll_law ps k r rs k' : sys_poll ps k = (r, rs, k') → length rs = length ps ∧ same k k' }.

(** A message and the connection it came from, and what printf writes of it. *)
Record shown := mk_shown { conn : Z; message : arr; text : arr }.

Section server.
Context {K : Type} `{Net K}.

(** [T]: the table of connections. *)
Record state (T : Type) := mk_state { tab : T; recvBuf : arr; recvLen : Z; currentClient : Z; out : list shown; kern : K }.
#[global] Arguments mk_state {T} _ _ _ _ _ _.
#[global] Arguments tab {T} _.
#[global] Arguments recvBuf {T} _.
#[global] Arguments recvLen {T} _.
#[global] Arguments currentClient {T} _.
#[global] Arguments out {T} _.
#[global] Arguments kern {T} _.

Section common.
Context {T : Type}.

Definition set_tab (t : T) (s : state T) : state T := mk_state t (recvBuf s) (recvLen s) (currentClient s) (out s) (kern s).
Definition set_buf (b : arr) (n : Z) (s : state T) : state T := mk_state (tab s) b n (currentClient s) (out s) (kern s).
Definition set_len (n : Z) (s : state T) : state T := set_buf (recvBuf s) n s.
Definition set_count (n : Z) (s : state T) : state T := mk_state (tab s) (recvBuf s) (recvLen s) n (out s) (kern s).
Definition set_out (o : list shown) (s : state T) : state T := mk_state (tab s) (recvBuf s) (recvLen s) (currentClient s) o (kern s).

Definition call {A} (f : K → A * K) : M (state T) A := λ s,
  let r := f (kern s) in Ok (r.1, mk_state (tab s) (recvBuf s) (recvLen s) (currentClient s) (out s) r.2).

(** recv stores what it has received at [recvLen]. *)
Definition recv (fd n : Z) : M (state T) Z :=
  r ← call (sys_recv fd n);
  b ← gets recvBuf;
  len ← gets recvLen;
  if bool_decide (len + Z.of_nat (length r.2) ≤ Z.of_nat (length b)) then
    modify (set_buf (take (Z.to_nat len) b ++ r.2 ++ drop (Z.to_nat len + length r.2) b) len);; mret r.1
  else fail Segv.

Definition print (fd : Z) : M (state T) unit :=
  b ← gets recvBuf;
  match cstr b with
  | Some t => modify (λ s, set_out (out s ++ [mk_shown fd b t]) s)
  | None => fail Overread
  end.

(** Whether the connection is given up. *)
Fixpoint recv_loop (fuel : nat) (fd : Z) : M (state T) bool :=
  match fuel with
  | O => fail Fuel
  | S fuel =>
      len ← gets recvLen;
      ret ← recv fd (REVLEN - len);
      if ret =? 0 then modify (set_len 0);; mret true
      else if ret <? 0 then modify (set_len 0);; mret true
      else
        modify (set_len (len + ret));;
        if len + ret <? REVLEN then recv_loop fuel fd
        else print fd;; modify (set_len 0);; mret false
  end.

Definition receive (fd : Z) : M (state T) bool :=
  len ← gets recvLen;
  if negb (len =? REVLEN) then recv_loop (S (Z.to_nat REVLEN)) fd else mret false.

Definition accept (l : Z) : M (state T) Z :=
  sockSvr ← call (sys_accept l);
  (if sockSvr =? -1 then mret () else modify (λ s, set_count (currentClient s + 1) s));;
  mret sockSvr.
End common.

(** The first slot of a table that is free. *)
Definition free_slot (fds : list Z) : option nat := fst <$> list_find (λ fd, fd < 0) fds.

(** ** socket/selecttest.c *)
Definition in_set (fd : Z) : bool := (0 <=? fd) && (fd <? FD_SETSIZE).

(** The set of descriptors and the largest of them. *)
Fixpoint add_clients (fds : list Z) (readfds : gset Z) (sockMax : Z) : res (gset Z * Z) :=
  match fds with
  | [] => Ok (readfds, sockMax)
  | fd :: fds =>
      if fd >? 0 then
        if in_set fd then add_clients fds ({[fd]} ∪ readfds) (if sockMax <? fd then fd else sockMax) else Err Segv
      else add_clients fds readfds sockMax
  end.

Definition lift {T A} (r : res A) : M (state T) A := λ s, match r with Ok a => Ok (a, s) | Err e => Err e end.

(** The slots from [i] on, [n] of them. *)
Fixpoint read_clients (readfds : gset Z) (n i : nat) : M (state (list Z)) unit :=
  match n with
  | O => mret ()
  | S n =>
      fds ← gets tab;
      match fds !! i with
      | None => fail Segv
      | Some fd =>
          (if (fd >? 0) && bool_decide (fd ∈ readfds) then
             gone ← receive fd;
             if (gone : bool) then modify (λ s, set_tab (<[i := -1]> (tab s)) s) else mret ()
           else mret ());;
          read_clients readfds n (S i)
      end
  end.

(** One round; the result tells whether the loop is left. *)
Definition select_round (sockListen : Z) : M (state (list Z)) bool :=
  fds ← gets tab;
  a ← lift (add_clients fds {[sockListen]} sockListen);
  r ← call (sys_select (a.2 + 1) a.1);
  let '(ret, readfds) := r in
  if ret <? 0 then mret true
  else if ret =? 0 then mret false
  else
    read_clients readfds BACKLOG 0;;
    (if bool_decide (sockListen ∈ readfds) then
       sockSvr ← accept sockListen;
       fds ← gets tab;
       match free_slot fds with
       | Some i => modify (set_tab (<[i := sockSvr]> fds))
       | None => mret ()
       end
     else mret ());;
    mret false.

Fixpoint select_serve (n : nat) (sockListen : Z) : M (state (list Z)) bool :=
  match n with
  | O => mret false
  | S n => b ← select_round sockListen; if (b : bool) then mret true else select_serve n sockListen
  end.

Definition select_init (k : K) : state (list Z) := mk_state (replicate BACKLOG (-1)) (replicate (Z.to_nat REVLEN) 0) 0 0 [] k.

(** ** socket/polltest.c *)
Record pollfd := mk_pollfd { pfd : Z; events : Z; revents : Z }.
Record polltab := mk_polltab { clientfd : list pollfd; sockMax : Z }.

Definition has (flags bits : Z) : bool := negb (Z.land flags bits =? 0).

(** poll sets revents of the entries it is given. *)
Definition set_revents (rs : list Z) (cs : list pollfd) : list pollfd :=
  zip_with (λ c r, mk_pollfd (pfd c) (events c) r) cs rs ++ drop (length rs) cs.

Definition poll (n : Z) : M (state polltab) Z :=
  t ← gets tab;
  r ← call (sys_poll ((λ c, (pfd c, events c)) <$> take (Z.to_nat n) (clientfd t)));
  (if r.1 <? 0 then mret () else modify (set_tab (mk_polltab (set_revents r.2 (clientfd t)) (sockMax t))));;
  mret r.1.

(** Whether there are too many connections. *)
Definition poll_accept (sockListen : Z) : M (state polltab) bool :=
  sockSvr ← accept sockListen;
  t ← gets tab;
  match free_slot (pfd <$> clientfd t) with
  | None => mret true
  | Some i =>
      modify (set_tab (mk_polltab (alter (λ c, mk_pollfd sockSvr POLLIN (revents c)) i (clientfd t))
                                  (if Z.of_nat i >? sockMax t then Z.of_nat i else sockMax t)));;
      mret false
  end.

(** The slots from [i] on, [n] of them. *)
Fixpoint poll_clients (n i : nat) : M (state polltab) unit :=
  match n with
  | O => mret ()
  | S n =>
      t ← gets tab;
      match clientfd t !! i with
      | None => fail Segv
      | Some c =>
          (if pfd c <? 0 then mret ()
           else if has (revents c) (Z.lor POLLIN POLLERR) then
             gone ← receive (pfd c);
             if (gone : bool) then
               modify (set_tab (mk_polltab (alter (λ c, mk_pollfd (-1) (events c) (revents c)) i (clientfd t)) (sockMax t)))
             else mret ()
           else mret ());;
          poll_clients n (S i)
      end
  end.

Definition poll_round (sockListen : Z) : M (state polltab) bool :=
  t ← gets tab;
  ret ← poll (sockMax t + 1);
  if ret <? 0 then mret true
  else if ret =? 0 then mret false
  else
    t ← gets tab;
    match clientfd t !! 0%nat with
    | None => fail Segv
    | Some c =>
        full ← (if has (revents c) POLLIN then poll_accept sockListen else mret false);
        if (full : bool) then mret true
        else t ← gets tab; poll_clients (Z.to_nat (sockMax t)) 1;; mret false
    end.

Fixpoint poll_serve (n : nat) (sockListen : Z) : M (state polltab) bool :=
  match n with
  | O => mret false
  | S n => b ← poll_round sockListen; if (b : bool) then mret true else poll_serve n sockListen
  end.

(** [cs]: the table before its initialisation. *)
Definition poll_init (sockListen : Z) (cs : list pollfd) (k : K) : state polltab :=
  let cs := (λ c, mk_pollfd (-1) (events c) (revents c)) <$> cs in
  mk_state (mk_polltab (alter (λ c, mk_pollfd sockListen POLLIN (revents c)) 0%nat cs) 0)
           (replicate (Z.to_nat REVLEN) 0) 0 0 [] k.
End server.

Arguments state : clear implicits.

(** ** What both servers keep *)

(** The messages of a connection. *)
Definition frames (fd : Z) (o : list shown) : arr := concat (message <$> filter (λ x, conn x = fd) o).
#[global] Arguments frames : simpl never.

Lemma frames_snoc fd o g b t : frames fd (o ++ [mk_shown g b t]) = frames fd o ++ (if bool_decide (g = fd) then b else []).
Proof.
  unfold frames. rewrite filter_app, fmap_app, concat_app. f_equal. unfold filter. cbn.
  case_decide; [rewrite bool_decide_true by done|rewrite bool_decide_false by done]; cbn; by rewrite ?app_nil_r.
Qed.

(** Each message the peers send has a NUL. *)
Definition all_terminated (K : Type) `{Net K} : Prop := ∀ (k : K) fd a b c q,
  total k fd = a ++ b ++ c → length a = (q * Z.to_nat REVLEN)%nat → Z.of_nat (length b) = REVLEN → cstr b ≠ None.

Definition overreads (K : Type) `{Net K} (e : fault) : Prop := e = Overread ∧ ¬ all_terminated K.

Section proofs.
Context {K : Type} `{Net K} `{!NetLaws K}.
Variable l : Z.
Hypothesis l_nonneg : 0 ≤ l.

(** [part]: the bytes of the next message that the buffer holds of [cur]. *)
Record core {T} (L : list Z) (cur : Z) (part : arr) (s : state K T) : Prop := {
  c_buf : Z.of_nat (length (recvBuf s)) = REVLEN;
  c_part : take (Z.to_nat (recvLen s)) (recvBuf s) = part;
  c_len : recvLen s = Z.of_nat (length part);
  c_listen : l ∈ open_fds (kern s);
  c_slot fd : fd ∈ L → fd = -1 ∨ fd ∈ open_fds (kern s);
  c_dup i j fd : L !! i = Some fd → L !! j = Some fd → fd ≠ -1 → i = j;
  c_data fd : fd ∈ L → fd ≠ -1 → fd ≠ l →
    total (kern s) fd = frames fd (out s) ++ (if bool_decide (fd = cur) then part else []) ++ stream (kern s) fd;
  c_new fd : fd ∉ open_fds (kern s) → frames fd (out s) = [];
  c_align fd : ∃ q, length (frames fd (out s)) = (q * Z.to_nat REVLEN)%nat;
  c_text : Forall (λ x, cstr (message x) = Some (text x)) (out s);
  c_count : Z.of_nat (size (open_fds (kern s))) = 1 + currentClient s }.

Lemma core_idle {T} L cur cur' (s : state K T) : core L cur [] s → core L cur' [] s.
Proof.
  intros [B P Le Li S D Da N Al Tx C]. split; try done. intros fd Hf N1 N2. rewrite (Da fd Hf N1 N2). do 2 case_bool_decide; done.
Qed.

(** A slot becomes free. *)
Lemma core_free {T} L cur part (s : state K T) i : core L cur part s → core (<[i := -1]> L) cur part s.
Proof.
  intros [B P Le Li S D Da N Al Tx C]. split; try done.
  - intros g [j Hj]%list_elem_of_lookup. apply list_lookup_insert_Some in Hj as [(-> & <- & _)|[_ Hj]]; [by left|]. apply S. by apply list_elem_of_lookup_2 in Hj.
  - intros a b g Ha Hb Ng. apply list_lookup_insert_Some in Ha as [(-> & <- & _)|[_ Ha]]; [done|].
    apply list_lookup_insert_Some in Hb as [(-> & <- & _)|[_ Hb]]; [done|]. by apply (D a b g).
  - intros g [j Hj]%list_elem_of_lookup Ng Nl. apply list_lookup_insert_Some in Hj as [(-> & <- & _)|[Nj Hj]]; [done|].
    apply Da; [by apply list_elem_of_lookup_2 in Hj|done..].
Qed.

(** A connection is given up: the bytes of the message that was not complete
    are dropped. *)
Lemma core_drop {T} L fd part (s : state K T) i : core L fd part s → L !! i = Some fd → fd ≠ -1 →
  core (<[i := -1]> L) fd [] (set_len 0 s).
Proof.
  intros Hc Hi Nf. pose proof (c_dup _ _ _ _ Hc) as D. apply (core_free _ _ _ _ i) in Hc as [B P Le Li S _ Da N Al C].
  split; cbn; try done.
  - intros a b g Ha Hb Ng. apply list_lookup_insert_Some in Ha as [(-> & <- & _)|[_ Ha]]; [done|].
    apply list_lookup_insert_Some in Hb as [(-> & <- & _)|[_ Hb]]; [done|]. by apply (D a b g).
  - intros g Hg Ng Nl. rewrite (Da g Hg Ng Nl). destruct (decide (g = fd)) as [->|Nfd]; [|by rewrite !bool_decide_false].
    apply list_elem_of_lookup in Hg as [j Hj]. apply list_lookup_insert_Some in Hj as [(-> & <- & _)|[Nj Hj]]; [done|].
    by destruct Nj; apply (D i j fd).
Qed.

(** A new connection takes a slot. *)
Lemma core_put {T} L cur (s : state K T) i fd k : core L cur [] s → fd ≠ -1 → fd ∉ open_fds (kern s) → open_fds k = {[fd]} ∪ open_fds (kern s) →
  stream k fd = total k fd → (∀ g, g ≠ fd → total k g = total (kern s) g ∧ stream k g = stream (kern s) g) →
  core (<[i := fd]> L) cur [] (mk_state (tab s) (recvBuf s) (recvLen s) (currentClient s + 1) (out s) k).
Proof.
  intros [B P Le Li S D Da N Al Tx C] Nf Hn Ho Hs Hg. assert (fd ∉ L) as HL by (intros Hx; destruct (S _ Hx); done).
  split; cbn; rewrite ?Ho; try done.
  - set_solver.
  - intros g [j Hj]%list_elem_of_lookup. apply list_lookup_insert_Some in Hj as [(-> & <- & _)|[_ Hj]]; [right; set_solver|].
    apply list_elem_of_lookup_2, S in Hj. set_solver.
  - intros a b g Ha Hb Ng. rewrite list_lookup_insert_Some in Ha, Hb.
    destruct Ha as [(<- & Ea & _)|[Na Ha]], Hb as [(<- & Eb & _)|[Nb Hb]]; subst; [done| | |by apply (D a b g)].
    + by apply list_elem_of_lookup_2 in Hb.
    + by apply list_elem_of_lookup_2 in Ha.
  - intros g [j Hj]%list_elem_of_lookup Ng Nl. assert (∀ c : bool, (if c then [] else []) = ([] : arr)) as E by (by intros []). rewrite E, app_nil_l.
    apply list_lookup_insert_Some in Hj as [(-> & <- & _)|[Nj Hj]]; [by rewrite Hs, (N fd)|].
    apply list_elem_of_lookup_2 in Hj. destruct (Hg g) as [-> ->]; [by intros ->|]. rewrite (Da g Hj Ng Nl), E. done.
  - intros g Hgo. apply N. set_solver.
  - rewrite size_union, size_singleton by set_solver. lia.
Qed.

Lemma core_tab {T} L cur part (s : state K T) t : core L cur part s → core L cur part (set_tab t s).
Proof. intros []. by split. Qed.

Lemma core_kern {T} L cur part (s : state K T) k : same (kern s) k → core L cur part s →
  core L cur part (mk_state (tab s) (recvBuf s) (recvLen s) (currentClient s) (out s) k).
Proof.
  intros [Ho Hg] [B P Le Li S D Da N Al Tx C]. split; cbn; rewrite ?Ho; try done. intros fd Hf N1 N2.
  destruct (Hg fd) as [-> ->]. by apply Da.
Qed.

(** *** Receiving *)
Lemma core_recv {T} L fd part d (s : state K T) k : core L fd part s → Z.of_nat (length part + length d) ≤ REVLEN →
  open_fds k = open_fds (kern s) → (∀ g, total k g = total (kern s) g) → (∀ g, g ≠ fd → stream k g = stream (kern s) g) →
  stream (kern s) fd = d ++ stream k fd →
  core L fd (part ++ d) (mk_state (tab s)
    (take (Z.to_nat (recvLen s)) (recvBuf s) ++ d ++ drop (Z.to_nat (recvLen s) + length d) (recvBuf s))
    (recvLen s + Z.of_nat (length d)) (currentClient s) (out s) k).
Proof.
  intros [B P Le Li S D Da N Al Tx C] Hd Ho Ht Hs Hf. split; cbn; rewrite ?Ho; try done.
  - rewrite !length_app, length_take, length_drop. lia.
  - rewrite P, app_assoc. apply take_app_length'. rewrite Le, length_app. lia.
  - rewrite length_app. lia.
  - intros g Hg Ng Nl. rewrite Ht, (Da g Hg Ng Nl). case_bool_decide as E; [subst g; by rewrite Hf, <-!app_assoc|by rewrite Hs].
Qed.

Lemma core_stop {T} L fd part (s : state K T) k : core L fd part s → open_fds k = open_fds (kern s) → (∀ g, total k g = total (kern s) g) →
  (∀ g, g ≠ fd → stream k g = stream (kern s) g) → ∀ i, L !! i = Some fd → fd ≠ -1 →
  core (<[i := -1]> L) fd [] (mk_state (tab s) (recvBuf s) 0 (currentClient s) (out s) k).
Proof.
  intros Hc Ho Ht Hs i Hi Nf. pose proof (c_dup _ _ _ _ Hc) as D. apply (core_drop _ _ _ _ i) in Hc as [B P Le Li S D' Da N Al C]; [|done..].
  split; cbn in *; rewrite ?Ho; try done. intros g Hg Ng Nl. rewrite Ht, (Da g Hg Ng Nl), Hs; [done|]. intros ->.
  apply list_elem_of_lookup in Hg as [j Hj]. apply list_lookup_insert_Some in Hj as [(-> & <- & _)|[Nj Hj]]; [done|]. by destruct Nj; apply (D i j fd).
Qed.

Lemma core_full {T} L fd part (s : state K T) : core L fd part s → Z.of_nat (length part) = REVLEN → recvBuf s = part.
Proof. intros Hc Hp. rewrite <-(c_part _ _ _ _ Hc). symmetry. apply take_ge. pose proof (c_len _ _ _ _ Hc). pose proof (c_buf _ _ _ _ Hc). lia. Qed.

Lemma core_unterminated {T} L fd part (s : state K T) : core L fd part s → Z.of_nat (length part) = REVLEN → fd ∈ L → fd ≠ -1 → fd ≠ l →
  cstr (recvBuf s) = None → overreads K Overread.
Proof.
  intros Hc Hp HL Nf Nl Hn. rewrite (core_full _ _ _ _ Hc Hp) in Hn. split; [done|]. intros Hall. destruct (c_align _ _ _ _ Hc fd) as [q Hq].
  pose proof (c_data _ _ _ _ Hc fd HL Nf Nl) as Ht. rewrite bool_decide_true in Ht by done. by destruct (Hall _ _ _ _ _ _ Ht Hq Hp).
Qed.

Lemma core_print {T} L fd part t (s : state K T) : core L fd part s → Z.of_nat (length part) = REVLEN → fd ∈ open_fds (kern s) →
  cstr (recvBuf s) = Some t → core L fd [] (set_len 0 (set_out (out s ++ [mk_shown fd (recvBuf s) t]) s)).
Proof.
  intros Hc Hp Hf Ht. pose proof (core_full _ _ _ _ Hc Hp) as Hb. destruct Hc as [B P Le Li S D Da N Al Tx C].
  split; cbn; try done.
  - intros g Hg Ng Nl. rewrite (Da g Hg Ng Nl), frames_snoc, Hb, <-app_assoc. f_equal. destruct (decide (g = fd)) as [->|Nd].
    + by rewrite !bool_decide_true.
    + by rewrite !bool_decide_false.
  - intros g Hg. rewrite frames_snoc, (N g Hg), bool_decide_false; [done|]. by intros ->.
  - intros g. destruct (Al g) as [q Hq]. rewrite frames_snoc, length_app, Hq. case_bool_decide; [exists (1 + q)%nat; rewrite Hb; lia|exists q; cbn; lia].
  - apply Forall_app. split; [done|]. by constructor.
Qed.

Lemma wp_recv {T} L fd part (s : state K T) (Q : Z → state K T → Prop) i : core L fd part s → L !! i = Some fd → fd ≠ -1 →
  Z.of_nat (length part) < REVLEN →
  (∀ r s', r ≤ 0 → tab s' = tab s → core (<[i := -1]> L) fd [] (set_len 0 s') → Q r s') →
  (∀ d s', d ≠ [] → Z.of_nat (length part + length d) ≤ REVLEN → tab s' = tab s → core L fd (part ++ d) (set_len (recvLen s + Z.of_nat (length d)) s') →
     Q (Z.of_nat (length d)) s') →
  wp (overreads K) (recv fd (REVLEN - recvLen s)) Q s.
Proof.
  intros Hc Hi Nf Hp Hend Hdata. pose proof (c_len _ _ _ _ Hc) as Le. pose proof (c_buf _ _ _ _ Hc) as B.
  assert (fd ∈ open_fds (kern s)) as Hfd by (destruct (c_slot _ _ _ _ Hc fd); [by apply list_elem_of_lookup_2 in Hi|done..]).
  unfold recv. apply wp_bind. unfold wp, call. destruct (sys_recv fd _ (kern s)) as [[r d] k] eqn:E. cbn [fst snd].
  destruct (recv_law fd (REVLEN - recvLen s) _ _ _ _ ltac:(lia) Hfd E) as (Ho & Ht & Hs & Hr). do 2 apply wp_bind, wp_gets. cbn [recvBuf recvLen].
  assert (Hd : d = [] ∧ r ≤ 0 ∨ d ≠ [] ∧ 0 < r ≤ REVLEN - recvLen s ∧ r = Z.of_nat (length d) ∧ stream (kern s) fd = d ++ stream k fd).
  { destruct Hr as [[? ->]|[(-> & -> & _)|(Hr & -> & Hd)]]; [left; split; [done|lia]..|right]. split; [|done]. intros ->. cbn in Hr. lia. }
  destruct Hd as [[-> Hr']|(Nd & Hr' & -> & Hst)]; (rewrite bool_decide_true by (cbn; lia)); apply wp_bind, wp_modify, wp_ret.
  - apply Hend; [done..|]. cbn. rewrite Nat.add_0_r, take_drop. exact (core_stop _ _ _ _ _ Hc Ho Ht Hs i Hi Nf).
  - apply Hdata; [done|lia|done|]. refine (core_recv _ _ _ _ _ _ Hc _ Ho Ht Hs Hst). lia.
Qed.

Lemma recv_loop_ok {T} L fd i fuel part (s : state K T) : core L fd part s → L !! i = Some fd → fd ≠ -1 → fd ≠ l →
  Z.of_nat (length part) < REVLEN → REVLEN - Z.of_nat (length part) < Z.of_nat fuel →
  wp (overreads K) (recv_loop fuel fd) (λ gone s', tab s' = tab s ∧ core (if gone then <[i := -1]> L else L) fd [] s') s.
Proof.
  revert part s. induction fuel as [|fuel IH]; intros part s Hc Hi Nf Nl Hp Hf; [lia|]. cbn [recv_loop].
  apply wp_bind, wp_gets, wp_bind. apply (wp_recv L fd part s _ i); [done..| |].
  - intros r s1 Hr Ht H1. destruct (Z.eqb_spec r 0) as [->|Nr]; [by apply wp_bind, wp_modify, wp_ret|].
    rewrite (proj2 (Z.ltb_lt _ _)) by lia. by apply wp_bind, wp_modify, wp_ret.
  - intros d s1 Nd Hd Ht H1. assert (0 < length d)%nat by (destruct d; [done|cbn; lia]). pose proof (c_len _ _ _ _ Hc) as Le.
    rewrite (proj2 (Z.eqb_neq _ _)), (proj2 (Z.ltb_ge _ _)) by lia. apply wp_bind, wp_modify.
    assert (fd ∈ open_fds (kern (set_len (recvLen s + Z.of_nat (length d)) s1))) as Hfd.
    { destruct (c_slot _ _ _ _ H1 fd); [by apply list_elem_of_lookup_2 in Hi|done..]. }
    destruct (Z.ltb_spec (recvLen s + Z.of_nat (length d)) REVLEN) as [Hl|Hl].
    + eapply wp_mono; [apply (IH (part ++ d)); [done..| |]; rewrite length_app; lia|]. intros g s2 [E2 H2]. split; [cbn in E2; congruence|done].
    + assert (Z.of_nat (length (part ++ d)) = REVLEN) as Hfull by (rewrite length_app; lia).
      apply wp_bind, wp_bind, wp_gets. destruct (cstr _) eqn:Ec; [|by apply (core_unterminated _ _ _ _ H1 Hfull); [apply list_elem_of_lookup_2 in Hi|..]]. apply wp_modify, wp_bind, wp_modify, wp_ret. split; [done|].
      exact (core_print _ _ _ _ _ H1 Hfull Hfd Ec).
Qed.

Lemma receive_ok {T} L fd i cur (s : state K T) : core L cur [] s → L !! i = Some fd → fd ≠ -1 → fd ≠ l →
  wp (overreads K) (receive fd) (λ gone s', tab s' = tab s ∧ core (if gone then <[i := -1]> L else L) cur [] s') s.
Proof.
  intros Hc Hi Nf Nl. unfold receive. apply wp_bind, wp_gets. pose proof (c_len _ _ _ _ Hc) as Le. rewrite Le. cbn [length Z.of_nat REVLEN Z.eqb negb].
  eapply wp_mono; [apply (recv_loop_ok L fd i _ []); [by eapply core_idle|done..]|]. intros g s1 [E H1]. split; [done|]. by eapply core_idle.
Qed.

(** *** Accepting *)
Lemma accept_ok {T} L cur (s : state K T) : core L cur [] s →
  wp (overreads K) (accept l) (λ fd s', tab s' = tab s ∧ (fd < FD_SETSIZE ∧ fd ≠ l) ∧ core L cur [] s' ∧ ∀ i t, core (<[i := fd]> L) cur [] (set_tab t s')) s.
Proof.
  intros Hc. unfold accept. apply wp_bind. unfold wp, call. destruct (sys_accept l (kern s)) as [fd k] eqn:E. cbn [fst snd].
  apply wp_bind. destruct (accept_law _ _ _ _ E) as [[-> Hs]|(Hr & Hn & Ho & Hs & Hg)].
  - rewrite Z.eqb_refl. apply wp_ret, wp_ret. split; [done|]. split; [unfold FD_SETSIZE; lia|]. pose proof (core_kern _ _ _ _ _ Hs Hc) as H1. split; [done|]. intros i t. by apply core_tab, core_free.
  - rewrite (proj2 (Z.eqb_neq _ _)) by lia. apply wp_modify, wp_ret. split; [done|].
    split; [split; [lia|]; intros E'; apply Hn; rewrite E'; by apply (c_listen _ _ _ _ Hc)|].
    pose proof (λ i, core_put L cur s i fd k Hc ltac:(lia) Hn Ho Hs Hg) as H1. split; [|intros i t; by apply core_tab, H1].
    specialize (H1 (length L)). by rewrite list_insert_ge in H1.
Qed.

(** ** selecttest.c *)
Definition select_inv (s : state K (list Z)) : Prop :=
  core (tab s) l [] s ∧ length (tab s) = BACKLOG ∧ ∀ fd, fd ∈ tab s → fd < FD_SETSIZE ∧ fd ≠ l.

Lemma add_clients_ok fds A m : (∀ fd, fd ∈ fds → fd < FD_SETSIZE) → ∃ A' m', add_clients fds A m = Ok (A', m').
Proof.
  revert A m. induction fds as [|fd fds IH]; intros A m Hf; [by eexists _, _|]. cbn. destruct (Z.gtb_spec fd 0).
  - unfold in_set. rewrite (proj2 (Z.leb_le _ _)), (proj2 (Z.ltb_lt _ _)) by (try apply Hf; set_solver || lia). cbn. apply IH. set_solver.
  - apply IH. set_solver.
Qed.

Lemma read_clients_ok W n i s : select_inv s → (i + n ≤ BACKLOG)%nat → wp (overreads K) (read_clients W n i) (λ _, select_inv) s.
Proof.
  revert i s. induction n as [|n IH]; intros i s HI Hn; [done|]. cbn [read_clients]. apply wp_bind, wp_gets.
  destruct HI as (Hc & Hl & Hr). destruct (lookup_lt_is_Some_2 (tab s) i ltac:(lia)) as [fd Hi]. rewrite Hi.
  apply (wp_seq _ _ (λ _, select_inv)); [|intros [] s1 H1; apply IH; [done|lia]].
  destruct (Z.gtb_spec fd 0); [|done]. cbn. destruct (bool_decide _); [|done].
  eapply wp_seq; [apply (receive_ok _ _ i _ _ Hc Hi); [lia|apply Hr; by apply list_elem_of_lookup_2 in Hi]|]. intros g s1 [Et H1]. destruct g.
  - apply wp_modify. unfold select_inv. cbn. rewrite Et, length_insert. split; [by apply core_tab|]. split; [done|].
    intros g [j Hj]%list_elem_of_lookup. apply list_lookup_insert_Some in Hj as [(-> & <- & _)|[_ Hj]]; [unfold FD_SETSIZE; lia|]. apply Hr. by apply list_elem_of_lookup_2 in Hj.
  - apply wp_ret. unfold select_inv. by rewrite Et.
Qed.

Lemma select_round_ok s : select_inv s → wp (overreads K) (select_round l) (λ _, select_inv) s.
Proof.
  intros HI. pose proof HI as (Hc & Hl & Hr). unfold select_round. apply wp_bind, wp_gets.
  destruct (add_clients_ok (tab s) {[l]} l (λ fd Hf, proj1 (Hr fd Hf))) as (A & m & ->). apply wp_bind. unfold wp at 1, lift. cbn [fst snd].
  apply wp_bind. unfold wp at 1, call. destruct (sys_select _ _ (kern s)) as [[r W] k] eqn:E. cbn [fst snd].
  destruct (select_law _ _ _ _ _ _ E) as [_ Hs]. pose proof (core_kern _ _ _ _ _ Hs Hc) as H1.
  destruct (r <? 0); [by apply wp_ret|]. destruct (r =? 0); [by apply wp_ret|].
  eapply wp_seq; [by apply (read_clients_ok W BACKLOG 0)|]. intros [] s2 (H2 & Hl2 & Hr2).
  apply (wp_seq _ _ (λ _, select_inv)); [|intros [] s3 H3; by apply wp_ret]. destruct (bool_decide _); [|done].
  eapply wp_seq; [by apply accept_ok|]. intros fd s3 (E3 & Hfd & H3 & Hput). apply wp_bind, wp_gets. rewrite E3.
  destruct (free_slot _) as [i|]; [|apply wp_ret; unfold select_inv; by rewrite E3]. apply wp_modify. split; [apply Hput|]. cbn. split; [by rewrite length_insert|].
  intros g [j Hj]%list_elem_of_lookup. apply list_lookup_insert_Some in Hj as [(-> & <- & _)|[_ Hj]]; [done|]. apply Hr2. by apply list_elem_of_lookup_2 in Hj.
Qed.

Lemma select_serve_ok n s : select_inv s → wp (overreads K) (select_serve n l) (λ _, select_inv) s.
Proof.
  revert s. induction n as [|n IH]; intros s HI; [done|]. cbn [select_serve].
  eapply wp_seq; [by apply select_round_ok|]. intros [|] s1 H1; [by apply wp_ret|by apply IH].
Qed.

Lemma core_init {T} (t : T) L k : open_fds k = {[l]} → (∀ fd, fd ∈ L → fd = -1 ∨ fd = l) → (∀ i j, L !! i = Some l → L !! j = Some l → i = j) →
  core L l [] (mk_state t (replicate (Z.to_nat REVLEN) 0) 0 0 [] k).
Proof.
  intros Ho HL Hd. split; cbn; rewrite ?Ho; try done; [set_solver|set_solver| |set_solver|intros fd; by exists 0%nat|by rewrite size_singleton].
  intros i j fd Hi Hj Nf. destruct (HL fd) as [|E]; [by apply list_elem_of_lookup_2 in Hi|done|]. subst fd. by apply Hd.
Qed.

Lemma select_init_ok k : open_fds k = {[l]} → select_inv (select_init k).
Proof.
  intros Ho. assert (∀ fd, fd ∈ replicate BACKLOG (-1) → fd = -1) as HL by (intros fd; by intros [-> _]%elem_of_replicate).
  split; [|split; [done|intros fd ->%HL; unfold FD_SETSIZE; lia]]. apply core_init; [done|intros fd Hf; left; by apply HL|].
  intros i j [E _]%lookup_replicate _. lia.
Qed.

(** ** polltest.c *)
Definition fds_of (t : polltab) : list Z := pfd <$> clientfd t.

Definition poll_inv (s : state K polltab) : Prop :=
  core (fds_of (tab s)) l [] s ∧ length (clientfd (tab s)) = OPEN_MAX ∧ fds_of (tab s) !! 0%nat = Some l ∧ 0 ≤ sockMax (tab s) < Z.of_nat OPEN_MAX.

Lemma pfd_alter f fd (i : nat) (cs : list pollfd) : (∀ c, pfd (f c) = fd) → pfd <$> alter f i cs = <[i := fd]> (pfd <$> cs).
Proof. intros Hf. revert i. induction cs as [|c cs IH]; intros [|i]; cbn; [done|done|by rewrite Hf|by f_equal]. Qed.

Lemma pfd_revents rs cs : (length rs ≤ length cs)%nat → pfd <$> set_revents rs cs = pfd <$> cs.
Proof.
  revert cs. induction rs as [|r rs IH]; intros [|c cs] Hl; cbn in *; [done|done|lia|].
  f_equal. apply IH. lia.
Qed.

Lemma length_fds t : length (fds_of t) = length (clientfd t).
Proof. apply length_fmap. Qed.

(** An entry other than the first is changed. *)
Lemma poll_inv_slot s i f fd m : length (clientfd (tab s)) = OPEN_MAX → fds_of (tab s) !! 0%nat = Some l → (i ≠ 0)%nat → (∀ c, pfd (f c) = fd) → 0 ≤ m < Z.of_nat OPEN_MAX →
  core (<[i := fd]> (fds_of (tab s))) l [] s → poll_inv (set_tab (mk_polltab (alter f i (clientfd (tab s))) m) s).
Proof.
  intros Hl H0 Hi Hf Hm' Hc'. unfold poll_inv, fds_of. cbn. rewrite (pfd_alter _ fd) by done.
  split; [by apply core_tab|]. split; [by rewrite length_alter|]. split; [|done]. by rewrite list_lookup_insert_ne.
Qed.

Lemma poll_ok s n : poll_inv s → wp (overreads K) (poll n) (λ _ s', poll_inv s') s.
Proof.
  intros HI. pose proof HI as (Hc & Hl & H0 & Hm). unfold poll. apply wp_bind, wp_gets, wp_bind. unfold wp at 1, call.
  destruct (sys_poll _ (kern s)) as [[r rs] k] eqn:E. cbn [fst snd]. destruct (poll_law _ _ _ _ _ E) as [Hrs Hs].
  pose proof (core_kern _ _ _ _ _ Hs Hc) as H1. apply wp_bind. destruct (r <? 0); [by apply wp_ret|]. apply wp_modify, wp_ret.
  assert (length rs ≤ length (clientfd (tab s)))%nat as Hle by (rewrite Hrs, length_fmap, length_take; lia).
  unfold poll_inv, fds_of. cbn. rewrite pfd_revents by done. split; [by apply core_tab|]. split; [|done].
  rewrite <-Hl. rewrite <-(length_fmap pfd), pfd_revents by done. apply length_fmap.
Qed.

Lemma free_slot_Some fds i : free_slot fds = Some i → ∃ fd, fds !! i = Some fd ∧ fd < 0.
Proof. unfold free_slot. intros ([j fd] & E & ->)%fmap_Some. apply list_find_Some in E as (Hj & Hf & _). by exists fd. Qed.

Lemma poll_accept_ok s : poll_inv s → wp (overreads K) (poll_accept l) (λ _ s', poll_inv s') s.
Proof.
  intros HI. pose proof HI as (Hc & Hl & H0 & Hm). unfold poll_accept. eapply wp_seq; [by apply accept_ok|].
  intros fd s1 (Et & _ & H1 & Hput). assert (poll_inv s1) as HI1 by (unfold poll_inv; by rewrite Et).
  apply wp_bind, wp_gets. destruct (free_slot _) as [i|] eqn:Ef; [|by apply wp_ret]. apply wp_bind, wp_modify, wp_ret.
  apply free_slot_Some in Ef as (v & Hi & Hv). assert (i ≠ 0)%nat as Ni by (intros ->; unfold fds_of in H0; rewrite Et in Hi; simplify_eq; lia).
  rewrite <-Et in H0, Hl. apply (poll_inv_slot _ _ _ fd); [done..| |].
  - rewrite <-Et in Hm. apply lookup_lt_Some in Hi. rewrite length_fmap, Hl in Hi. destruct (_ >? _); lia.
  - rewrite Et. pose proof (Hput i (tab s1)) as X. by destruct s1.
Qed.

Lemma poll_clients_ok n i s : poll_inv s → (i ≠ 0)%nat → (i + n ≤ OPEN_MAX)%nat → wp (overreads K) (poll_clients n i) (λ _, poll_inv) s.
Proof.
  revert i s. induction n as [|n IH]; intros i s HI Ni Hn; [done|]. cbn [poll_clients]. apply wp_bind, wp_gets.
  pose proof HI as (Hc & Hl & H0 & Hm). destruct (lookup_lt_is_Some_2 (clientfd (tab s)) i ltac:(lia)) as [c Hi]. rewrite Hi.
  apply (wp_seq _ _ (λ _, poll_inv)); [|intros [] s1 H1; apply IH; [done|lia..]].
  destruct (Z.ltb_spec (pfd c) 0) as [|Hge]; [done|]. destruct (has _ _); [|done].
  assert (fds_of (tab s) !! i = Some (pfd c)) as Hfi by (unfold fds_of; by rewrite list_lookup_fmap, Hi).
  eapply wp_seq; [apply (receive_ok _ (pfd c) i _ _ Hc Hfi); [lia|]|].
  { intros E. rewrite E in Hfi. apply Ni. apply (c_dup _ _ _ _ Hc i 0%nat l); [done..|lia]. }
  intros g s1 [Et H1]. destruct g.
  - apply wp_modify. rewrite <-Et in *. by apply (poll_inv_slot _ _ _ (-1)).
  - apply wp_ret. unfold poll_inv. by rewrite Et.
Qed.

Lemma poll_round_ok s : poll_inv s → wp (overreads K) (poll_round l) (λ _, poll_inv) s.
Proof.
  intros HI. unfold poll_round. apply wp_bind, wp_gets. eapply wp_seq; [by apply poll_ok|]. intros r s1 H1. cbn beta in H1.
  destruct (r <? 0); [by apply wp_ret|]. destruct (r =? 0); [by apply wp_ret|]. apply wp_bind, wp_gets.
  pose proof H1 as (_ & Hl & _). destruct (lookup_lt_is_Some_2 (clientfd (tab s1)) 0%nat) as [c ->]; [rewrite Hl; unfold OPEN_MAX; lia|].
  apply (wp_seq _ _ (λ _, poll_inv)); [destruct (has _ _); [by apply poll_accept_ok|by apply wp_ret]|].
  intros [|] s2 H2; [by apply wp_ret|]. apply wp_bind, wp_gets. pose proof H2 as (_ & _ & _ & Hm).
  eapply wp_seq; [apply (poll_clients_ok _ 1); [done..|lia]|]. intros [] s3 H3. by apply wp_ret.
Qed.

Lemma poll_serve_ok n s : poll_inv s → wp (overreads K) (poll_serve n l) (λ _, poll_inv) s.
Proof.
  revert s. induction n as [|n IH]; intros s HI; [done|]. cbn [poll_serve].
  eapply wp_seq; [by apply poll_round_ok|]. intros [|] s1 H1; [by apply wp_ret|by apply IH].
Qed.

Lemma poll_init_ok cs k : open_fds k = {[l]} → length cs = OPEN_MAX → poll_inv (poll_init l cs k).
Proof.
  intros Ho Hl. unfold poll_inv, poll_init, fds_of. cbn [tab clientfd sockMax]. rewrite (pfd_alter _ l) by done.
  rewrite <-list_fmap_compose, length_alter, length_fmap.
  assert (∀ i fd, <[0%nat := l]> (pfd ∘ (λ c, mk_pollfd (-1) (events c) (revents c)) <$> cs) !! i = Some fd → i = 0%nat ∧ fd = l ∨ fd = -1) as HL.
  { intros i fd. rewrite list_lookup_insert_Some, list_lookup_fmap_Some. naive_solver. }
  split; [|split; [done|split; [apply list_lookup_insert_eq; rewrite length_fmap, Hl; unfold OPEN_MAX; lia|unfold OPEN_MAX; lia]]].
  apply core_init; [done| |].
  - intros fd [i Hi]%list_elem_of_lookup. destruct (HL i fd Hi) as [[_ ->]|]; tauto.
  - intros i j Hi Hj. destruct (HL i l Hi) as [[-> _]|]; [|lia]. destruct (HL j l Hj) as [[-> _]|]; [done|lia].
Qed.
End proofs.

(** ** Properties *)

(** What both servers promise of a table of connections: each message is the
    next ten bytes its peer sent, in order, and nothing between them is lost; of
    each one the part before its first NUL is printed; no slot is shared.  All descriptors ever accepted are still open. *)
Definition msg_server_ok {K T} `{Net K} (l : Z) (fds : list Z) (s : state K T) : Prop :=
  recvLen s = 0 ∧ Z.of_nat (length (recvBuf s)) = REVLEN ∧
  (∀ i j fd, fds !! i = Some fd → fds !! j = Some fd → fd ≠ -1 → i = j) ∧
  (∀ fd, fd ∈ fds → fd ≠ -1 → fd ∈ open_fds (kern s) ∧ (fd ≠ l → total (kern s) fd = frames fd (out s) ++ stream (kern s) fd)) ∧
  Forall (λ x, cstr (message x) = Some (text x)) (out s) ∧
  Z.of_nat (size (open_fds (kern s))) = 1 + currentClient s.

Lemma core_msg_ok {K T} `{Net K} l fds cur (s : state K T) : core l fds cur [] s → msg_server_ok l fds s.
Proof.
  intros [B P Le Li S D Da N Al Tx C]. split; [done|]. split; [done|]. split; [done|]. split; [|by split]. intros fd Hf Nf.
  split; [by destruct (S fd Hf)|]. intros Nl. rewrite (Da fd Hf Nf Nl). by case_bool_decide.
Qed.

(** the server with select, run for any number of rounds with any kernel,
    stays within its buffer, its table and the set of descriptors; it reads
    behind the buffer only when a peer sends a message without NUL.  It keeps what
    [msg_server_ok] promises of the five slots of its table. *)
Theorem select_msg_server {K} `{Net K} `{!NetLaws K} n l (k : K) : 0 ≤ l → open_fds k = {[l]} →
  wp (overreads K) (select_serve n l) (λ _ s, length (tab s) = BACKLOG ∧ msg_server_ok l (tab s) s) (select_init k).
Proof.
  intros Hl Ho. eapply wp_mono; [apply select_serve_ok; [done|by apply select_init_ok]|]. intros b s (Hc & HL & _). split; [done|by eapply core_msg_ok].
Qed.

(** C23: the same of the server with poll and the 1024 entries of its table,
    whatever the table holds before it is initialised: for any number of rounds
    and any kernel it takes the messages of each connection in order, prints of
    each the part before its first NUL, stays within its buffer and its table,
    and reads behind the buffer only when a peer sends a message without NUL. *)
Theorem poll_msg_server {K} `{Net K} `{!NetLaws K} n l cs (k : K) : 0 ≤ l → open_fds k = {[l]} → length cs = OPEN_MAX →
  wp (overreads K) (poll_serve n l) (λ _ s, length (clientfd (tab s)) = OPEN_MAX ∧ msg_server_ok l (pfd <$> clientfd (tab s)) s) (poll_init l cs k).
Proof.
  intros Hl Ho Hn. eapply wp_mono; [apply poll_serve_ok; [done|by apply poll_init_ok]|]. intros b s (Hc & HL & _). split; [done|by eapply core_msg_ok].
Qed.

(** *** A network with a list of peers that connect one after the other *)
Record demo := mk_demo { d_open : gset Z; d_total : Z → arr; d_stream : Z → arr; d_peers : list arr; d_next : Z }.

Definition upd {A} (f : Z → A) (fd : Z) (a : A) : Z → A := λ g, if bool_decide (g = fd) then a else f g.

(** At most seven bytes at a time. *)
Definition demo_recv (fd n : Z) (k : demo) : Z * arr * demo :=
  let d := take (Z.to_nat (Z.min n 7)) (d_stream k fd) in
  (Z.of_nat (length d), d, mk_demo (d_open k) (d_total k) (upd (d_stream k) fd (drop (length d) (d_stream k fd))) (d_peers k) (d_next k)).

Definition demo_accept (l : Z) (k : demo) : Z * demo :=
  match d_peers k with
  | p :: ps =>
      let fd := d_next k in
      if bool_decide (0 ≤ fd < FD_SETSIZE ∧ fd ∉ d_open k) then
        (fd, mk_demo ({[fd]} ∪ d_open k) (upd (d_total k) fd p) (upd (d_stream k) fd p) ps (fd + 1))
      else (-1, k)
  | [] => (-1, k)
  end.

#[export] Instance demo_net : Net demo := {
  open_fds := d_open; total := d_total; stream := d_stream;
  sys_recv := demo_recv; sys_accept := demo_accept;
  sys_select n A k := (1, match d_peers k with [] => A ∖ {[3]} | _ => A end, k);
  sys_poll ps k := (1, (λ p, match d_peers k with [] => if bool_decide (p.1 = 3) then 0 else POLLIN | _ => POLLIN end) <$> ps, k) }.

Lemma take_drop_length {A} m (s : list A) : s = take m s ++ drop (length (take m s)) s.
Proof. revert s. induction m as [|m IH]; intros [|x s]; cbn; [done..|by rewrite <-IH]. Qed.

#[export] Instance demo_laws : NetLaws demo.
Proof.
  split; cbn.
  - intros fd n k r d k' Hn _ [= <- <- <-]. cbn. split; [done|]. split; [done|]. split; [intros g Hg; unfold upd; by rewrite bool_decide_false|].
    unfold upd. rewrite bool_decide_true by done. destruct (d_stream k fd) as [|x st] eqn:E; [right; left; by rewrite take_nil|]. right. right.
    rewrite <-E at 1 2. split; [rewrite length_take, E; cbn [length]; lia|]. split; [done|]. apply take_drop_length.
  - intros l k fd k'. unfold demo_accept. destruct (d_peers k) as [|p ps]; [intros [= <- <-]; by left|].
    case_bool_decide as Hd; intros [= <- <-]; [right|by left]. destruct Hd as [Hr Hn]. cbn. unfold upd. rewrite bool_decide_true by done.
    split; [done|]. split; [done|]. split; [done|]. split; [done|]. intros g Hg. by rewrite bool_decide_false.
  - intros n A k r W k' [= <- <- <-]. split; [|done]. destruct (d_peers k); set_solver.
  - intros ps k r rs k' [= <- <- <-]. split; [by rewrite length_fmap|done].
Qed.

Definition hello : arr := [104; 101; 108; 108; 111; 0; 0; 0; 0; 0].
Definition world : arr := [119; 111; 114; 108; 100; 33; 0; 0; 0; 0].
Definition demo_start : demo := mk_demo {[3]} (λ _, []) (λ _, []) [hello ++ world; world ++ [1; 2; 3]] 4.

(** Two messages of the first peer, one of the second, whose rest is dropped. *)
Definition demo_out : list shown :=
  [mk_shown 4 hello (take 5 hello); mk_shown 4 world (take 6 world); mk_shown 5 world (take 6 world)].

Lemma select_msg_server_witness : open_fds demo_start = {[3]} ∧
  match select_serve 6 3 (select_init demo_start) with
  | Ok (_, s) => out s = demo_out ∧ currentClient s = 2 ∧ length (tab s) = BACKLOG ∧ msg_server_ok 3 (tab s) s
  | Err _ => False
  end.
Proof.
  split; [reflexivity|]. pose proof (select_msg_server 6 3 demo_start ltac:(lia) eq_refl) as HT. unfold wp in HT.
  assert (match select_serve 6 3 (select_init demo_start) with Ok (_, s) => Some (out s, currentClient s) | _ => None end = Some (demo_out, 2)) as Hok by (vm_compute; reflexivity).
  destruct (select_serve 6 3 (select_init demo_start)) as [[b s]|e]; [|done]. apply (inj Some) in Hok. by injection Hok.
Defined.

Lemma poll_msg_server_witness : open_fds demo_start = {[3]} ∧
  match poll_serve 6 3 (poll_init 3 (replicate OPEN_MAX (mk_pollfd 0 0 0)) demo_start) with
  | Ok (_, s) => out s = demo_out ∧ currentClient s = 2 ∧ length (clientfd (tab s)) = OPEN_MAX ∧ msg_server_ok 3 (pfd <$> clientfd (tab s)) s
  | Err _ => False
  end.
Proof.
  split; [reflexivity|].
  pose proof (poll_msg_server 6 3 (replicate OPEN_MAX (mk_pollfd 0 0 0)) demo_start ltac:(lia) eq_refl ltac:(apply length_replicate)) as HT. unfold wp in HT.
  assert (match poll_serve 6 3 (poll_init 3 (replicate OPEN_MAX (mk_pollfd 0 0 0)) demo_start) with Ok (_, s) => Some (out s, currentClient s) | _ => None end
          = Some (demo_out, 2)) as Hok by (vm_compute; reflexivity).
  destruct (poll_serve _ _ _) as [[b s]|e]; [|done]. apply (inj Some) in Hok. by injection Hok.
Defined.
