(* ===== verification/NetStatus.v ===== *)
(** * The client that measures the delays of the stations
    (socket/libevent/client/client.c, ping.c)

    Every five minutes the client reads the list of stations, asks the gateway
    for their addresses and measures the delay of each with echo requests of
    three sizes.  Sockets and clock are parameters ([Station], [PingNet]), the
    JSON texts are those of Dhcp.v.  Messages to the log are not modelled,
    except that those of [set_noblock] and [set_blocking] lack an argument:
    after an error they read what is not there.  The options that set the time
    limits of the socket are left out. *)
From Stdlib Require Import String SpecFloat.
From S2P Require Import Prelude CArr CBuf CInt CDouble Hoare Hosts Json JsonLib Ping Dhcp HttpClient CDec.

(** ** The system *)
Class Station (K : Type) := {
  st_socket : K → Z * K;
  st_getfl : Z → K → Z * K;
  st_setfl : Z → Z → K → Z * K;
  (** The result, and whether the error is EINPROGRESS. *)
  st_connect : Z → arr → Z → K → Z * bool * K;
  (** The result, and whether the socket is in the set (for a positive one) or
      the error is EINTR (for a negative one). *)
  st_select : Z → K → Z * bool * K;
  st_soerror : Z → K → Z * K;
  st_send : Z → arr → K → K;
  st_read : Z → Z → K → Z * arr * K;
  st_close : Z → K → K }.

Definition O_NONBLOCK : Z := 2048.
Definition PORT : Z := 3901.
Definition GATEWAY : arr := chars "127.0.0.1".
Definition DHCPLEASE : arr := chars "/dhcplease".
Definition ANSWER_SIZE : Z := 4096.
Definition RESULTS : Z := 64.

(** ** client.c: the connection *)
Section connection.
Context {K : Type} `{!Station K}.

Definition set_noblock (fd : Z) : M K Z :=
  f ← sys (st_getfl fd);
  ret ← sys (st_setfl fd (Z.lor f O_NONBLOCK));
  if ret =? -1 then fail Segv else mret 0.

Definition set_blocking (fd : Z) : M K Z :=
  f ← sys (st_getfl fd);
  ret ← sys (st_setfl fd (Z.land f (Z.lnot O_NONBLOCK)));
  if ret =? -1 then fail Segv else mret 0.

(** [ret] is the result of connect. *)
Fixpoint wait_loop (fuel : nat) (fd ret : Z) : M K Z :=
  match fuel with
  | O => fail Fuel
  | S fuel =>
      r ← sys (st_select fd);
      let '(res, flag) := r in
      if res <? 0 then (if (ret =? -1) && flag then wait_loop fuel fd ret else mret (-1))
      else if res =? 0 then mret (-1)
      else if (flag : bool) then err ← sys (st_soerror fd); mret (if err =? 0 then 0 else -1)
      else mret (-1)
  end.

(** A connection that is there at once is not taken. *)
Definition connect_to_server (fuel : nat) (fd : Z) (ipaddr : arr) (port : Z) : M K Z :=
  b ← set_noblock fd;
  (if b =? 0 then mret 0 else set_noblock fd);;
  r ← sys (st_connect fd ipaddr port);
  let '(ret, inprogress) := r in
  v ← (if ret =? 0 then mret (-1)
       else if negb inprogress then mret (-1)
       else if (0 <=? fd) && (fd <? 1024) then wait_loop fuel fd ret
       else fail Segv);
  b ← set_blocking fd;
  (if b =? 0 then mret 0 else set_blocking fd);;
  mret v.

(** [do ... while (count++ < 2)]: the socket, if there is one, and the counter. *)
Fixpoint connect_loop (fuel rounds : nat) (count : Z) (ipaddr : arr) (port : Z) : M K (option (Z * Z)) :=
  match rounds with
  | O => fail Fuel
  | S rounds =>
      sock ← sys st_socket;
      if sock =? -1 then mret None
      else
        c ← connect_to_server fuel sock ipaddr port;
        if c =? 0 then mret (Some (sock, count))
        else
          modify (st_close sock);;
          if count <? 2 then connect_loop fuel rounds (count + 1) ipaddr port else mret (Some (sock, count + 1))
  end.

Definition form_http_header (ua host url : arr) (content_length : Z) : res arr :=
  let header := chars "POST " ++ url ++ chars " HTTP/1.1" ++ CRLF ++ chars "User-Agent: " ++ ua ++ CRLF ++
    chars "Host: " ++ host ++ CRLF ++ chars "Pragma: no-cache" ++ CRLF ++ chars "Content-Type: application/json" ++ CRLF ++
    chars "Content-Length: " ++ dec content_length ++ [NL] ++ CRLF in
  if fits HEADER_SIZE header then Ok header else Err Segv.

(** The result, and the buffer [resp] of the caller. *)
Definition send_request (fuel : nat) (ipaddr : arr) (port : Z) (url content resp : arr) : M K (Z * arr) :=
  c ← connect_loop fuel 3 0 ipaddr port;
  match c with
  | None => mret (-1, resp)
  | Some (sock, count) =>
      if count >? 2 then mret (-2, resp)
      else
        header ← lift (form_http_header (chars "MagicWiFi") ipaddr url (Z.of_nat (length content)));
        modify (st_send sock (until_nul (header ++ content)));;
        r ← sys (st_read sock ANSWER_SIZE);
        let '(resp_len, bytes) := r in
        response ← lift (write_at 0 bytes (replicate (Z.to_nat ANSWER_SIZE) 0));
        match cstr response with
        | None => fail Overread
        | Some s =>
            resp ← (if bool_decide (s = []) then mret resp
                    else if resp_len <? 0 then fail Segv
                    else lift (write_at 0 (take (Z.to_nat resp_len) response) resp));
            modify (st_close sock);;
            mret (0, resp)
        end
  end.
End connection.

(** ** ping.c *)
Record icmp_result := mk_icmp { ir_length : Z; ir_avg : double; ir_min : double; ir_max : double }.

Definition no_result : icmp_result := mk_icmp 0 (dZ 0) (dZ 0) (dZ 0).

Section delay.
Context {K : Type} `{!PingNet K}.

Definition sendping (dest optlen : Z) : M K double :=
  sock ← create_icmp_socket;
  rtt ← ping_once optlen sock dest;
  modify (pn_close sock);;
  mret rtt.

(** [n] more requests, the next of them number [j]: the number of failures, and
    sum, minimum and maximum unless there were too many. *)
Fixpoint test_loop (n j : nat) (dest optlen fail_cnt : Z) (sum min max : double) : M K (Z * option (double * double * double)) :=
  match n with
  | O => mret (fail_cnt, Some (sum, min, max))
  | S n =>
      v ← sendping dest optlen;
      if fail_cnt >? 5 then mret (fail_cnt, None)
      else
        let fail_cnt := if SFltb v (dZ 0) then fail_cnt + 1 else fail_cnt in
        let sum := dadd sum v in
        let max' := if (0 <? j)%nat then (if SFltb max v then v else max) else v in
        let min' := if (0 <? j)%nat then (if SFltb v min then v else min) else v in
        test_loop n (S j) dest optlen fail_cnt sum min' max'
  end.

(** The sizes that are sent, and those that are reported. *)
Definition sizes : list (Z * Z) := [(0, 0); (64, 64); (192, 128)].

Fixpoint sizes_loop (ss : list (Z * Z)) (dest fail_cnt : Z) (min max : double) : M K (list icmp_result) :=
  match ss with
  | [] => mret []
  | (optlen, len) :: ss' =>
      r ← test_loop TEST_NUM 0 dest optlen fail_cnt (dZ 0) min max;
      match r.2 with
      | None => mret (replicate (length ss) no_result)
      | Some (sum, min, max) =>
          rest ← sizes_loop ss' dest r.1 min max;
          mret (mk_icmp len (ddiv sum (dZ (Z.of_nat TEST_NUM))) min max :: rest)
      end
  end.

Definition network_delay (host : arr) : M K (list icmp_result) := sizes_loop sizes (init_dest host) 0 (dZ 0) (dZ 0).
End delay.

(** ** client.c: one measurement *)
Section status.
Context {K : Type} `{!PingNet K} `{!Station K} {J : Type} `{JsonC J} `{JsonBuild J}.

(** Entries from [i] on, [n] of them. *)
Fixpoint delays (n : nat) (i : Z) (p : dhcp_pair) : M K (list (list icmp_result)) :=
  match n with
  | O => mret []
  | S n =>
      d ← lift (slot (value p) i);
      if i <? RESULTS then
        r ← network_delay (ip d);
        rs ← delays n (i + 1) p;
        mret (r :: rs)
      else fail Segv
  end.

(** [file]: the list of stations. *)
Definition network_status (fuel : nat) (file : option arr) : M K (dhcp_pair * list (list icmp_result)) :=
  r ← lift (read_wlan_client file zero_pair);
  let pair := r.2 in
  json ← lift (form_request_json pair);
  r ← send_request fuel GATEWAY PORT DHCPLEASE json (replicate (Z.to_nat ANSWER_SIZE) 0);
  response ← lift (match cstr r.2 with Some s => Ok s | None => Err Overread end);
  r ← lift (take_response response pair);
  let pair := r.2 in
  ret ← delays (Z.to_nat (pair_length pair)) 0 pair;
  mret (pair, ret).

(** [n] rounds of the main loop; [file] may change between them. *)
Fixpoint main_loop (n fuel : nat) (file : nat → option arr) : M K (list (list (list icmp_result))) :=
  match n with
  | O => mret []
  | S n => r ← network_status fuel (file n); rs ← main_loop n fuel file; mret (r.2 :: rs)
  end.
End status.

(** ** The list of stations *)

(** A line: a word, the MAC address and more. *)
Record station := mk_station { s_name : arr; s_mac : arr; s_rest : arr }.

Definition station_line (s : station) : arr := s_name s ++ SPACE :: s_mac s ++ s_rest s ++ [NL].

Record station_ok (s : station) : Prop := {
  sk_name : is_word (s_name s) ∧ no_nul (s_name s) ∧ NL ∉ s_name s;
  sk_mac : is_word (s_mac s) ∧ text_fits MAC_LENGTH (s_mac s) ∧ NL ∉ s_mac s;
  sk_rest : no_nul (s_rest s) ∧ NL ∉ s_rest s ∧ match s_rest s with [] => True | c :: _ => isspace c = true end;
  sk_length : (length (station_line s) ≤ BUFF_SIZE - 1)%nat }.

Lemma fgets_line n l f : NL ∉ l → (length l < n)%nat → fgets n (l ++ NL :: f) = (l ++ [NL], f).
Proof.
  revert n. induction l as [|c l IH]; intros [|n] Hl Hn; cbn [app fgets length] in *; try lia.
  - by rewrite Z.eqb_refl.
  - apply not_elem_of_cons in Hl as [Hc Hl]. rewrite (proj2 (Z.eqb_neq c NL)), (IH n) by (done || lia). done.
Qed.

Lemma scan_station_ok m s : station_ok s → scan_station m (station_line s) = Ok (s_mac s).
Proof.
  intros [(W1 & _ & _) (W2 & [_ F2] & _) (_ & _ & R3) _]. unfold scan_station, station_line.
  rewrite scan_word_ok by done. rewrite scan_word_space by done. rewrite scan_word_ok.
  - by apply Is_true_true in F2 as ->.
  - done.
  - destruct (s_rest s); [done|exact R3].
Qed.

Lemma station_line_split s : station_line s = (s_name s ++ SPACE :: s_mac s ++ s_rest s) ++ [NL].
Proof. unfold station_line. flat. Qed.

Lemma station_line_nl s f : station_ok s → fgets (BUFF_SIZE - 1) (station_line s ++ f) = (station_line s, f) ∧ no_nul (station_line s).
Proof.
  intros [(W1 & Z1 & N1) (W2 & [A2 _] & N2) (Z3 & N3 & _) L]. apply ascii_no_nul in A2. split.
  - rewrite station_line_split in *. rewrite length_app in L. cbn [length] in L. rewrite <-app_assoc. cbn [app]. apply fgets_line; [|lia].
    rewrite elem_of_app, elem_of_cons, elem_of_app. unfold SPACE, NL in *. intros [|[|[|]]]; done.
  - unfold station_line, no_nul in *. rewrite Forall_app, Forall_cons, !Forall_app. repeat split; try done. by constructor.
Qed.

Lemma stations_loop_ok ss fuel pre rest m q : Forall station_ok ss → (length ss < fuel)%nat → (length ss ≤ length rest)%nat →
  stations_loop fuel (Z.of_nat (length pre)) m (mjoin (station_line <$> ss)) (mk_pair (ap_mac q) (cmd q) (pre ++ rest) (Z.of_nat (length pre))) =
    Ok ((), mk_pair (ap_mac q) (cmd q) (pre ++ fill (λ s b, mk_dhcp (s_mac s) (ip b)) ss rest) (Z.of_nat (length pre + length ss))).
Proof.
  intros Hs. revert fuel pre rest m. induction Hs as [|s ss Hs Hss IH]; intros fuel pre rest m Hf Hr; (destruct fuel as [|fuel]; [cbn in Hf; lia|]).
  - cbn [stations_loop fmap list_fmap mjoin list_join length]. rewrite Nat.add_0_r. done.
  - change (mjoin (station_line <$> s :: ss)) with (station_line s ++ mjoin (station_line <$> ss)).
    destruct (station_line_nl s (mjoin (station_line <$> ss)) Hs) as [Eg Hz]. cbn [stations_loop]. rewrite Eg, (until_nul_id _ Hz).
    assert (∃ c l, station_line s ++ mjoin (station_line <$> ss) = c :: l) as (c & l & ->).
    { unfold station_line. destruct (s_name s); cbn; eauto. }
    rewrite (scan_station_ok m s Hs). erewrite bind_ok by reflexivity.
    destruct rest as [|b rest]; [cbn in Hr; lia|].
    pose proof (on_value_at (length pre) (put_mac (Some (s_mac s))) (pre ++ b :: rest) (mk_pair (ap_mac q) (cmd q) [] (Z.of_nat (length pre)))) as Ev.
    rewrite list_lookup_middle in Ev by done. unfold put_mac in Ev at 2. destruct Hs as [_ (_ & [_ F] & _) _ _]. rewrite (snprintf_fits _ _ F) in Ev.
    rewrite (bind_ok _ _ _ _ _ Ev). erewrite bind_ok by reflexivity. cbn [set_value set_length ap_mac cmd value].
    rewrite insert_app_r_alt, Nat.sub_diag by lia. cbn [insert list_insert].
    specialize (IH fuel (pre ++ [mk_dhcp (s_mac s) (ip b)]) rest (s_mac s) ltac:(cbn in Hf; lia) ltac:(cbn in Hr; lia)).
    rewrite length_app, Nat2Z.inj_add in IH. change (Z.of_nat (length [mk_dhcp (s_mac s) (ip b)])) with 1 in IH. rewrite <-!app_assoc in IH.
    cbn [app] in IH. unfold set_length, set_value. cbn [ap_mac cmd value].
    rewrite IH. replace (length pre + length (s :: ss))%nat with (length pre + 1 + length ss)%nat by (cbn [length]; lia). done.
Qed.

(** ** What the system may do *)

(** Waiting is interrupted by a signal only so often, and read returns the
    number of the bytes it has stored, or a negative one. *)
Record station_laws (K : Type) `{!Station K} (interrupts : K → nat) : Prop := {
  sl_select fd k : (st_select fd k).1.1 < 0 → (st_select fd k).1.2 = true → (interrupts (st_select fd k).2 < interrupts k)%nat;
  sl_read fd n k : 0 ≤ n → (st_read fd n k).1.1 < 0 ∧ (st_read fd n k).1.2 = [] ∨
    (st_read fd n k).1.1 = Z.of_nat (length (st_read fd n k).1.2) ∧ (st_read fd n k).1.1 ≤ n }.

(** A system in which fcntl may fail or a descriptor not fit in a set. *)
Definition misfit (K : Type) `{!Station K} : Prop :=
  (∃ fd fl (k : K), (st_setfl fd fl k).1 = -1) ∨ (∃ k : K, (st_socket k).1 ≠ -1 ∧ ¬ 0 ≤ (st_socket k).1 < 1024).

(** A system in which the connection to the gateway is made in the background. *)
Record connects (K : Type) `{!Station K} : Prop := {
  co_socket k : 0 ≤ (st_socket k).1 < 1024;
  co_setfl fd fl k : (st_setfl fd fl k).1 ≠ -1;
  co_connect fd a port k : (st_connect fd a port k).1 = (-1, true);
  co_select fd k : (st_select fd k).1 = (1, true) ∨ (st_select fd k).1 = (-1, true);
  co_soerror fd k : (st_soerror fd k).1 = 0 }.

Definition faults (B : Prop) (e : fault) : Prop := e = Segv ∧ B.

Lemma sys_ok {K R} (g : K → R * K) k : sys g k = Ok ((g k).1, (g k).2).
Proof. unfold sys. by destruct (g k). Qed.

Lemma wp_sys {K R} E (g : K → R * K) Q k : Q (g k).1 (g k).2 → wp E (sys g) Q k.
Proof. apply wp_ok, sys_ok. Qed.

Section connection_laws.
Context {K : Type} `{!Station K} (interrupts : K → nat) (Hlaw : station_laws K interrupts).
Context (fuel : nat) (Hi : ∀ k, (interrupts k < fuel)%nat).

Notation may_fail := (wp (faults (misfit K))).

Lemma set_noblock_wp fd k : may_fail (set_noblock fd) (λ v _, v = 0) k.
Proof.
  apply wp_bind, wp_sys, wp_bind, wp_sys. destruct (Z.eqb_spec (st_setfl fd (Z.lor (st_getfl fd k).1 O_NONBLOCK) (st_getfl fd k).2).1 (-1)) as [E|_].
  - apply wp_fail. split; [done|]. left. eauto.
  - by apply wp_ret.
Qed.

Lemma set_blocking_wp fd k : may_fail (set_blocking fd) (λ v _, v = 0) k.
Proof.
  apply wp_bind, wp_sys, wp_bind, wp_sys.
  destruct (Z.eqb_spec (st_setfl fd (Z.land (st_getfl fd k).1 (Z.lnot O_NONBLOCK)) (st_getfl fd k).2).1 (-1)) as [E|_].
  - apply wp_fail. split; [done|]. left. eauto.
  - by apply wp_ret.
Qed.

Lemma wait_loop_wp n fd ret k : (interrupts k < n)%nat → may_fail (wait_loop n fd ret) (λ _ _, True) k.
Proof.
  revert k. induction n as [|n IH]; intros k Hk; [lia|]. cbn [wait_loop]. apply wp_bind, wp_sys. pose proof (sl_select _ _ Hlaw fd k) as Hs.
  destruct (st_select fd k) as [[r flag] k1]. cbn [fst snd] in *. destruct (Z.ltb_spec r 0).
  - destruct flag; [|by rewrite andb_false_r]. destruct (ret =? -1); cbn [andb]; [apply IH; specialize (Hs ltac:(done) eq_refl); lia|done].
  - destruct (r =? 0); [done|]. destruct flag; [|done]. apply wp_bind, wp_sys. done.
Qed.

Lemma connect_wp fd a port k : (¬ 0 ≤ fd < 1024 → misfit K) → may_fail (connect_to_server fuel fd a port) (λ _ _, True) k.
Proof.
  intros Hfd. unfold connect_to_server. eapply wp_seq; [apply set_noblock_wp|]. intros b k1 ->. apply wp_bind, wp_ret, wp_bind, wp_sys.
  destruct (st_connect fd a port k1) as [[ret pr] k2]. cbn [fst snd].
  assert (may_fail (if ret =? 0 then mret (-1) else if negb pr then mret (-1) else if (0 <=? fd) && (fd <? 1024) then wait_loop fuel fd ret else fail Segv)
    (λ _ _, True) k2) as Hw.
  { destruct (ret =? 0); [done|]. destruct pr; [|done]. cbn [negb]. destruct (Z.leb_spec 0 fd), (Z.ltb_spec fd 1024); cbn [andb];
      [by apply wait_loop_wp|apply wp_fail; split; [done|apply Hfd; lia]..]. }
  eapply wp_seq; [exact Hw|]. intros v k3 _. eapply wp_seq; [apply set_blocking_wp|]. intros b k4 ->. by apply wp_bind, wp_ret, wp_ret.
Qed.

Lemma connect_loop_wp rounds count a port k : 0 ≤ count ≤ 2 → 2 - count < Z.of_nat rounds →
  may_fail (connect_loop fuel rounds count a port) (λ _ _, True) k.
Proof.
  revert count k. induction rounds as [|rounds IH]; intros count k Hc Hr; [lia|]. cbn [connect_loop]. apply wp_bind, wp_sys.
  destruct (Z.eqb_spec (st_socket k).1 (-1)) as [_|Hs]; [done|]. eapply wp_seq; [apply connect_wp; intros; right; eauto|].
  intros c k1 _. destruct (c =? 0); [done|]. apply wp_bind, wp_modify. destruct (Z.ltb_spec count 2); [apply IH; lia|done].
Qed.

(** The connection is made, however often waiting for it is interrupted. *)
Lemma wait_loop_ok n fd k : connects K → (interrupts k < n)%nat → ∃ k', wait_loop n fd (-1) k = Ok (0, k').
Proof.
  intros Hco. revert k. induction n as [|n IH]; intros k Hk; [lia|]. cbn [wait_loop]. rewrite (bind_ok _ _ _ _ _ (sys_ok _ k)).
  destruct (co_select _ Hco fd k) as [E|E]; pose proof (sl_select _ _ Hlaw fd k) as Hs; rewrite E in *; cbn.
  - rewrite (bind_ok _ _ _ _ _ (sys_ok _ _)), (co_soerror _ Hco). by eexists.
  - apply IH. specialize (Hs ltac:(done) eq_refl). lia.
Qed.

Lemma set_noblock_ok fd k : connects K → ∃ k', set_noblock fd k = Ok (0, k').
Proof.
  intros Hco. unfold set_noblock. rewrite (bind_ok _ _ _ _ _ (sys_ok _ k)). set (k1 := (st_getfl fd k).2).
  rewrite (bind_ok _ _ _ _ _ (sys_ok _ k1)), (proj2 (Z.eqb_neq _ _)); [by eexists|]. apply (co_setfl _ Hco).
Qed.

Lemma set_blocking_ok fd k : connects K → ∃ k', set_blocking fd k = Ok (0, k').
Proof.
  intros Hco. unfold set_blocking. rewrite (bind_ok _ _ _ _ _ (sys_ok _ k)). set (k1 := (st_getfl fd k).2).
  rewrite (bind_ok _ _ _ _ _ (sys_ok _ k1)), (proj2 (Z.eqb_neq _ _)); [by eexists|]. apply (co_setfl _ Hco).
Qed.

Lemma connect_to_server_ok fd a port k : connects K → 0 ≤ fd < 1024 → ∃ k', connect_to_server fuel fd a port k = Ok (0, k').
Proof.
  intros Hco Hfd. unfold connect_to_server. destruct (set_noblock_ok fd k Hco) as [k1 E1]. run E1. cbn [Z.eqb]. erewrite bind_ok by reflexivity.
  rewrite (bind_ok _ _ _ _ _ (sys_ok _ k1)), (co_connect _ Hco). cbn [Z.eqb negb].
  rewrite (proj2 (Z.leb_le _ _)), (proj2 (Z.ltb_lt _ _)) by lia. cbn [andb].
  destruct (wait_loop_ok fuel fd (st_connect fd a port k1).2 Hco (Hi _)) as [k2 E2]. rewrite (bind_ok _ _ _ _ _ E2).
  destruct (set_blocking_ok fd k2 Hco) as [k3 E3]. rewrite (bind_ok _ _ _ _ _ E3). by eexists.
Qed.

Lemma connect_loop_ok rounds count a port k : connects K → ∃ sock k', connect_loop fuel (S rounds) count a port k = Ok (Some (sock, count), k').
Proof.
  intros Hco. cbn [connect_loop]. rewrite (bind_ok _ _ _ _ _ (sys_ok _ k)). pose proof (co_socket _ Hco k) as Hs.
  rewrite (proj2 (Z.eqb_neq _ _)) by lia.
  destruct (connect_to_server_ok (st_socket k).1 a port (st_socket k).2 Hco Hs) as [k1 E1]. rewrite (bind_ok _ _ _ _ _ E1). by eexists _, _.
Qed.

(** What is read after a request, as a string in a buffer of zeros. *)
Definition padded (bytes : arr) : arr := bytes ++ replicate (Z.to_nat ANSWER_SIZE - length bytes) 0.

(** The request is sent as a whole, and the caller's buffer holds the string
    that was read, or remains empty. *)
Lemma station_request_ok a port url content header k : no_nul (header ++ content) →
  form_http_header (chars "MagicWiFi") a url (Z.of_nat (length content)) = Ok header →
  let zs := replicate (Z.to_nat ANSWER_SIZE) 0 in
  match connect_loop fuel 3 0 a port k with
  | Err e => send_request fuel a port url content zs k = Err e
  | Ok (None, k1) => send_request fuel a port url content zs k = Ok ((-1, zs), k1)
  | Ok (Some (sock, count), k1) =>
      if count >? 2 then send_request fuel a port url content zs k = Ok ((-2, zs), k1)
      else
        let '(_, bytes, k2) := st_read sock ANSWER_SIZE (st_send sock (header ++ content) k1) in
        match cstr (padded bytes) with
        | None => send_request fuel a port url content zs k = Err Overread
        | Some text => ∃ resp, send_request fuel a port url content zs k = Ok ((0, resp), st_close sock k2) ∧ cstr resp = Some text
        end
  end.
Proof.
  intros Hnul Eh zs. unfold send_request. destruct (connect_loop fuel 3 0 a port k) as [[[[sock count]|] k1]|e] eqn:Ec;
    [rewrite (bind_ok _ _ _ _ _ Ec)|rewrite (bind_ok _ _ _ _ _ Ec); done|by rewrite (bind_err _ _ _ _ Ec)].
  destruct (count >? 2); [done|]. rewrite Eh. do 2 erewrite bind_ok by reflexivity. rewrite (until_nul_id _ Hnul).
  set (k1' := st_send _ _ _). rewrite (bind_ok _ _ _ _ _ (sys_ok _ _)). pose proof (sl_read _ _ Hlaw sock ANSWER_SIZE k1' ltac:(done)) as Hr.
  destruct (st_read sock ANSWER_SIZE k1') as [[n bytes] k2]. cbn [fst snd] in *.
  assert (length bytes ≤ Z.to_nat ANSWER_SIZE)%nat as Hb by (destruct Hr as [[_ ->]|Hr]; [cbn; lia|lia]).
  pose proof (write_at_app [] zs) as Ew. cbn [length app] in Ew. change (Z.of_nat 0) with 0 in Ew.
  assert (bytes ++ drop (length bytes) zs = padded bytes) as Ed by (unfold zs; by rewrite drop_replicate).
  fold zs. rewrite Ew, Ed by (unfold zs; by rewrite length_replicate). erewrite bind_ok by reflexivity.
  destruct (cstr (padded bytes)) as [s|] eqn:Es; [|done]. case_bool_decide as Hs.
  - do 2 erewrite bind_ok by reflexivity. eexists. split; [done|]. by rewrite Hs.
  - destruct Hr as [[_ ->]|[-> Hl]]; [by destruct Hs; vm_compute in Es; injection Es as <-|]. rewrite (proj2 (Z.ltb_ge _ _)) by lia.
    assert (take (length bytes) (padded bytes) = bytes) as Et by apply take_app_length.
    rewrite Nat2Z.id, Et, Ew, Ed by (unfold zs; by rewrite length_replicate). do 2 erewrite bind_ok by reflexivity. by eexists.
Qed.
End connection_laws.

(** *** The header *)
Definition head_text : arr := Eval vm_compute in
  chars "POST " ++ DHCPLEASE ++ chars " HTTP/1.1" ++ CRLF ++ chars "User-Agent: " ++ chars "MagicWiFi" ++ CRLF ++
  chars "Host: " ++ GATEWAY ++ CRLF ++ chars "Pragma: no-cache" ++ CRLF ++ chars "Content-Type: application/json" ++ CRLF ++
  chars "Content-Length: ".

Definition http_header (n : Z) : arr := head_text ++ dec n ++ [NL; 13; 10].

Lemma form_http_header_ok n : 0 ≤ n < 2 ^ 31 → form_http_header (chars "MagicWiFi") GATEWAY DHCPLEASE n = Ok (http_header n) ∧ no_nul (http_header n).
Proof.
  intros Hn. change (form_http_header (chars "MagicWiFi") GATEWAY DHCPLEASE n) with (if fits HEADER_SIZE (http_header n) then Ok (http_header n) else Err Segv).
  pose proof (dec_length_pow n 10 ltac:(lia) ltac:(lia)) as Hd. split.
  - assert (fits HEADER_SIZE (http_header n) = true) as ->; [|done]. apply Z.ltb_lt. unfold http_header. rewrite !length_app.
    change (length head_text) with 132%nat. change (length [NL; 13; 10]) with 3%nat. unfold HEADER_SIZE. lia.
  - unfold http_header, no_nul. rewrite !Forall_app. split; [|split].
    + apply (bool_decide_unpack _). vm_compute. exact I.
    + destruct (atoi_dec n) as [Hg _]; [lia|]. eapply Forall_impl; [exact Hg|]. unfold is_digit. lia.
    + apply (bool_decide_unpack _). vm_compute. exact I.
Qed.

(** *** Measuring ends, whatever answers arrive *)

(** The reference: three sizes of packets for each address, one after the other. *)
Fixpoint measure {K : Type} `{!PingNet K} (hosts : list arr) : M K (list (list icmp_result)) :=
  match hosts with
  | [] => mret []
  | host :: hosts =>
      r ← sizes_loop [(0, 0); (64, 64); (192, 128)] (pn_inet_addr host) 0 (dZ 0) (dZ 0);
      rs ← measure hosts;
      mret (r :: rs)
  end.

(** A system in which a raw socket may not be had, or not fit in a set. *)
Definition no_ping (K : Type) `{!PingNet K} : Prop := ∃ k : K, ¬ 0 ≤ (pn_socket k).1 < 1024.

Section measuring.
Context {K : Type} `{!PingNet K} `{!PingLaws K}.
Context (Hu : ∀ s n (k : K), Forall is_u8 (pn_recv s n k).1.2).

Notation may_fail := (wp (faults (no_ping K))).

Lemma ping_unset optlen sock dest (k : K) : ¬ 0 ≤ sock < 1024 → ping_once optlen sock dest k = Err Segv.
Proof.
  intros Hs. unfold ping_once. rewrite (bind_ok _ _ _ _ _ (sys_ok _ k)), ping_packet_ok. erewrite bind_ok by reflexivity.
  rewrite (bind_ok _ _ _ _ _ (sys_ok _ _)). apply bind_err. unfold select_one.
  destruct (Z.leb_spec 0 sock), (Z.ltb_spec sock 1024); cbn [andb]; [lia|done..].
Qed.

Lemma sendping_wp dest optlen k : 0 ≤ optlen ≤ 448 → may_fail (sendping dest optlen) (λ _ _, True) k.
Proof.
  intros Ho. unfold sendping. apply wp_bind, wp_bind, wp_sys. set (s := (pn_socket k).1). set (k0 := (pn_socket k).2).
  destruct (decide (0 ≤ s < 1024)) as [Hs|Hs].
  - rewrite (proj2 (Z.ltb_ge _ _)) by lia. apply wp_ret. pose proof (ping_once_ok optlen s dest k0 Hu Ho Hs) as HP.
    destruct (pn_gettimeofday _) as [t k1]. cbv zeta in HP. destruct (pn_select _ _) as [sel k3]. destruct (pn_recv _ _ _) as [c k4].
    destruct (pn_gettimeofday _) as [now k5]. destruct HP as (_ & _ & k' & E). apply wp_bind. by eapply wp_ok.
  - assert (faults (no_ping K) Segv) as Hf by (split; [done|by exists k]).
    destruct (Z.ltb_spec s 0); apply wp_ret, wp_bind; unfold wp; rewrite ping_unset by lia; exact Hf.
Qed.

Lemma test_loop_wp n j dest optlen cnt sum mn mx k : 0 ≤ optlen ≤ 448 → may_fail (test_loop n j dest optlen cnt sum mn mx) (λ _ _, True) k.
Proof.
  intros Ho. revert j cnt sum mn mx k. induction n as [|n IH]; intros j cnt sum mn mx k; [done|]. cbn [test_loop].
  eapply wp_seq; [by apply sendping_wp|]. intros v k1 _. destruct (cnt >? 5); [done|]. apply IH.
Qed.

Lemma sizes_loop_wp ss dest cnt mn mx k : Forall (λ s, 0 ≤ s.1 ≤ 448) ss → may_fail (sizes_loop ss dest cnt mn mx) (λ rs _, length rs = length ss) k.
Proof.
  intros Hs. revert cnt mn mx k. induction Hs as [|[optlen len] ss Ho Hs IH]; intros cnt mn mx k; [done|]. cbn [sizes_loop].
  eapply wp_seq; [by apply test_loop_wp|]. intros r k1 _. destruct r.2 as [[[sum mn'] mx']|]; [|apply wp_ret; by rewrite length_replicate].
  eapply wp_seq; [apply IH|]. intros rs k2 Hl. apply wp_ret. cbn. by rewrite Hl.
Qed.

Lemma measure_wp hosts k : may_fail (measure hosts) (λ rs _, length rs = length hosts ∧ Forall (λ r, length r = 3%nat) rs) k.
Proof.
  revert k. induction hosts as [|h hosts IH]; intros k; [done|]. cbn [measure].
  eapply wp_seq; [apply sizes_loop_wp; repeat constructor; cbn; lia|]. intros r k1 Hr. eapply wp_seq; [apply IH|].
  intros rs k2 [Hl Hf]. apply wp_ret. split; [cbn; by rewrite Hl|by constructor].
Qed.

Lemma delays_measure n i p k : (i + n ≤ length (value p))%nat → (length (value p) ≤ Z.to_nat RESULTS)%nat →
  delays n (Z.of_nat i) p k = measure (ip <$> take n (drop i (value p))) k.
Proof.
  revert i k. induction n as [|n IH]; intros i k Hi Hv; [done|]. cbn [delays].
  destruct (lookup_lt_is_Some_2 (value p) i ltac:(lia)) as [d Hd]. unfold slot. rewrite (proj2 (Z.ltb_ge (Z.of_nat i) 0)), Nat2Z.id, Hd by lia.
  erewrite bind_ok by reflexivity. rewrite (proj2 (Z.ltb_lt _ RESULTS)) by lia.
  rewrite (drop_S _ _ _ Hd). cbn [take fmap list_fmap measure]. change (network_delay (ip d)) with (sizes_loop [(0, 0); (64, 64); (192, 128)] (pn_inet_addr (ip d)) 0 (dZ 0) (dZ 0)).
  set (m := sizes_loop [(0, 0); (64, 64); (192, 128)] (pn_inet_addr (ip d)) 0 (dZ 0) (dZ 0)). destruct (m k) as [[r k1]|e] eqn:E; [|by rewrite !(bind_err _ _ _ _ E)]. rewrite !(bind_ok _ _ _ _ _ E).
  replace (Z.of_nat i + 1) with (Z.of_nat (S i)) by lia. unfold mbind, M_bind. by rewrite (IH (S i) k1) by lia.
Qed.
End measuring.

(** ** One measurement *)
Definition station_pair (ss : list station) : dhcp_pair :=
  mk_pair [] [] (fill (λ s b, mk_dhcp (s_mac s) (ip b)) ss (value zero_pair)) (Z.of_nat (length ss)).

(** What the client knows of the stations afterwards. *)
Definition station_addresses (ls : list lease) (ss : list station) : list dhcp :=
  (λ s, mk_dhcp (s_mac s) (lease_ip ls (s_mac s) [])) <$> ss.

Section station_pair.
Context (ss : list station) (Hs : Forall station_ok ss) (Hl : (length ss ≤ MAX_USER)%nat).

Lemma station_values : value (station_pair ss) = ((λ s, mk_dhcp (s_mac s) []) <$> ss) ++ replicate (MAX_USER - length ss) (mk_dhcp [] []).
Proof. unfold station_pair, zero_pair. cbn [value]. by rewrite fill_replicate. Qed.

Lemma station_used : used (station_pair ss) = (λ s, mk_dhcp (s_mac s) []) <$> ss.
Proof. unfold used. rewrite station_values. cbn [pair_length station_pair]. rewrite Nat2Z.id. apply take_app_length'. by rewrite length_fmap. Qed.

Lemma station_unused : unused (station_pair ss) = replicate (MAX_USER - length ss) (mk_dhcp [] []).
Proof. unfold unused. rewrite station_values. cbn [pair_length station_pair]. rewrite Nat2Z.id. apply drop_app_length'. by rewrite length_fmap. Qed.

Lemma station_pair_wf : wf_pair (station_pair ss).
Proof.
  split; [done|done| | |cbn; lia].
  - rewrite station_values, length_app, length_fmap, length_replicate. lia.
  - rewrite station_values, Forall_app. split; [|by apply Forall_replicate]. apply Forall_fmap. eapply Forall_impl; [exact Hs|].
    intros s [_ (_ & Hm & _) _ _]. by split.
Qed.

Lemma read_stations : read_wlan_client (Some (mjoin (station_line <$> ss))) zero_pair = Ok ((), station_pair ss).
Proof.
  assert (length ss ≤ length (mjoin (station_line <$> ss)))%nat as Hlen.
  { clear. induction ss as [|s l IH]; [done|]. change (mjoin (station_line <$> s :: l)) with (station_line s ++ mjoin (station_line <$> l)).
    rewrite length_app. unfold station_line at 1. rewrite length_app. cbn [length]. lia. }
  apply (stations_loop_ok ss _ [] (value zero_pair) [] zero_pair Hs); [lia|]. cbn [value zero_pair]. by rewrite length_replicate.
Qed.
End station_pair.

(** ** A round from the answer on *)

(** The result [run] is [p] and the delays of its addresses, measured from [k] on. *)
Definition measured {K : Type} `{!PingNet K} (p : dhcp_pair) (k : K) (run : res (dhcp_pair * list (list icmp_result) * K)) : Prop :=
  match measure (ip <$> used p) k with
  | Ok (rs, k') => run = Ok ((p, rs), k') ∧ length rs = length (used p) ∧ Forall (λ r, length r = 3%nat) rs
  | Err e => run = Err e ∧ e = Segv ∧ no_ping K
  end.

Section round.
Context {K : Type} `{!PingNet K} `{!PingLaws K} `{!Station K} {J : Type} `{JsonBuildLaws J}.
Context (Hu : ∀ s n (k : K), Forall is_u8 (pn_recv s n k).1.2).
Context (fuel : nat) (ss : list station) (Hs : Forall station_ok ss) (Hl : (length ss ≤ MAX_USER)%nat).
Context (t : arr) (Et : form_request_json (station_pair ss) = Ok t).

Lemma status_err k e :
  send_request fuel GATEWAY PORT DHCPLEASE t (replicate (Z.to_nat ANSWER_SIZE) 0) k = Err e →
  network_status fuel (Some (mjoin (station_line <$> ss))) k = Err e.
Proof.
  intros E. unfold network_status. rewrite (read_stations ss Hs Hl). erewrite bind_ok by reflexivity. cbv zeta. cbn [snd].
  rewrite Et. erewrite bind_ok by reflexivity. by apply bind_err.
Qed.

Lemma status_from p text v resp k k0 :
  send_request fuel GATEWAY PORT DHCPLEASE t (replicate (Z.to_nat ANSWER_SIZE) 0) k = Ok ((v, resp), k0) → cstr resp = Some text →
  take_response text (station_pair ss) = Ok ((), p) → length (value p) = MAX_USER → (Z.to_nat (pair_length p) ≤ MAX_USER)%nat →
  measured p k0 (network_status fuel (Some (mjoin (station_line <$> ss))) k).
Proof.
  intros E Ec Ep Hv Hn. unfold measured. pose proof (measure_wp Hu (ip <$> used p) k0) as Hm. unfold wp in Hm.
  pose proof (delays_measure (Z.to_nat (pair_length p)) 0 p k0 ltac:(lia) ltac:(rewrite Hv; vm_compute; lia)) as Ed.
  rewrite drop_0 in Ed. fold (used p) in Ed. change (Z.of_nat 0) with 0 in Ed.
  assert (network_status fuel (Some (mjoin (station_line <$> ss))) k = (ret ← delays (Z.to_nat (pair_length p)) 0 p; mret (p, ret)) k0) as ->.
  { unfold network_status. rewrite (read_stations ss Hs Hl). erewrite bind_ok by reflexivity. cbv zeta. cbn [snd].
    rewrite Et. erewrite bind_ok by reflexivity. rewrite (bind_ok _ _ _ _ _ E). cbn [snd]. rewrite Ec. erewrite bind_ok by reflexivity.
    rewrite Ep. by erewrite bind_ok by reflexivity. }
  destruct (measure (ip <$> used p) k0) as [[rs k']|e].
  - rewrite (bind_ok _ _ _ _ _ Ed). destruct Hm as [L F]. rewrite length_fmap in L. done.
  - rewrite (bind_err _ _ _ _ Ed). done.
Qed.

(** Without addresses in the answer the stations have none. *)
Lemma status_none text v resp k k0 :
  send_request fuel GATEWAY PORT DHCPLEASE t (replicate (Z.to_nat ANSWER_SIZE) 0) k = Ok ((v, resp), k0) → cstr resp = Some text →
  strstr text CRLF2 = None → measured (station_pair ss) k0 (network_status fuel (Some (mjoin (station_line <$> ss))) k).
Proof.
  intros E Ec En. apply (status_from _ text v resp); [done|done|unfold take_response; by rewrite En| |].
  - apply (wf_value _ (station_pair_wf ss Hs Hl)).
  - cbn [station_pair pair_length]. lia.
Qed.
End round.

(** ** Properties *)


(** A connection that is made at once is given up: after three of them
    [send_request] reports that it cannot connect. *)
Theorem instant_connection_lost {K} `{!Station K} fuel a port url content resp (k : K) :
  (∀ k : K, (st_socket k).1 ≠ -1) → (∀ fd fl (k : K), (st_setfl fd fl k).1 ≠ -1) → (∀ fd (k : K), (st_connect fd a port k).1.1 = 0) →
  ∃ k', send_request fuel a port url content resp k = Ok ((-2, resp), k').
Proof.
  intros Hs Hf Hc.
  assert (∀ fd (k : K), ∃ k', connect_to_server fuel fd a port k = Ok (-1, k')) as Hconn.
  { intros fd k0. unfold connect_to_server, set_noblock, set_blocking. rewrite !bind_assoc, (bind_ok _ _ _ _ _ (sys_ok _ _)).
    rewrite !bind_assoc, (bind_ok _ _ _ _ _ (sys_ok _ _)), (proj2 (Z.eqb_neq _ _)) by apply Hf. do 2 erewrite bind_ok by reflexivity.
    rewrite (bind_ok _ _ _ _ _ (sys_ok _ _)). set (k1 := (st_setfl _ _ _).2). pose proof (Hc fd k1) as E.
    destruct (st_connect fd a port k1) as [[ret pr] k2]. cbn [fst snd] in *. rewrite E. erewrite bind_ok by reflexivity.
    rewrite !bind_assoc, (bind_ok _ _ _ _ _ (sys_ok _ _)), !bind_assoc, (bind_ok _ _ _ _ _ (sys_ok _ _)), (proj2 (Z.eqb_neq _ _)) by apply Hf.
    by eexists. }
  assert (∀ rounds count k0, 0 ≤ count ≤ 2 → (2 - count < Z.of_nat rounds) →
    ∃ sock k', connect_loop fuel rounds count a port k0 = Ok (Some (sock, 3), k')) as Hloop.
  { induction rounds as [|rounds IH]; intros count k0 Hn Hr; [lia|]. cbn [connect_loop]. rewrite (bind_ok _ _ _ _ _ (sys_ok _ k0)).
    rewrite (proj2 (Z.eqb_neq _ _)) by apply Hs. destruct (Hconn (st_socket k0).1 (st_socket k0).2) as [k1 E1]. rewrite (bind_ok _ _ _ _ _ E1).
    cbn [Z.eqb]. erewrite bind_ok by reflexivity. destruct (Z.ltb_spec count 2); [apply IH; lia|].
    replace (count + 1) with 3 by lia. by eexists _, _. }
  unfold send_request. destruct (Hloop 3%nat 0 k ltac:(lia) ltac:(lia)) as (sock & k1 & E). rewrite (bind_ok _ _ _ _ _ E). by eexists.
Qed.

(** *** A gateway with one lease *)
Definition demo_gateway (t : arr) : arr :=
  match strstr t [NL; 13; 10] with
  | Some n =>
      match httpserver_process_request (J := json) (Some (mjoin (lease_line <$> [demo_lease]))) (drop (n + 3) t) with
      | Ok (Some reply) => chars "HTTP/1.1 200 OK" ++ CRLF2 ++ reply
      | _ => []
      end
  | None => []
  end.

(** The state: a number and what was sent last.  From 2 waiting is interrupted
    twice; in 7 only the first ten bytes of an answer are read. *)
Definition demo_state : Type := nat * arr.

#[export] Instance demo_station : Station demo_state := {
  st_socket k := (3, k); st_getfl _ k := (2, k); st_setfl _ _ k := (0, k); st_connect _ _ _ k := (-1, true, k);
  st_select _ k := match k.1 with 1%nat => (-1, true, (0%nat, k.2)) | 2%nat => (-1, true, (1%nat, k.2)) | _ => (1, true, k) end;
  st_soerror _ k := (0, k); st_send _ t k := (k.1, t);
  st_read _ n k :=
    let b := take (Z.to_nat n) (if (k.1 =? 7)%nat then take 10 (demo_gateway k.2) else demo_gateway k.2) in (Z.of_nat (length b), b, k);
  st_close _ k := k }.

#[export] Instance demo_ping : PingNet demo_state := {
  pn_gettimeofday k := ((100, 5), k); pn_socket k := (3, k); pn_close _ k := k; pn_inet_addr _ := 0;
  pn_sendto _ _ b k := (Z.of_nat (length b), k); pn_select _ k := ((1, true), k);
  pn_recv _ n k := ((Z.of_nat (length (take (Z.to_nat n) (zeros 80))), take (Z.to_nat n) (zeros 80)), k) }.

#[export] Instance demo_ping_laws : PingLaws demo_state.
Proof. split. intros s n k Hn. split; [|by right]. simpl. rewrite length_take. lia. Qed.

Definition demo_interrupts (k : demo_state) : nat := match k.1 with 1%nat => 1 | 2%nat => 2 | _ => 0 end.

Lemma demo_laws : station_laws demo_state demo_interrupts.
Proof.
  split.
  - intros fd [[|[|[|n]]] a]; unfold demo_interrupts; cbn; lia.
  - intros fd n k Hn. right. cbn [st_read demo_station]. cbv zeta. cbn [fst snd]. split; [done|]. rewrite length_take. lia.
Qed.

Lemma demo_sockets : ¬ no_ping demo_state.
Proof. intros [k Hk]. apply Hk. cbn. lia. Qed.

Definition demo_stations : list station :=
  [mk_station (chars "STA") (chars "aa:bb:cc:dd:ee:01") []; mk_station (chars "STA") (chars "aa:bb:cc:dd:ee:02") (chars " -40")].

Lemma demo_stations_ok : Forall station_ok demo_stations.
Proof.
  repeat constructor; try discriminate; try (apply (bool_decide_unpack _); vm_compute; exact I); vm_compute; try exact I; try lia; try reflexivity.
Qed.

Lemma demo_bound k : (demo_interrupts k < 3)%nat.
Proof. destruct k as [[|[|[|m]]] a]; unfold demo_interrupts; cbn; lia. Qed.

Lemma demo_bytes s n (k : demo_state) : Forall is_u8 (pn_recv s n k).1.2.
Proof. simpl. unfold zeros. rewrite take_replicate. apply zeros_u8. Qed.

Definition demo_round (n : nat) : res (dhcp_pair * list (list icmp_result) * demo_state) :=
  network_status (J := json) 3 (Some (mjoin (station_line <$> demo_stations))) (n, []).

