(* ===== verification/Pcap.v ===== *)
(** * Packet capture (pcap/pcaploop.c)

    The program lists the interfaces, lets the user choose one, compiles a
    filter with the net mask of the interface and prints the addresses of the
    packets that pass it; a second thread tells it when to print statistics.
    What libpcap, the kernel and the user answer are arguments.  Memory is
    little-endian and [unsigned long] has 64 bits. *)
From Stdlib Require Import String Btauto.
From S2P Require Import Prelude CArr CBuf CInt CDec.

Definition MAXINTERFACES : nat := 16.
Definition FILTER_SIZE : nat := 8096.

Record InterfaceInfo := mk_interface { in_name : arr; description : arr; if_ip : arr; mask : arr }.
Record Turple := mk_turple { proto : Z; sip : arr; dip : arr; sport : Z; dport : Z }.

(** What libpcap says of a device; [d_mask] is [None] when it does not know. *)
Record device := mk_device { d_name : arr; d_description : option arr; d_mask : option Z }.

Record pcap_state := mk_pcap { net_interface : list InterfaceInfo; maskp : Z; turple : Turple; timeup : Z; Count : Z; TotalCap : Z; TotalDrop : Z }.

Definition set_interfaces (l : list InterfaceInfo) (s : pcap_state) : pcap_state :=
  mk_pcap l (maskp s) (turple s) (timeup s) (Count s) (TotalCap s) (TotalDrop s).
Definition set_maskp (m : Z) (s : pcap_state) : pcap_state :=
  mk_pcap (net_interface s) m (turple s) (timeup s) (Count s) (TotalCap s) (TotalDrop s).
Definition set_turple (t : Turple) (s : pcap_state) : pcap_state :=
  mk_pcap (net_interface s) (maskp s) t (timeup s) (Count s) (TotalCap s) (TotalDrop s).
Definition set_stats (up c cap drop : Z) (s : pcap_state) : pcap_state :=
  mk_pcap (net_interface s) (maskp s) (turple s) up c cap drop.

Definition pcap_init : pcap_state := mk_pcap [] 0 (mk_turple 0 (replicate 4 0) (replicate 4 0) 0 0) 0 0 0 0.

(** ** Packets *)

(** A byte of the packet; libpcap gives the bytes that were captured. *)
Definition pkt (pkt_data : arr) (i : nat) : M pcap_state Z := λ s,
  match pkt_data !! i with Some b => Ok (b, s) | None => Err Overread end.

Definition pkt_copy (pkt_data : arr) (i n : nat) : M pcap_state arr := λ s,
  if bool_decide (i + n ≤ length pkt_data)%nat then Ok (take n (drop i pkt_data), s) else Err Overread.

(** A 16-bit number in memory, and the exchange of its bytes. *)
Definition load16 (b : arr) : Z := match b with [x; y] => x + 2 ^ 8 * y | _ => 0 end.
Definition swap16 (x : Z) : Z := u16 (Z.lor (Z.shiftr x 8) (Z.shiftl x 8)).

(** Whether a line is printed. *)
Definition callback (pkt_data : arr) : M pcap_state bool :=
  a ← pkt pkt_data 12;
  b ← (if a =? 8 then pkt pkt_data 13 else mret 1);
  if (a =? 8) && (b =? 0) then
    p ← pkt pkt_data 23;
    addrs ← pkt_copy pkt_data 26 8;
    ports ← pkt_copy pkt_data 34 4;
    modify (set_turple (mk_turple p (take 4 addrs) (drop 4 addrs) (swap16 (load16 (take 2 ports))) (swap16 (load16 (drop 2 ports)))));;
    mret true
  else mret false.

(** ** Interfaces *)
Definition mask_bytes (m : Z) : arr := [u8 (Z.shiftr m 24); u8 (Z.shiftr m 16); u8 (Z.shiftr m 8); u8 m].

Fixpoint devices_loop (devs : list device) : M pcap_state unit :=
  match devs with
  | [] => mret ()
  | d :: devs =>
      l ← gets net_interface;
      if (length l <? MAXINTERFACES)%nat then
        (match d_mask d with Some m => modify (set_maskp m) | None => mret () end);;
        m ← gets maskp;
        modify (set_interfaces (l ++ [mk_interface (d_name d) (default (chars "No description") (d_description d)) (replicate 4 0) (mask_bytes m)]));;
        devices_loop devs
      else fail Segv
  end.

(** [alldevs]: [None] when the list cannot be read. *)
Definition InitCap (alldevs : option (list device)) : M pcap_state Z :=
  match alldevs with
  | None => mret (-1)
  | Some devs => devices_loop devs;; mret (if bool_decide (devs = []) then -2 else 0)
  end.

(** The interfaces with this name get the address; [None] stands for an error
    of the call that asks for it. *)
Fixpoint set_ip (name : arr) (addr : option arr) (l : list InterfaceInfo) : option (list InterfaceInfo) :=
  match l with
  | [] => Some []
  | i :: l =>
      if bool_decide (name = in_name i) then
        match addr with
        | None => None
        | Some a => (mk_interface (in_name i) (description i) a (mask i) ::.) <$> set_ip name addr l
        end
      else (i ::.) <$> set_ip name addr l
  end.

(** The entries that the kernel gives, from the last to the first. *)
Fixpoint addresses_loop (conf : list (arr * option arr)) : M pcap_state Z :=
  match conf with
  | [] => mret 0
  | (name, addr) :: conf =>
      l ← gets net_interface;
      match set_ip name addr l with
      | None => mret (-1)
      | Some l => modify (set_interfaces l);; addresses_loop conf
      end
  end.

(** [conf]: [None] when there is no socket or the call fails. *)
Definition InitCap_m (conf : option (list (arr * option arr))) : M pcap_state Z :=
  match conf with None => mret (-1) | Some c => addresses_loop (reverse c) end.

Definition show_choose_dev (iChoose : Z) : M pcap_state Z :=
  n ← gets (λ s, Z.of_nat (length (net_interface s)));
  mret (if (iChoose <? 1) || (iChoose >? n) then -1 else iChoose).

(** The macro, for an [unsigned long]. *)
Definition IP_Swap_32 (x : Z) : Z :=
  Z.lor (Z.lor (Z.shiftr x 24) (Z.land (Z.shiftr x 8) 0xff00)) (Z.lor (u64 (Z.shiftl x 24)) (Z.land (u64 (Z.shiftl x 8)) 0xff0000)).

Definition load (b : arr) : Z := foldr (λ x v, x + 2 ^ 8 * v) 0 b.

(** [behind]: the four bytes behind the mask of an interface in memory, the
    lower half of the pointer to the name of the next one.  The result is the
    interface, a null pointer for an entry that is not in use, and the mask that
    the filter is compiled with. *)
Definition StartCap (behind : nat → arr) (dev_num : Z) : M pcap_state (option arr * Z) :=
  l ← gets net_interface;
  if (1 <=? dev_num) && (dev_num <=? Z.of_nat MAXINTERFACES) then
    let i := Z.to_nat (dev_num - 1) in
    let m := match l !! i with Some d => mask d | None => replicate 4 0 end in
    modify (set_maskp (u32 (IP_Swap_32 (load (m ++ behind i)))));;
    m ← gets maskp;
    mret (in_name <$> l !! i, m)
  else fail Segv.

(** ** The program *)

(** [atol] stops at the limits of [long]. *)
Definition atol (s : arr) : Z := Z.max (- 2 ^ 63) (Z.min (2 ^ 63 - 1) (atoi s)).

(** [argv]: the arguments behind the name of the program.  [None]: it ends with
    an error message, or the interface and mask it captures with. *)
Definition main (argv : list arr) (alldevs : option (list device)) (conf : option (list (arr * option arr))) (iChoose : Z)
    (behind : nat → arr) : M pcap_state (option (option arr * Z)) :=
  match argv with
  | [] | _ :: _ :: _ :: _ => mret None
  | [_] => fail Segv
  | [captime; filter] =>
      if (length filter <=? FILTER_SIZE)%nat then
        let CapTime := u64 (atol captime) in
        if (CapTime <=? 0) || (CapTime >? 0xffffff) then mret None
        else
          r ← InitCap alldevs;
          if negb (r =? 0) then mret None
          else
            r ← InitCap_m conf;
            if negb (r =? 0) then mret None
            else
              dev_num ← show_choose_dev iChoose;
              c ← StartCap behind dev_num;
              if (length filter <? FILTER_SIZE)%nat then mret (Some c) else fail Overread
      else fail Segv
  end.

(** *** The threads: the timer, the main thread, and the signal handler *)
Inductive pcap_event := TimeUp | Report (recv drop : Z) | Interrupt.

(** The main thread reports while [timeup] is 1, and is left when it is -1. *)
Definition pcap_step (e : pcap_event) (s : pcap_state) : option pcap_state :=
  match e with
  | TimeUp => Some (set_stats 1 (u8 (Count s + 1)) (TotalCap s) (TotalDrop s) s)
  | Report recv drop =>
      if timeup s =? 1 then Some (set_stats 0 (Count s) (u64 (TotalCap s + recv)) (u64 (TotalDrop s + drop)) s) else None
  | Interrupt => Some (set_stats (-1) (Count s) (TotalCap s) (TotalDrop s) s)
  end.

(** ** Properties *)
(** The ports are in network order. *)
Lemma swap16_be x y : is_u8 x → is_u8 y → swap16 (load16 [x; y]) = x * 2 ^ 8 + y.
Proof.
  unfold is_u8. intros Hx Hy. unfold swap16, load16. rewrite Z.shiftr_div_pow2, Z.shiftl_mul_pow2 by lia.
  replace ((x + 2 ^ 8 * y) / 2 ^ 8) with y by (rewrite Z.mul_comm, Z.div_add, Z.div_small by lia; lia).
  rewrite Z.lor_comm, <-Z.shiftl_mul_pow2, lor_shiftl_add by lia. unfold u16.
  replace ((x + 2 ^ 8 * y) * 2 ^ 8 + y) with (x * 2 ^ 8 + y + y * 2 ^ 16) by lia. rewrite Z.mod_add by lia. apply Z.mod_small. lia.
Qed.

Lemma pkt_copy_ok d i n s : (i + n ≤ length d)%nat → pkt_copy d i n s = Ok (take n (drop i d), s).
Proof. intros Hl. unfold pkt_copy. by rewrite bool_decide_true. Qed.

Lemma pkt_copy_short d i n s : (length d < i + n)%nat → pkt_copy d i n s = Err Overread.
Proof. intros Hl. unfold pkt_copy. by rewrite bool_decide_false by lia. Qed.

(** An IPv4 frame whose IP header has no options. *)
Record frame := mk_frame { f_macs : arr; f_ip : arr; f_proto : Z; f_cksum : arr; f_src : arr; f_dst : arr; f_sport : Z * Z; f_dport : Z * Z; f_rest : arr }.

Definition frame_bytes (f : frame) : arr :=
  f_macs f ++ [8; 0] ++ f_ip f ++ f_proto f :: f_cksum f ++ f_src f ++ f_dst f ++ [(f_sport f).1; (f_sport f).2; (f_dport f).1; (f_dport f).2] ++ f_rest f.

Definition frame_ok (f : frame) : Prop :=
  length (f_macs f) = 12%nat ∧ length (f_ip f) = 9%nat ∧ length (f_cksum f) = 2%nat ∧ length (f_src f) = 4%nat ∧ length (f_dst f) = 4%nat ∧
  Forall is_u8 [(f_sport f).1; (f_sport f).2; (f_dport f).1; (f_dport f).2].

Lemma callback_frame f s : frame_ok f →
  callback (frame_bytes f) s =
    Ok (true, set_turple (mk_turple (f_proto f) (f_src f) (f_dst f) ((f_sport f).1 * 2 ^ 8 + (f_sport f).2) ((f_dport f).1 * 2 ^ 8 + (f_dport f).2)) s).
Proof.
  intros (L1 & L2 & L3 & L4 & L5 & HP). destruct f as [macs ip p ck src dst [s1 s2] [d1 d2] rest]. unfold frame_bytes. cbn [f_macs f_ip f_proto f_cksum f_src f_dst f_sport f_dport f_rest fst snd] in *.
  repeat (apply Forall_cons in HP as [? HP]).
  repeat match goal with H : length ?l = _ |- _ => is_var l; repeat (destruct l as [|? l]; cbn in H; [try discriminate H|]; try discriminate H; try (injection H as H)); try discriminate H; clear H end.
  unfold callback. do 2 erewrite bind_ok by reflexivity. cbn [Z.eqb Pos.eqb andb]. erewrite bind_ok by reflexivity.
  do 2 erewrite bind_ok by (apply pkt_copy_ok; cbn; lia).
  cbn [app drop take]. rewrite !swap16_be by done. done.
Qed.

(** Which packets are long enough. *)
Definition long_enough (d : arr) : Prop :=
  (12 < length d)%nat ∧ (d !! 12%nat = Some 8 → (13 < length d)%nat ∧ (d !! 13%nat = Some 0 → (38 ≤ length d)%nat)).

Lemma pkt_some d i b s : d !! i = Some b → pkt d i s = Ok (b, s).
Proof. unfold pkt. by intros ->. Qed.

Lemma pkt_short d i s : (length d ≤ i)%nat → pkt d i s = Err Overread.
Proof. unfold pkt. by intros ->%lookup_ge_None_2. Qed.

(** The other frames, and where reading stops. *)
Lemma callback_ends d s : (long_enough d → ∃ r, callback d s = Ok r) ∧ (¬ long_enough d → callback d s = Err Overread).
Proof.
  unfold callback, long_enough. destruct (d !! 12%nat) as [a|] eqn:Ea.
  2:{ apply lookup_ge_None_1 in Ea. rewrite (bind_err _ _ _ _ (pkt_short d 12 s Ea)). split; [lia|done]. }
  pose proof (lookup_lt_Some _ _ _ Ea) as La. rewrite (bind_ok _ _ _ _ _ (pkt_some _ _ _ s Ea)).
  destruct (Z.eqb_spec a 8) as [->|Na].
  2:{ erewrite bind_ok by reflexivity. cbn [andb]. split; [by eexists|]. intros []. split; [lia|congruence]. }
  destruct (d !! 13%nat) as [b|] eqn:Eb.
  2:{ apply lookup_ge_None_1 in Eb. rewrite (bind_err _ _ _ _ (pkt_short d 13 s Eb)). split; [|done]. intros [_ Hx]. destruct (Hx eq_refl). lia. }
  pose proof (lookup_lt_Some _ _ _ Eb) as Lb. rewrite (bind_ok _ _ _ _ _ (pkt_some _ _ _ s Eb)). cbn [andb].
  destruct (Z.eqb_spec b 0) as [->|Nb].
  2:{ split; [by eexists|]. intros []. split; [lia|]. intros _. split; [lia|congruence]. }
  destruct (decide (38 ≤ length d)%nat) as [Hl|Hl].
  - destruct (lookup_lt_is_Some_2 d 23%nat ltac:(lia)) as [p Ep]. rewrite (bind_ok _ _ _ _ _ (pkt_some _ _ _ s Ep)).
    do 2 erewrite bind_ok by (apply pkt_copy_ok; lia). split; [by eexists|]. intros []. auto with lia.
  - split; [intros [_ Hx]; destruct (Hx eq_refl) as [_ Hy]; by destruct (Hl (Hy eq_refl))|]. intros _.
    destruct (d !! 23%nat) as [p|] eqn:Ep; [rewrite (bind_ok _ _ _ _ _ (pkt_some _ _ _ s Ep))|rewrite (bind_err _ _ _ _ (pkt_short d 23 s (lookup_ge_None_1 _ _ Ep))); done].
    destruct (decide (34 ≤ length d)%nat); [erewrite bind_ok by (apply pkt_copy_ok; lia)|erewrite bind_err by (apply pkt_copy_short; lia); done].
    by erewrite bind_err by (apply pkt_copy_short; lia).
Qed.

(** *** The mask *)
Lemma load_mask m b0 b1 b2 b3 : is_u32 m →
  load (mask_bytes m ++ [b0; b1; b2; b3]) =
    m / 2 ^ 24 + 2 ^ 8 * (m / 2 ^ 16 mod 2 ^ 8) + 2 ^ 16 * (m / 2 ^ 8 mod 2 ^ 8) + 2 ^ 24 * (m mod 2 ^ 8) +
    2 ^ 32 * (b0 + 2 ^ 8 * b1 + 2 ^ 16 * b2 + 2 ^ 24 * b3).
Proof.
  intros Hm. unfold mask_bytes, u8. rewrite !Z.shiftr_div_pow2 by lia. rewrite (Z.mod_small (m / 2 ^ 24)).
  - cbn -[Z.pow Z.div Z.modulo Z.mul Z.add]. lia.
  - unfold is_u32 in Hm. split; [apply Z.div_pos; lia|apply Z.div_lt_upper_bound; lia].
Qed.

Lemma u32_lor x y : u32 (Z.lor x y) = Z.lor (u32 x) (u32 y).
Proof. unfold u32. rewrite <-!land_mask by lia. apply Z.land_lor_distr_l. Qed.

(** Eight bits at [k]. *)
Lemma land_byte x k : 0 ≤ k → Z.land x (Z.shiftl 0xff k) = x / 2 ^ k mod 2 ^ 8 * 2 ^ k.
Proof.
  intros Hk. change 0xff with (Z.ones 8). rewrite <-shiftr_land, <-Z.shiftl_mul_pow2 by lia. apply Z.bits_inj'. intros i Hi.
  rewrite Z.land_spec. destruct (decide (i < k)); [rewrite !Z.shiftl_spec_low by lia; apply andb_false_r|].
  rewrite !Z.shiftl_spec, Z.land_spec, Z.shiftr_spec by lia. do 2 f_equal. lia.
Qed.

Lemma swap_bytes a b c d g : is_u8 a → is_u8 b → is_u8 c → is_u8 d → 0 ≤ g →
  u32 (IP_Swap_32 (a + 2 ^ 8 * b + 2 ^ 16 * c + 2 ^ 24 * d + 2 ^ 32 * g)) =
  Z.lor (a * 2 ^ 24 + b * 2 ^ 16 + c * 2 ^ 8 + d) (2 ^ 8 * (g mod 2 ^ 24)).
Proof.
  unfold is_u8. intros Ha Hb Hc Hd Hg. set (x := a + _ + _ + _ + _). unfold IP_Swap_32.
  change 0xff00 with (Z.shiftl 0xff 8). change 0xff0000 with (Z.shiftl 0xff 16). rewrite !land_byte by lia. rewrite !u32_lor. unfold u64, u32.
  rewrite !Z.shiftr_div_pow2, !Z.shiftl_mul_pow2 by lia.
  assert (x / 2 ^ 24 mod 2 ^ 32 = Z.lor (2 ^ 8 * (g mod 2 ^ 24)) d) as ->.
  { rewrite (Z.mul_comm (2 ^ 8)), <-Z.shiftl_mul_pow2, lor_shiftl_add by lia. unfold x. Z.div_mod_to_equations. lia. }
  assert (x / 2 ^ 8 / 2 ^ 8 mod 2 ^ 8 * 2 ^ 8 mod 2 ^ 32 = c * 2 ^ 8) as -> by (unfold x; Z.div_mod_to_equations; lia).
  assert ((x * 2 ^ 24) mod 2 ^ 64 mod 2 ^ 32 = a * 2 ^ 24) as -> by (unfold x; Z.div_mod_to_equations; lia).
  assert ((x * 2 ^ 8) mod 2 ^ 64 / 2 ^ 16 mod 2 ^ 8 * 2 ^ 16 mod 2 ^ 32 = b * 2 ^ 16) as -> by (unfold x; Z.div_mod_to_equations; lia).
  assert (a * 2 ^ 24 + b * 2 ^ 16 + c * 2 ^ 8 + d = Z.lor (a * 2 ^ 24) (Z.lor (b * 2 ^ 16) (Z.lor (c * 2 ^ 8) d))) as ->.
  { rewrite <-!Z.shiftl_mul_pow2 by lia. rewrite (lor_shiftl_add c d 8), (lor_shiftl_add b _ 16), (lor_shiftl_add a _ 24) by lia.
    rewrite !Z.shiftl_mul_pow2 by lia. lia. }
  apply Z.bits_inj'. intros i _. rewrite !Z.lor_spec. btauto.
Qed.

(** The mask of an interface, read back with the bytes behind it. *)
Lemma swap_mask m b0 b1 b2 b3 : is_u32 m → is_u8 b0 → is_u8 b1 → is_u8 b2 → is_u8 b3 →
  u32 (IP_Swap_32 (load (mask_bytes m ++ [b0; b1; b2; b3]))) = Z.lor m (2 ^ 8 * (b0 + 2 ^ 8 * b1 + 2 ^ 16 * b2)).
Proof.
  intros Hm H0 H1 H2 H3. rewrite load_mask by done. unfold is_u32, is_u8 in *. rewrite swap_bytes; unfold is_u8; [|Z.div_mod_to_equations; lia..].
  f_equal; Z.div_mod_to_equations; lia.
Qed.

(** *** The table *)
Definition known (d : device) : Prop := ∃ m, d_mask d = Some m ∧ is_u32 m.
Definition interface_of (d : device) : InterfaceInfo :=
  mk_interface (d_name d) (default (chars "No description") (d_description d)) (replicate 4 0) (mask_bytes (default 0 (d_mask d))).

Lemma devices_loop_ok devs s : Forall known devs → (length (net_interface s) + length devs ≤ MAXINTERFACES)%nat →
  ∃ m, devices_loop devs s = Ok ((), set_maskp m (set_interfaces (net_interface s ++ (interface_of <$> devs)) s)).
Proof.
  intros Hd. revert s. induction Hd as [|d devs (m & Em & _) Hd IH]; intros s Hl.
  - exists (maskp s). cbn. rewrite app_nil_r. by destruct s.
  - cbn [devices_loop]. erewrite bind_ok by reflexivity. rewrite (proj2 (Nat.ltb_lt _ _)) by (cbn in Hl; lia). rewrite Em. do 3 erewrite bind_ok by reflexivity.
    cbn [maskp set_maskp]. set (s' := set_interfaces _ _). destruct (IH s') as [m' E]; [cbn; rewrite length_app; cbn in *; lia|].
    exists m'. rewrite E. unfold s', interface_of at 2. cbn. rewrite Em. cbn. by rewrite <-app_assoc.
Qed.

(** A table that is too small. *)
Lemma devices_loop_overflow devs s : (length (net_interface s) ≤ MAXINTERFACES < length (net_interface s) + length devs)%nat → devices_loop devs s = Err Segv.
Proof.
  revert s. induction devs as [|d devs IH]; intros s Hl; [cbn in Hl; lia|]. cbn [devices_loop]. erewrite bind_ok by reflexivity.
  destruct (Nat.ltb_spec (length (net_interface s)) MAXINTERFACES); [|done].
  assert (∃ s1, (match d_mask d with Some m => modify (set_maskp m) | None => mret () end) s = Ok ((), s1) ∧ net_interface s1 = net_interface s) as (s1 & E1 & N1).
  { destruct (d_mask d); by eexists. }
  rewrite (bind_ok _ _ _ _ _ E1). do 2 erewrite bind_ok by reflexivity. apply IH. cbn. rewrite length_app. cbn in *. lia.
Qed.

(** Setting an address keeps names and masks. *)
Lemma set_ip_keeps name a l : ∃ l', set_ip name (Some a) l = Some l' ∧ in_name <$> l' = in_name <$> l ∧ mask <$> l' = mask <$> l.
Proof.
  induction l as [|i l (l' & E & N & Mk)]; [by eexists|]. cbn [set_ip]. rewrite E. case_bool_decide; eexists; (split; [reflexivity|]); cbn; by rewrite N, Mk.
Qed.

Lemma addresses_loop_ok conf s : Forall (λ c, is_Some c.2) conf →
  ∃ l, addresses_loop conf s = Ok (0, set_interfaces l s) ∧ in_name <$> l = in_name <$> net_interface s ∧ mask <$> l = mask <$> net_interface s.
Proof.
  intros Hc. revert s. induction Hc as [|[name addr] conf [a Ha] Hc IH]; intros s.
  - exists (net_interface s). split; [by destruct s|done].
  - cbn in Ha. subst addr. cbn [addresses_loop]. erewrite bind_ok by reflexivity. destruct (set_ip_keeps name a (net_interface s)) as (l1 & -> & N1 & M1).
    erewrite bind_ok by reflexivity. destruct (IH (set_interfaces l1 s)) as (l & E & N & Mk). exists l. rewrite E. cbn in N, Mk. split; [done|]. by rewrite N, Mk.
Qed.

(** The two steps that fill the table. *)
Lemma capture_init_ok devs conf : Forall known devs → (0 < length devs ≤ MAXINTERFACES)%nat → Forall (λ c, is_Some c.2) conf →
  ∃ s1 s2, InitCap (Some devs) pcap_init = Ok (0, s1) ∧ InitCap_m (Some conf) s1 = Ok (0, s2) ∧
    in_name <$> net_interface s2 = d_name <$> devs ∧ mask <$> net_interface s2 = (λ d, mask_bytes (default 0 (d_mask d))) <$> devs.
Proof.
  intros Hd Hl Hc. destruct (devices_loop_ok devs pcap_init Hd) as [m E]; [cbn; lia|]. set (s1 := set_maskp _ _) in E.
  destruct (addresses_loop_ok (reverse conf) s1) as (l & E2 & N & Mk); [by apply Forall_reverse|]. exists s1, (set_interfaces l s1). split_and!.
  - unfold InitCap. rewrite (bind_ok _ _ _ _ _ E). rewrite bool_decide_eq_false_2; [done|]. by intros ->; cbn in Hl; lia.
  - done.
  - cbn [net_interface set_interfaces]. rewrite N. cbn. by rewrite <-list_fmap_compose.
  - cbn [net_interface set_interfaces]. rewrite Mk. cbn. by rewrite <-list_fmap_compose.
Qed.

Lemma choose_ok choice s :
  show_choose_dev choice s = Ok (if (choice <? 1) || (Z.of_nat (length (net_interface s)) <? choice) then -1 else choice, s).
Proof. unfold show_choose_dev. erewrite bind_ok by reflexivity. by rewrite Z.gtb_ltb. Qed.

(** Capturing on an entry of the table. *)
Lemma StartCap_ok behind devs s choice b0 b1 b2 b3 : Forall known devs → (length devs ≤ MAXINTERFACES)%nat → 1 ≤ choice ≤ Z.of_nat (length devs) →
  in_name <$> net_interface s = d_name <$> devs → mask <$> net_interface s = (λ d, mask_bytes (default 0 (d_mask d))) <$> devs →
  behind (Z.to_nat (choice - 1)) = [b0; b1; b2; b3] → Forall is_u8 [b0; b1; b2; b3] →
  ∃ d m, devs !! Z.to_nat (choice - 1) = Some d ∧ d_mask d = Some m ∧
    let mp := Z.lor m (2 ^ 8 * (b0 + 2 ^ 8 * b1 + 2 ^ 16 * b2)) in StartCap behind choice s = Ok ((Some (d_name d), mp), set_maskp mp s).
Proof.
  intros Hd Hl Hch N Mk Eb Hb. destruct (lookup_lt_is_Some_2 devs (Z.to_nat (choice - 1))) as [d Ed]; [lia|].
  destruct (proj1 (Forall_lookup _ _) Hd _ _ Ed) as (m & Em & Hm). exists d, m. split_and!; [done..|]. intros mp.
  apply (f_equal (.!! Z.to_nat (choice - 1))) in N, Mk. rewrite !list_lookup_fmap, Ed in N, Mk. cbn in N, Mk. rewrite Em in Mk. cbn in Mk.
  destruct (net_interface s !! Z.to_nat (choice - 1)) as [i|] eqn:Ei; [|done]. cbn in N, Mk. injection N as N. injection Mk as Mk.
  unfold StartCap. erewrite bind_ok by reflexivity. rewrite (proj2 (Z.leb_le 1 _)), (proj2 (Z.leb_le choice _)) by lia. cbn [andb]. cbv zeta.
  rewrite !Forall_cons in Hb. rewrite Ei, Eb, Mk, swap_mask by apply Hb || done. do 2 erewrite bind_ok by reflexivity. cbn. by rewrite N.
Qed.

(** An interrupt is lost when the timer comes before the main thread looks at
    the flag: the program goes on. *)
Lemma interrupt_lost s : ∃ s', pcap_step Interrupt s ≫= pcap_step TimeUp = Some s' ∧ timeup s' = 1.
Proof. by eexists. Qed.

(** ** Properties *)

(** C36: the packets of an IPv4 frame without IP options are printed with their
    protocol, addresses and ports, the ports in the order of the host, and
    reading stays within the captured bytes exactly for packets that are long
    enough: the length is never checked, so that a shorter IPv4 packet and a
    packet of less than 13 bytes are read beyond their end. *)
Theorem callback_correct d f s : frame_ok f →
  callback (frame_bytes f) s =
    Ok (true, set_turple (mk_turple (f_proto f) (f_src f) (f_dst f) ((f_sport f).1 * 2 ^ 8 + (f_sport f).2) ((f_dport f).1 * 2 ^ 8 + (f_dport f).2)) s) ∧
  (long_enough d → ∃ r, callback d s = Ok r) ∧ (¬ long_enough d → callback d s = Err Overread).
Proof. intros Hf. split; [by apply callback_frame|apply callback_ends]. Qed.

(** C39: with valid arguments, at most 16 interfaces and a choice among them
    the program captures on the chosen interface.  The mask for the filter is
    that of the interface, but with the lower bytes of the pointer behind it in
    memory added, since twice as many bytes are read as the mask has.  With any other
    choice the table is read outside of its bounds. *)
Theorem capture_correct captime filter devs conf choice behind :
  (length filter < FILTER_SIZE)%nat → 0 < atol captime ≤ 0xffffff → Forall known devs → (0 < length devs ≤ MAXINTERFACES)%nat →
  Forall (λ c, is_Some c.2) conf → (∀ i, ∃ b0 b1 b2 b3, behind i = [b0; b1; b2; b3] ∧ Forall is_u8 [b0; b1; b2; b3]) →
  if bool_decide (1 ≤ choice ≤ Z.of_nat (length devs)) then
    ∃ d m b0 b1 b2 b3 s, devs !! Z.to_nat (choice - 1) = Some d ∧ d_mask d = Some m ∧ behind (Z.to_nat (choice - 1)) = [b0; b1; b2; b3] ∧
      main [captime; filter] (Some devs) (Some conf) choice behind pcap_init =
        Ok (Some (Some (d_name d), Z.lor m (2 ^ 8 * (b0 + 2 ^ 8 * b1 + 2 ^ 16 * b2))), s)
  else main [captime; filter] (Some devs) (Some conf) choice behind pcap_init = Err Segv.
Proof.
  intros Hf Hc Hd Hl Hconf Hb. unfold main. rewrite (proj2 (Nat.leb_le _ _)) by lia. cbv zeta.
  assert (u64 (atol captime) = atol captime) as -> by (apply Z.mod_small; lia).
  rewrite (proj2 (Z.leb_gt (atol captime) 0)), Z.gtb_ltb, (proj2 (Z.ltb_ge _ (atol captime))) by lia. cbn [orb].
  destruct (capture_init_ok devs conf) as (s1 & s2 & E1 & E2 & N & Mk); [done..|].
  assert (length (net_interface s2) = length devs) as El by (rewrite <-(length_fmap in_name), N; apply length_fmap).
  rewrite (bind_ok _ _ _ _ _ E1). cbn [Z.eqb negb]. rewrite (bind_ok _ _ _ _ _ E2). cbn [Z.eqb negb].
  rewrite (bind_ok _ _ _ _ _ (choose_ok choice s2)), El. case_bool_decide as Hch.
  - rewrite (proj2 (Z.ltb_ge choice 1)), (proj2 (Z.ltb_ge _ choice)) by lia. cbn [orb].
    destruct (Hb (Z.to_nat (choice - 1))) as (b0 & b1 & b2 & b3 & Eb & H8).
    destruct (StartCap_ok behind devs s2 choice b0 b1 b2 b3) as (d & m & Ed & Em & E); [done|lia|done..|].
    exists d, m, b0, b1, b2, b3. eexists. split_and!; [done..|]. rewrite (bind_ok _ _ _ _ _ E). by rewrite (proj2 (Nat.ltb_lt _ _)) by done.
  - replace ((choice <? 1) || (Z.of_nat (length devs) <? choice)) with true; [done|]. symmetry. apply orb_true_iff. rewrite !Z.ltb_lt. lia.
Qed.

Lemma callback_correct_witness :
  callback (frame_bytes (mk_frame (replicate 12 1) (replicate 9 0) 6 [0; 0] [10; 0; 0; 1] [10; 0; 0; 2] (0x1f, 0x90) (0, 80) [1; 2])) pcap_init =
    Ok (true, set_turple (mk_turple 6 [10; 0; 0; 1] [10; 0; 0; 2] 8080 80) pcap_init) ∧ callback (replicate 12 8) pcap_init = Err Overread.
Proof.
  edestruct (callback_correct (replicate 12 8) (mk_frame (replicate 12 1) (replicate 9 0) 6 [0; 0] [10; 0; 0; 1] [10; 0; 0; 2] (0x1f, 0x90) (0, 80) [1; 2]) pcap_init) as (E & _ & F).
  - repeat split; try reflexivity. repeat constructor; done.
  - split; [exact E|]. apply F. intros [L _]. cbn in L. lia.
Defined.

(** The mask 255.255.255.0 of the first of two interfaces, with the bytes of a
    pointer behind it. *)
Lemma capture_correct_witness :
  ∃ s, main [chars "60"; chars "tcp"] (Some [mk_device (chars "eth0") None (Some 0xffffff); mk_device (chars "lo") None (Some 0xff)])
    (Some [(chars "eth0", Some [10; 0; 0; 1])]) 1 (λ i, if Nat.eqb i 0 then [0x40; 0x12; 0x60; 0] else [0; 0; 0; 0]) pcap_init =
      Ok (Some (Some (chars "eth0"), Z.lor 0xffffff 0x60124000), s).
Proof.
  destruct (capture_correct (chars "60") (chars "tcp") [mk_device (chars "eth0") None (Some 0xffffff); mk_device (chars "lo") None (Some 0xff)]
    [(chars "eth0", Some [10; 0; 0; 1])] 1 (λ i, if Nat.eqb i 0 then [0x40; 0x12; 0x60; 0] else [0; 0; 0; 0])) as (d & m & b0 & b1 & b2 & b3 & s & Ed & Em & Eb & E).
  - vm_compute. lia.
  - vm_compute. by split.
  - repeat constructor; eexists; (split; [reflexivity|]); by vm_compute.
  - vm_compute. lia.
  - repeat constructor. by eexists.
  - intros i. destruct (Nat.eqb i 0); do 4 eexists; (split; [reflexivity|]); repeat constructor; by vm_compute.
  - exists s. injection Ed as <-. injection Em as <-. injection Eb as <- <- <- <-. exact E.
Defined.
