(* ===== verification/Forward.v ===== *)
(** * A proxy for a port (socket/epoll_example.c)

    For each connection that it accepts the proxy opens one to the machine
    behind it, and passes on what arrives on either.  Two arrays of 256 entries,
    indexed by descriptors, hold the pairs.  The kernel is a parameter;
    [KernelLaws] is what is documented of it.  Its limit on descriptors may be
    larger than the arrays, and names may fail to resolve.  The state records what is received and sent, in order.  The
    proxy is run for any number of rounds; the loop that reads takes at most as
    many rounds as its buffer has bytes. *)
From stdpp Require Import gmap.
From S2P Require Import Prelude CInt Hoare.

Definition EPOLL_QUEUE_LEN : nat := 256.
Definition BUFLEN : Z := 1024.
Definition FORWARD_PORT : Z := 8888.
Definition NONBLOCK : Z := 2048.
Definition EV_IN : Z := 1.
Definition EV_ERR : Z := 8.
Definition EV_HUP : Z := 16.

(** ** The kernel *)
Class Kernel (K : Type) := {
  nofile : Z;
  open_fds : K → gset Z;
  watched : K → gset Z;
  sys_socket : K → Z * K;
  sys_setsockopt : Z → K → Z * K;
  sys_getfl : Z → K → Z * K;
  sys_setfl : Z → Z → K → Z * K;
  sys_bind : Z → Z → K → Z * K;
  sys_listen : Z → K → Z * K;
  sys_epoll_create : K → Z * K;
  sys_epoll_add : Z → K → Z * K;
  sys_epoll_wait : K → Z * list (Z * Z) * K;
  sys_accept : Z → K → Z * K;
  sys_gethostbyname : K → bool * K;
  sys_connect : Z → Z → K → Z * K;
  sys_recv : Z → Z → K → Z * list Z * K;
  sys_send : Z → list Z → K → Z * K;
  sys_close : Z → K → Z * K }.

(** Neither the descriptors nor those that are watched change. *)
Definition same {K} `{Kernel K} (k k' : K) : Prop := open_fds k' = open_fds k ∧ watched k' = watched k.

(** A call that makes a new descriptor, below the limit RLIMIT_NOFILE, or fails. *)
Definition makes {K} `{Kernel K} (k : K) (fd : Z) (k' : K) : Prop :=
  (fd = -1 ∧ same k k') ∨
  (0 ≤ fd < nofile ∧ fd ∉ open_fds k ∧ open_fds k' = {[fd]} ∪ open_fds k ∧ watched k' = watched k).

Class KernelLaws (K : Type) `{Kernel K} : Prop := {
  socket_law k : makes k (sys_socket k).1 (sys_socket k).2;
  accept_law fd k : makes k (sys_accept fd k).1 (sys_accept fd k).2;
  create_law k : makes k (sys_epoll_create k).1 (sys_epoll_create k).2;
  setsockopt_law fd k : same k (sys_setsockopt fd k).2;
  getfl_law fd k : same k (sys_getfl fd k).2;
  setfl_law fd f k : same k (sys_setfl fd f k).2;
  bind_law fd p k : same k (sys_bind fd p k).2;
  listen_law fd k : same k (sys_listen fd k).2;
  connect_law fd p k : same k (sys_connect fd p k).2;
  send_law fd d k : same k (sys_send fd d k).2;
  resolve_law k : same k (sys_gethostbyname k).2;
  add_law fd k : open_fds (sys_epoll_add fd k).2 = open_fds k ∧
    watched (sys_epoll_add fd k).2 = (if (sys_epoll_add fd k).1 =? -1 then watched k else {[fd]} ∪ watched k);
  wait_law k n evs k' : sys_epoll_wait k = (n, evs, k') → same k k' ∧
    (n < 0 ∨ Forall (λ e, e.1 ∈ watched k ∧ Z.land e.2 (Z.lor EV_IN (Z.lor EV_HUP EV_ERR)) ≠ 0) evs);
  recv_law fd len k n d k' : 0 ≤ len → sys_recv fd len k = (n, d, k') → same k k' ∧ n ≤ len ∧ (0 < n → Z.of_nat (length d) = n) }.

(** ** The code *)

(** What the proxy receives and sends. *)
Inductive io_event := Received (fd : Z) (d : list Z) | Sent (fd : Z) (d : list Z).

Section proxy.
Context {K : Type} `{Kernel K}.

Record state := mk_state { kern : K; forwardSockets : list Z; internalSockets : list Z; trace : list io_event }.

Definition set_kern (k : K) (s : state) : state := mk_state k (forwardSockets s) (internalSockets s) (trace s).
Definition call {A} (f : K → A * K) : M state A := λ s, let r := f (kern s) in Ok (r.1, set_kern r.2 s).
Definition record (t : io_event) : M state unit := modify (λ s, mk_state (kern s) (forwardSockets s) (internalSockets s) (trace s ++ [t])).

(** Access to an entry of an array. *)
Definition entry (t : state → list Z) (fd : Z) : M state Z := λ s,
  if 0 <=? fd then match t s !! Z.to_nat fd with Some v => Ok (v, s) | None => Err Segv end else Err Segv.
Definition set_pair (fd_new forwardSD : Z) : M state unit :=
  entry forwardSockets fd_new;;
  modify (λ s, mk_state (kern s) (<[Z.to_nat fd_new := forwardSD]> (forwardSockets s)) (internalSockets s) (trace s));;
  entry internalSockets forwardSD;;
  modify (λ s, mk_state (kern s) (forwardSockets s) (<[Z.to_nat forwardSD := fd_new]> (internalSockets s)) (trace s)).

(** [SystemFatal] on an error. *)
Definition fatal {A} (r : Z) (m : M state A) : M state A := if r =? -1 then fail Exit else m.

(** A call of the kernel that ends the program when it fails. *)
Definition must (f : K → Z * K) : M state Z := r ← call f; fatal r (mret r).

(** [fd_server] and its place among the descriptors that are watched. *)
Definition setup (src_port : Z) : M state Z :=
  fd_server ← must sys_socket;
  must (sys_setsockopt fd_server);;
  fl ← call (sys_getfl fd_server);
  must (sys_setfl fd_server (Z.lor NONBLOCK fl));;
  must (sys_bind fd_server src_port);;
  must (sys_listen fd_server);;
  must sys_epoll_create;;
  must (sys_epoll_add fd_server);;
  mret fd_server.

(** A connection is accepted, and one is made to the machine behind. *)
Definition accept_one (fd_server : Z) : M state unit :=
  fd_new ← call (sys_accept fd_server);
  if fd_new =? -1 then mret ()
  else
    fl ← call (sys_getfl fd_new);
    must (sys_setfl fd_new (Z.lor NONBLOCK fl));;
    must (sys_epoll_add fd_new);;
    forwardSD ← must sys_socket;
    hp ← call sys_gethostbyname;
    if (hp : bool) then
      must (sys_connect forwardSD FORWARD_PORT);;
      must (sys_epoll_add forwardSD);;
      set_pair fd_new forwardSD
    else fail Segv.

(** [buf]: what has been received, up to [bp].  [to]: [None] when the variable
    has no value, which must not be used. *)
Fixpoint forward_loop (fuel : nat) (fd : Z) (to : option Z) (buf : list Z) (bytes_to_read : Z) : M state unit :=
  match fuel with
  | O => fail Fuel
  | S fuel =>
      r ← call (sys_recv fd bytes_to_read);
      let n := r.1 in
      if n >? 0 then
        record (Received fd r.2);;
        let buf := buf ++ r.2 in
        match to with
        | None => fail Segv
        | Some to =>
            call (sys_send to (take (Z.to_nat n) buf));;
            record (Sent to (take (Z.to_nat n) buf));;
            forward_loop fuel fd (Some to) buf (bytes_to_read - n)
        end
      else mret ()
  end.

Definition forwardData (fd : Z) : M state bool :=
  a ← entry forwardSockets fd;
  b ← entry internalSockets fd;
  let to := if negb (b =? 0) then Some b else if negb (a =? 0) then Some a else None in
  forward_loop (S (Z.to_nat BUFLEN)) fd to [] BUFLEN;;
  mret true.

Fixpoint events_loop (fd_server : Z) (events : list (Z * Z)) : M state unit :=
  match events with
  | [] => mret ()
  | (fd, ev) :: events =>
      (if negb (Z.land ev (Z.lor EV_HUP EV_ERR) =? 0) then mret ()
       else if Z.land ev EV_IN =? 0 then fail Abort
       else if fd =? fd_server then accept_one fd_server
       else b ← forwardData fd; if (b : bool) then mret () else call (sys_close fd);; mret ());;
      events_loop fd_server events
  end.

(** [n] rounds of the main loop. *)
Fixpoint serve (n : nat) (fd_server : Z) : M state unit :=
  match n with
  | O => mret ()
  | S n =>
      r ← call sys_epoll_wait;
      (if r.1 <? 0 then fail Exit else events_loop fd_server r.2);;
      serve n fd_server
  end.

Definition main (n : nat) (src_port : Z) : M state Z := fd_server ← setup src_port; serve n fd_server;; mret fd_server.

Definition init (k : K) : state := mk_state k (replicate EPOLL_QUEUE_LEN 0) (replicate EPOLL_QUEUE_LEN 0) [].

(** ** The invariant *)
Definition at_fd (t : list Z) (fd : Z) : Z := default 0 (t !! Z.to_nat fd).
Definition fwd (s : state) : Z → Z := at_fd (forwardSockets s).
Definition back (s : state) : Z → Z := at_fd (internalSockets s).

(** The other side of a connection, 0 for none. *)
Definition peer (s : state) (fd : Z) : Z := if back s fd =? 0 then fwd s fd else back s fd.

(** What one call of [forwardData] receives, in pieces, and sends. *)
Fixpoint block (fd to : Z) (acc : list Z) (cs : list (list Z)) : list io_event :=
  match cs with
  | [] => []
  | c :: cs => Received fd c :: Sent to (take (length c) (acc ++ c)) :: block fd to (acc ++ c) cs
  end.

Definition is_block (s : state) (b : Z * list (list Z)) : Prop :=
  0 ≤ b.1 ∧ peer s b.1 ≠ 0 ∧ Z.of_nat (length (concat b.2)) ≤ BUFLEN.

Definition blocks (s : state) (bs : list (Z * list (list Z))) : list io_event :=
  concat ((λ b, block b.1 (peer s b.1) [] b.2) <$> bs).

(** The arrays are inverse to each other; a descriptor that is watched is the
    listening socket [l], has a peer or is in [P] and about to get one. *)
Record inv (l : Z) (P : gset Z) (s : state) : Prop := {
  i_fwd_len : length (forwardSockets s) = EPOLL_QUEUE_LEN;
  i_back_len : length (internalSockets s) = EPOLL_QUEUE_LEN;
  i_zero : 0 ∈ open_fds (kern s);
  i_range fd : fd ∈ open_fds (kern s) → 0 ≤ fd;
  i_fwd a : 0 ≤ a → fwd s a ≠ 0 → a ∈ open_fds (kern s) ∧ fwd s a ∈ open_fds (kern s) ∧ back s (fwd s a) = a ∧ back s a = 0 ∧ fwd s (fwd s a) = 0 ∧ a ≠ 0;
  i_back b : 0 ≤ b → back s b ≠ 0 → 0 ≤ back s b ∧ fwd s (back s b) = b ∧ b ≠ 0;
  i_pend x : x ∈ P → x ∈ open_fds (kern s) ∧ x ≠ 0 ∧ fwd s x = 0 ∧ back s x = 0;
  i_watch x : x ∈ watched (kern s) → x ∈ open_fds (kern s) ∧ (x = l ∨ x ∈ P ∨ peer s x ≠ 0);
  i_trace : ∃ bs, trace s = blocks s bs ∧ Forall (is_block s) bs }.

Lemma inv_back l P s b : inv l P s → 0 ≤ b → back s b ≠ 0 → b ∈ open_fds (kern s) ∧ back s b ∈ open_fds (kern s) ∧ fwd s b = 0 ∧ back s (back s b) = 0 ∧ fwd s (back s b) = b.
Proof.
  intros I Hb Hn. destruct (i_back _ _ _ I b Hb Hn) as (H0 & E & Nb). destruct (i_fwd _ _ _ I (back s b) H0) as (? & H1 & ? & ? & H2 & ?); [congruence|].
  rewrite E in *. done.
Qed.

(** The two sides of a connection are peers of each other. *)
Lemma peer_ok l P s a : inv l P s → 0 ≤ a → peer s a ≠ 0 → a ∈ open_fds (kern s) ∧ peer s a ∈ open_fds (kern s) ∧ peer s (peer s a) = a.
Proof.
  intros I Ha. unfold peer at 1 2 4. destruct (Z.eqb_spec (back s a) 0) as [E|E]; intros Hn.
  - destruct (i_fwd _ _ _ I a Ha Hn) as (? & ? & Eb & ? & ? & ?). split_and!; [done..|]. unfold peer. rewrite Eb.
    by rewrite (proj2 (Z.eqb_neq a 0)).
  - destruct (inv_back _ _ _ _ I Ha E) as (? & ? & ? & Eb & Ef). split_and!; [done..|]. unfold peer. by rewrite Eb, Ef.
Qed.

Lemma inv_same l P s k : inv l P s → same (kern s) k → inv l P (set_kern k s).
Proof. intros [] [E1 E2]. split; cbn; rewrite ?E1, ?E2; done. Qed.

Lemma inv_makes l P s fd k : inv l P s → makes (kern s) fd k → inv l P (set_kern k s).
Proof.
  intros I [[_ Hs]|(Hr & Hn & E1 & E2)]; [by apply inv_same|]. destruct I. split; cbn; rewrite ?E1, ?E2; try done.
  - set_solver.
  - intros x. rewrite elem_of_union, elem_of_singleton. naive_solver.
  - intros a Ha Hf. destruct (i_fwd0 a Ha Hf) as (? & ? & Hrest). split; [set_solver|]. split; [set_solver|]. exact Hrest.
  - intros x Hx. destruct (i_pend0 x Hx). split; [set_solver|done].
  - intros x Hx. destruct (i_watch0 x Hx). split; [set_solver|done].
Qed.

(** A descriptor that is not in use has no entries. *)
Lemma inv_fresh l P s x : inv l P s → 0 ≤ x → x ∉ open_fds (kern s) → x ≠ 0 ∧ fwd s x = 0 ∧ back s x = 0.
Proof.
  intros I Hx Hn. split_and!.
  - intros ->. by apply Hn, (i_zero _ _ _ I).
  - destruct (decide (fwd s x = 0)) as [|E]; [done|]. by destruct (i_fwd _ _ _ I x Hx E).
  - destruct (decide (back s x = 0)) as [|E]; [done|]. by destruct (inv_back _ _ _ _ I Hx E).
Qed.

Lemma inv_pend l P s x : inv l P s → x ∈ open_fds (kern s) → x ≠ 0 → fwd s x = 0 → back s x = 0 → inv l ({[x]} ∪ P) s.
Proof.
  intros [] ????. split; try done.
  - intros y. rewrite elem_of_union, elem_of_singleton. intros [->|?]; [done|by apply i_pend0].
  - intros y Hy. destruct (i_watch0 y Hy) as (? & [|[|]]); split; auto. right; left. set_solver.
Qed.

(** A new descriptor that is about to get a peer. *)
Lemma forward_new l P s fd k : inv l P s → makes (kern s) fd k → fd ≠ -1 → fd ∉ P ∧ inv l ({[fd]} ∪ P) (set_kern k s).
Proof.
  intros I Hm Nf. pose proof (inv_makes _ _ _ _ _ I Hm) as I'. destruct Hm as [[-> _]|(Hr & Hn & E1 & E2)]; [done|].
  destruct (inv_fresh _ _ _ fd I) as (? & ? & ?); [lia|done|]. split; [|apply inv_pend; try done; cbn; rewrite E1; set_solver].
  intros Hp. by destruct (i_pend _ _ _ I fd Hp).
Qed.

(** *** A new pair *)
Lemma at_insert t fd v x : 0 ≤ x → 0 ≤ fd < Z.of_nat (length t) → at_fd (<[Z.to_nat fd := v]> t) x = if x =? fd then v else at_fd t x.
Proof.
  intros Hx Hf. unfold at_fd. destruct (Z.eqb_spec x fd) as [->|Nx]; [by rewrite list_lookup_insert_eq by lia|].
  by rewrite list_lookup_insert_ne by lia.
Qed.

Lemma entry_ok t fd s : 0 ≤ fd < Z.of_nat (length (t s)) → entry t fd s = Ok (at_fd (t s) fd, s).
Proof.
  intros Hf. unfold entry, at_fd. rewrite (proj2 (Z.leb_le _ _)) by lia.
  destruct (lookup_lt_is_Some_2 (t s) (Z.to_nat fd)) as [v ->]; [lia|done].
Qed.

Definition paired (a b : Z) (s : state) : state :=
  mk_state (kern s) (<[Z.to_nat a := b]> (forwardSockets s)) (<[Z.to_nat b := a]> (internalSockets s)) (trace s).

Lemma set_pair_ok a b s : 0 ≤ a < Z.of_nat (length (forwardSockets s)) → 0 ≤ b < Z.of_nat (length (internalSockets s)) →
  set_pair a b s = Ok ((), paired a b s).
Proof.
  intros Ha Hb. unfold set_pair. rewrite (bind_ok _ _ _ _ _ (entry_ok forwardSockets a s Ha)). erewrite bind_ok by reflexivity.
  by erewrite bind_ok by (by apply entry_ok).
Qed.

(** Both descriptors have an entry. *)
Definition fit (a b : Z) : Prop := a < Z.of_nat EPOLL_QUEUE_LEN ∧ b < Z.of_nat EPOLL_QUEUE_LEN.

(** Old connections keep their peers. *)
Lemma peer_paired l s a b x : inv l {[a; b]} s → a ≠ b → fit a b → 0 ≤ x →
  peer (paired a b s) x = if x =? a then b else if x =? b then a else peer s x.
Proof.
  intros I Nab [Ra Rb] Hx. destruct (i_pend _ _ _ I a) as (Oa & Na & Fa & Ba); [set_solver|]. destruct (i_pend _ _ _ I b) as (Ob & Nb & Fb & Bb); [set_solver|].
  pose proof (i_range _ _ _ I _ Oa). pose proof (i_range _ _ _ I _ Ob). pose proof (i_fwd_len _ _ _ I). pose proof (i_back_len _ _ _ I).
  unfold peer, fwd, back, paired. cbn [forwardSockets internalSockets]. rewrite !at_insert by lia.
  destruct (Z.eqb_spec x a) as [->|]; [|destruct (Z.eqb_spec x b) as [->|]; [|done]].
  - rewrite (proj2 (Z.eqb_neq a b)) by done. fold (back s a). by rewrite Ba.
  - by rewrite (proj2 (Z.eqb_neq a 0)).
Qed.

Lemma blocks_eq s s' bs : Forall (is_block s) bs → (∀ x, 0 ≤ x → peer s x ≠ 0 → peer s' x = peer s x) →
  blocks s' bs = blocks s bs ∧ Forall (is_block s') bs.
Proof.
  intros Hb Hp. unfold blocks. induction Hb as [|b bs (H0 & H1 & H2) Hb [IH1 IH2]]; [done|]. cbn. rewrite Hp, IH1 by done. split; [done|].
  constructor; [|done]. split_and!; [done| |done]. by rewrite Hp.
Qed.

Lemma inv_paired l s a b : inv l {[a; b]} s → a ≠ b → fit a b → inv l ∅ (paired a b s).
Proof.
  intros I Nab Hfit. destruct (i_pend _ _ _ I a) as (Oa & Na & Fa & Ba); [set_solver|]. destruct (i_pend _ _ _ I b) as (Ob & Nb & Fb & Bb); [set_solver|].
  pose proof (λ x, peer_paired l s a b x I Nab Hfit) as Hp. pose proof (i_range _ _ _ I) as R. pose proof (R _ Oa). pose proof (R _ Ob). destruct Hfit as [Ra Rb].
  assert (∀ x, 0 ≤ x → fwd (paired a b s) x = if x =? a then b else fwd s x) as HF.
  { intros x Hx. apply at_insert; [done|]. rewrite (i_fwd_len _ _ _ I). lia. }
  assert (∀ x, 0 ≤ x → back (paired a b s) x = if x =? b then a else back s x) as HB.
  { intros x Hx. apply at_insert; [done|]. rewrite (i_back_len _ _ _ I). lia. }
  split; cbn [kern forwardSockets internalSockets trace paired].
  - rewrite length_insert. apply I.
  - rewrite length_insert. apply I.
  - apply I.
  - apply I.
  - intros x Hx. rewrite HF by done. destruct (Z.eqb_spec x a) as [->|Nx]; intros Hn.
    + rewrite !HB, HF, Z.eqb_refl, (proj2 (Z.eqb_neq a b)), (proj2 (Z.eqb_neq b a)) by (done || lia). done.
    + destruct (i_fwd _ _ _ I x Hx Hn) as (Ox & Of & E1 & E2 & E3 & Nx0). pose proof (R _ Of).
      assert (x ≠ b) by congruence. assert (fwd s x ≠ a) by congruence. assert (fwd s x ≠ b) by congruence.
      rewrite !HB, HF, (proj2 (Z.eqb_neq x b)), (proj2 (Z.eqb_neq (fwd s x) a)), (proj2 (Z.eqb_neq (fwd s x) b)) by (done || lia). done.
  - intros x Hx. rewrite HB by done. destruct (Z.eqb_spec x b) as [->|Nx]; intros Hn.
    + rewrite HF, Z.eqb_refl by lia. split_and!; [lia|done..].
    + destruct (i_back _ _ _ I x Hx Hn) as (Hx0 & E & Nx0). assert (back s x ≠ a) by congruence. by rewrite HF, (proj2 (Z.eqb_neq (back s x) a)) by done.
  - set_solver.
  - intros x Hx. destruct (i_watch _ _ _ I x Hx) as (Ox & Hc). split; [done|]. rewrite Hp by (apply R in Ox; lia).
    destruct (Z.eqb_spec x a), (Z.eqb_spec x b); set_solver.
  - destruct (i_trace _ _ _ I) as (bs & E & Hb). exists bs. destruct (blocks_eq s (paired a b s) bs Hb) as [E1 Hb'].
    + intros x Hx Hn. rewrite Hp by done. destruct (Z.eqb_spec x a) as [E1|], (Z.eqb_spec x b) as [E2|]; try done; subst x; unfold peer in Hn; rewrite ?Ba, ?Bb in Hn; done.
    + by rewrite E1.
Qed.

(** *** The calls *)
Context `{!KernelLaws K}.

(** The ways to stop: a call of exit, a descriptor behind the end of the arrays,
    and a null pointer for a name that is not resolved. *)
Definition exits (e : fault) : Prop :=
  e = Exit ∨ e = Segv ∧ (Z.of_nat EPOLL_QUEUE_LEN < nofile ∨ ∃ k, (sys_gethostbyname k).1 = false).
Notation wpx := (wp exits).

Lemma forward_call {A} (f : K → A * K) Q s : Q (f (kern s)).1 (set_kern (f (kern s)).2 s) → wpx (call f) Q s.
Proof. done. Qed.

Lemma wp_must (f : K → Z * K) Q s : ((f (kern s)).1 ≠ -1 → Q (f (kern s)).1 (set_kern (f (kern s)).2 s)) → wpx (must f) Q s.
Proof.
  intros HQ. unfold must. apply wp_bind, forward_call. unfold fatal. destruct (Z.eqb_spec (f (kern s)).1 (-1)); [apply wp_fail; by left|by apply wp_ret, HQ].
Qed.

Lemma makes_lt k fd k' : makes k fd k' → fd ≠ -1 → fd < nofile.
Proof. by intros [[-> _]|([_ ?] & _)]. Qed.

(** The arrays are large enough, or the limit on descriptors is larger. *)
Lemma set_pair_wp a b Q s : length (forwardSockets s) = EPOLL_QUEUE_LEN → length (internalSockets s) = EPOLL_QUEUE_LEN →
  0 ≤ a < nofile → 0 ≤ b < nofile → (fit a b → Q () (paired a b s)) → wpx (set_pair a b) Q s.
Proof.
  intros Lf Li Ha Hb HQ.
  assert (∀ t x s', length (t s') = EPOLL_QUEUE_LEN → Z.of_nat EPOLL_QUEUE_LEN ≤ x → entry t x s' = Err Segv) as Hout.
  { intros t x s' Lt Hx. unfold entry. destruct (0 <=? x); [|done]. by rewrite lookup_ge_None_2 by lia. }
  assert (Z.of_nat EPOLL_QUEUE_LEN ≤ a ∨ Z.of_nat EPOLL_QUEUE_LEN ≤ b → exits Segv) as He by (intros ?; right; split; [done|left; lia]).
  destruct (decide (a < Z.of_nat EPOLL_QUEUE_LEN)) as [Ra|Ra].
  2: { unfold wp, set_pair, mbind, M_bind. rewrite Hout by (done || lia). apply He. lia. }
  destruct (decide (b < Z.of_nat EPOLL_QUEUE_LEN)) as [Rb|Rb].
  - apply (wp_ok _ _ _ () (paired a b s)); [apply set_pair_ok; lia|by apply HQ].
  - unfold set_pair. apply wp_bind. eapply wp_ok; [apply entry_ok; lia|]. apply wp_bind, wp_modify. unfold wp, mbind, M_bind. rewrite Hout by (done || lia). apply He. lia.
Qed.

(** A call that changes nothing. *)
Lemma must_same l P (f : K → Z * K) s : (∀ k, same k (f k).2) → inv l P s → wpx (must f) (λ _, inv l P) s.
Proof. intros Hf I. apply wp_must. intros _. by apply inv_same. Qed.

Lemma inv_add l P s fd : inv l P s → fd ∈ open_fds (kern s) → fd = l ∨ fd ∈ P → inv l P (set_kern (sys_epoll_add fd (kern s)).2 s).
Proof.
  intros [] Ho Hf. destruct (add_law fd (kern s)) as [E1 E2]. split; cbn; rewrite ?E1; try done.
  rewrite E2. intros x. case_match; [apply i_watch0|]. rewrite elem_of_union, elem_of_singleton. intros [->|Hx]; [|by apply i_watch0]. naive_solver.
Qed.

Lemma accept_one_ok l s : inv l ∅ s → wpx (accept_one l) (λ _, inv l ∅) s.
Proof.
  intros I. unfold accept_one. apply wp_bind, forward_call. pose proof (accept_law l (kern s)) as Ha. revert Ha.
  destruct (sys_accept l (kern s)) as [a k]. cbn [fst snd]. intros Ha. destruct (Z.eqb_spec a (-1)) as [->|Na]; [by apply wp_ret, (inv_makes _ _ _ (-1))|].
  destruct (forward_new _ _ _ _ _ I Ha Na) as [_ I1]. apply wp_bind, forward_call. eapply wp_seq; [apply must_same, inv_same, getfl_law; [apply setfl_law|done]|].
  intros ? s2 I2. cbn beta in I2. apply wp_bind, wp_must. intros _. destruct (i_pend _ _ _ I2 a) as (Oa & _); [set_solver|].
  eapply inv_add in I2; [|done|right; set_solver]. set (s3 := set_kern (sys_epoll_add a (kern s2)).2 s2) in *.
  apply wp_bind, wp_must. intros Nb. destruct (forward_new _ _ _ _ _ I2 (socket_law _) Nb) as [Hb I4]. set (b := (sys_socket _).1) in *. set (s4 := set_kern (sys_socket (kern s3)).2 s3) in *.
  apply wp_bind, forward_call. pose proof (resolve_law (kern s4)) as Hr. apply (inv_same _ _ _ _ I4) in Hr.
  destruct (sys_gethostbyname (kern s4)).1 eqn:Eh; [|apply wp_fail; right; eauto].
  eapply wp_seq; [by apply must_same; [apply connect_law|]|]. intros ? s5 I5. cbn beta in I5. destruct (i_pend _ _ _ I5 b) as (Ob & _); [set_solver|].
  apply wp_bind, wp_must. intros _. eapply inv_add in I5; [|done|right; set_solver]. set (s6 := set_kern (sys_epoll_add b (kern s5)).2 s5) in *.
  destruct (i_pend _ _ _ I5 a) as (Oa6 & _); [set_solver|]. destruct (i_pend _ _ _ I5 b) as (Ob6 & _); [set_solver|].
  pose proof (i_range _ _ _ I5 _ Oa6). pose proof (i_range _ _ _ I5 _ Ob6).
  apply makes_lt in Ha; [|done]. pose proof (makes_lt _ _ _ (socket_law (kern s3)) Nb).
  apply set_pair_wp; [apply I5|apply I5|lia|unfold b in *; lia|]. intros Hfit. apply inv_paired; [|set_solver|done]. by replace {[a; b]} with ({[b]} ∪ ({[a]} ∪ ∅) : gset Z) by set_solver.
Qed.

(** *** Passing on *)
Definition traced (k : K) (ts : list io_event) (s : state) : state := mk_state k (forwardSockets s) (internalSockets s) (trace s ++ ts).

Lemma same_trans k1 k2 k3 : same k1 k2 → same k2 k3 → same k1 k3.
Proof. unfold same. intros [-> ->] [-> ->]. done. Qed.

Lemma forward_loop_ok fuel fd to buf n s : 0 ≤ n < Z.of_nat fuel →
  wpx (forward_loop fuel fd (Some to) buf n) (λ _ s', ∃ k cs, same (kern s) k ∧ s' = traced k (block fd to buf cs) s ∧ Z.of_nat (length (concat cs)) ≤ n) s.
Proof.
  revert buf n s. induction fuel as [|fuel IH]; intros buf n s Hn; [lia|]. cbn [forward_loop]. apply wp_bind, forward_call.
  destruct (sys_recv fd n (kern s)) as [[m d] k] eqn:Er. cbn [fst snd]. destruct (recv_law _ _ _ _ _ _ (proj1 Hn) Er) as (Hs & Hm & Hd).
  rewrite Z.gtb_ltb. destruct (Z.ltb_spec 0 m) as [Pm|Pm].
  - specialize (Hd Pm). apply wp_bind, wp_modify, wp_bind, forward_call, wp_bind, wp_modify. set (s' := mk_state _ _ _ _).
    eapply wp_mono; [apply IH; lia|]. intros _ s2 (k' & cs & Hs' & -> & Hl). exists k', (d :: cs). split_and!.
    + eapply same_trans; [exact Hs|]. eapply same_trans; [apply send_law|exact Hs'].
    + unfold traced, s'. cbn. f_equal. by rewrite <-!app_assoc, <-Hd, Nat2Z.id.
    + cbn. rewrite length_app. lia.
  - apply wp_ret. exists k, []. split_and!; [done| |cbn; lia]. unfold traced, set_kern. cbn. by rewrite app_nil_r.
Qed.

(** A descriptor with a peer has an entry in the arrays. *)
Lemma peer_fits l P s fd : inv l P s → peer s fd ≠ 0 → (Z.to_nat fd < EPOLL_QUEUE_LEN)%nat.
Proof.
  intros I. assert (∀ t, length t = EPOLL_QUEUE_LEN → at_fd t fd ≠ 0 → (Z.to_nat fd < EPOLL_QUEUE_LEN)%nat) as Ht.
  { intros t <- Hn. unfold at_fd in Hn. destruct (t !! Z.to_nat fd) eqn:E; [by eapply lookup_lt_Some|done]. }
  unfold peer. destruct (Z.eqb_spec (back s fd) 0); intros Hn; [by apply (Ht _ (i_fwd_len _ _ _ I))|by apply (Ht _ (i_back_len _ _ _ I))].
Qed.

Lemma forwardData_ok l fd s : inv l ∅ s → 0 ≤ fd → peer s fd ≠ 0 → wpx (forwardData fd) (λ b s', b = true ∧ inv l ∅ s' ∧ watched (kern s') = watched (kern s)) s.
Proof.
  intros I Hf Hp. pose proof (peer_fits _ _ _ _ I Hp). unfold forwardData.
  apply wp_bind. eapply wp_ok; [apply entry_ok; rewrite (i_fwd_len _ _ _ I); lia|]. apply wp_bind. eapply wp_ok; [apply entry_ok; rewrite (i_back_len _ _ _ I); lia|].
  fold (fwd s fd) (back s fd). replace (if negb (back s fd =? 0) then _ else _) with (Some (peer s fd)).
  2: { unfold peer in *. destruct (Z.eqb_spec (back s fd) 0); cbn [negb]; [|done]. by rewrite (proj2 (Z.eqb_neq _ _)). }
  eapply wp_seq; [apply forward_loop_ok; unfold BUFLEN; lia|]. intros [] s' (k & cs & [E1 E2] & -> & Hl). apply wp_ret. split; [done|]. split; [|exact E2].
  destruct I. split; cbn [kern traced forwardSockets internalSockets trace]; rewrite ?E1, ?E2; try done.
  destruct i_trace0 as (bs & E & Hb). exists (bs ++ [(fd, cs)]). unfold blocks. rewrite fmap_app, concat_app, E. cbn. rewrite app_nil_r. split; [done|].
  apply Forall_app. split; [done|]. by repeat constructor.
Qed.

(** *** Nothing is taken from the descriptors that are watched *)
Definition grows {A} (m : M state A) : Prop := ∀ s, wp (λ _, True) m (λ _ s', watched (kern s) ⊆ watched (kern s')) s.

Lemma grows_bind {A B} (m : M state A) (f : A → M state B) : grows m → (∀ a, grows (f a)) → grows (m ≫= f).
Proof. intros Hm Hf s. eapply wp_seq; [apply Hm|]. intros a s' Hs. eapply wp_mono; [apply Hf|]. cbn. set_solver. Qed.

Lemma grows_id {A} (m : M state A) : (∀ s, match m s with Ok (_, s') => kern s' = kern s | Err _ => True end) → grows m.
Proof. intros Hm s. specialize (Hm s). unfold wp. destruct (m s) as [[a s']|]; [|done]. by rewrite Hm. Qed.

Lemma grows_call {A} (f : K → A * K) : (∀ k, watched k ⊆ watched (f k).2) → grows (call f).
Proof. intros Hf s. apply Hf. Qed.

Lemma grows_must (f : K → Z * K) : (∀ k, watched k ⊆ watched (f k).2) → grows (must f).
Proof. intros Hf. apply grows_bind; [by apply grows_call|]. intros r. apply grows_id. intros s. unfold fatal. by destruct (r =? -1). Qed.

Lemma same_watched k k' : same k k' → watched k ⊆ watched k'.
Proof. by intros [_ ->]. Qed.

Lemma makes_watched k fd k' : makes k fd k' → watched k ⊆ watched k'.
Proof. intros [[_ Hs]|(_ & _ & _ & ->)]; [by apply same_watched|done]. Qed.

Lemma add_watched fd k : watched k ⊆ watched (sys_epoll_add fd k).2.
Proof. destruct (add_law fd k) as [_ ->]. case_match; set_solver. Qed.

Lemma entry_grows t fd : grows (entry t fd).
Proof. apply grows_id. intros s. unfold entry. destruct (0 <=? fd); [|done]. by destruct (t s !! Z.to_nat fd). Qed.

Lemma accept_one_grows l : grows (accept_one l).
Proof.
  unfold accept_one, set_pair. repeat first
    [ apply entry_grows
    | apply grows_id; done
    | apply grows_call; intros ?; first [eapply makes_watched, accept_law|apply same_watched; first [apply getfl_law|apply resolve_law]]
    | apply grows_must; intros ?; first [apply add_watched|eapply makes_watched, socket_law|apply same_watched; first [apply setfl_law|apply connect_law]]
    | apply grows_bind; [|intros ?]
    | case_match ].
Qed.

Lemma wp_grows {A} (m : M state A) (Q : A → state → Prop) s : grows m → wpx m Q s → wpx m (λ a s', Q a s' ∧ watched (kern s) ⊆ watched (kern s')) s.
Proof. intros Hg. specialize (Hg s). unfold wp in *. by destruct (m s) as [[a s']|]. Qed.

(** *** The loops *)
Lemma events_loop_ok l evs s : Forall (λ e, e.1 ∈ watched (kern s) ∧ Z.land e.2 (Z.lor EV_IN (Z.lor EV_HUP EV_ERR)) ≠ 0) evs → inv l ∅ s →
  wpx (events_loop l evs) (λ _, inv l ∅) s.
Proof.
  revert s. induction evs as [|[fd ev] evs IH]; intros s He I; [by apply wp_ret|]. apply Forall_cons in He as [[Hw Hm] He]. cbn [fst snd] in Hw, Hm. cbn [events_loop].
  apply wp_seq with (P := λ _ s', inv l ∅ s' ∧ watched (kern s) ⊆ watched (kern s')).
  - destruct (Z.eqb_spec (Z.land ev (Z.lor EV_HUP EV_ERR)) 0) as [E0|]; cbn [negb]; [|by apply wp_ret].
    destruct (Z.eqb_spec (Z.land ev EV_IN) 0) as [E1|]; [by rewrite Z.land_lor_distr_r, E0, E1 in Hm|].
    destruct (Z.eqb_spec fd l) as [->|Nl]; [apply (wp_grows _ (λ _, inv l ∅)); [apply accept_one_grows|by apply accept_one_ok]|].
    destruct (i_watch _ _ _ I fd Hw) as [Of [?|[?|Hp]]]; [done|set_solver|]. pose proof (i_range _ _ _ I _ Of).
    eapply wp_seq; [apply (forwardData_ok l); [done|lia|done]|]. intros b s' (-> & I' & E). apply wp_ret. split; [done|by rewrite E].
  - intros _ s' [I' Hs]. apply IH; [|done]. eapply Forall_impl; [exact He|]. cbn. intros e [? ?]. split; [by apply Hs|done].
Qed.

Lemma forward_serve l n s : inv l ∅ s → wpx (serve n l) (λ _, inv l ∅) s.
Proof.
  revert s. induction n as [|n IH]; intros s I; [by apply wp_ret|]. cbn [serve]. apply wp_bind, forward_call.
  destruct (sys_epoll_wait (kern s)) as [[m evs] k] eqn:Ew. cbn [fst snd]. destruct (wait_law _ _ _ _ Ew) as [Hs He].
  pose proof (inv_same _ _ _ _ I Hs) as I'. apply wp_seq with (P := λ _, inv l ∅); [|intros _ s'; apply IH].
  destruct (Z.ltb_spec m 0); [apply wp_fail; by left|]. destruct He as [?|He]; [lia|]. apply events_loop_ok; [|done]. destruct Hs as [_ E]. cbn. by rewrite E.
Qed.

(** The listening socket is open. *)
Definition listening (l : Z) (s : state) : Prop := inv l ∅ s ∧ l ∈ open_fds (kern s).

Lemma listening_same l s k : listening l s → same (kern s) k → listening l (set_kern k s).
Proof. intros [I Ho] Hs. split; [by apply inv_same|]. destruct Hs as [E _]. cbn. by rewrite E. Qed.

Lemma must_listening l (f : K → Z * K) s : (∀ k, same k (f k).2) → listening l s → wpx (must f) (λ _, listening l) s.
Proof. intros Hf I. apply wp_must. intros _. by apply listening_same. Qed.

Lemma setup_ok port s : (∀ l, inv l ∅ s) → wpx (setup port) (λ l s', inv l ∅ s' ∧ l ∈ watched (kern s')) s.
Proof.
  intros I. unfold setup. apply wp_bind, wp_must. pose proof (socket_law (kern s)) as Hm. revert Hm. destruct (sys_socket (kern s)) as [l k]. cbn [fst snd]. intros Hm Nl.
  assert (listening l (set_kern k s)) as L.
  { split; [by apply (inv_makes _ _ _ l)|]. destruct Hm as [[-> _]|(_ & _ & E & _)]; [done|]. cbn. rewrite E. set_solver. }
  revert L. generalize (set_kern k s). clear s I Hm. intros s L.
  eapply wp_seq; [by apply (must_listening l); [apply setsockopt_law|]|]. intros ? s1 L1. apply wp_bind, forward_call.
  eapply wp_seq; [by apply (must_listening l), listening_same, getfl_law; [apply setfl_law|]|]. intros ? s2 L2.
  eapply wp_seq; [by apply (must_listening l); [apply bind_law|]|]. intros ? s3 L3.
  eapply wp_seq; [by apply (must_listening l); [apply listen_law|]|]. intros ? s4 [I4 O4].
  apply wp_bind, wp_must. intros _. pose proof (inv_makes _ _ _ _ _ I4 (create_law _)) as I5.
  assert (l ∈ open_fds (sys_epoll_create (kern s4)).2) as O5 by (destruct (create_law (kern s4)) as [[_ [-> _]]|(_ & _ & -> & _)]; set_solver).
  apply wp_bind, wp_must. intros Nr. apply wp_ret. split; [apply inv_add; [done|exact O5|by left]|].
  cbn in Nr |- *. destruct (add_law l (sys_epoll_create (kern s4)).2) as [_ ->]. rewrite (proj2 (Z.eqb_neq _ _)) by done. set_solver.
Qed.

Lemma at_replicate n fd : at_fd (replicate n 0) fd = 0.
Proof. unfold at_fd. destruct (replicate n 0 !! Z.to_nat fd) as [v|] eqn:E; [|done]. by apply lookup_replicate_1 in E as [-> _]. Qed.

Lemma forward_init l k : 0 ∈ open_fds k → (∀ fd, fd ∈ open_fds k → 0 ≤ fd) → watched k = ∅ → inv l ∅ (init k).
Proof.
  intros H0 Hr Hw. assert (∀ a, fwd (init k) a = 0) as F by (intros; apply at_replicate). assert (∀ a, back (init k) a = 0) as B by (intros; apply at_replicate).
  split; try done.
  - intros a _. by rewrite F.
  - intros a _. by rewrite B.
  - cbn. rewrite Hw. set_solver.
  - by exists [].
Qed.
End proxy.

Arguments state : clear implicits.

(** ** Properties *)

(** C17: the proxy runs for any number of rounds, whatever the kernel reports.
    The two sides of each connection are peers of each other.  Data never
    crosses from one connection to another: all that is received and sent is
    made up of blocks, each the result of one call of [forwardData] for a
    descriptor that has a peer.  In a block every piece that is received is
    followed by as many bytes handed to send for the peer, from the start of
    what the block has received so far, at most 1024 bytes in all.  The proxy
    ends when a call of the kernel fails; it accesses memory that it does not
    own only for a descriptor of 256 or more, if the limit on descriptors allows
    one, and when the name of the machine behind it is not resolved. *)
Theorem forward_proxy_correct {K} `{Kernel K} `{!KernelLaws K} n port (k : K) :
  0 ∈ open_fds k → (∀ fd, fd ∈ open_fds k → 0 ≤ fd) → watched k = ∅ →
  match main n port (init k) with
  | Ok (l, s) =>
      (∀ a, 0 ≤ a → peer s a ≠ 0 → a ∈ open_fds (kern s) ∧ peer s a ∈ open_fds (kern s) ∧ peer s (peer s a) = a) ∧
      (∀ a, a ∈ watched (kern s) → a ∈ open_fds (kern s) ∧ (a = l ∨ peer s a ≠ 0)) ∧
      ∃ bs, trace s = blocks s bs ∧ Forall (is_block s) bs
  | Err e => e = Exit ∨ e = Segv ∧ (Z.of_nat EPOLL_QUEUE_LEN < nofile ∨ ∃ k, (sys_gethostbyname k).1 = false)
  end.
Proof.
  intros H0 Hr Hw. assert (wp exits (main n port) (λ l, inv l ∅) (init k)) as Hm.
  { unfold main. eapply wp_seq; [apply setup_ok; intros l; by apply forward_init|]. intros l s [I _]. eapply wp_seq; [by apply forward_serve|]. by intros ? s' I'. }
  unfold wp in Hm. destruct (main n port (init k)) as [[l s]|]; [|exact Hm]. split_and!.
  - intros a. by apply (peer_ok l ∅).
  - intros a Ha. destruct (i_watch _ _ _ Hm a Ha) as (? & [|[|]]); [auto|set_solver|auto].
  - apply Hm.
Qed.

(** The bytes of a block that are sent. *)
Definition sent_bytes (ts : list io_event) : list Z := concat ((λ t, match t with Sent _ d => d | Received _ _ => [] end) <$> ts).

(** What arrives in one piece is passed on.  Of two pieces the second is not: the
    start of the first is sent again. *)
Lemma block_one fd to c : sent_bytes (block fd to [] [c]) = c.
Proof. unfold sent_bytes. cbn. by rewrite take_ge, app_nil_r by done. Qed.

Lemma block_two fd to c d : (length d ≤ length c)%nat → sent_bytes (block fd to [] [c; d]) = c ++ take (length d) c.
Proof. intros Hl. unfold sent_bytes. cbn. rewrite take_ge, take_app_le by done. by rewrite app_nil_r. Qed.

(** *** A kernel that reports and receives what a script says *)
Record demo := mk_demo { d_open : gset Z; d_watched : gset Z; d_events : list (list (Z * Z)); d_data : list (list Z) }.

Definition demo_new (k : demo) : Z * demo :=
  match list_find (λ fd, fd ∉ d_open k) (seqZ 0 1024) with
  | Some (_, fd) => (fd, mk_demo ({[fd]} ∪ d_open k) (d_watched k) (d_events k) (d_data k))
  | None => (-1, k)
  end.

Definition demo_event (k : demo) (e : Z * Z) : Prop := e.1 ∈ d_watched k ∧ Z.land e.2 (Z.lor EV_IN (Z.lor EV_HUP EV_ERR)) ≠ 0.
#[export] Instance demo_event_dec k e : Decision (demo_event k e).
Proof. unfold demo_event. apply _. Defined.

#[export] Instance demo_kernel : Kernel demo := {
  nofile := 1024;
  open_fds := d_open;
  watched := d_watched;
  sys_socket := demo_new;
  sys_setsockopt _ k := (0, k);
  sys_getfl _ k := (2, k);
  sys_setfl _ _ k := (0, k);
  sys_bind _ _ k := (0, k);
  sys_listen _ k := (0, k);
  sys_epoll_create := demo_new;
  sys_epoll_add fd k := (0, mk_demo (d_open k) ({[fd]} ∪ d_watched k) (d_events k) (d_data k));
  sys_epoll_wait k := let evs := filter (demo_event k) (default [] (head (d_events k))) in
    (Z.of_nat (length evs), evs, mk_demo (d_open k) (d_watched k) (tail (d_events k)) (d_data k));
  sys_accept _ := demo_new;
  sys_gethostbyname k := (true, k);
  sys_connect _ _ k := (0, k);
  sys_recv _ len k :=
    let d := take (Z.to_nat len) (default [] (head (d_data k))) in
    (if bool_decide (d = []) then -1 else Z.of_nat (length d), d, mk_demo (d_open k) (d_watched k) (d_events k) (tail (d_data k)));
  sys_send _ d k := (Z.of_nat (length d), k);
  sys_close _ k := (0, k) }.

Lemma demo_new_law k : makes k (demo_new k).1 (demo_new k).2.
Proof.
  unfold demo_new. destruct (list_find _ _) as [[i fd]|] eqn:E; [|by left]. right. apply list_find_Some in E as (E & Hf & _).
  apply list_elem_of_lookup_2, elem_of_seqZ in E. cbn [fst snd]. split; [cbn; lia|]. by split_and!.
Qed.

#[export] Instance demo_laws : KernelLaws demo.
Proof.
  split; try (intros; by (apply demo_new_law || split)).
  - intros k n evs k' [= <- <- <-]. split; [done|]. right. apply Forall_forall. intros e He. by apply list_elem_of_filter in He as [He _].
  - intros fd len k n d k' Hl [= <- <- <-]. split; [done|]. case_bool_decide as Hd; [lia|]. rewrite length_take. lia.
Qed.

(** One connection with two pieces of data. *)
Definition demo_start : demo := mk_demo {[0; 1; 2]} ∅ [[(3, EV_IN)]; [(5, EV_IN)]] [[97; 98]; [99]].

Lemma demo_run : match main 2 8667 (init demo_start) with
  | Ok (_, s) => peer s 5 = 6 ∧ trace s = [Received 5 [97; 98]; Sent 6 [97; 98]; Received 5 [99]; Sent 6 [97]]
  | Err _ => False
  end.
Proof. vm_compute. done. Qed.

(** The limit of this kernel is larger than the arrays: with 256 descriptors in
    use, the first connection is stored behind them. *)
Lemma demo_overflow : main 1 8667 (init (mk_demo (list_to_set (seqZ 0 256)) ∅ [[(256, EV_IN)]] [])) = Err Segv.
Proof. vm_compute. reflexivity. Qed.

Lemma forward_proxy_correct_witness :
  ∃ l s, main 2 8667 (init demo_start) = Ok (l, s) ∧ peer s 5 = 6 ∧ peer s 6 = 5 ∧
    trace s = [Received 5 [97; 98]; Sent 6 [97; 98]; Received 5 [99]; Sent 6 [97]].
Proof.
  pose proof (forward_proxy_correct 2 8667 demo_start) as Hm. pose proof demo_run as Hd.
  destruct (main 2 8667 (init demo_start)) as [[l s]|e]; [|done]. exists l, s. destruct Hd as [E5 Et].
  split_and!; [done|done| |done]. destruct Hm as (Hp & _); [set_solver|intros fd; cbn; set_solver by lia|done|].
  destruct (Hp 5) as (_ & _ & E6); [lia|by rewrite E5|]. by rewrite E5 in E6.
Defined.
